(* ===== verification/_CoqProject ===== *)
-Q . S2P
Prelude.v
BloomFilter.v
StdHeap.v
LRUCache.v
CppString.v
Url.v
Posix.v
PosixDirs.v
FileBlockStore.v
FileBlockStoreProps.v
FbsFrame.v
FbsRace.v
ServiceNode.v
Mesh.v
MeshMembers.v
MeshRestart.v
Rpc.v
RpcNet.v
RpcComplete.v
RpcLife.v
RpcBenchmark.v
RemoteBlockStore.v
RemoteNet.v
Fileutil.v
BlockStoreDaemon.v
NodeStart.v
DaemonMesh.v
