(* ===== verification/Prelude.v ===== *)
(** * RawDishFS: a verification of its block stores, RPC layer and utilities

    ** The program

    RawDishFS (src/src) is a C++ prototype of a distributed block store.  Its
    parts, from the bottom up:

    - [util]: a bloom filter ([bloomfilter.cc]), an LRU cache ([lrucache.h])
      and a URL class ([url.h]);
    - [rpc]: remote procedure calls over TCP with msgpack ([rpc.h], [rpc.cc])
      and a full-mesh node that shares reference-counted group memberships
      with its peers ([service_node.h], [service_node.cc]);
    - [blockstore]: the interface [BlockStore] ([blockstore.h]), its
      implementation on a directory ([fileblockstore.h], [fileblockstore.cc]),
      a proxy for remote stores ([remoteblockstore.h]) and the node that ties
      stores and peers together ([blockstore_daemon.h],
      [blockstore_daemon.cc]).

    A [FileBlockStore] feeds a [BloomFilter] with the keys it stores, a
    [RemoteBlockStore] reaches a [FileBlockStore] through named RPC functions,
    and a [BlockStoreNode] keeps local and remote stores in one table.

    ** The files

    - [Prelude]: C++ values and faults ([outcome], with one [fault] for each
      way of leaving the defined part of the language), machine integers as
      [Z] with their wrap-around, little-endian words, loops with fuel
      ([ends]), iteration over a [std::map] in key order, shared tactics and
      the hint database [cint].
    - [BloomFilter]: module [BloomFilter] is the class over a buffer that
      knows its allocation and its initialised prefix; [BloomSpec] is the
      abstract filter, a set of bit positions; [BloomFacts] the
      representation relation and the setoid of filters that answer alike;
      [BloomProps] the properties.
    - [StdHeap]: the contract of [make_heap], [push_heap] and [pop_heap]
      with the preconditions of the standard ([HeapOps], [HeapContract]) and
      the libstdc++ algorithms as an instance.
    - [LRUCache]: module [LRUCache] is the class over a store of heap objects
      shared by the vector and the map, in which using these algorithms on a
      vector that is not a heap is a fault; [LRUSpec] is a list in order of
      use.
    - [CppString]: the [std::string] and C library functions the sources use
      ([find], [rfind], [substr], [c_str], [atoi], [%d], [%lu]).
    - [Url]: class [URL], on its fields ([Url]) and as objects that may not be
      initialised ([UrlObject]).
    - [Posix]: the system calls of the file store as an interface ([Posix],
      [PosixLaws]: any call may fail, a write may be partial) and an in-memory
      file system that satisfies it.  [PosixDirs]: what a program relies on
      that works on several directories ([PosixApart]), and an in-memory
      system with many of them.
    - [FileBlockStore], [FileBlockStoreProps]: the directory-backed store, its
      contract [FbsSpec] (a map from keys to bytes), traces of calls
      ([FbsRun]) and the properties, for every system that satisfies
      [PosixLaws].  [FbsFrame]: a store leaves other directories alone.
      [FbsRace]: what two threads in one store can do to a block.
    - [ServiceNode]: [ServiceNode::Internal], with the calls written to each
      peer and a log of callback invocations; [RPCAddPeer] in the two parts
      before and after it takes the mutex.  [Mesh]: any number of nodes with
      the calls on their way between them, executed in any order, the threads
      that race in [RPCAddPeer], nodes that leave and connections that break.
      [MeshMembers]: members that are added and removed, one change after the
      other.  [MeshRestart]: a node that comes back at its old address.
    - [Rpc]: the two ends of a connection ([Server], [Client]) over an
      interface to msgpack ([Msgpack], [MsgpackLaws]); the registered functions
      share a state.  [RpcNet]: any number of connections to one server, byte
      streams cut anywhere, workers scheduled freely.  [RpcComplete]: the work
      that is left on a connection, and that it can be done.  [RpcLife]: the
      life of servers, connections, clients and their callbacks.
      [RpcBenchmark]: the whole test of [rpc_benchmark.cc] on that network.
    - [RemoteBlockStore]: the interface [BlockStore] as a class, publication
      of a store on an RPC server, and the proxy.  [RemoteNet]: any number of
      published file stores as the state of an [RpcNet] server.
    - [Fileutil]: the command line tool [fileutil.cc].
    - [BlockStoreDaemon]: [BlockStoreNode]: peers, announced stores, placement
      of blocks and the timer chain.  [DaemonMesh]: networks of these nodes,
      which may leave or crash, and the demonstration [main].
    - [NodeStart]: how both kinds of node choose their ports and come up, and
      how a service node goes down.

    ** What the theorems show

    - The bloom filter implements a set of bit positions and never forgets a
      key; the serialised form of a filter of up to [100*1024*1024] bits
      round-trips and every other octet vector is rejected; the hash is
      FNV-1a.  The receiving buffer is not resized by [deserialize], which can
      overrun it.
    - The file store refines a map from keys to bytes for every sequence of
      calls; all calls end without faults (except [next] on a directory that
      cannot be opened); every key of its block set has a file and is
      reported by its bloom filter; accepted blocks are read back; [next] enumerates the directory.
      Short blocks are refused, oversized ones destroy what was there, and
      keys starting with a dot drop out of the index.
    - The cache is a least-recently-used cache, uses no dangling pointer and
      leaks nothing as long as no entry is added between an overwriting [put]
      and the next hit.  Without that discipline the one thing that can go
      wrong is that [push_heap] is used on a vector that is not a heap, which
      is undefined; with the algorithms of libstdc++ the cache then evicts
      entries it should keep.
    - RPC is linearizable: under every interleaving and fragmentation the
      executed calls have a serial order that explains the state of the
      handlers and all answers, and that respects the order of calls that did
      not overlap; once the network is quiet every call is answered, and
      as long as the functions return it can always be brought there; typed
      calls return what the registered function returned.  The benchmark
      passes under every interleaving, up to the mutex it destroys too early.
    - A connection or client that was let go of is disconnected, keeps nothing
      alive and runs no callback.  A client whose server is gone is not told:
      its calls wait until it is disconnected.
    - A group callback has been told exactly the members of its group, apart
      from names that were removed while they were absent, and a node that
      joins learns all members.  Reference counts above one are
      never released and are not part of the handshake, so directories
      diverge once members are removed.
    - A network of service nodes exchanges only finitely many calls, however
      its threads race and whatever nodes leave; when they are done, its nodes
      form cliques, nodes that were linked through nodes that are still up are
      in the same one, and what a node has announced is known to its peers.
      As long as no node leaves and nothing is removed, connected nodes agree
      on the members of every group.  Nodes of a network at rest that add and
      remove members one after the other implement one set of members; a node
      that joins later can miss a removal, and a node that comes back before
      its peers have noticed that it was gone can stay connected one way only.
    - URLs: exactly which objects survive printing and parsing, and equality.
    - The proxy of a store is equivalent to the store, for any number of
      stores on one server, except for its bloom filter, which is always
      empty, and for empty blocks, for which it takes the address of the first
      element of an empty vector.  Over the network, any number of clients of
      a server that runs one handler at a time see stores each of which
      behaves like the map specification and none of which is disturbed by
      calls for another, and read what was written.
    - A daemon node never keeps a store of a peer that is gone; removing the
      peer erases every identifier it announced, also one that a local store
      has taken.  A network of daemon nodes, each of which executes one call at
      a time, refines one of service nodes, whatever nodes leave or crash, and
      always comes to rest, in cliques; a node crashes exactly when it is told
      of a node that it does not know and cannot connect to, so it need not
      while all nodes stay up, and the five nodes of [main] end up connected to
      each other.  A node places blocks in the store with less free space.
    - New nodes have a valid port and an empty directory; the reference counts
      of members are positive [int]s; a node that is destroyed closes all its
      connections.

    ** Bounds and fuel

    Loops over containers are structural.  The directory scans take fuel, and
    statements about them say that the scan ends with a result from some
    amount of fuel on ([ends]), which is one more than the number of directory
    entries.  The receive loops of the RPC layer are given one more than the
    number of buffered bytes, and every object takes at least one byte.  No
    theorem admits the fault [OutOfFuel].  Access times of the cache and RPC
    identifiers are 64-bit counters; the theorems about runs assume fewer than
    [2^64] calls.

    ** What is not modelled

    The event loop, sockets and futures of epoll_threadpool, msgpack's own
    encoding, and logging are libraries outside the repository; the models
    depend on the interfaces above.  Thread safety beyond the atomic sections
    is out of scope: [ServiceNode] operations run under a mutex (apart from the
    lookup and connection at the start of [RPCAddPeer], which are a step of
    their own, and [shutdown]), RPC handlers are interleaved at the granularity
    of enqueued functions, and the operations of a [BlockStoreNode] do not
    overlap, although [FileBlockStore] and [BlockStoreNode] have no lock of
    their own.  So the theorems about published stores and networks of daemon
    nodes are about processes with one worker;
    [FbsRace.racing_puts_mix] and [DaemonProps.racing_threads_crash] show what
    two workers can do.  In the theorems about networks a service node that
    has left does not come back at the same address ([MeshRestart] shows why
    they would not hold), and neither does a daemon node; removals that overlap
    with other changes of the network are not considered.  The stores of a
    server are in different directories.  An unpacker that runs out of memory,
    the random port and timing of the benchmark, and the unit tests are left
    out; [Peer::setBlock] and [Peer::getBlock] of the daemon have empty bodies,
    and the calls of [stop] at the end of its [main] are never reached.  What
    remains of the sources are declarations, comments, code that is commented
    out, and wrappers that only forward to the operations modelled here.

    ** What could be added

    Handlers of one store that run at the same time on several threads, which
    the source does not protect against each other: a statement about them
    would need a model of the C++ memory that these races leave undefined. *)

From Stdlib Require Import ZArith Lia Ascii.
From stdpp Require Import base gmap strings fin_maps numbers sorting list.

Local Open Scope Z_scope.

(** ** Undefined behaviour and exceptions as values

    A C++ operation that is defined returns [Ok v].  The ways in which the
    modelled code can leave the defined part of the language are the
    constructors of [fault]. *)
Inductive fault : Type :=
  | NullDeref
  | OutOfBounds
  | UseAfterFree
  | Indeterminate
  | DivByZero
  | SignedOverflow
  | BadAlloc
  (** An uncaught exception ([msgpack::type_error]). *)
  | Throws
  (** [push_heap] or [pop_heap] on a range that is not a heap. *)
  | NotAHeap
  (** A wait for a future that nobody sets. *)
  | Hangs
  (** A loop of the model ran out of its fuel; no theorem admits it. *)
  | OutOfFuel.

Inductive outcome (A : Type) : Type :=
  | Ok (a : A)
  | Fault (f : fault).
Arguments Ok {A} _.
Arguments Fault {A} _.

#[global] Instance fault_eq_dec : EqDecision fault.
Proof. solve_decision. Defined.

#[global] Instance outcome_eq_dec `{EqDecision A} : EqDecision (outcome A).
Proof. solve_decision. Defined.

#[global] Instance outcome_ret : MRet outcome := @Ok.

#[global] Instance outcome_bind : MBind outcome :=
  fun _ _ k m => match m with Ok a => k a | Fault f => Fault f end.

(** [&v[0]] of a vector. *)
Definition first_element {A} (v : list A) : outcome unit :=
  match v with [] => Fault OutOfBounds | _ => Ok tt end.

#[global] Instance outcome_fmap : FMap outcome :=
  fun _ _ g m => match m with Ok a => Ok (g a) | Fault f => Fault f end.

(** Running off a null pointer. *)
Definition deref {A} (p : option A) : outcome A :=
  match p with Some a => Ok a | None => Fault NullDeref end.

(** ** Machine integers as [Z] with the wrap-around written out *)

Definition to_u8 (z : Z) : Z := (z mod 2 ^ 8).
Definition to_u16 (z : Z) : Z := (z mod 2 ^ 16).
Definition to_u32 (z : Z) : Z := (z mod 2 ^ 32).
Definition to_u64 (z : Z) : Z := (z mod 2 ^ 64).
(** Conversion to a 32-bit [int]: two's complement, as every supported
    compiler does it. *)
Definition to_i32 (z : Z) : Z := ((z + 2 ^ 31) mod 2 ^ 32 - 2 ^ 31).

Definition INT_MAX : Z := (2 ^ 31 - 1).
Definition INT_MIN : Z := (- 2 ^ 31).

Definition is_u8 (z : Z) : Prop := (0 <= z < 2 ^ 8).
Definition is_u32 (z : Z) : Prop := (0 <= z < 2 ^ 32).
Definition is_u64 (z : Z) : Prop := (0 <= z < 2 ^ 64).
Definition is_i32 (z : Z) : Prop := (- 2 ^ 31 <= z < 2 ^ 31).

(** The [uint8_t] value of a [char] of a [std::string]. *)
Definition char_to_u8 (c : ascii) : Z := Z.of_N (N_of_ascii c).

Declare Scope outcome_scope.
Delimit Scope outcome_scope with outcome.
(** [m ⇓ v]: the operation is defined and returns [v]. *)
Notation "m ⇓ v" := (m = Ok v) (at level 70, no associativity) : outcome_scope.
Open Scope outcome_scope.

(** ** Automation *)

Create HintDb cint discriminated.

(** Invert a successful bind. *)
Lemma outcome_bind_ok {A B} (m : outcome A) (k : A -> outcome B) b :
  (m ≫= k) = Ok b -> exists a, m = Ok a /\ k a = Ok b.
Proof. destruct m; simpl; [eauto | done]. Qed.

Ltac inv_ok :=
  repeat match goal with
  | H : (_ ≫= _) = Ok _ |- _ =>
      let a := fresh "a" in let Ha := fresh "Ha" in
      apply outcome_bind_ok in H; destruct H as (a & Ha & H)
  | H : Ok _ = Ok _ |- _ => injection H; clear H; intros; subst
  | H : Fault _ = Ok _ |- _ => discriminate H
  | H : Ok _ = Fault _ |- _ => discriminate H
  end.

(** Closed lists of octets. *)
Ltac solve_octets := repeat constructor; unfold is_u8; lia.

(** ** Integer facts *)

Lemma to_u8_range z : is_u8 (to_u8 z).
Proof. unfold is_u8, to_u8. apply Z.mod_pos_bound. lia. Qed.

Lemma to_u32_range z : is_u32 (to_u32 z).
Proof. unfold is_u32, to_u32. apply Z.mod_pos_bound. lia. Qed.

Lemma to_u64_range z : is_u64 (to_u64 z).
Proof. unfold is_u64, to_u64. apply Z.mod_pos_bound. lia. Qed.

Lemma to_i32_range z : is_i32 (to_i32 z).
Proof.
  unfold is_i32, to_i32.
  pose proof (Z.mod_pos_bound (z + 2 ^ 31) (2 ^ 32) ltac:(lia)). lia.
Qed.

Lemma to_u8_id z : is_u8 z -> to_u8 z = z.
Proof. apply Z.mod_small. Qed.

Lemma to_u32_id z : is_u32 z -> to_u32 z = z.
Proof. apply Z.mod_small. Qed.

Lemma to_u64_id z : is_u64 z -> to_u64 z = z.
Proof. apply Z.mod_small. Qed.

Lemma to_i32_id z : is_i32 z -> to_i32 z = z.
Proof. unfold is_i32, to_i32. intros. rewrite Z.mod_small; lia. Qed.

Lemma char_to_u8_range c : is_u8 (char_to_u8 c).
Proof.
  unfold is_u8, char_to_u8. pose proof (N_ascii_bounded c). lia.
Qed.

#[export] Hint Resolve to_u8_range to_u32_range to_u64_range to_i32_range
  char_to_u8_range : cint.

(** The low [n] bits of a number, and bitwise operators on bounded values. *)
Lemma Z_bounded_testbit w z :
  (0 <= w) -> 0 <= z < 2 ^ w <->
  (0 <= z) /\ forall i, (w <= i) -> Z.testbit z i = false.
Proof.
  intros Hw. split.
  - intros [H0 H1]. split; [done|]. intros i Hi.
    destruct (Z.eq_dec z 0) as [->|Hz]; [apply Z.bits_0|].
    apply Z.bits_above_log2; [done|].
    apply Z.log2_lt_pow2; [lia|].
    eapply Z.lt_le_trans; [exact H1|]. apply Z.pow_le_mono_r; lia.
  - intros [H0 Hb]. split; [done|].
    destruct (Z.lt_ge_cases z (2 ^ w)) as [|Hge]; [done|].
    assert (0 < z) by (pose proof (Z.pow_pos_nonneg 2 w); lia).
    apply Z.log2_le_pow2 in Hge; [|done].
    pose proof (Z.bit_log2 z ltac:(lia)). rewrite Hb in *; done.
Qed.

Lemma lor_u8 a b : is_u8 a -> is_u8 b -> is_u8 (Z.lor a b).
Proof.
  unfold is_u8. rewrite !(Z_bounded_testbit 8) by lia.
  intros [Ha Ha'] [Hb Hb']. split; [by apply Z.lor_nonneg|].
  intros i Hi. by rewrite Z.lor_spec, Ha', Hb'.
Qed.

Lemma bit_u8 i : (0 <= i < 8) -> is_u8 (Z.shiftl 1 i).
Proof.
  intros Hi. unfold is_u8. rewrite Z.shiftl_1_l.
  split; [apply Z.pow_nonneg; lia|]. apply Z.pow_lt_mono_r; lia.
Qed.

Lemma land_7 z : Z.land z 7 = (z mod 8).
Proof. apply (Z.land_ones z 3). lia. Qed.

Lemma shiftr_3 z : Z.shiftr z 3 = (z / 8).
Proof. by rewrite Z.shiftr_div_pow2 by lia. Qed.

#[export] Hint Resolve lor_u8 bit_u8 : cint.

(** ** Little-endian fixed-width integers in byte vectors

    [reinterpret_cast<uint32_t *>(&v[k])] on the little-endian hosts the
    program is built for. *)
Definition le32_encode (z : Z) : list Z :=
  [ Z.land z 255;
    Z.land (Z.shiftr z 8) 255;
    Z.land (Z.shiftr z 16) 255;
    Z.land (Z.shiftr z 24) 255 ].

Definition le32_decode (l : list Z) : outcome Z :=
  match l with
  | b0 :: b1 :: b2 :: b3 :: _ =>
      Ok (Z.lor b0 (Z.shiftl (Z.lor b1 (Z.shiftl (Z.lor b2 (Z.shiftl b3 8)) 8)) 8))
  | _ => Fault OutOfBounds
  end.

Lemma land_255 z : Z.land z 255 = (z mod 256).
Proof. apply (Z.land_ones z 8). lia. Qed.

Lemma land_shiftl_8 a b : is_u8 a -> Z.land a (Z.shiftl b 8) = 0%Z.
Proof.
  intros Ha. apply Z.bits_inj'. intros i Hi. rewrite Z.land_spec, Z.bits_0.
  destruct (Z.lt_ge_cases i 8).
  - rewrite Z.shiftl_spec_low by done. apply andb_false_r.
  - apply (Z_bounded_testbit 8) in Ha; [|lia]. destruct Ha as [_ Ha].
    by rewrite Ha.
Qed.

Lemma lor_shiftl_8 a b : is_u8 a -> Z.lor a (Z.shiftl b 8) = (a + 256 * b).
Proof.
  intros Ha. rewrite <- Z.lxor_lor, <- Z.add_nocarry_lxor
    by (by apply land_shiftl_8).
  rewrite Z.shiftl_mul_pow2 by lia. lia.
Qed.

Lemma le32_encode_length z : length (le32_encode z) = 4%nat.
Proof. done. Qed.

Lemma le32_encode_bytes z : Forall is_u8 (le32_encode z).
Proof.
  unfold le32_encode, is_u8. rewrite !land_255.
  repeat constructor; apply Z.mod_pos_bound; lia.
Qed.

Lemma le32_roundtrip z rest :
  is_u32 z -> le32_decode (le32_encode z ++ rest) = Ok z.
Proof.
  intros Hz. pose proof (le32_encode_bytes z) as Hb. unfold le32_encode in *.
  simpl. decompose_Forall_hyps.
  rewrite !lor_shiftl_8 by done. rewrite !land_255, !Z.shiftr_div_pow2 by lia.
  unfold is_u32 in Hz. f_equal.
  change (2 ^ 8) with 256%Z. change (2 ^ 16) with (256 * 256).
  change (2 ^ 24) with (256 * 256 * 256).
  rewrite <- !Z.div_div by lia.
  rewrite (Z.mod_small (z / 256 / 256 / 256) 256)
    by (split; [repeat apply Z.div_pos; lia | rewrite !Z.div_div by lia; apply Z.div_lt_upper_bound; lia]).
  pose proof (Z.div_mod z 256). pose proof (Z.div_mod (z / 256) 256).
  pose proof (Z.div_mod (z / 256 / 256) 256). lia.
Qed.

Lemma le32_decode_ok l :
  (4 <= length l)%nat -> Forall is_u8 l -> exists z, le32_decode l = Ok z /\ is_u32 z.
Proof.
  destruct l as [|b0 [|b1 [|b2 [|b3 l]]]]; simpl; try lia. intros _.
  intros Hb. decompose_Forall_hyps.
  eexists; split; [reflexivity|]. rewrite !lor_shiftl_8 by done.
  unfold is_u32, is_u8 in *. lia.
Qed.

(** Every four bytes are the image of the number they decode to. *)
Lemma le32_decode_inv b0 b1 b2 b3 rest z :
  Forall is_u8 [b0; b1; b2; b3] -> le32_decode (b0 :: b1 :: b2 :: b3 :: rest) = Ok z ->
  le32_encode z = [b0; b1; b2; b3].
Proof.
  intros Hb [= <-]. decompose_Forall_hyps. rewrite !lor_shiftl_8 by done.
  unfold le32_encode. rewrite !land_255, !Z.shiftr_div_pow2 by lia.
  change (2 ^ 16) with (2 ^ 8 * 2 ^ 8). change (2 ^ 24) with (2 ^ 8 * 2 ^ 8 * 2 ^ 8).
  rewrite <- !Z.div_div by lia. change (2 ^ 8) with 256. unfold is_u8 in *.
  assert (Hdiv : forall a b, 0 <= a < 2 ^ 8 -> (a + 256 * b) / 256 = b).
  { intros a b Ha. rewrite Z.mul_comm, Z.div_add by lia. rewrite Z.div_small; lia. }
  assert (Hmod : forall a b, 0 <= a < 2 ^ 8 -> (a + 256 * b) mod 256 = a).
  { intros a b Ha. rewrite Z.mul_comm, Z.mod_add by lia. apply Z.mod_small; lia. }
  rewrite !Hdiv, !Hmod by done. by rewrite Z.mod_small by lia.
Qed.

(** ** Loops with fuel *)

(** The computation ends with [a]: from some amount of fuel on, [a] is what
    it returns. *)
Definition ends {A} (f : nat -> outcome A) (a : A) : Prop :=
  exists n, forall fuel, (n <= fuel)%nat -> f fuel = Ok a.

Lemma ends_det {A} (f : nat -> outcome A) a b : ends f a -> ends f b -> a = b.
Proof.
  intros [m Hm] [n Hn]. specialize (Hm (m + n)%nat ltac:(lia)).
  specialize (Hn (m + n)%nat ltac:(lia)). congruence.
Qed.

Lemma ends_bind {A B} (f : nat -> outcome A) (g : nat -> A -> outcome B) a b :
  ends f a -> ends (fun fuel => g fuel a) b -> ends (fun fuel => f fuel ≫= g fuel) b.
Proof.
  intros [m Hm] [n Hn]. exists (m + n)%nat. intros fuel Hle.
  rewrite Hm by lia. simpl. apply Hn. lia.
Qed.

Lemma ends_ok {A} (a : A) : ends (fun _ => Ok a) a.
Proof. by exists O. Qed.

(** ** Relating outcomes *)

(** Two runs fault alike or return related values. *)
Definition outcome_rel {A} (R : relation A) : relation (outcome A) :=
  fun m n => match m, n with
             | Ok a, Ok b => R a b
             | Fault f, Fault g => f = g
             | _, _ => False
             end.

#[global] Instance outcome_rel_equiv {A} (R : relation A) :
  Equivalence R -> Equivalence (outcome_rel R).
Proof.
  intros HR. split.
  - intros []; simpl; done.
  - intros [] [] H; simpl in *; done.
  - intros [] [] []; simpl; try done; [apply HR | congruence].
Qed.

(** ** Generic list facts *)

(** [memcpy(dst, src, n)] with [src] of length [n]: the first [n] cells of
    [dst] are replaced. *)
Definition overwrite {A} (src dst : list A) : list A := src ++ drop (length src) dst.

Lemma overwrite_length {A} (src dst : list A) :
  length (overwrite src dst) = Nat.max (length src) (length dst).
Proof. unfold overwrite. rewrite length_app, length_drop. lia. Qed.

Lemma overwrite_Forall {A} (P : A -> Prop) src dst :
  Forall P src -> Forall P dst -> Forall P (overwrite src dst).
Proof. intros. apply Forall_app; split; [done|]. by apply Forall_drop. Qed.

Lemma overwrite_lookup {A} (src dst : list A) i :
  (i < length src)%nat -> overwrite src dst !! i = src !! i.
Proof. intros. unfold overwrite. by rewrite lookup_app_l. Qed.

Lemma filter_all {A} (P : A -> Prop) `{!forall x, Decision (P x)} (l : list A) :
  (forall x, x ∈ l -> P x) -> filter P l = l.
Proof.
  induction l as [|x l IH]; intros Hl; [done|].
  rewrite filter_cons, decide_True by (apply Hl; left).
  f_equal. apply IH. intros y Hy. apply Hl. by right.
Qed.

Lemma NoDup_fmap_filter {A B} (f : A -> B) (P : A -> Prop) `{!forall x, Decision (P x)} l :
  NoDup (f <$> l) -> NoDup (f <$> filter P l).
Proof.
  induction l as [|x l IH]; [done|]. intros [Hx Hl]%NoDup_cons. rewrite filter_cons.
  destruct (decide (P x)); [|auto]. apply NoDup_cons. split; [|auto].
  intros (y & Hy & Hin)%list_elem_of_fmap. apply list_elem_of_filter in Hin as [_ Hin].
  apply Hx. rewrite Hy. by apply list_elem_of_fmap_2.
Qed.

Lemma list_fmap_of_bind {A B C} (f : B -> C) (g : A -> list B) (l : list A) :
  f <$> (l ≫= g) = l ≫= (fun x => f <$> g x).
Proof.
  induction l as [|x l IH]; [done|]. rewrite !bind_cons, fmap_app. by f_equal.
Qed.

(** ** Iterating over a [std::map]

    The bindings of a map in the order of [operator<] on its keys. *)
Definition map_in_order {K A} `{Countable K} (le : K -> K -> bool) (m : gmap K A) : list (K * A) :=
  merge_sort (fun x y => Is_true (le x.1 y.1)) (map_to_list m).

Definition string_le (a b : string) : bool :=
  match String.compare a b with Gt => false | _ => true end.

(** [operator<] of [std::pair]. *)
Definition pair_le (a b : string * Z) : bool :=
  match String.compare a.1 b.1 with Lt => true | Eq => a.2 <=? b.2 | Gt => false end.

Lemma map_in_order_Permutation {K A} `{Countable K} (le : K -> K -> bool) (m : gmap K A) :
  map_in_order le m ≡ₚ map_to_list m.
Proof. apply merge_sort_Permutation. Qed.

Lemma elem_of_map_in_order {K A} `{Countable K} (le : K -> K -> bool) (m : gmap K A) k a :
  (k, a) ∈ map_in_order le m <-> m !! k = Some a.
Proof. rewrite map_in_order_Permutation. apply elem_of_map_to_list. Qed.

Lemma map_in_order_keys {K A} `{Countable K} (le : K -> K -> bool) (m : gmap K A) k :
  k ∈ (map_in_order le m).*1 <-> k ∈ dom m.
Proof.
  rewrite list_elem_of_fmap, elem_of_dom. split.
  - intros ([k' a] & -> & Hin). apply elem_of_map_in_order in Hin. by eexists.
  - intros [a Ha]. exists (k, a). split; [done|]. by apply elem_of_map_in_order.
Qed.
