(* ===== verification/BloomFilter.v ===== *)
(** * The bloom filter (src/src/util/bloomfilter.h, bloomfilter.cc)

    [BloomFilter.t] is the class: seed, size in bits and the heap buffer
    [_hash].  A [buffer] remembers how many bytes were allocated and which
    prefix of them has been initialised, so that out-of-bounds accesses and
    reads of uninitialised bytes are faults of the model and not silently
    total.  [BloomSpec] is the abstract filter, a finite set of bit
    positions, that the class is proved to implement. *)

From S2P Require Import Prelude.
From Stdlib Require Import ZArith Lia Ascii.
From stdpp Require Import base gmap strings fin_maps numbers list.

Local Open Scope Z_scope.

Module BloomFilter.

(** ** Data *)

Record buffer := Buffer { cells : list Z; alloc : Z }.

Record t := BloomFilter { _seed : Z; _size : Z; _hash : option buffer }.

(** [new uint8_t[n]]: allocated, not initialised. *)
Definition new_bytes (n : Z) : outcome buffer :=
  if n <? 0 then Fault BadAlloc else Ok (Buffer [] n).

Definition memset (b : buffer) (v n : Z) : outcome buffer :=
  if (n <? 0) || (alloc b <? n) then Fault OutOfBounds
  else Ok (Buffer (overwrite (replicate (Z.to_nat n) v) (cells b)) (alloc b)).

(** [memcpy(dst, src, n)] into a buffer from [avail] readable bytes, of which
    the prefix [src] is initialised.  Copying uninitialised bytes makes the
    destination uninitialised from there on. *)
Definition memcpy (dst : buffer) (src : list Z) (avail n : Z) : outcome buffer :=
  if (n <? 0) || (alloc dst <? n) || (avail <? n) then Fault OutOfBounds
  else if (Z.to_nat n <=? length src)%nat
       then Ok (Buffer (overwrite (take (Z.to_nat n) src) (cells dst)) (alloc dst))
       else Ok (Buffer src (alloc dst)).

(** [_hash[i]] as an rvalue. *)
Definition load (b : buffer) (i : Z) : outcome Z :=
  if (i <? 0) || (alloc b <=? i) then Fault OutOfBounds
  else match cells b !! Z.to_nat i with
       | Some v => Ok v
       | None => Fault Indeterminate
       end.

(** [_hash[i] |= v] on [uint8_t]. *)
Definition or_assign (b : buffer) (i v : Z) : outcome buffer :=
  w ← load b i;
  Ok (Buffer (<[Z.to_nat i := to_u8 (Z.lor w v)]> (cells b)) (alloc b)).

(** ** The hash function *)

Definition FNV_offset_basis : Z := 14695981039346656037.
Definition FNV_prime : Z := 1099511628211.

(** [hash = hash ^ b; hash *= FNV_prime;] on [uint64_t]. *)
Definition hash_round (h b : Z) : Z := to_u64 (Z.lxor h b * FNV_prime).

(** [for (int i = 0; i < 4; i++)] over the seed; [seed >>= 8] is an
    arithmetic shift of an [int]. *)
Fixpoint hash_seed (n : nat) (seed h : Z) : Z :=
  match n with
  | O => h
  | S n => hash_seed n (Z.shiftr seed 8) (hash_round h (Z.land seed 255))
  end.

(** [while ( *str )] over the characters of [c_str()]: up to the first NUL. *)
Fixpoint hash_str (str : string) (h : Z) : Z :=
  match str with
  | EmptyString => h
  | String c str =>
      if char_to_u8 c =? 0 then h
      else hash_str str (hash_round h (char_to_u8 c))
  end.

Definition hash (str : string) (seed : Z) : Z :=
  hash_str str (hash_seed 4 seed FNV_offset_basis).

(** ** Operations *)

(** [(_size+7)/8] on [uint32_t]. *)
Definition num_bytes (size : Z) : Z := to_u32 (size + 7) / 8.

Definition default_size : Z := Z.shiftl 1 20.

Definition reset (this : t) (size : Z) (seed : Z) : outcome t :=
  if INT_MAX <? size + 7 then Fault SignedOverflow
  else
    let n := Z.quot (size + 7) 8 in
    b ← new_bytes n;
    b ← memset b 0 n;
    Ok (BloomFilter seed (to_u32 size) (Some b)).

Definition ctor : outcome t := reset (BloomFilter 0 0 None) default_size 0.

Definition copy_ctor (other : t) : outcome t :=
  b ← new_bytes (_size other);
  src ← deref (_hash other);
  b ← memcpy b (cells src) (alloc src) (num_bytes (_size other));
  Ok (BloomFilter (_seed other) (_size other) (Some b)).

(** [this = other] on objects of a store, so that [this] and [other] may be
    the same object.  Each field assignment reads [other] again. *)
Definition operator_assign (st : gmap nat t) (this other : nat) : outcome (gmap nat t) :=
  x ← deref (st !! this);
  (* delete [] _hash *)
  let st := <[this := BloomFilter (_seed x) (_size x) None]> st in
  o ← deref (st !! other);
  let st := <[this := BloomFilter (_seed o) (_size x) None]> st in
  o' ← deref (st !! other);
  let st := <[this := BloomFilter (_seed o) (_size o') None]> st in
  b ← new_bytes (_size o');
  let st := <[this := BloomFilter (_seed o) (_size o') (Some b)]> st in
  src ← deref (st !! other) ≫= (fun o'' => deref (_hash o''));
  b ← memcpy b (cells src) (alloc src) (num_bytes (_size o'));
  Ok (<[this := BloomFilter (_seed o) (_size o') (Some b)]> st).

(** [hash(key.c_str(), _seed + i) % _size] as a [uint32_t]. *)
Definition probe (this : t) (key : string) (i : Z) : outcome Z :=
  if _size this =? 0 then Fault DivByZero
  else Ok (to_u32 (hash key (to_i32 (to_u32 (_seed this + i))) mod _size this)).

(** [for (int i = ...; i < 6; i++)]: [n] iterations left, from [i]. *)
Fixpoint set_loop (n : nat) (i : Z) (this : t) (key : string) : outcome t :=
  match n with
  | O => Ok this
  | S n =>
      p ← probe this key i;
      b ← deref (_hash this);
      b ← or_assign b (Z.shiftr p 3) (Z.shiftl 1 (Z.land p 7));
      set_loop n (i + 1) (BloomFilter (_seed this) (_size this) (Some b)) key
  end.

Definition set (this : t) (key : string) : outcome t := set_loop 6 0 this key.

Fixpoint mayContain_loop (n : nat) (i : Z) (this : t) (key : string) : outcome bool :=
  match n with
  | O => Ok true
  | S n =>
      p ← probe this key i;
      b ← deref (_hash this);
      w ← load b (Z.shiftr p 3);
      if Z.land w (Z.shiftl 1 (Z.land p 7)) =? 0 then Ok false
      else mayContain_loop n (i + 1) this key
  end.

Definition mayContain (this : t) (key : string) : outcome bool :=
  mayContain_loop 6 0 this key.

(** Writing [src] over a vector from index [at_]. *)
Definition vec_write (at_ : nat) (src l : list Z) : list Z :=
  take at_ l ++ overwrite src (drop at_ l).

Definition serialize (this : t) : outcome (list Z) :=
  let n := num_bytes (_size this) in
  let ret := replicate (Z.to_nat (n + 4 + 4)) 0 in
  let ret := vec_write 0 (le32_encode (_seed this)) ret in
  let ret := vec_write 4 (le32_encode (_size this)) ret in
  b ← deref (_hash this);
  if alloc b <? n then Fault OutOfBounds
  else if (length (cells b) <? Z.to_nat n)%nat then Fault Indeterminate
  else Ok (vec_write 8 (take (Z.to_nat n) (cells b)) ret).

Definition deserialize (this : t) (src : list Z) : outcome t :=
  if Z.of_nat (length src) <? 8 then Ok this
  else
    seed ← le32_decode src;
    size ← le32_decode (drop 4 src);
    if (size <? 0) || (100 * 1024 * 1024 <? size) then Ok this
    else if negb (Z.of_nat (length src) =? num_bytes size + 4 + 4) then Ok this
    else
      b ← deref (_hash this);
      b ← memcpy b (drop 8 src) (Z.of_nat (length src) - 8) (num_bytes size);
      Ok (BloomFilter seed size (Some b)).

(** Storing several keys, in order. *)
Fixpoint set_all (this : t) (keys : list string) : outcome t :=
  match keys with
  | [] => Ok this
  | k :: keys => this ← set this k; set_all this keys
  end.

End BloomFilter.

(** ** The abstract filter: a finite set of bit positions *)

Module BloomSpec.

Definition position (seed size : Z) (key : string) (i : Z) : Z :=
  to_u32 (BloomFilter.hash key (to_i32 (to_u32 (seed + i))) mod size).

Definition positions (seed size : Z) (key : string) (n : nat) (i : Z) : list Z :=
  (fun k => position seed size key (i + Z.of_nat k)) <$> seq 0 n.

#[global] Arguments positions : simpl never.

(** Adding a key marks its six positions. *)
Definition add (seed size : Z) (key : string) (X : gset Z) : gset Z :=
  X ∪ list_to_set (positions seed size key 6 0).

(** A key may be present when its six positions are all marked. *)
Definition query (seed size : Z) (key : string) (X : gset Z) : bool :=
  bool_decide (Forall (fun p => p ∈ X) (positions seed size key 6 0)).

Definition add_all (seed size : Z) (keys : list string) (X : gset Z) : gset Z :=
  foldl (fun X k => add seed size k X) X keys.

Lemma add_mono seed size k X : X ⊆ add seed size k X.
Proof. unfold add. set_solver. Qed.

Lemma query_mono seed size k X Y :
  X ⊆ Y -> query seed size k X = true -> query seed size k Y = true.
Proof.
  unfold query. rewrite !bool_decide_eq_true. intros HXY HX.
  eapply Forall_impl; [exact HX|]. set_solver.
Qed.

Lemma query_add seed size k X : query seed size k (add seed size k X) = true.
Proof.
  unfold query, add. apply bool_decide_eq_true, Forall_forall.
  intros p Hp. apply elem_of_union_r. by apply elem_of_list_to_set.
Qed.

Lemma add_all_mono seed size ks X : X ⊆ add_all seed size ks X.
Proof.
  revert X. induction ks as [|k ks IH]; intros X; simpl; [done|].
  etrans; [apply (add_mono seed size k)|]. apply IH.
Qed.

Lemma query_add_all seed size ks X k :
  k ∈ ks -> query seed size k (add_all seed size ks X) = true.
Proof.
  revert X. induction ks as [|k' ks IH]; intros X; [by rewrite elem_of_nil|].
  rewrite elem_of_cons. intros [->|Hk]; simpl; [|by apply IH].
  eapply query_mono; [apply add_all_mono|]. apply query_add.
Qed.

End BloomSpec.

(** ** Well-formedness, abstraction and the shared lemmas *)

Module BloomFacts.
Import BloomFilter.

(** A buffer that covers [size] bits. *)
Definition buffer_wf (size : Z) (b : buffer) : Prop :=
  num_bytes size <= Z.of_nat (length (cells b)) <= alloc b /\ Forall is_u8 (cells b).

Definition wf (bf : t) : Prop :=
  is_u32 (_seed bf) /\ 0 < _size bf <= INT_MAX - 7 /\
  exists b, _hash bf = Some b /\ buffer_wf (_size bf) b.

Definition bit_at (b : buffer) (p : Z) : bool :=
  match cells b !! Z.to_nat (p / 8) with
  | Some w => Z.testbit w (p mod 8)
  | None => false
  end.

(** The filter [bf] holds exactly the marked positions [X]. *)
Definition represents (bf : t) (X : gset Z) : Prop :=
  wf bf /\ forall b, _hash bf = Some b ->
  forall p, 0 <= p < _size bf -> bit_at b p = bool_decide (p ∈ X).

Lemma wf_intro seed size b :
  is_u32 seed -> 0 < size <= INT_MAX - 7 -> buffer_wf size b ->
  wf (BloomFilter seed size (Some b)).
Proof. intros. split; [done|]. split; [done|]. by exists b. Qed.

Lemma num_bytes_plain size :
  0 <= size <= INT_MAX - 7 -> num_bytes size = (size + 7) / 8.
Proof.
  unfold num_bytes, INT_MAX. intros H. rewrite to_u32_id; [done|].
  unfold is_u32. lia.
Qed.

Lemma num_bytes_covers size p :
  0 <= p < size -> size <= INT_MAX - 7 -> 0 <= p / 8 < num_bytes size.
Proof.
  intros Hp Hs. rewrite num_bytes_plain by lia. split.
  - apply Z.div_pos; lia.
  - pose proof (Z.div_mod p 8). pose proof (Z.mod_pos_bound p 8).
    pose proof (Z.div_mod (size + 7) 8). pose proof (Z.mod_pos_bound (size + 7) 8).
    lia.
Qed.

Lemma position_range seed size key i :
  0 < size <= INT_MAX - 7 -> 0 <= BloomSpec.position seed size key i < size.
Proof.
  unfold BloomSpec.position, INT_MAX. intros Hs.
  pose proof (Z.mod_pos_bound (hash key (to_i32 (to_u32 (seed + i)))) size ltac:(lia)).
  rewrite to_u32_id; [done|]. unfold is_u32. lia.
Qed.

Lemma probe_pos bf key i :
  0 < _size bf -> probe bf key i = Ok (BloomSpec.position (_seed bf) (_size bf) key i).
Proof. intros Hs. unfold probe. by rewrite (proj2 (Z.eqb_neq _ _)) by lia. Qed.

Lemma probe_ok bf key i :
  wf bf -> probe bf key i = Ok (BloomSpec.position (_seed bf) (_size bf) key i).
Proof. intros (_ & Hs & _). apply probe_pos. lia. Qed.

Lemma load_ok size b p :
  0 <= p < size -> size <= INT_MAX - 7 -> buffer_wf size b ->
  exists w, load b (Z.shiftr p 3) = Ok w /\
            cells b !! Z.to_nat (p / 8) = Some w /\ is_u8 w.
Proof.
  intros Hp Hs [Hlen Hu8]. pose proof (num_bytes_covers size p Hp Hs).
  rewrite shiftr_3. unfold load.
  rewrite (proj2 (Z.ltb_ge _ _)) by lia. rewrite (proj2 (Z.leb_gt _ _)) by lia.
  destruct (cells b !! Z.to_nat (p / 8)) as [w|] eqn:E.
  - exists w. split_and!; try done. by eapply Forall_lookup_1.
  - apply lookup_ge_None in E. lia.
Qed.

Lemma land_bit w k :
  0 <= k -> (Z.land w (Z.shiftl 1 k) =? 0) = negb (Z.testbit w k).
Proof.
  intros Hk. destruct (Z.testbit w k) eqn:E; simpl.
  - apply Z.eqb_neq. intros H0.
    assert (Z.testbit (Z.land w (Z.shiftl 1 k)) k = false) as H1 by by rewrite H0, Z.bits_0.
    rewrite Z.land_spec, E, Z.shiftl_spec, Z.sub_diag in H1 by done. done.
  - apply Z.eqb_eq, Z.bits_inj'. intros i Hi.
    rewrite Z.land_spec, Z.bits_0, Z.shiftl_1_l, Z.pow2_bits_eqb by done.
    destruct (Z.eqb_spec k i) as [<-|]; [by rewrite E|apply andb_false_r].
Qed.

(** Setting bit [p] of a covering buffer sets that bit and no other. *)
Lemma or_assign_ok size b p :
  0 <= p < size -> size <= INT_MAX - 7 -> buffer_wf size b ->
  exists b', or_assign b (Z.shiftr p 3) (Z.shiftl 1 (Z.land p 7)) = Ok b' /\
    buffer_wf size b' /\ length (cells b') = length (cells b) /\
    alloc b' = alloc b /\
    forall q, 0 <= q -> bit_at b' q = (q =? p) || bit_at b q.
Proof.
  intros Hp Hs Hb. destruct (load_ok size b p Hp Hs Hb) as (w & Hl & Hw & Hu).
  unfold or_assign. rewrite Hl. simpl. eexists; split; [done|].
  rewrite land_7, shiftr_3. pose proof (Z.mod_pos_bound p 8 ltac:(lia)) as Hm.
  assert (is_u8 (Z.lor w (Z.shiftl 1 (p mod 8)))) as Hor by eauto with cint.
  rewrite to_u8_id by done. destruct Hb as [Hlen Hu8]. split_and!; simpl.
  - split; simpl; [by rewrite length_insert|]. by apply Forall_insert.
  - apply length_insert.
  - done.
  - intros q Hq. unfold bit_at; simpl.
    pose proof (Z.div_mod p 8 ltac:(lia)). pose proof (Z.div_mod q 8 ltac:(lia)).
    pose proof (Z.div_pos q 8 Hq ltac:(lia)). pose proof (Z.div_pos p 8 ltac:(lia) ltac:(lia)).
    destruct (decide (q / 8 = p / 8)) as [Heq|Hne].
    + rewrite Heq, list_lookup_insert_eq, Hw by (by eapply lookup_lt_Some).
      rewrite Z.lor_spec, Z.shiftl_1_l, Z.pow2_bits_eqb, orb_comm by lia.
      f_equal. apply eq_true_iff_eq. rewrite !Z.eqb_eq. lia.
    + rewrite list_lookup_insert_ne by lia.
      by rewrite (proj2 (Z.eqb_neq q p)) by (intros ->; lia).
Qed.

Lemma positions_S seed size key n i :
  BloomSpec.positions seed size key (S n) i =
  BloomSpec.position seed size key i :: BloomSpec.positions seed size key n (i + 1).
Proof.
  unfold BloomSpec.positions. simpl. f_equal; [f_equal; lia|].
  rewrite <- fmap_S_seq, <- list_fmap_compose. apply list_fmap_ext. intros k x _.
  simpl. f_equal. lia.
Qed.

Lemma represents_step bf X b b' p :
  represents bf X -> _hash bf = Some b -> buffer_wf (_size bf) b' ->
  (forall q, 0 <= q -> bit_at b' q = (q =? p) || bit_at b q) ->
  represents (BloomFilter (_seed bf) (_size bf) (Some b')) (X ∪ {[p]}).
Proof.
  intros [(Hsd & Hsz & _) HX] Hb Hb' Hbit. split.
  - by apply wf_intro.
  - simpl. intros ? [= <-] q Hq. rewrite Hbit, (HX b Hb) by lia.
    apply eq_true_iff_eq.
    rewrite orb_true_iff, Z.eqb_eq, !bool_decide_eq_true, elem_of_union, elem_of_singleton.
    tauto.
Qed.

Lemma set_loop_represents n i bf key X :
  represents bf X ->
  exists bf', set_loop n i bf key = Ok bf' /\
    _seed bf' = _seed bf /\ _size bf' = _size bf /\
    represents bf' (X ∪ list_to_set (BloomSpec.positions (_seed bf) (_size bf) key n i)).
Proof.
  revert i bf X. induction n as [|n IH]; intros i bf X HR.
  - exists bf. split_and!; try done.
    unfold BloomSpec.positions; simpl. by rewrite union_empty_r_L.
  - rewrite positions_S.
    destruct HR as [Hwf HX]. pose proof Hwf as (Hsd & Hsz & b & Hb & Hbw).
    simpl. rewrite probe_ok by done. simpl. rewrite Hb. simpl.
    set (p := BloomSpec.position _ _ _ _).
    pose proof (position_range (_seed bf) (_size bf) key i Hsz) as Hp. fold p in Hp.
    destruct (or_assign_ok (_size bf) b p Hp ltac:(lia) Hbw) as (b' & -> & Hb' & _ & _ & Hbit).
    simpl. destruct (IH (i + 1) (BloomFilter (_seed bf) (_size bf) (Some b')) (X ∪ {[p]}))
      as (bf' & Hset & Hs1 & Hs2 & HR').
    { by eapply represents_step. }
    exists bf'. split_and!; [done|done|done|]. simpl in *.
    by rewrite (union_assoc_L X).
Qed.

Lemma mayContain_loop_represents n i bf key X :
  represents bf X ->
  mayContain_loop n i bf key =
  Ok (bool_decide (Forall (fun p => p ∈ X) (BloomSpec.positions (_seed bf) (_size bf) key n i))).
Proof.
  intros HR. revert i. induction n as [|n IH]; intros i; [done|].
  pose proof HR as [Hwf HX]. pose proof Hwf as (Hsd & Hsz & b & Hb & Hbw).
  rewrite positions_S.
  simpl. rewrite probe_ok by done. simpl. rewrite Hb. simpl. set (p := BloomSpec.position _ _ _ _).
  pose proof (position_range (_seed bf) (_size bf) key i Hsz) as Hp. fold p in Hp.
  destruct (load_ok (_size bf) b p Hp ltac:(lia) Hbw) as (w & -> & Hw & _). simpl.
  rewrite land_7, land_bit by (apply Z.mod_pos_bound; lia).
  specialize (HX b Hb p Hp). unfold bit_at in HX. rewrite Hw in HX.
  rewrite HX, IH. destruct (decide (p ∈ X)) as [Hin|Hin].
  - rewrite (bool_decide_eq_true_2 (p ∈ X)) by done. simpl. f_equal.
    apply bool_decide_ext. rewrite Forall_cons. tauto.
  - rewrite (bool_decide_eq_false_2 (p ∈ X)) by done. simpl. f_equal.
    symmetry. apply bool_decide_eq_false_2. rewrite Forall_cons. tauto.
Qed.

(** Every well-formed filter represents the set of its one bits. *)
Lemma wf_represents bf : wf bf -> exists X, represents bf X.
Proof.
  intros Hwf. pose proof Hwf as (_ & Hsz & b & Hb & _).
  exists (list_to_set (filter (fun p => bit_at b p = true)
            (Z.of_nat <$> seq 0 (Z.to_nat (_size bf))))).
  split; [done|]. rewrite Hb. intros ? [= <-] p Hp.
  apply eq_true_iff_eq. rewrite bool_decide_eq_true, elem_of_list_to_set, list_elem_of_filter.
  split; [|tauto]. intros Hbit; split; [done|].
  apply list_elem_of_fmap. exists (Z.to_nat p). split; [lia|]. apply elem_of_seq. lia.
Qed.

Lemma represents_wf bf X : represents bf X -> wf bf.
Proof. by intros []. Qed.

Lemma set_represents bf key X :
  represents bf X ->
  exists bf', set bf key = Ok bf' /\ _seed bf' = _seed bf /\ _size bf' = _size bf /\
    represents bf' (BloomSpec.add (_seed bf) (_size bf) key X).
Proof. apply set_loop_represents. Qed.

Lemma mayContain_represents bf key X :
  represents bf X -> mayContain bf key = Ok (BloomSpec.query (_seed bf) (_size bf) key X).
Proof. apply mayContain_loop_represents. Qed.

Lemma set_all_represents bf keys X :
  represents bf X ->
  exists bf', set_all bf keys = Ok bf' /\ _seed bf' = _seed bf /\ _size bf' = _size bf /\
    represents bf' (BloomSpec.add_all (_seed bf) (_size bf) keys X).
Proof.
  revert bf X. induction keys as [|k ks IH]; intros bf X HR; [by exists bf|].
  destruct (set_represents bf k X HR) as (bf1 & Hset & Hs1 & Hz1 & HR1).
  destruct (IH bf1 _ HR1) as (bf2 & Hall & Hs2 & Hz2 & HR2).
  exists bf2. simpl. rewrite Hset. simpl. rewrite Hs1, Hz1 in *.
  by split_and!; try congruence.
Qed.

(** [reset] gives the empty filter. *)
Lemma reset_represents bf size seed :
  0 < size <= INT_MAX - 7 -> is_u32 seed ->
  exists bf', reset bf size seed = Ok bf' /\ _seed bf' = seed /\ _size bf' = size /\
    represents bf' ∅.
Proof.
  intros Hs Hsd. unfold reset. rewrite (proj2 (Z.ltb_ge _ _)) by lia.
  assert (Z.quot (size + 7) 8 = num_bytes size) as ->.
  { rewrite num_bytes_plain, Z.quot_div_nonneg by lia. done. }
  assert (0 <= num_bytes size) as Hn.
  { rewrite num_bytes_plain by lia. apply Z.div_pos; lia. }
  unfold new_bytes. rewrite (proj2 (Z.ltb_ge _ _)) by lia. simpl.
  unfold memset; simpl. rewrite (proj2 (Z.ltb_ge _ _)) by lia.
  rewrite Z.ltb_irrefl. simpl. eexists; split; [done|].
  rewrite to_u32_id by (unfold is_u32, INT_MAX in *; lia).
  unfold overwrite. rewrite drop_nil, app_nil_r. split_and!; try done.
  split.
  - apply wf_intro; [done|lia|]. split; simpl.
    + rewrite length_replicate. lia.
    + apply Forall_replicate. unfold is_u8. lia.
  - simpl. intros ? [= <-] p Hp. unfold bit_at; simpl.
    rewrite lookup_replicate_2, Z.testbit_0_l.
    + symmetry. by apply bool_decide_eq_false_2, not_elem_of_empty.
    + pose proof (num_bytes_covers size p Hp ltac:(lia)). lia.
Qed.

(** *** Images: what [serialize] writes and [deserialize] accepts *)

Definition image (seed size : Z) (body : list Z) : list Z :=
  le32_encode seed ++ le32_encode size ++ body.

Lemma num_bytes_nonneg size : 0 <= num_bytes size.
Proof. unfold num_bytes. apply Z.div_pos; [apply to_u32_range|lia]. Qed.

Lemma serialize_ok bf b :
  wf bf -> _hash bf = Some b ->
  serialize bf = Ok (image (_seed bf) (_size bf)
                       (take (Z.to_nat (num_bytes (_size bf))) (cells b))).
Proof.
  intros (_ & Hsz & b' & Hb' & Hlen & _) Hb. rewrite Hb in Hb'. injection Hb' as <-.
  unfold serialize. rewrite Hb. simpl. pose proof (num_bytes_nonneg (_size bf)).
  rewrite (proj2 (Z.ltb_ge _ _)) by lia. rewrite (proj2 (Nat.ltb_ge _ _)) by lia.
  f_equal. set (n := Z.to_nat (num_bytes (_size bf))) in *.
  replace (Z.to_nat (num_bytes (_size bf) + 4 + 4)) with (8 + n)%nat by lia.
  assert (length (take n (cells b)) = n) as Hn by (rewrite length_take; lia).
  unfold image, vec_write, overwrite. simpl. rewrite Hn, drop_0, drop_ge.
  - by rewrite app_nil_r.
  - by rewrite drop_0, length_replicate.
Qed.

(** An image of a filter of more bits than [deserialize] accepts. *)
Lemma deserialize_oversized bf seed size body :
  is_u32 seed -> 100 * 1024 * 1024 < size < 2 ^ 32 -> deserialize bf (image seed size body) = Ok bf.
Proof.
  intros Hsd Hsz. unfold deserialize, image. case_match; [done|].
  change (drop 4 (le32_encode seed ++ ?x)) with x.
  rewrite !le32_roundtrip by (done || unfold is_u32; lia). cbn [mbind outcome_bind].
  by rewrite (proj2 (Z.ltb_lt (100 * 1024 * 1024) size)), orb_true_r by lia.
Qed.

(** An accepted image, in a buffer that is large enough and in one that is
    not. *)
Lemma deserialize_image bf b seed size body :
  _hash bf = Some b -> is_u32 seed -> 0 <= size <= 100 * 1024 * 1024 ->
  Z.of_nat (length body) = num_bytes size ->
  deserialize bf (image seed size body) =
  if alloc b <? num_bytes size then Fault OutOfBounds
  else Ok (BloomFilter seed size (Some (Buffer (overwrite body (cells b)) (alloc b)))).
Proof.
  intros Hb Hsd Hsz Hlen. unfold deserialize, image.
  assert (Z.of_nat (length (le32_encode seed ++ le32_encode size ++ body)) =
          8 + num_bytes size) as Hl.
  { rewrite !length_app, !le32_encode_length. lia. }
  pose proof (num_bytes_nonneg size).
  rewrite Hl, (proj2 (Z.ltb_ge _ _)) by lia.
  change (drop 4 (le32_encode seed ++ ?x)) with x.
  change (drop 8 (le32_encode seed ++ le32_encode size ++ ?x)) with x.
  rewrite !le32_roundtrip by (done || unfold is_u32; lia). simpl.
  rewrite !(proj2 (Z.ltb_ge _ _)) by lia. simpl.
  rewrite (proj2 (Z.eqb_eq _ _)) by lia. simpl. rewrite Hb. simpl.
  unfold memcpy. rewrite (proj2 (Z.ltb_ge (num_bytes size) 0)) by lia.
  rewrite (proj2 (Z.ltb_ge (8 + num_bytes size - 8) _)) by lia.
  rewrite orb_false_r. simpl. destruct (alloc b <? num_bytes size) eqn:E; [done|].
  rewrite (proj2 (Nat.leb_le _ _)) by lia. simpl.
  by rewrite take_ge by lia.
Qed.

(** Whatever else is not an image. *)
Lemma deserialize_reject_or_image bf src :
  Forall is_u8 src ->
  deserialize bf src = Ok bf \/
  exists seed size body, is_u32 seed /\ 0 <= size <= 100 * 1024 * 1024 /\
    Z.of_nat (length body) = num_bytes size /\ src = image seed size body.
Proof.
  intros Hu8. unfold deserialize.
  destruct (Z.ltb_spec (Z.of_nat (length src)) 8) as [|Hlen]; [by left|].
  do 8 (destruct src as [|? src]; [simpl in Hlen; lia|]).
  destruct (le32_decode_ok (z :: z0 :: z1 :: z2 :: z3 :: z4 :: z5 :: z6 :: src))
    as (seed & Hd1 & Hseed); [simpl; lia|done|].
  destruct (le32_decode_ok (z3 :: z4 :: z5 :: z6 :: src))
    as (size & Hd2 & Hsize); [simpl; lia|exact (Forall_drop _ 4 _ Hu8)|].
  rewrite Hd1. cbn [mbind outcome_bind drop]. rewrite Hd2. cbn [mbind outcome_bind].
  destruct (Z.ltb_spec size 0); [by left|].
  destruct (Z.ltb_spec (100 * 1024 * 1024) size); [by left|]. cbn [orb].
  destruct (Z.eqb_spec (Z.of_nat (length (z :: z0 :: z1 :: z2 :: z3 :: z4 :: z5 :: z6 :: src)))
              (num_bytes size + 4 + 4)) as [Heq|]; [|by left].
  right. exists seed, size, src. split_and!; try done.
  - simpl in Heq. lia.
  - unfold image.
    rewrite (le32_decode_inv z z0 z1 z2 _ seed (Forall_take _ 4 _ Hu8) Hd1).
    by rewrite (le32_decode_inv z3 z4 z5 z6 _ size
                  (Forall_take _ 4 _ (Forall_drop _ 4 _ Hu8)) Hd2).
Qed.

(** *** Equality of filters up to slack bytes and allocation size *)

Definition same_filter (bf bf' : t) : Prop :=
  bf = bf' \/ _seed bf = _seed bf' /\ _size bf = _size bf' /\
  exists X, represents bf X /\ represents bf' X.

Lemma represents_agree bf X Y :
  represents bf X -> represents bf Y ->
  forall p, 0 <= p < _size bf -> p ∈ X <-> p ∈ Y.
Proof.
  intros [(_ & _ & b & Hb & _) HX] [_ HY] p Hp.
  rewrite <- (bool_decide_eq_true (p ∈ X)), <- (bool_decide_eq_true (p ∈ Y)).
  by rewrite <- (HX b Hb p Hp), <- (HY b Hb p Hp).
Qed.

Lemma represents_ext bf X Y :
  represents bf X -> (forall p, 0 <= p < _size bf -> p ∈ X <-> p ∈ Y) -> represents bf Y.
Proof.
  intros [Hwf HX] HXY. split; [done|]. intros b Hb p Hp. rewrite (HX b Hb p Hp).
  by apply bool_decide_ext, HXY.
Qed.

#[global] Instance same_filter_equiv : Equivalence same_filter.
Proof.
  split.
  - intros bf. by left.
  - intros bf bf' [->|(? & ? & X & ? & ?)]; [by left|right]. eauto 10.
  - intros b1 b2 b3 [->|(E1 & E2 & X & H1 & H2)] H; [done|].
    destruct H as [<-|(E3 & E4 & Y & H3 & H4)]; [right; eauto 10|].
    right. split_and!; try congruence. exists X. split; [done|].
    eapply represents_ext; [exact H4|]. intros p Hp.
    apply (represents_agree b2 Y X); try done. by rewrite E4.
Qed.

#[global] Instance set_proper : Proper (same_filter ==> eq ==> outcome_rel same_filter) set.
Proof.
  intros b1 b2 [->|(E1 & E2 & X & H1 & H2)] k ? <-; [reflexivity|].
  destruct (set_represents b1 k X H1) as (b1' & -> & ? & ? & R1).
  destruct (set_represents b2 k X H2) as (b2' & -> & ? & ? & R2).
  simpl. right. split_and!; try congruence. rewrite <- E1, <- E2 in R2. eauto.
Qed.

#[global] Instance mayContain_proper : Proper (same_filter ==> eq ==> eq) mayContain.
Proof.
  intros b1 b2 [->|(E1 & E2 & X & H1 & H2)] k ? <-; [done|].
  by rewrite (mayContain_represents b1 k X), (mayContain_represents b2 k X), E1, E2.
Qed.

(** Two covering buffers with the same leading bytes hold the same filter. *)
Lemma same_filter_prefix seed size b b' :
  is_u32 seed -> 0 < size <= INT_MAX - 7 -> buffer_wf size b -> buffer_wf size b' ->
  take (Z.to_nat (num_bytes size)) (cells b') = take (Z.to_nat (num_bytes size)) (cells b) ->
  same_filter (BloomFilter seed size (Some b)) (BloomFilter seed size (Some b')).
Proof.
  intros Hsd Hsz Hb Hb' Htake. right. split_and!; [done..|].
  destruct (wf_represents _ (wf_intro seed size b Hsd Hsz Hb)) as [X HX].
  exists X. split; [done|]. split; [by apply wf_intro|]. simpl. intros ? [= <-] p Hp.
  destruct HX as [_ HX]. rewrite <- (HX b eq_refl p Hp). unfold bit_at.
  pose proof (num_bytes_covers size p Hp ltac:(lia)).
  by rewrite <- (lookup_take_lt (cells b') (Z.to_nat (num_bytes size))), Htake,
    lookup_take_lt by lia.
Qed.

Lemma copy_ctor_ok bf :
  wf bf -> exists bf', copy_ctor bf = Ok bf' /\ wf bf' /\ same_filter bf bf'.
Proof.
  intros (Hsd & Hsz & b & Hb & Hlen & Hu8). unfold copy_ctor, new_bytes.
  destruct bf as [seed size hash_]; simpl in *. subst hash_.
  rewrite (proj2 (Z.ltb_ge _ _)) by lia. simpl. unfold memcpy; simpl.
  pose proof (num_bytes_nonneg size).
  assert (num_bytes size <= size) as Hle.
  { rewrite num_bytes_plain by lia. pose proof (Z.div_mod (size + 7) 8).
    pose proof (Z.mod_pos_bound (size + 7) 8). lia. }
  rewrite !(proj2 (Z.ltb_ge _ _)) by lia. simpl.
  rewrite (proj2 (Nat.leb_le _ _)) by lia. simpl.
  unfold overwrite. rewrite drop_nil, app_nil_r.
  set (b' := Buffer _ _).
  assert (buffer_wf size b') as Hb'.
  { split; simpl; [rewrite length_take; lia | by apply Forall_take]. }
  eexists; split; [done|]. split; [by apply wf_intro|].
  apply same_filter_prefix; try done. simpl. by rewrite take_take, Nat.min_id.
Qed.

(** *** The filter of a set of keys *)

(** [bf] is the filter that results from storing the keys [K], in some
    order, in an empty one. *)
Definition filter_of (bf : t) (K : gset string) : Prop :=
  exists ks, list_to_set ks = K /\
    represents bf (BloomSpec.add_all (_seed bf) (_size bf) ks ∅).

Lemma filter_of_set bf K key :
  filter_of bf K -> exists bf', set bf key = Ok bf' /\ filter_of bf' ({[key]} ∪ K).
Proof.
  intros (ks & <- & HR). destruct (set_represents bf key _ HR) as (bf' & Hset & Hs & Hz & HR').
  exists bf'. split; [done|]. exists (ks ++ [key]). split.
  - rewrite list_to_set_app_L. simpl. set_solver.
  - unfold BloomSpec.add_all in *. rewrite foldl_app. simpl. by rewrite Hs, Hz.
Qed.

Lemma filter_of_reset bf :
  exists bf', reset bf default_size 0 = Ok bf' /\ filter_of bf' ∅.
Proof.
  destruct (reset_represents bf default_size 0) as (bf' & Hr & _ & _ & HR);
    [done|unfold is_u32; lia|].
  exists bf'. split; [done|]. by exists [].
Qed.

Lemma filter_of_query bf K key : filter_of bf K -> key ∈ K -> mayContain bf key = Ok true.
Proof.
  intros (ks & <- & HR) Hk. rewrite (mayContain_represents bf key _ HR).
  f_equal. apply BloomSpec.query_add_all. by apply elem_of_list_to_set in Hk.
Qed.

End BloomFacts.

(** ** Properties *)

Module BloomProps.
Import BloomFilter BloomFacts.

(** The reference hash: FNV-1a over a sequence of octets. *)
Definition fnv1a (octets : list Z) : Z :=
  foldl (fun h b => (Z.lxor h b * 1099511628211) mod 2 ^ 64) 14695981039346656037 octets.

(** The octets of a C string: everything before the first NUL. *)
Fixpoint c_str_octets (s : string) : list Z :=
  match s with
  | EmptyString => []
  | String c s => if char_to_u8 c =? 0 then [] else char_to_u8 c :: c_str_octets s
  end.

Lemma hash_str_octets s h :
  hash_str s h = foldl (fun h b => (Z.lxor h b * 1099511628211) mod 2 ^ 64) h (c_str_octets s).
Proof.
  revert h. induction s as [|c s IH]; intros h; [done|].
  cbn [hash_str c_str_octets]. destruct (char_to_u8 c =? 0); [done|]. apply IH.
Qed.

Lemma land_255_to_u32 z k :
  0 <= k <= 24 -> Z.land (Z.shiftr (to_u32 z) k) 255 = Z.land (Z.shiftr z k) 255.
Proof.
  intros Hk. unfold to_u32. rewrite <- Z.land_ones by lia.
  apply Z.bits_inj'. intros i Hi. rewrite !Z.land_spec, !Z.shiftr_spec, Z.land_spec by done.
  destruct (Z.lt_ge_cases i 8).
  - rewrite Z.ones_spec_low by lia. by rewrite andb_true_r.
  - replace (Z.testbit 255 i) with false; [by rewrite !andb_false_r|].
    symmetry. apply (proj1 (Z_bounded_testbit 8 255 ltac:(lia)) ltac:(lia)). done.
Qed.

Lemma hash_seed_octets seed h :
  hash_seed 4 seed h =
  foldl (fun h b => (Z.lxor h b * 1099511628211) mod 2 ^ 64) h (le32_encode (to_u32 seed)).
Proof.
  unfold le32_encode. rewrite !land_255_to_u32 by lia.
  rewrite <- (Z.shiftr_0_r (to_u32 seed)) at 1. rewrite land_255_to_u32 by lia.
  cbn [hash_seed foldl]. rewrite !Z.shiftr_shiftr by lia. done.
Qed.

(** C5. Refinement: on a well-formed filter that holds the marked positions
    [X], [set] is defined, keeps the filter well formed and holds exactly [X]
    and the six positions of the key afterwards, and [mayContain] is defined
    and answers whether all six positions of the key are marked. *)
Theorem bloom_refinement (bf : t) (X : gset Z) (key : string) :
  represents bf X ->
  (exists bf', set bf key = Ok bf' /\ _seed bf' = _seed bf /\ _size bf' = _size bf /\
     represents bf' (BloomSpec.add (_seed bf) (_size bf) key X)) /\
  mayContain bf key = Ok (BloomSpec.query (_seed bf) (_size bf) key X).
Proof. intros H. split; [by apply set_represents|by apply mayContain_represents]. Qed.

(** C6. No false negatives: storing any list of keys in a well-formed filter
    succeeds, every one of those keys is then reported, and no key that was
    reported before is lost. *)
Theorem no_false_negatives (bf : t) (keys : list string) :
  wf bf ->
  exists bf', set_all bf keys = Ok bf' /\ wf bf' /\
    (forall k, k ∈ keys -> mayContain bf' k = Ok true) /\
    (forall k, mayContain bf k = Ok true -> mayContain bf' k = Ok true).
Proof.
  intros Hwf. destruct (wf_represents bf Hwf) as [X HX].
  destruct (set_all_represents bf keys X HX) as (bf' & Hset & Hs & Hz & HR).
  exists bf'. split_and!; [done|by eapply represents_wf| |]; intros k Hk;
    rewrite (mayContain_represents bf' k _ HR), Hs, Hz; f_equal.
  - by apply BloomSpec.query_add_all.
  - rewrite (mayContain_represents bf k X HX) in Hk. injection Hk as Hk.
    eapply BloomSpec.query_mono; [apply BloomSpec.add_all_mono|done].
Qed.

(** [reset] with a size the arithmetic of [(size+7)/8] can handle gives a
    well-formed filter that reports no key at all, whatever was stored
    before. *)
Theorem reset_empties (bf : t) (size seed : Z) (key : string) :
  0 < size <= INT_MAX - 7 -> is_u32 seed ->
  exists bf', reset bf size seed = Ok bf' /\ wf bf' /\ mayContain bf' key = Ok false.
Proof.
  intros Hs Hsd. destruct (reset_represents bf size seed Hs Hsd) as (bf' & Hr & <- & <- & HR).
  exists bf'. split_and!; [done|by eapply represents_wf|].
  by rewrite (mayContain_represents bf' key ∅ HR).
Qed.

(** What a filter of an accepted size writes, a filter with a buffer large
    enough for it reads back. *)
Lemma deserialize_serialized bf bf0 b0 :
  wf bf -> wf bf0 -> _hash bf0 = Some b0 ->
  _size bf <= 100 * 1024 * 1024 -> num_bytes (_size bf) <= alloc b0 ->
  exists v bf', serialize bf = Ok v /\ deserialize bf0 v = Ok bf' /\ wf bf' /\
    (forall key, mayContain bf' key = mayContain bf key) /\ serialize bf' = Ok v.
Proof.
  intros Hwf (_ & _ & b0' & Hb0' & [Hlen0 Hu0]) Hb0 Hmax Hcap.
  rewrite Hb0 in Hb0'. injection Hb0' as <-.
  pose proof Hwf as (Hsd & Hsz & b & Hb & Hlen & Hu8).
  pose proof (num_bytes_nonneg (_size bf)).
  set (body := take (Z.to_nat (num_bytes (_size bf))) (cells b)).
  assert (length body = Z.to_nat (num_bytes (_size bf))) as Hbody
    by (unfold body; rewrite length_take; lia).
  set (b' := Buffer (overwrite body (cells b0)) (alloc b0)).
  assert (take (Z.to_nat (num_bytes (_size bf))) (cells b') = body) as Htake.
  { simpl. unfold overwrite. by rewrite <- Hbody, take_app_length. }
  assert (buffer_wf (_size bf) b') as Hb'.
  { split; simpl; [rewrite overwrite_length; lia|].
    apply overwrite_Forall; [by apply Forall_take|done]. }
  assert (wf (BloomFilter (_seed bf) (_size bf) (Some b'))) as Hwf' by (by apply wf_intro).
  exists (image (_seed bf) (_size bf) body), (BloomFilter (_seed bf) (_size bf) (Some b')).
  split_and!; [by apply serialize_ok| |done| |].
  - rewrite (deserialize_image _ b0) by (done || lia).
    by rewrite (proj2 (Z.ltb_ge _ _)) by lia.
  - intros key. symmetry. apply mayContain_proper; [|done].
    destruct bf as [sd sz h]; simpl in *. subst h.
    by apply same_filter_prefix.
  - rewrite (serialize_ok _ b') by done. cbn [_seed _size]. by rewrite Htake.
Qed.

(** C7. Round trip: [serialize] succeeds on every well-formed filter.  What it
    writes for a filter of at most [100*1024*1024] bits, [deserialize] accepts
    in any filter whose buffer is large enough for it; the result is well
    formed, answers every query like the original and serializes to the same
    bytes.  In a filter whose buffer is too small the copy runs past its end,
    and the bytes of a filter of more bits, which [reset] allows, are turned
    down: the receiving filter stays as it was. *)
Theorem serialize_deserialize (bf bf0 : t) (b0 : buffer) :
  wf bf -> wf bf0 -> _hash bf0 = Some b0 ->
  exists v, serialize bf = Ok v /\
    if decide (100 * 1024 * 1024 < _size bf) then deserialize bf0 v = Ok bf0
    else if decide (alloc b0 < num_bytes (_size bf)) then deserialize bf0 v = Fault OutOfBounds
    else exists bf', deserialize bf0 v = Ok bf' /\ wf bf' /\
      (forall key, mayContain bf' key = mayContain bf key) /\ serialize bf' = Ok v.
Proof.
  intros Hwf Hwf0 Hb0. pose proof Hwf as (Hsd & Hsz & b & Hb & Hlen & _).
  pose proof (num_bytes_nonneg (_size bf)) as Hn.
  case_decide as Hbig; [|case_decide as Hsmall].
  - eexists. split; [by apply serialize_ok|].
    apply deserialize_oversized; [done|unfold INT_MAX in Hsz; lia].
  - eexists. split; [by apply serialize_ok|].
    rewrite (deserialize_image _ b0) by (done || lia || (rewrite length_take; lia)).
    by rewrite (proj2 (Z.ltb_lt _ _)).
  - destruct (deserialize_serialized bf bf0 b0) as (v & bf' & ? & ?); [done..|lia|lia|].
    exists v. split; [done|]. by exists bf'.
Qed.

(** C8. A byte vector that is not the image of a filter of at most
    [100*1024*1024] bits (too short, truncated, too long, absurd size field)
    leaves the filter exactly as it was. *)
Theorem deserialize_rejects (bf : t) (src : list Z) :
  Forall is_u8 src ->
  (forall seed size body, is_u32 seed -> 0 <= size <= 100 * 1024 * 1024 ->
     Z.of_nat (length body) = num_bytes size -> src <> image seed size body) ->
  deserialize bf src = Ok bf.
Proof.
  intros Hu8 Hno. destruct (deserialize_reject_or_image bf src Hu8) as [|(sd & sz & body & ? & ? & ? & ->)];
    [done|]. by destruct (Hno sd sz body).
Qed.

(** [deserialize] never grows the buffer it copies into: a well-formed
    image of a filter larger than the receiving object's allocation is
    accepted by every check and the [memcpy] then runs past the end of the
    buffer. *)
Theorem deserialize_overruns (bf : t) (b : buffer) (seed size : Z) (body : list Z) :
  _hash bf = Some b -> is_u32 seed -> 0 <= size <= 100 * 1024 * 1024 ->
  Z.of_nat (length body) = num_bytes size -> alloc b < num_bytes size ->
  deserialize bf (image seed size body) = Fault OutOfBounds.
Proof.
  intros. rewrite (deserialize_image bf b) by done.
  by rewrite (proj2 (Z.ltb_lt _ _)).
Qed.

(** C9. The hash is FNV-1a (64 bit) of the four little-endian octets of the
    seed followed by the octets of the key up to its first NUL, and always
    fits in a [uint64_t]. *)
Theorem hash_is_fnv1a (key : string) (seed : Z) :
  hash key seed = fnv1a (le32_encode (to_u32 seed) ++ c_str_octets key) /\
  is_u64 (hash key seed).
Proof.
  split.
  - unfold hash, fnv1a. by rewrite hash_str_octets, hash_seed_octets, foldl_app.
  - unfold hash.
    assert (is_u64 (hash_seed 4 seed FNV_offset_basis)) as Hh by apply to_u64_range.
    revert Hh. generalize (hash_seed 4 seed FNV_offset_basis) as h.
    induction key as [|c key IH]; intros h Hh; [done|]. cbn [hash_str].
    destruct (char_to_u8 c =? 0); [done|]. apply IH, to_u64_range.
Qed.

Lemma num_bytes_pos size : 0 < size <= INT_MAX - 7 -> 0 < num_bytes size <= size.
Proof.
  intros Hs. rewrite num_bytes_plain by lia. pose proof (Z.div_mod (size + 7) 8).
  pose proof (Z.mod_pos_bound (size + 7) 8). lia.
Qed.

(** Assigning one filter to another copies it: the target answers every
    query like the source, and no other object, the source included,
    changes. *)
Theorem assign_copies (st : gmap nat t) (this other : nat) (x o : t) :
  this <> other -> st !! this = Some x -> st !! other = Some o -> wf o ->
  exists st' bf', operator_assign st this other = Ok st' /\ st' !! this = Some bf' /\
    wf bf' /\ (forall key, mayContain bf' key = mayContain o key) /\
    (forall j, j <> this -> st' !! j = st !! j).
Proof.
  intros Hne Hx Ho Hwf. destruct (copy_ctor_ok o Hwf) as (bf' & Hcopy & Hwf' & Hsame).
  unfold operator_assign. rewrite Hx. simpl.
  rewrite !lookup_insert_ne, Ho by done. simpl.
  rewrite !lookup_insert_ne, Ho by done. simpl.
  unfold copy_ctor in Hcopy. inv_ok. rewrite Ha. simpl.
  rewrite !lookup_insert_ne, Ho by done. simpl. rewrite Ha0. simpl. rewrite Ha1. simpl.
  eexists _, _. split_and!; [done|by rewrite lookup_insert_eq|done| |].
  - intros key. symmetry. by apply mayContain_proper.
  - intros j Hj. by rewrite !lookup_insert_ne.
Qed.

(** Assigning a filter to itself destroys it: the old buffer is deleted,
    the uninitialised new one is copied over itself, and every later query
    reads uninitialised memory. *)
Theorem self_assign_loses (st : gmap nat t) (this : nat) (x : t) (key : string) :
  st !! this = Some x -> wf x ->
  exists st' bf', operator_assign st this this = Ok st' /\ st' !! this = Some bf' /\
    mayContain bf' key = Fault Indeterminate.
Proof.
  intros Hx (Hsd & Hsz & _). pose proof (num_bytes_pos _ Hsz) as Hn.
  unfold operator_assign. rewrite Hx. simpl.
  rewrite !lookup_insert_eq. simpl. rewrite !lookup_insert_eq. simpl.
  unfold new_bytes. rewrite (proj2 (Z.ltb_ge _ _)) by lia. simpl.
  rewrite !lookup_insert_eq. simpl. unfold memcpy; simpl.
  rewrite !(proj2 (Z.ltb_ge _ _)) by lia. simpl.
  rewrite (proj2 (Nat.leb_gt _ _)) by lia. simpl.
  eexists _, _. split_and!; [done|by rewrite lookup_insert_eq|].
  unfold mayContain. cbn [mayContain_loop]. rewrite (probe_pos _ key 0) by (simpl; lia).
  pose proof (num_bytes_covers _ _ (position_range (_seed x) (_size x) key 0 Hsz) ltac:(lia)).
  cbn [mbind outcome_bind deref _hash _seed _size]. unfold load; cbn [cells alloc].
  rewrite shiftr_3.
  rewrite (proj2 (Z.ltb_ge _ _)) by lia. by rewrite (proj2 (Z.leb_gt _ _)) by lia.
Qed.

(** [deserialize] accepts the image of a filter of zero bits, and every
    later query divides by zero. *)
Theorem zero_size_accepted (bf : t) (b : buffer) (seed : Z) (key : string) :
  _hash bf = Some b -> 0 <= alloc b -> is_u32 seed ->
  exists bf', deserialize bf (image seed 0 []) = Ok bf' /\
    mayContain bf' key = Fault DivByZero /\ set bf' key = Fault DivByZero.
Proof.
  intros Hb Ha Hs. rewrite (deserialize_image bf b) by (done || lia).
  change (num_bytes 0) with 0. rewrite (proj2 (Z.ltb_ge _ _)) by lia. eauto.
Qed.

(** *** Witnesses *)

Definition sample : t := BloomFilter 7 16 (Some (Buffer [0; 0] 2)).

Lemma sample_wf : wf sample.
Proof. apply wf_intro; [done|done|]. split; [done|solve_octets]. Qed.

Lemma sample_empty : represents sample ∅.
Proof.
  split; [apply sample_wf|]. intros b [= <-] p Hp.
  assert (Z.to_nat (p / 8) = 0%nat \/ Z.to_nat (p / 8) = 1%nat) as [E|E].
  { pose proof (Z.div_mod p 8). pose proof (Z.mod_pos_bound p 8). simpl in Hp. lia. }
  all: unfold bit_at; rewrite E; simpl; rewrite Z.testbit_0_l;
    symmetry; by apply bool_decide_eq_false_2, not_elem_of_empty.
Qed.

Lemma bloom_refinement_witness :
  exists bf', set sample "apple" = Ok bf' /\
    represents bf' (BloomSpec.add 7 16 "apple" ∅).
Proof.
  destruct (bloom_refinement sample ∅ "apple" sample_empty) as [(bf' & H & _ & _ & HR) _].
  exists bf'. split; [exact H|exact HR].
Defined.

Lemma no_false_negatives_witness :
  exists bf', set_all sample ["apple"; "banana"] = Ok bf' /\
    mayContain bf' "banana" = Ok true.
Proof.
  destruct (no_false_negatives sample ["apple"; "banana"] sample_wf) as (bf' & H & _ & Hin & _).
  exists bf'. split; [exact H|]. apply Hin. right; left.
Defined.

Lemma reset_empties_witness :
  exists bf', reset sample 64 3 = Ok bf' /\ wf bf' /\ mayContain bf' "apple" = Ok false.
Proof. apply (reset_empties sample 64 3 "apple"); [unfold INT_MAX; lia|unfold is_u32; lia]. Defined.

Lemma serialize_deserialize_witness :
  exists v bf', serialize sample = Ok v /\ deserialize sample v = Ok bf' /\ serialize bf' = Ok v.
Proof.
  destruct (serialize_deserialize sample sample (Buffer [0; 0] 2) sample_wf sample_wf eq_refl)
    as (v & Hv & H).
  rewrite decide_False in H by (simpl; lia).
  rewrite decide_False in H by (apply Z.nlt_ge; vm_compute; discriminate).
  destruct H as (bf' & H1 & _ & _ & H2). exists v, bf'. split_and!; assumption.
Defined.

Lemma deserialize_rejects_witness : deserialize sample [1; 2; 3] = Ok sample.
Proof.
  apply (deserialize_rejects sample [1; 2; 3]).
  - solve_octets.
  - intros seed size body _ _ _ H. apply (f_equal length) in H. discriminate H.
Defined.

Lemma deserialize_overruns_witness :
  deserialize sample (image 0 24 [0; 0; 0]) = Fault OutOfBounds.
Proof.
  apply (deserialize_overruns sample (Buffer [0; 0] 2) 0 24 [0; 0; 0]);
    [reflexivity|unfold is_u32; lia|lia|reflexivity|reflexivity].
Defined.

Lemma assign_copies_witness :
  exists st' bf', operator_assign {[0%nat := sample; 1%nat := sample]} 0 1 = Ok st' /\
    st' !! 0%nat = Some bf' /\ wf bf'.
Proof.
  destruct (assign_copies {[0%nat := sample; 1%nat := sample]} 0 1 sample sample)
    as (st' & bf' & H1 & H2 & H3 & _); [discriminate|reflexivity|reflexivity|apply sample_wf|].
  exists st', bf'. split_and!; assumption.
Defined.

Lemma self_assign_loses_witness :
  exists st' bf', operator_assign {[0%nat := sample]} 0 0 = Ok st' /\
    st' !! 0%nat = Some bf' /\ mayContain bf' "apple" = Fault Indeterminate.
Proof.
  apply (self_assign_loses {[0%nat := sample]} 0 sample "apple"); [reflexivity|apply sample_wf].
Defined.

Lemma zero_size_accepted_witness :
  exists bf', deserialize sample (image 5 0 []) = Ok bf' /\
    mayContain bf' "apple" = Fault DivByZero /\ set bf' "apple" = Fault DivByZero.
Proof.
  apply (zero_size_accepted sample (Buffer [0; 0] 2) 5 "apple");
    [reflexivity|simpl; lia|unfold is_u32; lia].
Defined.

End BloomProps.
