(* ===== verification/StdHeap.v ===== *)
(** * Binary heaps of the C++ standard library

    [util::LRUCache] keeps its entries in a vector ordered by
    [std::push_heap], [std::pop_heap] and [std::make_heap].  [Libstdcxx] holds
    the algorithms as GNU libstdc++ implements them (the "hole" is moved first
    and the value written last), on the list of the elements of the iterator
    range.  [HeapContract] is what the standard promises about them; the cache
    is proved against that interface, and the instance at the end of this file
    discharges it. *)

From S2P Require Import Prelude.
From Stdlib Require Import ZArith Lia.
From stdpp Require Import base gmap strings fin_maps numbers list.

(** ** Heap order *)

(** The index of the parent of index [i] of a heap vector. *)
Definition parent (i : nat) : nat := (i - 1) / 2.

(** A comparison the algorithms may be used with: a strict weak order. *)
Class StrictWeak {A} (comp : A -> A -> bool) := {
  strict_asym : forall x y, comp x y = true -> comp y x = false;
  strict_negtrans : forall x y z, comp x y = false -> comp y z = false -> comp x z = false
}.

(** [std::is_heap]: no element precedes, in the sense of [comp], a child. *)
Definition is_heap {A} `{Inhabited A} (comp : A -> A -> bool) (l : list A) : Prop :=
  forall i, 0 < i < length l -> comp (l !!! parent i) (l !!! i) = false.

Lemma is_heap_seq {A} `{Inhabited A} (comp : A -> A -> bool) (l : list A) :
  is_heap comp l <-> Forall (fun i => comp (l !!! parent i) (l !!! i) = false) (seq 1 (length l - 1)).
Proof.
  unfold is_heap. rewrite Forall_forall. split; intros Hl i Hi; apply Hl.
  - apply elem_of_seq in Hi. lia.
  - apply elem_of_seq. lia.
Qed.

#[global] Instance is_heap_dec {A} `{Inhabited A} (comp : A -> A -> bool) (l : list A) : Decision (is_heap comp l) :=
  match decide (Forall (fun i => comp (l !!! parent i) (l !!! i) = false) (seq 1 (length l - 1))) with
  | left Hl => left (proj2 (is_heap_seq comp l) Hl)
  | right Hl => right (fun Hh => Hl (proj1 (is_heap_seq comp l) Hh))
  end.

(** ** The interface *)

Class HeapOps (A : Type) := {
  push_heap : (A -> A -> bool) -> list A -> list A;
  pop_heap : (A -> A -> bool) -> list A -> list A;
  make_heap : (A -> A -> bool) -> list A -> list A
}.

(** What the standard promises, under its preconditions: the comparison is a
    strict weak order, [push_heap] is given a heap with one more element at
    the end, [pop_heap] a heap that is not empty. *)
Class HeapContract (A : Type) `{Inhabited A} `{HeapOps A} := {
  push_heap_spec : forall comp l x, StrictWeak comp -> is_heap comp l ->
    push_heap comp (l ++ [x]) ≡ₚ l ++ [x] /\ is_heap comp (push_heap comp (l ++ [x]));
  pop_heap_spec : forall comp x l, StrictWeak comp -> is_heap comp (x :: l) ->
    exists r, pop_heap comp (x :: l) = r ++ [x] /\ r ≡ₚ l /\ is_heap comp r;
  make_heap_spec : forall comp l, StrictWeak comp ->
    make_heap comp l ≡ₚ l /\ is_heap comp (make_heap comp l)
}.

(** ** libstdc++ *)

Module Libstdcxx.
Section heap.
Context {A : Type} `{Inhabited A} (comp : A -> A -> bool).

(** [std::__push_heap]: move the hole up while the parent precedes the value.
    [fuel] bounds the number of moves; the hole index itself is enough. *)
Fixpoint push_up (fuel : nat) (l : list A) (hole top : nat) (value : A) : list A :=
  match fuel with
  | O => <[hole := value]> l
  | S fuel =>
      if (top <? hole) && comp (l !!! parent hole) value
      then push_up fuel (<[hole := l !!! parent hole]> l) (parent hole) top value
      else <[hole := value]> l
  end.

(** The descent of [std::__adjust_heap]: both children exist. *)
Fixpoint sift_down (fuel : nat) (l : list A) (hole : nat) : list A * nat :=
  match fuel with
  | O => (l, hole)
  | S fuel =>
      if hole <? (length l - 1) / 2 then
        let second := 2 * (hole + 1) in
        let second := if comp (l !!! second) (l !!! (second - 1)) then second - 1 else second in
        sift_down fuel (<[hole := l !!! second]> l) second
      else (l, hole)
  end.

(** [std::__adjust_heap] on the range [l]. *)
Definition adjust_heap (l : list A) (hole : nat) (value : A) : list A :=
  let len := length l in
  let '(l1, h1) := sift_down len l hole in
  let '(l2, h2) :=
    if Nat.even len && (h1 =? (len - 2) / 2)
    then (<[h1 := l1 !!! (2 * (h1 + 1) - 1)]> l1, 2 * (h1 + 1) - 1)
    else (l1, h1) in
  push_up (S h2) l2 h2 hole value.

Definition push_heap_impl (l : list A) : list A :=
  match length l with
  | O => l
  | S n => push_up (S n) l n 0 (l !!! n)
  end.

Definition pop_heap_impl (l : list A) : list A :=
  match length l with
  | S (S n) => adjust_heap (take (S n) l) 0 (l !!! S n) ++ [l !!! 0]
  | _ => l
  end.

Fixpoint make_heap_loop (par : nat) (l : list A) : list A :=
  let l := adjust_heap l par (l !!! par) in
  match par with
  | O => l
  | S par => make_heap_loop par l
  end.

Definition make_heap_impl (l : list A) : list A :=
  if length l <? 2 then l else make_heap_loop ((length l - 2) / 2) l.

End heap.
End Libstdcxx.

#[global] Instance libstdcxx_ops {A} `{Inhabited A} : HeapOps A := {
  push_heap := Libstdcxx.push_heap_impl;
  pop_heap := Libstdcxx.pop_heap_impl;
  make_heap := Libstdcxx.make_heap_impl
}.

(** ** Permutations *)

#[local] Arguments Nat.div : simpl never.
#[local] Arguments Nat.mul : simpl never.

Section perm.
Context {A : Type} `{Inhabited A}.

Lemma lookup_total_insert_eq (l : list A) i x :
  i < length l -> <[i := x]> l !!! i = x.
Proof. intros. by apply list_lookup_total_insert_eq. Qed.

(** Moving the hole from [h] to [p] and then filling it. *)
Lemma hole_swap (l : list A) h p v :
  h < length l -> p < length l ->
  <[p := v]> (<[h := l !!! p]> l) ≡ₚ <[h := v]> l.
Proof.
  intros Hh Hp. destruct (decide (h = p)) as [->|Hne].
  - by rewrite list_insert_insert_eq.
  - rewrite <- (list_insert_insert_eq l h (l !!! p) v).
    apply Permutation_insert_swap.
    + apply list_lookup_insert_eq; lia.
    + rewrite list_lookup_insert_ne by done. by apply list_lookup_lookup_total_lt.
Qed.

Context (comp : A -> A -> bool).
Import Libstdcxx.

Lemma parent_lt i : 0 < i -> parent i < i.
Proof. intros Hi. unfold parent. apply Nat.Div0.div_lt_upper_bound. lia. Qed.

Lemma push_up_perm fuel l hole top v :
  hole < length l -> push_up comp fuel l hole top v ≡ₚ <[hole := v]> l.
Proof.
  revert l hole. induction fuel as [|fuel IH]; intros l hole Hh; [done|]. simpl.
  destruct (top <? hole) eqn:Et; simpl; [|done].
  destruct (comp _ _); [|done]. apply Nat.ltb_lt in Et.
  pose proof (parent_lt hole ltac:(lia)).
  rewrite IH by (rewrite length_insert; lia). apply hole_swap; lia.
Qed.

Lemma sift_down_perm fuel l hole l' hole' :
  hole < length l -> sift_down comp fuel l hole = (l', hole') ->
  length l' = length l /\ hole' < length l /\ forall v, <[hole' := v]> l' ≡ₚ <[hole := v]> l.
Proof.
  revert l hole. induction fuel as [|fuel IH]; intros l hole Hh; simpl.
  { by intros [= <- <-]. }
  destruct (Nat.ltb_spec hole ((length l - 1) / 2)) as [Hlt|]; [|by intros [= <- <-]].
  set (s := if comp _ _ then _ else _).
  assert (s < length l) as Hs.
  { pose proof (Nat.Div0.div_mod (length l - 1) 2).
    unfold s. destruct (comp _ _); lia. }
  intros Hsd. destruct (IH _ _ ltac:(by rewrite length_insert) Hsd) as (H1 & H2 & H3).
  rewrite length_insert in *. split_and!; [done|done|].
  intros v. rewrite H3. by apply hole_swap.
Qed.

Lemma adjust_heap_perm l hole v :
  hole < length l -> adjust_heap comp l hole v ≡ₚ <[hole := v]> l.
Proof.
  intros Hh. unfold adjust_heap.
  destruct (sift_down comp (length l) l hole) as [l1 h1] eqn:E.
  destruct (sift_down_perm _ _ _ _ _ Hh E) as (Hl & Hh1 & Hp).
  destruct (Nat.even (length l) && (h1 =? (length l - 2) / 2)) eqn:Eb.
  - apply andb_true_iff in Eb as [Eev Eq]. apply Nat.eqb_eq in Eq.
    apply Nat.even_spec in Eev as [k Hk].
    assert (2 * (h1 + 1) - 1 < length l1) as Hb.
    { pose proof (Nat.Div0.div_mod (length l - 2) 2). lia. }
    rewrite push_up_perm by (by rewrite length_insert).
    rewrite hole_swap by lia. apply Hp.
  - rewrite push_up_perm by lia. apply Hp.
Qed.

Lemma push_heap_impl_perm l : push_heap_impl comp l ≡ₚ l.
Proof.
  unfold push_heap_impl. destruct (length l) as [|n] eqn:E; [done|].
  rewrite push_up_perm by lia. rewrite list_insert_id; [done|].
  apply list_lookup_lookup_total_lt. lia.
Qed.

Lemma make_heap_loop_perm par l : par < length l -> make_heap_loop comp par l ≡ₚ l.
Proof.
  revert l. induction par as [|par IH]; intros l Hp; simpl.
  - rewrite adjust_heap_perm by done. rewrite list_insert_id; [done|].
    by apply list_lookup_lookup_total_lt.
  - assert (adjust_heap comp l (S par) (l !!! S par) ≡ₚ l) as Ha.
    { rewrite adjust_heap_perm by done. rewrite list_insert_id; [done|].
      by apply list_lookup_lookup_total_lt. }
    rewrite IH; [done|]. rewrite Ha. lia.
Qed.

Lemma make_heap_impl_perm l : make_heap_impl comp l ≡ₚ l.
Proof.
  unfold make_heap_impl. destruct (Nat.ltb_spec (length l) 2); [done|].
  apply make_heap_loop_perm. pose proof (Nat.Div0.div_mod (length l - 2) 2). lia.
Qed.

Lemma pop_heap_impl_last x l :
  exists r, pop_heap_impl comp (x :: l) = r ++ [x] /\ r ≡ₚ l.
Proof.
  destruct l as [|y l _] using rev_ind; [by exists []|].
  unfold pop_heap_impl. simpl. rewrite length_app. simpl. rewrite Nat.add_1_r. simpl.
  eexists; split; [done|].
  rewrite adjust_heap_perm by (simpl; lia).
  rewrite take_app_length. simpl.
  rewrite list_lookup_total_middle by done. apply Permutation_cons_append.
Qed.

Lemma pop_heap_impl_perm l : pop_heap_impl comp l ≡ₚ l.
Proof.
  destruct l as [|x l]; [done|].
  destruct (pop_heap_impl_last x l) as (r & -> & Hr). rewrite Hr.
  symmetry. apply Permutation_cons_append.
Qed.

End perm.

(** ** Heap order *)

(** [below t h]: index [h] is in the subtree rooted at [t]. *)
Inductive below (t : nat) : nat -> Prop :=
  | below_root : below t t
  | below_child h : 0 < h -> below t (parent h) -> below t h.

Lemma below_le t h : below t h -> t <= h.
Proof.
  induction 1 as [|h Hh _ IH]; [done|]. pose proof (parent_lt h Hh). lia.
Qed.

Lemma below_parent t h : below t h -> t < h -> below t (parent h).
Proof. intros Hb Hlt. inversion Hb; subst; [lia|done]. Qed.

Lemma below_zero h : below 0 h.
Proof.
  induction (lt_wf h) as [h _ IH]. destruct h as [|h]; [constructor|].
  apply below_child; [lia|]. apply IH, parent_lt. lia.
Qed.

(** The children of [h] are the indices whose parent is [h]. *)
Lemma parent_iff c h : 0 < c -> parent c = h <-> c = 2 * h + 1 \/ c = 2 * h + 2.
Proof.
  intros Hc. unfold parent. pose proof (Nat.Div0.div_mod (c - 1) 2).
  pose proof (Nat.mod_upper_bound (c - 1) 2). lia.
Qed.

Section order.
Context {A : Type} `{Inhabited A} (comp : A -> A -> bool) `{!StrictWeak comp}.
Import Libstdcxx.

(** Heap order of the subtrees rooted at [top] and later. *)
Definition heap_from (top : nat) (l : list A) : Prop :=
  forall i, 0 < i < length l -> top <= parent i -> comp (l !!! parent i) (l !!! i) = false.

(** Heap order everywhere except around a hole at [h], across which the order
    holds too. *)
Definition heap_hole (top h : nat) (l : list A) : Prop :=
  (forall i, 0 < i < length l -> top <= parent i -> i <> h -> parent i <> h ->
     comp (l !!! parent i) (l !!! i) = false) /\
  (top < h -> forall c, 0 < c < length l -> parent c = h ->
     comp (l !!! parent h) (l !!! c) = false).

Definition fits_hole (h : nat) (v : A) (l : list A) : Prop :=
  forall c, 0 < c < length l -> parent c = h -> comp v (l !!! c) = false.

Lemma fill_hole top h v l :
  below top h -> h < length l -> heap_hole top h l -> fits_hole h v l ->
  (top < h -> comp (l !!! parent h) v = false) ->
  heap_from top (<[h := v]> l).
Proof.
  intros Hb Hh [Hord _] Hfit Hpar i Hi Ht. rewrite length_insert in Hi.
  pose proof (parent_lt i ltac:(lia)) as Hpi.
  destruct (decide (i = h)) as [->|Hih].
  - rewrite lookup_total_insert_eq, list_lookup_total_insert_ne by lia. apply Hpar.
    pose proof (below_le _ _ Hb). lia.
  - rewrite (list_lookup_total_insert_ne l h i) by done.
    destruct (decide (parent i = h)) as [Hp|Hp].
    + rewrite Hp, lookup_total_insert_eq by done. by apply Hfit.
    + rewrite list_lookup_total_insert_ne by done. by apply Hord.
Qed.

(** One move of the hole up. *)
Lemma hole_up top h v l :
  below top h -> top < h -> h < length l -> heap_hole top h l -> fits_hole h v l ->
  comp (l !!! parent h) v = true ->
  heap_hole top (parent h) (<[h := l !!! parent h]> l) /\
  fits_hole (parent h) v (<[h := l !!! parent h]> l).
Proof.
  intros Hb Ht Hh [Hord Hacross] Hfit Hc. set (p := parent h) in *.
  assert (p < h) as Hph by (apply parent_lt; lia).
  pose proof (below_parent _ _ Hb Ht) as Hbp. fold p in Hbp.
  pose proof (below_le _ _ Hbp) as Htp.
  assert (Hlk : forall i, i <> h -> <[h := l !!! p]> l !!! i = l !!! i)
    by (intros; by apply list_lookup_total_insert_ne).
  assert (Hlh : <[h := l !!! p]> l !!! h = l !!! p) by (by apply lookup_total_insert_eq).
  assert (Hsib : forall c, 0 < c < length l -> parent c = p -> c <> h ->
            comp (l !!! p) (l !!! c) = false).
  { intros c Hcl Hcp Hch. rewrite <- Hcp. apply Hord; lia. }
  split; [split|]; rewrite ?length_insert.
  - intros i Hi Hti Hip Hpip. destruct (decide (i = h)) as [->|Hih]; [done|].
    rewrite (Hlk i) by done. destruct (decide (parent i = h)) as [Hpi|Hpi].
    + rewrite Hpi, Hlh. apply Hacross; [lia|done..].
    + rewrite Hlk by done. by apply Hord.
  - intros Htp' c Hcl Hcp. pose proof (parent_lt p ltac:(lia)).
    pose proof (below_le _ _ (below_parent _ _ Hbp Htp')).
    assert (comp (l !!! parent p) (l !!! p) = false) as Hgp by (apply Hord; lia).
    rewrite Hlk by lia. destruct (decide (c = h)) as [->|Hch]; [by rewrite Hlh|].
    rewrite Hlk by done. eapply strict_negtrans; [exact Hgp|]. by apply Hsib.
  - intros c Hcl Hcp. rewrite length_insert in Hcl.
    pose proof (strict_asym _ _ Hc) as Hvp.
    destruct (decide (c = h)) as [->|Hch]; [by rewrite Hlh|]. rewrite Hlk by done.
    eapply strict_negtrans; [exact Hvp|]. by apply Hsib.
Qed.

Lemma push_up_heap fuel l h top v :
  h < fuel -> below top h -> h < length l -> heap_hole top h l -> fits_hole h v l ->
  heap_from top (push_up comp fuel l h top v).
Proof.
  revert l h. induction fuel as [|fuel IH]; intros l h Hf Hb Hh Hord Hfit; [lia|]. simpl.
  destruct (Nat.ltb_spec top h) as [Ht|Ht]; simpl.
  - destruct (comp (l !!! parent h) v) eqn:Ec; [|by apply fill_hole].
    destruct (hole_up top h v l) as [H1 H2]; try done.
    pose proof (parent_lt h ltac:(lia)).
    apply IH; rewrite ?length_insert; try done; [lia|by apply below_parent|lia].
  - apply fill_hole; try done. lia.
Qed.

(** One move of the hole down, to a child [s] that no sibling precedes. *)
Lemma hole_down top h s l :
  below top h -> 0 < s < length l -> parent s = h -> heap_hole top h l ->
  (forall c, 0 < c < length l -> parent c = h -> c <> s -> comp (l !!! s) (l !!! c) = false) ->
  heap_hole top s (<[h := l !!! s]> l).
Proof.
  intros Hb Hs Hps [Hord Hacross] Hsib. pose proof (below_le _ _ Hb).
  pose proof (parent_lt s ltac:(lia)) as Hlt. rewrite Hps in Hlt.
  assert (Hlk : forall i, i <> h -> <[h := l !!! s]> l !!! i = l !!! i)
    by (intros; by apply list_lookup_total_insert_ne).
  assert (Hlh : <[h := l !!! s]> l !!! h = l !!! s) by (apply lookup_total_insert_eq; lia).
  split; rewrite length_insert.
  - intros i Hi Ht His Hpis. pose proof (parent_lt i ltac:(lia)).
    destruct (decide (i = h)) as [->|Hih].
    + rewrite Hlh, Hlk by lia. apply Hacross; [lia|done..].
    + rewrite (Hlk i) by done. destruct (decide (parent i = h)) as [Hpi|Hpi].
      * rewrite Hpi, Hlh. by apply Hsib.
      * rewrite Hlk by done. by apply Hord.
  - intros _ c Hc Hpc. pose proof (parent_lt c ltac:(lia)).
    rewrite Hps, Hlh, Hlk by lia. rewrite <- Hpc. apply Hord; lia.
Qed.

Lemma sift_down_heap fuel l h top l' h' :
  length l <= h + fuel -> below top h -> h < length l -> heap_hole top h l ->
  sift_down comp fuel l h = (l', h') ->
  length l' = length l /\ below top h' /\ h' < length l /\ heap_hole top h' l' /\
  (length l - 1) / 2 <= h'.
Proof.
  revert l h. induction fuel as [|fuel IH]; intros l h Hf Hb Hh Hord; [lia|]. simpl.
  destruct (Nat.ltb_spec h ((length l - 1) / 2)) as [Hlt|Hge]; [|intros [= <- <-]; by split_and!].
  pose proof (Nat.Div0.div_mod (length l - 1) 2).
  pose proof (Nat.mod_upper_bound (length l - 1) 2).
  set (s := if comp _ _ then _ else _).
  assert (s = 2 * h + 1 \/ s = 2 * h + 2) as Hs by (unfold s; destruct (comp _ _); lia).
  assert (parent s = h) as Hps by (apply parent_iff; lia).
  intros Hsd. apply IH in Hsd; rewrite ?length_insert in *; try lia; try done.
  - apply below_child; [lia|]. by rewrite Hps.
  - apply hole_down; try done; [lia|]. intros c Hc Hpc Hcs.
    apply parent_iff in Hpc; [|lia].
    unfold s in *. destruct (comp (l !!! (2 * (h + 1))) (l !!! (2 * (h + 1) - 1))) eqn:Ec.
    + apply strict_asym. replace c with (2 * (h + 1)) by lia. exact Ec.
    + replace c with (2 * (h + 1) - 1) by lia. exact Ec.
Qed.

Lemma adjust_heap_heap l h v :
  h < length l -> heap_from (S h) l -> heap_from h (adjust_heap comp l h v).
Proof.
  intros Hh Hord. unfold adjust_heap.
  destruct (sift_down comp (length l) l h) as [l1 h1] eqn:E.
  apply (sift_down_heap _ _ _ h) in E as (Hl & Hb & Hh1 & Hhole & Hge);
    [|lia|constructor|done|].
  2: { split; [|lia]. intros i Hi Ht Hih Hpi. apply Hord; [done|lia]. }
  pose proof (Nat.Div0.div_mod (length l - 1) 2).
  pose proof (Nat.mod_upper_bound (length l - 1) 2).
  pose proof (Nat.Div0.div_mod (length l - 2) 2).
  pose proof (Nat.mod_upper_bound (length l - 2) 2).
  destruct (Nat.even (length l) && (h1 =? (length l - 2) / 2)) eqn:Eb.
  - apply andb_true_iff in Eb as [Eev Eq]. apply Nat.eqb_eq in Eq.
    apply Nat.even_spec in Eev as [k Hk]. set (s := 2 * (h1 + 1) - 1).
    assert (s = 2 * h1 + 1 /\ s = length l - 1) as [Hs1 Hs2] by (unfold s; lia).
    assert (parent s = h1) as Hps by (apply parent_iff; lia).
    apply push_up_heap; rewrite ?length_insert; try lia.
    + apply below_child; [lia|]. by rewrite Hps.
    + apply hole_down; try done; [lia|]. intros c Hc Hpc Hcs.
      apply parent_iff in Hpc; lia.
    + intros c Hc Hpc. rewrite length_insert in Hc. apply parent_iff in Hpc; lia.
  - apply push_up_heap; try done; try lia.
    intros c Hc Hpc. apply parent_iff in Hpc; [|lia]. exfalso.
    apply andb_false_iff in Eb as [Eev|Eq].
    + rewrite <- Nat.negb_odd in Eev. apply negb_false_iff, Nat.odd_spec in Eev as [k Hk]. lia.
    + apply Nat.eqb_neq in Eq. lia.
Qed.

Lemma heap_from_0 l : heap_from 0 l -> is_heap comp l.
Proof. intros Hl i Hi. apply Hl; [done|lia]. Qed.

Lemma push_heap_impl_heap l x :
  is_heap comp l -> is_heap comp (push_heap_impl comp (l ++ [x])).
Proof.
  intros Hl. unfold push_heap_impl. rewrite length_app, Nat.add_1_r.
  apply heap_from_0, push_up_heap; rewrite ?length_app; simpl; try lia.
  - apply below_zero.
  - split.
    + intros j Hj _ Hne _. rewrite length_app in Hj; simpl in Hj.
      pose proof (parent_lt j ltac:(lia)).
      rewrite !lookup_total_app_l by lia. apply Hl. lia.
    + intros _ c Hc Hpc. rewrite length_app in Hc; simpl in Hc.
      pose proof (parent_lt c ltac:(lia)). lia.
  - intros c Hc Hpc. rewrite length_app in Hc; simpl in Hc.
    pose proof (parent_lt c ltac:(lia)). lia.
Qed.

Lemma make_heap_loop_heap par l :
  par < length l -> heap_from (S par) l -> is_heap comp (make_heap_loop comp par l).
Proof.
  revert l. induction par as [|par IH]; intros l Hp Hord; simpl.
  - by apply heap_from_0, adjust_heap_heap.
  - apply IH; [|by apply adjust_heap_heap].
    rewrite adjust_heap_perm by done. rewrite length_insert. lia.
Qed.

Lemma make_heap_impl_heap l : is_heap comp (make_heap_impl comp l).
Proof.
  unfold make_heap_impl. destruct (Nat.ltb_spec (length l) 2); [intros i Hi; lia|].
  pose proof (Nat.Div0.div_mod (length l - 2) 2).
  pose proof (Nat.mod_upper_bound (length l - 2) 2).
  apply make_heap_loop_heap; [lia|]. intros i Hi Hpar. exfalso.
  assert (parent i = parent i) as Hc by done. apply parent_iff in Hc; lia.
Qed.

Lemma pop_heap_impl_heap x l r :
  pop_heap_impl comp (x :: l) = r ++ [x] -> is_heap comp (x :: l) -> is_heap comp r.
Proof.
  destruct l as [|y l _] using rev_ind.
  { intros Hr _ i Hi. apply (f_equal length) in Hr. rewrite length_app in Hr. simpl in Hr. lia. }
  unfold pop_heap_impl. simpl. rewrite length_app. simpl. rewrite Nat.add_1_r. simpl.
  intros Hr Hheap. apply app_inj_2 in Hr as [<- _]; [|done].
  apply heap_from_0, adjust_heap_heap; [simpl; lia|].
  rewrite take_app_length. intros j Hj _.
  pose proof (parent_lt j ltac:(lia)). simpl in Hj.
  specialize (Hheap j). rewrite app_comm_cons in Hheap.
  rewrite length_app, !lookup_total_app_l in Hheap by (simpl; lia). apply Hheap. simpl. lia.
Qed.

(** The front of a heap is preceded by no element. *)
Lemma heap_front x l y :
  is_heap comp (x :: l) -> y ∈ x :: l -> comp x y = false.
Proof.
  intros Hh Hy. apply list_elem_of_lookup in Hy as [i Hi].
  assert (Hxx : comp x x = false).
  { destruct (comp x x) eqn:E; [|done]. pose proof (strict_asym _ _ E). congruence. }
  revert y Hi. induction (lt_wf i) as [i _ IH]. intros y Hi.
  destruct (decide (i = 0)) as [->|Hi0]; [simpl in Hi; congruence|].
  pose proof (lookup_lt_Some _ _ _ Hi) as Hlen. pose proof (parent_lt i ltac:(lia)).
  specialize (Hh i ltac:(lia)). rewrite (list_lookup_total_correct _ _ _ Hi) in Hh.
  eapply strict_negtrans; [|exact Hh]. apply (IH (parent i)); [done|].
  apply list_lookup_lookup_total_lt. lia.
Qed.

End order.

#[global] Instance libstdcxx_contract {A} `{Inhabited A} : HeapContract A.
Proof.
  split.
  - intros comp l x Hc Hl. split; [apply push_heap_impl_perm|by apply push_heap_impl_heap].
  - intros comp x l Hc Hl. destruct (pop_heap_impl_last comp x l) as (r & Hr & _).
    exists r. split_and!; [done| |by eapply pop_heap_impl_heap].
    apply (Permutation_cons_inv (a := x)). rewrite Permutation_cons_append, <- Hr. apply pop_heap_impl_perm.
  - intros comp l Hc. split; [apply make_heap_impl_perm|by apply make_heap_impl_heap].
Qed.
