(* ===== verification/LRUCache.v ===== *)
(** * The LRU cache (src/src/util/lrucache.h)

    The cache keeps heap-allocated [BlockCacheData] objects that are shared
    between a vector ordered as a heap by access time and a map from keys.
    [mem] is the store of live objects, a pointer is a key of it, and using a
    pointer whose object was deleted is a fault.  So is calling [push_heap] or
    [pop_heap] on a range that is not a heap, which the standard leaves
    undefined.  The heap algorithms are those of [StdHeap]; everything up to
    the properties is proved against the interface [HeapContract].  [LRUSpec]
    is the abstract cache: the list of entries from the most to the least
    recently used. *)

From S2P Require Import Prelude StdHeap.
From Stdlib Require Import ZArith Lia Ascii Sorting.Sorted.
From stdpp Require Import base gmap strings fin_maps numbers list sorting.

Local Open Scope Z_scope.

Module LRUCache.

(** ** Data *)

Record BlockCacheData := Block { key : string; data : list Z; atime : Z }.

Record t := LRUCache {
  _size : Z;
  _heap : list nat;
  _map : gmap string nat;
  _timeCnt : Z;
  mem : gmap nat BlockCacheData;   (** the live objects *)
  brk : nat                        (** the next address of [new] *)
}.

Definition at_ (m : gmap nat BlockCacheData) (p : nat) : Z :=
  match m !! p with Some d => atime d | None => 0 end.

(** [a->atime > b->atime]. *)
Definition Compare (m : gmap nat BlockCacheData) (a b : nat) : bool := at_ m b <? at_ m a.

(** Reading through a pointer. *)
Definition read (m : gmap nat BlockCacheData) (p : nat) : outcome BlockCacheData :=
  match m !! p with Some d => Ok d | None => Fault UseAfterFree end.

(** The heap algorithms compare the elements of the vector: each must point
    to a live object. *)
Definition check_live (m : gmap nat BlockCacheData) (h : list nat) : outcome unit :=
  if bool_decide (Forall (fun p => is_Some (m !! p)) h) then Ok tt else Fault UseAfterFree.

(** The precondition of [push_heap], on the range without its last element,
    and of [pop_heap]. *)
Definition check_heap (m : gmap nat BlockCacheData) (h : list nat) : outcome unit :=
  if bool_decide (is_heap (Compare m) h) then Ok tt else Fault NotAHeap.

Definition back (h : list nat) : outcome nat :=
  match last h with Some p => Ok p | None => Fault OutOfBounds end.

Definition pop_back (h : list nat) : outcome (list nat) :=
  match h with [] => Fault OutOfBounds | _ => Ok (take (length h - 1) h) end.

(** [delete p]. *)
Definition delete_obj (m : gmap nat BlockCacheData) (p : nat) :
    outcome (gmap nat BlockCacheData) :=
  match m !! p with Some _ => Ok (delete p m) | None => Fault UseAfterFree end.

(** ** Operations *)

(** [LRUCache(int size)]: the [int] is converted to [size_t]. *)
Definition ctor (size : Z) : t := LRUCache (to_u64 size) [] ∅ 1 ∅ 0.

Section ops.
Context `{HeapOps nat}.

Definition invalidate (this : t) (k : string) : outcome t :=
  match _map this !! k with
  | None => Ok this
  | Some b =>
      let map' := delete k (_map this) in
      d ← read (mem this) b;
      let m := <[b := Block (key d) (data d) 0]> (mem this) in
      _ ← check_live m (_heap this);
      let h := make_heap (Compare m) (_heap this) in
      _ ← check_heap m h;
      let h := pop_heap (Compare m) h in
      h ← pop_back h;
      m ← delete_obj m b;
      Ok (LRUCache (_size this) h map' (_timeCnt this) m (brk this))
  end.

(** Returns the object whose [data] the result points to, or null. *)
Definition get (this : t) (k : string) : outcome (option nat * t) :=
  match _map this !! k with
  | Some p =>
      d ← read (mem this) p;
      let m := <[p := Block (key d) (data d) (_timeCnt this)]> (mem this) in
      _ ← check_live m (_heap this);
      let h := make_heap (Compare m) (_heap this) in
      Ok (Some p, LRUCache (_size this) h (_map this) (to_u64 (_timeCnt this + 1)) m (brk this))
  | None => Ok (None, this)
  end.

(** The eviction at the end of [put]. *)
Definition evict (this : t) : outcome t :=
  _ ← check_live (mem this) (_heap this);
  _ ← check_heap (mem this) (_heap this);
  let h := pop_heap (Compare (mem this)) (_heap this) in
  b ← back h;
  h ← pop_back h;
  d ← read (mem this) b;
  m ← delete_obj (mem this) b;
  Ok (LRUCache (_size this) h (delete (key d) (_map this)) (_timeCnt this) m (brk this)).

Definition put (this : t) (k : string) (v : list Z) : outcome t :=
  match _map this !! k with
  | Some p =>
      d ← read (mem this) p;
      Ok (LRUCache (_size this) (_heap this) (_map this) (to_u64 (_timeCnt this + 1))
            (<[p := Block (key d) v (_timeCnt this)]> (mem this)) (brk this))
  | None =>
      let b := brk this in
      let m := <[b := Block k v (_timeCnt this)]> (mem this) in
      let h := _heap this ++ [b] in
      _ ← check_live m h;
      _ ← check_heap m (_heap this);
      let h := push_heap (Compare m) h in
      let this := LRUCache (_size this) h (<[k := b]> (_map this))
                    (to_u64 (_timeCnt this + 1)) m (S b) in
      if _size this <? Z.of_nat (length h) then evict this else Ok this
  end.

(** [~LRUCache]: [while (_heap.size()) { delete _heap.back(); _heap.pop_back(); }]. *)
Fixpoint dtor_loop (n : nat) (h : list nat) (m : gmap nat BlockCacheData) :
    outcome (gmap nat BlockCacheData) :=
  match n with
  | O => Ok m
  | S n =>
      p ← back h;
      m ← delete_obj m p;
      h ← pop_back h;
      dtor_loop n h m
  end.

Definition dtor (this : t) : outcome (gmap nat BlockCacheData) :=
  dtor_loop (length (_heap this)) (_heap this) (mem this).

(** ** Sequences of calls *)

Inductive op := Get (k : string) | Put (k : string) (v : list Z) | Invalidate (k : string).

(** One call; the result is what [get] points to. *)
Definition step (this : t) (o : op) : outcome (option (list Z) * t) :=
  match o with
  | Get k =>
      r ← get this k;
      match r.1 with
      | Some p => d ← read (mem r.2) p; Ok (Some (data d), r.2)
      | None => Ok (None, r.2)
      end
  | Put k v => this ← put this k v; Ok (None, this)
  | Invalidate k => this ← invalidate this k; Ok (None, this)
  end.

Fixpoint run (this : t) (os : list op) : outcome (list (option (list Z)) * t) :=
  match os with
  | [] => Ok ([], this)
  | o :: os =>
      r ← step this o;
      rs ← run r.2 os;
      Ok (r.1 :: rs.1, rs.2)
  end.

End ops.
End LRUCache.

(** ** The abstract cache *)

Module LRUSpec.

Abbreviation entries := (list (string * list Z)).

Definition lookup (k : string) (l : entries) : option (list Z) :=
  snd <$> head (filter (fun x => x.1 = k) l).

Definition remove (k : string) (l : entries) : entries := filter (fun x => x.1 <> k) l.

Definition get (k : string) (l : entries) : option (list Z) * entries :=
  match lookup k l with
  | Some v => (Some v, (k, v) :: remove k l)
  | None => (None, l)
  end.

(** A new entry is added in front; only what exceeds the capacity goes, from
    the other end. *)
Definition put (cap : nat) (k : string) (v : list Z) (l : entries) : entries :=
  match lookup k l with
  | Some _ => (k, v) :: remove k l
  | None => take cap ((k, v) :: l)
  end.

Definition step (cap : nat) (l : entries) (o : LRUCache.op) : option (list Z) * entries :=
  match o with
  | LRUCache.Get k => get k l
  | LRUCache.Put k v => (None, put cap k v l)
  | LRUCache.Invalidate k => (None, remove k l)
  end.

(** The discipline under which the class is a correct LRU cache.  [clean]:
    the vector is heap ordered.  Overwriting an entry with [put] breaks the
    order; a hit of [get] or [invalidate] repairs it; adding a new entry needs
    it. *)
Definition hit (k : string) (l : entries) : bool := bool_decide (lookup k l <> None).

Definition next_clean (clean : bool) (l : entries) (o : LRUCache.op) : bool :=
  match o with
  | LRUCache.Get k => clean || hit k l
  | LRUCache.Put k _ => clean && negb (hit k l)
  | LRUCache.Invalidate k => clean || hit k l
  end.

Definition allowed (clean : bool) (l : entries) (o : LRUCache.op) : bool :=
  match o with
  | LRUCache.Put k _ => clean || hit k l
  | _ => true
  end.

(** The run of a sequence of calls, [None] when it breaks the discipline. *)
Fixpoint run (cap : nat) (clean : bool) (l : entries) (os : list LRUCache.op) :
    option (list (option (list Z)) * entries) :=
  match os with
  | [] => Some ([], l)
  | o :: os =>
      if allowed clean l o then
        let r := step cap l o in
        rs ← run cap (next_clean clean l o) r.2 os;
        Some (r.1 :: rs.1, rs.2)
      else None
  end.

End LRUSpec.

(** ** Invariant and shared lemmas *)

Module LRUFacts.
Import LRUCache.

(** The vector, the map and the live objects describe the same entries, and
    access times are distinct, positive and in the past. *)
Record wf (st : t) : Prop := {
  wf_nodup : NoDup (_heap st);
  wf_live p : p ∈ _heap st <-> is_Some (mem st !! p);
  wf_map k p : _map st !! k = Some p <-> exists d, mem st !! p = Some d /\ key d = k;
  wf_brk p : is_Some (mem st !! p) -> (p < brk st)%nat;
  wf_atime p d : mem st !! p = Some d -> 1 <= atime d < _timeCnt st;
  wf_distinct p q d e : mem st !! p = Some d -> mem st !! q = Some e ->
    atime d = atime e -> p = q;
  wf_time : 1 <= _timeCnt st < 2 ^ 64
}.

Definition bounded (st : t) : Prop := Z.of_nat (length (_heap st)) <= _size st.

(** The vector is heap ordered. *)
Definition ordered (st : t) : Prop := is_heap (Compare (mem st)) (_heap st).

#[global] Instance Compare_strict m : StrictWeak (Compare m).
Proof.
  split; unfold Compare; intros *; rewrite ?Z.ltb_lt, ?Z.ltb_ge; lia.
Qed.

Lemma wf_key_inj st p q d e :
  wf st -> mem st !! p = Some d -> mem st !! q = Some e -> key d = key e -> p = q.
Proof.
  intros Hwf Hp Hq Hk.
  assert (_map st !! key e = Some p) as H1 by (apply wf_map; eauto).
  assert (_map st !! key e = Some q) as H2 by (apply wf_map; eauto). congruence.
Qed.

Lemma check_live_ok m h :
  (forall p, p ∈ h -> is_Some (m !! p)) -> check_live m h = Ok tt.
Proof.
  intros Hl. unfold check_live. rewrite bool_decide_eq_true_2; [done|].
  by apply Forall_forall.
Qed.

Lemma check_heap_ok m h : is_heap (Compare m) h -> check_heap m h = Ok tt.
Proof. intros Hh. unfold check_heap. by rewrite bool_decide_eq_true_2. Qed.

Lemma check_heap_bad m h : ~ is_heap (Compare m) h -> check_heap m h = Fault NotAHeap.
Proof. intros Hh. unfold check_heap. by rewrite bool_decide_eq_false_2. Qed.

Lemma is_Some_insert (m : gmap nat BlockCacheData) p d q :
  is_Some (m !! p) -> is_Some (<[p := d]> m !! q) <-> is_Some (m !! q).
Proof.
  intros Hp. rewrite lookup_insert. case_decide; subst; [|done]. split; eauto.
Qed.

Lemma pop_back_snoc r x : pop_back (r ++ [x]) = Ok r.
Proof.
  unfold pop_back. destruct (r ++ [x]) eqn:E; [by destruct r|].
  rewrite <- E, length_app, Nat.add_sub. by rewrite take_app_length.
Qed.

Lemma back_snoc r x : back (r ++ [x]) = Ok x.
Proof. unfold back. by rewrite last_snoc. Qed.

(** Heap order depends only on the access times of the elements. *)
Lemma is_heap_ext m m' h :
  (forall p, p ∈ h -> at_ m p = at_ m' p) -> is_heap (Compare m) h -> is_heap (Compare m') h.
Proof.
  intros Hat Hh i Hi. specialize (Hh i Hi). pose proof (parent_lt i ltac:(lia)).
  unfold Compare in *.
  rewrite <- !Hat; [done|..]; apply list_elem_of_lookup_total; eexists; (split; [|done]); lia.
Qed.

(** *** The three ways the entries change *)

(** An object gets the current time and possibly new data. *)
Lemma wf_touch st p d v h :
  wf st -> mem st !! p = Some d -> _timeCnt st + 1 < 2 ^ 64 -> h ≡ₚ _heap st ->
  wf (LRUCache (_size st) h (_map st) (to_u64 (_timeCnt st + 1))
        (<[p := Block (key d) v (_timeCnt st)]> (mem st)) (brk st)).
Proof.
  intros Hwf Hp Ht Hh. pose proof (wf_time _ Hwf).
  rewrite to_u64_id by (unfold is_u64; lia).
  assert (Hin : forall q e, <[p := Block (key d) v (_timeCnt st)]> (mem st) !! q = Some e ->
    exists e0, mem st !! q = Some e0 /\ key e0 = key e /\
      (q = p /\ atime e = _timeCnt st \/ q <> p /\ atime e = atime e0)).
  { intros q e. rewrite lookup_insert. case_decide; subst.
    - intros [= <-]. exists d. eauto.
    - intros Hq. exists e. eauto 10. }
  split; simpl.
  - rewrite Hh. apply Hwf.
  - intros q. rewrite Hh, is_Some_insert by eauto. apply Hwf.
  - intros k q. rewrite (wf_map _ Hwf). split.
    + intros (e & He & <-). rewrite lookup_insert. case_decide; subst; [|eauto].
      rewrite He in Hp. injection Hp as ->. eauto.
    + intros (e & He & <-). destruct (Hin _ _ He) as (e0 & He0 & Hk & _). eauto.
  - intros q. rewrite is_Some_insert by eauto. apply Hwf.
  - intros q e He. destruct (Hin _ _ He) as (e0 & He0 & _ & [[_ ->]|[_ ->]]); [lia|].
    pose proof (wf_atime _ Hwf _ _ He0). lia.
  - intros q r e f He Hf Hef.
    destruct (Hin _ _ He) as (e0 & He0 & _ & Hc). destruct (Hin _ _ Hf) as (f0 & Hf0 & _ & Hc').
    pose proof (wf_atime _ Hwf _ _ He0). pose proof (wf_atime _ Hwf _ _ Hf0).
    destruct Hc as [[-> ?]|[? ?]], Hc' as [[-> ?]|[? ?]]; try done; try lia.
    eapply (wf_distinct _ Hwf); eauto. lia.
  - lia.
Qed.

(** A new object. *)
Lemma wf_new st k v h :
  wf st -> _map st !! k = None -> _timeCnt st + 1 < 2 ^ 64 -> h ≡ₚ _heap st ++ [brk st] ->
  wf (LRUCache (_size st) h (<[k := brk st]> (_map st)) (to_u64 (_timeCnt st + 1))
        (<[brk st := Block k v (_timeCnt st)]> (mem st)) (S (brk st))).
Proof.
  intros Hwf Hk Ht Hh. pose proof (wf_time _ Hwf).
  rewrite to_u64_id by (unfold is_u64; lia).
  assert (Hb : mem st !! brk st = None).
  { apply eq_None_not_Some. intros Hs. apply (wf_brk _ Hwf) in Hs. lia. }
  assert (Hnew : forall q e, mem st !! q = Some e -> q <> brk st) by congruence.
  split; simpl.
  - rewrite Hh. apply NoDup_app. split_and!; [apply Hwf| |apply NoDup_singleton].
    intros q Hq ->%list_elem_of_singleton. apply (wf_live _ Hwf) in Hq as [e He]. congruence.
  - intros q. rewrite Hh, elem_of_app, list_elem_of_singleton, (wf_live _ Hwf), lookup_insert.
    case_decide; subst; naive_solver.
  - intros k' q. rewrite lookup_insert. case_decide as Hkk; subst.
    + split; [intros [= <-]; rewrite lookup_insert_eq; eauto|].
      intros (e & He & Hek). rewrite lookup_insert in He. case_decide; [congruence|].
      assert (_map st !! key e = Some q) by (apply (wf_map _ Hwf); eauto). congruence.
    + rewrite (wf_map _ Hwf). split; intros (e & He & Hek).
      * exists e. split; [|done]. rewrite lookup_insert_ne; [done|]. naive_solver.
      * rewrite lookup_insert in He. case_decide; [naive_solver|]. eauto.
  - intros q. rewrite lookup_insert. case_decide; subst; [lia|].
    intros Hq. apply (wf_brk _ Hwf) in Hq. lia.
  - intros q e. rewrite lookup_insert. case_decide; subst; [intros [= <-]; simpl; lia|].
    intros He. pose proof (wf_atime _ Hwf _ _ He). lia.
  - intros q r e f He Hf Hef.
    apply lookup_insert_Some in He as [[<- <-]|[_ He]], Hf as [[<- <-]|[_ Hf]]; [done|..];
      simpl in Hef.
    + pose proof (wf_atime _ Hwf _ _ Hf). lia.
    + pose proof (wf_atime _ Hwf _ _ He). lia.
    + by eapply (wf_distinct _ Hwf).
  - lia.
Qed.

(** An object is taken out everywhere. *)
Lemma wf_drop st p d h :
  wf st -> mem st !! p = Some d -> p :: h ≡ₚ _heap st ->
  wf (LRUCache (_size st) h (delete (key d) (_map st)) (_timeCnt st)
        (delete p (mem st)) (brk st)).
Proof.
  intros Hwf Hp Hh. pose proof (wf_nodup _ Hwf) as Hnd. rewrite <- Hh in Hnd.
  apply NoDup_cons in Hnd as [Hph Hnd].
  assert (Hin : forall q, q ∈ h <-> q <> p /\ is_Some (mem st !! q)).
  { intros q. rewrite <- (wf_live _ Hwf), <- Hh, elem_of_cons. naive_solver. }
  split; simpl.
  - done.
  - intros q. rewrite Hin, lookup_delete. case_decide; subst; [|naive_solver].
    split; [naive_solver|]. by intros [].
  - intros k q. rewrite lookup_delete_Some, (wf_map _ Hwf). split.
    + intros (Hne & e & He & Hk). exists e. split; [|done].
      rewrite lookup_delete_ne; [done|]. naive_solver.
    + intros (e & He & Hk). apply lookup_delete_Some in He as [Hne He]. split; [|eauto].
      intros Hkd. apply Hne. eapply wf_key_inj; eauto. congruence.
  - intros q [e He]. apply lookup_delete_Some in He as [_ He]. apply (wf_brk _ Hwf). eauto.
  - intros q e He. apply lookup_delete_Some in He as [_ He]. by apply (wf_atime _ Hwf q).
  - intros q r e f He Hf. apply lookup_delete_Some in He as [_ He].
    apply lookup_delete_Some in Hf as [_ Hf]. by apply (wf_distinct _ Hwf).
  - apply Hwf.
Qed.

(** *** What each operation does to a well-formed cache *)

Section ops.
Context `{!HeapOps nat, !HeapContract nat}.

Definition touched (st : t) (p : nat) (k : string) (v : list Z) (h : list nat) : t :=
  LRUCache (_size st) h (_map st) (to_u64 (_timeCnt st + 1))
    (<[p := Block k v (_timeCnt st)]> (mem st)) (brk st).

Definition dropped (st : t) (p : nat) (k : string) (h : list nat) : t :=
  LRUCache (_size st) h (delete k (_map st)) (_timeCnt st) (delete p (mem st)) (brk st).

Definition added (st : t) (k : string) (v : list Z) (h : list nat) : t :=
  LRUCache (_size st) h (<[k := brk st]> (_map st)) (to_u64 (_timeCnt st + 1))
    (<[brk st := Block k v (_timeCnt st)]> (mem st)) (S (brk st)).

Lemma get_hit st k p :
  wf st -> _map st !! k = Some p ->
  exists d h, mem st !! p = Some d /\ key d = k /\
    get st k = Ok (Some p, touched st p k (data d) h) /\
    h ≡ₚ _heap st /\ ordered (touched st p k (data d) h).
Proof.
  intros Hwf Hk. pose proof Hk as (d & Hd & Hkd)%(wf_map _ Hwf).
  unfold get, read. rewrite Hk, Hd. simpl.
  rewrite check_live_ok.
  - simpl. eexists d, _. rewrite Hkd. split_and!; try done.
    + apply make_heap_spec, _.
    + apply make_heap_spec, _.
  - intros q Hq. rewrite is_Some_insert by eauto. by apply (wf_live _ Hwf).
Qed.

Lemma get_miss st k : _map st !! k = None -> get st k = Ok (None, st).
Proof. intros Hk. unfold get. by rewrite Hk. Qed.

Lemma put_hit st k v p :
  wf st -> _map st !! k = Some p ->
  exists d, mem st !! p = Some d /\ key d = k /\
    put st k v = Ok (touched st p k v (_heap st)).
Proof.
  intros Hwf Hk. pose proof Hk as (d & Hd & Hkd)%(wf_map _ Hwf).
  exists d. unfold put, read. rewrite Hk, Hd. simpl. by rewrite Hkd.
Qed.

Lemma evict_ok st x h :
  wf st -> ordered st -> _heap st = x :: h ->
  exists d r, mem st !! x = Some d /\ evict st = Ok (dropped st x (key d) r) /\
    x :: r ≡ₚ _heap st /\ ordered (dropped st x (key d) r).
Proof.
  intros Hwf Ho Hh. assert (x ∈ _heap st) as Hx by (rewrite Hh; left).
  pose proof Hx as [d Hd]%(wf_live _ Hwf). pose proof Ho as Ho'. unfold ordered in Ho'. rewrite Hh in Ho'.
  destruct (pop_heap_spec (Compare (mem st)) x h _ Ho') as (r & Hr & Hp & Hord).
  assert (x :: r ≡ₚ _heap st) as Hperm by (by rewrite Hh, Hp).
  exists d, r. split_and!; [done| |done|].
  - unfold evict. rewrite check_live_ok by (intros q; apply (wf_live _ Hwf)).
    cbn [mbind outcome_bind]. rewrite check_heap_ok by done.
    cbn [mbind outcome_bind]. rewrite Hh, Hr, back_snoc, pop_back_snoc.
    cbn [mbind outcome_bind]. unfold read, delete_obj. by rewrite Hd.
  - apply (is_heap_ext (mem st)); [|done].
    intros q Hq. pose proof (wf_nodup _ Hwf) as Hnd. rewrite <- Hperm in Hnd.
    apply NoDup_cons in Hnd as [Hnin _]. unfold at_. simpl.
    by rewrite lookup_delete_ne by (intros ->; done).
Qed.

(** A new object does not change the order of the others. *)
Lemma heap_new st k v : wf st ->
  is_heap (Compare (<[brk st := Block k v (_timeCnt st)]> (mem st))) (_heap st) <-> ordered st.
Proof.
  intros Hwf.
  assert (forall q, q ∈ _heap st -> at_ (<[brk st := Block k v (_timeCnt st)]> (mem st)) q = at_ (mem st) q) as Hat.
  { intros q Hq. unfold at_. rewrite lookup_insert_ne; [done|]. apply (wf_live _ Hwf), (wf_brk _ Hwf) in Hq. lia. }
  split; apply is_heap_ext; [done|]. intros q Hq. symmetry. by apply Hat.
Qed.

Lemma put_new_live st k v : wf st ->
  check_live (<[brk st := Block k v (_timeCnt st)]> (mem st)) (_heap st ++ [brk st]) = Ok tt.
Proof.
  intros Hwf. apply check_live_ok. intros q. rewrite elem_of_app, list_elem_of_singleton, (wf_live _ Hwf).
  rewrite lookup_insert. case_decide; naive_solver.
Qed.

Lemma put_new st k v :
  wf st -> ordered st -> _map st !! k = None ->
  exists h, h ≡ₚ _heap st ++ [brk st] /\ ordered (added st k v h) /\
    put st k v =
      if _size st <? Z.of_nat (length h) then evict (added st k v h)
      else Ok (added st k v h).
Proof.
  intros Hwf Ho Hk. set (m := <[brk st := Block k v (_timeCnt st)]> (mem st)).
  assert (is_heap (Compare m) (_heap st)) as Hm by (by apply heap_new).
  exists (push_heap (Compare m) (_heap st ++ [brk st])). split_and!.
  - by apply push_heap_spec; [apply _|].
  - by apply push_heap_spec; [apply _|].
  - unfold put. rewrite Hk, put_new_live by done. cbn [mbind outcome_bind]. fold m.
    by rewrite check_heap_ok.
Qed.

(** Without heap order a new entry leads to undefined behaviour. *)
Lemma put_new_bad st k v : wf st -> ~ ordered st -> _map st !! k = None -> put st k v = Fault NotAHeap.
Proof.
  intros Hwf Ho Hk. unfold put. rewrite Hk, put_new_live by done. cbn [mbind outcome_bind].
  rewrite check_heap_bad; [done|]. by rewrite heap_new.
Qed.

(** [invalidate] takes out exactly its entry, and repairs the heap order
    whatever it was before. *)
Lemma invalidate_hit st k p :
  wf st -> _map st !! k = Some p ->
  exists d r, mem st !! p = Some d /\ key d = k /\
    invalidate st k = Ok (dropped st p k r) /\ p :: r ≡ₚ _heap st /\
    ordered (dropped st p k r).
Proof.
  intros Hwf Hk. pose proof Hk as (d & Hd & Hkd)%(wf_map _ Hwf).
  set (m := <[p := Block (key d) (data d) 0]> (mem st)).
  destruct (make_heap_spec (Compare m) (_heap st) _) as [Hperm Hheap].
  assert (p ∈ make_heap (Compare m) (_heap st)) as Hp
    by (rewrite Hperm; apply (wf_live _ Hwf); eauto).
  destruct (make_heap (Compare m) (_heap st)) as [|x h] eqn:Eh; [by apply elem_of_nil in Hp|].
  assert (Hatp : at_ m p = 0) by (unfold at_, m; by rewrite lookup_insert_eq).
  assert (x = p) as ->.
  { pose proof (heap_front _ _ _ _ Hheap Hp) as Hc. unfold Compare in Hc.
    apply Z.ltb_ge in Hc. rewrite Hatp in Hc.
    destruct (decide (x = p)) as [|Hne]; [done|]. exfalso.
    assert (x ∈ _heap st) as [e He]%(wf_live _ Hwf) by (rewrite <- Hperm; left).
    unfold at_, m in Hc. rewrite lookup_insert_ne, He in Hc by done.
    pose proof (wf_atime _ Hwf _ _ He). lia. }
  destruct (pop_heap_spec (Compare m) p h _ Hheap) as (r & Hr & Hrp & Hord).
  assert (p :: r ≡ₚ _heap st) as Hpr by (by rewrite <- Hperm, Hrp).
  exists d, r. split_and!; [done|done| |done|].
  - unfold invalidate, read. rewrite Hk, Hd. cbn [mbind outcome_bind]. fold m.
    rewrite check_live_ok.
    + cbn [mbind outcome_bind]. rewrite Eh, check_heap_ok by done. cbn [mbind outcome_bind].
      rewrite Hr, pop_back_snoc. cbn [mbind outcome_bind].
      unfold delete_obj, m. rewrite lookup_insert_eq. cbn [mbind outcome_bind].
      by rewrite delete_insert_eq.
    + intros q Hq. unfold m. rewrite is_Some_insert by eauto. by apply (wf_live _ Hwf).
  - apply (is_heap_ext m); [|done].
    intros q Hq. pose proof (wf_nodup _ Hwf) as Hnd. rewrite <- Hpr in Hnd.
    apply NoDup_cons in Hnd as [Hnin _]. unfold at_, m; simpl.
    by rewrite lookup_insert_ne, lookup_delete_ne by (intros ->; done).
Qed.

Lemma invalidate_miss st k : _map st !! k = None -> invalidate st k = Ok st.
Proof. intros Hk. unfold invalidate. by rewrite Hk. Qed.

End ops.

(** *** The abstraction: entries by decreasing access time *)

Definition entry (m : gmap nat BlockCacheData) (p : nat) : string * list Z :=
  match m !! p with Some d => (key d, data d) | None => (EmptyString, []) end.

Definition newer (m : gmap nat BlockCacheData) (p q : nat) : Prop := at_ m q < at_ m p.

Definition abs (st : t) (l : LRUSpec.entries) : Prop :=
  exists ps, ps ≡ₚ _heap st /\ StronglySorted (newer (mem st)) ps /\ l = entry (mem st) <$> ps.

Lemma newer_sorted_ext m m' ps :
  (forall p, p ∈ ps -> at_ m p = at_ m' p) ->
  StronglySorted (newer m) ps -> StronglySorted (newer m') ps.
Proof.
  intros Hat Hs. induction Hs as [|p ps Hs IH Hp]; constructor.
  - apply IH. intros q Hq. apply Hat. by right.
  - apply Forall_forall. intros q Hq. rewrite Forall_forall in Hp.
    unfold newer. rewrite <- !Hat by (by left || by right). by apply Hp.
Qed.

Lemma StronglySorted_filter_out m ps p :
  StronglySorted (newer m) ps -> StronglySorted (newer m) (filter (fun q => q <> p) ps).
Proof.
  induction 1 as [|q ps Hs IH Hp]; [constructor|].
  rewrite filter_cons. case_decide; [|done]. constructor; [done|].
  apply Forall_forall. intros r Hr. apply list_elem_of_filter in Hr as [_ Hr].
  rewrite Forall_forall in Hp. by apply Hp.
Qed.

Lemma filter_out_perm (ps h : list nat) p :
  NoDup ps -> p :: h ≡ₚ ps -> filter (fun q => q <> p) ps ≡ₚ h.
Proof.
  intros Hnd Hp. rewrite <- Hp in Hnd. apply NoDup_cons in Hnd as [Hnin _].
  rewrite <- Hp, filter_cons, decide_False by tauto.
  rewrite filter_all; [done|]. intros q Hq. by intros ->.
Qed.

(** Removing an entry by its key is removing its pointer. *)
Lemma remove_entries st ps p d :
  wf st -> ps ⊆+ _heap st -> mem st !! p = Some d ->
  LRUSpec.remove (key d) (entry (mem st) <$> ps) =
  entry (mem st) <$> filter (fun q => q <> p) ps.
Proof.
  intros Hwf Hsub Hp. induction ps as [|q ps IH]; [done|].
  assert (ps ⊆+ _heap st) as Hsub' by (etrans; [|exact Hsub]; by apply submseteq_cons).
  assert (q ∈ _heap st) as [e He]%(wf_live _ Hwf)
    by (eapply elem_of_submseteq; [|exact Hsub]; left).
  unfold LRUSpec.remove in *. rewrite fmap_cons, !filter_cons.
  rewrite IH by done.
  assert (entry (mem st) q = (key e, data e)) as Hen by (unfold entry; by rewrite He).
  rewrite Hen. simpl. destruct (decide (q = p)) as [->|Hne].
  - rewrite !decide_False; [done|tauto|]. replace e with d by congruence. tauto.
  - rewrite !decide_True; [by rewrite fmap_cons, Hen|done|].
    intros Hk. apply Hne. by eapply wf_key_inj.
Qed.

Lemma remove_none st ps k :
  wf st -> ps ⊆+ _heap st -> _map st !! k = None ->
  LRUSpec.remove k (entry (mem st) <$> ps) = entry (mem st) <$> ps /\
  LRUSpec.lookup k (entry (mem st) <$> ps) = None.
Proof.
  intros Hwf Hsub Hk.
  assert (forall q, q ∈ ps -> (entry (mem st) q).1 <> k) as Hno.
  { intros q Hq. assert (q ∈ _heap st) as [e He]%(wf_live _ Hwf)
      by (by eapply elem_of_submseteq).
    unfold entry. rewrite He. simpl. intros <-.
    assert (_map st !! key e = Some q) by (apply (wf_map _ Hwf); eauto). congruence. }
  clear Hsub. unfold LRUSpec.remove, LRUSpec.lookup.
  induction ps as [|q ps IH]; [done|]. rewrite fmap_cons, !filter_cons.
  rewrite decide_True by (apply Hno; left). rewrite decide_False by (apply Hno; left).
  destruct IH as [IH1 IH2]; [intros r Hr; apply Hno; by right|]. by rewrite IH1.
Qed.

Lemma lookup_entry st ps k p d :
  wf st -> ps ⊆+ _heap st -> p ∈ ps -> mem st !! p = Some d -> key d = k ->
  LRUSpec.lookup k (entry (mem st) <$> ps) = Some (data d).
Proof.
  intros Hwf Hsub Hin Hp Hk. unfold LRUSpec.lookup. induction ps as [|q ps IH].
  { by apply elem_of_nil in Hin. }
  assert (ps ⊆+ _heap st) as Hsub' by (etrans; [|exact Hsub]; by apply submseteq_cons).
  assert (q ∈ _heap st) as [e He]%(wf_live _ Hwf)
    by (eapply elem_of_submseteq; [|exact Hsub]; left).
  rewrite fmap_cons, filter_cons.
  assert (entry (mem st) q = (key e, data e)) as Hen by (unfold entry; by rewrite He).
  rewrite Hen. simpl. case_decide as Hke.
  - simpl. assert (q = p) as -> by (eapply wf_key_inj; eauto; congruence). congruence.
  - apply IH; [done|]. apply elem_of_cons in Hin as [<-|Hin]; [|done]. congruence.
Qed.

(** The specification's lookup is the map's. *)
Lemma abs_lookup st l k :
  wf st -> abs st l ->
  LRUSpec.lookup k l =
  match _map st !! k with Some p => data <$> mem st !! p | None => None end.
Proof.
  intros Hwf (ps & Hps & _ & ->).
  assert (ps ⊆+ _heap st) as Hsub by (by rewrite Hps).
  destruct (_map st !! k) as [p|] eqn:Hk; [|by apply remove_none].
  apply (wf_map _ Hwf) in Hk as (d & Hd & Hkd). rewrite Hd. simpl.
  eapply lookup_entry; eauto. rewrite Hps. apply (wf_live _ Hwf). eauto.
Qed.

Lemma abs_dropped st l p d h :
  wf st -> abs st l -> mem st !! p = Some d -> p :: h ≡ₚ _heap st ->
  abs (dropped st p (key d) h) (LRUSpec.remove (key d) l).
Proof.
  intros Hwf (ps & Hps & Hs & ->) Hp Hh. exists (filter (fun q => q <> p) ps).
  assert (Hne : forall q, q ∈ filter (fun q => q <> p) ps -> delete p (mem st) !! q = mem st !! q).
  { intros q [Hq _]%list_elem_of_filter. by apply lookup_delete_ne. }
  split_and!; simpl.
  - apply filter_out_perm; [rewrite Hps; apply Hwf|]. by rewrite Hps.
  - apply (newer_sorted_ext (mem st)); [|by apply StronglySorted_filter_out].
    intros q Hq. unfold at_. by rewrite Hne.
  - rewrite (remove_entries st ps p d) by (done || by rewrite Hps).
    apply list_fmap_ext. intros i q Hq. unfold entry. rewrite Hne; [done|].
    by eapply list_elem_of_lookup_2.
Qed.

Lemma abs_touched st l p d v h :
  wf st -> abs st l -> mem st !! p = Some d -> _timeCnt st + 1 < 2 ^ 64 -> h ≡ₚ _heap st ->
  abs (touched st p (key d) v h) ((key d, v) :: LRUSpec.remove (key d) l).
Proof.
  intros Hwf (ps & Hps & Hs & ->) Hp Ht Hh. exists (p :: filter (fun q => q <> p) ps).
  assert (p ∈ ps) as Hpp by (rewrite Hps; apply (wf_live _ Hwf); eauto).
  apply elem_of_Permutation in Hpp as [ps' Hps'].
  set (m := <[p := Block (key d) v (_timeCnt st)]> (mem st)).
  assert (Hne : forall q, q ∈ filter (fun q => q <> p) ps -> m !! q = mem st !! q).
  { intros q [Hq _]%list_elem_of_filter. unfold m. by rewrite lookup_insert_ne. }
  split_and!; simpl.
  - rewrite (filter_out_perm ps ps' p); [by rewrite <- Hps', Hps, Hh| |done].
    rewrite Hps. apply Hwf.
  - fold m. constructor.
    + apply (newer_sorted_ext (mem st)); [|by apply StronglySorted_filter_out].
      intros q Hq. unfold at_. by rewrite Hne.
    + apply Forall_forall. intros q Hq. unfold newer, at_. rewrite (Hne q Hq).
      unfold m. rewrite lookup_insert_eq. simpl.
      apply list_elem_of_filter in Hq as [_ Hq]. rewrite Hps in Hq.
      apply (wf_live _ Hwf) in Hq as [e He]. rewrite He. apply (wf_atime _ Hwf _ _ He).
  - fold m. f_equal; [unfold entry, m; by rewrite lookup_insert_eq|].
    rewrite (remove_entries st ps p d) by (done || by rewrite Hps).
    apply list_fmap_ext. intros i q Hq. unfold entry. rewrite Hne; [done|].
    by eapply list_elem_of_lookup_2.
Qed.

Lemma abs_added st l k v h :
  wf st -> abs st l -> h ≡ₚ _heap st ++ [brk st] ->
  abs (added st k v h) ((k, v) :: l).
Proof.
  intros Hwf (ps & Hps & Hs & ->) Hh. exists (brk st :: ps).
  set (m := <[brk st := Block k v (_timeCnt st)]> (mem st)).
  assert (Hlive : forall q, q ∈ ps -> is_Some (mem st !! q))
    by (intros q Hq; apply (wf_live _ Hwf); by rewrite <- Hps).
  assert (Hne : forall q, q ∈ ps -> m !! q = mem st !! q).
  { intros q Hq. unfold m. rewrite lookup_insert_ne; [done|].
    pose proof (wf_brk _ Hwf _ (Hlive q Hq)). lia. }
  split_and!; simpl.
  - rewrite Hh, Hps. apply Permutation_cons_append.
  - fold m. constructor.
    + apply (newer_sorted_ext (mem st)); [|done]. intros q Hq. unfold at_. by rewrite Hne.
    + apply Forall_forall. intros q Hq. unfold newer, at_. rewrite (Hne q Hq).
      unfold m. rewrite lookup_insert_eq. simpl. destruct (Hlive q Hq) as [e He].
      rewrite He. apply (wf_atime _ Hwf _ _ He).
  - fold m. f_equal; [unfold entry, m; by rewrite lookup_insert_eq|].
    apply list_fmap_ext. intros i q Hq. unfold entry. rewrite Hne; [done|].
    by eapply list_elem_of_lookup_2.
Qed.

(** The front of an ordered vector is the least recently used entry. *)
Lemma abs_remove_front st l x h d :
  wf st -> abs st l -> ordered st -> _heap st = x :: h -> mem st !! x = Some d ->
  LRUSpec.remove (key d) l = take (length h) l.
Proof.
  intros Hwf (ps & Hps & Hs & ->) Ho Hh Hd.
  rewrite (remove_entries st ps x d) by (done || by rewrite Hps).
  assert (length ps = S (length h)) as Hlen by (by rewrite Hps, Hh).
  destruct ps as [|y ps _] using rev_ind; [done|].
  rewrite length_app in Hlen. simpl in Hlen.
  assert (y = x) as ->.
  { assert (x ∈ ps ++ [y]) as Hx by (rewrite Hps, Hh; left).
    apply elem_of_app in Hx as [Hx| ->%list_elem_of_singleton]; [|done]. exfalso.
    assert (newer (mem st) x y) as Hn.
    { eapply StronglySorted_app_1_elem_of; [exact Hs|exact Hx|left]. }
    unfold ordered in Ho. rewrite Hh in Ho.
    assert (y ∈ x :: h) as Hy by (rewrite <- Hh, <- Hps; apply elem_of_app; right; left).
    pose proof (heap_front _ _ _ _ Ho Hy) as Hc. unfold Compare, newer in *.
    apply Z.ltb_ge in Hc. lia. }
  assert (NoDup (ps ++ [x])) as Hnd by (rewrite Hps; apply Hwf).
  apply NoDup_app in Hnd as (_ & Hdisj & _).
  rewrite filter_app, fmap_app, filter_cons, decide_False, filter_nil, app_nil_r by tauto.
  rewrite filter_all by (intros q Hq ->; apply (Hdisj x Hq); left).
  rewrite fmap_app. replace (length h) with (length (entry (mem st) <$> ps))
    by (rewrite length_fmap; lia).
  by rewrite take_app_length.
Qed.

(** *** One call *)

Section steps.
Context `{!HeapOps nat, !HeapContract nat}.

(** The facts every call re-establishes. *)
Record good (st : t) : Prop := {
  good_wf : wf st;
  good_bounded : bounded st;
  good_size : 0 <= _size st
}.

Lemma good_touched st p d v h :
  good st -> mem st !! p = Some d -> _timeCnt st + 1 < 2 ^ 64 -> h ≡ₚ _heap st ->
  good (touched st p (key d) v h).
Proof.
  intros [Hwf Hb Hs] Hp Ht Hh. split; [by apply wf_touch| |done].
  unfold bounded in *; simpl. by rewrite Hh.
Qed.

Lemma good_dropped st p d h :
  good st -> mem st !! p = Some d -> p :: h ≡ₚ _heap st -> good (dropped st p (key d) h).
Proof.
  intros [Hwf Hb Hs] Hp Hh. split; [by apply wf_drop| |done].
  unfold bounded in *; simpl. rewrite <- Hh in Hb. simpl in Hb. lia.
Qed.

(** Adding an entry, with the eviction it may cause.  The size of the cache
    may be zero: the new entry is then the one that goes. *)
Lemma put_new_good st k v :
  good st -> ordered st -> _map st !! k = None -> _timeCnt st + 1 < 2 ^ 64 ->
  exists st', put st k v = Ok st' /\ good st' /\ _size st' = _size st /\
    _timeCnt st' = _timeCnt st + 1 /\ ordered st' /\
    (forall l, abs st l -> abs st' (take (Z.to_nat (_size st)) ((k, v) :: l))).
Proof.
  intros [Hwf Hb Hs] Ho Hk Ht. pose proof (wf_time _ Hwf).
  destruct (put_new st k v Hwf Ho Hk) as (h & Hh & Hord & ->).
  pose proof (wf_new st k v h Hwf Hk Ht Hh) as Hwf'.
  assert (to_u64 (_timeCnt st + 1) = _timeCnt st + 1) as Htc
    by (apply to_u64_id; unfold is_u64; lia).
  assert (length h = S (length (_heap st))) as Hlen
    by (rewrite Hh, length_app; simpl; lia).
  unfold bounded in Hb. destruct (Z.ltb_spec (_size st) (Z.of_nat (length h))) as [Hlt|Hge].
  - destruct h as [|x h]; [done|]. simpl in Hlen, Hlt.
    destruct (evict_ok (added st k v (x :: h)) x h Hwf' Hord eq_refl)
      as (d & r & Hd & He & Hr & Hor).
    assert (length r = length h) as Hlr
      by (apply Permutation_length in Hr; simpl in Hr; lia).
    exists (dropped (added st k v (x :: h)) x (key d) r).
    split_and!; [done| |done|by simpl|done|].
    + split; [by apply wf_drop| |done]. unfold bounded; simpl. lia.
    + intros l Hl. pose proof (abs_added st l k v (x :: h) Hwf Hl Hh) as Ha.
      replace (Z.to_nat (_size st)) with (length h) by lia.
      rewrite <- (abs_remove_front (added st k v (x :: h)) _ x h d) by done.
      by apply abs_dropped.
  - exists (added st k v h). split_and!; [done| |done|done|done|].
    + split; [done| |done]. unfold bounded; simpl. lia.
    + intros l Hl. pose proof (abs_added st l k v h Hwf Hl Hh) as (ps & Hps & Hsorted & Heq).
      rewrite take_ge; [by exists ps|].
      rewrite Heq, length_fmap, Hps. simpl. lia.
Qed.

(** A new entry for a vector that is not a heap. *)
Definition misused (st : t) (o : op) : Prop :=
  exists k v, o = Put k v /\ _map st !! k = None /\ ~ ordered st.

Lemma abs_hit st l k : wf st -> abs st l -> LRUSpec.hit k l = bool_decide (_map st !! k <> None).
Proof.
  intros Hwf Hl. unfold LRUSpec.hit. rewrite (abs_lookup st l k Hwf Hl).
  apply bool_decide_ext. destruct (_map st !! k) as [p|] eqn:Hk; [|done].
  apply (wf_map _ Hwf) in Hk as (d & -> & _). done.
Qed.

Lemma step_misused st o :
  wf st -> misused st o -> step st o = Fault NotAHeap /\
  forall l clean, abs st l -> (clean = true -> ordered st) -> LRUSpec.allowed clean l o = false.
Proof.
  intros Hwf (k & v & -> & Hk & Ho). split; [simpl; by rewrite put_new_bad|].
  intros l clean Hl Hc. simpl. rewrite (abs_hit st l k Hwf Hl), Hk. simpl. rewrite orb_false_r.
  destruct clean; [by destruct Ho; apply Hc|done].
Qed.

Lemma step_good st o :
  good st -> _timeCnt st + 1 < 2 ^ 64 -> ~ misused st o ->
  exists r st', step st o = Ok (r, st') /\ good st' /\ _size st' = _size st /\
    _timeCnt st <= _timeCnt st' <= _timeCnt st + 1 /\
    forall l clean, abs st l -> (clean = true -> ordered st) ->
      LRUSpec.allowed clean l o = true ->
      r = (LRUSpec.step (Z.to_nat (_size st)) l o).1 /\
      abs st' (LRUSpec.step (Z.to_nat (_size st)) l o).2 /\
      (LRUSpec.next_clean clean l o = true -> ordered st').
Proof.
  intros Hg Ht Hmis. pose proof (good_wf _ Hg) as Hwf. pose proof (wf_time _ Hwf).
  assert (to_u64 (_timeCnt st + 1) = _timeCnt st + 1) as Htc
    by (apply to_u64_id; unfold is_u64; lia).
  pose proof (fun l k => abs_hit st l k Hwf) as Hhit.
  destruct o as [k|k v|k]; simpl; destruct (_map st !! k) as [p|] eqn:Hk.
  - destruct (get_hit st k p Hwf Hk) as (d & h & Hd & Hkd & -> & Hh & Ho). subst k.
    simpl. unfold read. simpl. rewrite lookup_insert_eq. simpl.
    eexists _, _. split_and!; [done|by apply good_touched|done|simpl; lia|simpl; lia|].
    intros l clean Hl _ _. unfold LRUSpec.get.
    rewrite (abs_lookup st l _ Hwf Hl), Hk, Hd. simpl.
    split_and!; [done|by apply abs_touched|done].
  - rewrite (get_miss st k Hk). simpl.
    eexists _, _. split_and!; [done|done|done|lia|lia|]. intros l clean Hl Ho _.
    unfold LRUSpec.get. rewrite (abs_lookup st l k Hwf Hl), (Hhit l k Hl), Hk. simpl.
    split_and!; [done|done|]. rewrite orb_false_r. done.
  - destruct (put_hit st k v p Hwf Hk) as (d & Hd & Hkd & ->). subst k. simpl.
    eexists _, _. split_and!; [done|by apply good_touched|done|simpl; lia|simpl; lia|].
    intros l clean Hl _ _. unfold LRUSpec.put.
    rewrite (abs_lookup st l _ Hwf Hl), (Hhit l _ Hl), Hk, Hd. simpl.
    split_and!; [done|by apply abs_touched|]. by rewrite andb_false_r.
  - assert (ordered st) as Hord by (apply dec_stable; intros Ho; apply Hmis; by exists k, v).
    destruct (put_new_good st k v Hg Hord Hk Ht) as (st' & -> & Hg' & Hsz & Htm & Ho' & Hsim). simpl.
    eexists _, _. split_and!; [done|done|done|lia|lia|]. intros l clean Hl _ _. pose proof (Hsim l Hl) as Ha.
    unfold LRUSpec.put. by rewrite (abs_lookup st l k Hwf Hl), Hk.
  - destruct (invalidate_hit st k p Hwf Hk) as (d & r & Hd & Hkd & -> & Hr & Ho). subst k.
    simpl. eexists _, _. split_and!; [done|by apply good_dropped|done|simpl; lia|simpl; lia|].
    intros l clean Hl _ _. split_and!; [done|by apply abs_dropped|done].
  - rewrite (invalidate_miss st k Hk). simpl.
    eexists _, _. split_and!; [done|done|done|lia|lia|]. intros l clean Hl Ho _.
    rewrite (Hhit l k Hl), Hk. simpl. rewrite orb_false_r.
    destruct Hl as (ps & Hps & Hsorted & ->).
    destruct (remove_none st ps k) as [-> _]; [done|by rewrite Hps|done|].
    split_and!; [done|by exists ps|done].
Qed.

#[global] Instance ordered_dec st : Decision (ordered st) := is_heap_dec _ _.

#[global] Instance misused_dec st o : Decision (misused st o).
Proof.
  destruct o as [k|k v|k]; [right; by intros (? & ? & ? & _)| |right; by intros (? & ? & ? & _)].
  destruct (decide (_map st !! k = None /\ ~ ordered st)) as [Hyes|Hno];
    [left; exists k, v; tauto|right; intros (k' & v' & [= <- <-] & Hm); tauto].
Defined.

(** A run is safe and refines the abstract cache, or it misuses the heap
    algorithms, and then it breaks the discipline. *)
Lemma run_good st os :
  good st -> _timeCnt st + Z.of_nat (length os) < 2 ^ 64 ->
  (exists rs st', run st os = Ok (rs, st') /\ good st' /\ _size st' = _size st /\
    forall l clean rs' l', abs st l -> (clean = true -> ordered st) ->
      LRUSpec.run (Z.to_nat (_size st)) clean l os = Some (rs', l') ->
      rs = rs' /\ abs st' l') \/
  (run st os = Fault NotAHeap /\
    forall l clean, abs st l -> (clean = true -> ordered st) ->
      LRUSpec.run (Z.to_nat (_size st)) clean l os = None).
Proof.
  revert st. induction os as [|o os IH]; intros st Hg Ht.
  { left. exists [], st. split_and!; try done. by intros l clean rs' l' Hl _ [= <- <-]. }
  simpl length in Ht. cbn [run LRUSpec.run].
  destruct (decide (misused st o)) as [Hm|Hm].
  { right. destruct (step_misused st o (good_wf _ Hg) Hm) as [-> Hno]. split; [done|].
    intros l clean Hl Hc. by rewrite (Hno l clean Hl Hc). }
  destruct (step_good st o Hg ltac:(lia) Hm) as (r & st1 & Hstep & Hg1 & Hsz & Htm & Hsim).
  rewrite Hstep. cbn [mbind outcome_bind fst snd].
  destruct (IH st1 Hg1 ltac:(lia)) as [(rs & st2 & Hrun & Hg2 & Hsz2 & Hsim2)|[Hrun Hno]]; rewrite Hrun;
    cbn [mbind outcome_bind fst snd].
  - left. exists (r :: rs), st2. split_and!; [done|done|congruence|]. intros l clean rs' l' Hl Ho Hspec.
    destruct (LRUSpec.allowed clean l o) eqn:Hal; [|done].
    destruct (Hsim l clean Hl Ho Hal) as (-> & Habs & Hclean).
    apply bind_Some in Hspec as ([rs2 l2] & Hr & [= <- <-]). rewrite <- Hsz in Hr at 1.
    destruct (Hsim2 _ _ _ _ Habs Hclean Hr) as [-> Habs2]. done.
  - right. split; [done|]. intros l clean Hl Hc. destruct (LRUSpec.allowed clean l o) eqn:Hal; [|done].
    destruct (Hsim l clean Hl Hc Hal) as (_ & Habs & Hclean). specialize (Hno _ _ Habs Hclean). rewrite Hsz in Hno. by rewrite Hno.
Qed.

Lemma ctor_good size :
  good (ctor size) /\ abs (ctor size) [] /\ ordered (ctor size).
Proof.
  pose proof (to_u64_range size) as Hs. unfold is_u64 in Hs. split_and!.
  - split; [|unfold bounded; simpl; lia|simpl; lia]. split; simpl; try done.
    + apply NoDup_nil_2.
    + intros p. rewrite elem_of_nil, lookup_empty. by split; [|intros []].
    + intros k p. rewrite lookup_empty. split; [done|]. intros (d & Hd & _).
      by rewrite lookup_empty in Hd.
    + intros p. rewrite lookup_empty. by intros [].
  - exists []. split_and!; [done|constructor|done].
  - intros i Hi. simpl in Hi. lia.
Qed.

End steps.

End LRUFacts.

(** ** Properties *)

Module LRUProps.
Import LRUCache LRUFacts.

Section props.
Context `{!HeapOps nat, !HeapContract nat}.

(** C31. Refinement: every sequence of calls that keeps the discipline (no new
    entry is added between an overwriting [put] and the next hit of [get] or
    [invalidate]) returns exactly what the abstract least-recently-used cache
    of the same capacity returns, and ends in a state that represents it. *)
Theorem lru_refines (size : Z) (os : list op) rs l :
  1 + Z.of_nat (length os) < 2 ^ 64 ->
  LRUSpec.run (Z.to_nat (to_u64 size)) true [] os = Some (rs, l) ->
  exists st, run (ctor size) os = Ok (rs, st) /\ abs st l.
Proof.
  intros Hlen Hspec. destruct (ctor_good size) as (Hg & Ha & Ho).
  destruct (run_good (ctor size) os Hg Hlen) as [(rs' & st & Hrun & _ & _ & Hsim)|[_ Hno]].
  - destruct (Hsim [] true rs l Ha (fun _ => Ho) Hspec) as [-> Habs]. eauto.
  - pose proof (Hno [] true Ha (fun _ => Ho)) as Hn. simpl in Hn. congruence.
Qed.

(** C32. Safety of every sequence of calls: no pointer to a deleted object is
    used, no empty vector is popped, the vector, the map and the live objects
    keep describing the same entries, and there are never more entries than
    the size given to the constructor.  The one way to leave the defined part
    of the language is to call [push_heap] on a vector that is not a heap, and
    this can only happen to sequences that break the discipline. *)
Theorem lru_safe (size : Z) (os : list op) :
  1 + Z.of_nat (length os) < 2 ^ 64 ->
  (exists rs st, run (ctor size) os = Ok (rs, st) /\ wf st /\
     Z.of_nat (length (_heap st)) <= to_u64 size) \/
  (run (ctor size) os = Fault NotAHeap /\
     LRUSpec.run (Z.to_nat (to_u64 size)) true [] os = None).
Proof.
  intros Hlen. destruct (ctor_good size) as (Hg & Ha & Ho).
  destruct (run_good (ctor size) os Hg Hlen) as [(rs & st & Hrun & [Hwf Hb _] & Hsz & _)|[Hrun Hno]]; [left|right].
  - exists rs, st. split_and!; [done|done|]. unfold bounded in Hb. by rewrite Hsz in Hb.
  - split; [done|]. by apply (Hno [] true).
Qed.

(** Destroying the vector's elements one by one empties the store. *)
Lemma dtor_loop_ok h m :
  NoDup h -> (forall p, p ∈ h <-> is_Some (m !! p)) ->
  dtor_loop (length h) h m = Ok ∅.
Proof.
  revert m. induction h as [|x h IH] using rev_ind; intros m Hnd Hlive; simpl.
  - f_equal. apply map_eq. intros p. rewrite lookup_empty.
    apply eq_None_not_Some. rewrite <- Hlive. apply not_elem_of_nil.
  - rewrite length_app, Nat.add_1_r. cbn [dtor_loop].
    rewrite back_snoc, pop_back_snoc. cbn [mbind outcome_bind].
    apply NoDup_app in Hnd as (Hnd & Hdisj & _).
    assert (is_Some (m !! x)) as [d Hd] by (apply Hlive, elem_of_app; right; left).
    unfold delete_obj. rewrite Hd. cbn [mbind outcome_bind]. apply IH; [done|].
    intros p. rewrite lookup_delete. case_decide as Hp.
    + subst. split; [intros Hx; destruct (Hdisj _ Hx); left|by intros []].
    + rewrite <- Hlive, elem_of_app, list_elem_of_singleton. naive_solver.
Qed.

(** C33. Nothing is leaked and nothing is deleted twice: every sequence of
    calls that keeps the discipline returns, and after every sequence of calls
    that returns, the destructor deletes every live object exactly once. *)
Theorem lru_no_leak (size : Z) (os : list op) :
  1 + Z.of_nat (length os) < 2 ^ 64 ->
  (is_Some (LRUSpec.run (Z.to_nat (to_u64 size)) true [] os) -> exists r, run (ctor size) os = Ok r) /\
  (forall rs st, run (ctor size) os = Ok (rs, st) -> dtor st = Ok ∅).
Proof.
  intros Hlen. destruct (ctor_good size) as (Hg & Ha & Ho).
  destruct (run_good (ctor size) os Hg Hlen) as [(rs & st & Hrun & [Hwf _ _] & _)|[Hrun Hno]]; rewrite Hrun.
  - split; [eauto|]. intros rs' st' [= <- <-]. apply dtor_loop_ok; apply Hwf.
  - split; [|done]. intros [r Hr]. specialize (Hno [] true Ha (fun _ => Ho)). simpl in Hno. congruence.
Qed.

(** When the vector is heap ordered and full, adding a new entry evicts
    exactly the entry with the smallest access time; all other entries stay
    reachable under their keys. *)
Theorem put_evicts_oldest (st : t) (k : string) (v : list Z) :
  wf st -> ordered st -> _map st !! k = None -> _timeCnt st + 1 < 2 ^ 64 ->
  0 < _size st -> _size st = Z.of_nat (length (_heap st)) ->
  exists st' p d, put st k v = Ok st' /\ mem st !! p = Some d /\
    (forall q e, mem st !! q = Some e -> atime d <= atime e) /\
    _map st' = delete (key d) (<[k := brk st]> (_map st)) /\
    mem st' = delete p (<[brk st := Block k v (_timeCnt st)]> (mem st)).
Proof.
  intros Hwf Ho Hk Ht Hpos Hfull.
  destruct (put_new st k v Hwf Ho Hk) as (h & Hh & Hord & ->).
  pose proof (wf_new st k v h Hwf Hk Ht Hh) as Hwf'.
  assert (length h = S (length (_heap st))) as Hlen by (rewrite Hh, length_app; simpl; lia).
  rewrite (proj2 (Z.ltb_lt _ _)) by lia. destruct h as [|x h]; [done|].
  destruct (evict_ok (added st k v (x :: h)) x h Hwf' Hord eq_refl) as (d & r & Hd & He & _).
  assert (Hat : forall q e, mem st !! q = Some e -> at_ (mem (added st k v (x :: h))) q = atime e /\
            at_ (mem (added st k v (x :: h))) x <= atime e /\ q <> brk st).
  { intros q e Hq.
    assert (q <> brk st) as Hqb by (pose proof (wf_brk _ Hwf q ltac:(eauto)); lia).
    assert (at_ (mem (added st k v (x :: h))) q = atime e) as Hatq
      by (unfold at_; simpl; by rewrite lookup_insert_ne, Hq).
    split_and!; [done| |done]. rewrite <- Hatq.
    assert (q ∈ x :: h) as Hin
      by (rewrite Hh; apply elem_of_app; left; apply (wf_live _ Hwf); eauto).
    pose proof (heap_front _ _ _ _ Hord Hin) as Hc. unfold Compare in Hc. by apply Z.ltb_ge. }
  assert (x <> brk st) as Hx.
  { intros ->. destruct (_heap st) as [|y h'] eqn:Ey; [simpl in Hfull; lia|].
    assert (y ∈ _heap st) as [e He']%(wf_live _ Hwf) by (rewrite Ey; left).
    destruct (Hat y e He') as (_ & Hle & _). unfold at_ in Hle. simpl in Hle.
    rewrite lookup_insert_eq in Hle. simpl in Hle. pose proof (wf_atime _ Hwf _ _ He'). lia. }
  simpl in Hd. rewrite lookup_insert_ne in Hd by done.
  eexists _, x, d. split_and!; [exact He|done| |done|done].
  intros q e Hq. destruct (Hat x d Hd) as (Hax & _). destruct (Hat q e Hq) as (_ & Hle & _). lia.
Qed.

(** In an ordered cache of positive size, [put] followed by [get] of the
    same key returns the data that was put. *)
Theorem put_get (st : t) (k : string) (v : list Z) :
  good st -> ordered st -> 0 < _size st -> _timeCnt st + 2 < 2 ^ 64 ->
  (exists l, abs st l) ->
  exists st' st'', put st k v = Ok st' /\ step st' (Get k) = Ok (Some v, st'').
Proof.
  intros Hg Ho Hs Ht [l Hl].
  destruct (step_good st (Put k v) Hg ltac:(lia) ltac:(by intros (? & ? & _ & _ & ?))) as (r1 & st1 & H1 & Hg1 & Hsz & Htm & Hsim1).
  destruct (Hsim1 l true Hl (fun _ => Ho) eq_refl) as (_ & Ha1 & _).
  destruct (step_good st1 (Get k) Hg1 ltac:(lia) ltac:(by intros (? & ? & ? & _))) as (r2 & st2 & H2 & _ & _ & _ & Hsim2).
  destruct (Hsim2 _ false Ha1 ltac:(done) eq_refl) as (Hr & _ & _).
  simpl in H1. inv_ok. exists st1, st2. split; [done|]. rewrite H2. do 2 f_equal.
  simpl. unfold LRUSpec.get.
  enough (LRUSpec.lookup k (LRUSpec.put (Z.to_nat (_size st)) k v l) = Some v) as -> by done.
  unfold LRUSpec.put. destruct (LRUSpec.lookup k l).
  - unfold LRUSpec.lookup. by rewrite filter_cons, decide_True.
  - destruct (Z.to_nat (_size st)) eqn:E; [lia|]. cbn [take].
    unfold LRUSpec.lookup. by rewrite filter_cons, decide_True.
Qed.

(** [invalidate] on any well-formed cache, even one whose heap order was
    broken, removes exactly the given key, keeps every other entry, and
    leaves the vector heap ordered when the key was present. *)
Theorem invalidate_exact (st : t) (k : string) :
  wf st ->
  exists st', invalidate st k = Ok st' /\ wf st' /\ _map st' = delete k (_map st) /\
    (forall q d, mem st !! q = Some d -> key d <> k -> mem st' !! q = Some d) /\
    (is_Some (_map st !! k) -> ordered st').
Proof.
  intros Hwf. destruct (_map st !! k) as [p|] eqn:Hk.
  - destruct (invalidate_hit st k p Hwf Hk) as (d & r & Hd & <- & -> & Hr & Ho).
    exists (dropped st p (key d) r). split_and!; [done|by apply wf_drop|done| |done].
    intros q e Hq Hne. simpl. rewrite lookup_delete_ne; [done|]. naive_solver.
  - rewrite (invalidate_miss st k Hk). exists st. split_and!; [done|done| |done|by intros []].
    by rewrite delete_id.
Qed.

End props.

(** The discipline is needed: with room for two entries, overwriting the
    older one leaves a vector that is not a heap, and adding a third entry
    then calls [push_heap] on it. *)
Theorem overwrite_then_add_undefined :
  run (ctor 2) [Put "a" [1]; Put "b" [2]; Put "a" [3]; Put "c" [4]] = Fault NotAHeap.
Proof. vm_compute. reflexivity. Qed.

(** What libstdc++ does there, if it is let: of the entries 0 (time 3), 1 (time
    2) and 2 (time 4) it picks entry 0 for eviction, although 1 is older. *)
Example overwrite_then_add_evicts_newer :
  let times := [3; 2; 4] in
  let comp a b := (times !!! b <? times !!! a)%Z in
  last (pop_heap comp (push_heap comp [0; 1; 2]%nat)) = Some 0%nat.
Proof. vm_compute. reflexivity. Qed.

(** *** Witnesses *)

Definition sample_ops : list op :=
  [Put "a" [1]; Put "b" [2]; Get "a"; Put "c" [3]; Get "b"; Invalidate "a"; Get "c"].

Lemma lru_refines_witness :
  exists st, run (ctor 2) sample_ops =
    Ok ([None; None; Some [1]; None; None; None; Some [3]], st) /\ abs st [("c", [3])].
Proof.
  apply (lru_refines 2 sample_ops); [simpl; lia|vm_compute; reflexivity].
Defined.

Lemma lru_safe_witness :
  (exists rs st, run (ctor 2) sample_ops = Ok (rs, st) /\ wf st /\
     Z.of_nat (length (_heap st)) <= to_u64 2) \/
  (run (ctor 2) sample_ops = Fault NotAHeap /\ LRUSpec.run 2 true [] sample_ops = None).
Proof. apply (lru_safe 2 sample_ops). simpl. lia. Defined.

Lemma lru_no_leak_witness : exists rs st, run (ctor 2) sample_ops = Ok (rs, st) /\ dtor st = Ok ∅.
Proof.
  assert (1 + Z.of_nat (length sample_ops) < 2 ^ 64) as Hlen by (simpl; lia).
  destruct (lru_no_leak 2 sample_ops Hlen) as [Hret Hdtor].
  destruct Hret as [[rs st] Hrun]; [vm_compute; by eexists|]. exists rs, st. split; [exact Hrun|exact (Hdtor rs st Hrun)].
Defined.

(** A cache of size one with one entry. *)
Definition one : t :=
  LRUCache 1 [0%nat] {["a" := 0%nat]} 2 {[0%nat := Block "a" [1] 1]} 1.

Lemma one_wf : wf one.
Proof.
  split; simpl.
  - apply NoDup_singleton.
  - intros p. rewrite list_elem_of_singleton, lookup_singleton. case_decide; naive_solver.
  - intros k p. rewrite lookup_singleton_Some. split.
    + intros [<- <-]. eexists; by split.
    + intros (d & Hd & <-). apply lookup_singleton_Some in Hd as [<- <-]. done.
  - intros p [d Hd]. apply lookup_singleton_Some in Hd as [<- _]. lia.
  - intros p d Hd. apply lookup_singleton_Some in Hd as [_ <-]. simpl. lia.
  - intros p q d e Hp Hq _. apply lookup_singleton_Some in Hp as [<- _].
    by apply lookup_singleton_Some in Hq as [<- _].
  - lia.
Qed.

Lemma one_ordered : ordered one.
Proof. intros i Hi. simpl in Hi. lia. Qed.

Lemma put_evicts_oldest_witness :
  exists st' p d, put one "b" [2] = Ok st' /\ mem one !! p = Some d /\ key d = "a" /\
    _map st' = delete "a" (<["b" := 1%nat]> {["a" := 0%nat]}).
Proof.
  destruct (put_evicts_oldest one "b" [2] one_wf one_ordered) as (st' & p & d & H1 & H2 & _ & H3 & _);
    [reflexivity|simpl; lia|simpl; lia|reflexivity|].
  exists st', p, d. pose proof (proj1 (lookup_singleton_Some _ _ _ _) H2) as [<- <-].
  split_and!; [exact H1|exact H2|reflexivity|exact H3].
Defined.

Lemma put_get_witness :
  exists st' st'', put one "b" [2] = Ok st' /\ step st' (Get "b") = Ok (Some [2], st'').
Proof.
  apply (put_get one "b" [2]); [|apply one_ordered|simpl; lia|simpl; lia|].
  - split; [apply one_wf|unfold bounded; simpl; lia|simpl; lia].
  - exists [("a", [1])]. exists [0%nat]. split_and!; [reflexivity|repeat constructor|reflexivity].
Defined.

Lemma invalidate_exact_witness :
  exists st', invalidate one "a" = Ok st' /\ wf st' /\ _map st' = delete "a" {["a" := 0%nat]}.
Proof.
  destruct (invalidate_exact one "a" one_wf) as (st' & H1 & H2 & H3 & _).
  exists st'. split_and!; assumption.
Defined.

End LRUProps.
