(* ===== verification/CppString.v ===== *)
(** * Operations of the C and C++ string libraries

    What the program uses of [std::string] ([find], [rfind], [substr]), of
    [stdlib.h] ([atoi]) and of [stdio.h] ([snprintf] with [%d], [%lu] and
    [%s]), as functions on [string], with the facts the clients need.
    [npos] is [None]. *)

From S2P Require Import Prelude.
From Stdlib Require Import ZArith Lia Ascii.
From stdpp Require Import base gmap strings fin_maps numbers list.

Local Open Scope Z_scope.

(** ** Substrings *)

Fixpoint str_take (n : nat) (s : string) : string :=
  match n, s with
  | S n, String c s => String c (str_take n s)
  | _, _ => EmptyString
  end.

Fixpoint str_drop (n : nat) (s : string) : string :=
  match n, s with
  | S n, String c s => str_drop n s
  | _, _ => s
  end.

(** [s.substr(pos, npos)] and [s.substr(0, n)]. *)
Definition substr_from (s : string) (pos : nat) : string := str_drop pos s.
Definition substr_to (s : string) (n : nat) : string := str_take n s.

(** [s.c_str()] as a C string: what a callee sees of it. *)
Fixpoint c_str (s : string) : string :=
  match s with
  | EmptyString => EmptyString
  | String c s => if char_to_u8 c =? 0 then EmptyString else String c (c_str s)
  end.

(** [s[s.size()-1]]; the index wraps around when [s] is empty. *)
Fixpoint last_char (s : string) : option ascii :=
  match s with
  | EmptyString => None
  | String c EmptyString => Some c
  | String _ s => last_char s
  end.

(** ** Searching *)

(** [s] starts with [pat]. *)
Fixpoint starts_with (pat s : string) : bool :=
  match pat, s with
  | EmptyString, _ => true
  | String a pat, String b s => bool_decide (a = b) && starts_with pat s
  | String _ _, EmptyString => false
  end.

(** [s.find(pat)]: the first occurrence. *)
Fixpoint str_find (pat s : string) : option nat :=
  if starts_with pat s then Some 0%nat
  else match s with
       | EmptyString => None
       | String _ s => S <$> str_find pat s
       end.

(** [s.rfind(pat)]: the last occurrence. *)
Fixpoint str_rfind (pat s : string) : option nat :=
  match s with
  | EmptyString => if starts_with pat s then Some 0%nat else None
  | String _ s' =>
      match str_rfind pat s' with
      | Some n => Some (S n)
      | None => if starts_with pat s then Some 0%nat else None
      end
  end.

(** ** Numbers *)

Definition is_digit (c : ascii) : bool := (48 <=? char_to_u8 c) && (char_to_u8 c <=? 57).
Definition is_space (c : ascii) : bool :=
  (char_to_u8 c =? 32) || ((9 <=? char_to_u8 c) && (char_to_u8 c <=? 13)).

Fixpoint read_digits (acc : Z) (s : string) : Z :=
  match s with
  | String c s => if is_digit c then read_digits (10 * acc + (char_to_u8 c - 48)) s else acc
  | EmptyString => acc
  end.

Definition read_signed (s : string) : Z :=
  match s with
  | String c s' =>
      if char_to_u8 c =? 45 then - read_digits 0 s'
      else if char_to_u8 c =? 43 then read_digits 0 s'
      else read_digits 0 s
  | EmptyString => 0
  end.

Fixpoint skip_spaces (s : string) : string :=
  match s with
  | String c s' => if is_space c then skip_spaces s' else s
  | EmptyString => s
  end.

(** [atoi]: glibc returns [(int) strtol(s, NULL, 10)], and [strtol] saturates
    at the bounds of a 64-bit [long]. *)
Definition strtol (s : string) : Z :=
  Z.max (- 2 ^ 63) (Z.min (2 ^ 63 - 1) (read_signed (skip_spaces s))).

Definition atoi (s : string) : Z := to_i32 (strtol s).

Definition digit_char (d : Z) : ascii := ascii_of_N (Z.to_N (48 + d)).

(** The decimal digits of [n], prepended to [acc]; [fuel] is a bound on the
    number of digits. *)
Fixpoint digits (fuel : nat) (n : Z) (acc : string) : string :=
  match fuel with
  | O => acc
  | S fuel =>
      let acc := String (digit_char (n mod 10)) acc in
      if n <? 10 then acc else digits fuel (n / 10) acc
  end.

(** [%lu] of a 64-bit value has at most 20 digits, [%d] at most 10. *)
Definition print_lu (n : Z) : string := digits 20 n EmptyString.

Definition print_d (n : Z) : string :=
  if n <? 0 then String (ascii_of_N 45) (digits 10 (- n) EmptyString)
  else digits 10 n EmptyString.

(** ** Facts *)

#[local] Arguments String.append : simpl nomatch.

Fixpoint str_forall (P : ascii -> Prop) (s : string) : Prop :=
  match s with
  | EmptyString => True
  | String c s => P c /\ str_forall P s
  end.

(** The character does not occur. *)
Definition lacks (c : ascii) (s : string) : Prop := str_forall (fun a => a <> c) s.

Lemma str_forall_app P s1 s2 : str_forall P (s1 +:+ s2) <-> str_forall P s1 /\ str_forall P s2.
Proof. induction s1; simpl; tauto. Qed.

Lemma lacks_app c s1 s2 : lacks c (s1 +:+ s2) <-> lacks c s1 /\ lacks c s2.
Proof. apply str_forall_app. Qed.

Lemma str_forall_impl (P Q : ascii -> Prop) s :
  (forall c, P c -> Q c) -> str_forall P s -> str_forall Q s.
Proof. intros HPQ. induction s; simpl; [done|]. intros []. auto. Qed.

Lemma app_nil_str s : s +:+ EmptyString = s.
Proof. induction s as [|c s IH]; [done|]. simpl. by f_equal. Qed.

Lemma app_assoc_str s1 s2 s3 : (s1 +:+ s2) +:+ s3 = s1 +:+ (s2 +:+ s3).
Proof. induction s1 as [|c s1 IH]; [done|]. simpl. by f_equal. Qed.

Lemma str_length_app s1 s2 :
  String.length (s1 +:+ s2) = (String.length s1 + String.length s2)%nat.
Proof. induction s1 as [|c s1 IH]; [done|]. simpl. by f_equal. Qed.

Lemma str_take_app s1 s2 : str_take (String.length s1) (s1 +:+ s2) = s1.
Proof. induction s1 as [|c s1 IH]; simpl; [by destruct s2|by rewrite IH]. Qed.

Lemma str_drop_app s1 s2 n : str_drop (String.length s1 + n) (s1 +:+ s2) = str_drop n s2.
Proof. induction s1; simpl; done. Qed.

Definition NUL : ascii := ascii_of_N 0.

Lemma c_str_id s : lacks NUL s -> c_str s = s.
Proof.
  induction s as [|c s IH]; [done|]. intros [Hc Hs]. simpl. destruct (Z.eqb_spec (char_to_u8 c) 0) as [E|].
  - exfalso. apply Hc. unfold char_to_u8 in E. rewrite <- (ascii_N_embedding c). unfold NUL. f_equal. lia.
  - by rewrite IH.
Qed.

Lemma app_inj_str s a b : s +:+ a = s +:+ b -> a = b.
Proof. induction s; simpl; [done|]. intros [= ?]. auto. Qed.

#[global] Instance lacks_dec c s : Decision (lacks c s).
Proof. induction s as [|a s IH]; unfold lacks in *; simpl; apply _. Defined.

(** *** Occurrences of a character *)

Abbreviation chr c := (String c EmptyString).

Lemma starts_with_chr c s :
  starts_with (chr c) s = match s with String a _ => bool_decide (c = a) | _ => false end.
Proof. destruct s; simpl; [done|]. apply andb_true_r. Qed.

(** The first occurrence splits the string where the character has not
    occurred yet; there is none exactly when the string lacks it. *)
Lemma find_chr c s :
  match str_find (chr c) s with
  | Some n => exists a b, s = a +:+ String c b /\ n = String.length a /\ lacks c a
  | None => lacks c s
  end.
Proof.
  induction s as [|a s IH]; [done|]. cbn [str_find]. rewrite starts_with_chr.
  case_bool_decide as Hc; [subst; by exists EmptyString, s|].
  destruct (str_find (chr c) s) as [n|]; simpl.
  - destruct IH as (x & y & -> & -> & Hx). exists (String a x), y. by split_and!.
  - split; [congruence|done].
Qed.

Lemma rfind_chr c s :
  match str_rfind (chr c) s with
  | Some n => exists a b, s = a +:+ String c b /\ n = String.length a /\ lacks c b
  | None => lacks c s
  end.
Proof.
  induction s as [|a s IH]; [done|]. cbn [str_rfind].
  destruct (str_rfind (chr c) s) as [n|].
  - destruct IH as (x & y & -> & -> & Hy). exists (String a x), y. by split_and!.
  - rewrite starts_with_chr. case_bool_decide as Hc.
    + subst. by exists EmptyString, s.
    + split; [congruence|done].
Qed.

Lemma find_chr_app c a b : lacks c a -> str_find (chr c) (a +:+ String c b) = Some (String.length a).
Proof.
  induction a as [|x a IH]; intros Hl; cbn [String.append str_find]; rewrite starts_with_chr.
  - by rewrite bool_decide_eq_true_2.
  - destruct Hl as [Hx Ha]. rewrite bool_decide_eq_false_2 by congruence. by rewrite IH.
Qed.

Lemma find_chr_lacks c s : lacks c s -> str_find (chr c) s = None.
Proof.
  intros Hl. pose proof (find_chr c s) as H. destruct (str_find (chr c) s); [|done].
  destruct H as (a & b & -> & _ & _). apply str_forall_app in Hl as [_ [? _]]. done.
Qed.

Lemma rfind_chr_lacks c s : lacks c s -> str_rfind (chr c) s = None.
Proof.
  intros Hl. pose proof (rfind_chr c s) as H. destruct (str_rfind (chr c) s); [|done].
  destruct H as (a & b & -> & _ & _). apply str_forall_app in Hl as [_ [? _]]. done.
Qed.

Lemma rfind_chr_app c a b : lacks c b -> str_rfind (chr c) (a +:+ String c b) = Some (String.length a).
Proof.
  intros Hb. induction a as [|x a IH]; cbn [String.append str_rfind].
  - by rewrite rfind_chr_lacks, starts_with_chr, bool_decide_eq_true_2.
  - by rewrite IH.
Qed.

(** *** Occurrences of a separator *)

Lemma starts_with_app pat s b :
  (String.length pat <= String.length s)%nat -> starts_with pat (s +:+ b) = starts_with pat s.
Proof.
  revert s. induction pat as [|p pat IH]; intros s Hl; [done|].
  destruct s as [|c s]; simpl in *; [lia|]. by rewrite IH by lia.
Qed.

Lemma starts_with_split pat s : starts_with pat s = true -> exists b, s = pat +:+ b.
Proof.
  revert s. induction pat as [|p pat IH]; intros s; simpl; [eauto|].
  destruct s as [|c s]; [done|]. rewrite andb_true_iff, bool_decide_eq_true.
  intros [-> H]. destruct (IH _ H) as [b ->]. eauto.
Qed.

Lemma starts_with_refl pat b : starts_with pat (pat +:+ b) = true.
Proof. induction pat; simpl; [done|]. by rewrite bool_decide_eq_true_2. Qed.

Lemma find_starts pat s : starts_with pat s = true -> str_find pat s = Some 0%nat.
Proof. intros Hs. destruct s; cbn [str_find]; by rewrite Hs. Qed.

Lemma find_cons pat c s :
  str_find pat (String c s) = if starts_with pat (String c s) then Some 0%nat else S <$> str_find pat s.
Proof. done. Qed.

(** [a] can precede the separator: it does not itself create an earlier
    occurrence of it. *)
Definition before_sep (pat a : string) : Prop := str_find pat (a +:+ pat) = Some (String.length a).

Lemma find_before_sep pat a b :
  str_find pat (a +:+ (pat +:+ b)) = Some (String.length a) <-> before_sep pat a.
Proof.
  unfold before_sep. rewrite <- app_assoc_str. induction a as [|c a IH].
  - rewrite !find_starts; [done|..].
    + simpl. rewrite <- (app_nil_str pat) at 2. apply starts_with_refl.
    + apply starts_with_refl.
  - assert (starts_with pat (String c ((a +:+ pat) +:+ b)) =
            starts_with pat (String c (a +:+ pat))) as Hs.
    { apply (starts_with_app pat (String c (a +:+ pat)) b). simpl.
      rewrite str_length_app. lia. }
    cbn [String.append String.length]. rewrite !find_cons, Hs.
    destruct (starts_with pat (String c (a +:+ pat))); [done|].
    split; intros H; apply fmap_Some in H as (n & Hn & [= <-]);
      apply fmap_Some; exists (String.length a); (split; [by apply IH|done]).
Qed.

Lemma find_split pat s n :
  str_find pat s = Some n ->
  exists a b, s = a +:+ (pat +:+ b) /\ n = String.length a /\ before_sep pat a.
Proof.
  intros Hf. assert (exists a b, s = a +:+ (pat +:+ b) /\ n = String.length a) as (a & b & -> & ->).
  { revert n Hf. induction s as [|c s IH]; intros n; cbn [str_find].
    - destruct (starts_with pat EmptyString) eqn:E; [|done]. intros [= <-].
      apply starts_with_split in E as [b ->]. by exists EmptyString, b.
    - destruct (starts_with pat (String c s)) eqn:E.
      + intros [= <-]. apply starts_with_split in E as [b ->]. by exists EmptyString, b.
      + rewrite fmap_Some. intros (m & Hm & ->). destruct (IH m Hm) as (a & b & -> & ->).
        by exists (String c a), b. }
  exists a, b. split_and!; [done|done|]. by eapply find_before_sep.
Qed.

(** *** Numbers *)

Lemma digit_char_u8 d : 0 <= d < 10 -> char_to_u8 (digit_char d) = 48 + d.
Proof.
  intros Hd. unfold char_to_u8, digit_char. rewrite N_ascii_embedding by lia. lia.
Qed.

Lemma digits_read fuel n :
  0 <= n < 10 ^ Z.of_nat fuel -> (0 < fuel)%nat ->
  exists k : nat, forall a acc,
    read_digits a (digits fuel n acc) = read_digits (a * 10 ^ Z.of_nat k + n) acc.
Proof.
  revert n. induction fuel as [|fuel IH]; intros n Hn Hf; [lia|].
  pose proof (Z.mod_pos_bound n 10 ltac:(lia)) as Hm.
  assert (Hstep : forall a acc, read_digits a (String (digit_char (n mod 10)) acc) =
            read_digits (10 * a + n mod 10) acc).
  { intros a acc. cbn [read_digits]. unfold is_digit. rewrite digit_char_u8 by lia.
    rewrite !(proj2 (Z.leb_le _ _)) by lia. simpl. f_equal. lia. }
  cbn [digits]. destruct (Z.ltb_spec n 10).
  - exists 1%nat. intros a acc. rewrite Hstep. f_equal. rewrite Z.mod_small by lia. lia.
  - rewrite Nat2Z.inj_succ, Z.pow_succ_r in Hn by lia.
    assert (0 <= n / 10 < 10 ^ Z.of_nat fuel) as Hd.
    { split; [apply Z.div_pos; lia|]. apply Z.div_lt_upper_bound; lia. }
    assert (0 < fuel)%nat as Hf'.
    { destruct fuel; [|lia]. simpl in Hd. pose proof (Z.div_le_lower_bound n 10 1). lia. }
    destruct (IH (n / 10) Hd Hf') as [k Hk].
    exists (S k). intros a acc. rewrite Hk, Hstep. f_equal.
    pose proof (Z.div_mod n 10 ltac:(lia)).
    rewrite Nat2Z.inj_succ, Z.pow_succ_r by lia. lia.
Qed.

Lemma digits_forall (P : ascii -> Prop) fuel n acc :
  (forall d, 0 <= d < 10 -> P (digit_char d)) -> str_forall P acc ->
  str_forall P (digits fuel n acc).
Proof.
  intros Hd. revert n acc. induction fuel as [|fuel IH]; intros n acc Hacc; [done|].
  cbn [digits]. assert (str_forall P (String (digit_char (n mod 10)) acc)) as H'.
  { split; [|done]. apply Hd, Z.mod_pos_bound. lia. }
  destruct (n <? 10); [done|]. by apply IH.
Qed.

Lemma digits_length fuel n acc :
  (String.length (digits fuel n acc) <= fuel + String.length acc)%nat.
Proof.
  revert n acc. induction fuel as [|fuel IH]; intros n acc; [done|]. cbn [digits].
  destruct (n <? 10); [simpl; lia|]. etrans; [apply IH|]. simpl. lia.
Qed.

Lemma str_take_ge n s : (String.length s <= n)%nat -> str_take n s = s.
Proof.
  revert n. induction s as [|c s IH]; intros [|n] Hl; simpl in *; try done; [lia|].
  by rewrite IH by lia.
Qed.

(** The first character of a printed number is a digit. *)
Lemma digits_head fuel n acc :
  (0 < fuel)%nat -> exists c s, digits fuel n acc = String c s /\
    exists d, 0 <= d < 10 /\ c = digit_char d.
Proof.
  revert n acc. induction fuel as [|fuel IH]; intros n acc Hf; [lia|]. cbn [digits].
  pose proof (Z.mod_pos_bound n 10 ltac:(lia)).
  destruct (n <? 10); [eauto 10|]. destruct fuel as [|fuel]; [simpl; eauto 10|].
  apply IH. lia.
Qed.

Lemma read_signed_digits fuel n :
  0 <= n < 10 ^ Z.of_nat fuel -> (0 < fuel)%nat ->
  read_signed (skip_spaces (digits fuel n EmptyString)) = n /\
  read_digits 0 (digits fuel n EmptyString) = n.
Proof.
  intros Hn Hf. destruct (digits_read fuel n Hn Hf) as [k Hk].
  assert (read_digits 0 (digits fuel n EmptyString) = n) as Hr by (rewrite Hk; simpl; lia).
  split; [|done]. revert Hr.
  destruct (digits_head fuel n EmptyString Hf) as (c & s & -> & d & Hd & ->).
  intros Hr. pose proof (digit_char_u8 d Hd) as Hc.
  cbn [skip_spaces]. unfold is_space. rewrite Hc.
  rewrite (proj2 (Z.eqb_neq _ _)), (proj2 (Z.leb_gt (48 + d) 13)), andb_false_r by lia.
  simpl orb. cbn [read_signed]. rewrite Hc.
  by rewrite (proj2 (Z.eqb_neq _ _)), (proj2 (Z.eqb_neq _ _)) by lia.
Qed.

(** [atoi] reads back what [%d] prints. *)
Lemma atoi_print_d n : is_i32 n -> atoi (print_d n) = n.
Proof.
  intros Hn. unfold is_i32 in Hn. unfold atoi, strtol, print_d.
  destruct (Z.ltb_spec n 0).
  - destruct (read_signed_digits 10 (- n) ltac:(lia) ltac:(lia)) as [_ Hr].
    cbn [skip_spaces]. change (is_space _) with false. cbn match.
    cbn [read_signed]. change (char_to_u8 _ =? 45) with true. cbn match.
    rewrite Hr, Z.min_r, Z.max_r by lia. rewrite Z.opp_involutive.
    by apply to_i32_id.
  - destruct (read_signed_digits 10 n ltac:(lia) ltac:(lia)) as [-> _].
    rewrite Z.min_r, Z.max_r by lia. by apply to_i32_id.
Qed.

Lemma atoi_print_lu n : 0 <= n < 2 ^ 63 -> atoi (print_lu n) = to_i32 n.
Proof.
  intros Hn. unfold atoi, strtol, print_lu.
  destruct (read_signed_digits 20 n ltac:(lia) ltac:(lia)) as [-> _].
  by rewrite Z.min_r, Z.max_r by lia.
Qed.

Lemma print_d_lacks c n :
  c <> ascii_of_N 45 -> (forall d, 0 <= d < 10 -> digit_char d <> c) -> lacks c (print_d n).
Proof.
  intros Hm Hd. unfold print_d. destruct (n <? 0); [split; [congruence|]|];
    by apply digits_forall.
Qed.

(** [%lu] is injective on 64-bit values. *)
Lemma print_lu_inj m n : is_u64 m -> is_u64 n -> print_lu m = print_lu n -> m = n.
Proof.
  unfold is_u64, print_lu. intros Hm Hn Heq.
  destruct (digits_read 20 m ltac:(lia) ltac:(lia)) as [k Hk].
  destruct (digits_read 20 n ltac:(lia) ltac:(lia)) as [k' Hk'].
  specialize (Hk 0 EmptyString). specialize (Hk' 0 EmptyString).
  rewrite Heq, Hk' in Hk. simpl in Hk. lia.
Qed.
