(* ===== verification/Url.v ===== *)
(** * URLs ([src/util/url.h])

    [class URL]: parsing a string into scheme, host, port and path, printing
    the components back, and comparing URLs through what they print.
    [Url] holds the operations on the fields, [UrlObject] objects from their
    constructors on, when not all fields have a value yet, [UrlFacts] the lemmas that split a string at
    its separators, [UrlProps] the properties. *)

From S2P Require Import Prelude CppString.
From Stdlib Require Import ZArith Lia Ascii.
From stdpp Require Import base gmap strings fin_maps numbers list.

Local Open Scope Z_scope.

#[local] Arguments String.append : simpl nomatch.

Module Url.

Record URL : Type := mkURL {
  _scheme : string;
  _host : string;
  _port : Z;
  _path : string;
  _valid : bool
}.

#[global] Instance URL_eq_dec : EqDecision URL.
Proof. solve_decision. Defined.

(** The first step of [parse]: what [_scheme] becomes and what is left of
    [s]. *)
Definition parse_scheme (s : string) : string * string :=
  match str_find "://" s with
  | Some n => (substr_to s n, substr_from s (n + 3))
  | None => ("http", s)
  end.

Definition parse_path (s : string) : string * string :=
  match str_find "/" s with
  | Some n => (substr_from s (n + 1), substr_to s n)
  | None => (EmptyString, s)
  end.

(** [_port], the validity so far, and what is left of [s]. *)
Definition parse_port (s : string) : Z * bool * string :=
  match str_rfind ":" s with
  | Some n =>
      let _port := atoi (substr_from s (n + 1)) in
      (_port, negb ((_port <=? 0) || (_port >? 65535)), substr_to s n)
  | None => (80, true, s)
  end.

(** [parse] assigns every field, so its result does not depend on the
    object it is called on. *)
Definition parse (s : string) : URL :=
  let '(scheme, s) := parse_scheme s in
  let '(path, s) := parse_path s in
  let '(port, valid, s) := parse_port s in
  let valid := match str_find ":" s with Some _ => false | None => valid end in
  mkURL scheme s port path valid.

(** [snprintf(buf, 31, "%d", _port)] never truncates: a 32-bit [int] prints
    in at most eleven characters. *)
Definition toString (u : URL) : string :=
  _scheme u +:+ ("://" +:+ (_host u +:+
    ((if bool_decide (_scheme u = "http"%string) && (_port u =? 80) then ""
      else ":" +:+ print_d (_port u)) +:+
    ("/" +:+ _path u)))).

Definition operator_eq (u v : URL) : bool := bool_decide (toString u = toString v).

(** [operator=] copies the five fields, one after the other. *)
Definition operator_assign (this other : URL) : URL :=
  mkURL (_scheme other) (_host other) (_port other) (_path other) (_valid other).

(** The non-const accessors hand out references: assignments through them
    change one field and leave [_valid] alone. *)
Definition set_scheme (s : string) (u : URL) : URL :=
  mkURL s (_host u) (_port u) (_path u) (_valid u).
Definition set_host (s : string) (u : URL) : URL :=
  mkURL (_scheme u) s (_port u) (_path u) (_valid u).
Definition set_port (n : Z) (u : URL) : URL :=
  mkURL (_scheme u) (_host u) n (_path u) (_valid u).
Definition set_path (s : string) (u : URL) : URL :=
  mkURL (_scheme u) (_host u) (_port u) s (_valid u).

End Url.

(** ** Objects

    The default constructor initialises the strings and nothing else; reading
    [_port] or [_valid] before they are assigned is undefined. *)
Module UrlObject.
Import Url.

Record object : Type := Object {
  o_scheme : string;
  o_host : string;
  o_port : option Z;
  o_path : string;
  o_valid : option bool
}.

Definition read {A} (field : option A) : outcome A :=
  match field with Some a => Ok a | None => Fault Indeterminate end.

Definition URL_default : object := Object "" "" None "" None.

(** The fields of an object, all of which are read. *)
Definition load (o : object) : outcome URL :=
  p ← read (o_port o); v ← read (o_valid o); Ok (mkURL (o_scheme o) (o_host o) p (o_path o) v).

Definition store (u : URL) : object :=
  Object (_scheme u) (_host u) (Some (_port u)) (_path u) (Some (_valid u)).

(** [explicit URL(const string& s)] and [explicit URL(const URL& u)]. *)
Definition URL_string (s : string) : object := store (parse s).
Definition URL_copy (u : object) : outcome object := other ← load u; Ok (store other).

(** [valid()], and the conversion to a string, which reads all other fields. *)
Definition valid (o : object) : outcome bool := read (o_valid o).
Definition operator_string (o : object) : outcome string :=
  p ← read (o_port o); Ok (toString (mkURL (o_scheme o) (o_host o) p (o_path o) false)).

(** [out << url]: what the stream has received. *)
Definition operator_shl (out : string) (o : object) : outcome string :=
  s ← operator_string o; Ok (out +:+ s).

End UrlObject.

(** ** Splitting at the separators *)

Module UrlFacts.
Import Url.

Definition colon : ascii := ":"%char.
Definition slash : ascii := "/"%char.

Definition port_ok (n : Z) : Prop := 1 <= n <= 65535.
#[global] Instance port_ok_dec n : Decision (port_ok n).
Proof. unfold port_ok. apply _. Defined.

Definition default_port (u : URL) : Prop := _scheme u = "http"%string /\ _port u = 80.
#[global] Instance default_port_dec u : Decision (default_port u).
Proof. unfold default_port. apply _. Defined.

Lemma parse_scheme_app sch rest :
  before_sep "://" sch -> parse_scheme (sch +:+ ("://" +:+ rest)) = (sch, rest).
Proof.
  intros Hb. unfold parse_scheme, substr_to, substr_from.
  rewrite (proj2 (find_before_sep _ _ _) Hb). f_equal.
  - apply str_take_app.
  - by rewrite str_drop_app.
Qed.

(** The scheme [parse] finds can be followed by its separator. *)
Lemma parse_scheme_before s : before_sep "://" (parse_scheme s).1.
Proof.
  unfold parse_scheme. destruct (str_find "://" s) as [n|] eqn:E; [|reflexivity].
  apply find_split in E as (a & b & -> & -> & Hb). simpl. unfold substr_to.
  by rewrite str_take_app.
Qed.

Lemma parse_path_app a b : lacks slash a -> parse_path (a +:+ ("/" +:+ b)) = (b, a).
Proof.
  intros Ha. unfold parse_path, substr_to, substr_from.
  change ("/" +:+ b) with (String slash b).
  rewrite find_chr_app by done. f_equal.
  - by rewrite str_drop_app.
  - apply str_take_app.
Qed.

Lemma parse_path_lacks s : lacks slash (parse_path s).2.
Proof.
  unfold parse_path. pose proof (find_chr slash s) as H.
  change (chr slash) with "/"%string in H. destruct (str_find "/" s) as [n|]; simpl; [|done].
  destruct H as (a & b & -> & -> & Ha). unfold substr_to. by rewrite str_take_app.
Qed.

Lemma digit_not c : (forall d, 0 <= d < 10 -> char_to_u8 c <> 48 + d) ->
  c <> ascii_of_N 45 -> forall n, lacks c (print_d n).
Proof.
  intros Hc Hm n. apply print_d_lacks; [done|]. intros d Hd <-. apply (Hc d Hd).
  by apply digit_char_u8.
Qed.

Lemma port_lacks_slash n : lacks slash (":" +:+ print_d n).
Proof.
  split; [done|]. apply digit_not; [|done]. intros d Hd.
  change (char_to_u8 slash) with 47. lia.
Qed.

Lemma port_lacks_colon n : lacks colon (print_d n).
Proof. apply digit_not; [|done]. intros d Hd. change (char_to_u8 colon) with 58. lia. Qed.

Lemma parse_port_app a n :
  is_i32 n -> parse_port (a +:+ (":" +:+ print_d n)) = (n, bool_decide (port_ok n), a).
Proof.
  intros Hn. unfold parse_port, substr_to, substr_from.
  change (":" +:+ print_d n) with (String colon (print_d n)).
  rewrite rfind_chr_app.
  - rewrite str_drop_app, str_take_app. simpl. rewrite atoi_print_d by done.
    do 2 f_equal. unfold port_ok. rewrite Z.gtb_ltb.
    destruct (Z.leb_spec n 0), (Z.ltb_spec 65535 n), (bool_decide_reflect (1 <= n <= 65535));
      simpl; (done || lia).
  - apply port_lacks_colon.
Qed.

(** The port is an [int], and it is flagged when it is out of range. *)
Lemma parse_port_flag s :
  is_i32 (parse_port s).1.1 /\ (parse_port s).1.2 = bool_decide (port_ok (parse_port s).1.1).
Proof.
  unfold parse_port. destruct (str_rfind ":" s) as [n|]; simpl; [|done].
  split; [apply to_i32_range|]. set (q := atoi _). unfold port_ok. rewrite Z.gtb_ltb.
  destruct (Z.leb_spec q 0), (Z.ltb_spec 65535 q), (bool_decide_reflect (1 <= q <= 65535));
    simpl; (done || lia).
Qed.

(** What precedes the port has no separator the whole had not. *)
Lemma parse_port_lacks c s : lacks c s -> lacks c (parse_port s).2.
Proof.
  unfold parse_port. pose proof (rfind_chr colon s) as H.
  change (chr colon) with ":"%string in H. destruct (str_rfind ":" s) as [n|]; simpl; [|done].
  destruct H as (a & b & -> & -> & _). unfold substr_to. rewrite str_take_app.
  intros Hl. by apply str_forall_app in Hl as [? _].
Qed.

Lemma parse_port_none s : lacks colon s -> parse_port s = (80, true, s).
Proof. intros Hs. unfold parse_port. by rewrite rfind_chr_lacks. Qed.

Lemma find_colon s : str_find ":" s = None <-> lacks colon s.
Proof.
  split; [|apply find_chr_lacks]. pose proof (find_chr colon s) as H.
  change (chr colon) with ":"%string in H. by destruct (str_find ":" s).
Qed.

(** What [parse] computes, field by field. *)
Lemma parse_eq s :
  let q := parse_port (parse_path (parse_scheme s).2).2 in
  parse s = mkURL (parse_scheme s).1 q.2 q.1.1 (parse_path (parse_scheme s).2).1
                  (bool_decide (port_ok q.1.1 /\ lacks colon q.2)).
Proof.
  cbn zeta. set (q := parse_port _).
  assert (parse s = mkURL (parse_scheme s).1 q.2 q.1.1 (parse_path (parse_scheme s).2).1
            (match str_find ":" q.2 with Some _ => false | None => q.1.2 end)) as ->.
  { unfold parse, q. destruct (parse_scheme s) as [sch r]. simpl.
    destruct (parse_path r) as [pth r']. simpl. by destruct (parse_port r') as [[n v] h]. }
  f_equal. destruct (parse_port_flag (parse_path (parse_scheme s).2).2) as [_ Hf].
  fold q in Hf. rewrite Hf. destruct (str_find ":" q.2) eqn:E.
  - symmetry. apply bool_decide_eq_false_2. intros [_ Hl]. apply find_colon in Hl. congruence.
  - apply find_colon in E. apply bool_decide_ext. tauto.
Qed.

(** The shape every parsed URL has. *)
Record parsed (u : URL) : Prop := {
  parsed_scheme : before_sep "://" (_scheme u);
  parsed_host : lacks slash (_host u);
  parsed_port : is_i32 (_port u);
  parsed_valid : _valid u = bool_decide (port_ok (_port u) /\ lacks colon (_host u))
}.

Lemma parse_parsed s : parsed (parse s).
Proof.
  rewrite parse_eq. split; simpl.
  - apply parse_scheme_before.
  - apply parse_port_lacks, parse_path_lacks.
  - apply parse_port_flag.
  - done.
Qed.

(** What parsing a printed URL gives, when its scheme and host can be
    separated from the rest. *)
Lemma parse_toString_eq u :
  before_sep "://" (_scheme u) -> lacks slash (_host u) -> is_i32 (_port u) ->
  (default_port u -> lacks colon (_host u)) ->
  parse (toString u) = mkURL (_scheme u) (_host u) (_port u) (_path u)
    (bool_decide (port_ok (_port u) /\ lacks colon (_host u))).
Proof.
  intros Hs Hh Hp Hd. rewrite parse_eq. unfold toString. rewrite parse_scheme_app by done.
  set (pp := if _ && _ then _ else _). cbn [fst snd].
  assert (lacks slash pp /\ parse_port (_host u +:+ pp) =
            (_port u, bool_decide (port_ok (_port u)), _host u)) as [Hpp Hpq].
  { unfold pp. case_bool_decide as Hhttp; [destruct (Z.eqb_spec (_port u) 80) as [H80|Hne]|];
      cbn [andb]; try (split; [apply port_lacks_slash|by apply parse_port_app]).
    split; [done|]. rewrite app_nil_str, parse_port_none, H80 by (by apply Hd). done. }
  rewrite <- app_assoc_str, parse_path_app by (by apply str_forall_app).
  cbn [fst snd]. by rewrite Hpq.
Qed.

(** With the default port elided, a host with a colon loses its tail. *)
Lemma default_port_host u :
  default_port u -> lacks slash (_host u) -> before_sep "://" (_scheme u) ->
  parse (toString u) = u -> lacks colon (_host u).
Proof.
  intros [Hhttp H80] Hh Hs Hu. apply (f_equal _host) in Hu. revert Hu.
  rewrite parse_eq. unfold toString. rewrite Hhttp in *. rewrite parse_scheme_app by done.
  rewrite H80. cbn [fst snd _host]. change (bool_decide _ && (80 =? 80)) with true. cbn match.
  change ("" +:+ ("/" +:+ _path u)) with ("/" +:+ _path u).
  rewrite parse_path_app by done. cbn [fst snd]. unfold parse_port.
  pose proof (rfind_chr colon (_host u)) as H. change (chr colon) with ":"%string in H.
  destruct (str_rfind ":" (_host u)) as [n|]; [|done]. cbn [snd].
  destruct H as (a & b & Hab & -> & _). rewrite Hab. unfold substr_to. rewrite str_take_app.
  intros Ha. apply (f_equal String.length) in Ha. rewrite str_length_app in Ha. simpl in Ha. lia.
Qed.

Lemma parse_stable_iff s :
  parse (toString (parse s)) = parse s <->
  (default_port (parse s) -> lacks colon (_host (parse s))).
Proof.
  pose proof (parse_parsed s) as [Hs Hh Hp Hv]. split.
  - intros Hu Hd. by apply default_port_host.
  - intros Hd. rewrite parse_toString_eq by done. destruct (parse s); simpl in *. by rewrite Hv.
Qed.

Lemma parse_valid_stable s : _valid (parse s) = true -> parse (toString (parse s)) = parse s.
Proof.
  pose proof (parse_parsed s) as [_ _ _ Hv]. rewrite Hv, bool_decide_eq_true.
  intros [_ Hl]. by apply parse_stable_iff.
Qed.

(** *** Assembling a URL from the components that are present *)

Definition port_part (port : option Z) : string :=
  match port with Some n => ":" +:+ print_d n | None => "" end.

Definition path_part (path : option string) : string :=
  match path with Some p => "/" +:+ p | None => "" end.

Definition assemble (sch : option string) (host : string) (port : option Z)
    (path : option string) : string :=
  let rest := (host +:+ port_part port) +:+ path_part path in
  match sch with Some a => a +:+ ("://" +:+ rest) | None => rest end.

Lemma parse_scheme_assemble sch host port path :
  match sch with
  | Some a => before_sep "://" a
  | None => str_find "://" (assemble None host port path) = None
  end ->
  parse_scheme (assemble sch host port path) =
  (default "http"%string sch, (host +:+ port_part port) +:+ path_part path).
Proof.
  destruct sch as [a|]; cbn [default assemble]; intros H.
  - by apply parse_scheme_app.
  - unfold parse_scheme. by rewrite H.
Qed.

Lemma parse_path_assemble host port path :
  lacks slash host ->
  parse_path ((host +:+ port_part port) +:+ path_part path) =
  (default EmptyString path, host +:+ port_part port).
Proof.
  intros Hh. assert (lacks slash (host +:+ port_part port)) as Hl.
  { apply str_forall_app. split; [done|]. destruct port; [apply port_lacks_slash|done]. }
  destruct path as [p|]; cbn [path_part default].
  - by apply parse_path_app.
  - rewrite app_nil_str. unfold parse_path. apply find_chr_lacks in Hl.
    change (chr slash) with "/"%string in Hl. by rewrite Hl.
Qed.

Lemma print_lu_lacks_colon n : lacks colon (print_lu n).
Proof.
  apply digits_forall; [|done]. intros d Hd Hc. apply (f_equal char_to_u8) in Hc.
  rewrite digit_char_u8 in Hc by done. change (char_to_u8 colon) with 58 in Hc. lia.
Qed.

End UrlFacts.

(** ** Properties *)

Module UrlProps.
Import Url UrlFacts.

(** The cases of the unit test [url_test.cc] that exercise each branch. *)
Example url_test_cases :
  Forall (fun '(input, output, u) => parse input = u /\ toString u = output)
    [("somestring", "http://somestring/", mkURL "http" "somestring" 80 "" true);
     ("http://somestring:80", "http://somestring/", mkURL "http" "somestring" 80 "" true);
     ("http://somestring:80/", "http://somestring/", mkURL "http" "somestring" 80 "" true);
     ("rawdish://somestring", "rawdish://somestring:80/", mkURL "rawdish" "somestring" 80 "" true);
     ("rawdish://somestring:90/path/path", "rawdish://somestring:90/path/path", mkURL "rawdish" "somestring" 90 "path/path" true);
     ("rawdish://bad:host:90/path/path", "rawdish://bad:host:90/path/path", mkURL "rawdish" "bad:host" 90 "path/path" false);
     ("rawdish://somestring:-1/path/path", "rawdish://somestring:-1/path/path", mkURL "rawdish" "somestring" (-1) "path/path" false);
     ("rawdish://somestring:70000/path/path", "rawdish://somestring:70000/path/path", mkURL "rawdish" "somestring" 70000 "path/path" false);
     ("rawdish://somestring:badport/path/path", "rawdish://somestring:0/path/path", mkURL "rawdish" "somestring" 0 "path/path" false)]%string.
Proof. repeat constructor. Qed.

(** C39. Exactly which URL objects survive printing and parsing: the scheme
    can be told from the separator that follows it, the host has no slash,
    the port is written out when the host has a colon, and the validity flag
    is the one the port and the host deserve. *)
Theorem parse_toString_iff (u : URL) (Hport : is_i32 (_port u)) :
  parse (toString u) = u <->
  before_sep "://" (_scheme u) /\ lacks slash (_host u) /\
  (default_port u -> lacks colon (_host u)) /\
  _valid u = bool_decide (port_ok (_port u) /\ lacks colon (_host u)).
Proof.
  split.
  - intros Hu. pose proof (parse_parsed (toString u)) as [Hs Hh _ Hv]. rewrite Hu in *.
    split_and!; [done|done| |done]. intros Hd.
    by eapply default_port_host.
  - intros (Hs & Hh & Hd & Hv). rewrite parse_toString_eq by done.
    destruct u; simpl in *. by rewrite Hv.
Qed.

Lemma parse_toString_iff_witness :
  parse (toString (mkURL "ftp" "example.org" 2121 "pub/a" true)) =
  mkURL "ftp" "example.org" 2121 "pub/a" true.
Proof.
  apply (parse_toString_iff (mkURL "ftp" "example.org" 2121 "pub/a" true)).
  - unfold is_i32. simpl. lia.
  - split_and!; [reflexivity|apply (bool_decide_unpack _); reflexivity| |reflexivity].
    intros [? ?]. done.
Defined.

(** C40. Normalisation is stable: printing a parsed URL and parsing it again
    gives the same object, unless the default port was elided after a host
    that still has a colon; valid URLs always survive. *)
Theorem parse_print_parse (s : string) :
  (parse (toString (parse s)) = parse s <->
     (default_port (parse s) -> lacks colon (_host (parse s)))) /\
  (_valid (parse s) = true -> parse (toString (parse s)) = parse s).
Proof.
  pose proof (parse_parsed s) as [Hs Hh Hp Hv].
  assert (parse (toString (parse s)) = parse s <->
     (default_port (parse s) -> lacks colon (_host (parse s)))) as Hiff.
  { rewrite parse_stable_iff by done. tauto. }
  split; [done|]. rewrite Hv, bool_decide_eq_true, Hiff. tauto.
Qed.

(** Two valid parsed URLs compare equal only when all their components
    are equal. *)
Theorem eq_components (s t : string)
  (Hs : _valid (parse s) = true) (Ht : _valid (parse t) = true) :
  operator_eq (parse s) (parse t) = true <-> parse s = parse t.
Proof.
  unfold operator_eq. rewrite bool_decide_eq_true. split; [|by intros ->].
  intros Heq. rewrite <- (parse_valid_stable s Hs), <- (parse_valid_stable t Ht). by rewrite Heq.
Qed.

Lemma eq_components_witness :
  parse "www.google.com" = parse "http://www.google.com:80/".
Proof.
  apply (eq_components "www.google.com" "http://www.google.com:80/"); vm_compute; reflexivity.
Defined.

(** A string assembled from optional components parses into them, with
    [http], port 80 and the empty path where they are left out. *)
Theorem parse_components (sch : option string) (host : string) (port : option Z)
    (path : option string)
  (Hsch : match sch with
          | Some a => before_sep "://" a
          | None => str_find "://" (assemble None host port path) = None
          end)
  (Hhost : lacks slash host /\ lacks colon host)
  (Hport : forall n, port = Some n -> is_i32 n) :
  parse (assemble sch host port path) =
  mkURL (default "http"%string sch) host (default 80 port) (default EmptyString path)
        (bool_decide (port_ok (default 80 port))).
Proof.
  destruct Hhost as [Hs Hc]. rewrite parse_eq, parse_scheme_assemble by done. cbn [fst snd].
  assert (parse_port (host +:+ port_part port) =
            (default 80 port, bool_decide (port_ok (default 80 port)), host)) as Hp.
  { destruct port as [n|]; cbn [port_part default].
    - apply parse_port_app. eauto.
    - rewrite app_nil_str. by rewrite parse_port_none. }
  rewrite parse_path_assemble by done. cbn [fst snd]. rewrite Hp. cbn [fst snd].
  f_equal. apply bool_decide_ext. tauto.
Qed.

Lemma parse_components_witness :
  parse "example.org:8080" = mkURL "http" "example.org" 8080 "" true.
Proof.
  apply (parse_components None "example.org" (Some 8080) None).
  - reflexivity.
  - split; apply (bool_decide_unpack _); reflexivity.
  - intros n [= <-]. unfold is_i32. lia.
Defined.

(** An invalid URL whose elided default port hides a second colon does
    not survive: [http://bad:host:80/] prints as [http://bad:host/], which
    parses as another, still invalid, object. *)
Theorem elided_port_changes :
  let u := parse "http://bad:host:80/" in
  toString u = "http://bad:host/"%string /\ _valid u = false /\
  _host u = "bad:host"%string /\
  parse (toString u) = mkURL "http" "bad" 0 "" false.
Proof. vm_compute. by split_and!. Qed.

(** The range check on the port comes after the conversion to [int], so
    for every valid port [n] the number [n + 2^32] is accepted too and reads
    as [n]. *)
Theorem wide_port_accepted (n : Z) (Hn : port_ok n) :
  parse_port (":" +:+ print_lu (n + 2 ^ 32)) = (n, true, ""%string).
Proof.
  unfold parse_port, substr_to, substr_from.
  change (":" +:+ print_lu (n + 2 ^ 32)) with ("" +:+ String colon (print_lu (n + 2 ^ 32))).
  unfold port_ok in Hn. rewrite rfind_chr_app by apply print_lu_lacks_colon.
  rewrite str_drop_app, str_take_app. cbn [str_drop]. rewrite atoi_print_lu by lia.
  unfold to_i32. replace (n + 2 ^ 32 + 2 ^ 31) with (n + 2 ^ 31 + 1 * 2 ^ 32) by lia.
  rewrite Z.mod_add, Z.mod_small by lia. replace (n + 2 ^ 31 - 2 ^ 31) with n by lia.
  rewrite Z.gtb_ltb. destruct (Z.leb_spec n 0), (Z.ltb_spec 65535 n); simpl; (done || lia).
Qed.

Lemma wide_port_accepted_witness :
  parse_port ":4294967376" = (80, true, ""%string) /\
  parse "http://h:4294967376/" = parse "http://h/".
Proof.
  split; [|vm_compute; reflexivity]. apply (wide_port_accepted 80). unfold port_ok. lia.
Defined.

(** Assigning through the accessors never revises the validity flag: a
    valid URL stays flagged valid with an unusable port, and then fails to
    survive printing and parsing. *)
Theorem accessor_keeps_valid (u : URL) (n : Z)
  (Hu : _valid u = true) (Hn : is_i32 n) (Hbad : ~ port_ok n) :
  _valid (set_port n u) = true /\ parse (toString (set_port n u)) <> set_port n u.
Proof.
  split; [done|]. intros Heq. pose proof (parse_parsed (toString (set_port n u))) as Hp.
  rewrite Heq in Hp. destruct Hp as [_ _ _ Hv]. simpl in Hv. rewrite Hu in Hv.
  symmetry in Hv. apply bool_decide_eq_true in Hv as [? _]. done.
Qed.

Lemma accessor_keeps_valid_witness :
  _valid (set_port 0 (parse "ftp://h:21/")) = true /\
  parse (toString (set_port 0 (parse "ftp://h:21/"))) <> set_port 0 (parse "ftp://h:21/").
Proof.
  apply (accessor_keeps_valid (parse "ftp://h:21/") 0).
  - reflexivity.
  - unfold is_i32. lia.
  - unfold port_ok. lia.
Defined.

(** *** Objects *)

Import UrlObject.

(** An object made from a string, and every copy of it, is completely
    initialised: it answers, prints and copies as the parsed URL does. *)
Theorem constructed_complete (s out : string) :
  URL_copy (URL_string s) = Ok (URL_string s) /\ load (URL_string s) = Ok (parse s) /\
  valid (URL_string s) = Ok (_valid (parse s)) /\
  operator_string (URL_string s) = Ok (toString (parse s)) /\
  operator_shl out (URL_string s) = Ok (out +:+ toString (parse s)).
Proof.
  unfold URL_copy, URL_string, load, store, valid, operator_shl, operator_string. simpl.
  destruct (parse s) as [sc h p pa v]. by split_and!.
Qed.

(** A default-constructed object answers nothing: asking whether it is valid,
    printing it and copying it all read fields without a value. *)
Theorem default_indeterminate :
  valid URL_default = Fault Indeterminate /\ operator_string URL_default = Fault Indeterminate /\
  URL_copy URL_default = Fault Indeterminate.
Proof. by split_and!. Qed.

End UrlProps.
