(* ===== verification/Posix.v ===== *)
(** * The file system calls of the block store

    [fileblockstore.cc] keeps every block in a regular file of one directory
    and talks to the operating system through [open], [write], [read],
    [close], [unlink], [statfs] and the directory streams of [dirent.h].
    [Posix] is the interface: the calls on a state [W] the program does not
    see.  [PosixLaws] states what POSIX documents of them for the entries of
    one directory, through a [view] of the state; calls may fail at any time
    and a write may be partial.  [MemFs] is an in-memory implementation with
    a descriptor limit and a full disk, which shows that the laws can hold and
    on which the witnesses run. *)

From S2P Require Import Prelude CppString.
From Stdlib Require Import ZArith Lia Ascii.
From stdpp Require Import base gmap strings fin_maps numbers list.

Local Open Scope Z_scope.

#[local] Arguments String.append : simpl nomatch.

Inductive d_type : Type := DT_REG | DT_DIR | DT_LNK | DT_UNKNOWN.

#[global] Instance d_type_eq_dec : EqDecision d_type.
Proof. solve_decision. Defined.

Record dirent : Type := Dirent { d_name : string; d_kind : d_type }.

#[global] Instance dirent_eq_dec : EqDecision dirent.
Proof. solve_decision. Defined.

(** [None] is the [-1] or [NULL] of a failed call. *)
Class Posix (W : Type) : Type := {
  (** [open(p, O_CREAT|O_TRUNC|O_WRONLY, 0777)] *)
  os_open_trunc : string -> W -> option Z * W;
  (** [open(p, O_RDONLY)] *)
  os_open_rdonly : string -> W -> option Z * W;
  os_write : Z -> list Z -> W -> Z * W;
  (** The count and the bytes stored in the buffer. *)
  os_read : Z -> Z -> W -> Z * list Z * W;
  os_close : Z -> W -> W;
  os_unlink : string -> W -> Z * W;
  (** [f_bavail] and [f_bsize]. *)
  os_statfs : string -> W -> option (Z * Z);
  os_opendir : string -> W -> option Z * W;
  os_readdir : Z -> W -> option dirent * W;
  os_closedir : Z -> W -> W
}.

(** What can be said of the state about one directory: the bytes of its
    regular files by entry name, the open descriptors on them with their
    offsets, and what is left to read of the open directory streams. *)
Record os_view : Type := View {
  files : gmap string (list Z);
  fds : gmap Z (string * nat);
  streams : gmap Z (list dirent)
}.

Definition slash_char : ascii := "/"%char.

(** Names that denote an entry of the directory itself. *)
Definition simple (k : string) : Prop :=
  k <> EmptyString /\ k <> "."%string /\ k <> ".."%string /\
  lacks slash_char k /\ lacks NUL k.

#[global] Instance simple_dec k : Decision (simple k).
Proof. unfold simple. apply _. Defined.

(** The path names that resolve to the entry [k] of [dir]. *)
Definition entry_path (dir k p : string) : Prop :=
  simple k /\
  (p = dir +:+ ("/" +:+ k) \/ last_char dir = Some slash_char /\ p = dir +:+ k).

(** The entries of the directory: every name once, and the regular files
    among them are the files of the view. *)
Definition listing (l : list dirent) (fs : gmap string (list Z)) : Prop :=
  NoDup (d_name <$> l) /\
  (forall e, e ∈ l -> d_name e <> EmptyString) /\
  (forall k, Dirent k DT_REG ∈ l <-> simple k /\ k ∈ dom fs).

Class PosixLaws (W : Type) `{Posix W} (dir : string) : Type := {
  view : W -> os_view;
  law_open_trunc k p w : entry_path dir k p ->
    match os_open_trunc p w with
    | (Some fd, w') =>
        fds (view w) !! fd = None /\
        view w' = View (<[k := []]> (files (view w))) (<[fd := (k, O)]> (fds (view w)))
                       (streams (view w))
    | (None, w') => view w' = view w
    end;
  law_open_rdonly k p w : entry_path dir k p ->
    match os_open_rdonly p w with
    | (Some fd, w') =>
        is_Some (files (view w) !! k) /\ fds (view w) !! fd = None /\
        view w' = View (files (view w)) (<[fd := (k, O)]> (fds (view w))) (streams (view w))
    | (None, w') => view w' = view w
    end;
  (** Writing at the end of the file: all, some or none of the bytes. *)
  law_write fd k old data w :
    fds (view w) !! fd = Some (k, length old) -> files (view w) !! k = Some old ->
    match os_write fd data w with
    | (n, w') =>
        (n = -1 /\ view w' = view w) \/
        (exists m, (m <= length data)%nat /\ n = Z.of_nat m /\
           view w' = View (<[k := old ++ take m data]> (files (view w)))
                          (<[fd := (k, (length old + m)%nat)]> (fds (view w))) (streams (view w)))
    end;
  (** Reading a regular file: an error, or as much as asked for and left. *)
  law_read fd k off c n w :
    fds (view w) !! fd = Some (k, off) -> files (view w) !! k = Some c ->
    match os_read fd (Z.of_nat n) w with
    | (r, d, w') =>
        (r = -1 /\ view w' = view w) \/
        (d = take n (drop off c) /\ r = Z.of_nat (length d) /\
         view w' = View (files (view w)) (<[fd := (k, (off + length d)%nat)]> (fds (view w)))
                        (streams (view w)))
    end;
  law_close fd w :
    view (os_close fd w) = View (files (view w)) (delete fd (fds (view w))) (streams (view w));
  law_unlink k p w : entry_path dir k p ->
    match os_unlink p w with
    | (0, w') =>
        is_Some (files (view w) !! k) /\
        view w' = View (delete k (files (view w))) (fds (view w)) (streams (view w))
    | (_, w') => view w' = view w
    end;
  law_opendir w :
    match os_opendir dir w with
    | (Some d, w') =>
        streams (view w) !! d = None /\
        exists l, listing l (files (view w)) /\
          view w' = View (files (view w)) (fds (view w)) (<[d := l]> (streams (view w)))
    | (None, w') => view w' = view w
    end;
  law_readdir d l w : streams (view w) !! d = Some l ->
    match os_readdir d w with
    | (e, w') =>
        e = head l /\
        view w' = View (files (view w)) (fds (view w)) (<[d := tail l]> (streams (view w)))
    end;
  law_closedir d w :
    view (os_closedir d w) = View (files (view w)) (fds (view w)) (delete d (streams (view w)))
}.

(** ** An in-memory implementation *)

Module MemFs.

Record mem : Type := Mem {
  m_view : os_view;
  (** Directory entries that are not regular files. *)
  m_others : list dirent;
  (** Names that cannot be opened or removed; [.] is the directory itself. *)
  m_denied : gset string;
  m_fd_limit : nat;
  (** Bytes left on the device and its block size. *)
  m_avail : Z;
  m_bsize : Z
}.

Definition dir : string := "/store".

Definition with_view (v : os_view) (w : mem) : mem :=
  Mem v (m_others w) (m_denied w) (m_fd_limit w) (m_avail w) (m_bsize w).

(** The entry a path name resolves to. *)
Definition resolve (w : mem) (p : string) : option string :=
  if starts_with (dir +:+ "/") p then
    let k := substr_from p 7 in
    if bool_decide (simple k /\ k ∉ m_denied w) then Some k else None
  else None.

Definition has_fd (w : mem) : bool := (size (fds (m_view w)) <? m_fd_limit w)%nat.

Definition new_fd (w : mem) : Z := fresh (dom (fds (m_view w))).

Definition open_trunc (p : string) (w : mem) : option Z * mem :=
  match resolve w p with
  | Some k =>
      if has_fd w then
        let v := m_view w in
        (Some (new_fd w),
         with_view (View (<[k := []]> (files v)) (<[new_fd w := (k, O)]> (fds v)) (streams v)) w)
      else (None, w)
  | None => (None, w)
  end.

Definition open_rdonly (p : string) (w : mem) : option Z * mem :=
  match resolve w p with
  | Some k =>
      let v := m_view w in
      match files v !! k with
      | Some _ =>
          if has_fd w then
            (Some (new_fd w), with_view (View (files v) (<[new_fd w := (k, O)]> (fds v)) (streams v)) w)
          else (None, w)
      | None => (None, w)
      end
  | None => (None, w)
  end.

(** A write stores what the device has room for. *)
Definition write (fd : Z) (data : list Z) (w : mem) : Z * mem :=
  let v := m_view w in
  match fds v !! fd with
  | Some (k, off) =>
      match files v !! k with
      | Some old =>
          let m := Nat.min (length data) (Z.to_nat (m_avail w)) in
          (Z.of_nat m,
           Mem (View (<[k := take off old ++ take m data ++ drop (off + m) old]> (files v))
                     (<[fd := (k, (off + m)%nat)]> (fds v)) (streams v))
               (m_others w) (m_denied w) (m_fd_limit w) (m_avail w - Z.of_nat m) (m_bsize w))
      | None => (-1, w)
      end
  | None => (-1, w)
  end.

Definition read (fd n : Z) (w : mem) : Z * list Z * mem :=
  let v := m_view w in
  match fds v !! fd with
  | Some (k, off) =>
      match files v !! k with
      | Some c =>
          let d := take (Z.to_nat n) (drop off c) in
          (Z.of_nat (length d), d,
           with_view (View (files v) (<[fd := (k, (off + length d)%nat)]> (fds v)) (streams v)) w)
      | None => (-1, [], w)
      end
  | None => (-1, [], w)
  end.

Definition close (fd : Z) (w : mem) : mem :=
  let v := m_view w in with_view (View (files v) (delete fd (fds v)) (streams v)) w.

Definition unlink (p : string) (w : mem) : Z * mem :=
  match resolve w p with
  | Some k =>
      let v := m_view w in
      match files v !! k with
      | Some _ => (0, with_view (View (delete k (files v)) (fds v) (streams v)) w)
      | None => (-1, w)
      end
  | None => (-1, w)
  end.

Definition statfs (p : string) (w : mem) : option (Z * Z) :=
  Some (m_avail w / m_bsize w, m_bsize w).

(** The regular files first, then the entries of other kinds that no file
    hides. *)
Definition entries (w : mem) : list dirent :=
  ((fun k => Dirent k DT_REG) <$> filter simple (elements (dom (files (m_view w))))) ++
  filter (fun e => d_kind e <> DT_REG /\ d_name e <> EmptyString /\
                   d_name e ∉ dom (files (m_view w))) (m_others w).

Definition opendir (p : string) (w : mem) : option Z * mem :=
  if bool_decide (p = dir /\ ("."%string ∉ m_denied w) /\ NoDup (d_name <$> m_others w)) then
    let v := m_view w in
    let d := fresh (dom (streams v)) in
    (Some d, with_view (View (files v) (fds v) (<[d := entries w]> (streams v))) w)
  else (None, w).

Definition readdir (d : Z) (w : mem) : option dirent * mem :=
  let v := m_view w in
  match streams v !! d with
  | Some l => (head l, with_view (View (files v) (fds v) (<[d := tail l]> (streams v))) w)
  | None => (None, w)
  end.

Definition closedir (d : Z) (w : mem) : mem :=
  let v := m_view w in with_view (View (files v) (fds v) (delete d (streams v))) w.

#[global] Instance mem_posix : Posix mem := {
  os_open_trunc := open_trunc;
  os_open_rdonly := open_rdonly;
  os_write := write;
  os_read := read;
  os_close := close;
  os_unlink := unlink;
  os_statfs := statfs;
  os_opendir := opendir;
  os_readdir := readdir;
  os_closedir := closedir
}.

Lemma resolve_entry w k p :
  entry_path dir k p -> resolve w p = if bool_decide (k ∈ m_denied w) then None else Some k.
Proof.
  intros [Hk [->|[Hd ->]]]; [|done]. unfold resolve.
  change (dir +:+ ("/" +:+ k)) with ((dir +:+ "/") +:+ k).
  rewrite starts_with_refl. change (substr_from _ 7) with k.
  case_bool_decide as H1; case_bool_decide as H2; (done || naive_solver).
Qed.

Lemma new_fd_fresh w : fds (m_view w) !! new_fd w = None.
Proof. unfold new_fd. apply not_elem_of_dom. apply (is_fresh (dom (fds (m_view w)))). Qed.

Lemma entries_listing w : NoDup (d_name <$> m_others w) -> listing (entries w) (files (m_view w)).
Proof.
  intros Hnd. unfold listing, entries. split_and!.
  - rewrite fmap_app. apply NoDup_app. split_and!.
    + rewrite <- list_fmap_compose. unfold compose. simpl. rewrite list_fmap_id.
      apply NoDup_filter, NoDup_elements.
    + intros k Hk Hk'. apply list_elem_of_fmap in Hk as (e & -> & He).
      apply list_elem_of_fmap in He as (k & -> & Hk). apply list_elem_of_filter in Hk as [_ Hk].
      apply list_elem_of_fmap in Hk' as (e & He & Hin). apply list_elem_of_filter in Hin as [(_ & _ & Hn) _].
      apply elem_of_elements in Hk. simpl in He. congruence.
    + by apply NoDup_fmap_filter.
  - intros e He. apply elem_of_app in He as [He|He].
    + apply list_elem_of_fmap in He as (k & -> & Hk). apply list_elem_of_filter in Hk as [[? _] _]. done.
    + by apply list_elem_of_filter in He as [(_ & ? & _) _].
  - intros k. rewrite elem_of_app, list_elem_of_fmap, list_elem_of_filter. split.
    + intros [(k' & [= ->] & Hk)|[(Hr & _) _]]; [|done].
      apply list_elem_of_filter in Hk as [? Hk]. by apply elem_of_elements in Hk.
    + intros [Hs Hk]. left. exists k. split; [done|]. apply list_elem_of_filter.
      split; [done|]. by apply elem_of_elements.
Qed.

#[global] Instance mem_laws : PosixLaws mem dir.
Proof.
  refine {| view := m_view |}.
  - intros k p w Hp. simpl. unfold open_trunc. rewrite (resolve_entry w k p Hp).
    case_bool_decide; [done|]. destruct (has_fd w); [|done].
    split; [apply new_fd_fresh|done].
  - intros k p w Hp. simpl. unfold open_rdonly. rewrite (resolve_entry w k p Hp).
    case_bool_decide; [done|]. destruct (files (m_view w) !! k) eqn:E; [|done].
    destruct (has_fd w); [|done]. split_and!; [done|apply new_fd_fresh|done].
  - intros fd k old data w Hfd Hk. simpl. unfold write. rewrite Hfd, Hk. right.
    eexists. split; [apply Nat.le_min_l|]. split; [done|]. by rewrite take_ge, (drop_ge old), app_nil_r by lia.
  - intros fd k off c n w Hfd Hk. simpl. unfold read. rewrite Hfd, Hk, Nat2Z.id. by right.
  - done.
  - intros k p w Hp. simpl. unfold unlink. rewrite (resolve_entry w k p Hp).
    case_bool_decide; [done|]. by destruct (files (m_view w) !! k) eqn:E.
  - intros w. simpl. unfold opendir. case_bool_decide as H; [|done]. simpl.
    split; [apply not_elem_of_dom, (is_fresh (dom (streams (m_view w))))|]. exists (entries w).
    split; [apply entries_listing; tauto|done].
  - intros d l w Hd. simpl. unfold readdir. by rewrite Hd.
  - done.
Defined.

(** A store directory with the given files and nothing open. *)
Definition disk (fs : gmap string (list Z)) (limit : nat) (avail : Z) : mem :=
  Mem (View fs ∅ ∅) [Dirent "." DT_DIR; Dirent ".." DT_DIR; Dirent "lost+found" DT_DIR]
      ∅ limit avail 4096.

End MemFs.
