(* ===== verification/PosixDirs.v ===== *)
(** * Several directories

    [PosixLaws] says what the calls do to one directory.  A server with several
    stores works on several of them, and relies on the calls for one directory
    not touching another: [PosixApart].  [MultiFs] is an in-memory system with
    any number of directories, whose descriptors and streams are numbered
    together, for which both hold. *)

From S2P Require Import Prelude CppString Posix.
From Stdlib Require Import ZArith Lia Ascii.
From stdpp Require Import base gmap strings fin_maps numbers list.

Local Open Scope Z_scope.

#[local] Arguments String.append : simpl nomatch.

(** What is seen of the directory [d]. *)
Definition view_of {W} `{Posix W} (d : string) `{L : !PosixLaws W d} : W -> os_view := @view W _ d L.
#[global] Arguments view_of {W _} d {L} _.

(** Calls with paths of [d], with its descriptors and with its streams leave
    what is seen of [d'] as it is. *)
Class PosixApart (W : Type) `{Posix W} (d d' : string) `{!PosixLaws W d} `{!PosixLaws W d'} : Prop := {
  apart_open_trunc k p w : entry_path d k p -> view_of d' (os_open_trunc p w).2 = view_of d' w;
  apart_open_rdonly k p w : entry_path d k p -> view_of d' (os_open_rdonly p w).2 = view_of d' w;
  apart_write fd data w :
    is_Some (fds (view_of d w) !! fd) -> view_of d' (os_write fd data w).2 = view_of d' w;
  apart_read fd n w :
    is_Some (fds (view_of d w) !! fd) -> view_of d' (os_read fd n w).2 = view_of d' w;
  apart_close fd w :
    is_Some (fds (view_of d w) !! fd) -> view_of d' (os_close fd w) = view_of d' w;
  apart_unlink k p w : entry_path d k p -> view_of d' (os_unlink p w).2 = view_of d' w;
  apart_opendir w : view_of d' (os_opendir d w).2 = view_of d' w;
  apart_readdir s w :
    is_Some (streams (view_of d w) !! s) -> view_of d' (os_readdir s w).2 = view_of d' w;
  apart_closedir s w :
    is_Some (streams (view_of d w) !! s) -> view_of d' (os_closedir s w) = view_of d' w
}.

(** ** An in-memory implementation *)

Module MultiFs.

(** The files of each directory; each descriptor and each stream with the
    directory it belongs to. *)
Record mfs : Type := MFs {
  f_files : gmap string (gmap string (list Z));
  f_fds : gmap Z (string * (string * nat));
  f_streams : gmap Z (string * list dirent)
}.

(** The entries of a map that belong to [d]. *)
Definition part {A} (d : string) (m : gmap Z (string * A)) : gmap Z A :=
  omap (fun x => if decide (x.1 = d) then Some x.2 else None) m.

Definition dir_view (d : string) (w : mfs) : os_view :=
  View (default ∅ (f_files w !! d)) (part d (f_fds w)) (part d (f_streams w)).

(** The directory and the name of a path: it is split at its last slash. *)
Definition split_path (p : string) : option (string * string) :=
  n ← str_rfind "/" p; Some (substr_to p n, substr_from p (n + 1)).

Definition resolve (w : mfs) (p : string) : option (string * string * gmap string (list Z)) :=
  '(d, k) ← split_path p;
  fs ← f_files w !! d;
  if decide (simple k) then Some (d, k, fs) else None.

Definition new_fd (w : mfs) : Z := fresh (dom (f_fds w)).

Definition open_fd (d k : string) (fs : gmap string (list Z)) (w : mfs) : option Z * mfs :=
  (Some (new_fd w),
   MFs (<[d := fs]> (f_files w)) (<[new_fd w := (d, (k, O))]> (f_fds w)) (f_streams w)).

Definition open_trunc (p : string) (w : mfs) : option Z * mfs :=
  match resolve w p with
  | Some (d, k, fs) => open_fd d k (<[k := []]> fs) w
  | None => (None, w)
  end.

Definition open_rdonly (p : string) (w : mfs) : option Z * mfs :=
  match resolve w p with
  | Some (d, k, fs) => match fs !! k with Some _ => open_fd d k fs w | None => (None, w) end
  | None => (None, w)
  end.

(** The file a descriptor is open on: directory, files, name, offset, bytes. *)
Definition opened_file (fd : Z) (w : mfs) : option (string * gmap string (list Z) * string * nat * list Z) :=
  '(d, (k, off)) ← f_fds w !! fd; fs ← f_files w !! d; c ← fs !! k; Some (d, fs, k, off, c).

Definition write (fd : Z) (data : list Z) (w : mfs) : Z * mfs :=
  match opened_file fd w with
  | Some (d, fs, k, off, old) =>
      (Z.of_nat (length data),
       MFs (<[d := <[k := take off old ++ data ++ drop (off + length data) old]> fs]> (f_files w))
           (<[fd := (d, (k, (off + length data)%nat))]> (f_fds w)) (f_streams w))
  | None => (-1, w)
  end.

Definition read (fd n : Z) (w : mfs) : Z * list Z * mfs :=
  match opened_file fd w with
  | Some (d, fs, k, off, c) =>
      let data := take (Z.to_nat n) (drop off c) in
      (Z.of_nat (length data), data,
       MFs (f_files w) (<[fd := (d, (k, (off + length data)%nat))]> (f_fds w)) (f_streams w))
  | None => (-1, [], w)
  end.

Definition close (fd : Z) (w : mfs) : mfs := MFs (f_files w) (delete fd (f_fds w)) (f_streams w).

Definition unlink (p : string) (w : mfs) : Z * mfs :=
  match resolve w p with
  | Some (d, k, fs) =>
      match fs !! k with
      | Some _ => (0, MFs (<[d := delete k fs]> (f_files w)) (f_fds w) (f_streams w))
      | None => (-1, w)
      end
  | None => (-1, w)
  end.

(** The entries [MemFs] would list. *)
Definition listed (fs : gmap string (list Z)) : list dirent := MemFs.entries (MemFs.disk fs 0 0).

Definition opendir (p : string) (w : mfs) : option Z * mfs :=
  match f_files w !! p with
  | Some fs =>
      let s := fresh (dom (f_streams w)) in
      (Some s, MFs (f_files w) (f_fds w) (<[s := (p, listed fs)]> (f_streams w)))
  | None => (None, w)
  end.

Definition readdir (s : Z) (w : mfs) : option dirent * mfs :=
  match f_streams w !! s with
  | Some (d, l) => (head l, MFs (f_files w) (f_fds w) (<[s := (d, tail l)]> (f_streams w)))
  | None => (None, w)
  end.

Definition closedir (s : Z) (w : mfs) : mfs := MFs (f_files w) (f_fds w) (delete s (f_streams w)).

#[global] Instance mfs_posix : Posix mfs := {
  os_open_trunc := open_trunc;
  os_open_rdonly := open_rdonly;
  os_write := write;
  os_read := read;
  os_close := close;
  os_unlink := unlink;
  os_statfs _ _ := Some (1000, 4096);
  os_opendir := opendir;
  os_readdir := readdir;
  os_closedir := closedir
}.

(** *** The parts of a map *)

Section Parts.
Context {A : Type}.
Implicit Types (m : gmap Z (string * A)) (d : string).

Lemma part_lookup d m i : part d m !! i = m !! i ≫= fun x => if decide (x.1 = d) then Some x.2 else None.
Proof. apply lookup_omap. Qed.

Lemma part_Some d m i x : part d m !! i = Some x -> m !! i = Some (d, x).
Proof.
  rewrite part_lookup. destruct (m !! i) as [[d' y]|]; simpl; [|done]. case_decide; naive_solver.
Qed.

Lemma part_None d m i : m !! i = None -> part d m !! i = None.
Proof. rewrite part_lookup. by intros ->. Qed.

Lemma part_insert d m i x : part d (<[i := (d, x)]> m) = <[i := x]> (part d m).
Proof.
  apply map_eq. intros j. rewrite part_lookup. destruct (decide (j = i)) as [->|Hne].
  - rewrite !lookup_insert_eq. simpl. by rewrite decide_True.
  - by rewrite !lookup_insert_ne, part_lookup by done.
Qed.

Lemma part_delete d m i : part d (delete i m) = delete i (part d m).
Proof.
  apply map_eq. intros j. rewrite part_lookup. destruct (decide (j = i)) as [->|Hne].
  - by rewrite !lookup_delete_eq.
  - by rewrite !lookup_delete_ne, part_lookup by done.
Qed.

(** An entry of another directory. *)
Definition foreign d m i : Prop := part d m !! i = None.

Lemma part_insert_other d d' m i x : d <> d' -> foreign d' m i -> part d' (<[i := (d, x)]> m) = part d' m.
Proof.
  intros Hd Hf. apply map_eq. intros j. rewrite part_lookup. destruct (decide (j = i)) as [->|Hne].
  - rewrite lookup_insert_eq, Hf. simpl. by rewrite decide_False.
  - by rewrite lookup_insert_ne, part_lookup by done.
Qed.

Lemma part_delete_other d' m i : foreign d' m i -> part d' (delete i m) = part d' m.
Proof. intros Hf. rewrite part_delete. by apply delete_id. Qed.

Lemma part_apart d d' m i : d <> d' -> is_Some (part d m !! i) -> foreign d' m i.
Proof.
  intros Hd [x Hx%part_Some]. unfold foreign. rewrite part_lookup, Hx. simpl. by rewrite decide_False.
Qed.

End Parts.

(** *** The laws *)

(** Paths of a directory whose name does not end in a slash. *)
Definition plain (d : string) : Prop := last_char d <> Some slash_char.

Lemma split_path_entry d k p : plain d -> entry_path d k p -> split_path p = Some (d, k).
Proof.
  intros Hd [Hk [->|[? _]]]; [|done]. destruct Hk as (_ & _ & _ & Hs & _). unfold split_path.
  change ("/" +:+ k) with (String slash_char k). change "/"%string with (chr slash_char).
  rewrite rfind_chr_app by done. simpl. unfold substr_to, substr_from.
  rewrite str_take_app. change (String slash_char k) with (chr slash_char +:+ k).
  by rewrite str_drop_app.
Qed.

Lemma path_resolved d k p w : plain d -> entry_path d k p ->
  resolve w p = (fun fs => (d, k, fs)) <$> f_files w !! d.
Proof.
  intros Hd Hp. unfold resolve. rewrite (split_path_entry d k p Hd Hp). simpl.
  destruct (f_files w !! d); [|done]. simpl. by rewrite decide_True by (by destruct Hp).
Qed.

Lemma listed_listing fs : listing (listed fs) fs.
Proof. unfold listed. apply (MemFs.entries_listing (MemFs.disk fs 0 0)). by apply (bool_decide_unpack _). Qed.

Lemma new_fd_unused d w : part d (f_fds w) !! new_fd w = None.
Proof. apply part_None, not_elem_of_dom, (is_fresh (dom (f_fds w))). Qed.

Lemma opened_file_entry d fd w k off c :
  fds (dir_view d w) !! fd = Some (k, off) -> files (dir_view d w) !! k = Some c ->
  exists fs, f_files w !! d = Some fs /\ fs !! k = Some c /\ opened_file fd w = Some (d, fs, k, off, c).
Proof.
  simpl. intros Hfd%part_Some Hk. destruct (f_files w !! d) as [fs|] eqn:Ed; simpl in Hk; [|done].
  exists fs. unfold opened_file. rewrite Hfd. simpl. rewrite Ed. simpl. by rewrite Hk.
Qed.

Definition mfs_laws (d : string) (Hd : plain d) : PosixLaws mfs d.
Proof.
  refine {| view := dir_view d |}.
  - intros k p w Hp. simpl. unfold open_trunc. rewrite (path_resolved d k p w Hd Hp).
    destruct (f_files w !! d) as [fs|] eqn:Ed; simpl; [|done]. split; [apply new_fd_unused|].
    unfold dir_view. simpl. by rewrite lookup_insert_eq, part_insert.
  - intros k p w Hp. simpl. unfold open_rdonly. rewrite (path_resolved d k p w Hd Hp).
    destruct (f_files w !! d) as [fs|] eqn:Ed; simpl; [|done]. destruct (fs !! k) eqn:Ek; [|done].
    simpl. split_and!; [by eexists|apply new_fd_unused|].
    unfold dir_view. simpl. by rewrite lookup_insert_eq, part_insert.
  - intros fd k old data w Hfd Hk. destruct (opened_file_entry d fd w k _ old Hfd Hk) as (fs & Ed & Ek & Ho).
    simpl. unfold write. rewrite Ho. right. exists (length data). split_and!; [done|done|].
    unfold dir_view. simpl. by rewrite lookup_insert_eq, part_insert, Ed, !firstn_all, drop_ge, app_nil_r by lia.
  - intros fd k off c n w Hfd Hk. destruct (opened_file_entry d fd w k off c Hfd Hk) as (fs & Ed & Ek & Ho).
    simpl. unfold read. rewrite Ho, Nat2Z.id. right. split_and!; [done|done|].
    unfold dir_view. simpl. by rewrite part_insert.
  - intros fd w. simpl. unfold dir_view. simpl. by rewrite part_delete.
  - intros k p w Hp. simpl. unfold unlink. rewrite (path_resolved d k p w Hd Hp).
    destruct (f_files w !! d) as [fs|] eqn:Ed; simpl; [|done]. destruct (fs !! k) eqn:Ek; [|done].
    simpl. split; [by eexists|]. unfold dir_view. simpl. by rewrite lookup_insert_eq.
  - intros w. simpl. unfold opendir. destruct (f_files w !! d) as [fs|] eqn:Ed; [|done].
    split; [apply part_None, not_elem_of_dom, (is_fresh (dom (f_streams w)))|]. exists (listed fs).
    split; [apply listed_listing|]. unfold dir_view. simpl. by rewrite part_insert, Ed.
  - intros s l w Hs. simpl in *. apply part_Some in Hs. unfold readdir. rewrite Hs.
    split; [done|]. unfold dir_view. simpl. by rewrite part_insert.
  - intros s w. simpl. unfold dir_view. simpl. by rewrite part_delete.
Defined.

(** A call for [d] seen from [d']. *)
Lemma apart_files d d' w fs fds' streams' :
  d <> d' -> part d' fds' = part d' (f_fds w) -> part d' streams' = part d' (f_streams w) ->
  dir_view d' (MFs (<[d := fs]> (f_files w)) fds' streams') = dir_view d' w.
Proof. intros Hd Hf Hs. unfold dir_view. simpl. by rewrite lookup_insert_ne, Hf, Hs. Qed.

Lemma apart_maps d' w fds' streams' :
  part d' fds' = part d' (f_fds w) -> part d' streams' = part d' (f_streams w) ->
  dir_view d' (MFs (f_files w) fds' streams') = dir_view d' w.
Proof. intros Hf Hs. unfold dir_view. simpl. by rewrite Hf, Hs. Qed.

Lemma opened_file_dir fd d w x : part d (f_fds w) !! fd = Some x ->
  match opened_file fd w with Some (d0, _, _, _, _) => d0 = d | None => True end.
Proof.
  intros Hfd%part_Some. unfold opened_file. rewrite Hfd. destruct x as [k off]. simpl.
  destruct (f_files w !! d) as [fs|]; [|done]. simpl. by destruct (fs !! k).
Qed.

Lemma mfs_apart (d d' : string) (Hd : plain d) (Hd' : plain d') : d <> d' ->
  @PosixApart mfs _ d d' (mfs_laws d Hd) (mfs_laws d' Hd').
Proof.
  intros Hne. split; unfold view_of; simpl.
  - intros k p w Hp. unfold open_trunc. rewrite (path_resolved d k p w Hd Hp).
    destruct (f_files w !! d) as [fs|]; [|done]. simpl.
    apply apart_files; [done| |done]. apply part_insert_other; [done|apply new_fd_unused].
  - intros k p w Hp. unfold open_rdonly. rewrite (path_resolved d k p w Hd Hp).
    destruct (f_files w !! d) as [fs|]; [|done]. simpl. destruct (fs !! k); [|done].
    apply apart_files; [done| |done]. apply part_insert_other; [done|apply new_fd_unused].
  - intros fd data w [x Hx]. pose proof (opened_file_dir fd d w x Hx) as Ho. unfold write.
    destruct (opened_file fd w) as [[[[[d0 fs] k] off] c]|]; [subst d0|done].
    apply apart_files; [done| |done]. apply part_insert_other; [done|]. by eapply part_apart.
  - intros fd n w [x Hx]. pose proof (opened_file_dir fd d w x Hx) as Ho. unfold read.
    destruct (opened_file fd w) as [[[[[d0 fs] k] off] c]|]; [subst d0|done].
    apply apart_maps; [|done]. apply part_insert_other; [done|]. by eapply part_apart.
  - intros fd w Hfd. apply apart_maps; [|done]. apply part_delete_other. by eapply part_apart.
  - intros k p w Hp. unfold unlink. rewrite (path_resolved d k p w Hd Hp).
    destruct (f_files w !! d) as [fs|]; [|done]. simpl. destruct (fs !! k); [|done]. by apply apart_files.
  - intros w. unfold opendir. destruct (f_files w !! d) as [fs|]; [|done].
    apply apart_maps; [done|]. apply part_insert_other; [done|]. apply part_None, not_elem_of_dom, (is_fresh (dom (f_streams w))).
  - intros s w [l Hl]. apply part_Some in Hl as Hs. unfold readdir. rewrite Hs.
    apply apart_maps; [done|]. apply part_insert_other; [done|]. by eapply part_apart.
  - intros s w Hs. apply apart_maps; [done|]. apply part_delete_other. by eapply part_apart.
Qed.

(** Directories with the given files and nothing open. *)
Definition disk (fs : gmap string (gmap string (list Z))) : mfs := MFs fs ∅ ∅.

End MultiFs.
