(* ===== verification/FileBlockStore.v ===== *)
(** * The file-backed block store (src/src/blockstore/fileblockstore.h, .cc)

    [FileBlockStore] keeps one regular file per block, a bloom filter and a
    set of the stored keys, and two 32-bit counters.  Every operation takes
    the object and the state of the operating system ([Posix]) and returns
    both.  A [Future] that is returned with its value already set is that
    value.  [FbsFacts] proves what each operation does to the [view] of the
    directory from [PosixLaws]; [FbsProps] holds the properties. *)

From S2P Require Import Prelude BloomFilter CppString Posix.
From Stdlib Require Import ZArith Lia Ascii.
From stdpp Require Import base gmap strings fin_maps numbers list.

Local Open Scope Z_scope.

#[local] Arguments String.append : simpl nomatch.

Module FileBlockStore.

Record t : Type := Store {
  _dir : option Z;
  _blocksize : Z;
  _path : string;
  _bloomfilter : BloomFilter.t;
  _blockset : gset string;
  _freeBlocks : Z;
  _usedBlocks : Z
}.

Definition with_dir (d : option Z) (this : t) : t :=
  Store d (_blocksize this) (_path this) (_bloomfilter this) (_blockset this)
        (_freeBlocks this) (_usedBlocks this).

Definition with_index (bf : BloomFilter.t) (ks : gset string) (free used : Z) (this : t) : t :=
  Store (_dir this) (_blocksize this) (_path this) bf ks free used.

(** [fullpath[fullpath.size()-1]] is out of range for the empty path. *)
Definition get_fullpath (path key : string) : outcome string :=
  match last_char path with
  | None => Fault OutOfBounds
  | Some c =>
      let fullpath := if bool_decide (c = slash_char) then path else path +:+ "/" in
      Ok (fullpath +:+ key)
  end.

(** [entry->d_name[0] == '.' || entry->d_type != DT_REG]; the name of an
    empty entry would start with its terminator. *)
Definition skipped (e : dirent) : bool :=
  match d_name e with
  | String c _ => bool_decide (c = "."%char)
  | EmptyString => false
  end || negb (bool_decide (d_kind e = DT_REG)).

Section Operations.
Context {W : Type} `{Posix W}.

(** The loop of [regenerateBloomFilterAndBlockSet] over the directory
    stream [d]. *)
Fixpoint regenerate_loop (fuel : nat) (d : Z) (this : t) (w : W) : outcome (t * W) :=
  match fuel with
  | O => Fault OutOfFuel
  | S fuel =>
      match os_readdir d w with
      | (None, w) => Ok (this, w)
      | (Some entry, w) =>
          if skipped entry then regenerate_loop fuel d this w
          else
            bf ← BloomFilter.set (_bloomfilter this) (d_name entry);
            regenerate_loop fuel d
              (with_index bf ({[d_name entry]} ∪ _blockset this) (_freeBlocks this)
                          (to_u32 (_usedBlocks this + 1)) this) w
      end
  end.

(** [(fs.f_bavail*fs.f_bsize) / _blocksize] is computed on 64-bit unsigned
    numbers and stored in 32 bits. *)
Definition free_blocks (blocksize : Z) (fs : option (Z * Z)) : outcome Z :=
  match fs with
  | Some (f_bavail, f_bsize) =>
      if blocksize =? 0 then Fault DivByZero
      else Ok (to_u32 (to_u64 (f_bavail * f_bsize) / to_u64 blocksize))
  | None => Ok 0
  end.

Definition regenerateBloomFilterAndBlockSet (fuel : nat) (this : t) (w : W) : outcome (t * W) :=
  bf ← BloomFilter.reset (_bloomfilter this) BloomFilter.default_size 0;
  free ← free_blocks (_blocksize this) (os_statfs (c_str (_path this)) w);
  let this := with_index bf ∅ free 0 this in
  match os_opendir (c_str (_path this)) w with
  | (None, w) => Ok (this, w)
  | (Some d, w) =>
      '(this, w) ← regenerate_loop fuel d this w;
      Ok (this, os_closedir d w)
  end.

(** The constructor; the counters have no value before the directory has
    been read, and are not read before. *)
Definition ctor (fuel : nat) (path : string) (blocksize : Z) (w : W) : outcome (t * W) :=
  bf ← BloomFilter.ctor;
  regenerateBloomFilterAndBlockSet fuel (Store None blocksize path bf ∅ 0 0) w.

Definition dtor (this : t) (w : W) : t * W :=
  match _dir this with
  | Some d => (with_dir None this, os_closedir d w)
  | None => (this, w)
  end.

(** [data] is the contents of the buffer; [pulldown] does not consume it. *)
Definition putBlock (key : string) (data : list Z) (this : t) (w : W) : outcome (bool * t * W) :=
  if _freeBlocks this <=? 0 then Ok (false, this, w)
  else
    p ← get_fullpath (_path this) key;
    match os_open_trunc (c_str p) w with
    | (None, w) => Ok (false, this, w)
    | (Some fd, w) =>
        if Z.of_nat (length data) >? to_u64 (_blocksize this) then Ok (false, this, w)
        else
          let '(n, w) := os_write fd data w in
          if negb (n =? _blocksize this) then Ok (false, this, w)
          else
            let w := os_close fd w in
            bf ← BloomFilter.set (_bloomfilter this) key;
            Ok (true,
                with_index bf ({[key]} ∪ _blockset this) (to_u32 (_freeBlocks this - 1))
                           (to_u32 (_usedBlocks this + 1)) this, w)
    end.

Definition getBlock (key : string) (this : t) (w : W) : outcome (option (list Z) * W) :=
  p ← get_fullpath (_path this) key;
  match os_open_rdonly (c_str p) w with
  | (None, w) => Ok (None, w)
  | (Some fd, w) =>
      if _blocksize this <? 0 then Fault BadAlloc
      else
        let '(r, data, w) := os_read fd (_blocksize this) w in
        let w := os_close fd w in
        if r <=? 0 then Ok (None, w)
        else Ok (Some (take (Z.to_nat r) data), w)
  end.

Definition removeBlock (fuel : nat) (key : string) (this : t) (w : W) : outcome (bool * t * W) :=
  p ← get_fullpath (_path this) key;
  match os_unlink (c_str p) w with
  | (0, w) =>
      '(this, w) ← regenerateBloomFilterAndBlockSet fuel this w;
      Ok (true, this, w)
  | (_, w) => Ok (false, this, w)
  end.

Fixpoint next_loop (fuel : nat) (d : Z) (w : W) : outcome (option string * W) :=
  match fuel with
  | O => Fault OutOfFuel
  | S fuel =>
      match os_readdir d w with
      | (None, w) => Ok (None, w)
      | (Some entry, w) =>
          if skipped entry then next_loop fuel d w else Ok (Some (d_name entry), w)
      end
  end.

(** [readdir(NULL)] is undefined: [next] does not check [opendir]. *)
Definition next (fuel : nat) (this : t) (w : W) : outcome (string * t * W) :=
  let '(dir, w) :=
    match _dir this with
    | Some d => (Some d, w)
    | None => os_opendir (c_str (_path this)) w
    end in
  d ← deref dir;
  '(name, w) ← next_loop fuel d w;
  match name with
  | Some name => Ok (name, with_dir (Some d) this, w)
  | None => Ok (EmptyString, with_dir None this, os_closedir d w)
  end.

(** [n] calls of [next], one after the other. *)
Fixpoint next_calls (fuel n : nat) (this : t) (w : W) : outcome (list string * t * W) :=
  match n with
  | O => Ok ([], this, w)
  | S n =>
      '(name, this, w) ← next fuel this w;
      '(names, this, w) ← next_calls fuel n this w;
      Ok (name :: names, this, w)
  end.

End Operations.

(** The accessors; [bloomfilter] hands out a copy. *)
Definition blockSize (this : t) : Z := to_u64 (_blocksize this).
Definition numFreeBlocks (this : t) : Z := to_u64 (_freeBlocks this).
Definition numTotalBlocks (this : t) : Z :=
  to_u64 (to_u32 (_usedBlocks this + _freeBlocks this)).
Definition bloomfilter (this : t) : outcome BloomFilter.t :=
  BloomFilter.copy_ctor (_bloomfilter this).

End FileBlockStore.

(** ** What the operations do to the directory *)

Module FbsFacts.
Import FileBlockStore BloomFacts.

(** Names the directory scans do not skip. *)
Definition hidden (k : string) : Prop :=
  match k with String c _ => c = "."%char | EmptyString => False end.

#[global] Instance hidden_dec k : Decision (hidden k).
Proof. destruct k; simpl; apply _. Defined.

(** The blocks a scan of the directory finds. *)
Definition visible (fs : gmap string (list Z)) : gset string :=
  filter (fun k => simple k /\ ~ hidden k) (dom fs).

Lemma skipped_iff e :
  skipped e = false <-> d_kind e = DT_REG /\ ~ hidden (d_name e).
Proof.
  unfold skipped. rewrite orb_false_iff, negb_false_iff, bool_decide_eq_true.
  destruct (d_name e) as [|c s]; simpl; [tauto|]. rewrite bool_decide_eq_false. tauto.
Qed.

Definition scanned (l : list dirent) : list string :=
  d_name <$> filter (fun e => skipped e = false) l.

Lemma scanned_cons e l :
  scanned (e :: l) = if skipped e then scanned l else d_name e :: scanned l.
Proof.
  unfold scanned. rewrite filter_cons. by destruct (skipped e) eqn:E;
    [rewrite decide_False by done|rewrite decide_True by done].
Qed.

Lemma scanned_listing l fs :
  listing l fs -> NoDup (scanned l) /\ list_to_set (scanned l) = visible fs.
Proof.
  intros (Hnd & _ & Hreg). split; [by apply NoDup_fmap_filter|].
  apply set_eq. intros k. unfold visible, scanned.
  rewrite elem_of_list_to_set, list_elem_of_fmap, elem_of_filter.
  split.
  - intros (e & -> & He). apply list_elem_of_filter in He as [Hs He].
    apply skipped_iff in Hs as [Hk Hh]. destruct e as [k kind]; simpl in *; subst.
    apply Hreg in He. tauto.
  - intros [[Hs Hh] Hd]. exists (Dirent k DT_REG). split; [done|].
    apply list_elem_of_filter. split; [by apply skipped_iff|]. by apply Hreg.
Qed.

Lemma visible_size l fs : listing l fs -> length (scanned l) = size (visible fs).
Proof.
  intros [Hnd <-]%scanned_listing. by rewrite size_list_to_set.
Qed.

(** *** The block size never changes *)

Section BlockSize.
Context {W : Type} `{Posix W}.

Lemma regenerate_loop_blocksize fuel d this w this' w' :
  regenerate_loop fuel d this w = Ok (this', w') -> _blocksize this' = _blocksize this.
Proof.
  revert this w. induction fuel as [|fuel IH]; intros this w; simpl; [done|].
  destruct (os_readdir d w) as [[e|] w1]; [|intros ?; by inv_ok].
  destruct (skipped e); [apply IH|]. intros Hrun. inv_ok. apply IH in Hrun. done.
Qed.

Lemma remove_blocksize key this w b this' w' :
  ends (fun fuel => removeBlock fuel key this w) (b, this', w') -> _blocksize this' = _blocksize this.
Proof.
  intros [n Hn]. specialize (Hn n (le_n n)). unfold removeBlock in Hn. inv_ok.
  destruct (os_unlink _ w) as [[] w1]; [|inv_ok; done..]. inv_ok.
  destruct a0 as [t1 w2]. inv_ok. unfold regenerateBloomFilterAndBlockSet in *. inv_ok.
  destruct (os_opendir _ w1) as [[d|] w3]; [|by inv_ok]. inv_ok. destruct a2. inv_ok.
  match goal with Hl : regenerate_loop _ _ _ _ = _ |- _ => apply regenerate_loop_blocksize in Hl; done end.
Qed.

Lemma next_blocksize this w s this' w' :
  ends (fun fuel => next fuel this w) (s, this', w') -> _blocksize this' = _blocksize this.
Proof.
  intros [n Hn]. specialize (Hn n (le_n n)). unfold next in Hn.
  destruct (match _dir this with Some _ => _ | None => _ end) as [d w1]. inv_ok.
  destruct a0 as [[name|] w2]; by inv_ok.
Qed.

End BlockSize.

Section Facts.
Context {W : Type} `{Posix W} (dir : string) `{!PosixLaws W dir}.

(** Paths the constructor can be given. *)
Definition dir_ok : Prop := lacks NUL dir /\ is_Some (last_char dir).
Context (Hdir : dir_ok).

Lemma fullpath_entry k :
  simple k -> exists p, get_fullpath dir k = Ok p /\ c_str p = p /\ entry_path dir k p.
Proof using Hdir.
  intros Hk. destruct Hdir as [Hnul [c Hc]]. unfold get_fullpath. rewrite Hc.
  destruct Hk as (H1 & H2 & H3 & H4 & H5).
  case_bool_decide as Hs; eexists; (split; [done|]).
  - split.
    + apply c_str_id, lacks_app. done.
    + split; [done|]. right. by subst.
  - split.
    + apply c_str_id. rewrite !lacks_app. by split_and!.
    + split; [done|]. left. apply app_assoc_str.
Qed.

Lemma dir_c_str : c_str dir = dir.
Proof using Hdir. apply c_str_id, Hdir. Qed.

(** *** Scans *)

Lemma regenerate_loop_spec l : forall fuel d this w,
  streams (view w) !! d = Some l -> filter_of (_bloomfilter this) (_blockset this) ->
  (length l < fuel)%nat ->
  exists bf w', filter_of bf (list_to_set (scanned l) ∪ _blockset this) /\
    view w' = View (files (view w)) (fds (view w)) (<[d := []]> (streams (view w))) /\
    regenerate_loop fuel d this w =
    Ok (with_index bf (list_to_set (scanned l) ∪ _blockset this) (_freeBlocks this)
         (foldl (fun n _ => to_u32 (n + 1)) (_usedBlocks this) (scanned l)) this, w').
Proof.
  induction l as [|e l IH]; intros [|fuel] d this w Hd Hbf Hf; simpl in Hf; try lia.
  - pose proof (law_readdir d _ w Hd) as Hr. cbn [regenerate_loop].
    destruct (os_readdir d w) as [e w'], Hr as [-> Hv]. exists (_bloomfilter this), w'.
    assert (list_to_set (scanned []) ∪ _blockset this = _blockset this) as Hu by set_solver.
    rewrite Hu. split_and!; [done|done|]. by destruct this.
  - pose proof (law_readdir d _ w Hd) as Hr. cbn [regenerate_loop].
    destruct (os_readdir d w) as [e' w1], Hr as [-> Hv]. cbn [head].
    assert (streams (view w1) !! d = Some l) as Hd1 by (rewrite Hv; apply lookup_insert_eq).
    rewrite scanned_cons. destruct (skipped e).
    + destruct (IH fuel d this w1 Hd1 Hbf ltac:(lia)) as (bf & w' & Hbf' & Hv' & Hrun).
      exists bf, w'. split_and!; [done| |done]. rewrite Hv', Hv. simpl. by rewrite insert_insert_eq.
    + destruct (filter_of_set _ _ (d_name e) Hbf) as (bf1 & Hset & Hbf1). rewrite Hset. simpl.
      set (this1 := with_index bf1 _ _ _ this).
      destruct (IH fuel d this1 w1 Hd1 Hbf1 ltac:(lia)) as (bf & w' & Hbf' & Hv' & Hrun).
      exists bf, w'. rewrite Hrun. simpl.
      assert (list_to_set (scanned l) ∪ ({[d_name e]} ∪ _blockset this) =
              ({[d_name e]} ∪ list_to_set (scanned l)) ∪ _blockset this) as Hu by set_solver.
      simpl in Hbf'. rewrite Hu in *. split_and!; [done| |done].
      rewrite Hv', Hv. simpl. by rewrite insert_insert_eq.
Qed.

(** More fuel than entries changes nothing. *)
Lemma regenerate_loop_fuel l : forall fuel fuel' d this w,
  streams (view w) !! d = Some l -> (length l < fuel)%nat -> (length l < fuel')%nat ->
  regenerate_loop fuel d this w = regenerate_loop fuel' d this w.
Proof.
  induction l as [|e l IH]; intros [|fuel] [|fuel'] d this w Hd Hf Hf'; simpl in *; try lia;
    pose proof (law_readdir d _ w Hd) as Hr; destruct (os_readdir d w) as [e' w1], Hr as [-> Hv].
  - done.
  - assert (streams (view w1) !! d = Some l) as Hd1 by (rewrite Hv; apply lookup_insert_eq).
    simpl. destruct (skipped e); [by apply IH; [|lia..]|].
    destruct (BloomFilter.set _ _); simpl; [|done]. by apply IH; [|lia..].
Qed.

Lemma count_u32 {A} (l : list A) n :
  is_u32 n -> foldl (fun n _ => to_u32 (n + 1)) n l = to_u32 (n + Z.of_nat (length l)).
Proof.
  revert n. induction l as [|x l IH]; intros n Hn; simpl.
  - rewrite Z.add_0_r. by rewrite to_u32_id.
  - rewrite IH by apply to_u32_range. unfold to_u32.
    rewrite Zplus_mod_idemp_l. f_equal. lia.
Qed.

(** Well-formed objects in a state of the system. *)
Record store_wf (this : t) (w : W) : Prop := {
  wf_path : _path this = dir;
  wf_blocksize : 0 < _blocksize this <= INT_MAX;
  wf_filter : filter_of (_bloomfilter this) (_blockset this);
  wf_blockset : _blockset this ⊆ dom (files (view w));
  wf_free : is_u32 (_freeBlocks this);
  wf_used : is_u32 (_usedBlocks this);
  wf_dir : forall d, _dir this = Some d -> is_Some (streams (view w) !! d)
}.

Lemma free_blocks_ok bs fs :
  0 < bs -> exists n, free_blocks bs fs = Ok n /\ is_u32 n.
Proof.
  intros Hbs. unfold free_blocks. destruct fs as [[a b]|].
  - rewrite (proj2 (Z.eqb_neq _ _)) by lia. eauto with cint.
  - exists 0. split; [done|]. unfold is_u32. lia.
Qed.

(** The index after a scan: everything visible, or nothing when the
    directory cannot be opened. *)
Definition scan_result (fs : gmap string (list Z)) (opened : bool) : gset string :=
  if opened then visible fs else ∅.

Definition opened (w : W) : bool := bool_decide (is_Some (os_opendir dir w).1).

Lemma regenerate_spec this w :
  _path this = dir -> 0 < _blocksize this ->
  exists bf w' free,
    free_blocks (_blocksize this) (os_statfs dir w) = Ok free /\ is_u32 free /\
    filter_of bf (scan_result (files (view w)) (opened w)) /\ view w' = view w /\
    ends (fun fuel => regenerateBloomFilterAndBlockSet fuel this w)
      (with_index bf (scan_result (files (view w)) (opened w)) free
         (to_u32 (Z.of_nat (size (scan_result (files (view w)) (opened w))))) this, w').
Proof using Hdir.
  intros Hp Hbs. unfold regenerateBloomFilterAndBlockSet. rewrite Hp, dir_c_str.
  destruct (filter_of_reset (_bloomfilter this)) as (bf0 & Hreset & Hbf0).
  destruct (free_blocks_ok (_blocksize this) (os_statfs dir w) Hbs) as (free & Hfree & Hu).
  rewrite Hreset, Hfree. cbn [mbind outcome_bind]. unfold with_index at 1. cbn [_path].
  rewrite Hp, dir_c_str. unfold opened.
  pose proof (law_opendir w) as Ho. destruct (os_opendir dir w) as [[d|] w1].
  - destruct Ho as [Hnone (l & Hl & Hv)].
    destruct (scanned_listing l _ Hl) as [Hnd Hset].
    assert (streams (view w1) !! d = Some l) as Hd by (rewrite Hv; apply lookup_insert_eq).
    set (this0 := with_index bf0 ∅ free 0 this).
    destruct (regenerate_loop_spec l (S (length l)) d this0 w1 Hd Hbf0 ltac:(lia))
      as (bf & w2 & Hbf & Hv2 & Hrun).
    exists bf, (os_closedir d w2), free.
    subst this0. cbn [with_index _blockset _freeBlocks _usedBlocks] in *. unfold scan_result. cbn match.
    rewrite union_empty_r_L, Hset in *. split_and!; try done.
    + rewrite law_closedir, Hv2, Hv. simpl. rewrite insert_insert_eq.
      rewrite delete_insert_id by done. by destruct (view w).
    + exists (S (length l)). intros fuel Hle.
      rewrite (regenerate_loop_fuel l fuel (S (length l))), Hrun by (done || lia). simpl.
      rewrite count_u32 by (unfold is_u32; lia). by rewrite (visible_size l _ Hl).
  - exists bf0, w1, free. split_and!; try done. apply ends_ok.
Qed.

(** *** Storing a block *)

(** How [putBlock] can end: refused before the directory is touched; stored;
    or given up with a truncated or partial file and a descriptor that
    nobody closes. *)
Inductive put_result (key : string) (data : list Z) (this : t) (w : W) :
    bool -> t -> os_view -> Prop :=
  | put_refused :
      _freeBlocks this = 0 \/ (exists p, entry_path dir key p /\ (os_open_trunc p w).1 = None) ->
      put_result key data this w false this (view w)
  | put_stored bf :
      0 < _freeBlocks this -> Z.of_nat (length data) = _blocksize this ->
      filter_of bf ({[key]} ∪ _blockset this) ->
      put_result key data this w true
        (with_index bf ({[key]} ∪ _blockset this) (_freeBlocks this - 1)
                    (to_u32 (_usedBlocks this + 1)) this)
        (View (<[key := data]> (files (view w))) (fds (view w)) (streams (view w)))
  | put_abandoned fd m :
      0 < _freeBlocks this -> (m <= length data)%nat -> Z.of_nat m <> _blocksize this ->
      (_blocksize this < Z.of_nat (length data) -> m = O) ->
      fds (view w) !! fd = None ->
      put_result key data this w false this
        (View (<[key := take m data]> (files (view w))) (<[fd := (key, m)]> (fds (view w)))
              (streams (view w))).

Lemma put_cases key data this w :
  store_wf this w -> simple key ->
  exists b this' w', putBlock key data this w = Ok (b, this', w') /\
    put_result key data this w b this' (view w').
Proof using Hdir.
  intros [Hp Hbs Hbf _ Hfree _ _] Hk. unfold putBlock, is_u32 in *. rewrite Hp.
  destruct (Z.leb_spec (_freeBlocks this) 0).
  { do 3 eexists. split; [done|]. apply put_refused. left. lia. }
  destruct (fullpath_entry key Hk) as (p & -> & Hcs & He). cbn [mbind outcome_bind]. rewrite Hcs.
  pose proof (law_open_trunc key p w He) as Ho.
  destruct (os_open_trunc p w) as [[fd|] w1] eqn:Eo.
  2: { do 3 eexists. split; [done|]. rewrite Ho. apply put_refused. right. exists p. by rewrite Eo. }
  destruct Ho as [Hfd Hv1]. rewrite Z.gtb_ltb, (to_u64_id (_blocksize this)) by (unfold is_u64, INT_MAX in *; lia). destruct (Z.ltb_spec (_blocksize this) (Z.of_nat (length data))).
  { do 3 eexists. split; [done|]. rewrite Hv1. apply (put_abandoned _ _ _ _ fd 0); (done || lia). }
  pose proof (law_write fd key [] data w1) as Hw. rewrite Hv1 in Hw. cbn [files fds] in Hw.
  specialize (Hw (lookup_insert_eq _ _ _) (lookup_insert_eq _ _ _)).
  destruct (os_write fd data w1) as [n w2].
  destruct (Z.eqb_spec n (_blocksize this)) as [->|Hne]; cbn [negb].
  - destruct Hw as [[? _]|(m & Hm & Hmn & Hv2)]; [lia|].
    destruct (filter_of_set _ _ key Hbf) as (bf & -> & Hbf'). cbn [mbind outcome_bind].
    do 3 eexists. split; [done|]. rewrite law_close, Hv2. simpl.
    rewrite !insert_insert_eq, delete_insert_id by done.
    rewrite take_ge by lia. rewrite (to_u32_id (_freeBlocks this - 1)) by (unfold is_u32; lia).
    apply put_stored; (done || lia).
  - do 3 eexists. split; [done|]. destruct Hw as [[-> Hv2]|(m & Hm & -> & Hv2)]; rewrite Hv2.
    + apply (put_abandoned _ _ _ _ fd 0); (done || lia).
    + simpl. rewrite !insert_insert_eq. apply put_abandoned; (done || lia).
Qed.

Lemma put_result_wf key data this w w' b this' :
  store_wf this w -> put_result key data this w b this' (view w') -> store_wf this' w'.
Proof.
  intros [Hp Hbs Hbf Hsub Hfree Hused Hd] Hr. unfold is_u32 in *.
  inversion Hr as [? E1 E2 Hv|bf Hpos Hlen Hbf' E1 E2 Hv|fd m Hpos Hm Hne Hbig Hfd E1 E2 Hv]; subst;
    split; simpl; rewrite <- ?Hv; simpl; try done; try set_solver;
    try (unfold is_u32; lia).
  apply to_u32_range.
Qed.

(** *** Reading a block *)

(** The system lets the file of [key] be opened and read. *)
Definition readable (key : string) (this : t) (w : W) : bool :=
  match get_fullpath dir key with
  | Ok p =>
      match os_open_rdonly (c_str p) w with
      | (Some fd, w1) => negb ((os_read fd (_blocksize this) w1).1.1 =? -1)
      | (None, _) => false
      end
  | Fault _ => false
  end.

(** A non-empty file, cut to the block size. *)
Definition block_of (this : t) (c : option (list Z)) : option (list Z) :=
  match c with
  | Some (b :: c) => Some (take (Z.to_nat (_blocksize this)) (b :: c))
  | _ => None
  end.

(** [getBlock] leaves the directory and the descriptors as they were. *)
Lemma get_cases key this w :
  store_wf this w -> simple key ->
  exists r w', getBlock key this w = Ok (r, w') /\ view w' = view w /\
    r = if readable key this w then block_of this (files (view w) !! key) else None.
Proof using Hdir.
  intros [Hp Hbs _ _ _ _ _] Hk. unfold getBlock, readable. rewrite Hp.
  destruct (fullpath_entry key Hk) as (p & Hfp & Hcs & He).
  rewrite Hfp. cbn [mbind outcome_bind]. rewrite Hcs.
  pose proof (law_open_rdonly key p w He) as Ho.
  destruct (os_open_rdonly p w) as [[fd|] w1].
  2: { by exists None, w1. }
  destruct Ho as ([c Hc] & Hfd & Hv1). rewrite (proj2 (Z.ltb_ge (_blocksize this) 0)) by lia.
  pose proof (law_read fd key O c (Z.to_nat (_blocksize this)) w1) as Hr.
  rewrite Hv1 in Hr. cbn [files fds] in Hr. specialize (Hr (lookup_insert_eq _ _ _) Hc).
  rewrite Z2Nat.id in Hr by lia. destruct (os_read fd (_blocksize this) w1) as [[r d] w2].
  cbn [fst]. destruct Hr as [[-> Hv2]|(-> & -> & Hv2)].
  - exists None, (os_close fd w2). split_and!; [done| |done].
    rewrite law_close, Hv2. simpl. rewrite delete_insert_id by done. by destruct (view w).
  - rewrite (proj2 (Z.eqb_neq _ (-1))) by lia. rewrite drop_0. eexists _, (os_close fd w2).
    split_and!.
    + rewrite Nat2Z.id, firstn_all. destruct (Z.leb_spec (Z.of_nat (length (take (Z.to_nat (_blocksize this)) c))) 0) as [Hle|Hgt].
      * assert (block_of this (files (view w) !! key) = None) as <-; [|done].
        rewrite Hc. destruct c as [|b c]; [done|]. rewrite length_take in Hle. simpl in Hle. lia.
      * assert (block_of this (files (view w) !! key) = Some (take (Z.to_nat (_blocksize this)) c)) as <-; [|done].
        rewrite Hc. destruct c as [|b c]; [|done]. rewrite take_nil in Hgt. simpl in Hgt. lia.
    + rewrite law_close, Hv2. simpl. rewrite insert_insert_eq, delete_insert_id by done.
      by destruct (view w).
    + done.
Qed.

(** *** Removing a block *)

Lemma regenerate_wf this w bf w' free :
  _path this = dir -> 0 < _blocksize this <= INT_MAX -> is_u32 free ->
  filter_of bf (scan_result (files (view w')) (opened w)) ->
  (forall d, _dir this = Some d -> is_Some (streams (view w') !! d)) ->
  store_wf (with_index bf (scan_result (files (view w')) (opened w)) free
    (to_u32 (Z.of_nat (size (scan_result (files (view w')) (opened w))))) this) w'.
Proof.
  intros Hp Hbs Hf Hbf Hd. split; simpl; auto with cint.
  unfold scan_result, visible. destruct (opened w); set_solver.
Qed.

(** The index [removeBlock] leaves behind is a fresh scan. *)
Lemma remove_cases key this w :
  store_wf this w -> simple key ->
  exists b this' w', ends (fun fuel => removeBlock fuel key this w) (b, this', w') /\
    store_wf this' w' /\
    if b : bool then
      is_Some (files (view w) !! key) /\
      view w' = View (delete key (files (view w))) (fds (view w)) (streams (view w)) /\
      (_blockset this' = visible (delete key (files (view w))) \/ _blockset this' = ∅) /\
      _usedBlocks this' = to_u32 (Z.of_nat (size (_blockset this'))) /\ _dir this' = _dir this
    else this' = this /\ view w' = view w.
Proof using Hdir.
  intros Hwf Hk. pose proof Hwf as [Hp Hbs _ _ _ _ Hd]. unfold removeBlock. rewrite Hp.
  destruct (fullpath_entry key Hk) as (p & -> & Hcs & He). cbn [mbind outcome_bind]. rewrite Hcs.
  pose proof (law_unlink key p w He) as Hu. destruct (os_unlink p w) as [z w1].
  assert (view w1 = view w -> store_wf this w1) as Hsame.
  { intros Hv. destruct Hwf. split; rewrite ?Hv; done. }
  destruct z as [|z|z]; [|exists false, this, w1; split_and!; auto using ends_ok..].
  destruct Hu as [Hin Hv].
  destruct (regenerate_spec this w1 Hp ltac:(lia)) as (bf & w2 & free & Hf & Hu32 & Hbf & Hv2 & Hrun).
  rewrite <- Hv2 in Hbf, Hrun.
  eexists true, _, w2. split_and!.
  - eapply (ends_bind _ _ _ _ Hrun), ends_ok.
  - apply (regenerate_wf _ w1); try done. intros d Hd'. rewrite Hv2, Hv. by apply Hd.
  - done.
  - by rewrite Hv2.
  - simpl. rewrite Hv2, Hv. unfold scan_result. destruct (opened w1); auto.
  - done.
  - done.
Qed.

(** *** Iterating over the blocks *)

Lemma next_loop_spec l : forall fuel d w,
  streams (view w) !! d = Some l -> (length l < fuel)%nat ->
  exists l' w', next_loop fuel d w = Ok (head (scanned l), w') /\
    view w' = View (files (view w)) (fds (view w)) (<[d := l']> (streams (view w))) /\
    scanned l' = tail (scanned l) /\ (length l' <= length l)%nat.
Proof.
  induction l as [|e l IH]; intros [|fuel] d w Hd Hf; simpl in Hf; try lia; cbn [next_loop];
    pose proof (law_readdir d _ w Hd) as Hr; destruct (os_readdir d w) as [e' w1], Hr as [-> Hv];
    cbn [head].
  - exists [], w1. by split_and!.
  - assert (streams (view w1) !! d = Some l) as Hd1 by (rewrite Hv; apply lookup_insert_eq).
    rewrite scanned_cons. destruct (skipped e).
    + destruct (IH fuel d w1 Hd1 ltac:(lia)) as (l' & w' & Hrun & Hv' & Hs & Hl).
      exists l', w'. split_and!; [done| |done|simpl; lia].
      rewrite Hv', Hv. simpl. by rewrite insert_insert_eq.
    + exists l, w1. split_and!; [done|done|done|simpl; lia].
Qed.

Lemma next_loop_fuel l : forall fuel fuel' d w,
  streams (view w) !! d = Some l -> (length l < fuel)%nat -> (length l < fuel')%nat ->
  next_loop fuel d w = next_loop fuel' d w.
Proof.
  induction l as [|e l IH]; intros [|fuel] [|fuel'] d w Hd Hf Hf'; simpl in *; try lia;
    pose proof (law_readdir d _ w Hd) as Hr; destruct (os_readdir d w) as [e' w1], Hr as [-> Hv];
    simpl; [done|].
  destruct (skipped e); [|done]. apply IH; [|lia..]. rewrite Hv. apply lookup_insert_eq.
Qed.

(** One call in the middle of an iteration. *)
Lemma next_spec this w d l :
  _dir this = Some d -> streams (view w) !! d = Some l ->
  exists w', match scanned l with
  | k :: _ => exists l',
      (forall fuel, (length l < fuel)%nat -> next fuel this w = Ok (k, this, w')) /\
      view w' = View (files (view w)) (fds (view w)) (<[d := l']> (streams (view w))) /\
      scanned l' = tail (scanned l) /\ (length l' <= length l)%nat
  | [] =>
      (forall fuel, (length l < fuel)%nat ->
         next fuel this w = Ok (EmptyString, with_dir None this, w')) /\
      view w' = View (files (view w)) (fds (view w)) (delete d (streams (view w)))
  end.
Proof.
  intros Hdr Hl. unfold next. rewrite Hdr. cbn [deref mbind outcome_bind].
  destruct (next_loop_spec l (S (length l)) d w Hl ltac:(lia)) as (l' & w1 & Hrun & Hv & Hs & Hlen).
  assert (forall fuel, (length l < fuel)%nat -> next_loop fuel d w = Ok (head (scanned l), w1)) as Hall.
  { intros fuel Hf. rewrite <- Hrun. apply (next_loop_fuel l); (done || lia). }
  destruct (scanned l) as [|k ks]; cbn [head] in Hall.
  - exists (os_closedir d w1). split; [intros fuel Hf; by rewrite Hall|].
    rewrite law_closedir, Hv. simpl. by rewrite delete_insert_eq.
  - exists w1, l'. split_and!; try done. intros fuel Hf. rewrite Hall by done.
    cbn [mbind outcome_bind]. unfold with_dir. rewrite <- Hdr. by destruct this.
Qed.

Lemma next_calls_spec ks : forall this w d l,
  _dir this = Some d -> streams (view w) !! d = Some l -> scanned l = ks ->
  exists w', (forall fuel, (length l < fuel)%nat -> next_calls fuel (S (length ks)) this w =
               Ok (ks ++ [EmptyString], with_dir None this, w')) /\
    view w' = View (files (view w)) (fds (view w)) (delete d (streams (view w))).
Proof.
  induction ks as [|k ks IH]; intros this w d l Hdr Hl Hs;
    destruct (next_spec this w d l Hdr Hl) as [w1 Hn]; rewrite Hs in Hn.
  - destruct Hn as [Hrun Hv]. exists w1. split; [|done]. intros fuel Hf.
    cbn [next_calls length]. by rewrite Hrun.
  - destruct Hn as (l' & Hrun & Hv & Hs' & Hlen). cbn [tail] in Hs'.
    destruct (IH this w1 d l' Hdr) as (w' & Hrest & Hv'); [|done|].
    { rewrite Hv. apply lookup_insert_eq. }
    exists w'. split.
    + intros fuel Hf. specialize (Hrest fuel ltac:(lia)).
      cbn [length next_calls] in *. rewrite Hrun by done. cbn [mbind outcome_bind].
      by rewrite Hrest.
    + rewrite Hv', Hv. simpl. by rewrite delete_insert_eq.
Qed.

(** The first call opens the directory and behaves like the following ones. *)
Lemma next_opens fuel this w d w1 :
  _path this = dir -> _dir this = None -> os_opendir dir w = (Some d, w1) ->
  next fuel this w = next fuel (with_dir (Some d) this) w1.
Proof using Hdir.
  intros Hp Hn Ho. unfold next. rewrite Hn, Hp, dir_c_str, Ho. done.
Qed.

Lemma next_calls_opens fuel n this w d w1 :
  _path this = dir -> _dir this = None -> os_opendir dir w = (Some d, w1) ->
  next_calls fuel (S n) this w = next_calls fuel (S n) (with_dir (Some d) this) w1.
Proof using Hdir. intros. cbn [next_calls]. by erewrite next_opens. Qed.

Lemma store_wf_dir this w w' d :
  store_wf this w -> files (view w') = files (view w) ->
  (forall d', d = Some d' -> is_Some (streams (view w') !! d')) ->
  store_wf (with_dir d this) w'.
Proof. intros [Hp Hbs Hbf Hsub Hfree Hused _] Hf Hd. split; simpl; rewrite ?Hf; done. Qed.

Lemma next_step this w d l :
  store_wf this w -> _dir this = Some d -> streams (view w) !! d = Some l ->
  exists name this' w', ends (fun fuel => next fuel this w) (name, this', w') /\
    store_wf this' w' /\ files (view w') = files (view w) /\ fds (view w') = fds (view w) /\
    _blockset this' = _blockset this.
Proof.
  intros Hwf Hdr Hl. destruct (next_spec this w d l Hdr Hl) as [w' Hn].
  destruct (scanned l) as [|k ks].
  - destruct Hn as [Hrun Hv]. exists EmptyString, (with_dir None this), w'. split_and!;
      try (by rewrite Hv); try done; [by exists (S (length l))|].
    by apply (store_wf_dir this w); [|rewrite Hv|].
  - destruct Hn as (l' & Hrun & Hv & _ & _). exists k, this, w'. split_and!;
      try (by rewrite Hv); try done; [by exists (S (length l))|].
    replace this with (with_dir (Some d) this) by (unfold with_dir; rewrite <- Hdr; by destruct this).
    apply (store_wf_dir this w); [done|by rewrite Hv|]. intros d' [= <-]. rewrite Hv.
    simpl. rewrite lookup_insert_eq. eauto.
Qed.

(** [next] ends when there is a stream to read from. *)
Lemma next_cases this w :
  store_wf this w -> is_Some (_dir this) \/ opened w = true ->
  exists name this' w', ends (fun fuel => next fuel this w) (name, this', w') /\
    store_wf this' w' /\ files (view w') = files (view w) /\ fds (view w') = fds (view w) /\
    _blockset this' = _blockset this.
Proof using Hdir.
  intros Hwf Hd. destruct (_dir this) as [d|] eqn:Ed.
  { destruct (wf_dir _ _ Hwf d Ed) as [l Hl]. by eapply next_step. }
  destruct Hd as [[? ?]|Ho]; [done|]. unfold opened in Ho. apply bool_decide_eq_true in Ho.
  pose proof (law_opendir w) as Hlaw. destruct (os_opendir dir w) as [[d|] w1] eqn:Eo.
  2: { by destruct Ho. }
  destruct Hlaw as [_ (l & _ & Hv)].
  destruct (next_step (with_dir (Some d) this) w1 d l) as (name & this' & w' & Hn & Hwf' & Hf & Hfd & Hb).
  - apply (store_wf_dir this w); [done|by rewrite Hv|]. intros d' [= <-]. rewrite Hv. simpl.
    rewrite lookup_insert_eq. eauto.
  - done.
  - rewrite Hv. apply lookup_insert_eq.
  - exists name, this', w'. rewrite Hv in Hf, Hfd. split_and!; try done.
    destruct Hn as [n Hn]. exists n. intros fuel Hle.
    rewrite (next_opens fuel this w d w1); [by apply Hn|apply Hwf|done|done].
Qed.

(** *** Construction *)

Lemma ctor_cases bs w :
  0 < bs <= INT_MAX ->
  exists this w', ends (fun fuel => ctor fuel dir bs w) (this, w') /\
    store_wf this w' /\ view w' = view w /\ _dir this = None /\
    _blocksize this = bs /\ _blockset this = scan_result (files (view w)) (opened w) /\
    _usedBlocks this = to_u32 (Z.of_nat (size (_blockset this))) /\
    free_blocks bs (os_statfs dir w) = Ok (_freeBlocks this).
Proof using Hdir.
  intros Hbs. unfold ctor, BloomFilter.ctor.
  destruct (filter_of_reset (BloomFilter.BloomFilter 0 0 None)) as (bf0 & -> & _).
  cbn [mbind outcome_bind].
  destruct (regenerate_spec (Store None bs dir bf0 ∅ 0 0) w eq_refl ltac:(simpl; lia))
    as (bf & w' & free & Hf & Hu32 & Hbf & Hv & Hrun).
  rewrite <- Hv in Hbf, Hrun. eexists _, w'. split_and!; [exact Hrun|..]; try done.
  - by apply regenerate_wf.
  - simpl. by rewrite Hv.
Qed.

End Facts.
(** The directory of the in-memory file system will do. *)
Lemma mem_dir_ok : dir_ok MemFs.dir.
Proof. split; [by apply (bool_decide_unpack _)|]. by eexists. Qed.

End FbsFacts.

(** ** The contract: a map from keys to blocks *)

Module FbsSpec.

Inductive op : Type :=
  | Put (key : string) (data : list Z)
  | Get (key : string)
  | Remove (key : string)
  | Next.

Inductive res : Type :=
  | RBool (b : bool)
  | RBlock (r : option (list Z))
  | RName (s : string).

Definition op_simple (o : op) : Prop :=
  match o with Put k _ | Get k | Remove k => simple k | Next => True end.

(** What a client can observe of blocks of [bs] bytes.  A call may always
    fail; a failed [Put] may leave a prefix of its data behind. *)
Inductive spec_step (bs : Z) (m : gmap string (list Z)) : op -> res -> gmap string (list Z) -> Prop :=
  | spec_put k data :
      Z.of_nat (length data) = bs -> spec_step bs m (Put k data) (RBool true) (<[k := data]> m)
  | spec_put_failed k data :
      spec_step bs m (Put k data) (RBool false) m
  | spec_put_partial k data n :
      (n <= length data)%nat -> Z.of_nat n <> bs ->
      (bs < Z.of_nat (length data) -> n = O) ->
      spec_step bs m (Put k data) (RBool false) (<[k := take n data]> m)
  | spec_get k c :
      m !! k = Some c -> c <> [] ->
      spec_step bs m (Get k) (RBlock (Some (take (Z.to_nat bs) c))) m
  | spec_get_none k : spec_step bs m (Get k) (RBlock None) m
  | spec_remove k : is_Some (m !! k) -> spec_step bs m (Remove k) (RBool true) (delete k m)
  | spec_remove_failed k : spec_step bs m (Remove k) (RBool false) m
  | spec_next s : spec_step bs m Next (RName s) m.

Inductive spec_trace (bs : Z) : gmap string (list Z) -> list (op * res) -> gmap string (list Z) -> Prop :=
  | spec_nil m : spec_trace bs m [] m
  | spec_cons m o r m' tr m'' :
      spec_step bs m o r m' -> spec_trace bs m' tr m'' -> spec_trace bs m ((o, r) :: tr) m''.

End FbsSpec.

(** ** Running the store *)

Module FbsRun.
Import FileBlockStore BloomFacts FbsFacts FbsSpec.

Section Run.
Context {W : Type} `{Posix W} (dir : string) `{!PosixLaws W dir} (Hdir : dir_ok dir).

(** One call on the object, ending with a result. *)
Inductive exec (this : t) (w : W) : op -> res -> t -> W -> Prop :=
  | exec_put k data b this' w' :
      putBlock k data this w = Ok (b, this', w') -> exec this w (Put k data) (RBool b) this' w'
  | exec_get k r w' :
      getBlock k this w = Ok (r, w') -> exec this w (Get k) (RBlock r) this w'
  | exec_remove k b this' w' :
      ends (fun fuel => removeBlock fuel k this w) (b, this', w') ->
      exec this w (Remove k) (RBool b) this' w'
  | exec_next s this' w' :
      ends (fun fuel => next fuel this w) (s, this', w') -> exec this w Next (RName s) this' w'.

Inductive trace : t -> W -> list (op * res) -> t -> W -> Prop :=
  | trace_nil this w : trace this w [] this w
  | trace_cons this w o r this1 w1 tr this' w' :
      op_simple o -> exec this w o r this1 w1 -> trace this1 w1 tr this' w' ->
      trace this w ((o, r) :: tr) this' w'.

(** There is no stream to read from: the one case in which [next] cannot
    run. *)
Definition next_blocked (this : t) (w : W) : Prop := _dir this = None /\ opened dir w = false.

Lemma next_not_blocked this w s this' w' :
  store_wf dir this w -> ends (fun fuel => next fuel this w) (s, this', w') ->
  is_Some (_dir this) \/ opened dir w = true.
Proof using Hdir.
  intros Hwf [n Hn]. specialize (Hn n (le_n n)). revert Hn. unfold next.
  destruct (_dir this) as [d|] eqn:Ed; [eauto|]. rewrite (wf_path _ _ _ Hwf), dir_c_str by done.
  unfold opened. destruct (os_opendir dir w) as [[d|] w1]; [by right|]. done.
Qed.

Lemma exec_sound this w o r this' w' :
  store_wf dir this w -> op_simple o -> exec this w o r this' w' ->
  store_wf dir this' w' /\ _blocksize this' = _blocksize this /\
  spec_step (_blocksize this) (files (view w)) o r (files (view w')).
Proof using Hdir.
  intros Hwf Ho Hex. destruct Hex as [k data b this' w' E|k r w' E|k b this' w' E|s this' w' E]; simpl in Ho.
  - destruct (put_cases dir Hdir k data this w Hwf Ho) as (b1 & t1 & w1 & E1 & Hr).
    rewrite E in E1. injection E1 as <- <- <-.
    split; [by eapply put_result_wf|].
    inversion Hr as [? E1 E2 Hv|bf Hpos Hlen Hbf' E1 E2 Hv|fd m Hpos Hm Hne Hbig Hfd E1 E2 Hv]; subst;
      (split; [done|]); rewrite <- ?Hv; simpl; by constructor.
  - destruct (get_cases dir Hdir k this w Hwf Ho) as (r1 & w1 & E1 & Hv & Hr).
    rewrite E in E1. injection E1 as <- <-. rewrite Hv. split; [|split; [done|]].
    + destruct Hwf. by split; rewrite ?Hv.
    + rewrite Hr. destruct (readable dir k this w); [|constructor].
      destruct (files (view w) !! k) as [[|x c]|] eqn:Ek; cbn [block_of];
        [apply spec_get_none|by apply spec_get|apply spec_get_none].
  - destruct (remove_cases dir Hdir k this w Hwf Ho) as (b1 & t1 & w1 & E1 & Hwf' & Hr).
    pose proof (ends_det _ _ _ E E1) as [= -> -> ->]. split; [done|].
    split; [by rewrite (remove_blocksize _ _ _ _ _ _ E1)|].
    destruct b1; [destruct Hr as (Hin & -> & _)|destruct Hr as [_ ->]]; by constructor.
  - pose proof (next_not_blocked _ _ _ _ _ Hwf E) as Hd.
    destruct (next_cases dir Hdir this w Hwf Hd) as (s1 & t1 & w1 & E1 & Hwf' & Hf & _ & _).
    pose proof (ends_det _ _ _ E E1) as [= -> -> ->]. split; [done|].
    split; [by rewrite (next_blocksize _ _ _ _ _ E1)|]. rewrite Hf. constructor.
Qed.

End Run.
End FbsRun.
