(* ===== verification/FileBlockStoreProps.v ===== *)
(** * Properties of the file-backed block store

    The contract of [FileBlockStore] for every file system that satisfies
    [PosixLaws], and the behaviours of the code that clients have to know
    about.  The witnesses run on [MemFs]. *)

From S2P Require Import Prelude BloomFilter CppString Posix FileBlockStore.
From Stdlib Require Import ZArith Lia Ascii.
From stdpp Require Import base gmap strings fin_maps numbers list.

Local Open Scope Z_scope.

Module FbsProps.
Import FileBlockStore BloomFacts FbsFacts FbsSpec FbsRun.

(** A small store: blocks of four bytes, nine of them free, two stored. *)
Definition store0 : t := Store None 4 MemFs.dir BloomProps.sample ∅ 9 0.
Definition disk0 : MemFs.mem :=
  MemFs.disk {["a" := [1; 2; 3; 4]; "b" := [5; 6; 7; 8]]} 4 40000.

Section Props.
Context {W : Type} `{Posix W} (dir : string) `{!PosixLaws W dir} (Hdir : dir_ok dir).

(** C1. Refinement: whatever sequence of [putBlock], [getBlock],
    [removeBlock] and [next] calls a client makes on a well-formed store, the
    answers and the final contents of the directory are those of the
    specification, a map from keys to byte strings, and the store stays well
    formed. *)
Theorem fbs_refines (this this' : t) (w w' : W) (tr : list (op * res))
  (Hwf : store_wf dir this w) (Htr : trace this w tr this' w') :
  store_wf dir this' w' /\
  spec_trace (_blocksize this) (files (view w)) tr (files (view w')).
Proof using Hdir.
  induction Htr as [|this w o r this1 w1 tr this' w' Ho Hex _ IH]; [by split; [|constructor]|].
  destruct (exec_sound dir Hdir _ _ _ _ _ _ Hwf Ho Hex) as (Hwf1 & Hbs & Hstep).
  destruct (IH Hwf1) as [Hwf' Htr']. rewrite Hbs in Htr'. split; [done|]. by econstructor.
Qed.

(** C2. Progress: on a well-formed store every call with a simple key ends,
    without a fault and without running out of fuel, except [next] when
    there is no directory stream and none can be opened. *)
Theorem fbs_progress (this : t) (w : W) (o : op)
  (Hwf : store_wf dir this w) (Ho : op_simple o)
  (Hnext : o = Next -> ~ next_blocked dir this w) :
  exists r this' w', exec this w o r this' w'.
Proof using Hdir.
  destruct o as [k data|k|k|]; simpl in Ho.
  - destruct (put_cases dir Hdir k data this w Hwf Ho) as (b & t1 & w1 & E & _).
    do 3 eexists. by constructor.
  - destruct (get_cases dir Hdir k this w Hwf Ho) as (r & w1 & E & _). do 3 eexists. by constructor.
  - destruct (remove_cases dir Hdir k this w Hwf Ho) as (b & t1 & w1 & E & _).
    do 3 eexists. by constructor.
  - destruct (next_cases dir Hdir this w Hwf) as (s & t1 & w1 & E & _).
    + specialize (Hnext eq_refl). unfold next_blocked in Hnext.
      destruct (_dir this); [left; eauto|right]. destruct (opened dir w); naive_solver.
    + do 3 eexists. by constructor.
Qed.

(** C3. The index never lies about what it claims to hold: after construction
    and any sequence of calls, every key of the block set has a file, and
    both the bloom filter of the store and the copy [bloomfilter] hands out
    report it. *)
Theorem fbs_index_sound (bs : Z) (this0 this' : t) (w w0 w' : W) (tr : list (op * res)) (k : string)
  (Hbs : 0 < bs <= INT_MAX)
  (Hctor : ends (fun fuel => ctor fuel dir bs w) (this0, w0))
  (Htr : trace this0 w0 tr this' w') (Hk : k ∈ _blockset this') :
  is_Some (files (view w') !! k) /\
  BloomFilter.mayContain (_bloomfilter this') k = Ok true /\
  exists bf, bloomfilter this' = Ok bf /\ BloomFilter.mayContain bf k = Ok true.
Proof using Hdir.
  destruct (ctor_cases dir Hdir bs w Hbs) as (this1 & w1 & Hc & Hwf & _).
  pose proof (ends_det _ _ _ Hctor Hc) as [= <- <-].
  assert (store_wf dir this' w') as [_ _ Hbf Hsub _ _ _].
  { clear -Hwf Htr Hdir. induction Htr as [|this w o r this1 w1 tr this' w' Ho Hex _ IH]; [done|].
    apply IH. by eapply exec_sound. }
  assert (BloomFilter.mayContain (_bloomfilter this') k = Ok true) as Hmay
    by (by eapply filter_of_query).
  split_and!; [|done|].
  - apply elem_of_dom. set_solver.
  - destruct Hbf as (ks & _ & HR). apply represents_wf in HR.
    destruct (copy_ctor_ok _ HR) as (bf & Hcp & _ & Hsame). exists bf. split; [done|].
    by rewrite <- Hsame.
Qed.

(** Round trip: a block that [putBlock] accepted has exactly the block
    size and is what [getBlock] returns for its key, as long as the system
    can open and read the file. *)
Theorem put_get_roundtrip (key : string) (data : list Z) (this this' : t) (w w' : W)
  (Hwf : store_wf dir this w) (Hk : simple key)
  (Hput : putBlock key data this w = Ok (true, this', w'))
  (Hio : readable dir key this' w' = true) :
  Z.of_nat (length data) = _blocksize this /\
  exists w'', getBlock key this' w' = Ok (Some data, w'') /\ view w'' = view w'.
Proof using Hdir.
  destruct (put_cases dir Hdir key data this w Hwf Hk) as (b & t1 & w1 & E & Hr).
  rewrite Hput in E. injection E as <- <- <-. assert (store_wf dir this' w') as Hwf' by (by eapply put_result_wf).
  inversion Hr as [|bf Hpos Hlen Hbf' E1 E2 Hv|]; subst. split; [done|].
  destruct (get_cases dir Hdir key _ w' Hwf' Hk) as (r & w'' & Hget & Hv' & Hr').
  exists w''. split; [|congruence]. rewrite Hget, Hr', Hio, <- Hv. do 2 f_equal. cbn [files].
  rewrite lookup_insert_eq. cbn [block_of with_index _blocksize].
  pose proof (wf_blocksize _ _ _ Hwf). destruct data as [|x data]; [simpl in Hlen; lia|].
  cbn [block_of]. rewrite take_ge; [done|]. lia.
Qed.

(** C4. Iteration: with no stream open, calling [next] until it returns the
    empty string yields every visible block of the directory exactly once,
    then closes the stream, so that the next round starts again; nothing else
    changes. *)
Theorem next_enumerates (this : t) (w w1 : W) (d : Z)
  (Hwf : store_wf dir this w) (Hnone : _dir this = None)
  (Hopen : os_opendir dir w = (Some d, w1)) :
  exists ks w', NoDup ks /\ list_to_set ks = visible (files (view w)) /\
    ends (fun fuel => next_calls fuel (S (length ks)) this w) (ks ++ [EmptyString], this, w') /\
    view w' = view w.
Proof using Hdir.
  pose proof (law_opendir w) as Hlaw. rewrite Hopen in Hlaw.
  destruct Hlaw as [Hfresh (l & Hl & Hv)]. destruct (scanned_listing l _ Hl) as [Hnd Hset].
  set (this1 := with_dir (Some d) this).
  assert (streams (view w1) !! d = Some l) as Hd by (rewrite Hv; apply lookup_insert_eq).
  destruct (next_calls_spec dir (scanned l) this1 w1 d l eq_refl Hd eq_refl) as (w' & Hrun & Hv').
  exists (scanned l), w'. split_and!; [done|done| |].
  - exists (S (length l)). intros fuel Hle.
    rewrite (next_calls_opens dir Hdir fuel _ this w d w1 (wf_path _ _ _ Hwf) Hnone Hopen).
    fold this1. rewrite Hrun by lia. unfold this1, with_dir. simpl. rewrite <- Hnone.
    by destruct this.
  - rewrite Hv', Hv. simpl. rewrite delete_insert_id by done. by destruct (view w).
Qed.

(** Removal: when [removeBlock] reports success the block was there, is
    gone, and [getBlock] finds nothing under its key; all other blocks and
    the descriptors are untouched, and the index is a fresh scan of the
    directory, or empty when the directory cannot be scanned. *)
Theorem remove_forgets (key : string) (this this' : t) (w w' : W)
  (Hwf : store_wf dir this w) (Hk : simple key)
  (Hrm : ends (fun fuel => removeBlock fuel key this w) (true, this', w')) :
  is_Some (files (view w) !! key) /\ files (view w') = delete key (files (view w)) /\
  fds (view w') = fds (view w) /\ (key ∉ _blockset this') /\
  (_blockset this' = visible (files (view w')) \/ _blockset this' = ∅) /\
  exists w'', getBlock key this' w' = Ok (None, w'').
Proof using Hdir.
  destruct (remove_cases dir Hdir key this w Hwf Hk) as (b & t1 & w1 & E & Hwf' & Hr).
  pose proof (ends_det _ _ _ Hrm E) as [= <- <- <-].
  destruct Hr as (Hin & Hv & Hset & _). rewrite Hv in *. simpl.
  split_and!; try done.
  - assert (key ∉ visible (delete key (files (view w)))) by (unfold visible; set_solver).
    destruct Hset as [->| ->]; set_solver.
  - destruct (get_cases dir Hdir key this' w' Hwf' Hk) as (r & w'' & Hget & _ & Hr).
    exists w''. rewrite Hget, Hr, Hv. simpl. rewrite lookup_delete_eq. simpl.
    by destruct (readable dir key this' w').
Qed.

(** A block that is too big is refused only after the file of its key was
    opened for truncation: an existing block under that key is lost, its key
    stays in the index, and the descriptor is never closed. *)
Theorem oversized_put_destroys (key p : string) (data : list Z) (this : t) (w w1 : W) (fd : Z)
  (Hwf : store_wf dir this w) (Hk : simple key) (Hfree : 0 < _freeBlocks this)
  (Hbig : _blocksize this < Z.of_nat (length data))
  (Hp : get_fullpath dir key = Ok p) (Hopen : os_open_trunc (c_str p) w = (Some fd, w1)) :
  putBlock key data this w = Ok (false, this, w1) /\
  files (view w1) = <[key := []]> (files (view w)) /\
  fds (view w) !! fd = None /\ fds (view w1) = <[fd := (key, O)]> (fds (view w)) /\
  exists w2, getBlock key this w1 = Ok (None, w2).
Proof using Hdir.
  destruct (fullpath_entry dir Hdir key Hk) as (p' & Hp' & Hcs & He). rewrite Hp in Hp'.
  injection Hp' as <-. rewrite Hcs in Hopen. pose proof (law_open_trunc key p w He) as Ho.
  rewrite Hopen in Ho. destruct Ho as [Hnone Hv].
  assert (putBlock key data this w = Ok (false, this, w1)) as Hput.
  { unfold putBlock. rewrite (wf_path _ _ _ Hwf), (proj2 (Z.leb_gt _ _)), Hp by done.
    pose proof (wf_blocksize _ _ _ Hwf). cbn [mbind outcome_bind].
    rewrite Hcs, Hopen, Z.gtb_ltb, to_u64_id by (unfold is_u64, INT_MAX in *; lia).
    by rewrite (proj2 (Z.ltb_lt _ _)). }
  split_and!; [done|by rewrite Hv|done|by rewrite Hv|].
  assert (store_wf dir this w1) as Hwf1.
  { destruct Hwf. split; rewrite ?Hv; simpl; try done. set_solver. }
  destruct (get_cases dir Hdir key this w1 Hwf1 Hk) as (r & w2 & Hget & _ & Hr).
  exists w2. rewrite Hget, Hr, Hv. simpl. rewrite lookup_insert_eq. simpl.
  by destruct (readable dir key this w1).
Qed.

(** A block shorter than the block size is never accepted, although the
    interface takes blocks of up to that size. *)
Theorem short_put_refused (key : string) (data : list Z) (this : t) (w : W)
  (Hwf : store_wf dir this w) (Hk : simple key)
  (Hshort : Z.of_nat (length data) < _blocksize this) :
  exists w', putBlock key data this w = Ok (false, this, w').
Proof using Hdir.
  destruct (put_cases dir Hdir key data this w Hwf Hk) as (b & t1 & w' & E & Hr).
  inversion Hr; subst; eauto. lia.
Qed.

(** The counters: an accepted block moves one block from free to used
    and leaves [numTotalBlocks] as it was, whether or not the key was stored
    before; so storing the same key again counts it twice. *)
Theorem put_counts (key : string) (data : list Z) (this this' : t) (w w' : W)
  (Hwf : store_wf dir this w) (Hk : simple key)
  (Hput : putBlock key data this w = Ok (true, this', w')) :
  numTotalBlocks this' = numTotalBlocks this /\
  numFreeBlocks this' = numFreeBlocks this - 1 /\
  _usedBlocks this' = to_u32 (_usedBlocks this + 1) /\
  (key ∈ _blockset this -> _blockset this' = _blockset this).
Proof using Hdir.
  destruct (put_cases dir Hdir key data this w Hwf Hk) as (b & t1 & w1 & E & Hr).
  rewrite Hput in E. injection E as <- <- <-. pose proof (wf_free _ _ _ Hwf) as Hf.
  inversion Hr as [|bf Hpos Hlen Hbf' E1 E2 Hv|]; subst. simpl.
  unfold numTotalBlocks, numFreeBlocks, to_u64, to_u32, is_u32 in *. simpl. split_and!.
  - rewrite Zplus_mod_idemp_l. do 2 f_equal. lia.
  - rewrite !Z.mod_small by lia. done.
  - done.
  - set_solver.
Qed.

(** [next] does not look at what [opendir] returned: with no stream open
    and a directory that cannot be opened, [readdir] is called on a null
    pointer. *)
Theorem next_null_stream (fuel : nat) (this : t) (w : W)
  (Hp : _path this = dir) (Hblocked : next_blocked dir this w) :
  next fuel this w = Fault NullDeref.
Proof using Hdir.
  destruct Hblocked as [Hn Ho]. unfold next. rewrite Hn, Hp, dir_c_str by done.
  unfold opened in Ho. apply bool_decide_eq_false in Ho.
  destruct (os_opendir dir w) as [[d|] w1]; [|done]. destruct Ho. by eexists.
Qed.

(** Keys that start with a dot can be stored and read, but every scan
    skips them: after any successful removal they are missing from the index
    while their blocks are still there. *)
Theorem hidden_block_unindexed (key h : string) (this this' : t) (w w' : W)
  (Hwf : store_wf dir this w) (Hk : simple key) (Hh : hidden h) (Hne : h <> key)
  (Hstored : is_Some (files (view w) !! h))
  (Hrm : ends (fun fuel => removeBlock fuel key this w) (true, this', w')) :
  is_Some (files (view w') !! h) /\ h ∉ _blockset this'.
Proof using Hdir.
  destruct (remove_cases dir Hdir key this w Hwf Hk) as (b & t1 & w1 & E & Hwf' & Hr).
  pose proof (ends_det _ _ _ Hrm E) as [= <- <- <-].
  destruct Hr as (Hin & Hv & Hset & _). rewrite Hv. simpl. split.
  - by rewrite lookup_delete_ne.
  - assert (h ∉ visible (delete key (files (view w)))) by (unfold visible; set_solver).
    destruct Hset as [->| ->]; set_solver.
Qed.

End Props.

(** The free space is computed on 64 bits and kept in 32: it is the
    number of free blocks modulo [2^32]. *)
Theorem free_blocks_wraps (bs f_bavail f_bsize : Z)
  (Hbs : 0 < bs <= INT_MAX) (Hfit : is_u64 (f_bavail * f_bsize)) :
  free_blocks bs (Some (f_bavail, f_bsize)) = Ok ((f_bavail * f_bsize / bs) mod 2 ^ 32).
Proof.
  unfold free_blocks, INT_MAX in *. rewrite (proj2 (Z.eqb_neq _ _)) by lia.
  rewrite !to_u64_id by (done || unfold is_u64; lia). done.
Qed.

(** ** Witnesses *)

(** Storing block [c] and then reading it. *)
Definition data_c : list Z := [9; 8; 7; 6].

Lemma simple_name k : bool_decide (simple k) = true -> simple k.
Proof. apply bool_decide_eq_true. Qed.

(** The outcome of an accepted [putBlock], as far as it is needed below. *)
Lemma put_c_ok : exists this' w',
  putBlock "c" data_c store0 disk0 = Ok (true, this', w') /\
  readable MemFs.dir "c" this' w' = true.
Proof. eexists _, _. split; vm_compute; reflexivity. Qed.

Lemma sample_store_wf fs : store_wf MemFs.dir store0 (MemFs.disk fs 4 40000).
Proof.
  split; simpl; try done. exists []. split; [done|]. apply BloomProps.sample_empty.
Qed.

Lemma store0_wf : store_wf MemFs.dir store0 disk0.
Proof. apply sample_store_wf. Qed.

Lemma mem_remove_ok fs k : simple k -> is_Some (fs !! k) -> exists this' w',
  ends (fun fuel => removeBlock fuel k store0 (MemFs.disk fs 4 40000)) (true, this', w').
Proof.
  intros Hk [c Hc]. destruct (remove_cases MemFs.dir mem_dir_ok k store0 _ (sample_store_wf fs) Hk)
    as (b & this' & w' & E & _ & _).
  destruct b; [eauto|]. exfalso. destruct E as [n Hn]. specialize (Hn n (le_n n)).
  unfold removeBlock in Hn. cbn [_path store0] in Hn.
  destruct (fullpath_entry MemFs.dir mem_dir_ok k Hk) as (p & Hp & Hcs & He).
  rewrite Hp in Hn. cbn [mbind outcome_bind] in Hn. rewrite Hcs in Hn.
  cbn [os_unlink MemFs.mem_posix] in Hn. unfold MemFs.unlink in Hn.
  rewrite (MemFs.resolve_entry _ k p He), bool_decide_eq_false_2 in Hn by set_solver.
  cbn [MemFs.disk MemFs.m_view files] in Hn. rewrite Hc in Hn. inv_ok. destruct a. by inv_ok.
Qed.

Lemma fbs_refines_witness : exists this' w' r,
  trace store0 disk0 [(Put "c" data_c, RBool true); (Get "c", RBlock r)] this' w' /\
  store_wf MemFs.dir this' w' /\
  spec_trace 4 (files (view disk0))
    [(Put "c" data_c, RBool true); (Get "c", RBlock r)] (files (view w')).
Proof.
  destruct put_c_ok as (t1 & w1 & Hput & _).
  assert (exists r w2, getBlock "c" t1 w1 = Ok (r, w2)) as (r & w2 & Hget).
  { destruct (put_cases MemFs.dir mem_dir_ok "c" data_c store0 disk0 store0_wf
                ltac:(by apply simple_name)) as (b & t' & w' & E & Hr).
    rewrite Hput in E. injection E as <- <- <-.
    destruct (get_cases MemFs.dir mem_dir_ok "c" t1 w1) as (r & w2 & Hg & _); [|by apply simple_name|eauto].
    by eapply put_result_wf; [exact mem_dir_ok|exact store0_wf|exact Hr]. }
  exists t1, w2, r.
  assert (trace store0 disk0 [(Put "c" data_c, RBool true); (Get "c", RBlock r)] t1 w2) as Htr.
  { econstructor; [by apply simple_name|by constructor|].
    econstructor; [by apply simple_name|by constructor|]. constructor. }
  split; [exact Htr|].
  exact (fbs_refines MemFs.dir mem_dir_ok store0 t1 disk0 w2 _ store0_wf Htr).
Defined.

Lemma fbs_progress_witness : exists r this' w', exec store0 disk0 Next r this' w'.
Proof.
  apply (fbs_progress MemFs.dir mem_dir_ok store0 disk0 Next store0_wf).
  - exact I.
  - intros _ [_ Ho]. vm_compute in Ho. discriminate Ho.
Defined.

Lemma fbs_index_sound_witness : exists this' w',
  "a"%string ∈ _blockset this' /\
  is_Some (files (view w') !! "a"%string) /\
  BloomFilter.mayContain (_bloomfilter this') "a" = Ok true /\
  exists bf, bloomfilter this' = Ok bf /\ BloomFilter.mayContain bf "a" = Ok true.
Proof.
  destruct (ctor_cases MemFs.dir mem_dir_ok 4 disk0 ltac:(done))
    as (this' & w' & Hc & _ & _ & _ & _ & Hset & _).
  assert ("a"%string ∈ _blockset this') as Ha.
  { rewrite Hset. apply (bool_decide_unpack _). vm_compute. exact I. }
  exists this', w'. split; [exact Ha|].
  apply (fbs_index_sound MemFs.dir mem_dir_ok 4 this' this' disk0 w' w' [] "a").
  - unfold INT_MAX. lia.
  - exact Hc.
  - constructor.
  - exact Ha.
Defined.

Lemma put_get_roundtrip_witness : exists this' w' w'',
  putBlock "c" data_c store0 disk0 = Ok (true, this', w') /\
  getBlock "c" this' w' = Ok (Some data_c, w'').
Proof.
  destruct put_c_ok as (t1 & w1 & Hput & Hio).
  destruct (put_get_roundtrip MemFs.dir mem_dir_ok "c" data_c store0 t1 disk0 w1 store0_wf)
    as (_ & w2 & Hget & _).
  - apply simple_name. reflexivity.
  - exact Hput.
  - exact Hio.
  - exists t1, w1, w2. split; [exact Hput|exact Hget].
Defined.

Lemma next_enumerates_witness : exists ks w',
  NoDup ks /\ list_to_set ks = visible (files (view disk0)) /\
  ends (fun fuel => next_calls fuel (S (length ks)) store0 disk0) (ks ++ [EmptyString], store0, w') /\
  view w' = view disk0.
Proof.
  apply (next_enumerates MemFs.dir mem_dir_ok store0 disk0
           (MemFs.opendir MemFs.dir disk0).2 0 store0_wf).
  - reflexivity.
  - vm_compute. reflexivity.
Defined.

Lemma remove_forgets_witness : exists this' w' w'',
  files (view w') = delete "a"%string (files (view disk0)) /\
  getBlock "a" this' w' = Ok (None, w'').
Proof.
  destruct (mem_remove_ok {["a" := [1; 2; 3; 4]; "b" := [5; 6; 7; 8]]} "a")
    as (t1 & w1 & Hrm); [by apply simple_name|by eexists|].
  destruct (remove_forgets MemFs.dir mem_dir_ok "a" store0 t1 disk0 w1 store0_wf)
    as (_ & Hf & _ & _ & _ & w2 & Hget).
  - apply simple_name. reflexivity.
  - exact Hrm.
  - exists t1, w1, w2. split; [exact Hf|exact Hget].
Defined.

Lemma oversized_put_destroys_witness : exists w1,
  putBlock "a" [1; 2; 3; 4; 5] store0 disk0 = Ok (false, store0, w1) /\
  files (view w1) !! "a"%string = Some [] /\ fds (view w1) <> fds (view disk0).
Proof.
  destruct (oversized_put_destroys MemFs.dir mem_dir_ok "a" "/store/a" [1; 2; 3; 4; 5] store0 disk0
              (MemFs.open_trunc "/store/a" disk0).2 0 store0_wf) as (Hput & Hf & _ & Hfd & _).
  - apply simple_name. reflexivity.
  - reflexivity.
  - reflexivity.
  - reflexivity.
  - vm_compute. reflexivity.
  - eexists. split; [exact Hput|]. split; [rewrite Hf; apply lookup_insert_eq|].
    rewrite Hfd. intros Heq. apply (f_equal (lookup 0)) in Heq.
    rewrite lookup_insert_eq in Heq. vm_compute in Heq. discriminate Heq.
Defined.

Lemma short_put_refused_witness : exists w',
  putBlock "c" [1; 2] store0 disk0 = Ok (false, store0, w').
Proof.
  apply (short_put_refused MemFs.dir mem_dir_ok "c" [1; 2] store0 disk0 store0_wf).
  - apply simple_name. reflexivity.
  - reflexivity.
Defined.

(** The refused short block is nevertheless on disk and can be read back. *)
Example short_put_leaves_data :
  match putBlock "c" [1; 2] store0 disk0 with
  | Ok (false, this', w') =>
      match getBlock "c" this' w' with
      | Ok (Some d, _) => d = [1; 2] /\ "c"%string ∉ _blockset this'
      | _ => False
      end
  | _ => False
  end.
Proof. vm_compute. split; [reflexivity|]. intros Hin. inversion Hin. Qed.

Lemma put_counts_witness : exists this' w',
  putBlock "c" data_c store0 disk0 = Ok (true, this', w') /\
  numTotalBlocks this' = numTotalBlocks store0 /\ numFreeBlocks this' = 8.
Proof.
  destruct put_c_ok as (t1 & w1 & Hput & _).
  destruct (put_counts MemFs.dir mem_dir_ok "c" data_c store0 t1 disk0 w1 store0_wf)
    as (Htot & Hfree & _).
  - apply simple_name. reflexivity.
  - exact Hput.
  - exists t1, w1. split; [exact Hput|]. split; [exact Htot|]. rewrite Hfree. reflexivity.
Defined.

(** A directory that cannot be opened. *)
Definition disk_gone : MemFs.mem :=
  MemFs.Mem (View ∅ ∅ ∅) [] {["."%string]} 4 40000 4096.

Lemma next_null_stream_witness : next 5 store0 disk_gone = Fault NullDeref.
Proof.
  apply (next_null_stream MemFs.dir mem_dir_ok 5 store0 disk_gone).
  - reflexivity.
  - split; vm_compute; reflexivity.
Defined.

Definition disk_hidden : MemFs.mem :=
  MemFs.disk {["a" := [1; 2; 3; 4]; ".h" := [5; 6; 7; 8]]} 4 40000.

Lemma hidden_block_unindexed_witness : exists this' w',
  is_Some (files (view w') !! ".h"%string) /\ (".h"%string ∉ _blockset this').
Proof.
  destruct (mem_remove_ok {["a" := [1; 2; 3; 4]; ".h" := [5; 6; 7; 8]]} "a")
    as (t1 & w1 & Hrm); [by apply simple_name|by eexists|].
  exists t1, w1.
  apply (hidden_block_unindexed MemFs.dir mem_dir_ok "a" ".h" store0 t1 disk_hidden w1).
  - apply sample_store_wf.
  - apply simple_name. reflexivity.
  - reflexivity.
  - discriminate.
  - eexists. reflexivity.
  - exact Hrm.
Defined.

Lemma free_blocks_wraps_witness : free_blocks 65536 (Some (2 ^ 36, 4096)) = Ok 0.
Proof.
  rewrite (free_blocks_wraps 65536 (2 ^ 36) 4096).
  - reflexivity.
  - unfold INT_MAX. lia.
  - unfold is_u64. lia.
Defined.

End FbsProps.
