(* ===== verification/FbsFrame.v ===== *)
(** * Stores do not disturb each other

    A [FileBlockStore] works on the directory it was given: no call changes
    what is seen of another directory.  So the stores of a server keep their
    invariants whatever is done to the others. *)

From S2P Require Import Prelude BloomFilter CppString Posix PosixDirs FileBlockStore.
From Stdlib Require Import ZArith Lia Ascii.
From stdpp Require Import base gmap strings fin_maps numbers list.

Local Open Scope Z_scope.

Module FbsFrame.
Import FileBlockStore FbsFacts FbsSpec FbsRun.

Section Frame.
Context {W : Type} `{Posix W} (dir dir' : string) `{!PosixLaws W dir} `{!PosixLaws W dir'}.
Context `{!PosixApart W dir dir'} (Hdir : dir_ok dir).

(** The directory of the store, and the other one. *)
#[local] Abbreviation near := (view_of dir).
#[local] Abbreviation far := (view_of dir').

Lemma put_frame key data this w b this' w' :
  _path this = dir -> simple key -> putBlock key data this w = Ok (b, this', w') -> far w' = far w.
Proof using Hdir PosixApart0.
  intros Hp Hk. unfold putBlock. rewrite Hp. destruct (_freeBlocks this <=? 0); [by intros [= _ _ <-]|].
  destruct (fullpath_entry dir Hdir key Hk) as (p & -> & Hcs & He). cbn [mbind outcome_bind]. rewrite Hcs.
  pose proof (law_open_trunc key p w He) as Ho. pose proof (apart_open_trunc (d' := dir') key p w He) as Hf.
  destruct (os_open_trunc p w) as [[fd|] w1]; cbn [snd] in Hf; [|by intros [= _ _ <-]].
  destruct Ho as [_ Hv]. destruct (_ >? _); [by intros [= _ _ <-]|].
  assert (fds (near w1) !! fd = Some (key, 0%nat)) as Hfd by (unfold view_of; rewrite Hv; apply lookup_insert_eq).
  pose proof (law_write (dir := dir) fd key [] data w1 Hfd) as Hw.
  specialize (Hw ltac:(rewrite Hv; apply lookup_insert_eq)).
  pose proof (apart_write (d' := dir') fd data w1 ltac:(by eexists)) as Hf1.
  destruct (os_write fd data w1) as [n w2]. cbn [snd] in Hf1.
  destruct (negb _); [by intros [= _ _ <-]; rewrite Hf1|].
  destruct (BloomFilter.set _ key); [|done]. intros [= _ _ <-]. rewrite <- Hf, <- Hf1.
  apply (apart_close (d := dir)). destruct Hw as [[_ Hv2]|(m & _ & _ & Hv2)]; unfold view_of; rewrite Hv2.
  - by eexists.
  - simpl. rewrite lookup_insert_eq. by eexists.
Qed.

Lemma get_frame key this w r w' :
  _path this = dir -> 0 <= _blocksize this -> simple key -> getBlock key this w = Ok (r, w') -> far w' = far w.
Proof using Hdir PosixApart0.
  intros Hp Hbs Hk. unfold getBlock. rewrite Hp.
  destruct (fullpath_entry dir Hdir key Hk) as (p & -> & Hcs & He). cbn [mbind outcome_bind]. rewrite Hcs.
  pose proof (law_open_rdonly key p w He) as Ho. pose proof (apart_open_rdonly (d' := dir') key p w He) as Hf.
  destruct (os_open_rdonly p w) as [[fd|] w1]; cbn [snd] in Hf; [|by intros [= _ <-]].
  destruct Ho as ([c Hc] & _ & Hv). destruct (_ <? 0); [done|].
  assert (fds (near w1) !! fd = Some (key, 0%nat)) as Hfd by (unfold view_of; rewrite Hv; apply lookup_insert_eq).
  pose proof (law_read (dir := dir) fd key 0 c (Z.to_nat (_blocksize this)) w1 Hfd ltac:(by rewrite Hv)) as Hr.
  rewrite Z2Nat.id in Hr by done.
  pose proof (apart_read (d' := dir') fd (_blocksize this) w1 ltac:(by eexists)) as Hf1.
  destruct (os_read fd (_blocksize this) w1) as [[n data] w2]. cbn [snd] in Hf1.
  assert (far (os_close fd w2) = far w) as Hend.
  { rewrite <- Hf, <- Hf1. apply (apart_close (d := dir)).
    destruct Hr as [[_ Hv2]|(_ & _ & Hv2)]; unfold view_of; rewrite Hv2; [by eexists|].
    simpl. rewrite lookup_insert_eq. by eexists. }
  destruct (n <=? 0); by intros [= _ <-].
Qed.

(** Reading on in a stream of this directory. *)
Lemma readdir_frame s w e w' : is_Some (streams (near w) !! s) -> os_readdir s w = (e, w') ->
  far w' = far w /\ is_Some (streams (near w') !! s).
Proof using PosixApart0.
  intros [l Hl] Hr. pose proof (law_readdir (dir := dir) s l w Hl) as Hv.
  pose proof (apart_readdir (d' := dir') s w ltac:(by eexists)) as Hf. rewrite Hr in Hv, Hf.
  split; [done|]. destruct Hv as [_ Hv]. unfold view_of. rewrite Hv. simpl. rewrite lookup_insert_eq. by eexists.
Qed.

Lemma regenerate_loop_frame fuel s : forall this w this' w',
  is_Some (streams (near w) !! s) -> regenerate_loop fuel s this w = Ok (this', w') ->
  far w' = far w /\ is_Some (streams (near w') !! s).
Proof using PosixApart0.
  induction fuel as [|fuel IH]; intros this w this' w' Hs; cbn [regenerate_loop]; [done|].
  destruct (os_readdir s w) as [[e|] w1] eqn:E; destruct (readdir_frame s w _ w1 Hs E) as [Hf Hs1];
    [|by intros [= _ <-]].
  destruct (skipped e); [intros Hrun|destruct (BloomFilter.set _ _); [|done]; intros Hrun];
    apply IH in Hrun as [-> ?]; done.
Qed.

(** A stream of this directory that is read to its end and closed. *)
Lemma regenerate_frame fuel this w this' w' : _path this = dir ->
  regenerateBloomFilterAndBlockSet fuel this w = Ok (this', w') -> far w' = far w.
Proof using Hdir PosixApart0.
  intros Hp. unfold regenerateBloomFilterAndBlockSet. destruct (BloomFilter.reset _ _ _); [|done].
  cbn [mbind outcome_bind]. destruct (free_blocks _ _); [|done]. cbn [mbind outcome_bind with_index _path].
  rewrite Hp, (dir_c_str dir Hdir). pose proof (law_opendir (dir := dir) w) as Ho.
  pose proof (apart_opendir (d := dir) (d' := dir') w) as Hf.
  destruct (os_opendir dir w) as [[s|] w1]; cbn [snd] in Hf; [|by intros [= _ <-]].
  destruct Ho as [_ (l & _ & Hv)].
  destruct (regenerate_loop fuel s _ w1) as [[t2 w2]|] eqn:E; [|done].
  apply regenerate_loop_frame in E as [Hf1 Hs]; [|unfold view_of; rewrite Hv; simpl; rewrite lookup_insert_eq; by eexists].
  intros [= _ <-]. rewrite <- Hf, <- Hf1. by apply (apart_closedir (d := dir)).
Qed.

Lemma remove_frame fuel key this w b this' w' :
  _path this = dir -> simple key -> removeBlock fuel key this w = Ok (b, this', w') -> far w' = far w.
Proof using Hdir PosixApart0.
  intros Hp Hk. unfold removeBlock. rewrite Hp.
  destruct (fullpath_entry dir Hdir key Hk) as (p & -> & Hcs & He). cbn [mbind outcome_bind]. rewrite Hcs.
  pose proof (apart_unlink (d' := dir') key p w He) as Hf. destruct (os_unlink p w) as [z w1]. cbn [snd] in Hf.
  destruct z; [|by intros [= _ _ <-]..].
  destruct (regenerateBloomFilterAndBlockSet fuel this w1) as [[t2 w2]|] eqn:E; [|done].
  apply regenerate_frame in E; [|done]. intros [= _ _ <-]. congruence.
Qed.

Lemma next_loop_frame fuel s : forall w r w',
  is_Some (streams (near w) !! s) -> next_loop fuel s w = Ok (r, w') ->
  far w' = far w /\ is_Some (streams (near w') !! s).
Proof using PosixApart0.
  induction fuel as [|fuel IH]; intros w r w' Hs; cbn [next_loop]; [done|].
  destruct (os_readdir s w) as [[e|] w1] eqn:E; destruct (readdir_frame s w _ w1 Hs E) as [Hf Hs1];
    [|by intros [= _ <-]].
  destruct (skipped e); [|by intros [= _ <-]]. intros Hrun. apply IH in Hrun as [-> ?]; done.
Qed.

Lemma next_frame fuel this w s this' w' :
  store_wf dir this w -> next fuel this w = Ok (s, this', w') -> far w' = far w.
Proof using Hdir PosixApart0.
  intros Hwf. unfold next. rewrite (wf_path _ _ _ Hwf), (dir_c_str dir Hdir).
  assert (forall d w1, (match _dir this with Some d => (Some d, w) | None => os_opendir dir w end) = (Some d, w1) ->
    far w1 = far w /\ is_Some (streams (near w1) !! d)) as Hopen.
  { intros d w1. destruct (_dir this) as [d0|] eqn:Ed.
    - intros [= <- <-]. split; [done|]. by apply (wf_dir _ _ _ Hwf).
    - intros Ho. pose proof (law_opendir (dir := dir) w) as Hl. pose proof (apart_opendir (d := dir) (d' := dir') w) as Hf.
      rewrite Ho in Hl, Hf. split; [done|]. destruct Hl as [_ (l & _ & Hv)]. unfold view_of. rewrite Hv.
      simpl. rewrite lookup_insert_eq. by eexists. }
  destruct (match _dir this with Some d => (Some d, w) | None => os_opendir dir w end) as [[d|] w1]; [|done].
  destruct (Hopen d w1 eq_refl) as [Hf Hs]. cbn [deref mbind outcome_bind].
  destruct (next_loop fuel d w1) as [[[name|] w2]|] eqn:E; [..|done];
    apply next_loop_frame in E as [Hf1 Hs1]; try done; intros [= _ _ <-]; [congruence|].
  rewrite <- Hf, <- Hf1. by apply (apart_closedir (d := dir)).
Qed.

(** Whatever a store does, the other directory stays as it was. *)
Lemma exec_frame this w o r this' w' :
  store_wf dir this w -> op_simple o -> exec this w o r this' w' -> far w' = far w.
Proof using Hdir PosixApart0.
  intros Hwf Ho Hex. pose proof (wf_path _ _ _ Hwf) as Hp. pose proof (wf_blocksize _ _ _ Hwf) as Hbs.
  destruct Hex as [k data b this' w' E|k r w' E|k b this' w' E|s this' w' E]; simpl in Ho.
  - by eapply put_frame.
  - eapply get_frame; [done| |done|done]. lia.
  - destruct E as [n Hn]. eapply (remove_frame n); [done|done|]. by apply Hn.
  - destruct E as [n Hn]. eapply (next_frame n); [done|]. by apply Hn.
Qed.

(** A store depends only on what is seen of its directory. *)
Lemma store_wf_view this w w' : near w' = near w -> store_wf dir this w -> store_wf dir this w'.
Proof. intros Hv []. unfold view_of in Hv. split; rewrite ?Hv; done. Qed.

End Frame.
End FbsFrame.
