(* ===== verification/FbsRace.v ===== *)
(** * Two threads in one store

    [FileBlockStore] has no lock, and the handlers of a published store run on
    the workers of an event manager.  [put_open] and [put_finish] are the two
    parts of [putBlock] around its first system call.  When two threads are in
    [putBlock] for the same key at the same time, the block can be one that
    no order of the two calls gives.  The theorems about published stores
    ([RemoteNet]) are about servers that run one handler at a time. *)

From S2P Require Import Prelude BloomFilter CppString Posix FileBlockStore FileBlockStoreProps.
From Stdlib Require Import ZArith Lia Ascii.
From stdpp Require Import base gmap strings fin_maps numbers list.

Local Open Scope Z_scope.

Module FbsRace.
Import FileBlockStore.

Section Parts.
Context {W : Type} `{Posix W}.

(** Up to [open]: [None] when the call is refused. *)
Definition put_open (key : string) (this : t) (w : W) : outcome (option Z * W) :=
  if _freeBlocks this <=? 0 then Ok (None, w)
  else p ← get_fullpath (_path this) key; Ok (os_open_trunc (c_str p) w).

(** The rest, with the descriptor. *)
Definition put_finish (key : string) (data : list Z) (fd : Z) (this : t) (w : W) : outcome (bool * t * W) :=
  if Z.of_nat (length data) >? to_u64 (_blocksize this) then Ok (false, this, w)
  else
    let '(n, w) := os_write fd data w in
    if negb (n =? _blocksize this) then Ok (false, this, w)
    else
      let w := os_close fd w in
      bf ← BloomFilter.set (_bloomfilter this) key;
      Ok (true,
          with_index bf ({[key]} ∪ _blockset this) (to_u32 (_freeBlocks this - 1))
                     (to_u32 (_usedBlocks this + 1)) this, w).

Lemma put_parts key data this w :
  putBlock key data this w =
  ('(fd, w) ← put_open key this w;
   match fd with Some fd => put_finish key data fd this w | None => Ok (false, this, w) end).
Proof.
  unfold putBlock, put_open. destruct (_freeBlocks this <=? 0); [done|].
  destruct (get_fullpath (_path this) key); [|done]. cbn [mbind outcome_bind].
  by destruct (os_open_trunc _ w) as [[fd|] w1].
Qed.

(** Both threads open the file, then the first and the second one go on. *)
Definition racing_puts (key : string) (data1 data2 : list Z) (this : t) (w : W) :
    outcome (bool * bool * t * W) :=
  '(fd1, w) ← put_open key this w;
  '(fd2, w) ← put_open key this w;
  fd1 ← deref fd1;
  fd2 ← deref fd2;
  '(b1, this, w) ← put_finish key data1 fd1 this w;
  '(b2, this, w) ← put_finish key data2 fd2 this w;
  Ok (b1, b2, this, w).

Definition serial_puts (key : string) (data1 data2 : list Z) (this : t) (w : W) :
    outcome (bool * bool * t * W) :=
  '(b1, this, w) ← putBlock key data1 this w;
  '(b2, this, w) ← putBlock key data2 this w;
  Ok (b1, b2, this, w).

(** What a client reads afterwards. *)
Definition then_get (key : string) (r : outcome (bool * bool * t * W)) : outcome (bool * bool * option (list Z)) :=
  '(b1, b2, this, w) ← r; '(block, _) ← getBlock key this w; Ok (b1, b2, block).

End Parts.

(** A whole block and a short one: the first call reports success, the second
    one failure, and the block that is read is neither. *)
Example racing_puts_mix :
  let this := FbsProps.store0 in
  let w := MemFs.disk ∅ 4 40000 in
  then_get "b" (racing_puts "b" [1; 2; 3; 4] [9] this w) = Ok (true, false, Some [9; 2; 3; 4]) /\
  then_get "b" (serial_puts "b" [1; 2; 3; 4] [9] this w) = Ok (true, false, Some [9]) /\
  then_get "b" (serial_puts "b" [9] [1; 2; 3; 4] this w) = Ok (false, true, Some [1; 2; 3; 4]).
Proof. vm_compute. done. Qed.

End FbsRace.
