(* ===== verification/ServiceNode.v ===== *)
(** * The peer-to-peer service node (src/src/rpc/service_node.h, .cc)

    A node keeps its peer connections, the reference-counted members of each
    group and the callbacks interested in a group.  [Internal] is the class
    of the same name.  An RPC client is the list of calls written to it, a
    callback is a number, and [log] records every callback invocation in
    order.  Operations run under the node's mutex and are atomic steps, except
    that [RPCAddPeer] looks its address up and connects before it takes the
    mutex ([addPeer_lookup], [addPeer_locked]).  [NodeFacts] relates what a
    callback was told to the members of its group; [NodeProps] holds the
    properties. *)

From S2P Require Import Prelude.
From Stdlib Require Import ZArith Lia Ascii.
From stdpp Require Import base gmap strings fin_maps numbers relations list.

Local Open Scope Z_scope.

Module ServiceNode.

(** ** Data *)

Inductive arg : Type := AStr (s : string) | AU16 (n : Z).

(** [call<bool, ...>(name, args)]. *)
Record request : Type := Request { rpc_name : string; rpc_args : list arg }.

#[global] Instance arg_eq_dec : EqDecision arg.
Proof. solve_decision. Defined.
#[global] Instance request_eq_dec : EqDecision request.
Proof. solve_decision. Defined.

(** A connected [RPCClient]: the calls made on it, oldest first. *)
Record peer : Type := Peer { calls : list request }.

Definition call (r : request) (p : peer) : peer := Peer (calls p ++ [r]).

(** A callback was invoked with a member name and added/removed. *)
Record event : Type := Fired { ev_cb : nat; ev_name : string; ev_added : bool }.

Abbreviation HostPortPair := (string * Z)%type.
Abbreviation members := (gmap string Z).

Record Internal : Type := Node {
  _host : string;
  _port : Z;
  _peers : gmap HostPortPair peer;
  _groups : gmap string members;
  _group_callbacks : gmap string (list nat);
  log : list event
}.

Definition create (host : string) (port : Z) : Internal := Node host port ∅ ∅ ∅ [].

(** [_groups[group]] and [_group_callbacks[group]], default-constructed when
    absent. *)
Definition group_of (this : Internal) (group : string) : members :=
  default ∅ (_groups this !! group).
Definition callbacks_of (this : Internal) (group : string) : list nat :=
  default [] (_group_callbacks this !! group).

Definition set_group (group : string) (ms : members) (this : Internal) : Internal :=
  Node (_host this) (_port this) (_peers this) (<[group := ms]> (_groups this))
       (_group_callbacks this) (log this).

Definition set_peers (ps : gmap HostPortPair peer) (this : Internal) : Internal :=
  Node (_host this) (_port this) ps (_groups this) (_group_callbacks this) (log this).

Definition set_callbacks (cs : gmap string (list nat)) (this : Internal) : Internal :=
  Node (_host this) (_port this) (_peers this) (_groups this) cs (log this).

(** Invoke the callbacks one after the other. *)
Definition fire (cbs : list nat) (name : string) (added : bool) (this : Internal) : Internal :=
  Node (_host this) (_port this) (_peers this) (_groups this) (_group_callbacks this)
       (log this ++ ((fun cb => Fired cb name added) <$> cbs)).

(** [++] on an [int]. *)
Definition increment (n : Z) : outcome Z :=
  if n =? INT_MAX then Fault SignedOverflow else Ok (n + 1).

(** ** Operations *)

Definition notify_peers (r : request) (this : Internal) : Internal :=
  set_peers (call r <$> _peers this) this.

Definition addToGroup (group name : string) (this : Internal) : outcome Internal :=
  let this := notify_peers (Request "addToGroup" [AStr group; AStr name]) this in
  let ms := group_of this group in
  match ms !! name with
  | Some n => n ← increment n; Ok (set_group group (<[name := n]> ms) this)
  | None =>
      let this := set_group group (<[name := 1]> ms) this in
      let cbs := callbacks_of this group in
      let this := set_callbacks (<[group := cbs]> (_group_callbacks this)) this in
      Ok (fire cbs name true this)
  end.

Definition removeFromGroup (group name : string) (this : Internal) : Internal :=
  let this := notify_peers (Request "removeFromGroup" [AStr group; AStr name]) this in
  let ms := group_of this group in
  match ms !! name with
  | Some n =>
      if n =? 1 then
        let this := set_group group (delete name ms) this in
        match _group_callbacks this !! group with
        | Some cbs => fire cbs name false this
        | None => this
        end
      else set_group group ms this
  | None =>
      (* [_groups[group][name] > 1] creates the entry, with value 0 *)
      set_group group (<[name := 0]> ms) this
  end.

Definition addGroupCallback (group : string) (cb : nat) (this : Internal) : Internal :=
  let this := set_callbacks
    (<[group := callbacks_of this group ++ [cb]]> (_group_callbacks this)) this in
  let ms := group_of this group in
  let this := set_group group ms this in
  Node (_host this) (_port this) (_peers this) (_groups this) (_group_callbacks this)
       (log this ++ ((fun '(name, _) => Fired cb name true) <$> map_in_order string_le ms)).

Definition removeGroupCallback (group : string) (this : Internal) : Internal :=
  set_callbacks (delete group (_group_callbacks this)) this.

(** [_peers[addr]] followed by [_peers.erase(addr)]. *)
Definition RemovePeer (addr : HostPortPair) (this : Internal) : Internal :=
  set_peers (delete addr (_peers this)) this.

(** [TcpSocket::connect] succeeds or not ([connected]).  The future that is
    returned is the answer of the peer's [addPeer], or the value given. *)
Inductive add_peer_result : Type := Immediate (b : bool) | Pending (addr : HostPortPair).

Definition hello (this : Internal) : request :=
  Request "addPeer" [AStr (_host this); AU16 (_port this)].

(** The calls that hook the new peer up with the others and tell it the
    group memberships. *)
Definition introductions (addr : HostPortPair) (this : Internal) : list request :=
  (fun '(a, _) => Request "addPeer" [AStr a.1; AU16 a.2]) <$>
    filter (fun '(a, _) => addr <> a) (map_in_order pair_le (_peers this)).

Definition memberships (this : Internal) : list request :=
  '(group, ms) ← map_in_order string_le (_groups this);
  (fun '(name, _) => Request "addToGroup" [AStr group; AStr name]) <$> map_in_order string_le ms.

(** [RPCAddPeer] does not hold the mutex all the time.  Up to the lookup and the
    connection it is not held, and another thread may be in the same place:
    [addPeer_lookup] is the answer, if there is one by then; the rest,
    [addPeer_locked], does not look again. *)
Definition addPeer_lookup (connected : bool) (addr : HostPortPair) (this : Internal) : option bool :=
  match _peers this !! addr with
  | Some _ => Some true
  | None => if connected then None else Some false
  end.

Definition addPeer_locked (addr : HostPortPair) (this : Internal) : Internal :=
  let this := set_peers (<[addr := Peer []]> (_peers this)) this in
  let calls := hello this :: introductions addr this ++ memberships this in
  set_peers (<[addr := Peer calls]> (_peers this)) this.

Definition RPCAddPeer (connected : bool) (host : string) (port : Z) (this : Internal) :
    add_peer_result * Internal :=
  let addr := (host, port) in
  match addPeer_lookup connected addr this with
  | Some answer => (Immediate answer, this)
  | None => (Pending addr, addPeer_locked addr this)
  end.

Definition RPCAddToGroup (group value : string) (this : Internal) : outcome Internal :=
  let ms := group_of this group in
  match ms !! value with
  | Some n => n ← increment n; Ok (set_group group (<[value := n]> ms) this)
  | None =>
      let this := set_group group (<[value := 1]> ms) this in
      match _group_callbacks this !! group with
      | Some cbs => Ok (fire cbs value true this)
      | None => Ok this
      end
  end.

Definition RPCRemoveFromGroup (group value : string) (this : Internal) : Internal :=
  let ms := group_of this group in
  match ms !! value with
  | Some n =>
      if n =? 1 then
        let this := set_group group (delete value ms) this in
        match _group_callbacks this !! group with
        | Some cbs => fire cbs value false this
        | None => this
        end
      else set_group group ms this
  | None =>
      (* [_groups[group][value]--] creates the entry and decrements it *)
      set_group group (<[value := -1]> ms) this
  end.

(** [shutdown] drops every connection. *)
Definition shutdown (this : Internal) : Internal := set_peers ∅ this.

(** The functions the constructor registers with the RPC server, by name and
    argument types; [connected] answers a connection attempt. *)
Definition dispatch (connected : HostPortPair -> bool) (r : request) (this : Internal) :
    option (outcome Internal) :=
  match rpc_args r with
  | [AStr a; AU16 p] =>
      if bool_decide (rpc_name r = "addPeer"%string)
      then Some (Ok (RPCAddPeer (connected (a, p)) a p this).2) else None
  | [AStr a; AStr b] =>
      if bool_decide (rpc_name r = "addToGroup"%string) then Some (RPCAddToGroup a b this)
      else if bool_decide (rpc_name r = "removeFromGroup"%string)
           then Some (Ok (RPCRemoveFromGroup a b this)) else None
  | _ => None
  end.

(** A peer processes calls in order; a call it does not know makes its server
    drop the connection. *)
Fixpoint deliver (connected : HostPortPair -> bool) (rs : list request) (this : Internal) :
    outcome Internal :=
  match rs with
  | [] => Ok this
  | r :: rs =>
      match dispatch connected r this with
      | Some o => this ← o; deliver connected rs this
      | None => Ok this
      end
  end.

End ServiceNode.

(** ** What a callback has been told *)

Module NodeFacts.
Import ServiceNode.

(** The set of names a callback believes to be members after the events. *)
Definition hear (cb : nat) (known : gset string) (e : event) : gset string :=
  if bool_decide (ev_cb e = cb) then
    if ev_added e then {[ev_name e]} ∪ known else known ∖ {[ev_name e]}
  else known.

Definition heard (cb : nat) (l : list event) : gset string := foldl (hear cb) ∅ l.

Lemma heard_app cb l1 l2 : heard cb (l1 ++ l2) = foldl (hear cb) (heard cb l1) l2.
Proof. apply foldl_app. Qed.

Lemma hear_others cb cbs name b known :
  cb ∉ cbs -> foldl (hear cb) known ((fun c => Fired c name b) <$> cbs) = known.
Proof.
  induction cbs as [|c cbs IH]; [done|]. intros Hn. simpl. unfold hear at 2. simpl.
  rewrite bool_decide_eq_false_2 by set_solver. apply IH. set_solver.
Qed.

Lemma hear_fired cb cbs name b known :
  cb ∈ cbs -> NoDup cbs ->
  foldl (hear cb) known ((fun c => Fired c name b) <$> cbs) =
  if b then {[name]} ∪ known else known ∖ {[name]}.
Proof.
  revert known. induction cbs as [|c cbs IH]; intros known Hin Hnd; [by apply elem_of_nil in Hin|].
  apply NoDup_cons in Hnd as [Hc Hnd]. simpl. unfold hear at 2. simpl.
  destruct (decide (c = cb)) as [->|Hne].
  - rewrite bool_decide_eq_true_2 by done. by apply hear_others.
  - rewrite bool_decide_eq_false_2 by done. apply IH; [set_solver|done].
Qed.

(** A snapshot tells the callback every name of the list. *)
Lemma hear_snapshot {A} cb (l : list (string * A)) known :
  foldl (hear cb) known ((fun '(name, _) => Fired cb name true) <$> l) =
  list_to_set l.*1 ∪ known.
Proof.
  revert known. induction l as [|[k a] l IH]; intros known; [set_solver|].
  simpl. rewrite IH. unfold hear. simpl. rewrite bool_decide_eq_true_2 by done. set_solver.
Qed.

Lemma hear_snapshot_other {A} cb cb' (l : list (string * A)) known :
  cb <> cb' -> foldl (hear cb) known ((fun '(name, _) => Fired cb' name true) <$> l) = known.
Proof.
  intros Hne. induction l as [|[k a] l IH]; [done|]. simpl. unfold hear at 2. simpl.
  by rewrite bool_decide_eq_false_2.
Qed.

(** The names a callback has been told, against the members of its group:
    nothing but members, and all of them except the names of [G], the pairs
    of a group and a name that were removed while they were absent. *)
Definition told (G : gset (string * string)) (g : string) (known members : gset string) : Prop :=
  known ⊆ members /\ forall v, v ∈ members -> v ∈ known \/ (g, v) ∈ G.

Lemma told_all G g ms : told G g ms ms.
Proof. split; [done|]. by left. Qed.

(** An event keeps a callback up to date with the change it is about. *)
Lemma told_event G g known ms name (b : bool) :
  told G g known ms ->
  told G g (if b then {[name]} ∪ known else known ∖ {[name]}) (if b then {[name]} ∪ ms else ms ∖ {[name]}).
Proof.
  intros [Hsub Hall]. split; [destruct b; set_solver|]. intros v Hv.
  destruct (decide (v = name)) as [->|Hne]; [destruct b; set_solver|].
  destruct (Hall v) as [?|?]; [|left|by right]; destruct b; set_solver.
Qed.

(** Every registered callback belongs to one group, once, and has been told
    the members of that group. *)
Record informed (G : gset (string * string)) (this : Internal) : Prop := {
  inf_nodup g : NoDup (callbacks_of this g);
  inf_group g g' cb : cb ∈ callbacks_of this g -> cb ∈ callbacks_of this g' -> g = g';
  inf_heard g cb : cb ∈ callbacks_of this g -> told G g (heard cb (log this)) (dom (group_of this g))
}.

(** No callback of that number has been registered or invoked. *)
Definition fresh_callback (cb : nat) (this : Internal) : Prop :=
  (forall g, cb ∉ callbacks_of this g) /\ heard cb (log this) = ∅.

Lemma group_of_set g g' ms this :
  group_of (set_group g ms this) g' = if decide (g = g') then ms else group_of this g'.
Proof.
  unfold group_of. simpl. destruct (decide (g = g')) as [->|].
  - by rewrite lookup_insert_eq.
  - by rewrite lookup_insert_ne.
Qed.

(** Changing a group and telling its callbacks keeps them informed. *)
Lemma informed_fire G this g name (b : bool) ms :
  informed G this ->
  dom ms = (if b then {[name]} ∪ dom (group_of this g) else dom (group_of this g) ∖ {[name]}) ->
  informed G (fire (callbacks_of this g) name b (set_group g ms this)).
Proof.
  intros [Hnd Hg Hh] Hms. split; [exact Hnd|exact Hg|]. intros g' cb Hcb.
  change (callbacks_of (fire _ _ _ _) g') with (callbacks_of this g') in Hcb.
  change (group_of (fire _ _ _ _) g') with (group_of (set_group g ms this) g').
  rewrite group_of_set. simpl. rewrite heard_app. case_decide as Hgg.
  - subst g'. rewrite hear_fired by (done || apply Hnd). rewrite Hms. by apply told_event, Hh.
  - rewrite hear_others; [by apply Hh|]. intros Hin. apply Hgg. by eapply Hg.
Qed.

(** Counting up or down without changing who is a member. *)
Lemma informed_same G this g ms :
  informed G this -> dom ms = dom (group_of this g) -> informed G (set_group g ms this).
Proof.
  intros [Hnd Hg Hh] Hms. split; [exact Hnd|exact Hg|]. intros g' cb Hcb.
  rewrite group_of_set. change (log (set_group g ms this)) with (log this).
  case_decide; [subst g'; rewrite Hms|]; by apply Hh.
Qed.

(** An entry that nobody is told of, for a name of [G]. *)
Lemma informed_ghost G this g v n :
  informed G this -> informed ({[(g, v)]} ∪ G) (set_group g (<[v := n]> (group_of this g)) this).
Proof.
  intros [Hnd Hg Hh]. split; [exact Hnd|exact Hg|]. intros g' cb Hcb.
  rewrite group_of_set. change (log (set_group g _ this)) with (log this).
  destruct (Hh g' cb Hcb) as [Hsub Hall]. clear - Hsub Hall. case_decide as Hgg.
  - subst g'. rewrite dom_insert_L. split; [set_solver|].
    intros w [->%elem_of_singleton|Hw]%elem_of_union; [right; set_solver|].
    destruct (Hall w Hw); [by left|right; set_solver].
  - split; [done|]. intros w Hw. destruct (Hall w Hw); [by left|right; set_solver].
Qed.

Lemma informed_ext G this this' :
  informed G this -> (forall g, callbacks_of this' g = callbacks_of this g) ->
  (forall g, group_of this' g = group_of this g) -> log this' = log this -> informed G this'.
Proof.
  intros [Hnd Hg Hh] Hc Hgr Hl. split.
  - intros g. by rewrite Hc.
  - intros g g' cb. rewrite !Hc. apply Hg.
  - intros g cb. rewrite Hc, Hl, Hgr. apply Hh.
Qed.

Lemma callbacks_of_touch this g g' :
  callbacks_of (set_callbacks (<[g := callbacks_of this g]> (_group_callbacks this)) this) g' =
  callbacks_of this g'.
Proof.
  unfold callbacks_of at 1. simpl. destruct (decide (g = g')) as [->|].
  - by rewrite lookup_insert_eq.
  - by rewrite lookup_insert_ne.
Qed.

Lemma fire_registered this g ms name b :
  match _group_callbacks (set_group g ms this) !! g with
  | Some cbs => fire cbs name b (set_group g ms this)
  | None => set_group g ms this
  end = fire (callbacks_of this g) name b (set_group g ms this).
Proof.
  unfold callbacks_of. simpl. destruct (_group_callbacks this !! g) as [cbs|]; [done|].
  unfold fire. simpl. rewrite app_nil_r. by destruct this.
Qed.

(** *** Each operation keeps the callbacks informed *)

Lemma increment_ok n m : increment n = Ok m -> m = n + 1.
Proof. unfold increment. destruct (n =? INT_MAX); [done|]. by intros [= <-]. Qed.

Lemma informed_RPCAddToGroup G g v this this' :
  informed G this -> RPCAddToGroup g v this = Ok this' -> informed G this'.
Proof.
  intros Hi. unfold RPCAddToGroup. destruct (group_of this g !! v) as [n|] eqn:Hv.
  - intros H. inv_ok. apply informed_same; [done|]. apply elem_of_dom_2 in Hv. set_solver.
  - intros H. assert (Ok (fire (callbacks_of this g) v true
        (set_group g (<[v := 1]> (group_of this g)) this)) = Ok this') as Heq.
    { rewrite <- H, <- fire_registered. by destruct (_group_callbacks _ !! g). }
    injection Heq as <-. apply informed_fire; [done|]. set_solver.
Qed.

Lemma informed_RPCRemove G g v this :
  informed G this -> v ∈ dom (group_of this g) -> informed G (RPCRemoveFromGroup g v this).
Proof.
  intros Hi [n Hn]%elem_of_dom. unfold RPCRemoveFromGroup. rewrite Hn.
  destruct (n =? 1).
  - rewrite fire_registered. apply informed_fire; [done|]. set_solver.
  - by apply informed_same.
Qed.

Lemma RPCAddToGroup_callbacks g v this this' :
  RPCAddToGroup g v this = Ok this' -> forall g', callbacks_of this' g' = callbacks_of this g'.
Proof.
  unfold RPCAddToGroup. destruct (group_of this g !! v) as [n|]; intros H g'.
  - by inv_ok.
  - destruct (_group_callbacks _ !! g); by inv_ok.
Qed.

Lemma informed_peers G ps this : informed G this -> informed G (set_peers ps this).
Proof. intros Hi. by apply (informed_ext G this). Qed.

(** The local operations are the remote ones after telling the peers, but
    for the entry [addToGroup] makes in the callback table. *)
Lemma addToGroup_remote g v this :
  exists cs, (forall g', default [] (cs !! g') = callbacks_of this g') /\
  addToGroup g v this =
  set_callbacks cs <$>
    RPCAddToGroup g v (notify_peers (Request "addToGroup" [AStr g; AStr v]) this).
Proof.
  unfold addToGroup, RPCAddToGroup. set (this1 := notify_peers _ this).
  destruct (group_of this1 g !! v) as [n|].
  - exists (_group_callbacks this). split; [done|]. by destruct (increment n).
  - exists (<[g := callbacks_of this g]> (_group_callbacks this)). split.
    + intros g'. apply (callbacks_of_touch this).
    + unfold callbacks_of, fire, set_callbacks, set_group; simpl.
      destruct (_group_callbacks this !! g); simpl; [done|]. by rewrite app_nil_r.
Qed.

Lemma removeFromGroup_present g v this :
  v ∈ dom (group_of this g) ->
  removeFromGroup g v this =
  RPCRemoveFromGroup g v (notify_peers (Request "removeFromGroup" [AStr g; AStr v]) this).
Proof.
  intros [n Hn]%elem_of_dom. unfold removeFromGroup, RPCRemoveFromGroup.
  set (this1 := notify_peers _ this). change (group_of this1 g) with (group_of this g).
  by rewrite Hn.
Qed.

Lemma informed_addToGroup G g v this this' :
  informed G this -> addToGroup g v this = Ok this' -> informed G this'.
Proof.
  intros Hi. destruct (addToGroup_remote g v this) as (cs & Hcs & ->).
  destruct (RPCAddToGroup _ _ _) as [this1|] eqn:E; simpl; [|done]. intros [= <-].
  pose proof (informed_RPCAddToGroup _ _ _ _ _ (informed_peers _ _ _ Hi) E) as Hi1.
  apply (informed_ext G this1); [done| |done|done]. intros g'.
  transitivity (callbacks_of this g'); [apply Hcs|]. symmetry.
  by eapply RPCAddToGroup_callbacks in E as ->.
Qed.

Lemma informed_addGroupCallback G g cb this :
  informed G this -> fresh_callback cb this -> informed G (addGroupCallback g cb this).
Proof.
  intros [Hnd Hg Hh] [Hnew Hzero].
  assert (forall g', callbacks_of (addGroupCallback g cb this) g' =
            if decide (g = g') then callbacks_of this g ++ [cb] else callbacks_of this g') as Hcs.
  { intros g'. unfold callbacks_of at 1. simpl. case_decide as Hgg.
    - subst. by rewrite lookup_insert_eq.
    - by rewrite lookup_insert_ne. }
  assert (forall g', group_of (addGroupCallback g cb this) g' = group_of this g') as Hgr.
  { intros g'. unfold group_of at 1. simpl. destruct (decide (g = g')) as [->|].
    - by rewrite lookup_insert_eq.
    - by rewrite lookup_insert_ne. }
  split.
  - intros g'. rewrite Hcs. case_decide; [|done]. apply NoDup_app.
    split_and!; [done| |apply NoDup_singleton]. set_solver.
  - intros g1 g2 c. rewrite !Hcs. repeat case_decide; subst; set_solver.
  - intros g' c. rewrite Hcs, Hgr. simpl. rewrite heard_app.
    destruct (decide (c = cb)) as [->|Hne].
    + rewrite hear_snapshot, Hzero, union_empty_r_L. case_decide as Hgg; [|set_solver].
      subst g'. intros _. replace (list_to_set _) with (dom (group_of this g)); [apply told_all|].
      apply set_eq. intros k. by rewrite elem_of_list_to_set, map_in_order_keys.
    + rewrite hear_snapshot_other by done. case_decide as Hgg; [subst g'|apply Hh].
      intros Hin. apply Hh. set_solver.
Qed.

Lemma informed_removeGroupCallback G g this :
  informed G this -> informed G (removeGroupCallback g this).
Proof.
  intros [Hnd Hg Hh].
  assert (forall g', callbacks_of (removeGroupCallback g this) g' =
            if decide (g = g') then [] else callbacks_of this g') as Hcs.
  { intros g'. unfold callbacks_of at 1. simpl. case_decide as Hgg.
    - subst. by rewrite lookup_delete_eq.
    - by rewrite lookup_delete_ne. }
  split.
  - intros g'. rewrite Hcs. case_decide; [apply NoDup_nil_2|done].
  - intros g1 g2 c. rewrite !Hcs. repeat case_decide; subst; set_solver.
  - intros g' c. rewrite Hcs. case_decide; [set_solver|apply Hh].
Qed.

End NodeFacts.

(** ** Properties *)

Module NodeProps.
Import ServiceNode NodeFacts.

(** [RPCAddPeer], when no other thread comes in between. *)
Lemma RPCAddPeer_split connected host port this :
  (RPCAddPeer connected host port this).2 =
  match addPeer_lookup connected (host, port) this with
  | Some _ => this
  | None => addPeer_locked (host, port) this
  end.
Proof. unfold RPCAddPeer. by destruct (addPeer_lookup _ _ _). Qed.

(** One operation on a node, local or remote, or the locked part of
    [RPCAddPeer] (the other part changes nothing).  Members are only removed
    when they are there, and every callback is registered once. *)
Inductive step (this : Internal) : Internal -> Prop :=
  | step_add g v this' : addToGroup g v this = Ok this' -> step this this'
  | step_remove g v : v ∈ dom (group_of this g) -> step this (removeFromGroup g v this)
  | step_rpc_add g v this' : RPCAddToGroup g v this = Ok this' -> step this this'
  | step_rpc_remove g v : v ∈ dom (group_of this g) -> step this (RPCRemoveFromGroup g v this)
  | step_add_callback g cb : fresh_callback cb this -> step this (addGroupCallback g cb this)
  | step_remove_callback g : step this (removeGroupCallback g this)
  | step_connect addr : step this (addPeer_locked addr this)
  | step_remove_peer addr : step this (RemovePeer addr this)
  | step_shutdown : step this (shutdown this).

Lemma step_informed G this this' : informed G this -> step this this' -> informed G this'.
Proof.
  intros Hi Hstep.
  destruct Hstep as [g v this' E|g v Hv|g v this' E|g v Hv|g cb Hcb|g|addr|addr|].
  - by eapply informed_addToGroup.
  - rewrite removeFromGroup_present by done. apply informed_RPCRemove; [|done].
    by apply informed_peers.
  - by eapply informed_RPCAddToGroup.
  - by apply informed_RPCRemove.
  - by apply informed_addGroupCallback.
  - by apply informed_removeGroupCallback.
  - by apply (informed_ext G this).
  - by apply informed_peers.
  - by apply informed_peers.
Qed.

(** One operation on a node, with the pairs of a group and a name that were
    removed while they were absent: what the interface allows, and the
    remote calls as well. *)
Inductive any_step : Internal * gset (string * string) -> Internal * gset (string * string) -> Prop :=
  | any_present this this' G : step this this' -> any_step (this, G) (this', G)
  | any_remove_absent this G g v : v ∉ dom (group_of this g) ->
      any_step (this, G) (removeFromGroup g v this, {[(g, v)]} ∪ G)
  | any_rpc_remove_absent this G g v : v ∉ dom (group_of this g) ->
      any_step (this, G) (RPCRemoveFromGroup g v this, {[(g, v)]} ∪ G).

Lemma any_step_informed s s' : informed s.2 s.1 -> any_step s s' -> informed s'.2 s'.1.
Proof.
  intros Hi Hs.
  destruct Hs as [this this' G Hs|this G g v Hv%not_elem_of_dom|this G g v Hv%not_elem_of_dom];
    simpl in *; [by eapply step_informed| |].
  - unfold removeFromGroup. set (this1 := notify_peers _ this).
    change (group_of this1 g) with (group_of this g). rewrite Hv.
    apply (informed_ghost G this1 g v 0). by apply informed_peers.
  - unfold RPCRemoveFromGroup. rewrite Hv. by apply informed_ghost.
Qed.

(** C28. Group callbacks are never stale, and complete but for names that were
    removed while they were absent: in every state a node reaches from its
    creation by local and remote operations, peers coming and going and
    removals of absent names included (a callback's number stands for one
    registration of it), what a registered callback has been
    told (the snapshot at registration and every event since) adds up to
    members of its group only, and a name that was never removed from the
    group while it was absent ([removed_absent] has those that were) is among
    what it was told exactly when it is a member. *)
Theorem callbacks_informed (host : string) (port : Z) (this : Internal)
  (removed_absent : gset (string * string))
  (Hreach : rtc any_step (create host port, ∅) (this, removed_absent)) :
  forall group cb, cb ∈ callbacks_of this group ->
    heard cb (log this) ⊆ dom (group_of this group) /\
    forall name, (group, name) ∉ removed_absent ->
      (name ∈ heard cb (log this) <-> name ∈ dom (group_of this group)).
Proof.
  enough (informed removed_absent this) as Hi.
  { intros g cb Hcb. destruct (inf_heard _ _ Hi _ _ Hcb) as [Hsub Hall]. split; [done|].
    intros name Hn. split; [apply Hsub|]. intros Hv. by destruct (Hall _ Hv). }
  assert (informed ∅ (create host port)) as Hinit by (split; [constructor|set_solver|set_solver]).
  revert Hinit. change (informed ∅ (create host port)) with
    (informed (create host port, ∅ : gset (string * string)).2 (create host port, ∅ : gset (string * string)).1).
  change (informed removed_absent this) with (informed (this, removed_absent).2 (this, removed_absent).1).
  induction Hreach as [|a b c Hab _ IH]; [done|]. intros Hi. apply IH. by eapply any_step_informed.
Qed.

(** Adding a member counts its references: the count grows by one, the
    callbacks of the group, and only they, are told when it was absent, no
    other member of any group changes, and every peer is sent the call
    exactly once. *)
Theorem add_member (this this' : Internal) (group name : string)
  (Hadd : addToGroup group name this = Ok this') :
  group_of this' group = <[name := default 0 (group_of this group !! name) + 1]> (group_of this group) /\
  (forall g, g <> group -> group_of this' g = group_of this g) /\
  log this' = log this ++
    (if bool_decide (name ∈ dom (group_of this group)) then []
     else (fun cb => Fired cb name true) <$> callbacks_of this group) /\
  _peers this' = call (Request "addToGroup" [AStr group; AStr name]) <$> _peers this.
Proof.
  revert Hadd. unfold addToGroup. set (this1 := notify_peers _ this).
  change (group_of this1 group) with (group_of this group).
  destruct (group_of this group !! name) as [n|] eqn:Hn; intros H.
  - inv_ok. apply increment_ok in Ha as ->. rewrite bool_decide_eq_true_2, app_nil_r
      by (by eapply elem_of_dom_2). simpl. split_and!; [|intros g Hg|done|done].
    + rewrite group_of_set, decide_True by done. done.
    + rewrite group_of_set, decide_False by done. done.
  - injection H as <-. rewrite bool_decide_eq_false_2 by (by apply not_elem_of_dom).
    simpl. split_and!; [|intros g Hg|done|done]; unfold group_of at 1; simpl.
    + by rewrite lookup_insert_eq.
    + by rewrite lookup_insert_ne.
Qed.

(** Dropping the only reference removes the member and tells the
    callbacks of the group; no other member changes. *)
Theorem remove_last_reference (this : Internal) (group name : string)
  (Hone : group_of this group !! name = Some 1) :
  let this' := removeFromGroup group name this in
  group_of this' group = delete name (group_of this group) /\
  (forall g, g <> group -> group_of this' g = group_of this g) /\
  log this' = log this ++ ((fun cb => Fired cb name false) <$> callbacks_of this group) /\
  _peers this' = call (Request "removeFromGroup" [AStr group; AStr name]) <$> _peers this.
Proof.
  cbn zeta. rewrite removeFromGroup_present by (by eapply elem_of_dom_2).
  unfold RPCRemoveFromGroup. set (this1 := notify_peers _ this).
  change (group_of this1 group) with (group_of this group). rewrite Hone.
  cbn [Z.eqb Pos.eqb]. rewrite (fire_registered this1). simpl. split_and!; [|intros g Hg|done|done].
  - unfold group_of at 1. simpl. by rewrite lookup_insert_eq.
  - unfold group_of at 1. simpl. by rewrite lookup_insert_ne.
Qed.

(** References beyond the first are never released: removing a member
    whose count is not one changes no group, locally or through the RPC, so a
    member that was added twice stays however often it is removed. *)
Theorem shared_member_stuck (this : Internal) (group name : string) (n : Z) (k : nat)
  (Hn : group_of this group !! name = Some n) (Hshared : n <> 1) :
  group_of (Nat.iter k (removeFromGroup group name) this) group = group_of this group /\
  log (Nat.iter k (removeFromGroup group name) this) = log this.
Proof.
  induction k as [|k [IHg IHl]]; [done|]. simpl. set (st := Nat.iter k _ this) in *.
  rewrite removeFromGroup_present by (rewrite IHg; by eapply elem_of_dom_2).
  unfold RPCRemoveFromGroup. set (this1 := notify_peers _ st).
  change (group_of this1 group) with (group_of st group). rewrite IHg, Hn.
  rewrite (proj2 (Z.eqb_neq _ _)) by done. rewrite group_of_set, decide_True by done.
  split; [done|exact IHl].
Qed.

(** Removing something that is not there is not the no-op the interface
    promises: it leaves an entry with no reference behind, and adding that
    member afterwards tells no callback. *)
Theorem ghost_member (this this' : Internal) (group name : string)
  (Habsent : group_of this group !! name = None)
  (Hadd : addToGroup group name (removeFromGroup group name this) = Ok this') :
  name ∈ dom (group_of (removeFromGroup group name this) group) /\
  group_of this' group !! name = Some 1 /\ log this' = log this.
Proof.
  assert (group_of (removeFromGroup group name this) group =
          <[name := 0]> (group_of this group) /\
          log (removeFromGroup group name this) = log this) as [Hg Hl].
  { unfold removeFromGroup. set (this1 := notify_peers _ this).
    change (group_of this1 group) with (group_of this group). rewrite Habsent.
    by rewrite group_of_set, decide_True. }
  revert Hadd. unfold addToGroup. set (this1 := notify_peers _ (removeFromGroup group name this)).
  change (group_of this1 group) with (group_of (removeFromGroup group name this) group).
  rewrite Hg, lookup_insert_eq. cbn. intros [= <-].
  rewrite group_of_set, decide_True by done. split_and!; [set_solver| |exact Hl].
  by rewrite lookup_insert_eq.
Qed.

(** *** The handshake with a new peer *)

Lemma deliver_app connected rs1 rs2 this :
  Forall (fun r => forall st, dispatch connected r st <> None) rs1 ->
  deliver connected (rs1 ++ rs2) this = deliver connected rs1 this ≫= deliver connected rs2.
Proof.
  intros Hk. revert this. induction Hk as [|r rs1 Hr _ IH]; intros this; [done|]. simpl.
  destruct (dispatch connected r this) as [[this1|]|] eqn:E; simpl; [apply IH|done|].
  by destruct (Hr this).
Qed.

(** Who is a member where. *)
Definition is_member (this : Internal) (g v : string) : Prop := v ∈ dom (group_of this g).

#[global] Instance is_member_dec this g v : Decision (is_member this g v).
Proof. unfold is_member. apply _. Defined.

Lemma rpc_add_members this g v n :
  default 0 (group_of this g !! v) < n -> n <= INT_MAX ->
  exists this', RPCAddToGroup g v this = Ok this' /\
    (forall g', group_of this' g' = if decide (g = g')
       then <[v := default 0 (group_of this g !! v) + 1]> (group_of this g) else group_of this g') /\
    _peers this' = _peers this.
Proof.
  unfold RPCAddToGroup. intros Hlt Hn. destruct (group_of this g !! v) as [m|] eqn:E; simpl in *.
  - unfold increment. rewrite (proj2 (Z.eqb_neq _ _)) by lia. simpl.
    eexists. split; [done|]. split; [|done]. intros g'. apply group_of_set.
  - exists (fire (callbacks_of this g) v true (set_group g (<[v := 1]> (group_of this g)) this)).
    split_and!; [|intros g'; apply (group_of_set g g')|done].
    rewrite <- fire_registered. by destruct (_group_callbacks _ !! g).
Qed.

Lemma deliver_adds connected gv this :
  NoDup gv ->
  (forall g v, (g, v) ∈ gv -> default 0 (group_of this g !! v) < INT_MAX) ->
  exists this', deliver connected
      ((fun '(g, v) => Request "addToGroup" [AStr g; AStr v]) <$> gv) this = Ok this' /\
    (forall g v, is_member this' g v <-> is_member this g v \/ (g, v) ∈ gv) /\
    _peers this' = _peers this.
Proof.
  revert this. induction gv as [|[g v] gv IH]; intros this Hnd Hmax; simpl.
  { exists this. split_and!; [done| |done]. set_solver. }
  apply NoDup_cons in Hnd as [Hnew Hnd].
  destruct (rpc_add_members this g v INT_MAX) as (this1 & -> & Hg & Hp); [|lia|].
  { apply Hmax. left. }
  simpl. destruct (IH this1 Hnd) as (this' & Hrun & Hmem & Hp').
  { intros g' v' Hin. rewrite Hg. case_decide as Hgg; [subst g'|apply Hmax; by right].
    rewrite lookup_insert_ne by (intros ->; done). apply Hmax. by right. }
  exists this'. split_and!; [done| |congruence]. intros g' v'. rewrite Hmem. unfold is_member.
  rewrite Hg. case_decide; set_solver.
Qed.

(** The members in the order the handshake announces them. *)
Definition announced (this : Internal) : list (string * string) :=
  '(g, ms) ← map_in_order string_le (_groups this);
  (fun x => (g, x.1)) <$> map_in_order string_le ms.

Lemma memberships_announced this :
  memberships this = (fun '(g, v) => Request "addToGroup" [AStr g; AStr v]) <$> announced this.
Proof.
  unfold memberships, announced. rewrite list_fmap_of_bind. apply list_bind_ext; [|done].
  intros [g ms]. rewrite <- list_fmap_compose. apply list_fmap_ext. by intros _ [v n] _.
Qed.

Lemma elem_of_announced this g v : (g, v) ∈ announced this <-> is_member this g v.
Proof.
  unfold announced, is_member, group_of. rewrite list_elem_of_bind. split.
  - intros ([g' ms] & Hin & Hg). apply list_elem_of_fmap in Hin as (x & [= -> ->] & Hx).
    apply elem_of_map_in_order in Hg. rewrite Hg. simpl. destruct x as [v n].
    apply elem_of_map_in_order in Hx. by eapply elem_of_dom_2.
  - destruct (_groups this !! g) as [ms|] eqn:E; simpl; [|set_solver].
    intros [n Hn]%elem_of_dom. exists (g, ms). rewrite elem_of_map_in_order. split; [|done].
    apply list_elem_of_fmap. exists (v, n). by rewrite elem_of_map_in_order.
Qed.

Lemma NoDup_map_in_order {A} (m : gmap string A) : NoDup (map_in_order string_le m).
Proof. rewrite map_in_order_Permutation. apply NoDup_map_to_list. Qed.

Lemma announced_nodup this : NoDup (announced this).
Proof.
  unfold announced. apply NoDup_bind.
  - intros [g1 m1] [g2 m2] [g v] H1 H2 (x & [= -> ->] & Hx)%list_elem_of_fmap
      (y & [= -> ?] & Hy)%list_elem_of_fmap.
    apply elem_of_map_in_order in H1, H2. congruence.
  - intros [g ms] _. change (NoDup ((pair g ∘ fst) <$> map_in_order string_le ms)).
    rewrite list_fmap_compose. apply NoDup_fmap; [intros ?? [= ?]; done|].
    rewrite map_in_order_Permutation. apply NoDup_fst_map_to_list.
  - apply NoDup_map_in_order.
Qed.

(** The calls of the handshake other than the memberships concern peers. *)
Lemma deliver_introductions connected rs this :
  Forall (fun r => exists a p, r = Request "addPeer" [AStr a; AU16 p]) rs ->
  exists this', deliver connected rs this = Ok this' /\ _groups this' = _groups this.
Proof.
  intros Hrs. revert this. induction Hrs as [|r rs (a & p & ->) _ IH]; intros this; [by exists this|].
  simpl. destruct (IH (RPCAddPeer (connected (a, p)) a p this).2) as (this' & Hrun & Hg).
  exists this'. split; [done|]. rewrite Hg. unfold RPCAddPeer, addPeer_lookup, addPeer_locked.
  destruct (_peers this !! _); [done|]. by destruct (connected _).
Qed.

(** Joining the network shares the directory: connecting to an unknown
    peer writes a list of calls to it which that peer, whatever it knows
    already, can process to the end, and afterwards its members are its own
    and all of this node's, in every group. *)
Theorem handshake_shares_directory (this other : Internal) (host : string) (port : Z)
    (connected : HostPortPair -> bool)
  (Hnew : _peers this !! (host, port) = None)
  (Hcount : forall g v, default 0 (group_of other g !! v) < INT_MAX) :
  let this' := (RPCAddPeer true host port this).2 in
  exists p other', _peers this' !! (host, port) = Some p /\
    deliver connected (calls p) other = Ok other' /\
    forall g v, is_member other' g v <-> is_member other g v \/ is_member this g v.
Proof.
  unfold RPCAddPeer, addPeer_lookup, addPeer_locked. rewrite Hnew. simpl. eexists. 
  set (st := set_peers _ this).
  set (intro := hello st :: introductions (host, port) st).
  assert (Forall (fun r => exists a p, r = Request "addPeer" [AStr a; AU16 p]) intro) as Hintro.
  { constructor; [by eexists _, _|]. apply Forall_fmap, Forall_forall. intros [a q] _. by eexists _, _. }
  destruct (deliver_introductions connected intro other Hintro) as (other1 & Hrun1 & Hg1).
  assert (forall g, group_of other1 g = group_of other g) as Hgr by (intros g; unfold group_of; by rewrite Hg1).
  destruct (deliver_adds connected (announced this) other1 (announced_nodup this)) as (other2 & Hrun2 & Hmem & _).
  { intros g v _. by rewrite Hgr. }
  exists other2. split_and!; [apply lookup_insert_eq| |].
  - change (calls _) with (intro ++ memberships st). rewrite deliver_app, Hrun1.
    + simpl. change (memberships st) with (memberships this). by rewrite memberships_announced.
    + eapply Forall_impl; [exact Hintro|]. intros r (a & q & ->) s'. done.
  - intros g v. rewrite Hmem, elem_of_announced. unfold is_member. by rewrite Hgr.
Qed.

(** The mesh grows by one edge at a time: a known peer and a failed
    connection change nothing; a new peer is first sent this node's address,
    then the address of every other peer exactly once, and the connections to
    the other peers are left alone. *)
Theorem add_peer_introduces (this : Internal) (connected : bool) (host : string) (port : Z) :
  let addr := (host, port) in
  let '(r, this') := RPCAddPeer connected host port this in
  match _peers this !! addr, connected with
  | Some _, _ => r = Immediate true /\ this' = this
  | None, false => r = Immediate false /\ this' = this
  | None, true =>
      r = Pending addr /\ _groups this' = _groups this /\
      (forall a, a <> addr -> _peers this' !! a = _peers this !! a) /\
      exists others, NoDup others /\ (forall a, a ∈ others <-> a ∈ dom (_peers this)) /\
        calls <$> _peers this' !! addr =
        Some (hello this :: ((fun a => Request "addPeer" [AStr a.1; AU16 a.2]) <$> others) ++
              memberships this)
  end.
Proof.
  cbn zeta. unfold RPCAddPeer, addPeer_lookup, addPeer_locked. destruct (_peers this !! (host, port)) eqn:E; [done|].
  destruct connected; [|done]. split; [done|]. split; [done|]. split.
  { intros a Ha. simpl. by rewrite !lookup_insert_ne. }
  set (st := set_peers (<[(host, port) := Peer []]> (_peers this)) this).
  set (l := filter (fun '(a, _) => (host, port) <> a) (map_in_order pair_le (_peers st))).
  exists l.*1. split_and!.
  - unfold l. apply NoDup_fmap_filter. rewrite map_in_order_Permutation.
    apply NoDup_fst_map_to_list.
  - intros a. unfold l. rewrite list_elem_of_fmap, elem_of_dom. split.
    + intros ([a' q] & -> & Hin). apply list_elem_of_filter in Hin as [Hne Hin].
      apply elem_of_map_in_order in Hin. simpl in Hin. rewrite lookup_insert_ne in Hin by done. by eexists.
    + intros [q Hq]. exists (a, q). split; [done|]. apply list_elem_of_filter. split; [congruence|].
      apply elem_of_map_in_order. simpl. rewrite lookup_insert_ne; congruence.
  - simpl. rewrite lookup_insert_eq. simpl. do 3 f_equal. unfold introductions. fold l.
    rewrite <- list_fmap_compose. apply list_fmap_ext. by intros _ [a q] _.
Qed.

(** Two nodes: [a] added the member twice, [b] joins afterwards. *)
Definition node_a (n : Z) : Internal :=
  Node "a" 1 ∅ {["g"%string := {["m"%string := n]}]} {["g"%string := []]} [].
Definition node_b : Internal := Node "b" 2 ∅ {["g"%string := {["m"%string := 1]}]} ∅ [].
Definition node_b' : Internal := Node "b" 2 ∅ {["g"%string := ∅]} ∅ [].
Definition a_calls : list request :=
  [Request "addPeer" [AStr "a"; AU16 1]; Request "addToGroup" [AStr "g"; AStr "m"]].

(** Reference counts are not part of the handshake: a node that joins
    after a member was added twice holds one reference, so the first removal
    takes the member from its directory while the other node keeps it. *)
Theorem replicas_diverge :
  rtc step (create "a" 1) (node_a 2) /\
  calls <$> _peers (RPCAddPeer true "b" 2 (node_a 2)).2 !! ("b"%string, 2) = Some a_calls /\
  deliver (fun _ => false) a_calls (create "b" 2) = Ok node_b /\
  removeFromGroup "g" "m" (node_a 2) = node_a 2 /\
  deliver (fun _ => false) [Request "removeFromGroup" [AStr "g"; AStr "m"]] node_b = Ok node_b' /\
  is_member (node_a 2) "g" "m" /\ ~ is_member node_b' "g" "m".
Proof.
  split_and!; try (vm_compute; reflexivity).
  - eapply rtc_l; [apply (step_add _ "g" "m" (node_a 1)); vm_compute; reflexivity|].
    eapply rtc_l; [apply (step_add _ "g" "m" (node_a 2)); vm_compute; reflexivity|]. apply rtc_refl.
  - apply (bool_decide_unpack _). vm_compute. exact I.
Qed.

(** ** Witnesses *)

(** A node with a member, a callback and a peer. *)
Definition node0 : Internal :=
  Node "a" 1 {[("p"%string, 7) := Peer []]} {["g"%string := {["m"%string := 1]}]}
       {["g"%string := [0%nat]]} [Fired 0 "m" true].

Definition node1 : Internal := addGroupCallback "g" 0 (create "a" 1).

Lemma callbacks_informed_witness : exists this,
  rtc any_step (create "a" 1, ∅) (this, {[("g"%string, "x"%string)]}) /\
  "x"%string ∈ dom (group_of this "g") /\ "m"%string ∈ heard 0 (log this).
Proof.
  destruct (addToGroup "g" "m" (removeFromGroup "g" "x" node1)) as [this|] eqn:E; [|discriminate E].
  assert (rtc any_step (create "a" 1, ∅) (this, {[("g"%string, "x"%string)]})) as Hr.
  { eapply rtc_l; [apply any_present, (step_add_callback _ "g" 0)|].
    - split; [intros g; apply not_elem_of_nil|reflexivity].
    - eapply rtc_l; [apply (any_remove_absent _ _ "g" "x"); apply not_elem_of_dom; reflexivity|].
      rewrite union_empty_r_L.
      eapply rtc_l; [apply any_present, (step_add _ "g" "m"); exact E|]. apply rtc_refl. }
  exists this. split; [exact Hr|]. split.
  - injection E as <-. apply elem_of_dom. exists 0. reflexivity.
  - apply (callbacks_informed "a" 1 this _ Hr "g" 0).
    + injection E as <-. left.
    + apply (bool_decide_unpack _). vm_compute. exact I.
    + injection E as <-. apply elem_of_dom. exists 1. reflexivity.
Defined.

Lemma add_member_witness : exists this',
  addToGroup "g" "n" node0 = Ok this' /\ log this' = [Fired 0 "m" true; Fired 0 "n" true].
Proof.
  destruct (addToGroup "g" "n" node0) as [this'|] eqn:E; [|discriminate E].
  exists this'. split; [reflexivity|].
  destruct (add_member node0 this' "g" "n") as (_ & _ & Hl & _).
  - exact E.
  - rewrite Hl. reflexivity.
Defined.

Lemma remove_last_reference_witness :
  log (removeFromGroup "g" "m" node0) = [Fired 0 "m" true; Fired 0 "m" false].
Proof.
  destruct (remove_last_reference node0 "g" "m") as (_ & _ & Hl & _).
  - reflexivity.
  - rewrite Hl. reflexivity.
Defined.

Lemma shared_member_stuck_witness : exists this,
  addToGroup "g" "m" node0 = Ok this /\
  group_of (Nat.iter 5 (removeFromGroup "g" "m") this) "g" = group_of this "g".
Proof.
  destruct (addToGroup "g" "m" node0) as [this|] eqn:E; [|discriminate E].
  exists this. split; [reflexivity|].
  apply (shared_member_stuck this "g" "m" 2 5).
  - injection E as <-. reflexivity.
  - lia.
Defined.

Lemma ghost_member_witness : exists this',
  addToGroup "g" "x" (removeFromGroup "g" "x" node0) = Ok this' /\ log this' = log node0.
Proof.
  destruct (addToGroup "g" "x" (removeFromGroup "g" "x" node0)) as [this'|] eqn:E; [|discriminate E].
  exists this'. split; [reflexivity|].
  apply (ghost_member node0 this' "g" "x").
  - reflexivity.
  - exact E.
Defined.

Lemma handshake_shares_directory_witness : exists p other',
  deliver (fun _ => true) (calls p) (create "b" 2) = Ok other' /\ is_member other' "g" "m".
Proof.
  destruct (handshake_shares_directory node0 (create "b" 2) "b" 2 (fun _ => true))
    as (p & other' & _ & Hrun & Hmem).
  - reflexivity.
  - intros g v. reflexivity.
  - exists p, other'. split; [exact Hrun|]. apply Hmem. right.
    apply (bool_decide_unpack _). reflexivity.
Defined.

End NodeProps.
