(* ===== verification/Mesh.v ===== *)
(** * A network of service nodes (src/src/rpc/service_node.h, .cc)

    [ServiceNode] follows one node; here any number of them talk to each
    other.  A [mesh] holds the nodes by address, the calls that have been
    written and not yet executed, the threads that are between the two parts
    of [RPCAddPeer], and the broken connections whose owner has not noticed
    yet.  Workers may execute all of these in any order.  Nodes come up,
    connect to each other, announce members and leave for good, by crashing
    or in an orderly way; members are not removed here (see [MeshMembers]).
    [MeshFacts] proves the invariant of the gossip, [MeshProps] that it ends,
    and that it ends with cliques of nodes that agree on all groups. *)

From S2P Require Import Prelude ServiceNode.
From Stdlib Require Import ZArith Lia Ascii Relation_Operators Lexicographic_Product.
From stdpp Require Import base gmap strings fin_maps numbers relations list.

Local Open Scope Z_scope.

Module Mesh.
Import ServiceNode.

(** A call: who wrote it, to whom. *)
Abbreviation envelope := (HostPortPair * HostPortPair * request)%type.

Record mesh : Type := mkMesh {
  nodes : gmap HostPortPair Internal;
  soup : list envelope;
  connecting : list (HostPortPair * HostPortPair);
  lost : list (HostPortPair * HostPortPair);
  gone : gset HostPortPair
}.

Definition empty_mesh : mesh := mkMesh ∅ [] [] [] ∅.

Definition add_peer (x : HostPortPair) : request := Request "addPeer" [AStr x.1; AU16 x.2].
Definition add_group (g v : string) : request := Request "addToGroup" [AStr g; AStr v].

(** The calls a node has written to its peers since they were last taken. *)
Definition outbox (this : Internal) : list (HostPortPair * request) :=
  '(b, p) ← map_in_order pair_le (_peers this); (fun r => (b, r)) <$> calls p.

Definition flushed (this : Internal) : Internal := set_peers ((fun _ => Peer []) <$> _peers this) this.

(** Every node that is up can be connected to. *)
Definition reachable (m : mesh) (a : HostPortPair) : bool := bool_decide (a ∈ dom (nodes m)).

(** What node [a] wrote; nothing arrives at a node that is gone. *)
Definition sent (m : mesh) (a : HostPortPair) (this : Internal) : list envelope :=
  (fun '(b, r) => (a, b, r)) <$> filter (fun c => c.1 ∈ dom (nodes m)) (outbox this).

(** Node [a] is now [this]; what it wrote is on its way. *)
Definition update (a : HostPortPair) (this : Internal) (rest : list envelope)
    (conn lst : list (HostPortPair * HostPortPair)) (m : mesh) : mesh :=
  mkMesh (<[a := flushed this]> (nodes m)) (rest ++ sent m a this) conn lst (gone m).

(** The first part of [RPCAddPeer] at [a]: a thread goes on, or it is done. *)
Definition looked_up (m : mesh) (a x : HostPortPair) (this : Internal) : list (HostPortPair * HostPortPair) :=
  match addPeer_lookup (reachable m x) x this with
  | Some _ => connecting m
  | None => connecting m ++ [(a, x)]
  end.

(** A connection to a node that has gone in the meantime breaks at once. *)
Definition broken (m : mesh) (a x : HostPortPair) : list (HostPortPair * HostPortPair) :=
  if reachable m x then lost m else lost m ++ [(a, x)].

(** What workers do: execute a call other than [addPeer]; the first part of an
    [addPeer]; the second part; the disconnect callback of a connection. *)
Inductive delivers (m : mesh) : mesh -> Prop :=
  | deliver_group i s a r this this' :
      soup m !! i = Some (s, a, r) -> nodes m !! a = Some this -> (forall x, r <> add_peer x) ->
      dispatch (reachable m) r this = Some (Ok this') ->
      delivers m (update a this' (delete i (soup m)) (connecting m) (lost m) m)
  | deliver_addPeer i s a x this :
      soup m !! i = Some (s, a, add_peer x) -> nodes m !! a = Some this ->
      delivers m (update a this (delete i (soup m)) (looked_up m a x this) (lost m) m)
  | deliver_connected j a x this :
      connecting m !! j = Some (a, x) -> nodes m !! a = Some this ->
      delivers m (update a (addPeer_locked x this) (soup m) (delete j (connecting m)) (broken m a x) m)
  | deliver_disconnect j a x this :
      lost m !! j = Some (a, x) -> nodes m !! a = Some this ->
      delivers m (update a (RemovePeer x this) (soup m) (connecting m) (delete j (lost m)) m).

(** What users do: bring a node up, [addPeer], [addToGroup].  A node that
    leaves takes its threads with it; calls to it are lost, those it has
    written may be; its peers will notice, each at least once. *)
Inductive acts (m : mesh) : mesh -> Prop :=
  | act_create a : a ∉ dom (nodes m) -> a ∉ gone m ->
      acts m (mkMesh (<[a := create a.1 a.2]> (nodes m)) (soup m) (connecting m) (lost m) (gone m))
  | act_addPeer a x this : nodes m !! a = Some this -> a <> x ->
      acts m (update a this (soup m) (looked_up m a x this) (lost m) m)
  | act_addToGroup a g v this this' : nodes m !! a = Some this -> addToGroup g v this = Ok this' ->
      acts m (update a this' (soup m) (connecting m) (lost m) m)
  | act_leave a rest notices : a ∈ dom (nodes m) ->
      (forall c, c ∈ rest -> c ∈ soup m /\ c.1.2 <> a) ->
      (forall c, c ∈ soup m -> c.1.1 <> a -> c.1.2 <> a -> c ∈ rest) ->
      (forall b this, nodes m !! b = Some this -> b <> a -> a ∈ dom (_peers this) -> (b, a) ∈ notices) ->
      (forall b x, (b, x) ∈ notices -> x = a /\ b <> a /\ b ∈ dom (nodes m)) ->
      acts m (mkMesh (delete a (nodes m)) rest (filter (fun c => c.1 <> a) (connecting m))
                (filter (fun c => c.1 <> a) (lost m) ++ notices) ({[a]} ∪ gone m)).

Definition step (m m' : mesh) : Prop := delivers m m' \/ acts m m'.

(** Nothing is going on. *)
Definition quiet (m : mesh) : Prop := soup m = [] /\ connecting m = [] /\ lost m = [].

Definition peers_of (m : mesh) (a : HostPortPair) : gset HostPortPair :=
  match nodes m !! a with Some this => dom (_peers this) | None => ∅ end.

Definition knows (m : mesh) (a : HostPortPair) (g v : string) : Prop :=
  match nodes m !! a with Some this => v ∈ dom (group_of this g) | None => False end.

End Mesh.

Module MeshFacts.
Import ServiceNode NodeFacts NodeProps Mesh.

Lemma add_peer_inj x y : add_peer x = add_peer y -> x = y.
Proof. destruct x, y. by intros [= -> ->]. Qed.

(** *** What one operation writes *)

Definition clean (this : Internal) : Prop := forall b p, _peers this !! b = Some p -> calls p = [].

Lemma elem_of_outbox this b r :
  (b, r) ∈ outbox this <-> exists p, _peers this !! b = Some p /\ r ∈ calls p.
Proof.
  unfold outbox. rewrite list_elem_of_bind. split.
  - intros ([b' p] & Hin & Hb). apply list_elem_of_fmap in Hin as (r' & [= -> ->] & Hr).
    apply elem_of_map_in_order in Hb. eauto.
  - intros (p & Hb & Hr). exists (b, p). split; [by apply list_elem_of_fmap_2|]. by apply elem_of_map_in_order.
Qed.

Lemma elem_of_sent m a this s b r :
  (s, b, r) ∈ sent m a this <-> s = a /\ b ∈ dom (nodes m) /\ (b, r) ∈ outbox this.
Proof.
  unfold sent. rewrite list_elem_of_fmap. split.
  - intros ([b' r'] & [= -> -> ->] & [Hb Hin]%list_elem_of_filter). done.
  - intros (-> & Hb & Hin). exists (b, r). split; [done|]. by apply list_elem_of_filter.
Qed.

Lemma clean_outbox this : clean this -> outbox this = [].
Proof.
  intros Hc. destruct (outbox this) as [|[b r] l] eqn:E; [done|].
  assert ((b, r) ∈ outbox this) as (p & Hp & Hr)%elem_of_outbox by (rewrite E; left).
  rewrite (Hc _ _ Hp) in Hr. by apply elem_of_nil in Hr.
Qed.

Lemma flushed_clean this : clean (flushed this).
Proof. intros b p. simpl. rewrite lookup_fmap. by intros (? & _ & ->)%fmap_Some. Qed.

Lemma flushed_peers this : dom (_peers (flushed this)) = dom (_peers this).
Proof. simpl. apply dom_fmap_L. Qed.

(** The outcome of an operation, as far as the mesh is concerned: the peers
    and members gained, and the calls written. *)
Record effect (this this' : Internal) (new : gset HostPortPair) (gv : list (string * string))
    (out : HostPortPair -> request -> Prop) : Prop := {
  eff_addr : _host this' = _host this /\ _port this' = _port this;
  eff_peers : dom (_peers this') = dom (_peers this) ∪ new;
  eff_members g v : is_member this' g v <-> is_member this g v \/ (g, v) ∈ gv;
  eff_out b r : (b, r) ∈ outbox this' <-> out b r
}.

Lemma effect_none this : clean this -> effect this this ∅ [] (fun _ _ => False).
Proof. intros Hc. split; [done|set_solver|set_solver|]. rewrite clean_outbox by done. set_solver. Qed.

(** The handshake with a peer. *)
Definition greeting (this : Internal) (x b : HostPortPair) (r : request) : Prop :=
  b = x /\ (r = add_peer (_host this, _port this) \/
            (exists d, d ∈ dom (_peers this) /\ d <> x /\ r = add_peer d) \/
            (exists g v, is_member this g v /\ r = add_group g v)).

Lemma elem_of_introductions x this r :
  r ∈ introductions x this <-> exists d, d ∈ dom (_peers this) /\ d <> x /\ r = add_peer d.
Proof.
  unfold introductions. rewrite list_elem_of_fmap. split.
  - intros ([d p] & -> & [Hne Hd%elem_of_map_in_order]%list_elem_of_filter).
    exists d. split_and!; [by eapply elem_of_dom_2|done|done].
  - intros (d & [p Hd]%elem_of_dom & Hne & ->). exists (d, p). split; [done|].
    apply list_elem_of_filter. split; [done|]. by apply elem_of_map_in_order.
Qed.

Lemma elem_of_memberships this r :
  r ∈ memberships this <-> exists g v, is_member this g v /\ r = add_group g v.
Proof.
  rewrite memberships_announced, list_elem_of_fmap. split.
  - intros ([g v] & -> & Hgv%elem_of_announced). eauto.
  - intros (g & v & Hgv%elem_of_announced & ->). by exists (g, v).
Qed.

Lemma effect_connected this x :
  clean this -> effect this (addPeer_locked x this) {[x]} [] (greeting this x).
Proof.
  intros Hc. unfold addPeer_locked. set (st := set_peers (<[x := Peer []]> (_peers this)) this).
  split; [done| | |].
  - simpl. rewrite !dom_insert_L. set_solver.
  - intros g v. change (is_member _ g v) with (is_member this g v). rewrite elem_of_nil. tauto.
  - intros b r. rewrite elem_of_outbox. cbn [_peers set_peers st]. rewrite insert_insert_eq. unfold greeting. split.
    + intros (p & [[<- <-]|[Hne Hb]]%lookup_insert_Some & Hr).
      * split; [done|]. cbn [calls] in Hr. rewrite elem_of_cons, elem_of_app, elem_of_introductions, elem_of_memberships in Hr.
        destruct Hr as [->|[(d & Hd & Hne & ->)|Hr]]; [by left| |by right; right].
        right; left. exists d. split_and!; [|done|done]. cbn in Hd. rewrite dom_insert_L in Hd. set_solver.
      * rewrite (Hc _ _ Hb) in Hr. by apply elem_of_nil in Hr.
    + intros [-> Hr]. eexists. rewrite lookup_insert_eq. split; [done|]. cbn [calls].
      rewrite elem_of_cons, elem_of_app, elem_of_introductions, elem_of_memberships.
      destruct Hr as [->|[(d & Hd & Hne & ->)|Hr]]; [by left| |by right; right].
      right; left. exists d. split_and!; [|done|done]. cbn. rewrite dom_insert_L. set_solver.
Qed.

Lemma effect_RPCAddToGroup this this' g v :
  clean this -> RPCAddToGroup g v this = Ok this' -> effect this this' ∅ [(g, v)] (fun _ _ => False).
Proof.
  intros Hc Hrun.
  assert (_peers this' = _peers this /\ _host this' = _host this /\ _port this' = _port this /\
          forall g' v', is_member this' g' v' <-> is_member this g' v' \/ (g', v') = (g, v)) as (Hp & Hh & Hpo & Hm).
  { unfold RPCAddToGroup in Hrun. destruct (group_of this g !! v) as [n|] eqn:E.
    - inv_ok. split_and!; try done. intros g' v'. unfold is_member. rewrite group_of_set.
      apply elem_of_dom_2 in E. case_decide; set_solver.
    - assert (this' = fire (callbacks_of this g) v true (set_group g (<[v := 1]> (group_of this g)) this)) as ->.
      { rewrite <- fire_registered. destruct (_group_callbacks _ !! g); by inv_ok. }
      split_and!; try done. intros g' v'. unfold is_member.
      change (group_of (fire _ _ _ _) g') with (group_of (set_group g (<[v := 1]> (group_of this g)) this) g').
      rewrite group_of_set. case_decide; set_solver. }
  split; [done|rewrite Hp; set_solver| |].
  - intros g' v'. rewrite Hm, list_elem_of_singleton. done.
  - intros b r. rewrite elem_of_outbox, Hp, <- elem_of_outbox, clean_outbox by done. set_solver.
Qed.

Lemma effect_addToGroup this this' g v :
  clean this -> addToGroup g v this = Ok this' ->
  effect this this' ∅ [(g, v)] (fun b r => b ∈ dom (_peers this) /\ r = add_group g v).
Proof.
  intros Hc Hrun. destruct (add_member _ _ _ _ Hrun) as (Hg & Hg' & _ & Hp).
  assert (_host this' = _host this /\ _port this' = _port this) as Ha.
  { unfold addToGroup in Hrun. destruct (group_of _ g !! v); by inv_ok. }
  split; [done|rewrite Hp, dom_fmap_L; set_solver| |].
  - intros g' v'. unfold is_member. rewrite list_elem_of_singleton.
    destruct (decide (g' = g)) as [->|Hne]; [rewrite Hg|rewrite Hg' by done]; set_solver.
  - intros b r. rewrite elem_of_outbox, Hp, elem_of_dom. split.
    + intros (p & Hb & Hr). rewrite lookup_fmap in Hb. apply fmap_Some in Hb as (q & Hq & ->).
      simpl in Hr. rewrite (Hc _ _ Hq) in Hr. simpl in Hr. apply list_elem_of_singleton in Hr. split; [by eexists|done].
    + intros [[q Hq] ->]. exists (call (add_group g v) q). rewrite lookup_fmap, Hq. split; [done|].
      simpl. rewrite (Hc _ _ Hq). left.
Qed.

(** *** The invariant *)

Definition up (m : mesh) (x : HostPortPair) : Prop := x ∈ dom (nodes m).
#[global] Instance up_dec m x : Decision (up m x).
Proof. unfold up. apply _. Defined.
Definition seen (m : mesh) (x : HostPortPair) : Prop := up m x \/ x ∈ gone m.

(** [x] is connected to [y], or is going to be because [s] told it to. *)
Definition edge (m : mesh) (s x y : HostPortPair) : Prop :=
  y ∈ peers_of m x \/ (s, x, add_peer y) ∈ soup m \/ (x, y) ∈ connecting m.

Definition linked (m : mesh) : relation HostPortPair :=
  rtc (fun x y => exists s, edge m s x y \/ edge m s y x).

(** [b] knows the member, or is about to, from [s]. *)
Definition told (m : mesh) (s b : HostPortPair) (g v : string) : Prop :=
  knows m b g v \/ (s, b, add_group g v) ∈ soup m.

(** [orig a g v]: node [a] itself added [v] to [g]. *)
Record meshed (m : mesh) (orig : HostPortPair -> string -> string -> Prop) : Prop := {
  mesh_node a this : nodes m !! a = Some this -> (_host this, _port this) = a /\ clean this;
  mesh_apart x : up m x -> x ∉ gone m;
  mesh_peer a b : b ∈ peers_of m a -> b <> a /\ (up m b \/ b ∈ gone m /\ (a, b) ∈ lost m);
  mesh_call s b r : (s, b, r) ∈ soup m -> up m b /\
    ((exists x, r = add_peer x /\ x <> b /\ seen m x) \/ (exists g v, r = add_group g v));
  mesh_connecting a x : (a, x) ∈ connecting m -> up m a /\ x <> a /\ seen m x;
  mesh_lost a x : (a, x) ∈ lost m -> up m a /\ x ∈ gone m;
  mesh_back a b : b ∈ peers_of m a -> up m b -> edge m a b a;
  mesh_introduced a b c : b ∈ peers_of m a -> c ∈ peers_of m a -> up m b -> up m c -> b <> c ->
    edge m a b c \/ edge m a c b;
  mesh_orig a g v : orig a g v -> seen m a /\
    (up m a -> knows m a g v /\ forall b, b ∈ peers_of m a -> up m b -> told m a b g v);
  mesh_source s b g v : gone m = ∅ -> told m s b g v -> exists o, orig o g v /\ linked m o b
}.

Lemma peers_up m a b : b ∈ peers_of m a -> up m a.
Proof. unfold peers_of, up. rewrite elem_of_dom. destruct (nodes m !! a); [by eexists|set_solver]. Qed.

Section Update.
Context (m : mesh) (a : HostPortPair) (this this' : Internal) (rest : list envelope).
Context (conn lst : list (HostPortPair * HostPortPair)).
Context (new : gset HostPortPair) (gv : list (string * string)) (out : HostPortPair -> request -> Prop).
Context (Hthis : nodes m !! a = Some this) (Heff : effect this this' new gv out).

Let m' : mesh := update a this' rest conn lst m.

Lemma update_peers x : peers_of m' x = if decide (x = a) then peers_of m a ∪ new else peers_of m x.
Proof using Hthis Heff.
  unfold peers_of, m'. cbn [update nodes]. case_decide as Hx.
  - subst x. rewrite lookup_insert_eq, Hthis, flushed_peers. apply (eff_peers _ _ _ _ _ Heff).
  - by rewrite lookup_insert_ne.
Qed.

Lemma update_knows x g v : knows m' x g v <-> knows m x g v \/ x = a /\ (g, v) ∈ gv.
Proof using Hthis Heff.
  unfold knows, m'. cbn [update nodes]. destruct (decide (x = a)) as [->|Hne].
  - rewrite lookup_insert_eq, Hthis. change (v ∈ dom (group_of (flushed this') g)) with (is_member this' g v).
    rewrite (eff_members _ _ _ _ _ Heff). unfold is_member. tauto.
  - rewrite lookup_insert_ne by done. tauto.
Qed.

Lemma update_soup s b r : (s, b, r) ∈ soup m' <-> (s, b, r) ∈ rest \/ s = a /\ up m b /\ out b r.
Proof using Heff.
  unfold m'. cbn [update soup]. by rewrite elem_of_app, elem_of_sent, (eff_out _ _ _ _ _ Heff).
Qed.

Lemma update_dom : dom (nodes m') = dom (nodes m).
Proof using Hthis.
  unfold m'. cbn [update nodes]. rewrite dom_insert_L. apply subseteq_union_L, singleton_subseteq_l.
  by eapply elem_of_dom_2.
Qed.

Lemma update_up x : up m' x <-> up m x.
Proof using Hthis. unfold up. by rewrite update_dom. Qed.

Lemma update_seen x : seen m' x <-> seen m x.
Proof using Hthis. unfold seen. by rewrite update_up. Qed.

(** What the operation has to do for the invariant to hold afterwards: calls
    and threads that disappeared have been carried out as far as possible, a
    new peer is told everything, and nothing is made up. *)
Context (orig orig' : HostPortPair -> string -> string -> Prop) (Hm : meshed m orig).
Context (Hsub : forall c, c ∈ rest -> c ∈ soup m).
Context (Hkept : forall s b r, (s, b, r) ∈ soup m -> (s, b, r) ∈ rest \/ b = a /\
  ((exists x, r = add_peer x /\ (~ up m x \/ x ∈ peers_of m a ∪ new \/ (a, x) ∈ conn)) \/
   (exists g v, r = add_group g v /\ (knows m a g v \/ (g, v) ∈ gv)))).
Context (Hconn : forall b x, (b, x) ∈ conn -> (b, x) ∈ connecting m \/ b = a /\ x <> a /\ up m x).
Context (Hconn' : forall b x, (b, x) ∈ connecting m -> (b, x) ∈ conn \/ b = a /\ x ∈ peers_of m a ∪ new).
Context (Hlost : forall b x, (b, x) ∈ lst -> (b, x) ∈ lost m \/ b = a /\ x ∈ gone m).
Context (Hlost' : forall c, c ∈ lost m -> c ∈ lst).
Context (Hnew : forall x, x ∈ new -> x <> a /\ (up m x \/ x ∈ gone m /\ (a, x) ∈ lst) /\ out x (add_peer a) /\
  (forall d, d ∈ peers_of m a -> d <> x -> out x (add_peer d)) /\ (forall g v, knows m a g v -> out x (add_group g v))).
Context (Hone : forall x y, x ∈ new -> y ∈ new -> x = y).
Context (Hout : forall b r, out b r -> b ∈ peers_of m a ∪ new /\
  ((exists d, r = add_peer d /\ d <> b /\ seen m d) \/
   (exists g v, r = add_group g v /\ (knows m a g v \/ (g, v) ∈ gv)))).
Context (Horig : forall o g v, orig o g v -> orig' o g v).
Context (Horig' : forall o g v, orig' o g v -> orig o g v \/
  o = a /\ (g, v) ∈ gv /\ forall b, b ∈ peers_of m a ∪ new -> out b (add_group g v)).
Context (Hsource : forall g v, gone m = ∅ -> (g, v) ∈ gv -> exists o, orig' o g v /\ linked m o a).

Lemma update_peers_mono x y : y ∈ peers_of m x -> y ∈ peers_of m' x.
Proof using Hthis Heff. rewrite update_peers. case_decide; [subst; intros ?; apply elem_of_union; by left|done]. Qed.

Lemma update_edge s x y : up m y -> edge m s x y -> edge m' s x y.
Proof using Hthis Heff Hkept Hconn'.
  intros Hy [Hp|[Hs|Hc]]; [left; by apply update_peers_mono| |].
  - destruct (Hkept _ _ _ Hs) as [?|[-> [(z & Hz%add_peer_inj & Hin)|(g & v & ? & _)]]]; [| |done].
    + right; left. apply update_soup. by left.
    + subst z. destruct Hin as [?|[Hin|?]]; [done| |by right; right].
      left. by rewrite update_peers, decide_True.
  - destruct (Hconn' _ _ Hc) as [?|[-> Hin]]; [by right; right|]. left. by rewrite update_peers, decide_True.
Qed.

Lemma update_linked x y : (forall z, seen m z -> up m z) -> linked m x y -> linked m' x y.
Proof using Hthis Heff Hm Hkept Hconn'.
  intros Hall. assert (forall s u w, edge m s u w -> up m w) as Hw.
  { intros s u w [Hp|[Hs|Hc]].
    - destruct (mesh_peer _ _ Hm _ _ Hp) as [_ [?|[? _]]]; [done|]. apply Hall. by right.
    - destruct (mesh_call _ _ Hm _ _ _ Hs) as [_ [(z & <-%add_peer_inj & _ & ?)|(g & v & ?)]]; [auto|done].
    - by apply Hall, (mesh_connecting _ _ Hm u). }
  apply rtc_subrel. intros u w (s & [He|He]); exists s; [left|right]; eapply update_edge; eauto.
Qed.

Lemma update_told s b g v : told m s b g v -> told m' s b g v.
Proof using Hthis Heff Hkept.
  intros [Hk|Hs]; [left; apply update_knows; by left|].
  destruct (Hkept _ _ _ Hs) as [?|[-> [(z & ? & _)|(g' & v' & [= <- <-] & Hin)]]]; [|done|].
  - right. apply update_soup. by left.
  - left. apply update_knows. tauto.
Qed.

Lemma update_new_edge x d : x ∈ new -> up m x -> d = a \/ d ∈ peers_of m a /\ d <> x -> edge m' a x d.
Proof using Heff Hnew.
  intros Hx Hu Hd. destruct (Hnew x Hx) as (_ & _ & Ha & Hall & _). right; left. apply update_soup. right.
  destruct Hd as [->|[Hd Hne]]; auto.
Qed.

Lemma update_introduced x b c :
  b ∈ peers_of m' x -> c ∈ peers_of m' x -> up m b -> up m c -> b <> c -> edge m' x b c \/ edge m' x c b.
Proof using Hthis Heff Hm Hkept Hconn' Hnew Hone.
  rewrite update_peers. intros Hxb Hxc Hub Huc Hne.
  assert (b ∈ peers_of m x -> c ∈ peers_of m x -> edge m' x b c \/ edge m' x c b) as Hold.
  { intros H1 H2. destruct (mesh_introduced _ _ Hm x b c); auto using update_edge. }
  case_decide; [subst x|by apply Hold].
  apply elem_of_union in Hxb as [Hb|Hb], Hxc as [Hc|Hc]; [by apply Hold| | |by destruct Hne; apply Hone].
  - right. apply update_new_edge; auto.
  - left. apply update_new_edge; auto.
Qed.

Lemma update_orig o g v :
  orig' o g v -> seen m o /\ (up m o -> knows m' o g v /\ forall b, b ∈ peers_of m' o -> up m b -> told m' o b g v).
Proof using Hthis Heff Hm Hkept Hnew Horig'.
  intros [Hold|(-> & Hin & Hall)]%Horig'.
  - destruct (mesh_orig _ _ Hm o g v Hold) as [Hs Ht]. split; [done|]. intros Hu. destruct (Ht Hu) as [Hk Hb].
    split; [apply update_knows; by left|]. intros b. rewrite update_peers.
    case_decide; [subst o|intros ? ?; by apply update_told, Hb].
    intros [?|Hx]%elem_of_union Hub; [by apply update_told, Hb|]. right. apply update_soup. right.
    split_and!; [done|done|]. by apply Hnew.
  - split; [left; by eapply elem_of_dom_2|]. intros _. split; [apply update_knows; tauto|].
    intros b. rewrite update_peers, decide_True by done. intros Hb Hub. right. apply update_soup. right. auto.
Qed.

Lemma update_source s b g v : gone m = ∅ -> told m' s b g v -> exists o, orig' o g v /\ linked m' o b.
Proof using Hthis Heff Hm Hsub Hkept Hconn' Hout Horig Hsource.
  intros Hg. assert (forall z, seen m z -> up m z) as Hall.
  { intros z [?|Hz]; [done|]. rewrite Hg in Hz. by apply not_elem_of_empty in Hz. }
  assert (forall x y, linked m x y -> linked m' x y) as Hl by (intros; by apply update_linked).
  assert (forall s' b', told m s' b' g v -> exists o, orig' o g v /\ linked m' o b') as Hold.
  { intros s' b' Ht. destruct (mesh_source _ _ Hm s' b' g v Hg Ht) as (o & ? & ?). eauto. }
  assert (knows m a g v \/ (g, v) ∈ gv -> exists o, orig' o g v /\ linked m' o a) as Hat.
  { intros [Hk|Hin]; [apply (Hold a); by left|]. destruct (Hsource g v Hg Hin) as (o & ? & ?). eauto. }
  intros [Hk|Hr].
  - apply update_knows in Hk as [Hk|[-> Hin]]; [apply (Hold a); by left|apply Hat; tauto].
  - apply update_soup in Hr as [Hr|(-> & _ & Hr)]; [apply (Hold s); right; auto|].
    destruct (Hout _ _ Hr) as [Hin [(d & ? & _)|(g' & v' & [= <- <-] & Hkn)]]; [done|].
    destruct (Hat Hkn) as (o & ? & Hlo). exists o. split; [done|]. eapply rtc_r; [exact Hlo|].
    exists a. left. left. by rewrite update_peers, decide_True.
Qed.

Lemma update_meshed : meshed m' orig'.
Proof using Hthis Heff Hm Hsub Hkept Hconn Hconn' Hlost Hlost' Hnew Hone Hout Horig Horig' Hsource.
  pose proof Hm as [Hn Hap Hp Hc Hco Hlo Hb Hi Ho Hs].
  split; try (intros *; rewrite ?update_up, ?update_seen).
  - unfold m'. cbn [update nodes]. intros [[<- <-]|[_ Hx]]%lookup_insert_Some; [|by apply Hn].
    split; [|apply flushed_clean]. destruct (eff_addr _ _ _ _ _ Heff) as [Eh Ep]. simpl. rewrite Eh, Ep.
    by apply Hn.
  - apply Hap.
  - rewrite update_peers. change (lost m') with lst.
    case_decide; [subst|intros Hx; destruct (Hp _ _ Hx) as [? [?|[? ?]]]; auto].
    intros [Hx|Hx]%elem_of_union; [destruct (Hp _ _ Hx) as [? [?|[? ?]]]; auto|].
    destruct (Hnew _ Hx) as (? & ? & _). done.
  - rewrite update_soup. setoid_rewrite update_seen. intros [Hr|(-> & Hub & Hr)]; [by apply (Hc s), Hsub|].
    destruct (Hout _ _ Hr) as [_ Hkind]. split; [done|]. naive_solver.
  - intros [?|(-> & ? & ?)]%Hconn; [by apply Hco|]. split_and!; [by eapply elem_of_dom_2|done|by left].
  - intros [?|(-> & ?)]%Hlost; [by apply Hlo|]. split; [by eapply elem_of_dom_2|done].
  - rewrite update_peers. intros Hx Hu. case_decide; [subst|].
    + apply elem_of_union in Hx as [Hx|Hx]; [|apply update_new_edge; auto].
      apply update_edge; [by eapply elem_of_dom_2|by apply Hb].
    + apply update_edge; [by eapply peers_up|by apply Hb].
  - apply update_introduced.
  - intros Hog. destruct (update_orig _ _ _ Hog) as [Hse Hk]. split; [done|]. intros Hu. destruct (Hk Hu) as [? Ht].
    split; [done|]. intros x Hx. rewrite update_up. by apply Ht.
  - apply update_source.
Qed.

End Update.

(** *** The operations *)

(** Connections, made or being made. *)
Definition conn_of (m : mesh) (x y : HostPortPair) : Prop := y ∈ peers_of m x \/ (x, y) ∈ connecting m.

(** What holds of a step: the invariant is kept, with everything that was
    announced, and so are the connections between the nodes that are left. *)
Definition grows (m m' : mesh) : Prop :=
  (forall orig, meshed m orig -> exists orig', meshed m' orig' /\ forall o g v, orig o g v -> orig' o g v) /\
  (forall x y, conn_of m x y -> up m' x -> up m' y -> conn_of m' x y).

Lemma peers_at m a this : nodes m !! a = Some this -> peers_of m a = dom (_peers this).
Proof. unfold peers_of. by intros ->. Qed.

Lemma knows_at m a this g v : nodes m !! a = Some this -> knows m a g v <-> is_member this g v.
Proof. unfold knows. by intros ->. Qed.

Lemma elem_of_delete {A} (l : list A) i x : l !! i = Some x ->
  (forall y, y ∈ delete i l -> y ∈ l) /\ (forall y, y ∈ l -> y ∈ delete i l \/ y = x).
Proof.
  intros Hi. pose proof (delete_Permutation _ _ _ Hi) as Hp. split; intros y Hy.
  - rewrite Hp. by right.
  - rewrite Hp in Hy. apply elem_of_cons in Hy. tauto.
Qed.

(** The thread of [x] at [a] gets hold of the mutex. *)
Lemma connected_meshed m orig a this x j :
  meshed m orig -> connecting m !! j = Some (a, x) -> nodes m !! a = Some this ->
  meshed (update a (addPeer_locked x this) (soup m) (delete j (connecting m)) (broken m a x) m) orig.
Proof.
  intros Hm Hj Ha. destruct (mesh_node _ _ Hm _ _ Ha) as [Haddr Hcl].
  destruct (elem_of_delete _ _ _ Hj) as [Hsub Hkept].
  destruct (mesh_connecting _ _ Hm a x) as (_ & Hxa & Hx); [by eapply list_elem_of_lookup_2|].
  pose proof (effect_connected this x Hcl) as Heff.
  eapply (update_meshed m a this _ (soup m) _ _ {[x]} [] _ Ha Heff orig orig); try done; try (by auto).
  - intros b y [?|[= -> ->]]%Hkept; [by left|]. right. split; [done|]. apply elem_of_union_r. by apply elem_of_singleton.
  - unfold broken, reachable. intros b y. case_bool_decide as Hu; [by left|].
    intros [?|[= -> ->]%list_elem_of_singleton]%elem_of_app; [by left|]. right. split; [done|]. by destruct Hx.
  - unfold broken. intros c Hc. destruct (reachable m x); [done|]. by apply elem_of_app; left.
  - intros y ->%elem_of_singleton. unfold greeting. rewrite Haddr. split; [done|]. split; [|split; [by auto|split]].
    + unfold broken, reachable. case_bool_decide as Hu; [by left|]. right. destruct Hx as [?|?]; [done|].
      split; [done|]. apply elem_of_app. right. by left.
    + intros d Hd Hne. split; [done|]. right; left. rewrite (peers_at _ _ _ Ha) in Hd. eauto.
    + intros g v Hk. split; [done|]. right; right. exists g, v. split; [by eapply knows_at|done].
  - intros y z. by intros ->%elem_of_singleton ->%elem_of_singleton.
  - unfold greeting. rewrite Haddr. intros b r [-> Hr]. split; [apply elem_of_union_r; by apply elem_of_singleton|].
    destruct Hr as [->|[(d & Hd & Hne & ->)|(g & v & Hgv & ->)]].
    + left. exists a. split_and!; [done|done|]. left. by eapply elem_of_dom_2.
    + left. exists d. split_and!; [done|done|]. rewrite <- (peers_at _ _ _ Ha) in Hd.
      destruct (mesh_peer _ _ Hm _ _ Hd) as [_ [?|[? _]]]; [by left|by right].
    + right. exists g, v. split; [done|]. left. by eapply knows_at.
  - intros g v _ Hin. by apply elem_of_nil in Hin.
Qed.

(** An operation that makes no connection: the first part of [addPeer], or a
    new member. *)
Lemma learn_meshed m orig a this this' rest conn gv out orig' :
  meshed m orig -> nodes m !! a = Some this -> effect this this' ∅ gv out ->
  (forall c, c ∈ rest -> c ∈ soup m) ->
  (forall s b r, (s, b, r) ∈ soup m -> (s, b, r) ∈ rest \/ b = a /\
     ((exists x, r = add_peer x /\ (~ up m x \/ x ∈ peers_of m a \/ (a, x) ∈ conn)) \/
      (exists g v, r = add_group g v /\ (g, v) ∈ gv))) ->
  (forall b x, (b, x) ∈ conn -> (b, x) ∈ connecting m \/ b = a /\ x <> a /\ up m x) ->
  (forall c, c ∈ connecting m -> c ∈ conn) ->
  (forall b r, out b r -> b ∈ peers_of m a /\ exists g v, r = add_group g v /\ (g, v) ∈ gv) ->
  (forall o g v, orig o g v -> orig' o g v) ->
  (forall o g v, orig' o g v -> orig o g v \/
     o = a /\ (g, v) ∈ gv /\ forall b, b ∈ peers_of m a -> out b (add_group g v)) ->
  (forall g v, gone m = ∅ -> (g, v) ∈ gv -> exists o, orig' o g v /\ linked m o a) ->
  meshed (update a this' rest conn (lost m) m) orig'.
Proof.
  intros Hm Ha Heff Hsub Hkept Hconn Hconn' Hout Ho Ho' Hsrc.
  eapply (update_meshed m a this this' rest conn (lost m) ∅ gv out Ha Heff orig orig'); try done; try (by auto).
  - intros s b r [?|[-> [(x & -> & Hx)|(g & v & -> & Hgv)]]]%Hkept; [by left|right..]; (split; [done|]).
    + left. exists x. split; [done|]. rewrite elem_of_union. tauto.
    + right. eauto.
  - intros b r [? (g & v & -> & ?)]%Hout. split; [apply elem_of_union; by left|]. right. eauto.
  - intros o g v [?|(-> & ? & Hall)]%Ho'; [by left|]. right. split_and!; try done.
    intros b [?|Hb]%elem_of_union; [auto|by apply not_elem_of_empty in Hb].
Qed.

Lemma looked_up_spec m a x this : nodes m !! a = Some this ->
  (forall b y, (b, y) ∈ looked_up m a x this -> (b, y) ∈ connecting m \/ (b, y) = (a, x) /\ up m x) /\
  (forall c, c ∈ connecting m -> c ∈ looked_up m a x this) /\
  (~ up m x \/ x ∈ peers_of m a \/ (a, x) ∈ looked_up m a x this).
Proof.
  intros Ha. unfold looked_up, addPeer_lookup, reachable. rewrite (peers_at _ _ _ Ha), (elem_of_dom (_peers this)).
  destruct (_peers this !! x) as [p|]; [split_and!; eauto|].
  destruct (bool_decide (x ∈ dom (nodes m))) eqn:Hu; [apply bool_decide_eq_true in Hu|apply bool_decide_eq_false in Hu; split_and!; auto].
  split_and!.
  - intros b y [?|?%list_elem_of_singleton]%elem_of_app; auto.
  - intros c Hc. apply elem_of_app. by left.
  - right; right. apply elem_of_app. right. by left.
Qed.

(** The first part of [addPeer], called by a user or by the call that is
    missing from [rest]. *)
Lemma lookup_meshed m orig a this x rest :
  meshed m orig -> nodes m !! a = Some this -> x <> a ->
  (forall c, c ∈ rest -> c ∈ soup m) ->
  (forall c, c ∈ soup m -> c ∈ rest \/ exists s, c = (s, a, add_peer x)) ->
  meshed (update a this rest (looked_up m a x this) (lost m) m) orig.
Proof.
  intros Hm Ha Hxa Hsub Hkept. destruct (mesh_node _ _ Hm _ _ Ha) as [_ Hcl].
  destruct (looked_up_spec m a x this Ha) as (H1 & H2 & H3).
  eapply (learn_meshed m orig a this this rest _ [] _ orig Hm Ha (effect_none this Hcl)); try done; try (by auto).
  - intros s b r [?|(s' & [= -> -> ->])]%Hkept; [by left|]. right. split; [done|]. left. by exists x.
  - intros b y [?|[[= -> ->] ?]]%H1; [by left|]. by right.
  - intros g v _ Hin. by apply elem_of_nil in Hin.
Qed.

(** A lost connection is noticed. *)
Lemma disconnect_meshed m orig a this x j :
  meshed m orig -> lost m !! j = Some (a, x) -> nodes m !! a = Some this ->
  meshed (update a (RemovePeer x this) (soup m) (connecting m) (delete j (lost m)) m) orig.
Proof.
  intros Hm Hj Ha. set (m' := update _ _ _ _ _ _). destruct (mesh_node _ _ Hm _ _ Ha) as [Haddr Hcl].
  destruct (elem_of_delete _ _ _ Hj) as [Hsub Hkept].
  destruct (mesh_lost _ _ Hm a x) as [_ Hx]; [by eapply list_elem_of_lookup_2|].
  assert (clean (RemovePeer x this)) as Hcl' by (intros b p; cbn; intros [_ Hb]%lookup_delete_Some; by eapply Hcl).
  assert (forall z y, y ∈ peers_of m' z <-> y ∈ peers_of m z /\ (z, y) <> (a, x)) as Hp.
  { intros z y. unfold peers_of, m'. cbn [update nodes]. destruct (decide (z = a)) as [->|Hne].
    - rewrite lookup_insert_eq, Ha, flushed_peers. simpl. rewrite dom_delete_L. set_solver.
    - rewrite lookup_insert_ne by done. naive_solver. }
  assert (forall z g v, knows m' z g v <-> knows m z g v) as Hk.
  { intros z g v. unfold knows, m'. cbn [update nodes]. destruct (decide (z = a)) as [->|Hne].
    - by rewrite lookup_insert_eq, Ha.
    - by rewrite lookup_insert_ne. }
  assert (forall z, up m' z <-> up m z) as Hu.
  { intros z. unfold up, m'. cbn [update nodes]. rewrite dom_insert_L. apply elem_of_dom_2 in Ha. set_solver. }
  assert (soup m' = soup m) as Hs.
  { unfold m'. cbn [update soup]. unfold sent. rewrite clean_outbox by done. apply app_nil_r. }
  assert (forall s y z, up m z -> edge m s y z -> edge m' s y z) as He.
  { intros s y z Hz. unfold edge. rewrite Hs, Hp. intros [?|[?|?]]; [left|by right; left|by right; right].
    split; [done|]. intros [= -> ->]. by apply (mesh_apart _ _ Hm) in Hz. }
  pose proof Hm as [Hn Hap Hpe Hc Hco Hlo Hb Hi Ho Hso].
  split; unfold seen; try setoid_rewrite Hu; try setoid_rewrite Hs; try done.
  - intros z t. unfold m'. cbn [update nodes]. intros [[<- <-]|[_ Hz]]%lookup_insert_Some; [|by apply Hn].
    split; [done|apply flushed_clean].
  - intros z b [Hz Hne]%Hp. destruct (Hpe z b Hz) as [? [?|[? [?|?]%Hkept]]]; [auto..|]. congruence.
  - intros z b Hz%Hsub. by apply Hlo.
  - intros z b [Hz Hne]%Hp Hub. apply He; [by eapply peers_up|]. by apply Hb.
  - intros z b c [Hb' _]%Hp [Hc' _]%Hp H1 H2 Hne. destruct (Hi z b c Hb' Hc' H1 H2 Hne); [left|right]; by apply He.
  - intros z g v Hog. destruct (Ho z g v Hog) as [Hse Ht]. split; [done|]. intros Hz. destruct (Ht Hz) as [Hkn Ht'].
    split; [by apply Hk|]. intros b [Hb' _]%Hp Hub. unfold told. rewrite Hk, Hs. by apply Ht'.
  - intros s b g v Hg. change (gone m') with (gone m) in Hg. set_solver.
Qed.

(** A node leaves. *)
Section Leave.
Context (m : mesh) (orig : HostPortPair -> string -> string -> Prop) (Hm : meshed m orig).
Context (a : HostPortPair) (rest : list envelope) (notices : list (HostPortPair * HostPortPair)).
Context (Ha : up m a).
Context (Hrest : forall c, c ∈ rest -> c ∈ soup m /\ c.1.2 <> a).
Context (Hkept : forall c, c ∈ soup m -> c.1.1 <> a -> c.1.2 <> a -> c ∈ rest).
Context (Hnotice : forall b this, nodes m !! b = Some this -> b <> a -> a ∈ dom (_peers this) -> (b, a) ∈ notices).
Context (Hnotice' : forall b x, (b, x) ∈ notices -> x = a /\ b <> a /\ up m b).

Let m' : mesh :=
  mkMesh (delete a (nodes m)) rest (filter (fun c => c.1 <> a) (connecting m))
    (filter (fun c => c.1 <> a) (lost m) ++ notices) ({[a]} ∪ gone m).

Lemma leave_up x : up m' x <-> up m x /\ x <> a.
Proof. unfold up, m'. simpl. rewrite dom_delete_L, elem_of_difference, elem_of_singleton. done. Qed.

Lemma leave_seen x : seen m' x <-> seen m x.
Proof using Ha.
  unfold seen. rewrite leave_up. unfold m'. cbn [gone]. rewrite elem_of_union, elem_of_singleton.
  destruct (decide (x = a)) as [->|]; tauto.
Qed.

Lemma leave_peers x y : y ∈ peers_of m' x <-> y ∈ peers_of m x /\ x <> a.
Proof.
  unfold peers_of, m'. cbn [nodes]. destruct (decide (x = a)) as [->|Hne].
  - rewrite lookup_delete_eq. split; [by intros ?%not_elem_of_empty|tauto].
  - rewrite lookup_delete_ne by done. tauto.
Qed.

Lemma leave_knows x g v : x <> a -> knows m' x g v <-> knows m x g v.
Proof. intros Hne. unfold knows, m'. cbn [nodes]. by rewrite lookup_delete_ne. Qed.

Lemma leave_edge s x y : s <> a -> x <> a -> edge m s x y -> edge m' s x y.
Proof using Hkept.
  intros Hs Hx [Hp|[Hc|Hc]]; [left; by apply leave_peers|right; left; by apply Hkept|].
  right; right. by apply list_elem_of_filter.
Qed.

Lemma leave_lost b x : (b, x) ∈ lost m' <-> (b, x) ∈ lost m /\ b <> a \/ (b, x) ∈ notices.
Proof. unfold m'. cbn [lost]. rewrite elem_of_app, list_elem_of_filter. simpl. tauto. Qed.

Lemma leave_peer_lost b c : b ∈ peers_of m c -> c <> a -> b <> a /\ up m b \/ (b = a \/ b ∈ gone m) /\ (c, b) ∈ lost m'.
Proof using Hm Hnotice.
  intros Hb Hc. rewrite leave_lost. destruct (decide (b = a)) as [->|Hne].
  - right. split; [by left|]. right. unfold peers_of in Hb. destruct (nodes m !! c) as [t|] eqn:E; [by eapply Hnotice|].
    by apply not_elem_of_empty in Hb.
  - destruct (mesh_peer _ _ Hm c b Hb) as [_ [?|[? ?]]]; [by left|right]. tauto.
Qed.

Lemma leave_meshed : meshed m' orig.
Proof using Hm Ha Hrest Hkept Hnotice Hnotice'.
  pose proof Hm as [Hn Hap Hp Hc Hco Hlo Hb Hi Ho Hs]. split; try (intros *; rewrite ?leave_up, ?leave_seen).
  - unfold m'. cbn [nodes]. intros [_ Hx]%lookup_delete_Some. by apply Hn.
  - intros [Hx Hne]. unfold m'. cbn [gone]. rewrite elem_of_union, elem_of_singleton. apply Hap in Hx. tauto.
  - rewrite leave_peers. unfold m' at 1. cbn [gone]. rewrite elem_of_union, elem_of_singleton. intros [Hx Hne].
    split; [by apply (Hp _ _ Hx)|]. pose proof (leave_peer_lost _ _ Hx Hne). tauto.
  - setoid_rewrite leave_seen. change (soup m') with rest. intros [Hin Hne]%Hrest. destruct (Hc _ _ _ Hin). auto.
  - unfold m'. cbn [connecting]. intros [Hne Hin]%list_elem_of_filter. destruct (Hco _ _ Hin) as (? & ? & ?). auto.
  - rewrite leave_lost. unfold m'. cbn [gone]. rewrite elem_of_union, elem_of_singleton.
    intros [[Hin ?]|Hin]; [destruct (Hlo _ _ Hin); auto|]. destruct (Hnotice' _ _ Hin) as (-> & ? & ?). auto.
  - rewrite leave_peers. intros [Hx Hne] [Hub Hba]. apply leave_edge; auto.
  - rewrite !leave_peers. intros [Hx Hne] [Hy _] [Hub ?] [Huc ?] Hbc.
    destruct (Hi _ _ _ Hx Hy Hub Huc Hbc); [left|right]; by apply leave_edge.
  - intros Hog. destruct (Ho _ _ _ Hog) as [Hse Ht]. split; [done|]. intros [Hu Hne]. destruct (Ht Hu) as [Hk Ht'].
    split; [by apply leave_knows|]. intros b. rewrite leave_peers, leave_up. intros [Hb' _] [Hub Hba].
    destruct (Ht' b Hb' Hub) as [?|Hin]; [left; by apply leave_knows|]. right. by apply Hkept.
  - unfold m'. cbn [gone]. intros Hg. assert (a ∈ ({[a]} ∪ gone m)) as Hin by (apply elem_of_union; left; by apply elem_of_singleton).
    rewrite Hg in Hin. by apply not_elem_of_empty in Hin.
Qed.

End Leave.

(** A node comes up. *)
Lemma create_meshed m orig a :
  meshed m orig -> a ∉ dom (nodes m) -> a ∉ gone m ->
  meshed (mkMesh (<[a := create a.1 a.2]> (nodes m)) (soup m) (connecting m) (lost m) (gone m)) orig.
Proof.
  intros Hm Hnew Hgone. set (m' := mkMesh _ _ _ _ _). apply not_elem_of_dom in Hnew as Hno.
  assert (forall x, peers_of m' x = peers_of m x) as Hp.
  { intros x. unfold peers_of, m'. simpl. destruct (decide (x = a)) as [->|Hne].
    - rewrite lookup_insert_eq, Hno. apply dom_empty_L.
    - by rewrite lookup_insert_ne. }
  assert (forall x g v, knows m' x g v <-> knows m x g v) as Hk.
  { intros x g v. unfold knows, m'. simpl. destruct (decide (x = a)) as [->|Hne].
    - rewrite lookup_insert_eq, Hno. unfold group_of. simpl. set_solver.
    - by rewrite lookup_insert_ne. }
  assert (forall x, up m' x <-> x = a \/ up m x) as Hu.
  { intros x. unfold up, m'. simpl. by rewrite dom_insert_L, elem_of_union, elem_of_singleton. }
  assert (forall x, seen m x -> seen m' x) as Hse by (intros x; unfold seen; rewrite Hu; tauto).
  assert (forall s x y, edge m' s x y <-> edge m s x y) as He by (intros s x y; unfold edge; by rewrite Hp).
  assert (forall x y, linked m x y -> linked m' x y) as Hl.
  { intros x y. apply rtc_subrel. intros u w (s & Hs). exists s. by rewrite !He. }
  pose proof Hm as [Hn Hap Hpe Hc Hco Hlo Hb Hi Ho Hs].
  assert (forall x y, y ∈ peers_of m x -> y <> a) as Hold.
  { intros x y Hy ->. destruct (Hpe x a Hy) as [_ [?|[? _]]]; done. }
  split; try (intros *; rewrite ?Hp, ?Hu, ?He).
  - unfold m'. cbn [nodes]. intros [[<- <-]|[_ Hx]]%lookup_insert_Some; [|by apply Hn]. split; [by destruct a|]. by intros b p.
  - intros [->|?]; [done|by apply Hap].
  - intros Hx. destruct (Hpe _ _ Hx) as [? [?|?]]; auto.
  - intros Hr. destruct (Hc _ _ _ Hr) as [Hd Hkind]. split; [by right|]. naive_solver.
  - intros Hx. destruct (Hco _ _ Hx) as (? & ? & ?). auto.
  - intros Hx. destruct (Hlo _ _ Hx). auto.
  - intros Hx [?|?]; [by destruct (Hold _ _ Hx)|by apply Hb].
  - intros Hx Hy [?|?] [?|?]; try (by destruct (Hold _ _ Hx)); try (by destruct (Hold _ _ Hy)). by apply Hi.
  - intros Hog. destruct (Ho _ _ _ Hog) as [? Ht]. split; [auto|]. rewrite Hk. intros [->|Hup].
    + exfalso. destruct (Ho _ _ _ Hog) as [[?|?] _]; done.
    + destruct (Ht Hup) as [? Ht']. split; [done|]. intros b. rewrite Hu. unfold told. rewrite Hk.
      intros Hb' [->|?]; [by destruct (Hold _ _ Hb')|by apply Ht'].
  - unfold told. rewrite Hk. intros Hg Ht. destruct (Hs _ _ _ _ Hg Ht) as (o & ? & ?). eauto.
Qed.

Lemma dispatch_group conn g v this : dispatch conn (add_group g v) this = Some (RPCAddToGroup g v this).
Proof. done. Qed.

Lemma delivers_up m m' x : delivers m m' -> up m' x <-> up m x.
Proof. intros Hd. destruct Hd; by eapply update_up. Qed.

Lemma delivers_gone m m' : delivers m m' -> gone m' = gone m.
Proof. by intros []. Qed.

Lemma delivers_meshed m m' orig : meshed m orig -> delivers m m' -> meshed m' orig.
Proof.
  intros Hm [i s a r this this' Hi Ha Hno Hrun|i s a x this Hi Ha|j a x this Hj Ha|j a x this Hj Ha].
  - destruct (elem_of_delete _ _ _ Hi) as [Hsub Hkept]. destruct (mesh_node _ _ Hm _ _ Ha) as [_ Hcl].
    apply list_elem_of_lookup_2 in Hi as Hin.
    destruct (mesh_call _ _ Hm _ _ _ Hin) as [_ [(x & -> & _)|(g & v & ->)]]; [by destruct (Hno x)|].
    rewrite dispatch_group in Hrun. injection Hrun as Hrun.
    eapply (learn_meshed m orig a this this' _ _ [(g, v)] _ orig Hm Ha (effect_RPCAddToGroup _ _ _ _ Hcl Hrun)); try done; try (by auto).
    + intros s' b r [?|[= -> -> ->]]%Hkept; [by left|]. right. split; [done|]. right. exists g, v. split; [done|left].
    + intros g' v' Hg [= -> ->]%list_elem_of_singleton. apply (mesh_source _ _ Hm s); [done|]. by right.
  - destruct (elem_of_delete _ _ _ Hi) as [Hsub Hkept]. apply list_elem_of_lookup_2 in Hi as Hin.
    destruct (mesh_call _ _ Hm _ _ _ Hin) as [_ [(y & <-%add_peer_inj & Hne & _)|(g & v & ?)]]; [|done].
    apply lookup_meshed; try done. intros c [?| ->]%Hkept; eauto.
  - by apply connected_meshed.
  - by apply disconnect_meshed.
Qed.

Lemma added_meshed m orig a g v this this' :
  meshed m orig -> nodes m !! a = Some this -> addToGroup g v this = Ok this' ->
  meshed (update a this' (soup m) (connecting m) (lost m) m)
    (fun o g' v' => orig o g' v' \/ o = a /\ (g', v') = (g, v)).
Proof.
  intros Hm Ha Hrun. destruct (mesh_node _ _ Hm _ _ Ha) as [_ Hcl].
  pose proof (effect_addToGroup _ _ _ _ Hcl Hrun) as Heff. rewrite <- (peers_at _ _ _ Ha) in Heff.
  eapply (learn_meshed m orig a this this' _ _ [(g, v)] _ _ Hm Ha Heff); try done; try (by auto).
  - intros b r [Hb ->]. split; [done|]. exists g, v. split; [done|left].
  - intros o g' v' [?|[-> [= -> ->]]]; [by left|]. right. split_and!; [done|left|done].
  - intros g' v' _ [= -> ->]%list_elem_of_singleton. exists a. split; [by right|apply rtc_refl].
Qed.

Lemma acts_meshed m m' orig : meshed m orig -> acts m m' ->
  exists orig', meshed m' orig' /\ forall o g v, orig o g v -> orig' o g v.
Proof.
  intros Hm [a Hnew Hg|a x this Ha Hax|a g v this this' Ha Hrun|a rest notices Ha H1 H2 H3 H4].
  - exists orig. split; [by apply create_meshed|done].
  - exists orig. split; [|done]. by apply lookup_meshed; eauto.
  - eexists. split; [by eapply added_meshed|]. by left.
  - exists orig. split; [by apply leave_meshed|done].
Qed.

(** Updates of a node keep its connections, unless they are broken. *)
Lemma update_conn m a this this' rest conn lst x y :
  nodes m !! a = Some this -> (y ∈ dom (_peers this) -> y ∈ dom (_peers this')) ->
  (forall c, c ∈ connecting m -> c ∈ conn \/ c.1 = a /\ c.2 ∈ dom (_peers this')) ->
  conn_of m x y -> conn_of (update a this' rest conn lst m) x y.
Proof.
  intros Ha Hp Hc Hxy. destruct Hxy as [Hin|[?|[? ?]]%Hc]; simpl in *.
  - left. unfold peers_of in *. cbn [update nodes]. destruct (decide (x = a)) as [->|Hne].
    + rewrite lookup_insert_eq, flushed_peers. rewrite Ha in Hin. by apply Hp.
    + by rewrite lookup_insert_ne.
  - by right.
  - left. subst x. unfold peers_of. cbn [update nodes]. by rewrite lookup_insert_eq, flushed_peers.
Qed.

Lemma step_conn m m' orig x y :
  meshed m orig -> step m m' -> conn_of m x y -> up m' x -> up m' y -> conn_of m' x y.
Proof.
  intros Hm Hstep Hxy Hx Hy. destruct Hstep as [Hd|Hact].
  - pose proof (proj1 (delivers_up _ _ _ Hd) Hy) as Huy.
    destruct Hd as [i s a r this this' Hi Ha Hno Hrun|i s a z this Hi Ha|j a z this Hj Ha|j a z this Hj Ha].
    + eapply update_conn; eauto. intros Hw.
      apply list_elem_of_lookup_2 in Hi. destruct (mesh_call _ _ Hm _ _ _ Hi) as [_ [(q & -> & _)|(g & v & ->)]]; [by destruct (Hno q)|].
      rewrite dispatch_group in Hrun. injection Hrun as Hrun. destruct (mesh_node _ _ Hm _ _ Ha) as [_ Hcl].
      rewrite (eff_peers _ _ _ _ _ (effect_RPCAddToGroup _ _ _ _ Hcl Hrun)). set_solver.
    + eapply update_conn; eauto. intros c Hc. left. by apply (looked_up_spec m a z this Ha).
    + eapply update_conn; eauto; cbn; rewrite insert_insert_eq, dom_insert_L.
      * set_solver.
      * destruct (elem_of_delete _ _ _ Hj) as [_ Hkept]. intros c [?| ->]%Hkept; [by left|]. right. set_solver.
    + eapply update_conn; eauto. cbn. rewrite dom_delete_L.
      destruct (mesh_lost _ _ Hm a z) as [_ Hz]; [by eapply list_elem_of_lookup_2|].
      apply (mesh_apart _ _ Hm) in Huy. set_solver.
  - destruct Hact as [a Hnew Hg|a z this Ha Hax|a g v this this' Ha Hrun|a rest notices Ha H1 H2 H3 H4].
    + unfold conn_of, peers_of in *. cbn [nodes connecting]. destruct (decide (x = a)) as [->|Hne].
      * apply not_elem_of_dom in Hnew. rewrite Hnew in Hxy. destruct Hxy as [?|?]; [set_solver|by right].
      * by rewrite lookup_insert_ne.
    + eapply update_conn; eauto. intros c Hc. left. by apply (looked_up_spec m a z this Ha).
    + eapply update_conn; eauto. destruct (mesh_node _ _ Hm _ _ Ha) as [_ Hcl].
      rewrite (eff_peers _ _ _ _ _ (effect_addToGroup _ _ _ _ Hcl Hrun)). set_solver.
    + apply leave_up in Hx as [_ Hx]. destruct Hxy as [?|?]; [left; by apply leave_peers|right].
      by apply list_elem_of_filter.
Qed.

Lemma step_grows m m' orig : meshed m orig -> step m m' -> grows m m'.
Proof.
  intros Hm Hstep. split; [|intros x y; by eapply step_conn].
  intros orig1 Hm1. destruct Hstep as [Hd|Hact]; [|by apply (acts_meshed m)].
  exists orig1. split; [by eapply delivers_meshed|done].
Qed.

Lemma empty_meshed : meshed empty_mesh (fun _ _ _ => False).
Proof. split; unfold up; simpl; try done; try set_solver. intros s b g v _ [?|?]; [done|set_solver]. Qed.

(** Nodes that are up have been up since they came up. *)
Lemma acts_up m m' x : acts m m' -> seen m x -> (up m' x -> up m x) /\ seen m' x.
Proof.
  intros Hact Hs. destruct Hact as [a Hnew Hg|a z this Ha Hax|a g v this this' Ha Hrun|a rest notices Ha H1 H2 H3 H4].
  - unfold seen, up in *. cbn [nodes gone]. rewrite dom_insert_L, elem_of_union, elem_of_singleton.
    destruct Hs as [?|?]; [tauto|]. split; [|tauto]. intros [->|?]; done.
  - unfold seen. by rewrite !(update_up _ _ _ _ _ _ _ Ha).
  - unfold seen. by rewrite !(update_up _ _ _ _ _ _ _ Ha).
  - rewrite leave_up, leave_seen by done. tauto.
Qed.

Lemma step_up m m' x : step m m' -> seen m x -> (up m' x -> up m x) /\ seen m' x.
Proof.
  intros [Hd|Hact]; [|by apply acts_up]. unfold seen. by rewrite !(delivers_up _ _ _ Hd), (delivers_gone _ _ Hd).
Qed.

Lemma run_up m m' x : rtc step m m' -> seen m x -> up m' x -> up m x.
Proof.
  induction 1 as [m|m m1 m' Hstep _ IH]; intros Hs Hu; [done|].
  destruct (step_up _ _ _ Hstep Hs) as [Hback Hs1]. by apply Hback, IH.
Qed.

Lemma run_grows m m' : rtc step m m' -> (exists orig, meshed m orig) -> grows m m'.
Proof.
  intros Hrun. induction Hrun as [m|m m1 m' Hstep Hrest IH]; intros [orig Hm]; [split; eauto|].
  destruct (step_grows _ _ _ Hm Hstep) as [Hm1 Hc]. destruct (Hm1 orig Hm) as (orig1 & Hme & _).
  destruct (IH (ex_intro _ _ Hme)) as [Hm2 Hc2]. split.
  - intros orig0 (orig1' & Hme' & Hs)%Hm1. destruct (Hm2 _ Hme') as (orig2 & ? & ?). exists orig2. split; [done|]. auto.
  - intros x y Hxy Hx Hy.
    assert (forall z, seen m z -> up m' z -> up m1 z) as Hz.
    { intros z Hz. apply (run_up m1 m' z Hrest). by eapply step_up. }
    assert (seen m x /\ seen m y) as [? ?].
    { destruct Hxy as [Hp|Hco].
      - split; [left; by eapply peers_up|]. destruct (mesh_peer _ _ Hm _ _ Hp) as [_ [?|[? _]]]; [by left|by right].
      - destruct (mesh_connecting _ _ Hm _ _ Hco) as (? & _ & ?). split; [by left|done]. }
    auto.
Qed.

Lemma reach_meshed m : rtc step empty_mesh m -> exists orig, meshed m orig.
Proof.
  intros Hr. destruct (run_grows _ _ Hr) as [Hg _]; [eexists; apply empty_meshed|].
  destruct (Hg _ empty_meshed) as (orig & ? & _). by exists orig.
Qed.

(** *** When nothing is going on *)

Lemma quiet_edge m s x y : quiet m -> edge m s x y -> y ∈ peers_of m x.
Proof.
  intros (Hs & Hc & _) [?|[Hin|Hin]]; [done|rewrite Hs in Hin|rewrite Hc in Hin]; by apply elem_of_nil in Hin.
Qed.

Lemma quiet_conn m x y : quiet m -> conn_of m x y -> y ∈ peers_of m x.
Proof. intros Hq [?|?]; apply (quiet_edge m x); [done|by left|done|by right; right]. Qed.

Lemma quiet_up m orig a b : meshed m orig -> quiet m -> b ∈ peers_of m a -> up m b.
Proof.
  intros Hm (_ & _ & Hl) Hb. destruct (mesh_peer _ _ Hm _ _ Hb) as [_ [?|[_ Hin]]]; [done|].
  rewrite Hl in Hin. by apply elem_of_nil in Hin.
Qed.

Lemma quiet_symmetric m orig a b : meshed m orig -> quiet m -> b ∈ peers_of m a -> a ∈ peers_of m b.
Proof.
  intros Hm Hq Hb. apply (quiet_edge m a); [done|]. apply (mesh_back _ _ Hm); [done|by eapply quiet_up].
Qed.

(** Connections are then transitive. *)
Lemma quiet_clique m orig a b :
  meshed m orig -> quiet m -> rtc (fun x y => y ∈ peers_of m x) a b -> a = b \/ b ∈ peers_of m a.
Proof.
  intros Hm Hq Hl. induction Hl as [a|a c b Hac Hcb IH]; [by left|].
  destruct (decide (a = b)) as [|Hne]; [by left|]. right. destruct IH as [->|Hb]; [done|].
  assert (a ∈ peers_of m c) as Hca by (by eapply quiet_symmetric).
  destruct (mesh_introduced _ _ Hm c a b) as [He|He]; try done; try (by eapply quiet_up).
  - by eapply quiet_edge.
  - by eapply quiet_symmetric, quiet_edge.
Qed.

(** *** The gossip ends *)

(** Connections that could still be made; threads that will not make one, or
    make one to a node that is gone; calls and broken connections. *)
Definition missing (m : mesh) : nat :=
  sum_list_with (fun a => size (dom (nodes m) ∖ peers_of m a)) (elements (dom (nodes m))).

Definition vain (m : mesh) (c : HostPortPair * HostPortPair) : Prop := c.2 ∈ peers_of m c.1 \/ c.2 ∉ dom (nodes m).

#[local] Instance vain_dec m c : Decision (vain m c).
Proof. unfold vain. apply _. Defined.

Definition measure (m : mesh) : nat * (nat * nat) :=
  (missing m, (length (filter (vain m) (connecting m)), (length (soup m) + length (lost m))%nat)).

Definition lex : relation (nat * (nat * nat)) := slexprod _ _ lt (slexprod _ _ lt lt).

Lemma lex_wf : well_founded lex.
Proof. apply wf_slexprod, wf_slexprod; apply lt_wf. Qed.

Lemma sum_list_with_le {A} (f g : A -> nat) l :
  (forall x, x ∈ l -> (f x <= g x)%nat) -> (sum_list_with f l <= sum_list_with g l)%nat.
Proof.
  induction l as [|x l IH]; intros Hle; simpl; [done|].
  assert (f x <= g x)%nat by (apply Hle; left). assert (sum_list_with f l <= sum_list_with g l)%nat; [|lia].
  apply IH. intros y Hy. apply Hle. by right.
Qed.

Lemma sum_list_with_lt {A} (f g : A -> nat) l a :
  (forall x, x ∈ l -> (f x <= g x)%nat) -> a ∈ l -> (f a < g a)%nat ->
  (sum_list_with f l < sum_list_with g l)%nat.
Proof.
  intros Hle Ha Hlt. apply list_elem_of_split in Ha as (l1 & l2 & ->). rewrite !sum_list_with_app. simpl.
  assert (sum_list_with f l1 <= sum_list_with g l1)%nat by (apply sum_list_with_le; set_solver).
  assert (sum_list_with f l2 <= sum_list_with g l2)%nat by (apply sum_list_with_le; set_solver). lia.
Qed.

(** Two states with the same nodes and the same connections between them. *)
Definition same_view (m m' : mesh) : Prop :=
  dom (nodes m') = dom (nodes m) /\ forall a y, up m y -> y ∈ peers_of m' a <-> y ∈ peers_of m a.

Lemma view_missing m m' : same_view m m' -> missing m' = missing m.
Proof.
  intros [Hd Hp]. unfold missing. rewrite Hd.
  assert (forall a, dom (nodes m) ∖ peers_of m' a = dom (nodes m) ∖ peers_of m a) as Heq.
  { intros a. apply set_eq. intros y. rewrite !elem_of_difference. specialize (Hp a y). unfold up in Hp. tauto. }
  induction (elements (dom (nodes m))) as [|a l IH]; [done|]. simpl. by rewrite Heq, IH.
Qed.

Lemma view_vain m m' c : same_view m m' -> vain m' c <-> vain m c.
Proof.
  intros [Hd Hp]. unfold vain. rewrite Hd. specialize (Hp c.1 c.2). unfold up in Hp.
  destruct (decide (c.2 ∈ dom (nodes m))); tauto.
Qed.

Lemma view_filter m m' (l : list (HostPortPair * HostPortPair)) : same_view m m' -> filter (vain m') l = filter (vain m) l.
Proof. intros Hv. apply list_filter_iff. intros c. by apply view_vain. Qed.

Lemma view_update m a this this' rest conn lst :
  nodes m !! a = Some this -> (forall y, up m y -> y ∈ dom (_peers this') <-> y ∈ dom (_peers this)) ->
  same_view m (update a this' rest conn lst m).
Proof.
  intros Ha Hp. split; [by eapply update_dom|]. intros b y Hy. unfold peers_of. cbn [update nodes].
  destruct (decide (b = a)) as [->|Hne]; [|by rewrite lookup_insert_ne].
  rewrite lookup_insert_eq, Ha, flushed_peers. by apply Hp.
Qed.

(** A step that makes no connection: it uses up a thread, or a call or a
    notice. *)
Lemma view_lex m m' : same_view m m' ->
  (length (filter (vain m) (connecting m')) < length (filter (vain m) (connecting m)))%nat \/
  length (filter (vain m) (connecting m')) = length (filter (vain m) (connecting m)) /\
  (length (soup m') + length (lost m') < length (soup m) + length (lost m))%nat ->
  lex (measure m') (measure m).
Proof.
  intros Hv Hlt. unfold lex, measure. rewrite (view_missing _ _ Hv), (view_filter _ _ _ Hv).
  apply right_slex. destruct Hlt as [?|[-> ?]]; [by apply left_slex|by apply right_slex].
Qed.

Lemma sent_clean m a this : clean this -> sent m a this = [].
Proof. intros Hc. unfold sent. by rewrite clean_outbox. Qed.

(** The locked part of [addPeer] for a new peer that is up. *)
Lemma connected_missing m a this x rest conn lst :
  nodes m !! a = Some this -> up m x -> x ∉ dom (_peers this) ->
  (missing (update a (addPeer_locked x this) rest conn lst m) < missing m)%nat.
Proof.
  intros Ha Hu Hx. set (m' := update _ _ _ _ _ _).
  assert (dom (nodes m') = dom (nodes m)) as Hd by (by eapply update_dom).
  assert (forall b, peers_of m' b = if decide (b = a) then {[x]} ∪ peers_of m a else peers_of m b) as Hp.
  { intros b. unfold peers_of, m'. cbn [update nodes]. case_decide; [subst|by rewrite lookup_insert_ne].
    rewrite lookup_insert_eq, Ha, flushed_peers. cbn. by rewrite insert_insert_eq, dom_insert_L. }
  unfold missing. rewrite Hd. apply (sum_list_with_lt _ _ _ a).
  - intros b _. rewrite Hp. apply subseteq_size. case_decide; [subst|]; clear; set_solver.
  - apply elem_of_elements. by eapply elem_of_dom_2.
  - rewrite Hp, decide_True by done. rewrite (peers_at _ _ _ Ha). apply subset_size.
    unfold up in Hu. clear -Hu Hx. set_solver.
Qed.

Lemma filter_delete_length {A} (P : A -> Prop) `{forall x, Decision (P x)} (l : list A) j x :
  l !! j = Some x -> P x -> (length (filter P (delete j l)) < length (filter P l))%nat.
Proof.
  intros Hj Hx. assert (filter P l ≡ₚ x :: filter P (delete j l)) as ->; [|simpl; lia].
  rewrite (delete_Permutation _ _ _ Hj) at 1. by rewrite filter_cons, decide_True.
Qed.

Lemma delivers_lex m m' orig : meshed m orig -> delivers m m' -> lex (measure m') (measure m).
Proof.
  intros Hm [i s a r this this' Hi Ha Hno Hrun|i s a x this Hi Ha|j a x this Hj Ha|j a x this Hj Ha];
    destruct (mesh_node _ _ Hm _ _ Ha) as [_ Hcl].
  - apply list_elem_of_lookup_2 in Hi as Hin.
    destruct (mesh_call _ _ Hm _ _ _ Hin) as [_ [(x & -> & _)|(g & v & ->)]]; [by destruct (Hno x)|].
    rewrite dispatch_group in Hrun. injection Hrun as Hrun.
    pose proof (effect_RPCAddToGroup _ _ _ _ Hcl Hrun) as Heff. apply view_lex.
    + apply (view_update m a this); [done|]. intros y _. rewrite (eff_peers _ _ _ _ _ Heff). clear; set_solver.
    + right. split; [done|]. cbn [update soup lost].
      assert (sent m a this' = []) as ->.
      { unfold sent. destruct (outbox this') as [|[b r] l] eqn:E; [done|]. exfalso.
        apply (eff_out _ _ _ _ _ Heff b r). rewrite E. left. }
      rewrite app_nil_r, length_delete by (by eexists). apply lookup_lt_Some in Hi. lia.
  - apply view_lex; [by apply (view_update m a this)|]. right. cbn [update connecting soup lost].
    rewrite sent_clean, app_nil_r, length_delete by (done || by eexists). apply lookup_lt_Some in Hi.
    split; [|lia]. unfold looked_up, addPeer_lookup, reachable. destruct (_peers this !! x) as [p|] eqn:Ex; [done|].
    destruct (bool_decide (x ∈ dom (nodes m))) eqn:Hu; [apply bool_decide_eq_true in Hu|done].
    rewrite filter_app, filter_cons, decide_False, filter_nil, app_nil_r; [done|].
    intros [Hp|?]; [|done]. simpl in Hp. rewrite (peers_at _ _ _ Ha) in Hp. by apply not_elem_of_dom in Ex.
  - destruct (decide (vain m (a, x))) as [Hv|Hv].
    + apply view_lex; [|left; by eapply filter_delete_length].
      apply (view_update m a this); [done|]. intros y Hy. cbn. rewrite insert_insert_eq, dom_insert_L.
      destruct Hv as [Hv|Hv]; simpl in Hv; [rewrite (peers_at _ _ _ Ha) in Hv|unfold up in Hy]; clear -Hv Hy; set_solver.
    + apply left_slex. apply connected_missing; [done|unfold up; apply dec_stable|]; unfold vain in Hv; simpl in Hv.
      * tauto.
      * rewrite (peers_at _ _ _ Ha) in Hv. tauto.
  - destruct (mesh_lost _ _ Hm a x) as [_ Hx]; [by eapply list_elem_of_lookup_2|]. apply view_lex.
    + apply (view_update m a this); [done|]. intros y Hy%(mesh_apart _ _ Hm). cbn. rewrite dom_delete_L.
      clear -Hx Hy; set_solver.
    + right. split; [done|]. cbn [update soup lost].
      rewrite sent_clean, app_nil_r, length_delete; [|by eexists|intros b p; cbn; intros [_ Hb]%lookup_delete_Some; by eapply Hcl].
      apply lookup_lt_Some in Hj. lia.
Qed.

Lemma delivers_acc m orig : meshed m orig -> Acc (fun m1 m0 => delivers m0 m1) m.
Proof.
  remember (measure m) as p eqn:Ep. revert m Ep. induction p as [p IH] using (well_founded_ind lex_wf).
  intros m -> Hm. constructor. intros m1 Hd.
  eapply IH; [by eapply delivers_lex|done|by eapply delivers_meshed].
Qed.

(** *** [RPCAddPeer] without interference *)

Lemma flushed_idle (this : Internal) : clean this -> flushed this = this.
Proof.
  intros Hc. destruct this as [h p ps gs cbs lg]. unfold flushed, set_peers. simpl. f_equal.
  rewrite <- (map_fmap_id ps) at 2. apply map_fmap_ext. intros b [cs] Hb. by rewrite <- (Hc b _ Hb).
Qed.

(** The second part may follow the first at once. *)
Lemma atomic_addPeer m a this x rest :
  clean this -> nodes m !! a = Some this -> connecting m = [] ->
  rtc delivers (update a this rest (looked_up m a x this) (lost m) m)
    (update a (RPCAddPeer (reachable m x) x.1 x.2 this).2 rest [] (lost m) m).
Proof.
  intros Hc Ha Hno. rewrite RPCAddPeer_split, <- (surjective_pairing x). unfold looked_up. rewrite Hno.
  destruct (addPeer_lookup (reachable m x) x this) eqn:El; [apply rtc_refl|].
  assert (reachable m x = true) as Hx.
  { unfold addPeer_lookup in El. destruct (_peers this !! x); [done|]. by destruct (reachable m x). }
  set (m1 := update a this rest ([] ++ [(a, x)]) (lost m) m).
  assert (nodes m1 = nodes m) as Hn by (unfold m1; cbn [update nodes]; by rewrite flushed_idle, insert_id).
  assert (reachable m1 x = true) as Hx1 by (unfold reachable in *; by rewrite Hn).
  apply rtc_once. pose proof (deliver_connected m1 0 a x this eq_refl) as Hd. rewrite Hn in Hd. specialize (Hd Ha).
  unfold broken in Hd. rewrite Hx1 in Hd.
  assert (update a (addPeer_locked x this) (soup m1) (delete 0%nat (connecting m1)) (lost m1) m1 =
          update a (addPeer_locked x this) rest [] (lost m) m) as <-; [|exact Hd].
  unfold update at 1. rewrite Hn. unfold sent at 1. rewrite Hn. unfold m1, update. cbn [soup connecting lost gone].
  rewrite (sent_clean m a this Hc). by rewrite app_nil_r.
Qed.

(** A call that cannot be executed. *)
Definition blocked (m : mesh) (c : envelope) : bool :=
  match nodes m !! c.1.2 with
  | Some this => match dispatch (reachable m) c.2 this with Some (Ok _) => false | _ => true end
  | None => true
  end.

Lemma blocked_overflow m orig s b r : meshed m orig -> (s, b, r) ∈ soup m -> blocked m (s, b, r) = true ->
  exists this g v, nodes m !! b = Some this /\ r = add_group g v /\ group_of this g !! v = Some INT_MAX.
Proof.
  intros Hm Hin. destruct (mesh_call _ _ Hm _ _ _ Hin) as [[this Hb]%elem_of_dom Hkind].
  unfold blocked. simpl. rewrite Hb. destruct Hkind as [(x & -> & _)|(g & v & ->)]; cbn; [done|].
  destruct (RPCAddToGroup g v this) as [this'|] eqn:E; [done|]. intros _. exists this, g, v. split_and!; try done.
  unfold RPCAddToGroup in E. destruct (group_of this g !! v) as [n|]; [|by destruct (_group_callbacks _ !! g)].
  unfold increment in E. destruct (n =? INT_MAX) eqn:En; [|done]. by apply Z.eqb_eq in En as ->.
Qed.

(** There is always something to do for a worker, or only blocked calls are
    left. *)
Lemma progress m orig : meshed m orig ->
  (exists m', delivers m m') \/
  connecting m = [] /\ lost m = [] /\ Forall (fun c => blocked m c = true) (soup m).
Proof.
  intros Hm. destruct (connecting m) as [|[a x] l] eqn:Ec.
  2:{ left. destruct (mesh_connecting _ _ Hm a x) as [[this Ha]%elem_of_dom _]; [rewrite Ec; left|].
      eexists. by apply (deliver_connected m 0 a x this); [rewrite Ec|]. }
  destruct (lost m) as [|[a x] l] eqn:El.
  2:{ left. destruct (mesh_lost _ _ Hm a x) as [[this Ha]%elem_of_dom _]; [rewrite El; left|].
      eexists. by apply (deliver_disconnect m 0 a x this); [rewrite El|]. }
  destruct (decide (Forall (fun c => blocked m c = true) (soup m))) as [Hall|Hsome]; [by right|left].
  apply not_Forall_Exists in Hsome; [|apply _]. apply Exists_exists in Hsome as ([[s a] r] & Hin & Hb).
  apply not_true_is_false in Hb. unfold blocked in Hb. simpl in Hb.
  apply list_elem_of_lookup in Hin as [i Hi]. destruct (nodes m !! a) as [this|] eqn:Ea; [|done].
  destruct (mesh_call _ _ Hm s a r) as [_ [(x & -> & _)|(g & v & ->)]]; [by eapply list_elem_of_lookup_2| |].
  - eexists. by eapply deliver_addPeer.
  - destruct (dispatch _ _ this) as [[this'|]|] eqn:Er; [|done..]. eexists. by eapply deliver_group.
Qed.

End MeshFacts.

(** ** Properties *)

Module MeshProps.
Import ServiceNode NodeFacts NodeProps Mesh MeshFacts.

(** C26. The gossip ends, and ends well: from any state of the network, no matter
    in which order workers run, which threads of [RPCAddPeer] race and when
    broken connections are noticed, only finitely many steps are made until
    there is nothing left to do; and what can be left then are only
    announcements of a member whose reference count has reached the largest
    [int]. *)
Theorem gossip_settles (m : mesh) (Hreach : rtc step empty_mesh m) :
  Acc (fun m1 m0 => delivers m0 m1) m /\
  exists m', rtc delivers m m' /\ connecting m' = [] /\ lost m' = [] /\ forall s b r, (s, b, r) ∈ soup m' ->
    exists this g v, nodes m' !! b = Some this /\ r = add_group g v /\ group_of this g !! v = Some INT_MAX.
Proof.
  destruct (reach_meshed m Hreach) as [orig Hm]. pose proof (delivers_acc m orig Hm) as Hacc. split; [done|].
  clear Hreach. induction Hacc as [m _ IH]. destruct (progress m orig Hm) as [[m1 Hd]|(Hc & Hl & Hall)].
  - destruct (IH m1 Hd) as (m' & Hr & Hm'); [by eapply delivers_meshed|]. exists m'. split; [by eapply rtc_l|done].
  - exists m. split_and!; [apply rtc_refl|done|done|]. intros s b r Hin. rewrite Forall_forall in Hall.
    by eapply blocked_overflow; [|done|apply Hall].
Qed.

(** C23. At rest the network is a set of cliques, whatever nodes came and went
    before: when nothing is going on, the peers of a node are up, are
    connected back to it, and are connected to each other. *)
Theorem rest_cliques (m : mesh) (a b : HostPortPair)
  (Hreach : rtc step empty_mesh m) (Hquiet : quiet m) (Hpeer : b ∈ peers_of m a) :
  b ∈ dom (nodes m) /\ a ∈ peers_of m b /\ forall c, c ∈ peers_of m b -> c = a \/ c ∈ peers_of m a.
Proof.
  destruct (reach_meshed m Hreach) as [orig Hm]. split_and!; [by eapply quiet_up|by eapply quiet_symmetric|].
  intros c Hc. destruct (quiet_clique m orig a c Hm Hquiet) as [->|?]; [|by left|by right].
  by eapply rtc_l, rtc_once.
Qed.

(** C22. A single connection joins the whole network: nodes that were linked at
    any time by connections, made or being made, through nodes that are still
    up, are all directly connected to each other when nothing is going on. *)
Theorem full_mesh (m0 m : mesh) (a b : HostPortPair)
  (Hreach : rtc step empty_mesh m0) (Hlater : rtc step m0 m) (Hquiet : quiet m)
  (Hlink : rtc (fun x y => (up m x /\ up m y) /\ (conn_of m0 x y \/ conn_of m0 y x)) a b) (Hab : a <> b) :
  b ∈ peers_of m a /\ a ∈ peers_of m b.
Proof.
  destruct (run_grows m0 m Hlater (reach_meshed m0 Hreach)) as [Hg Hc].
  destruct (reach_meshed m0 Hreach) as [orig0 Hm0]. destruct (Hg orig0 Hm0) as (orig & Hm & _).
  destruct (quiet_clique m orig a b Hm Hquiet) as [?|Hb]; [|done|split; [done|by eapply quiet_symmetric]].
  clear Hab. induction Hlink as [|x y z [[Hx Hy] Hxy] _ IH]; [apply rtc_refl|]. eapply rtc_l; [|exact IH].
  destruct Hxy as [Hxy|Hxy]; [by apply quiet_conn; [|apply Hc]|].
  eapply quiet_symmetric; [done|done|]. by apply quiet_conn; [|apply Hc].
Qed.

(** C24. Eventual consistency: as long as no node has left, nodes that are
    connected have the same members in every group when nothing is going on,
    whoever added them, in whatever order nodes joined and workers ran. *)
Theorem directories_agree (m : mesh) (a b : HostPortPair)
  (Hreach : rtc step empty_mesh m) (Hquiet : quiet m) (Hstay : gone m = ∅) (Hpeer : b ∈ peers_of m a) :
  forall g v, knows m a g v <-> knows m b g v.
Proof.
  destruct (reach_meshed m Hreach) as [orig Hm].
  assert (forall x y, linked m x y -> rtc (fun x y => y ∈ peers_of m x) x y) as Hpath.
  { intros x y. apply rtc_subrel. intros u w (s & [He|He]); [by eapply quiet_edge|].
    by eapply quiet_symmetric, quiet_edge. }
  assert (forall x y g v, y ∈ peers_of m x -> knows m x g v -> knows m y g v) as Hone.
  { intros x y g v Hy Hk. destruct (mesh_source _ _ Hm x x g v Hstay) as (o & Ho & Hl); [by left|].
    assert (rtc (fun x y => y ∈ peers_of m x) o y) as Hly by (eapply rtc_r; [by apply Hpath|done]).
    destruct (mesh_orig _ _ Hm _ _ _ Ho) as [[Huo|Hgo] Ht]; [|rewrite Hstay in Hgo; by apply not_elem_of_empty in Hgo].
    destruct (Ht Huo) as [Hko Htold]. destruct (quiet_clique m orig o y Hm Hquiet Hly) as [->|Hoy]; [done|].
    destruct (Htold y Hoy) as [?|Hin]; [by eapply quiet_up|done|].
    destruct Hquiet as [Hs _]. rewrite Hs in Hin. by apply elem_of_nil in Hin. }
  intros g v. split; apply Hone; [done|]. by eapply quiet_symmetric.
Qed.

(** C25. What a node that is still up has announced is known to all its peers
    when nothing is going on, whatever nodes have left since. *)
Theorem announced_arrives (m0 m : mesh) (a b : HostPortPair) (g v : string) (this this' : Internal)
  (Hreach : rtc step empty_mesh m0) (Ha : nodes m0 !! a = Some this) (Hadd : addToGroup g v this = Ok this')
  (Hlater : rtc step (update a this' (soup m0) (connecting m0) (lost m0) m0) m) (Hquiet : quiet m)
  (Hpeer : b ∈ peers_of m a) :
  knows m a g v /\ knows m b g v.
Proof.
  destruct (reach_meshed m0 Hreach) as [orig Hm]. pose proof (added_meshed _ _ _ _ _ _ _ Hm Ha Hadd) as Hm1.
  destruct (run_grows _ _ Hlater (ex_intro _ _ Hm1)) as [Hg _]. destruct (Hg _ Hm1) as (orig' & Hm' & Hsup).
  destruct (mesh_orig _ _ Hm' a g v) as [_ Ht]; [apply Hsup; by right|].
  destruct (Ht (peers_up _ _ _ Hpeer)) as [Hk Htold]. split; [done|].
  destruct (Htold b Hpeer) as [?|Hin]; [by eapply quiet_up|done|].
  destruct Hquiet as [Hs _]. rewrite Hs in Hin. by apply elem_of_nil in Hin.
Qed.

(** ** Witnesses *)

(** Deciding membership in a set that is a long computation. *)
Lemma elem_of_computed (X : gset HostPortPair) x : bool_decide (x ∈ X) = true -> x ∈ X.
Proof. apply bool_decide_eq_true_1. Qed.

Ltac by_computation := unfold up; apply elem_of_computed; vm_compute; reflexivity.

Definition as_add_peer (r : request) : option HostPortPair :=
  match r with
  | Request name [AStr h; AU16 p] => if bool_decide (name = "addPeer"%string) then Some (h, p) else None
  | _ => None
  end.

Lemma as_add_peer_spec r x : as_add_peer r = Some x <-> r = add_peer x.
Proof.
  split; [|by intros ->; destruct x].
  destruct r as [name [|[h|n] [|[h'|p] [|? ?]]]]; simpl; try done. case_bool_decide; [|done]. by intros [= <-]; subst.
Qed.

(** Threads first, then broken connections, then the calls in the order in
    which they were written. *)
Definition work_next (m : mesh) : option mesh :=
  match connecting m, lost m, soup m with
  | (a, x) :: rest, _, _ =>
      this ← nodes m !! a; Some (update a (addPeer_locked x this) (soup m) rest (broken m a x) m)
  | [], (a, x) :: rest, _ =>
      this ← nodes m !! a; Some (update a (RemovePeer x this) (soup m) (connecting m) rest m)
  | [], [], (_, a, r) :: rest =>
      this ← nodes m !! a;
      match as_add_peer r with
      | Some x => Some (update a this rest (looked_up m a x this) (lost m) m)
      | None => match dispatch (reachable m) r this with
                | Some (Ok this') => Some (update a this' rest (connecting m) (lost m) m)
                | _ => None
                end
      end
  | [], [], [] => None
  end.

Fixpoint work (fuel : nat) (m : mesh) : mesh :=
  match fuel with
  | O => m
  | S fuel => match work_next m with Some m' => work fuel m' | None => m end
  end.

Lemma work_next_delivers m m' : work_next m = Some m' -> delivers m m'.
Proof.
  unfold work_next. destruct (connecting m) as [|[a x] rest] eqn:Ec.
  - destruct (lost m) as [|[a x] rest] eqn:El.
    + destruct (soup m) as [|[[s a] r] rest] eqn:Es; [done|].
      destruct (nodes m !! a) as [this|] eqn:Ea; [|done]. simpl. destruct (as_add_peer r) as [x|] eqn:Er.
      * apply as_add_peer_spec in Er as ->. intros [= <-].
        pose proof (deliver_addPeer m 0 s a x this) as H. rewrite Es, El in H. by apply H.
      * destruct (dispatch (reachable m) r this) as [[this'|]|] eqn:Ed; [|done..]. intros [= <-].
        pose proof (deliver_group m 0 s a r this this') as H. rewrite Es, El, Ec in H. apply H; try done.
        intros x. rewrite <- as_add_peer_spec. congruence.
    + destruct (nodes m !! a) as [this|] eqn:Ea; [|done]. intros [= <-].
      pose proof (deliver_disconnect m 0 a x this) as H. rewrite El, Ec in H. by apply H.
  - destruct (nodes m !! a) as [this|] eqn:Ea; [|done]. intros [= <-].
    pose proof (deliver_connected m 0 a x this) as H. rewrite Ec in H. by apply H.
Qed.

Lemma work_run fuel : forall m, rtc step m (work fuel m).
Proof.
  induction fuel as [|fuel IH]; intros m; [apply rtc_refl|]. simpl.
  destruct (work_next m) as [m'|] eqn:E; [|apply rtc_refl]. eapply rtc_l; [|apply IH]. left. by apply work_next_delivers.
Qed.

Definition user_addPeer (a x : HostPortPair) (m : mesh) : mesh :=
  match nodes m !! a with
  | Some this => update a this (soup m) (looked_up m a x this) (lost m) m
  | None => m
  end.

Definition user_addToGroup (a : HostPortPair) (g v : string) (m : mesh) : mesh :=
  match nodes m !! a with
  | Some this => match addToGroup g v this with
                 | Ok this' => update a this' (soup m) (connecting m) (lost m) m
                 | Fault _ => m
                 end
  | None => m
  end.

(** Node [a] crashes, and everything it has written is lost. *)
Definition crash (a : HostPortPair) (m : mesh) : mesh :=
  mkMesh (delete a (nodes m)) (filter (fun c => c.1.1 <> a /\ c.1.2 <> a) (soup m))
    (filter (fun c => c.1 <> a) (connecting m))
    (filter (fun c => c.1 <> a) (lost m) ++
     ((fun c => (c.1, a)) <$> filter (fun c => c.1 <> a /\ a ∈ dom (_peers c.2)) (map_to_list (nodes m))))
    ({[a]} ∪ gone m).

Lemma user_addPeer_run a x m : a <> x -> rtc step m (user_addPeer a x m).
Proof.
  intros Hax. unfold user_addPeer. destruct (nodes m !! a) as [this|] eqn:E; [|apply rtc_refl].
  apply rtc_once. right. by apply act_addPeer.
Qed.

Lemma user_addToGroup_run a g v m : rtc step m (user_addToGroup a g v m).
Proof.
  unfold user_addToGroup. destruct (nodes m !! a) as [this|] eqn:E; [|apply rtc_refl].
  destruct (addToGroup g v this) as [this'|] eqn:Ea; [|apply rtc_refl].
  apply rtc_once. right. by eapply act_addToGroup.
Qed.

Lemma crash_step a m : a ∈ dom (nodes m) -> step m (crash a m).
Proof.
  intros Ha. right. apply act_leave; [done|..].
  - intros c [[_ ?] ?]%list_elem_of_filter. done.
  - intros c Hc ? ?. by apply list_elem_of_filter.
  - intros b this Hb Hne Hin. apply list_elem_of_fmap. exists (b, this). split; [done|].
    apply list_elem_of_filter. split; [done|]. by apply elem_of_map_to_list.
  - intros b x ([c t] & [= -> ->] & [[Hne _] Hc%elem_of_map_to_list]%list_elem_of_filter)%list_elem_of_fmap.
    split_and!; [done|done|by eapply elem_of_dom_2].
Qed.

(** Three nodes; [a] connects to [b] and [b] to [c] at the same time, [a] and
    [c] announce a member before any call is executed. *)
Definition na : HostPortPair := ("a"%string, 1).
Definition nb : HostPortPair := ("b"%string, 2).
Definition nc : HostPortPair := ("c"%string, 3).

Definition three : mesh :=
  mkMesh {[na := create "a" 1; nb := create "b" 2; nc := create "c" 3]} [] [] [] ∅.
Definition linking : mesh := user_addPeer nb nc (user_addPeer na nb three).
Definition joined : mesh := user_addToGroup nc "g" "y" (user_addToGroup na "g" "x" linking).
Definition settled : mesh := work 40 joined.

Lemma reach_three : rtc step empty_mesh three.
Proof.
  eapply rtc_l; [right; apply (act_create _ nc); [by apply not_elem_of_dom|set_solver]|].
  eapply rtc_l; [right; apply (act_create _ nb); [by apply not_elem_of_dom|set_solver]|].
  eapply rtc_l; [right; apply (act_create _ na); [by apply not_elem_of_dom|set_solver]|]. apply rtc_refl.
Qed.

Lemma reach_linking : rtc step empty_mesh linking.
Proof.
  etransitivity; [exact reach_three|]. etransitivity; [by apply (user_addPeer_run na nb)|].
  by apply (user_addPeer_run nb nc).
Qed.

Lemma linking_joined : rtc step linking joined.
Proof. etransitivity; apply user_addToGroup_run. Qed.

Lemma reach_joined : rtc step empty_mesh joined.
Proof. etransitivity; [exact reach_linking|exact linking_joined]. Qed.

Lemma reach_settled : rtc step empty_mesh settled.
Proof. etransitivity; [exact reach_joined|apply work_run]. Qed.

Lemma gossip_settles_witness : Acc (fun m1 m0 => delivers m0 m1) joined /\
  exists m', rtc delivers joined m' /\ connecting m' = [] /\ lost m' = [] /\
  forall s b r, (s, b, r) ∈ soup m' ->
    exists this g v, nodes m' !! b = Some this /\ r = add_group g v /\ group_of this g !! v = Some INT_MAX.
Proof. exact (gossip_settles joined reach_joined). Defined.

Lemma full_mesh_witness : nc ∈ peers_of settled na /\ na ∈ peers_of settled nc.
Proof.
  apply (full_mesh linking settled na nc).
  - exact reach_linking.
  - etransitivity; [exact linking_joined|apply work_run].
  - split_and!; vm_compute; reflexivity.
  - eapply rtc_l with nb; [split; [split; by_computation|left; right; vm_compute; left]|].
    eapply rtc_l with nc; [split; [split; by_computation|left; right; vm_compute; right; left]|].
    apply rtc_refl.
  - discriminate.
Defined.

Lemma directories_agree_witness : knows settled na "g" "y" <-> knows settled nc "g" "y".
Proof.
  apply (directories_agree settled na nc).
  - exact reach_settled.
  - split_and!; vm_compute; reflexivity.
  - vm_compute. reflexivity.
  - by_computation.
Defined.

(** Both members have arrived everywhere. *)
Example settled_members :
  (fun x => elements (dom (group_of x.2 "g"))) <$> map_to_list (nodes settled) =
  [["y"; "x"]; ["y"; "x"]; ["y"; "x"]]%string.
Proof. vm_compute. reflexivity. Qed.

(** Node [b], through which the others met, crashes; [a] and [c] stay
    connected and forget it. *)
Definition without_b : mesh := work 40 (crash nb settled).

Lemma reach_without_b : rtc step empty_mesh without_b.
Proof.
  etransitivity; [exact reach_settled|]. eapply rtc_l; [apply (crash_step nb)|apply work_run].
  by_computation.
Qed.

Example without_b_peers : elements (peers_of without_b na) = [nc] /\ elements (peers_of without_b nc) = [na].
Proof. split; vm_compute; reflexivity. Qed.

Lemma rest_cliques_witness : nc ∈ dom (nodes without_b) /\ na ∈ peers_of without_b nc /\
  forall c, c ∈ peers_of without_b nc -> c = na \/ c ∈ peers_of without_b na.
Proof.
  apply (rest_cliques without_b na nc).
  - exact reach_without_b.
  - split_and!; vm_compute; reflexivity.
  - by_computation.
Defined.

(** The node of [a] before and after it announces its member. *)
Definition node_a : Internal := default (create "a" 1) (nodes linking !! na).
Definition node_a' : Internal := match addToGroup "g" "x" node_a with Ok this' => this' | Fault _ => node_a end.

Lemma announced_arrives_witness : knows without_b na "g" "x" /\ knows without_b nc "g" "x".
Proof.
  apply (announced_arrives linking without_b na nc "g" "x" node_a node_a').
  - exact reach_linking.
  - vm_compute. reflexivity.
  - vm_compute. reflexivity.
  - replace (update na node_a' _ _ _ _) with (user_addToGroup na "g" "x" linking) by (vm_compute; reflexivity).
    etransitivity; [apply (user_addToGroup_run nc "g" "y")|]. etransitivity; [apply (work_run 40)|].
    eapply rtc_l; [apply (crash_step nb)|apply work_run]. by_computation.
  - split_and!; vm_compute; reflexivity.
  - by_computation.
Defined.

End MeshProps.
