(* ===== verification/MeshMembers.v ===== *)
(** * Members that come and go in a network of service nodes
      (src/src/rpc/service_node.cc)

    [Mesh] lets members only be added.  Here a network at rest carries one
    change of a group after the other: [announce] is [addToGroup] at a node,
    [withdraw] is [removeFromGroup], each followed by the workers executing
    the calls it made, in any order ([round], [rounds]).  [BroadcastFacts]
    shows that such a round ends and what it leaves behind; [MembersProps]
    that the nodes together implement one set of members, and how a node that
    joins late can fail to forget a member. *)

From S2P Require Import Prelude ServiceNode Mesh.
From Stdlib Require Import ZArith Lia Ascii.
From stdpp Require Import base gmap strings fin_maps numbers relations list.

Local Open Scope Z_scope.

Module Members.
Import ServiceNode Mesh.

Definition remove_group (g v : string) : request := Request "removeFromGroup" [AStr g; AStr v].

(** One call of a user at node [a]. *)
Inductive announce (a : HostPortPair) (g v : string) (m : mesh) : mesh -> Prop :=
  | announced_at this this' : nodes m !! a = Some this -> addToGroup g v this = Ok this' ->
      announce a g v m (update a this' (soup m) (connecting m) (lost m) m).

Inductive withdraw (a : HostPortPair) (g v : string) (m : mesh) : mesh -> Prop :=
  | withdrawn_at this : nodes m !! a = Some this ->
      withdraw a g v m (update a (removeFromGroup g v this) (soup m) (connecting m) (lost m) m).

(** The workers run until nothing is left to do. *)
Definition settles (m m' : mesh) : Prop := rtc delivers m m' /\ quiet m'.

(** The count of a member at a node, if it is one. *)
Definition count_at (m : mesh) (b : HostPortPair) (g v : string) : option Z :=
  this ← nodes m !! b; group_of this g !! v.

(** A change of a group by one of the nodes, carried out to the end. *)
Inductive change : Type :=
  | Announce (a : HostPortPair) (g v : string)
  | Withdraw (a : HostPortPair) (g v : string).

Definition round (c : change) (m m' : mesh) : Prop :=
  exists m1, match c with Announce a g v => announce a g v m m1 | Withdraw a g v => withdraw a g v m m1 end /\
    settles m1 m'.

Inductive rounds : list change -> mesh -> mesh -> Prop :=
  | rounds_nil m : rounds [] m m
  | rounds_cons c cs m m' m'' : round c m m' -> rounds cs m' m'' -> rounds (c :: cs) m m''.

(** What a network of nodes promises its users: one set of members, to which
    any node adds what is not there and from which any node takes what is. *)
Abbreviation directory := (gset (string * string)).

Definition change_directory (D : directory) (c : change) : directory :=
  match c with Announce _ g v => {[(g, v)]} ∪ D | Withdraw _ g v => D ∖ {[(g, v)]} end.

Fixpoint permitted (C : gset HostPortPair) (D : directory) (cs : list change) : bool :=
  match cs with
  | [] => true
  | c :: rest =>
      match c with
      | Announce a g v => bool_decide (a ∈ C /\ (g, v) ∉ D)
      | Withdraw a g v => bool_decide (a ∈ C /\ (g, v) ∈ D)
      end && permitted C (change_directory D c) rest
  end.

(** The nodes [C] hold the directory: each has all its members, with one
    reference, and no others. *)
Definition holds (C : gset HostPortPair) (D : directory) (m : mesh) : Prop :=
  forall b g v, b ∈ C -> count_at m b g v = if decide ((g, v) ∈ D) then Some 1 else None.

End Members.

Module BroadcastFacts.
Import ServiceNode NodeFacts NodeProps Mesh MeshFacts Members.

(** What a call that concerns a group does to a node. *)
Definition exec (r : request) (this : Internal) : Internal :=
  match dispatch (fun _ => false) r this with Some (Ok this') => this' | _ => this end.

Definition group_request (r : request) : Prop := exists g v, r = add_group g v \/ r = remove_group g v.

Lemma exec_dispatch conn r this this' :
  group_request r -> dispatch conn r this = Some (Ok this') -> this' = exec r this.
Proof.
  unfold exec. intros (g & v & [-> | ->]).
  - rewrite !dispatch_group. by intros [= ->].
  - cbn. by intros [= ->].
Qed.

Lemma group_request_peer r x : group_request r -> r <> add_peer x.
Proof. by intros (g & v & [-> | ->]). Qed.

Lemma RPCAddToGroup_peers g v this this' : RPCAddToGroup g v this = Ok this' -> _peers this' = _peers this.
Proof.
  unfold RPCAddToGroup. destruct (group_of this g !! v) as [n|]; [intros; by inv_ok|].
  destruct (_group_callbacks _ !! g); intros; by inv_ok.
Qed.

Lemma exec_peers r this : group_request r -> _peers (exec r this) = _peers this.
Proof.
  unfold exec. intros (g & v & [-> | ->]).
  - rewrite dispatch_group. destruct (RPCAddToGroup g v this) as [this'|] eqn:E; [|done].
    by eapply RPCAddToGroup_peers.
  - cbn. unfold RPCRemoveFromGroup. destruct (group_of this g !! v) as [n|]; [|done].
    destruct (n =? 1); [|done]. by destruct (_group_callbacks _ !! g).
Qed.

Lemma exec_clean r this : group_request r -> clean this -> clean (exec r this).
Proof. intros Hr Hc b p. rewrite exec_peers by done. apply Hc. Qed.

(** The call [r] is on its way from [a] to the nodes [bs], and nothing else;
    the nodes of [all] that are not among them have executed it. *)
Record broadcast (a : HostPortPair) (r : request) (all : list HostPortPair) (m0 : mesh)
    (bs : list HostPortPair) (m : mesh) : Prop := {
  bc_soup : soup m ≡ₚ (fun b => (a, b, r)) <$> bs;
  bc_rest : connecting m = [] /\ lost m = [] /\ gone m = gone m0;
  bc_sub b : b ∈ bs -> b ∈ all;
  bc_nodup : NoDup bs;
  bc_node b : nodes m !! b = (if decide (b ∈ all /\ b ∉ bs) then exec r else id) <$> nodes m0 !! b
}.

Lemma broadcast_step a r all m0 bs m m' :
  group_request r -> (forall b t, b ∈ all -> nodes m0 !! b = Some t -> clean t) ->
  broadcast a r all m0 bs m -> delivers m m' ->
  exists bs', (length bs' < length bs)%nat /\ broadcast a r all m0 bs' m'.
Proof.
  intros Hr Hcl [Hs (Hc & Hl & Hg) Hsub Hnd Hn] Hd.
  assert (forall s b r', (s, b, r') ∈ soup m -> s = a /\ r' = r /\ b ∈ bs) as Hin.
  { intros s b r'. rewrite Hs. by intros (b' & [= -> -> ->] & ?)%list_elem_of_fmap. }
  destruct Hd as [i s b r' this this' Hi Hb Hno Hrun|i s b x this Hi Hb|j b x this Hj Hb|j b x this Hj Hb].
  - destruct (Hin s b r') as (-> & -> & Hbs); [by eapply list_elem_of_lookup_2|].
    apply (exec_dispatch _ _ _ _ Hr) in Hrun as ->.
    apply list_elem_of_split in Hbs as (l1 & l2 & ->). exists (l1 ++ l2).
    apply NoDup_app in Hnd as (Hn1 & Hn12 & [Hb2 Hn2]%NoDup_cons).
    assert (b ∉ l1) as Hb1 by (intros ?; by apply (Hn12 b); [|left]).
    assert (clean this) as Hct.
    { rewrite Hn in Hb. apply fmap_Some in Hb as (t & Ht & ->).
      assert (clean t) by (eapply Hcl, Ht; apply Hsub; rewrite elem_of_app; right; left).
      case_decide; [by apply exec_clean|done]. }
    split; [rewrite !length_app; simpl; lia|]. split.
    + cbn [update soup]. rewrite sent_clean, app_nil_r by (by apply exec_clean).
      apply (Permutation_cons_inv (a := (a, b, r))). rewrite <- (delete_Permutation _ _ _ Hi), Hs.
      rewrite !fmap_app, fmap_cons. by rewrite Permutation_middle.
    + by split_and!.
    + intros c Hc'. apply Hsub. rewrite elem_of_app, elem_of_cons. apply elem_of_app in Hc'. tauto.
    + apply NoDup_app. split_and!; [done| |done]. intros c Hc1 Hc2. apply (Hn12 c Hc1). by right.
    + intros c. cbn [update nodes]. destruct (decide (c = b)) as [->|Hne].
      * rewrite lookup_insert_eq, flushed_idle by (by apply exec_clean). rewrite Hn in Hb.
        rewrite decide_False in Hb by (intros [_ Hx]; apply Hx; rewrite elem_of_app; right; left).
        rewrite decide_True by (split; [apply Hsub; rewrite elem_of_app; right; left|rewrite elem_of_app; tauto]).
        apply fmap_Some in Hb as (t & -> & ->). done.
      * rewrite lookup_insert_ne, Hn by done. do 2 f_equal. apply decide_ext. rewrite !elem_of_app, elem_of_cons. tauto.
  - exfalso. destruct (Hin s b (add_peer x)) as (_ & Hx & _); [by eapply list_elem_of_lookup_2|].
    by apply (group_request_peer r x Hr).
  - by rewrite Hc in Hj.
  - by rewrite Hl in Hj.
Qed.

(** The calls are on their way as soon as the node has told its peers. *)
Lemma told_outbox r this this' :
  clean this -> _peers this' = call r <$> _peers this ->
  outbox this' ≡ₚ (fun b => (b, r)) <$> (map_to_list (_peers this)).*1.
Proof.
  intros Hc Hp. unfold outbox. rewrite map_in_order_Permutation, Hp, map_to_list_fmap.
  assert (forall x, x ∈ map_to_list (_peers this) -> calls x.2 = []) as Hx.
  { intros [b p] Hin%elem_of_map_to_list. by eapply Hc. }
  clear Hc Hp. induction (map_to_list (_peers this)) as [|[b p] l IH]; [done|]. simpl.
  assert (calls p = []) as -> by (apply (Hx (b, p)); left). simpl. apply perm_skip, IH. intros x Hin. apply Hx. by right.
Qed.

(** The nodes of [C] are all connected to each other, and nothing is going on. *)
Definition calm (C : gset HostPortPair) (m : mesh) : Prop :=
  quiet m /\ forall b, b ∈ C ->
    exists this, nodes m !! b = Some this /\ clean this /\ dom (_peers this) = C ∖ {[b]}.

Lemma calm_starts C m a this this' r :
  calm C m -> a ∈ C -> nodes m !! a = Some this -> _peers this' = call r <$> _peers this ->
  let m1 := update a this' (soup m) (connecting m) (lost m) m in
  let bs := (map_to_list (_peers this)).*1 in
  broadcast a r bs m1 bs m1 /\ (forall b, b ∈ bs <-> b ∈ C /\ b <> a).
Proof.
  intros [(Hs & Hc & Hl) HC] HaC Ha Hp m1 bs. destruct (HC a HaC) as (? & Ha' & Hcl & Hd).
  rewrite Ha in Ha'. injection Ha' as <-.
  assert (forall b, b ∈ bs <-> b ∈ C /\ b <> a) as Hbs.
  { intros b. transitivity (b ∈ dom (_peers this)); [|rewrite Hd; clear; set_solver].
    unfold bs. rewrite list_elem_of_fmap, elem_of_dom. split.
    - intros ([b' p] & -> & Hin%elem_of_map_to_list). by eexists.
    - intros [p Hin]. exists (b, p). split; [done|]. by apply elem_of_map_to_list. }
  split; [|exact Hbs]. split.
  - subst m1. cbn [update soup]. rewrite Hs. simpl. unfold sent. rewrite (told_outbox r this this' Hcl Hp). fold bs.
    rewrite filter_all, <- list_fmap_compose; [done|].
    intros x (b & -> & [Hb _]%Hbs)%list_elem_of_fmap. destruct (HC b Hb) as (t & Ht & _). by eapply elem_of_dom_2.
  - done.
  - done.
  - apply NoDup_fst_map_to_list.
  - intros b. rewrite decide_False by tauto. by rewrite option_fmap_id.
Qed.

(** At the end everybody has executed it. *)
Lemma broadcast_settled a r bs m0 m1 m :
  group_request r -> (forall b t, b ∈ bs -> nodes m0 !! b = Some t -> clean t) ->
  broadcast a r bs m0 bs m1 -> settles m1 m ->
  forall b, nodes m !! b = (if decide (b ∈ bs) then exec r else id) <$> nodes m0 !! b.
Proof.
  intros Hr Hcl Hb [Hrun (Hq & _)].
  assert (exists bs', broadcast a r bs m0 bs' m) as [bs' [Hs _ _ _ Hn]].
  { assert (exists bs', broadcast a r bs m0 bs' m1) as Hex by eauto. clear Hb Hq. revert Hex.
    induction Hrun as [|x y z Hxy _ IH]; [done|]. intros [bs' Hbs]. apply IH.
    destruct (broadcast_step _ _ _ _ _ _ _ Hr Hcl Hbs Hxy) as (? & _ & ?). eauto. }
  rewrite Hq in Hs. apply Permutation_nil_l in Hs. symmetry in Hs. apply fmap_nil_inv in Hs. subst bs'.
  intros b. rewrite Hn. do 2 f_equal. apply decide_ext. rewrite elem_of_nil. tauto.
Qed.

(** And the end comes, when everybody can execute it. *)
Lemma broadcast_settles a r all m0 bs m :
  group_request r -> (forall b t, b ∈ all -> nodes m0 !! b = Some t -> clean t) ->
  (forall b, b ∈ all -> exists t t', nodes m0 !! b = Some t /\ forall conn, dispatch conn r t = Some (Ok t')) ->
  broadcast a r all m0 bs m -> exists m', settles m m'.
Proof.
  intros Hr Hcl Hex. remember (length bs) as n eqn:Hlen. revert bs m Hlen.
  induction (lt_wf n) as [n _ IH]. intros bs m -> Hb. destruct bs as [|b bs].
  - exists m. split; [apply rtc_refl|]. destruct Hb as [Hs (? & ? & _) _ _ _]. by apply Permutation_nil_r in Hs.
  - assert ((a, b, r) ∈ soup m) as [i Hi]%list_elem_of_lookup_1 by (rewrite (bc_soup _ _ _ _ _ _ Hb); left).
    destruct (Hex b) as (t & t' & Ht & Hd); [apply (bc_sub _ _ _ _ _ _ Hb); left|].
    assert (nodes m !! b = Some t) as Hbt.
    { rewrite (bc_node _ _ _ _ _ _ Hb), decide_False, Ht; [done|]. intros [_ Hn]. apply Hn. left. }
    assert (delivers m (update b t' (delete i (soup m)) (connecting m) (lost m) m)) as Hstep.
    { eapply deliver_group; [done|done| |done]. intros x. by apply group_request_peer. }
    destruct (broadcast_step _ _ _ _ _ _ _ Hr Hcl Hb Hstep) as (bs' & Hlt & Hb').
    destruct (IH _ Hlt bs' _ eq_refl Hb') as (m' & Hrun & Hq). exists m'. split; [by eapply rtc_l|done].
Qed.

(** *** One round *)

Section OneRound.
Context (C : gset HostPortPair) (m m1 : mesh) (a : HostPortPair) (this this' : Internal) (r : request).
Context (Hcalm : calm C m) (HaC : a ∈ C) (Ha : nodes m !! a = Some this) (Hr : group_request r)
  (Htold : _peers this' = call r <$> _peers this)
  (Hm1 : m1 = update a this' (soup m) (connecting m) (lost m) m).

Lemma round_clean b t : b ∈ (map_to_list (_peers this)).*1 -> nodes m1 !! b = Some t -> clean t.
Proof.
  intros Hb. destruct (calm_starts C m a this this' r Hcalm HaC Ha Htold) as [_ Hbs].
  apply Hbs in Hb as [HbC Hne]. subst m1. cbn [update nodes]. rewrite lookup_insert_ne by done.
  destruct Hcalm as [_ HC]. destruct (HC b HbC) as (t' & -> & ? & _). by intros [= <-].
Qed.

Lemma round_ends m2 : settles m1 m2 ->
  forall b, nodes m2 !! b = if decide (b = a) then Some (flushed this')
                            else (if decide (b ∈ C) then exec r else id) <$> nodes m !! b.
Proof.
  intros Hset b. destruct (calm_starts C m a this this' r Hcalm HaC Ha Htold) as [Hb Hbs].
  rewrite <- Hm1 in Hb. rewrite (broadcast_settled _ _ _ _ _ _ Hr round_clean Hb Hset).
  subst m1. cbn [update nodes]. destruct (decide (b = a)) as [->|Hne].
  - rewrite lookup_insert_eq, decide_False by (rewrite Hbs; tauto). done.
  - rewrite lookup_insert_ne by done. do 2 f_equal. apply decide_ext. rewrite Hbs. tauto.
Qed.

Lemma round_possible :
  (forall b t, b ∈ C -> nodes m !! b = Some t -> exists t', forall conn, dispatch conn r t = Some (Ok t')) ->
  exists m2, settles m1 m2.
Proof.
  intros Hex. destruct (calm_starts C m a this this' r Hcalm HaC Ha Htold) as [Hb Hbs]. rewrite <- Hm1 in Hb.
  eapply broadcast_settles; [exact Hr|apply round_clean| |exact Hb].
  intros b [HbC Hne]%Hbs. destruct Hcalm as [_ HC]. destruct (HC b HbC) as (t & Ht & _).
  destruct (Hex b t HbC Ht) as [t' Ht']. exists t, t'. split; [|done].
  subst m1. cbn [update nodes]. by rewrite lookup_insert_ne.
Qed.

Lemma round_calm m2 : settles m1 m2 -> calm C m2.
Proof.
  intros Hset. split; [apply Hset|]. intros b HbC. rewrite (round_ends m2 Hset).
  destruct Hcalm as [_ HC]. destruct (HC b HbC) as (t & Ht & Hcl & Hd). case_decide as Hba.
  - subst b. rewrite Ha in Ht. injection Ht as <-. exists (flushed this').
    split_and!; [done|apply flushed_clean|]. by rewrite flushed_peers, Htold, dom_fmap_L.
  - rewrite decide_True, Ht by done. exists (exec r t).
    split_and!; [done|by apply exec_clean|by rewrite exec_peers].
Qed.

End OneRound.

End BroadcastFacts.

Module MembersProps.
Import ServiceNode NodeFacts NodeProps Mesh MeshFacts MeshProps Members BroadcastFacts.

(** What adding and removing do to the members, at the node that is asked and
    at those that are told. *)
Lemma exec_add g v t : group_of t g !! v = None ->
  (exists t', forall conn, dispatch conn (add_group g v) t = Some (Ok t')) /\
  forall g', group_of (exec (add_group g v) t) g' =
    if decide (g = g') then <[v := 1]> (group_of t g) else group_of t g'.
Proof.
  intros Hno. destruct (rpc_add_members t g v INT_MAX) as (t' & Hrun & Hg & _).
  { rewrite Hno. simpl. unfold INT_MAX. lia. }
  { lia. }
  split; [exists t'; intros conn; by rewrite dispatch_group, Hrun|].
  unfold exec. rewrite dispatch_group, Hrun. intros g'. rewrite Hg, Hno. done.
Qed.

Lemma exec_remove g v t : group_of t g !! v = Some 1 ->
  (exists t', forall conn, dispatch conn (remove_group g v) t = Some (Ok t')) /\
  forall g', group_of (exec (remove_group g v) t) g' =
    if decide (g = g') then delete v (group_of t g) else group_of t g'.
Proof.
  intros Hone. split; [by eexists|]. intros g'.
  change (exec (remove_group g v) t) with (RPCRemoveFromGroup g v t).
  unfold RPCRemoveFromGroup. rewrite Hone. cbn [Z.eqb Pos.eqb]. rewrite fire_registered. apply (group_of_set g g').
Qed.

(** What a round has to do at every node of [C]: set the count of one member. *)
Lemma holds_changed C D D' m m' g v (n : option Z) :
  calm C m -> holds C D m ->
  (forall g' v', (g', v') ∈ D' <-> if decide ((g', v') = (g, v)) then n = Some 1 else (g', v') ∈ D) ->
  (n = Some 1 \/ n = None) ->
  (forall b t, b ∈ C -> nodes m !! b = Some t -> exists t', nodes m' !! b = Some t' /\
     forall g', group_of t' g' = if decide (g = g') then partial_alter (fun _ => n) v (group_of t g) else group_of t g') ->
  holds C D' m'.
Proof.
  intros [_ HC] HD HD' Hn Hnodes b g' v' Hb. destruct (HC b Hb) as (t & Ht & _).
  destruct (Hnodes b t Hb Ht) as (t' & Ht' & Hg). specialize (HD b g' v' Hb). unfold count_at in *.
  rewrite Ht in HD. rewrite Ht'. simpl in *. rewrite Hg.
  destruct (decide ((g', v') = (g, v))) as [[= -> ->]|Hne].
  - rewrite decide_True, lookup_partial_alter_eq by done. specialize (HD' g v). rewrite decide_True in HD' by done.
    destruct Hn as [-> | ->]; [by rewrite decide_True by (by apply HD')|].
    rewrite decide_False; [done|]. by intros [=]%HD'.
  - transitivity (group_of t g' !! v').
    + destruct (decide (g = g')) as [<-|]; [|done]. apply lookup_partial_alter_ne. congruence.
    + rewrite HD. specialize (HD' g' v'). rewrite decide_False in HD' by done.
      apply decide_ext. tauto.
Qed.

(** One permitted change can be carried out, and does what it should. *)
Definition follows (C : gset HostPortPair) (D : directory) (m m' : mesh) : Prop :=
  calm C m' /\ holds C D m' /\ forall b, b ∉ C -> nodes m' !! b = nodes m !! b.

Lemma round_follows C D m a this this' r g v (n : option Z) D' :
  calm C m -> holds C D m -> a ∈ C -> nodes m !! a = Some this -> group_request r ->
  _peers this' = call r <$> _peers this ->
  (forall g' v', (g', v') ∈ D' <-> if decide ((g', v') = (g, v)) then n = Some 1 else (g', v') ∈ D) ->
  (n = Some 1 \/ n = None) ->
  (forall g', group_of this' g' =
     if decide (g = g') then partial_alter (fun _ => n) v (group_of this g) else group_of this g') ->
  (forall b t, b ∈ C -> nodes m !! b = Some t ->
     (exists t', forall conn, dispatch conn r t = Some (Ok t')) /\
     forall g', group_of (exec r t) g' =
       if decide (g = g') then partial_alter (fun _ => n) v (group_of t g) else group_of t g') ->
  let m1 := update a this' (soup m) (connecting m) (lost m) m in
  (exists m', settles m1 m') /\ forall m', settles m1 m' -> follows C D' m m'.
Proof.
  intros Hcalm HD HaC Ha Hr Htold HD' Hn Hthis Hother m1. split.
  - eapply (round_possible C m m1 a this this' r); try done. intros b t HbC Ht. by apply (Hother b t).
  - intros m' Hset. pose proof (round_ends C m m1 a this this' r Hcalm HaC Ha Hr Htold eq_refl m' Hset) as Hend.
    split_and!.
    + by eapply (round_calm C m m1 a this this' r).
    + eapply (holds_changed C D D' m m' g v n); try done. intros b t HbC Ht. rewrite Hend. case_decide as Hba.
      * subst b. rewrite Ha in Ht. injection Ht as <-. exists (flushed this'). split; [done|]. exact Hthis.
      * rewrite decide_True, Ht by done. exists (exec r t). split; [done|]. by apply (Hother b t).
    + intros b Hb. rewrite Hend, decide_False, decide_False by (congruence || done). by destruct (nodes m !! b).
Qed.

Lemma change_follows C D m c :
  calm C m -> holds C D m -> permitted C D [c] = true ->
  (exists m', round c m m') /\ forall m', round c m m' -> follows C (change_directory D c) m m'.
Proof.
  intros Hcalm HD. simpl. rewrite andb_true_r.
  assert (forall b t g v, b ∈ C -> nodes m !! b = Some t ->
    group_of t g !! v = if decide ((g, v) ∈ D) then Some 1 else None) as Hcount.
  { intros b t g v Hb Ht. rewrite <- (HD b g v Hb). unfold count_at. by rewrite Ht. }
  destruct c as [a g v|a g v]; intros [HaC Hin]%bool_decide_eq_true;
    destruct (proj2 Hcalm a HaC) as (this & Ha & _ & _).
  - assert (group_of this g !! v = None) as Hno by (by rewrite (Hcount a this g v), decide_False).
    assert (exists this', addToGroup g v this = Ok this') as [this' Hadd].
    { unfold addToGroup. change (group_of (notify_peers _ this) g) with (group_of this g). rewrite Hno. by eexists. }
    destruct (add_member _ _ _ _ Hadd) as (Hg & Hg' & _ & Hp). rewrite Hno in Hg. simpl in Hg.
    destruct (round_follows C D m a this this' (add_group g v) g v (Some 1) ({[(g, v)]} ∪ D)) as [[m' Hex] Hall];
      try done.
    + exists g, v. by left.
    + intros g' v'. case_decide; clear -H; set_solver.
    + by left.
    + intros g'. case_decide as Hgg; [by subst g'|by apply Hg'].
    + intros b t HbC Ht. destruct (exec_add g v t) as [He Hge]; [by rewrite (Hcount b), decide_False|]. done.
    + split; [exists m'; eexists; split; [by econstructor|done]|].
      intros m2 (m1 & [this2 this2' Ha2 Hadd2] & Hset). rewrite Ha in Ha2. injection Ha2 as <-.
      rewrite Hadd in Hadd2. injection Hadd2 as <-. by apply Hall.
  - assert (group_of this g !! v = Some 1) as Hone by (by rewrite (Hcount a this g v), decide_True).
    destruct (remove_last_reference _ _ _ Hone) as (Hg & Hg' & _ & Hp).
    destruct (round_follows C D m a this (removeFromGroup g v this) (remove_group g v) g v None (D ∖ {[(g, v)]}))
      as [[m' Hex] Hall]; try done.
    + exists g, v. by right.
    + intros g' v'. case_decide; clear -H; set_solver.
    + by right.
    + intros g'. case_decide as Hgg; [by subst g'|by apply Hg'].
    + intros b t HbC Ht. destruct (exec_remove g v t) as [He Hge]; [by rewrite (Hcount b), decide_True|]. done.
    + split; [exists m'; eexists; split; [by econstructor|done]|].
      intros m2 (m1 & [this2 Ha2] & Hset). rewrite Ha in Ha2. injection Ha2 as <-. by apply Hall.
Qed.

Lemma changes_follow C cs : forall D m,
  calm C m -> holds C D m -> permitted C D cs = true ->
  (exists m', rounds cs m m') /\ forall m', rounds cs m m' -> follows C (foldl change_directory D cs) m m'.
Proof.
  induction cs as [|c cs IH]; intros D m Hcalm HD Hp.
  - split; [eexists; constructor|]. intros m' Hr. inversion Hr; subst. by split_and!.
  - apply andb_true_iff in Hp as [Hc Hp].
    destruct (change_follows C D m c Hcalm HD) as [[m1 Hr1] Hall]; [cbn [permitted]; by rewrite Hc|].
    assert (forall m1, round c m m1 -> (exists m', rounds cs m1 m') /\
      forall m', rounds cs m1 m' -> follows C (foldl change_directory D (c :: cs)) m m') as Hnext.
    { intros m2 Hr. destruct (Hall m2 Hr) as (Hcalm2 & HD2 & Hsame). destruct (IH _ _ Hcalm2 HD2 Hp) as [Hex Hfol].
      split; [done|]. intros m' Hr'. destruct (Hfol m' Hr') as (? & ? & Hsame').
      split_and!; [done|done|]. intros b Hb. by rewrite Hsame', Hsame. }
    split.
    + destruct (Hnext m1 Hr1) as [[m' Hr] _]. exists m'. by econstructor.
    + intros m' Hr. inversion Hr as [|c' cs' m2 m3 m4 Hr2 Hr']; subst. by apply (Hnext m3).
Qed.

(** A node and its peers, in a network at rest. *)
Definition clique (m : mesh) (a : HostPortPair) : gset HostPortPair := {[a]} ∪ peers_of m a.

Lemma elem_of_clique m a b : b ∈ clique m a <-> b = a \/ b ∈ peers_of m a.
Proof. unfold clique. by rewrite elem_of_union, elem_of_singleton. Qed.

Lemma clique_calm m a : rtc step empty_mesh m -> quiet m -> a ∈ dom (nodes m) -> calm (clique m a) m.
Proof.
  intros Hreach Hq Ha. destruct (reach_meshed m Hreach) as [orig Hm]. split; [done|]. intros b Hb.
  assert (up m b) as [t Ht]%elem_of_dom.
  { apply elem_of_clique in Hb as [->|Hb]; [done|by eapply quiet_up]. }
  exists t. destruct (mesh_node _ _ Hm _ _ Ht) as [_ Hcl]. split_and!; [done|done|].
  rewrite <- (peers_at _ _ _ Ht). apply set_eq. intros c. rewrite elem_of_difference, elem_of_singleton.
  assert (forall x y, x ∈ clique m a -> y ∈ clique m a -> x = y \/ y ∈ peers_of m x) as Hcl'.
  { intros x y Hx Hy. apply (quiet_clique m orig x y Hm Hq).
    apply elem_of_clique in Hx as [->|Hx]; apply elem_of_clique in Hy as [->|Hy].
    - apply rtc_refl.
    - by apply rtc_once.
    - apply rtc_once. by eapply quiet_symmetric.
    - eapply rtc_l; [by eapply quiet_symmetric|by apply rtc_once]. }
  split.
  - intros Hc. destruct (mesh_peer _ _ Hm _ _ Hc) as [Hne _]. split; [|done].
    rewrite elem_of_clique. apply elem_of_clique in Hb as [->|Hb]; [by right|].
    destruct (quiet_clique m orig a c Hm Hq) as [->|?]; [|by left|by right]. by eapply rtc_l, rtc_once.
  - intros [Hc Hne]. by destruct (Hcl' b c Hb Hc) as [->|?].
Qed.

(** C27. The nodes of a network implement one directory: in a network at rest,
    where a node and its peers hold the same members with one reference each,
    let these nodes add members that are absent and remove members that are
    present, one after the other.  Every such sequence of changes can be carried out, and
    however the workers execute the calls, afterwards all of them
    hold exactly the members the sequence leaves in a set, and no other node
    of the network has changed. *)
Theorem members_refine (m : mesh) (a : HostPortPair) (D : directory) (cs : list change)
  (Hreach : rtc step empty_mesh m) (Hquiet : quiet m) (Ha : a ∈ dom (nodes m))
  (HD : holds (clique m a) D m) (Hcs : permitted (clique m a) D cs = true) :
  (exists m', rounds cs m m') /\
  forall m', rounds cs m m' ->
    quiet m' /\ holds (clique m a) (foldl change_directory D cs) m' /\
    forall b, b ∉ clique m a -> nodes m' !! b = nodes m !! b.
Proof.
  destruct (changes_follow (clique m a) cs D m) as [Hex Hall]; [by apply clique_calm|done|done|].
  split; [done|]. intros m' Hr. destruct (Hall m' Hr) as ([? _] & ? & ?). by split_and!.
Qed.

(** ** Witnesses *)

(** The network of [MeshProps.linking], where nothing has been announced. *)
Definition at_rest : mesh := work 40 linking.

Lemma reach_at_rest : rtc step empty_mesh at_rest.
Proof. etransitivity; [exact reach_linking|apply work_run]. Qed.

Lemma at_rest_fresh b t : nodes at_rest !! b = Some t -> _groups t = ∅.
Proof.
  intros Hin%elem_of_map_to_list.
  assert (forallb (fun x => bool_decide (_groups x.2 = ∅)) (map_to_list (nodes at_rest)) = true) as Hall
    by (vm_compute; reflexivity).
  rewrite forallb_forall in Hall. apply list_elem_of_In, Hall in Hin. by apply bool_decide_eq_true in Hin.
Qed.

Definition some_changes : list change :=
  [Announce na "g" "x"; Announce nc "g" "y"; Withdraw nb "g" "x"; Announce nb "h" "x"; Withdraw nc "g" "y"]%string.

Lemma members_refine_witness :
  (exists m', rounds some_changes at_rest m') /\
  forall m', rounds some_changes at_rest m' ->
    quiet m' /\ holds (clique at_rest na) {[("h"%string, "x"%string)]} m' /\
    forall b, b ∉ clique at_rest na -> nodes m' !! b = nodes at_rest !! b.
Proof.
  replace {[("h"%string, "x"%string)]} with (foldl change_directory ∅ some_changes) by (vm_compute; reflexivity).
  apply (members_refine at_rest na ∅ some_changes).
  - exact reach_at_rest.
  - split_and!; vm_compute; reflexivity.
  - by_computation.
  - intros b g v Hb. rewrite decide_False by set_solver. unfold count_at.
    destruct (nodes at_rest !! b) as [t|] eqn:Ht; [|done]. simpl. unfold group_of. by rewrite (at_rest_fresh b t Ht).
  - vm_compute. reflexivity.
Defined.

(** References are counted per call and not per announcer, and a node that
    joins is told of a member by each of its peers.  Here [b] and [c] are
    connected, [c] announces a member, and then [a] connects to [c]: [a] has
    heard of it twice.  When [c] withdraws it, [b] and [c] forget it and
    [a] never does. *)
Definition pair_bc : mesh := work 40 (user_addPeer nb nc three).
Definition with_member : mesh := work 40 (user_addToGroup nc "g" "y" pair_bc).
Definition a_joined : mesh := work 40 (user_addPeer na nc with_member).
Definition user_removeFromGroup (a : HostPortPair) (g v : string) (m : mesh) : mesh :=
  match nodes m !! a with
  | Some this => update a (removeFromGroup g v this) (soup m) (connecting m) (lost m) m
  | None => m
  end.
Definition y_withdrawn : mesh := work 40 (user_removeFromGroup nc "g" "y" a_joined).

Example late_joiner_stuck :
  let counts m := (fun b => count_at m b "g" "y") <$> [na; nb; nc] in
  counts with_member = [None; Some 1; Some 1] /\
  counts a_joined = [Some 2; Some 1; Some 1] /\
  counts y_withdrawn = [Some 2; None; None] /\ soup y_withdrawn = [].
Proof. vm_compute. done. Qed.

(** Two threads of [a] that are told to connect to [b] at the same time both
    do: neither finds the other's connection, and [b] counts the member of [a]
    twice. *)
Definition raced : mesh :=
  work 40 (user_addPeer na nb (user_addPeer na nb (user_addToGroup na "g" "x" three))).

Example racing_threads_count_twice :
  quiet raced /\ count_at raced na "g" "x" = Some 1 /\ count_at raced nb "g" "x" = Some 2.
Proof. vm_compute. done. Qed.

End MembersProps.
