(* ===== verification/MeshRestart.v ===== *)
(** * A service node that comes back (src/src/rpc/service_node.cc)

    In [Mesh] a node that has left does not come back at the same address.
    Here it does ([restart]), with a new [ServiceNode] that knows nobody.  That
    works when its old peers have noticed that the old node is gone.  When one
    of them has not, it still has the address among its peers, answers the
    [addPeer] of the new node with true without connecting to it, and drops the
    address when it notices: [RestartProps] follows such a run to its end. *)

From S2P Require Import Prelude ServiceNode Mesh.
From Stdlib Require Import ZArith Lia Ascii.
From stdpp Require Import base gmap strings fin_maps numbers relations list.

Local Open Scope Z_scope.

Module Restart.
Import ServiceNode Mesh.

(** [ServiceNode::create] at the address of a node that is gone. *)
Definition restart (a : HostPortPair) (m : mesh) : mesh :=
  mkMesh (<[a := create a.1 a.2]> (nodes m)) (soup m) (connecting m) (lost m) (gone m ∖ {[a]}).

Inductive rstep (m : mesh) : mesh -> Prop :=
  | rstep_step m' : step m m' -> rstep m m'
  | rstep_restart a : a ∉ dom (nodes m) -> a ∈ gone m -> rstep m (restart a m).

End Restart.

Module RestartProps.
Import ServiceNode NodeFacts NodeProps Mesh MeshFacts MeshProps Restart.

(** What a peer of the old node makes of the new one's [addPeer]: nothing, as
    long as it has not noticed; and once it has noticed, the address is gone
    from its peers although the new node is up. *)
Theorem stale_peer_ignores (m : mesh) (a b : HostPortPair) (i : nat) (s : HostPortPair) (this : Internal)
  (Ha : nodes m !! a = Some this) (Hclean : clean this) (Hstale : b ∈ peers_of m a)
  (Hcall : soup m !! i = Some (s, a, add_peer b)) :
  delivers m (mkMesh (nodes m) (delete i (soup m)) (connecting m) (lost m) (gone m)) /\
  b ∉ dom (_peers (RemovePeer b this)).
Proof.
  assert (b ∈ dom (_peers this)) as [p Hp]%elem_of_dom by (by rewrite <- (peers_at _ _ _ Ha)).
  split; [|simpl; rewrite dom_delete_L; set_solver].
  pose proof (deliver_addPeer m i s a b this Hcall Ha) as Hd. unfold update, looked_up, addPeer_lookup in Hd.
  by rewrite Hp, sent_clean, app_nil_r, flushed_idle, insert_id in Hd.
Qed.

(** *** A run

    [a] and [b] are connected; [b] crashes and comes back before [a] has
    noticed, connects to [a], and only then [a] notices. *)

(** Calls and threads first, broken connections when nothing else is left. *)
Definition late_next (m : mesh) : option mesh :=
  if decide (connecting m = [] /\ soup m = []) then work_next m
  else m' ← work_next (mkMesh (nodes m) (soup m) (connecting m) [] (gone m));
       Some (mkMesh (nodes m') (soup m') (connecting m') (lost m ++ lost m') (gone m')).

Fixpoint late_work (fuel : nat) (m : mesh) : mesh :=
  match fuel with
  | O => m
  | S fuel => match late_next m with Some m' => late_work fuel m' | None => m end
  end.

(** A step that does not look at the broken connections. *)
Lemma delivers_lost m m' l : lost m = [] -> connecting m <> [] \/ soup m <> [] -> work_next m = Some m' ->
  delivers (mkMesh (nodes m) (soup m) (connecting m) l (gone m))
    (mkMesh (nodes m') (soup m') (connecting m') (l ++ lost m') (gone m')).
Proof.
  intros Hl Hne. unfold work_next. rewrite Hl. destruct (connecting m) as [|[a x] rest] eqn:Ec.
  - destruct (soup m) as [|[[s a] r] rest] eqn:Es; [by destruct Hne|].
    destruct (nodes m !! a) as [this|] eqn:Ea; [|done]. simpl. destruct (as_add_peer r) as [x|] eqn:Er.
    + apply as_add_peer_spec in Er as ->. intros [= <-]. cbn [update lost]. rewrite app_nil_r.
      pose proof (deliver_addPeer (mkMesh (nodes m) ((s, a, add_peer x) :: rest) [] l (gone m)) 0 s a x this eq_refl Ea) as H.
      unfold looked_up, reachable in *. rewrite Ec. exact H.
    + destruct (dispatch (reachable m) r this) as [[this'|]|] eqn:Ed; [|done..]. intros [= <-].
      cbn [update lost]. rewrite app_nil_r.
      apply (deliver_group (mkMesh (nodes m) ((s, a, r) :: rest) [] l (gone m)) 0 s a r this this' eq_refl Ea); [|exact Ed].
      intros x. rewrite <- as_add_peer_spec. congruence.
  - destruct (nodes m !! a) as [this|] eqn:Ea; [|done]. intros [= <-]. cbn [update lost].
    pose proof (deliver_connected (mkMesh (nodes m) (soup m) ((a, x) :: rest) l (gone m)) 0 a x this eq_refl Ea) as H.
    unfold broken, reachable in *. cbn [lost nodes] in *. rewrite Hl. destruct (bool_decide (x ∈ dom (nodes m))).
    + by rewrite app_nil_r.
    + done.
Qed.

Lemma late_next_delivers m m' : late_next m = Some m' -> delivers m m'.
Proof.
  unfold late_next. destruct (decide _) as [_|Hne]; [apply work_next_delivers|].
  set (m0 := mkMesh (nodes m) (soup m) (connecting m) [] (gone m)).
  destruct (work_next m0) as [m1|] eqn:Hw; [|done]. intros [= <-].
  assert (m = mkMesh (nodes m0) (soup m0) (connecting m0) (lost m) (gone m0)) as Hm by (by destruct m).
  rewrite Hm at 1. apply delivers_lost; [done| |done]. cbn.
  destruct (connecting m); [|by left]. destruct (soup m); [tauto|by right].
Qed.

Lemma late_work_run fuel : forall m, rtc rstep m (late_work fuel m).
Proof.
  induction fuel as [|fuel IH]; intros m; [apply rtc_refl|]. simpl.
  destruct (late_next m) as [m'|] eqn:E; [|apply rtc_refl]. eapply rtc_l; [|apply IH].
  constructor. left. by apply late_next_delivers.
Qed.

Definition connected_ab : mesh := work 40 (user_addPeer na nb three).
Definition b_crashed : mesh := crash nb connected_ab.
Definition b_back : mesh := restart nb b_crashed.
Definition rejoined : mesh := late_work 40 (user_addPeer nb na b_back).

Lemma step_rstep m m' : rtc step m m' -> rtc rstep m m'.
Proof. apply rtc_subrel. intros x y. by constructor. Qed.

Lemma reach_rejoined : rtc rstep empty_mesh rejoined.
Proof.
  etransitivity; [apply step_rstep, reach_three|].
  etransitivity; [apply step_rstep, (user_addPeer_run na nb); done|].
  etransitivity; [apply step_rstep, (work_run 40)|]. fold connected_ab.
  eapply rtc_l with b_crashed; [constructor; apply crash_step; by_computation|].
  eapply rtc_l with b_back; [apply rstep_restart|].
  - intros Hin. apply (bool_decide_eq_true_2 (nb ∈ dom (nodes b_crashed))) in Hin. vm_compute in Hin. discriminate Hin.
  - by_computation.
  - etransitivity; [apply step_rstep, (user_addPeer_run nb na); done|]. apply late_work_run.
Qed.

(** At the end nothing is going on, [b] has [a] among its peers, and [a] does
    not have [b]: what [a] announces does not reach [b]. *)
Example restart_one_way :
  quiet rejoined /\ elements (peers_of rejoined nb) = [na] /\ elements (peers_of rejoined na) = [] /\
  nb ∈ dom (nodes rejoined).
Proof. split_and!; [vm_compute; done|vm_compute; done|vm_compute; done|by_computation]. Qed.

(** [a] at the moment the call of the new [b] arrives. *)
Definition stale : mesh :=
  mkMesh (nodes b_back) [(nb, na, add_peer nb)] [] (lost b_back) (gone b_back).

Lemma stale_peer_ignores_witness :
  delivers stale (mkMesh (nodes stale) [] [] (lost stale) (gone stale)).
Proof.
  apply (stale_peer_ignores stale na nb 0 nb (default (create "a" 1) (nodes stale !! na))).
  - vm_compute. reflexivity.
  - assert (_peers (default (create "a" 1) (nodes stale !! na)) = {[nb := Peer []]}) as Hp by (vm_compute; reflexivity).
    intros b p. rewrite Hp. by intros [_ <-]%lookup_singleton_Some.
  - by_computation.
  - reflexivity.
Defined.

End RestartProps.
