(* ===== verification/Rpc.v ===== *)
(** * Remote procedure calls (src/src/rpc/rpc.h, rpc.cc)

    Requests and responses are msgpack tuples on a byte stream.  [Msgpack] is
    the interface to the msgpack library: packing the two tuples, the
    streaming unpacker and the conversions; [MsgpackLaws] states what its
    documentation promises.  [Server] is [RPCServer::Connection::Internal],
    [Client] is [RPCClient::Internal] with the futures its calls returned.
    Both hand work to the event manager, whose worker threads may run
    enqueued functions in any order.  [RpcNet] connects clients to a server by
    byte streams that may be cut anywhere; its steps interleave freely. *)

From S2P Require Import Prelude CppString.
From Stdlib Require Import ZArith Lia Ascii.
From stdpp Require Import base gmap strings fin_maps numbers relations list.

Local Open Scope Z_scope.

(** ** The msgpack library *)

Class Msgpack (Obj : Type) : Type := {
  (** [pack] of [tuple<uint64_t, string, raw_ref>] and of
      [tuple<uint64_t, raw_ref>]. *)
  pack_request : Z -> string -> list Z -> list Z;
  pack_response : Z -> list Z -> list Z;
  (** [unpacker::next] on the buffered bytes: the next object and what is
      left of the buffer. *)
  unpack_next : list Z -> option (Obj * list Z);
  (** [convert]; [None] is an exception. *)
  as_request : Obj -> option (Z * string * list Z);
  as_response : Obj -> option (Z * list Z)
}.

(** An encoding can be cut off a stream, and no proper prefix of it is taken
    for an object. *)
Definition self_delimiting {Obj A} `{Msgpack Obj} (enc : list Z) (conv : Obj -> option A) (a : A) : Prop :=
  (forall rest, exists o, unpack_next (enc ++ rest) = Some (o, rest) /\ conv o = Some a) /\
  (forall l1 l2, l1 ++ l2 = enc -> l2 <> [] -> unpack_next l1 = None).

Class MsgpackLaws (Obj : Type) `{Msgpack Obj} : Prop := {
  request_delimited id name args :
    is_u64 id -> self_delimiting (pack_request id name args) as_request (id, name, args);
  response_delimited id raw :
    is_u64 id -> self_delimiting (pack_response id raw) as_response (id, raw);
  unpack_consumes l o rest : unpack_next l = Some (o, rest) -> (length rest < length l)%nat
}.

(** Values that msgpack can pack into a buffer of their own. *)
Class Packable (A : Type) : Type := {
  pack : A -> list Z;
  unpack : list Z -> option A;
  unpack_pack a : unpack (pack a) = Some a
}.

Module Rpc.

(** ** Arguments and results *)

(** A registered function runs on the state [St] of the server: the objects its
    closure points to.  The buffer it returns is the value its future is set
    to, which may be later than the call. *)
Definition RPCFunc (St : Type) : Type := list Z -> St -> outcome (list Z * St).

(** [serializeArgs] of a tuple of arguments. *)
Definition serializeArgs {Obj} `{Msgpack Obj} {A} `{Packable A} (id : Z) (name : string) (a : A) :
    list Z :=
  pack_request id name (pack a).

(** [serializeFuture]: the value of a future, packed. *)
Definition serializeFuture {A} `{Packable A} (src : A) : list Z := pack src.

(** The adapter [registerFunction] puts around a typed function. *)
Definition deserializeArgs {St A B} `{Packable A, Packable B} (func : A -> St -> outcome (B * St)) :
    RPCFunc St :=
  fun args st =>
    match unpack args with
    | Some tup => '(src, st) ← func tup st; Ok (serializeFuture src, st)
    | None => Fault Throws
    end.

(** Without arguments nothing is unpacked. *)
Definition deserializeArgs0 {St B} `{Packable B} (func : St -> outcome (B * St)) : RPCFunc St :=
  fun args st => '(src, st) ← func st; Ok (serializeFuture src, st).

(** What a response becomes: the unpacked value, or the empty value for the
    null buffer of an aborted call. *)
Definition deserializeFuture {A} `{Packable A, Inhabited A} (src : option (list Z)) : outcome A :=
  match src with
  | Some buf => match unpack buf with Some a => Ok a | None => Fault Throws end
  | None => Ok inhabitant
  end.

Definition registerFunction {St A B} `{Packable A, Packable B} (name : string)
    (f : A -> St -> outcome (B * St)) (funcs : gmap string (RPCFunc St)) : gmap string (RPCFunc St) :=
  <[name := deserializeArgs f]> funcs.

Definition registerFunction0 {St B} `{Packable B} (name : string) (f : St -> outcome (B * St))
    (funcs : gmap string (RPCFunc St)) : gmap string (RPCFunc St) :=
  <[name := deserializeArgs0 f]> funcs.

Section Endpoints.
Context {Obj : Type} `{Msgpack Obj} {St : Type}.

(** ** The server side of a connection *)

(** What the receive handler enqueues. *)
Inductive task : Type :=
  | TCall (id : Z) (func : RPCFunc St) (args : list Z)
  | TDisconnect.

(** [s_unset] are the futures returned by functions that have run, each with
    the value it will be set to; [responseCallback] is attached to them. *)
Record Server : Type := mkServer {
  s_pac : list Z;
  s_funcs : gmap string (RPCFunc St);
  s_tasks : list task;
  s_unset : list (Z * list Z);
  s_connected : bool
}.

Definition new_server (funcs : gmap string (RPCFunc St)) : Server := mkServer [] funcs [] [] true.

(** One request: a call of a registered function, or the end of the
    connection. *)
Definition request_task (funcs : gmap string (RPCFunc St)) (id : Z) (name : string) (args : list Z) :
    task :=
  match funcs !! name with
  | Some func => TCall id func args
  | None => TDisconnect
  end.

Definition with_buffer (pac : list Z) (ts : list task) (this : Server) : Server :=
  mkServer pac (s_funcs this) ts (s_unset this) (s_connected this).

(** The loop [while (_pac.next(&result))]. *)
Fixpoint server_loop (fuel : nat) (this : Server) : outcome Server :=
  match fuel with
  | O => Fault OutOfFuel
  | S fuel =>
      match unpack_next (s_pac this) with
      | None => Ok this
      | Some (result, rest) =>
          match as_request result with
          | None => Fault Throws
          | Some (id, name, args) =>
              server_loop fuel
                (with_buffer rest (s_tasks this ++ [request_task (s_funcs this) id name args]) this)
          end
      end
  end.

(** Every object takes at least one byte, so the buffer bounds the loop. *)
Definition server_onReceive (buf : list Z) (this : Server) : outcome Server :=
  let pac := s_pac this ++ buf in
  server_loop (S (length pac)) (with_buffer pac (s_tasks this) this).

Definition server_disconnect (this : Server) : Server :=
  mkServer (s_pac this) (s_funcs this) (s_tasks this) (s_unset this) false.

(** [responseCallback]: the bytes written; nothing goes out on a closed
    socket. *)
Definition responseCallback (id : Z) (obj : list Z) (this : Server) : list Z :=
  if s_connected this then pack_response id obj else [].

(** [deferredRPCCall]: the function runs and returns a future, to which the
    response is attached. *)
Definition deferredRPCCall (id : Z) (func : RPCFunc St) (args : list Z) (this : Server) (st : St) :
    outcome (list Z * Server * St) :=
  '(ret, st) ← func args st;
  Ok (ret,
      mkServer (s_pac this) (s_funcs this) (s_tasks this) (s_unset this ++ [(id, ret)])
               (s_connected this),
      st).

(** A worker runs the [i]-th enqueued function: the call it made, if any, with
    the result, and the new states. *)
Definition server_run (i : nat) (this : Server) (st : St) :
    outcome (option (Z * list Z) * Server * St) :=
  match s_tasks this !! i with
  | None => Ok (None, this, st)
  | Some t =>
      let this := with_buffer (s_pac this) (delete i (s_tasks this)) this in
      match t with
      | TCall id func args =>
          '(ret, this, st) ← deferredRPCCall id func args this st; Ok (Some (id, ret), this, st)
      | TDisconnect => Ok (None, server_disconnect this, st)
      end
  end.

(** The [j]-th of the returned futures is set, which runs [responseCallback]:
    the bytes written and the new state. *)
Definition server_respond (j : nat) (this : Server) : list Z * Server :=
  match s_unset this !! j with
  | None => ([], this)
  | Some (id, obj) =>
      (responseCallback id obj this,
       mkServer (s_pac this) (s_funcs this) (s_tasks this) (delete j (s_unset this))
                (s_connected this))
  end.

(** ** The client *)

(** Futures are numbered in the order of the calls.  A set future holds the
    buffer its callback was given, [None] for an aborted call. *)
Record Client : Type := mkClient {
  _reqId : Z;
  _respCallbacks : gmap Z nat;
  c_pac : list Z;
  c_tasks : list (nat * list Z);
  c_futures : gmap nat (option (list Z));
  c_next : nat;
  c_connected : bool
}.

Definition new_client : Client := mkClient 0 ∅ [] [] ∅ 0 true.

(** [call] with its arguments packed: the future, the bytes written and the
    new state.  The callback is registered even when the socket is closed. *)
Definition call (name : string) (args : list Z) (this : Client) : nat * list Z * Client :=
  let ret := c_next this in
  (ret,
   if c_connected this then pack_request (_reqId this) name args else [],
   mkClient (to_u64 (_reqId this + 1)) (<[_reqId this := ret]> (_respCallbacks this))
            (c_pac this) (c_tasks this) (c_futures this) (S ret) (c_connected this)).

(** One response: its callback is enqueued and forgotten; a response nobody
    waits for is dropped. *)
Definition accept_response (id : Z) (raw : list Z) (this : Client) : Client :=
  match _respCallbacks this !! id with
  | Some f =>
      mkClient (_reqId this) (delete id (_respCallbacks this)) (c_pac this)
               (c_tasks this ++ [(f, raw)]) (c_futures this) (c_next this) (c_connected this)
  | None => this
  end.

Definition with_pac (pac : list Z) (this : Client) : Client :=
  mkClient (_reqId this) (_respCallbacks this) pac (c_tasks this) (c_futures this)
           (c_next this) (c_connected this).

Fixpoint client_loop (fuel : nat) (this : Client) : outcome Client :=
  match fuel with
  | O => Fault OutOfFuel
  | S fuel =>
      match unpack_next (c_pac this) with
      | None => Ok this
      | Some (result, rest) =>
          match as_response result with
          | None => Fault Throws
          | Some (id, raw) => client_loop fuel (accept_response id raw (with_pac rest this))
          end
      end
  end.

Definition client_onReceive (buf : list Z) (this : Client) : outcome Client :=
  let pac := c_pac this ++ buf in
  client_loop (S (length pac)) (with_pac pac this).

(** A worker runs the [i]-th enqueued callback. *)
Definition client_run (i : nat) (this : Client) : Client :=
  match c_tasks this !! i with
  | None => this
  | Some (f, raw) =>
      mkClient (_reqId this) (_respCallbacks this) (c_pac this) (delete i (c_tasks this))
               (<[f := Some raw]> (c_futures this)) (c_next this) (c_connected this)
  end.

(** [disconnect]: every pending callback is called with a null buffer. *)
Definition abort_all (cbs : gmap Z nat) (fs : gmap nat (option (list Z))) :
    gmap nat (option (list Z)) :=
  foldl (fun fs '(_, f) => <[f := None]> fs) fs (map_in_order Z.leb cbs).

Definition client_disconnect (this : Client) : Client :=
  mkClient (_reqId this) ∅ (c_pac this) (c_tasks this)
           (abort_all (_respCallbacks this) (c_futures this)) (c_next this) false.

End Endpoints.
#[global] Arguments task : clear implicits.
#[global] Arguments Server : clear implicits.
End Rpc.

(** ** Streams of messages *)

Module RpcFacts.
Import Rpc.

Section Streams.
Context {Obj : Type} `{Msgpack Obj} `{!MsgpackLaws Obj} {St : Type}.

Lemma unpack_nil : unpack_next [] = None.
Proof.
  destruct (request_delimited 0 "" []) as [Hwhole Hcut]; [unfold is_u64; lia|].
  apply (Hcut [] (pack_request 0 "" [])); [done|]. intros E.
  destruct (Hwhole []) as (o & Ho & _). rewrite E in Ho. apply unpack_consumes in Ho. simpl in Ho. lia.
Qed.

(** The buffered part [p] of a stream that starts with an encoding either
    holds all of it or gives nothing yet. *)
Lemma cut_first {A} enc (conv : Obj -> option A) a p q tl :
  self_delimiting enc conv a -> p ++ q = enc ++ tl ->
  (exists o p', unpack_next p = Some (o, p') /\ conv o = Some a /\ p' ++ q = tl /\
     (length p' < length p)%nat) \/
  unpack_next p = None.
Proof.
  intros [Hwhole Hcut] Heq. apply app_eq_app in Heq as (l & [[-> ->]|[-> ->]]).
  - left. destruct (Hwhole l) as (o & Ho & Hc). exists o, l. split_and!; try done.
    by eapply unpack_consumes.
  - destruct l as [|x l].
    + left. rewrite !app_nil_r in *. destruct (Hwhole []) as (o & Ho & Hc). rewrite !app_nil_r in Ho.
      exists o, []. split_and!; try done. by eapply unpack_consumes.
    + right. by eapply Hcut.
Qed.

Definition enc_request (m : Z * string * list Z) : list Z := pack_request m.1.1 m.1.2 m.2.
Definition enc_response (m : Z * list Z) : list Z := pack_response m.1 m.2.

Definition with_tasks (pac : list Z) (ts : list (task St)) (this : Server St) : Server St :=
  with_buffer pac (s_tasks this ++ ts) this.

(** The receive loop of the server takes the complete requests off the
    stream, in order, and keeps the rest. *)
Lemma server_loop_spec ms : forall fuel q (this : Server St),
  Forall (fun m => is_u64 m.1.1) ms -> s_pac this ++ q = concat (enc_request <$> ms) ->
  (length (s_pac this) < fuel)%nat ->
  exists ms1 ms2 p', ms = ms1 ++ ms2 /\ p' ++ q = concat (enc_request <$> ms2) /\
    unpack_next p' = None /\
    server_loop fuel this =
    Ok (with_tasks p' ((fun m => request_task (s_funcs this) m.1.1 m.1.2 m.2) <$> ms1) this).
Proof.
  induction ms as [|[[id name] args] ms IH]; intros [|fuel] q this Hu64 Heq Hf; try lia; cbn [server_loop].
  - apply app_eq_nil in Heq as [Hp ->]. rewrite Hp, unpack_nil. exists [], [], [].
    split_and!; try done; [apply unpack_nil|]. unfold with_tasks, with_buffer. simpl. rewrite app_nil_r, <- Hp.
    by destruct this.
  - apply Forall_cons in Hu64 as [Hid Hu64]. cbn [fmap list_fmap concat] in Heq.
    destruct (cut_first _ _ _ _ _ _ (request_delimited id name args Hid) Heq)
      as [(o & p' & Hn & Hc & Heq' & Hlt)|Hn].
    + rewrite Hn, Hc. set (this1 := with_buffer _ _ _).
      destruct (IH fuel q this1 Hu64 Heq' ltac:(simpl; lia)) as (ms1 & ms2 & p2 & -> & Hp2 & Hnone & ->).
      exists ((id, name, args) :: ms1), ms2, p2. split_and!; try done.
      unfold with_tasks, with_buffer, this1. simpl. by rewrite <- app_assoc.
    + rewrite Hn. exists [], ((id, name, args) :: ms), (s_pac this). split_and!; try done.
      unfold with_tasks, with_buffer. simpl. rewrite app_nil_r. by destruct this.
Qed.

Definition accept_all (ms : list (Z * list Z)) (this : Client) : Client :=
  foldl (fun st m => accept_response m.1 m.2 st) this ms.

Lemma accept_with_pac id raw p this :
  accept_response id raw (with_pac p this) = with_pac p (accept_response id raw this).
Proof. unfold accept_response. simpl. by destruct (_respCallbacks this !! id). Qed.

Lemma client_loop_spec ms : forall fuel p q this,
  Forall (fun m => is_u64 m.1) ms -> p ++ q = concat (enc_response <$> ms) ->
  (length p < fuel)%nat ->
  exists ms1 ms2 p', ms = ms1 ++ ms2 /\ p' ++ q = concat (enc_response <$> ms2) /\
    unpack_next p' = None /\
    client_loop fuel (with_pac p this) = Ok (with_pac p' (accept_all ms1 this)).
Proof.
  induction ms as [|[id raw] ms IH]; intros [|fuel] p q this Hu64 Heq Hf; try lia; cbn [client_loop].
  - apply app_eq_nil in Heq as [-> ->]. simpl. rewrite unpack_nil. exists [], [], [].
    split_and!; try done. apply unpack_nil.
  - apply Forall_cons in Hu64 as [Hid Hu64]. cbn [fmap list_fmap concat] in Heq.
    change (c_pac (with_pac p this)) with p.
    destruct (cut_first _ _ _ _ _ _ (response_delimited id raw Hid) Heq)
      as [(o & p' & Hn & Hc & Heq' & Hlt)|Hn].
    + rewrite Hn, Hc. change (with_pac p' (with_pac p this)) with (with_pac p' this).
      rewrite accept_with_pac.
      destruct (IH fuel p' q (accept_response id raw this) Hu64 Heq' ltac:(lia))
        as (ms1 & ms2 & p2 & -> & Hp2 & Hnone & ->).
      exists ((id, raw) :: ms1), ms2, p2. by split_and!.
    + rewrite Hn. exists [], ((id, raw) :: ms), p. by split_and!.
Qed.

End Streams.
End RpcFacts.

(** ** A small self-delimiting format

    Tag, identifier, lengths, contents: enough to satisfy [MsgpackLaws] and to
    run the witnesses. *)
Module MiniPack.
Import Rpc.

Fixpoint octets (s : string) : list Z :=
  match s with EmptyString => [] | String c s => char_to_u8 c :: octets s end.

Fixpoint of_octets (l : list Z) : string :=
  match l with [] => EmptyString | z :: l => String (ascii_of_N (Z.to_N z)) (of_octets l) end.

Lemma of_octets_octets s : of_octets (octets s) = s.
Proof.
  induction s as [|c s IH]; [done|]. simpl. rewrite IH. f_equal. unfold char_to_u8.
  rewrite N2Z.id. apply ascii_N_embedding.
Qed.

Definition obj : Type := (Z * string * list Z) + (Z * list Z).

Definition mini_request (id : Z) (name : string) (args : list Z) : list Z :=
  0 :: id :: Z.of_nat (length (octets name)) :: Z.of_nat (length args) :: octets name ++ args.

Definition mini_response (id : Z) (raw : list Z) : list Z :=
  1 :: id :: Z.of_nat (length raw) :: raw.

Definition mini_next (l : list Z) : option (obj * list Z) :=
  match l with
  | 0 :: id :: ln :: la :: rest =>
      let n := Z.to_nat ln in
      let m := Z.to_nat la in
      if (n + m <=? length rest)%nat
      then Some (inl (id, of_octets (take n rest), take m (drop n rest)), drop m (drop n rest))
      else None
  | 1 :: id :: lr :: rest =>
      let n := Z.to_nat lr in
      if (n <=? length rest)%nat then Some (inr (id, take n rest), drop n rest) else None
  | _ => None
  end.

#[global] Instance mini : Msgpack obj := {
  pack_request := mini_request;
  pack_response := mini_response;
  unpack_next := mini_next;
  as_request o := match o with inl r => Some r | inr _ => None end;
  as_response o := match o with inl _ => None | inr r => Some r end
}.

#[global] Instance mini_laws : MsgpackLaws obj.
Proof.
  split.
  - intros id name args _. split.
    + intros rest. eexists. cbn [pack_request unpack_next mini mini_request mini_next app].
      rewrite !Nat2Z.id, (proj2 (Nat.leb_le _ _)) by (rewrite !length_app; lia).
      rewrite <- app_assoc, take_app_length, !drop_app_length, take_app_length, of_octets_octets. done.
    + intros l1 l2 Heq Hl2. cbn [unpack_next mini pack_request] in *. unfold mini_request in Heq.
      destruct l1 as [|x0 [|x1 [|x2 [|x3 l1]]]]; simpl in Heq; try done; injection Heq; intros; subst; try done.
      simpl. rewrite !Nat2Z.id, (proj2 (Nat.leb_gt _ _)); [done|].
      destruct l2; [done|]. apply (f_equal length) in H. rewrite !length_app in H. simpl in H. lia.
  - intros id raw _. split.
    + intros rest. eexists. cbn [pack_response unpack_next mini mini_response mini_next app].
      rewrite !Nat2Z.id, (proj2 (Nat.leb_le _ _)) by (rewrite !length_app; lia).
      by rewrite take_app_length, drop_app_length.
    + intros l1 l2 Heq Hl2. cbn [unpack_next mini pack_response] in *. unfold mini_response in Heq.
      destruct l1 as [|x0 [|x1 [|x2 l1]]]; simpl in Heq; try done; injection Heq; intros; subst; try done.
      simpl. rewrite !Nat2Z.id, (proj2 (Nat.leb_gt _ _)); [done|].
      destruct l2; [done|]. rewrite length_app. simpl. lia.
  - intros l o rest. cbn [unpack_next mini]. unfold mini_next.
    intros Hn. repeat case_match; simplify_eq; simpl; rewrite ?length_drop; lia.
Qed.

(** A packed number and a packed pair of numbers. *)
#[global] Instance mini_Z : Packable Z := {|
  pack z := [z]; unpack l := match l with [z] => Some z | _ => None end; unpack_pack z := eq_refl |}.

#[global] Instance mini_ZZ : Packable (Z * Z).
Proof.
  refine {| pack p := [p.1; p.2];
            unpack l := match l with [x; y] => Some (x, y) | _ => None end |}.
  by intros [x y].
Defined.

End MiniPack.
