(* ===== verification/RpcNet.v ===== *)
(** * Clients and a server on a network

    A [link] is one connection: a [Client] and a [Server] of [Rpc], the bytes
    in flight in each direction, and the calls made so far.  A [net] is a
    server with any number of links, whose functions share one state.  Its
    steps are new connections, calls, deliveries of arbitrary pieces of the
    streams, worker threads running enqueued functions in any order, futures
    being set at any time, and clients that disconnect.  [LinkFacts] proves the
    invariant that ties every future to its own call, [NetFacts] that the
    functions ran in some serial order, [RpcProps] the properties. *)

From S2P Require Import Prelude CppString Rpc.
From Stdlib Require Import ZArith Lia Ascii.
From stdpp Require Import base gmap strings fin_maps numbers relations list.

Local Open Scope Z_scope.

Module Net.
Import Rpc.

Section Net.
Context {Obj : Type} `{Msgpack Obj} {St : Type}.

Record link : Type := mkLink {
  n_client : Client;
  n_server : Server St;
  n_c2s : list Z;
  n_s2c : list Z;
  n_calls : list (string * list Z)   (** the calls made, oldest first *)
}.

Definition new_link (funcs : gmap string (RPCFunc St)) : link :=
  mkLink new_client (new_server funcs) [] [] [].

(** The steps of one connection, with the call that was executed, if any.  A
    socket that was disconnected has no receive callback any more. *)
Inductive link_step (n : link) (st : St) : option (Z * list Z) -> link -> St -> Prop :=
  | step_call name args :
      Z.of_nat (length (n_calls n)) + 1 < 2 ^ 64 ->
      let '(_, bytes, cl) := call name args (n_client n) in
      link_step n st None
        (mkLink cl (n_server n) (n_c2s n ++ bytes) (n_s2c n) (n_calls n ++ [(name, args)])) st
  | step_to_server chunk rest sv :
      n_c2s n = chunk ++ rest -> s_connected (n_server n) = true ->
      server_onReceive chunk (n_server n) = Ok sv ->
      link_step n st None (mkLink (n_client n) sv rest (n_s2c n) (n_calls n)) st
  | step_server_runs i done sv st' :
      server_run i (n_server n) st = Ok (done, sv, st') ->
      link_step n st done (mkLink (n_client n) sv (n_c2s n) (n_s2c n) (n_calls n)) st'
  | step_server_responds j bytes sv :
      server_respond j (n_server n) = (bytes, sv) ->
      link_step n st None (mkLink (n_client n) sv (n_c2s n) (n_s2c n ++ bytes) (n_calls n)) st
  | step_to_client chunk rest cl :
      n_s2c n = chunk ++ rest -> c_connected (n_client n) = true ->
      client_onReceive chunk (n_client n) = Ok cl ->
      link_step n st None (mkLink cl (n_server n) (n_c2s n) rest (n_calls n)) st
  | step_client_runs i :
      link_step n st None
        (mkLink (client_run i (n_client n)) (n_server n) (n_c2s n) (n_s2c n) (n_calls n)) st
  | step_client_disconnects :
      link_step n st None
        (mkLink (client_disconnect (n_client n)) (n_server n) (n_c2s n) (n_s2c n) (n_calls n)) st.

(** Nothing is in flight and no work is left. *)
Definition quiescent (n : link) : Prop :=
  n_c2s n = [] /\ n_s2c n = [] /\ s_tasks (n_server n) = [] /\ s_unset (n_server n) = [] /\
  c_tasks (n_client n) = [].

(** A server, its registered functions, their state and its connections. *)
Record net : Type := mkNet {
  n_funcs : gmap string (RPCFunc St);
  n_state : St;
  n_links : list link
}.

Definition init (funcs : gmap string (RPCFunc St)) (st : St) : net := mkNet funcs st [].

(** [RPCServer::onAccept] creates a connection with the shared functions. *)
Inductive step (n : net) : net -> Prop :=
  | step_connects : step n (mkNet (n_funcs n) (n_state n) (n_links n ++ [new_link (n_funcs n)]))
  | step_link k l done l' st' :
      n_links n !! k = Some l -> link_step l (n_state n) done l' st' ->
      step n (mkNet (n_funcs n) st' (<[k := l']> (n_links n))).

(** The [i]-th call of the [k]-th connection. *)
Definition call_of (n : net) (c : nat * nat) : option (string * list Z) :=
  n_links n !! c.1 ≫= fun l => n_calls l !! c.2.

(** The registered functions executed one after the other. *)
Fixpoint serial (funcs : gmap string (RPCFunc St)) (calls : nat * nat -> option (string * list Z))
    (order : list (nat * nat)) (st : St) : outcome (list (nat * nat * list Z) * St) :=
  match order with
  | [] => Ok ([], st)
  | c :: order =>
      '(name, args) ← deref (calls c);
      func ← deref (funcs !! name);
      '(raw, st) ← func args st;
      '(log, st) ← serial funcs calls order st;
      Ok ((c, raw) :: log, st)
  end.

(** [log] explains the net: its calls, executed one after the other in this
    order from the state [st0], return these results and lead to the state of
    the server; no call occurs twice; and every answer a client has received
    is the result of its call in [log]. *)
Record linearised (st0 : St) (n : net) (log : list (nat * nat * list Z)) : Prop := {
  lin_once : NoDup log.*1;
  lin_serial : serial (n_funcs n) (call_of n) log.*1 st0 = Ok (log, n_state n);
  lin_answers k l i raw :
    n_links n !! k = Some l -> c_futures (n_client l) !! i = Some (Some raw) -> (k, i, raw) ∈ log
}.

End Net.
#[global] Arguments link : clear implicits.
#[global] Arguments net : clear implicits.
End Net.

Module LinkFacts.
Import Rpc RpcFacts Net.

Lemma elem_of_delete_or {A} (l : list A) i x : x ∈ l -> x ∈ delete i l \/ l !! i = Some x.
Proof.
  destruct (l !! i) as [y|] eqn:E; intros Hx.
  - rewrite delete_take_drop. rewrite <- (take_drop_middle l i y E) in Hx. set_solver.
  - left. by rewrite delete_take_drop, take_ge, drop_ge, app_nil_r by
      (apply lookup_ge_None in E; lia).
Qed.

Lemma delete_incl {A} (l : list A) i x : x ∈ delete i l -> x ∈ l.
Proof.
  intros [j Hj]%list_elem_of_lookup. destruct (decide (j < i)%nat).
  - rewrite list_lookup_delete_lt in Hj by done. by eapply list_elem_of_lookup_2.
  - rewrite list_lookup_delete_ge in Hj by lia. by eapply list_elem_of_lookup_2.
Qed.

Section Invariant.
Context {Obj : Type} `{Msgpack Obj} `{!MsgpackLaws Obj} {St : Type}.

Definition known (calls : list (string * list Z)) (funcs : gmap string (RPCFunc St)) : Prop :=
  forall name args, (name, args) ∈ calls -> name ∈ dom funcs.

Definition task_id (t : task St) : option Z :=
  match t with TCall id _ _ => Some id | TDisconnect => None end.

(** The invariant: [pend] are the requests the server has not taken off the
    stream, [ans] the calls that were executed, with their results, and
    [resps] the responses the client has not taken off the stream. *)
Record core (calls : list (string * list Z)) (ans : list (nat * list Z)) (sv : Server St) (cl : Client)
    (pend : list (Z * string * list Z)) (resps : list (Z * list Z)) : Prop := {
  core_small : Z.of_nat (length calls) < 2 ^ 64;
  core_reqId : _reqId cl = Z.of_nat (length calls);
  core_next : c_next cl = length calls;
  core_pend id name args : (id, name, args) ∈ pend ->
    exists i, id = Z.of_nat i /\ calls !! i = Some (name, args);
  core_tasks id func args : TCall id func args ∈ s_tasks sv ->
    exists i name, id = Z.of_nat i /\ calls !! i = Some (name, args) /\ s_funcs sv !! name = Some func;
  core_ans i raw : (i, raw) ∈ ans -> (i < length calls)%nat;
  core_unset id raw : (id, raw) ∈ s_unset sv -> exists i, id = Z.of_nat i /\ (i, raw) ∈ ans;
  core_resps id raw : (id, raw) ∈ resps -> exists i, id = Z.of_nat i /\ (i, raw) ∈ ans;
  core_callbacks id f : _respCallbacks cl !! id = Some f ->
    id = Z.of_nat f /\ (f < length calls)%nat /\ (f ∉ (c_tasks cl).*1) /\ c_futures cl !! f = None;
  core_scheduled f raw : (f, raw) ∈ c_tasks cl -> (f, raw) ∈ ans /\ c_futures cl !! f = None;
  core_once : NoDup (c_tasks cl).*1;
  core_set f v : c_futures cl !! f = Some v ->
    match v with Some raw => (f, raw) ∈ ans | None => c_connected cl = false /\ (f < length calls)%nat end;
  core_exec : NoDup (pend.*1.*1 ++ omap task_id (s_tasks sv) ++ (Z.of_nat <$> ans.*1));
  core_covered : known calls (s_funcs sv) -> c_connected cl = true ->
    s_connected sv = true /\ (TDisconnect ∉ s_tasks sv) /\
    forall i, (i < length calls)%nat ->
      is_Some (c_futures cl !! i) \/ i ∈ (c_tasks cl).*1 \/
      _respCallbacks cl !! Z.of_nat i = Some i /\
      (Z.of_nat i ∈ pend.*1.*1 \/ (exists func args, TCall (Z.of_nat i) func args ∈ s_tasks sv) \/
       Z.of_nat i ∈ (s_unset sv).*1 \/ Z.of_nat i ∈ resps.*1)
}.

Lemma known_prefix calls x (funcs : gmap string (RPCFunc St)) : known (calls ++ [x]) funcs -> known calls funcs.
Proof. intros Hk name args Hin. apply (Hk name args), elem_of_app. by left. Qed.

Lemma NoDup_contained {A} (l k : list A) : l ⊆+ k -> NoDup k -> NoDup l.
Proof. intros [k' ->]%submseteq_Permutation. by intros [? _]%NoDup_app. Qed.

(** Running or dropping a task. *)
Lemma tasks_without (ts : list (task St)) k t :
  ts !! k = Some t -> omap task_id ts ≡ₚ option_list (task_id t) ++ omap task_id (delete k ts).
Proof.
  intros Hk. rewrite (delete_Permutation _ _ _ Hk) at 1. simpl. by destruct (task_id t).
Qed.

(** *** Each kind of step keeps it *)

Lemma core_call calls ans sv cl pend resps name args :
  core calls ans sv cl pend resps -> Z.of_nat (length calls) + 1 < 2 ^ 64 ->
  core (calls ++ [(name, args)]) ans sv (call name args cl).2
       (pend ++ if c_connected cl then [(Z.of_nat (length calls), name, args)] else []) resps.
Proof.
  intros [Hs Hr Hn Hp Ht Han Hu Hre Hcb Hsch Hon Hset Hex Hcov] Hlt.
  assert (forall i c, calls !! i = Some c -> (calls ++ [(name, args)]) !! i = Some c) as Hmono
    by (intros; by apply lookup_app_l_Some).
  assert (forall i x, calls !! i = Some x -> (i < length calls)%nat) as Hlen
    by (intros; by eapply lookup_lt_Some).
  split; simpl; rewrite ?length_app, ?Hr, ?Hn; simpl; try done; try lia.
  - rewrite to_u64_id; [lia|]. unfold is_u64. lia.
  - intros id nm a [Hin|Heq]%elem_of_app.
    + destruct (Hp _ _ _ Hin) as (i & -> & Hi). eauto.
    + destruct (c_connected cl); [|by apply elem_of_nil in Heq]. apply list_elem_of_singleton in Heq.
      injection Heq as -> -> ->. exists (length calls). split; [done|].
      by rewrite lookup_app_r, Nat.sub_diag by lia.
  - intros id func a Hin. destruct (Ht _ _ _ Hin) as (i & nm & -> & Hi & Hf). eauto 6.
  - intros i raw Hin. apply Han in Hin. lia.
  - intros id f. destruct (decide (id = Z.of_nat (length calls))) as [->|Hne].
    + rewrite lookup_insert_eq. intros [= <-]. split_and!; [done|lia| |].
      * intros ([f raw] & Hf & Hin)%list_elem_of_fmap. simpl in Hf.
        destruct (Hsch _ _ Hin) as [Hi _]. apply Han in Hi. lia.
      * destruct (c_futures cl !! length calls) as [[raw|]|] eqn:E; [| |done]; specialize (Hset _ _ E);
          simpl in Hset; [apply Han in Hset|]; lia.
    + rewrite lookup_insert_ne by done. intros Hf. destruct (Hcb _ _ Hf) as (-> & ? & ? & ?).
      split_and!; (done || lia).
  - intros f v Hf. specialize (Hset _ _ Hf). destruct v; [done|]. destruct Hset. split; [done|lia].
  - destruct (c_connected cl); [|by rewrite app_nil_r]. rewrite !fmap_app. simpl.
    rewrite <- app_assoc. cbn [app]. rewrite <- Permutation_middle. constructor; [|done].
    rewrite !elem_of_app, !list_elem_of_fmap. intros [([id nm] & Heq & Hin)|[Hin|(i & Heq & Hin)]].
    + apply list_elem_of_fmap in Hin as ([[id' nm'] a] & E & Hin). simplify_eq/=.
      destruct (Hp _ _ _ Hin) as (i & ? & Hi%Hlen). lia.
    + apply list_elem_of_omap in Hin as ([id func a|] & Hin & Heq); simplify_eq/=.
      destruct (Ht _ _ _ Hin) as (i & nm & ? & Hi%Hlen & _). lia.
    + apply list_elem_of_fmap in Hin as ([i' raw] & -> & Hin%Han). simpl in *. lia.
  - intros Hk Hcon. destruct (Hcov (known_prefix _ _ _ Hk) Hcon) as (Hc & Hd & Hall). split_and!; [done|done|].
    rewrite Hcon. intros i Hi. destruct (decide (i = length calls)) as [->|Hne].
    + right; right. rewrite lookup_insert_eq. split; [done|]. left. rewrite !fmap_app. set_solver.
    + rewrite lookup_insert_ne by lia. destruct (Hall i ltac:(lia)) as [?|[?|[? Hin]]]; [tauto..|].
      right; right. split; [done|]. rewrite !fmap_app, elem_of_app. tauto.
Qed.

Lemma request_ids (funcs : gmap string (RPCFunc St)) ms :
  omap task_id ((fun m => request_task funcs m.1.1 m.1.2 m.2) <$> ms) `sublist_of` ms.*1.*1.
Proof.
  induction ms as [|[[id name] args] ms IH]; simpl; [done|]. unfold request_task at 1. simpl.
  destruct (funcs !! name); simpl; by constructor.
Qed.

Lemma core_requests calls ans sv cl ms1 ms2 resps p' :
  core calls ans sv cl (ms1 ++ ms2) resps ->
  core calls ans (with_tasks p' ((fun m => request_task (s_funcs sv) m.1.1 m.1.2 m.2) <$> ms1) sv) cl
       ms2 resps.
Proof.
  intros [Hs Hr Hn Hp Ht Han Hu Hre Hcb Hsch Hon Hset Hex Hcov]. split; try done.
  - intros id name args Hin. apply Hp. set_solver.
  - intros id func args [Hin|Hin]%elem_of_app; [by apply Ht|].
    apply list_elem_of_fmap in Hin as ([[id' name] args'] & Heq & Hin). simpl in Heq.
    unfold request_task in Heq. destruct (s_funcs sv !! name) as [func'|] eqn:E; [|done].
    injection Heq as -> -> ->. destruct (Hp id' name args') as (i & -> & Hi); [set_solver|].
    by exists i, name.
  - eapply NoDup_contained; [|exact Hex]. simpl. rewrite omap_app, !fmap_app.
    rewrite !(Permutation_app_comm ms1.*1.*1), <- !app_assoc. apply submseteq_app; [done|].
    rewrite (Permutation_app_comm ms1.*1.*1), <- !app_assoc.
    apply submseteq_app; [done|]. rewrite Permutation_app_comm. apply submseteq_app; [done|].
    apply sublist_submseteq, request_ids.
  - intros Hk Hcon. destruct (Hcov Hk Hcon) as (Hc & Hd & Hall).
    assert (forall id name args, (id, name, args) ∈ ms1 -> exists func, s_funcs sv !! name = Some func) as Hreg.
    { intros id name args Hin. destruct (Hp id name args) as (i & _ & Hi); [set_solver|].
      apply elem_of_dom, (Hk name args). by eapply list_elem_of_lookup_2. }
    split_and!; [done| |].
    + simpl. intros [?|Hin]%elem_of_app; [done|].
      apply list_elem_of_fmap in Hin as ([[id name] args] & Heq & Hin). simpl in Heq.
      destruct (Hreg _ _ _ Hin) as [func Hf]. unfold request_task in Heq. by rewrite Hf in Heq.
    + intros i Hi. destruct (Hall i Hi) as [?|[?|[? Hin]]]; [tauto..|]. right; right. split; [done|].
      rewrite !fmap_app, elem_of_app in Hin.
      destruct Hin as [[Hin|?]|[(func & args & ?)|?]]; [|tauto| |simpl; tauto].
      * right; left. apply list_elem_of_fmap in Hin as ([id name] & Hid & Hin).
        apply list_elem_of_fmap in Hin as ([[id' name'] args] & Hid' & Hin). simpl in *. injection Hid' as -> ->.
        destruct (Hreg _ _ _ Hin) as [func Hf]. exists func, args. apply elem_of_app. right.
        apply list_elem_of_fmap. exists (id', name', args). split; [|done].
        unfold request_task. simpl. by rewrite Hf, Hid.
      * right; left. exists func, args. apply elem_of_app. by left.
Qed.

Lemma core_run_call calls ans sv cl pend resps k id func args raw :
  core calls ans sv cl pend resps -> s_tasks sv !! k = Some (TCall id func args) ->
  core calls (ans ++ [(Z.to_nat id, raw)])
       (mkServer (s_pac sv) (s_funcs sv) (delete k (s_tasks sv)) (s_unset sv ++ [(id, raw)]) (s_connected sv))
       cl pend resps.
Proof.
  intros [Hs Hr Hn Hp Ht Han Hu Hre Hcb Hsch Hon Hset Hex Hcov] Hk.
  destruct (Ht id func args) as (i & name & -> & Hi & Hf); [by eapply list_elem_of_lookup_2|].
  rewrite Nat2Z.id.
  split; simpl; try done.
  - intros id' func' args' Hin. apply Ht. by eapply delete_incl.
  - intros j r [Hin|Heq%list_elem_of_singleton]%elem_of_app; [by eapply Han|].
    injection Heq as -> ->. by eapply lookup_lt_Some.
  - intros id' r [Hin|Heq%list_elem_of_singleton]%elem_of_app.
    + destruct (Hu _ _ Hin) as (j & -> & ?). set_solver.
    + injection Heq as -> ->. set_solver.
  - intros id' r Hin. destruct (Hre _ _ Hin) as (j & -> & ?). set_solver.
  - intros f r Hin. destruct (Hsch _ _ Hin). set_solver.
  - intros f v Hv. specialize (Hset _ _ Hv). destruct v; set_solver.
  - rewrite !fmap_app. simpl. rewrite (tasks_without _ _ _ Hk) in Hex. simpl in Hex.
    eapply NoDup_contained; [|exact Hex]. apply Permutation_submseteq.
    rewrite (Permutation_app_comm (Z.of_nat <$> _) [Z.of_nat i]). cbn [app]. apply Permutation_app_head.
    by rewrite <- Permutation_middle.
  - intros Hkn Hcon. destruct (Hcov Hkn Hcon) as (Hc & Hd & Hall). split_and!; [done| |].
    + intros Hin. by apply delete_incl in Hin.
    + intros j Hj. destruct (Hall j Hj) as [?|[?|[? Hin]]]; [tauto..|]. right; right. split; [done|].
      rewrite fmap_app, elem_of_app. destruct Hin as [?|[(f' & a' & Hin)|?]]; [tauto| |tauto].
      apply (elem_of_delete_or _ k) in Hin as [?|Heq]; [right; left; eauto|].
      rewrite Hk in Heq. injection Heq as E -> ->. right; right; left. right. rewrite E. left.
Qed.

Lemma core_run_disconnect calls ans sv cl pend resps k :
  core calls ans sv cl pend resps -> s_tasks sv !! k = Some TDisconnect ->
  core calls ans (server_disconnect (with_buffer (s_pac sv) (delete k (s_tasks sv)) sv)) cl pend resps.
Proof.
  intros [Hs Hr Hn Hp Ht Han Hu Hre Hcb Hsch Hon Hset Hex Hcov] Hk. split; simpl; try done.
  - intros id' func' args' Hin. apply Ht. by eapply delete_incl.
  - by rewrite (tasks_without _ _ _ Hk) in Hex.
  - intros Hkn Hcon. destruct (Hcov Hkn Hcon) as (_ & Hd & _). destruct Hd. by eapply list_elem_of_lookup_2.
Qed.

Lemma core_respond calls ans sv cl pend resps j id raw :
  core calls ans sv cl pend resps -> s_unset sv !! j = Some (id, raw) ->
  core calls ans (mkServer (s_pac sv) (s_funcs sv) (s_tasks sv) (delete j (s_unset sv)) (s_connected sv))
       cl pend (resps ++ if s_connected sv then [(id, raw)] else []).
Proof.
  intros [Hs Hr Hn Hp Ht Han Hu Hre Hcb Hsch Hon Hset Hex Hcov] Hj. split; simpl; try done.
  - intros id' raw' Hin. apply Hu. by eapply delete_incl.
  - intros id' raw' [Hin|Hin]%elem_of_app; [by apply Hre|]. destruct (s_connected sv); [|set_solver].
    apply list_elem_of_singleton in Hin as [= -> ->]. apply Hu. by eapply list_elem_of_lookup_2.
  - intros Hkn Hcon. destruct (Hcov Hkn Hcon) as (Hc & Hd & Hall). split_and!; [done|done|]. rewrite Hc.
    intros i Hi. destruct (Hall i Hi) as [?|[?|[? Hin]]]; [tauto..|]. right; right. split; [done|].
    rewrite fmap_app, elem_of_app. destruct Hin as [?|[?|[Hin|?]]]; [tauto|tauto| |tauto].
    rewrite (delete_Permutation _ _ _ Hj) in Hin. apply elem_of_cons in Hin as [->|?]; [|tauto].
    right; right; right. right. left.
Qed.

Lemma core_accept calls ans sv cl pend resps id raw :
  core calls ans sv cl pend ((id, raw) :: resps) -> core calls ans sv (accept_response id raw cl) pend resps.
Proof.
  intros [Hs Hr Hn Hp Ht Han Hu Hre Hcb Hsch Hon Hset Hex Hcov]. unfold accept_response.
  destruct (Hre id raw) as (i & -> & Ha); [left|].
  assert (forall id' raw', (id', raw') ∈ resps -> exists j, id' = Z.of_nat j /\ (j, raw') ∈ ans) as Hre'
    by (intros id' raw' Hin; apply Hre; by right).
  destruct (_respCallbacks cl !! Z.of_nat i) as [f|] eqn:Ef.
  - destruct (Hcb _ _ Ef) as (Hfi & Hlt & Hnt & Hnf). apply Nat2Z.inj in Hfi as <-.
    split; simpl; try done.
    + intros id' f'. destruct (decide (id' = Z.of_nat i)) as [->|Hne]; [by rewrite lookup_delete_eq|].
      rewrite lookup_delete_ne by done. intros Hf'. destruct (Hcb _ _ Hf') as (-> & ? & ? & ?).
      split_and!; try done. rewrite fmap_app. simpl. set_solver.
    + intros f' raw' [Hin|Heq%list_elem_of_singleton]%elem_of_app; [by apply Hsch|]. by injection Heq as -> ->.
    + rewrite fmap_app. apply NoDup_app. split_and!; [done| |apply NoDup_singleton]. set_solver.
    + intros Hk Hcon. destruct (Hcov Hk Hcon) as (Hc & Hd & Hall). split_and!; try done. intros j Hj.
      rewrite fmap_app. destruct (decide (j = i)) as [->|Hne]; [right; left; set_solver|].
      rewrite lookup_delete_ne by lia. destruct (Hall j Hj) as [?|[?|[? Hin]]]; [tauto|set_solver|].
      right; right. split; [done|]. simpl in Hin. rewrite elem_of_cons in Hin.
      destruct Hin as [?|[?|[?|[?|?]]]]; [tauto..|lia|tauto].
  - split; simpl; try done.
    intros Hk Hcon. destruct (Hcov Hk Hcon) as (Hc & Hd & Hall). split_and!; try done. intros j Hj.
    destruct (Hall j Hj) as [?|[?|[Hcbj Hin]]]; [tauto..|]. right; right. split; [done|].
    simpl in Hin. rewrite elem_of_cons in Hin. destruct Hin as [?|[?|[?|[Heq|?]]]]; [tauto..| |tauto].
    rewrite Heq in Hcbj. congruence.
Qed.

Lemma core_accept_all calls ans sv pend ms1 ms2 : forall cl,
  core calls ans sv cl pend (ms1 ++ ms2) -> core calls ans sv (accept_all ms1 cl) pend ms2.
Proof.
  induction ms1 as [|[id raw] ms1 IH]; intros cl Hc; [done|]. apply (IH (accept_response id raw cl)).
  by apply core_accept.
Qed.

Lemma core_with_pac calls ans sv cl pend resps p :
  core calls ans sv cl pend resps -> core calls ans sv (with_pac p cl) pend resps.
Proof. intros []. by split. Qed.

Lemma core_client_run calls ans sv cl pend resps k :
  core calls ans sv cl pend resps -> core calls ans sv (client_run k cl) pend resps.
Proof.
  intros Hcore. pose proof Hcore as [Hs Hr Hn Hp Ht Han Hu Hre Hcb Hsch Hon Hset Hex Hcov]. unfold client_run.
  destruct (c_tasks cl !! k) as [[f raw]|] eqn:Ek; [|done].
  assert ((f, raw) ∈ c_tasks cl) as Hin by (by eapply list_elem_of_lookup_2).
  destruct (Hsch f raw Hin) as [Ha Hnone].
  assert (NoDup (f :: (delete k (c_tasks cl)).*1)) as [Hgone Hnd]%NoDup_cons.
  { by rewrite (delete_Permutation _ _ _ Ek) in Hon. }
  assert (forall x, x ∈ (delete k (c_tasks cl)).*1 -> x ∈ (c_tasks cl).*1) as Hsub.
  { intros x (y & -> & Hy)%list_elem_of_fmap. apply list_elem_of_fmap. eauto using delete_incl. }
  split; simpl; try done.
  - intros id f' Hf'. destruct (Hcb _ _ Hf') as (-> & ? & Hnt & ?). split_and!; try done; [by intros ?%Hsub|].
    rewrite lookup_insert_ne; [done|]. intros ->. apply Hnt. apply list_elem_of_fmap. by exists (f', raw).
  - intros f' raw' Hin'. assert (f' <> f) as Hne.
    { intros ->. apply Hgone. apply list_elem_of_fmap. by exists (f, raw'). }
    rewrite lookup_insert_ne by done. apply Hsch. by eapply delete_incl.
  - intros f' v. destruct (decide (f' = f)) as [->|Hne].
    + rewrite lookup_insert_eq. by intros [= <-].
    + rewrite lookup_insert_ne by done. apply Hset.
  - intros Hkn Hcon. destruct (Hcov Hkn Hcon) as (Hc & Hd & Hall). split_and!; try done. intros j Hj.
    destruct (decide (j = f)) as [->|Hne]; [left; rewrite lookup_insert_eq; eauto|].
    rewrite lookup_insert_ne by done.
    destruct (Hall j Hj) as [?|[Hj'|?]]; [tauto| |tauto]. right; left.
    rewrite (delete_Permutation _ _ _ Ek) in Hj'. simpl in Hj'. by apply elem_of_cons in Hj' as [?|?].
Qed.

(** *** Aborting callbacks *)

Lemma abort_all_lookup cbs fs f :
  abort_all cbs fs !! f =
  if decide (f ∈ (map_in_order Z.leb cbs).*2) then Some None else fs !! f.
Proof.
  unfold abort_all. generalize (map_in_order Z.leb cbs). intros l. revert fs.
  induction l as [|[id g] l IH]; intros fs; [done|]. simpl. rewrite IH.
  destruct (decide (f ∈ l.*2)) as [Hl|Hl].
  - by rewrite decide_True by (by right).
  - destruct (decide (f = g)) as [->|Hne].
    + rewrite lookup_insert_eq, decide_True by left. done.
    + rewrite lookup_insert_ne by done. rewrite decide_False by (by intros [?|?]%elem_of_cons). done.
Qed.

Lemma pending_iff (cbs : gmap Z nat) f :
  f ∈ (map_in_order Z.leb cbs).*2 <-> exists id, cbs !! id = Some f.
Proof.
  rewrite list_elem_of_fmap. split.
  - intros ([id g] & -> & Hin). exists id. by apply elem_of_map_in_order in Hin.
  - intros [id Hid]. exists (id, f). split; [done|]. by apply elem_of_map_in_order.
Qed.

Lemma core_client_disconnect calls ans sv cl pend resps :
  core calls ans sv cl pend resps -> core calls ans sv (client_disconnect cl) pend resps.
Proof.
  intros [Hs Hr Hn Hp Ht Han Hu Hre Hcb Hsch Hon Hset Hex Hcov]. split; simpl; try done.
  - intros f raw Hin. destruct (Hsch f raw Hin) as [Ha Hf]. split; [done|].
    rewrite abort_all_lookup, decide_False; [done|]. intros [id Hid]%pending_iff.
    destruct (Hcb _ _ Hid) as (_ & _ & Hnt & _). apply Hnt. apply list_elem_of_fmap. by exists (f, raw).
  - intros f v. rewrite abort_all_lookup. case_decide as Hd.
    + intros [= <-]. apply pending_iff in Hd as [id Hid]. by destruct (Hcb _ _ Hid) as (_ & ? & _).
    + intros Hf. specialize (Hset _ _ Hf). destruct v; [done|]. by destruct Hset.
Qed.

(** The invariant of a link: the streams carry exactly the messages that are
    not accounted for elsewhere. *)
Definition good_link (n : link St) (ans : list (nat * list Z)) : Prop :=
  exists pend resps, core (n_calls n) ans (n_server n) (n_client n) pend resps /\
    s_pac (n_server n) ++ n_c2s n = concat (enc_request <$> pend) /\
    unpack_next (s_pac (n_server n)) = None /\
    c_pac (n_client n) ++ n_s2c n = concat (enc_response <$> resps) /\
    unpack_next (c_pac (n_client n)) = None.

Lemma core_pend_u64 calls ans sv cl pend resps :
  core calls ans sv cl pend resps -> Forall (fun m => is_u64 m.1.1) pend.
Proof.
  intros Hc. apply Forall_forall. intros [[id name] args] Hin. simpl. unfold is_u64.
  destruct (core_pend _ _ _ _ _ _ Hc _ _ _ Hin) as (i & -> & Hi). apply lookup_lt_Some in Hi.
  pose proof (core_small _ _ _ _ _ _ Hc). lia.
Qed.

Lemma core_resps_u64 calls ans sv cl pend resps :
  core calls ans sv cl pend resps -> Forall (fun m => is_u64 m.1) resps.
Proof.
  intros Hc. apply Forall_forall. intros [id raw] Hin. simpl. unfold is_u64.
  destruct (core_resps _ _ _ _ _ _ Hc _ _ Hin) as (i & -> & Hi). apply (core_ans _ _ _ _ _ _ Hc) in Hi.
  pose proof (core_small _ _ _ _ _ _ Hc). lia.
Qed.

Lemma good_new (funcs : gmap string (RPCFunc St)) : good_link (new_link funcs) [].
Proof.
  exists [], []. split_and!; simpl; try apply unpack_nil; try done.
  split; simpl; try done; try set_solver; try lia; try apply NoDup_nil_2.
  intros _ _. split_and!; [done|set_solver|intros i Hi; lia].
Qed.

Lemma good_call n ans name args :
  good_link n ans -> Z.of_nat (length (n_calls n)) + 1 < 2 ^ 64 ->
  good_link (mkLink (call name args (n_client n)).2 (n_server n)
               (n_c2s n ++ (call name args (n_client n)).1.2) (n_s2c n) (n_calls n ++ [(name, args)])) ans.
Proof.
  intros (pend & resps & Hc & Hreq & Hsn & Hresp & Hcn) Hlt.
  eexists _, resps. split_and!; [by apply core_call| |done..]. simpl.
  rewrite (core_reqId _ _ _ _ _ _ Hc), app_assoc, Hreq.
  destruct (c_connected (n_client n)); [|by rewrite !app_nil_r].
  rewrite fmap_app, concat_app. simpl. by rewrite app_nil_r.
Qed.

Lemma good_to_server n ans chunk rest sv :
  good_link n ans -> n_c2s n = chunk ++ rest -> server_onReceive chunk (n_server n) = Ok sv ->
  good_link (mkLink (n_client n) sv rest (n_s2c n) (n_calls n)) ans.
Proof.
  intros (pend & resps & Hc & Hreq & _ & Hresp & Hcn) Hcut. unfold server_onReceive.
  rewrite Hcut, app_assoc in Hreq. set (sv0 := with_buffer _ _ _).
  destruct (server_loop_spec pend (S (length (s_pac (n_server n) ++ chunk))) rest sv0
              (core_pend_u64 _ _ _ _ _ _ Hc) Hreq ltac:(simpl; lia))
    as (ms1 & ms2 & p' & -> & Hp' & Hnone & ->).
  intros [= <-]. exists ms2, resps. split_and!; try done.
  exact (core_requests _ _ _ _ _ _ _ p' Hc).
Qed.

Lemma good_to_client n ans chunk rest cl :
  good_link n ans -> n_s2c n = chunk ++ rest -> client_onReceive chunk (n_client n) = Ok cl ->
  good_link (mkLink cl (n_server n) (n_c2s n) rest (n_calls n)) ans.
Proof.
  intros (pend & resps & Hc & Hreq & Hsn & Hresp & _) Hcut. unfold client_onReceive.
  rewrite Hcut, app_assoc in Hresp.
  destruct (client_loop_spec resps (S (length (c_pac (n_client n) ++ chunk))) _ rest (n_client n)
              (core_resps_u64 _ _ _ _ _ _ Hc) Hresp ltac:(lia))
    as (ms1 & ms2 & p' & -> & Hp' & Hnone & ->).
  intros [= <-]. exists pend, ms2. split_and!; try done.
  apply core_with_pac. by apply core_accept_all.
Qed.

Definition answered (done : option (Z * list Z)) : list (nat * list Z) :=
  match done with Some (id, raw) => [(Z.to_nat id, raw)] | None => [] end.

(** What a worker did: a call of this connection, for the first time. *)
Definition executed (n : link St) (ans : list (nat * list Z)) (done : option (Z * list Z)) (st st' : St) : Prop :=
  match done with
  | None => st' = st
  | Some (id, raw) =>
      exists name args func, n_calls n !! Z.to_nat id = Some (name, args) /\
        s_funcs (n_server n) !! name = Some func /\ func args st = Ok (raw, st') /\
        (Z.to_nat id ∉ ans.*1)
  end.

Lemma good_server_runs n ans i st done sv st' :
  good_link n ans -> server_run i (n_server n) st = Ok (done, sv, st') ->
  good_link (mkLink (n_client n) sv (n_c2s n) (n_s2c n) (n_calls n)) (ans ++ answered done) /\
  executed n ans done st st' /\ s_funcs sv = s_funcs (n_server n).
Proof.
  intros (pend & resps & Hc & Hreq & Hsn & Hresp & Hcn). unfold server_run, deferredRPCCall.
  destruct (s_tasks (n_server n) !! i) as [[id func args|]|] eqn:Et; intros Hrun; inv_ok.
  - destruct (func args st) as [[ret s1]|] eqn:Ef; [|done]. simplify_eq/=.
    destruct (core_tasks _ _ _ _ _ _ Hc id func args) as (j & name & -> & Hj & Hf);
      [by eapply list_elem_of_lookup_2|].
    split_and!; [|exists name, args, func; rewrite Nat2Z.id; split_and!; try done|done].
    + exists pend, resps. split_and!; try done. by eapply core_run_call.
    + intros (x & -> & Hin)%list_elem_of_fmap. pose proof (core_exec _ _ _ _ _ _ Hc) as Hnd.
      rewrite (tasks_without _ _ _ Et) in Hnd. simpl in Hnd. apply NoDup_app in Hnd as (_ & _ & Hnd).
      apply NoDup_cons in Hnd as [Hnd _]. apply Hnd, elem_of_app. right.
      apply list_elem_of_fmap. exists x.1. split; [done|]. apply list_elem_of_fmap. eauto.
  - split_and!; [|done|done]. rewrite app_nil_r. exists pend, resps. split_and!; try done.
    exact (core_run_disconnect _ _ _ _ _ _ i Hc Et).
  - split_and!; [|done|done]. rewrite app_nil_r. exists pend, resps. by split_and!.
Qed.

Lemma good_server_responds n ans j bytes sv :
  good_link n ans -> server_respond j (n_server n) = (bytes, sv) ->
  good_link (mkLink (n_client n) sv (n_c2s n) (n_s2c n ++ bytes) (n_calls n)) ans /\
  s_funcs sv = s_funcs (n_server n).
Proof.
  intros (pend & resps & Hc & Hreq & Hsn & Hresp & Hcn). unfold server_respond.
  destruct (s_unset (n_server n) !! j) as [[id raw]|] eqn:Ej; intros [= <- <-]; (split; [|done]).
  - eexists pend, _. split_and!; [by eapply core_respond|done|done| |done]. simpl.
    unfold responseCallback. rewrite fmap_app, concat_app, app_assoc, Hresp. f_equal.
    destruct (s_connected (n_server n)); simpl; by rewrite ?app_nil_r.
  - exists pend, resps. rewrite app_nil_r. by split_and!.
Qed.

Lemma server_loop_funcs fuel : forall (sv sv' : Server St),
  server_loop fuel sv = Ok sv' -> s_funcs sv' = s_funcs sv.
Proof.
  induction fuel as [|fuel IH]; intros sv sv'; cbn [server_loop]; [done|].
  destruct (unpack_next (s_pac sv)) as [[o rest]|]; [|intros ?; by inv_ok].
  destruct (as_request o) as [[[id name] args]|]; [|done]. intros Hrun. by apply IH in Hrun.
Qed.

Lemma link_step_good n ans st done n' st' :
  good_link n ans -> link_step n st done n' st' ->
  good_link n' (ans ++ answered done) /\ executed n ans done st st' /\
  s_funcs (n_server n') = s_funcs (n_server n) /\ n_calls n `prefix_of` n_calls n'.
Proof.
  intros Hg Hstep.
  destruct Hstep as [name args Hlt|chunk rest sv Hcut _ Hrun|i done sv st' Hrun|j bytes sv Hrun
                    |chunk rest cl Hcut _ Hrun|i|]; cbn [answered executed]; rewrite ?app_nil_r.
  - split_and!; try done; [by apply good_call|by eexists].
  - split_and!; try done; [by eapply good_to_server|]. by apply server_loop_funcs in Hrun.
  - destruct (good_server_runs _ _ _ _ _ _ _ Hg Hrun) as (? & ? & ?). by split_and!.
  - destruct (good_server_responds _ _ _ _ _ Hg Hrun) as (? & ?). by split_and!.
  - split_and!; try done. by eapply good_to_client.
  - split_and!; try done. destruct Hg as (pend & resps & Hc & Hreq & Hsn & Hresp & Hcn).
    exists pend, resps.
    assert (c_pac (client_run i (n_client n)) = c_pac (n_client n)) as Hpac.
    { unfold client_run. by destruct (c_tasks _ !! i) as [[]|]. }
    simpl. rewrite Hpac. split_and!; try done. by apply core_client_run.
  - split_and!; try done. destruct Hg as (pend & resps & Hc & Hreq & Hsn & Hresp & Hcn).
    exists pend, resps. split_and!; try done. by apply core_client_disconnect.
Qed.

(** A complete message at the head of a stream is seen. *)
Lemma no_request_left ms :
  Forall (fun m => is_u64 m.1.1) ms -> unpack_next (concat (enc_request <$> ms)) = None -> ms = [].
Proof.
  destruct ms as [|[[id name] args] ms]; [done|]. intros [Hid _]%Forall_cons Hn.
  destruct (request_delimited id name args Hid) as [Hwhole _].
  destruct (Hwhole (concat (enc_request <$> ms))) as (o & Ho & _).
  change (unpack_next (pack_request id name args ++ concat (enc_request <$> ms)) = None) in Hn.
  congruence.
Qed.

Lemma no_response_left ms :
  Forall (fun m => is_u64 m.1) ms -> unpack_next (concat (enc_response <$> ms)) = None -> ms = [].
Proof.
  destruct ms as [|[id raw] ms]; [done|]. intros [Hid _]%Forall_cons Hn.
  destruct (response_delimited id raw Hid) as [Hwhole _].
  destruct (Hwhole (concat (enc_response <$> ms))) as (o & Ho & _).
  change (unpack_next (pack_response id raw ++ concat (enc_response <$> ms)) = None) in Hn.
  congruence.
Qed.

Lemma client_loop_futures fuel : forall cl cl',
  client_loop fuel cl = Ok cl' -> c_futures cl' = c_futures cl.
Proof.
  induction fuel as [|fuel IH]; intros cl cl'; cbn [client_loop]; [done|].
  destruct (unpack_next (c_pac cl)) as [[o rest]|]; [|intros ?; by inv_ok].
  destruct (as_response o) as [[id raw]|]; [|done]. intros Hrun. apply IH in Hrun. rewrite Hrun.
  unfold accept_response. by destruct (_respCallbacks _ !! id).
Qed.

(** A quiet link has answered every call. *)
Lemma quiet_link n ans i :
  good_link n ans -> known (n_calls n) (s_funcs (n_server n)) -> c_connected (n_client n) = true ->
  quiescent n -> (i < length (n_calls n))%nat -> is_Some (c_futures (n_client n) !! i).
Proof.
  intros (pend & resps & Hc & Hreq & Hsn & Hresp & Hcn) Hknown Hcon (Hc2s & Hs2c & Hst & Hsu & Hct) Hi.
  rewrite Hc2s, app_nil_r in Hreq. rewrite Hs2c, app_nil_r in Hresp.
  rewrite Hreq in Hsn. rewrite Hresp in Hcn.
  apply no_request_left in Hsn as ->; [|by eapply core_pend_u64].
  apply no_response_left in Hcn as ->; [|by eapply core_resps_u64].
  destruct (core_covered _ _ _ _ _ _ Hc Hknown Hcon) as (_ & _ & Hall). rewrite Hst, Hsu, Hct in Hall.
  destruct (Hall i Hi) as [?|[?|[_ [?|[(? & ? & ?)|[?|?]]]]]]; [done|set_solver..].
Qed.

(** A future that has been set stays as it is. *)
Lemma link_step_set n ans st done n' st' i v :
  good_link n ans -> link_step n st done n' st' -> c_futures (n_client n) !! i = Some v ->
  c_futures (n_client n') !! i = Some v.
Proof.
  intros (pend & resps & Hc & _) Hstep Hset.
  destruct Hstep as [name args Hlt|chunk rest sv Hcut _ Hrun|k done sv st' Hrun|j bytes sv Hrun
                    |chunk rest cl Hcut _ Hrun|k|]; try done; simpl.
  - unfold client_onReceive in Hrun. apply client_loop_futures in Hrun. by rewrite Hrun.
  - unfold client_run. destruct (c_tasks (n_client n) !! k) as [[f raw]|] eqn:Ek; [|done].
    simpl. rewrite lookup_insert_ne; [done|]. intros ->.
    apply list_elem_of_lookup_2 in Ek. destruct (core_scheduled _ _ _ _ _ _ Hc _ _ Ek). congruence.
  - rewrite abort_all_lookup, decide_False; [done|]. intros [id Hid]%pending_iff.
    destruct (core_callbacks _ _ _ _ _ _ Hc _ _ Hid) as (_ & _ & _ & Hnone). congruence.
Qed.

End Invariant.
End LinkFacts.

Module NetFacts.
Import Rpc RpcFacts Net LinkFacts.

(** The part of a log that belongs to connection [k]. *)
Definition part (k : nat) (log : list (nat * nat * list Z)) : list (nat * list Z) :=
  omap (fun e => if decide (e.1.1 = k) then Some (e.1.2, e.2) else None) log.

Lemma elem_of_part k i raw log : (i, raw) ∈ part k log <-> (k, i, raw) ∈ log.
Proof.
  unfold part. rewrite list_elem_of_omap. split.
  - intros ([[k' i'] raw'] & Hin & Heq). simpl in Heq. case_decide; naive_solver.
  - intros Hin. exists (k, i, raw). split; [done|]. simpl. by rewrite decide_True.
Qed.

Lemma elem_of_part_1 k i log : i ∈ (part k log).*1 <-> (k, i) ∈ log.*1.
Proof.
  rewrite !list_elem_of_fmap. split.
  - intros ([i' raw] & -> & Hin). apply elem_of_part in Hin. by exists (k, i', raw).
  - intros ([[k' i'] raw] & Heq & Hin). simpl in Heq. injection Heq as -> ->.
    exists (i', raw). split; [done|]. by apply elem_of_part.
Qed.

Lemma part_app k log log' : part k (log ++ log') = part k log ++ part k log'.
Proof. apply omap_app. Qed.

Definition tagged (k : nat) (ans : list (nat * list Z)) : list (nat * nat * list Z) :=
  (fun a => (k, a.1, a.2)) <$> ans.

Lemma part_tagged k k' ans : part k (tagged k' ans) = if decide (k' = k) then ans else [].
Proof.
  induction ans as [|[i raw] ans IH]; [by case_decide|].
  unfold part, tagged. cbn. change (omap _ _) with (part k (tagged k' ans)).
  destruct (decide (k' = k)); by rewrite IH.
Qed.

Section Serial.
Context {Obj : Type} `{Msgpack Obj} `{!MsgpackLaws Obj} {St : Type}.
Implicit Types (funcs : gmap string (RPCFunc St)) (n : net St) (log : list (nat * nat * list Z)).

Lemma serial_app funcs calls o1 : forall o2 (st : St),
  serial funcs calls (o1 ++ o2) st =
  ('(l1, st) ← serial funcs calls o1 st; '(l2, st) ← serial funcs calls o2 st; Ok (l1 ++ l2, st)).
Proof.
  induction o1 as [|c o1 IH]; intros o2 st; simpl.
  { by destruct (serial funcs calls o2 st) as [[]|]. }
  destruct (calls c) as [[name args]|]; [|done]. simpl. destruct (funcs !! name) as [func|]; [|done]. simpl.
  destruct (func args st) as [[raw st1]|]; [|done]. simpl. rewrite IH.
  destruct (serial funcs calls o1 st1) as [[l1 st2]|]; [|done]. simpl.
  by destruct (serial funcs calls o2 st2) as [[]|].
Qed.

Lemma serial_mono funcs calls calls' order : forall (st : St) r,
  (forall c x, calls c = Some x -> calls' c = Some x) ->
  serial funcs calls order st = Ok r -> serial funcs calls' order st = Ok r.
Proof.
  induction order as [|c order IH]; intros st r Hm; simpl; [done|].
  destruct (calls c) as [[name args]|] eqn:Ec; [|done]. rewrite (Hm _ _ Ec). simpl.
  destruct (funcs !! name) as [func|]; [|done]. simpl.
  destruct (func args st) as [[raw st1]|]; [|done]. simpl.
  destruct (serial funcs calls order st1) as [[l st2]|] eqn:Es; [|done]. by rewrite (IH _ _ Hm Es).
Qed.

Lemma serial_keys funcs calls order : forall (st st' : St) log,
  serial funcs calls order st = Ok (log, st') -> log.*1 = order.
Proof.
  induction order as [|c order IH]; intros st st' log; simpl; [by intros [= <- _]|].
  destruct (calls c) as [[name args]|]; [|done]. simpl. destruct (funcs !! name) as [func|]; [|done]. simpl.
  destruct (func args st) as [[raw st1]|]; [|done]. simpl.
  destruct (serial funcs calls order st1) as [[l st2]|] eqn:E; [|done]. intros [= <- _]. simpl. f_equal.
  by eapply IH.
Qed.

(** The invariant of the net. *)
Record good (st0 : St) (n : net St) (log : list (nat * nat * list Z)) : Prop := {
  good_links k l : n_links n !! k = Some l ->
    good_link l (part k log) /\ s_funcs (n_server l) = n_funcs n;
  good_once : NoDup log.*1;
  good_serial : serial (n_funcs n) (call_of n) log.*1 st0 = Ok (log, n_state n);
  good_dom c : c ∈ log.*1 -> (c.1 < length (n_links n))%nat
}.

Lemma good_init funcs (st0 : St) : good st0 (init funcs st0) [].
Proof. split; try done; [apply NoDup_nil_2|set_solver]. Qed.

Lemma good_connects st0 n log :
  good st0 n log -> good st0 (mkNet (n_funcs n) (n_state n) (n_links n ++ [new_link (n_funcs n)])) log.
Proof.
  intros [Hl Ho Hs Hd]. split; simpl; try done.
  - intros k l [Hk|[Hk Hl']]%lookup_app_Some; [by apply Hl|].
    apply list_lookup_singleton_Some in Hl' as [Hk' <-].
    assert (part k log = []) as ->; [|split; [apply good_new|done]].
    destruct (part k log) as [|[i raw] p] eqn:Ep; [done|].
    assert ((k, i) ∈ log.*1) as Hin%Hd by (apply elem_of_part_1; rewrite Ep; left). simpl in Hin. lia.
  - eapply serial_mono; [|exact Hs]. intros [k i] x. unfold call_of. simpl.
    destruct (n_links n !! k) as [l|] eqn:Ek; [|done]. by rewrite (lookup_app_l_Some _ _ _ _ Ek).
  - intros c Hc%Hd. rewrite length_app. simpl. lia.
Qed.

Lemma good_link_step st0 n log k l done l' st' :
  good st0 n log -> n_links n !! k = Some l -> link_step l (n_state n) done l' st' ->
  good st0 (mkNet (n_funcs n) st' (<[k := l']> (n_links n))) (log ++ tagged k (answered done)).
Proof.
  intros [Hl Ho Hs Hd] Hk Hstep. destruct (Hl k l Hk) as [Hg Hf].
  destruct (link_step_good _ _ _ _ _ _ Hg Hstep) as (Hg' & Hex & Hf' & Hcalls).
  assert (k < length (n_links n))%nat as Hlt by (by eapply lookup_lt_Some).
  assert (forall c x, call_of n c = Some x ->
            call_of (mkNet (n_funcs n) st' (<[k := l']> (n_links n))) c = Some x) as Hm.
  { intros [k1 i] x. unfold call_of. simpl. destruct (decide (k1 = k)) as [->|Hne].
    - rewrite Hk, list_lookup_insert_eq by done. simpl. intros Hi. by eapply prefix_lookup_Some.
    - by rewrite list_lookup_insert_ne by done. }
  split; simpl.
  - intros k1 l1. rewrite part_app, part_tagged. destruct (decide (k1 = k)) as [->|Hne].
    + rewrite list_lookup_insert_eq, decide_True by done. intros [= <-]. by rewrite Hf'.
    + rewrite list_lookup_insert_ne, decide_False, app_nil_r by done. apply Hl.
  - rewrite fmap_app. destruct done as [[id raw]|]; simpl; [|by rewrite app_nil_r].
    destruct Hex as (name & args & func & _ & _ & _ & Hnew). rewrite elem_of_part_1 in Hnew.
    apply NoDup_app. split_and!; [done|set_solver|apply NoDup_singleton].
  - rewrite fmap_app, serial_app, (serial_mono _ _ _ _ _ _ Hm Hs). simpl.
    destruct done as [[id raw]|]; simpl in *; [|by rewrite Hex, !app_nil_r].
    destruct Hex as (name & args & func & Hi & Hfn & Hrun & _).
    rewrite (Hm (k, Z.to_nat id) (name, args)) by (unfold call_of; simpl; by rewrite Hk).
    simpl. rewrite <- Hf, Hfn. simpl. by rewrite Hrun.
  - intros c. rewrite length_insert, fmap_app, elem_of_app. intros [?|Hc]; [by apply Hd|].
    destruct done as [[id raw]|]; simpl in Hc; [|by apply elem_of_nil in Hc].
    apply list_elem_of_singleton in Hc as ->. done.
Qed.

Lemma step_funcs n n' : step n n' -> n_funcs n' = n_funcs n.
Proof. by intros []. Qed.

Lemma good_step st0 n n' log :
  good st0 n log -> step n n' -> exists later, good st0 n' (log ++ later).
Proof.
  intros Hg [|k l done l' st' Hk Hstep].
  - exists []. rewrite app_nil_r. by apply good_connects.
  - exists (tagged k (answered done)). by eapply good_link_step.
Qed.

Lemma good_run st0 n n' : rtc step n n' -> forall log,
  good st0 n log -> n_funcs n' = n_funcs n /\ exists later, good st0 n' (log ++ later).
Proof.
  induction 1 as [n|n n1 n' Hstep _ IH]; intros log Hg.
  - split; [done|]. exists []. by rewrite app_nil_r.
  - destruct (good_step _ _ _ _ Hg Hstep) as (l1 & Hg1). destruct (IH _ Hg1) as (Hf & l2 & Hg2).
    split; [by rewrite Hf, (step_funcs _ _ Hstep)|]. exists (l1 ++ l2). by rewrite app_assoc.
Qed.

Lemma good_reach funcs st0 n :
  rtc step (init funcs st0) n -> n_funcs n = funcs /\ exists log, good st0 n log.
Proof. intros Hr. exact (good_run _ _ _ Hr _ (good_init funcs st0)). Qed.

Lemma good_linearised st0 n log : good st0 n log -> linearised st0 n log.
Proof.
  intros [Hl Ho Hs Hd]. split; [done..|]. intros k l i raw Hk Hset.
  destruct (Hl k l Hk) as [(pend & resps & Hc & _) _]. apply elem_of_part.
  exact (core_set _ _ _ _ _ _ Hc _ _ Hset).
Qed.

(** Every entry of a log is the call it names, executed in the state the calls
    before it led to. *)
Lemma linearised_at st0 n before c raw after :
  linearised st0 n (before ++ (c, raw) :: after) ->
  exists name args func st st', call_of n c = Some (name, args) /\ n_funcs n !! name = Some func /\
    serial (n_funcs n) (call_of n) before.*1 st0 = Ok (before, st) /\ func args st = Ok (raw, st').
Proof.
  intros [_ Hs _]. rewrite fmap_app, fmap_cons, serial_app in Hs.
  set (o := after.*1) in Hs. simpl in Hs.
  destruct (serial (n_funcs n) (call_of n) before.*1 st0) as [[l1 st]|] eqn:E1; [|done]. simpl in Hs.
  destruct (call_of n c) as [[name args]|] eqn:Ec; [|done]. simpl in Hs.
  destruct (n_funcs n !! name) as [func|] eqn:Ef; [|done]. simpl in Hs.
  destruct (func args st) as [[raw' st1]|] eqn:Er; [|done]. simpl in Hs.
  destruct (serial (n_funcs n) (call_of n) o st1) as [[l2 st2]|] eqn:E2; [|done]. simpl in Hs.
  injection Hs as Heq _.
  apply app_inj_1 in Heq as [-> Heq].
  - injection Heq as -> _. by exists name, args, func, st, st1.
  - apply serial_keys in E1. apply (f_equal length) in E1. by rewrite !length_fmap in E1.
Qed.

(** *** An undisturbed call *)

(** A connection on which [length calls] calls have been made and answered. *)
Definition idle_link (funcs : gmap string (RPCFunc St)) (fs : gmap nat (option (list Z)))
    (calls : list (string * list Z)) : link St :=
  mkLink (mkClient (Z.of_nat (length calls)) ∅ [] [] fs (length calls) true) (new_server funcs) [] [] calls.

Lemma server_receives_one funcs id name args func :
  is_u64 id -> funcs !! name = Some func ->
  server_onReceive (pack_request id name args) (new_server funcs) =
  Ok (mkServer [] funcs [TCall id func args] [] true).
Proof using MsgpackLaws0.
  intros Hid Hf. unfold server_onReceive.
  destruct (request_delimited id name args Hid) as [Hwhole _]. destruct (Hwhole []) as (o & Ho & Hc).
  rewrite app_nil_r in Ho. pose proof (unpack_consumes _ _ _ Ho) as Hlen. simpl in Hlen.
  cbn [new_server s_pac app s_tasks with_buffer]. destruct (length (pack_request id name args)) as [|m]; [lia|].
  cbn [server_loop with_buffer s_pac s_funcs s_tasks new_server]. rewrite Ho, Hc.
  cbn [with_buffer s_pac s_funcs s_tasks app]. rewrite unpack_nil.
  unfold request_task. by rewrite Hf.
Qed.

Lemma client_receives_one id raw (cl : Client) :
  is_u64 id -> c_pac cl = [] ->
  client_onReceive (pack_response id raw) cl = Ok (accept_response id raw (with_pac [] cl)).
Proof using MsgpackLaws0.
  intros Hid Hp. unfold client_onReceive. rewrite Hp. cbn [app].
  destruct (response_delimited id raw Hid) as [Hwhole _]. destruct (Hwhole []) as (o & Ho & Hc).
  rewrite app_nil_r in Ho. pose proof (unpack_consumes _ _ _ Ho) as Hlen. simpl in Hlen.
  destruct (length (pack_response id raw)) as [|m]; [lia|].
  cbn [client_loop with_pac c_pac]. rewrite Ho, Hc.
  change (with_pac [] (with_pac (pack_response id raw) cl)) with (with_pac [] cl).
  rewrite accept_with_pac. cbn [with_pac c_pac]. by rewrite unpack_nil.
Qed.

(** One connection on its own. *)
Definition link_next (x y : link St * St) : Prop := exists done, link_step x.1 x.2 done y.1 y.2.

Lemma link_run_net funcs k (x y : link St * St) : rtc link_next x y -> forall links,
  links !! k = Some x.1 ->
  rtc step (mkNet funcs x.2 links) (mkNet funcs y.2 (<[k := y.1]> links)).
Proof.
  induction 1 as [x|x x1 y [done Hs] _ IH]; intros links Hk; [by rewrite list_insert_id|].
  eapply rtc_l; [exact (step_link (mkNet funcs x.2 links) k x.1 done x1.1 x1.2 Hk Hs)|].
  simpl. rewrite <- (list_insert_insert_eq links k y.1 x1.1). apply IH.
  apply list_lookup_insert_eq. by eapply lookup_lt_Some.
Qed.

Lemma link_next_l (l : link St) (st : St) done l' st' z :
  link_step l st done l' st' -> rtc link_next (l', st') z -> rtc link_next (l, st) z.
Proof. intros Hs. apply rtc_l. by exists done. Qed.

Lemma link_call_completes funcs (st st' : St) fs calls name args func raw :
  Z.of_nat (length calls) + 1 < 2 ^ 64 -> funcs !! name = Some func -> func args st = Ok (raw, st') ->
  rtc link_next (idle_link funcs fs calls, st)
    (idle_link funcs (<[length calls := Some raw]> fs) (calls ++ [(name, args)]), st').
Proof using MsgpackLaws0.
  intros Hlt Hf Hrun. set (id := Z.of_nat (length calls)).
  assert (is_u64 id) as Hid by (unfold is_u64, id; lia).
  eapply link_next_l; [exact (step_call (idle_link funcs fs calls) st name args Hlt)|].
  eapply link_next_l; [apply (step_to_server _ _ (pack_request id name args) []);
    [cbn; by rewrite app_nil_r|done|by apply server_receives_one]|].
  eapply link_next_l; [apply (step_server_runs _ _ 0); unfold server_run, deferredRPCCall; simpl;
    by rewrite Hrun|].
  eapply link_next_l; [by apply (step_server_responds _ _ 0)|].
  eapply link_next_l; [apply (step_to_client _ _ (pack_response id raw) []);
    [cbn; by rewrite app_nil_r|done|by apply client_receives_one]|].
  unfold accept_response. cbn. fold id. rewrite insert_empty, lookup_singleton_eq, delete_singleton_eq. cbn.
  assert (to_u64 (id + 1) = Z.of_nat (length (calls ++ [(name, args)]))) as ->.
  { rewrite length_app, to_u64_id; [simpl; lia|]. unfold is_u64. lia. }
  assert (S (length calls) = length (calls ++ [(name, args)])) as -> by (rewrite length_app; simpl; lia).
  eapply link_next_l; [exact (step_client_runs _ _ 0)|]. apply rtc_refl.
Qed.

(** On an idle connection a call of a registered function that returns runs to
    completion when nothing else interferes. *)
Lemma call_completes funcs (st st' : St) links k fs calls name args func raw :
  links !! k = Some (idle_link funcs fs calls) -> Z.of_nat (length calls) + 1 < 2 ^ 64 ->
  funcs !! name = Some func -> func args st = Ok (raw, st') ->
  rtc step (mkNet funcs st links)
    (mkNet funcs st'
      (<[k := idle_link funcs (<[length calls := Some raw]> fs) (calls ++ [(name, args)])]> links)).
Proof using MsgpackLaws0.
  intros Hk Hlt Hf Hrun.
  exact (link_run_net funcs k _ _ (link_call_completes funcs st st' fs calls _ _ _ _ Hlt Hf Hrun) links Hk).
Qed.

End Serial.
End NetFacts.

(** ** Properties *)

Module RpcProps.
Import Rpc RpcFacts Net LinkFacts NetFacts.

Section Props.
Context {Obj : Type} `{Msgpack Obj} `{!MsgpackLaws Obj} {St : Type}.
Context (funcs : gmap string (RPCFunc St)) (st0 : St).

(** C10. Linearizability: however the streams are cut and the workers of the server
    and of any number of clients are scheduled, there is one order in which
    the calls that have run could have been executed one after the other,
    each at most once, that explains the state of the server and every answer
    any client has received.  Later executions only come behind this order,
    so a call that was made after another one was answered follows it. *)
Theorem rpc_linearizable (n n' : net St)
  (Hreach : rtc step (init funcs st0) n) (Hlater : rtc step n n') :
  exists log later, linearised st0 n log /\ linearised st0 n' (log ++ later).
Proof using MsgpackLaws0.
  destruct (good_reach funcs st0 n Hreach) as [_ [log Hg]].
  destruct (good_run _ _ _ Hlater _ Hg) as (_ & later & Hg').
  exists log, later. split; by apply good_linearised.
Qed.

(** No reply is ever delivered to the wrong call: a future that has been set
    holds what the registered function returned for the arguments of the call
    that created it, or the empty value when its own client was
    disconnected. *)
Theorem replies_match (n : net St) (k : nat) (l : link St) (i : nat) (v : option (list Z))
  (Hreach : rtc step (init funcs st0) n) (Hl : n_links n !! k = Some l)
  (Hset : c_futures (n_client l) !! i = Some v) :
  match v with
  | Some raw => exists name args func st st', n_calls l !! i = Some (name, args) /\
      funcs !! name = Some func /\ func args st = Ok (raw, st')
  | None => c_connected (n_client l) = false
  end.
Proof using MsgpackLaws0.
  destruct (good_reach funcs st0 n Hreach) as [<- [log Hg]]. destruct v as [raw|].
  - apply good_linearised in Hg as Hlin. pose proof (lin_answers _ _ _ Hlin k l i raw Hl Hset) as Hin.
    apply list_elem_of_split in Hin as (before & after & ->).
    destruct (linearised_at _ _ _ _ _ _ Hlin) as (name & args & func & st & st' & Hc & Hf & _ & Hr).
    unfold call_of in Hc. simpl in Hc. rewrite Hl in Hc. eauto 9.
  - destruct (good_links _ _ _ Hg k l Hl) as [(pend & resps & Hc & _) _].
    by destruct (core_set _ _ _ _ _ _ Hc _ _ Hset).
Qed.

(** A future is set at most once: no step of the network changes one that
    has been set. *)
Theorem futures_stable (n n' : net St) (k : nat) (l : link St) (i : nat) (v : option (list Z))
  (Hreach : rtc step (init funcs st0) n) (Hl : n_links n !! k = Some l)
  (Hset : c_futures (n_client l) !! i = Some v) (Hstep : step n n') :
  exists l', n_links n' !! k = Some l' /\ c_futures (n_client l') !! i = Some v.
Proof using MsgpackLaws0.
  destruct (good_reach funcs st0 n Hreach) as [_ [log Hg]].
  destruct (good_links _ _ _ Hg k l Hl) as [Hgl _].
  destruct Hstep as [|k1 l1 done l1' st' Hk1 Hstep].
  - exists l. simpl. split; [by apply lookup_app_l_Some|done].
  - simpl. destruct (decide (k1 = k)) as [->|Hne].
    + simplify_eq. exists l1'. rewrite list_lookup_insert_eq by (by eapply lookup_lt_Some).
      split; [done|]. by eapply link_step_set.
    + exists l. by rewrite list_lookup_insert_ne.
Qed.

(** C12. No call is lost: when every name a connected client called is registered,
    and nothing is in flight and no work is left on its connection, the
    future of every one of its calls is set. *)
Theorem quiescent_complete (n : net St) (k : nat) (l : link St)
  (Hreach : rtc step (init funcs st0) n) (Hl : n_links n !! k = Some l)
  (Hknown : known (n_calls l) funcs) (Hopen : c_connected (n_client l) = true) (Hq : quiescent l) :
  forall i, (i < length (n_calls l))%nat ->
    exists raw, c_futures (n_client l) !! i = Some (Some raw).
Proof using MsgpackLaws0.
  destruct (good_reach funcs st0 n Hreach) as [<- [log Hg]].
  destruct (good_links _ _ _ Hg k l Hl) as [Hgl Hf]. rewrite <- Hf in Hknown. intros i Hi.
  destruct (quiet_link l _ i Hgl Hknown Hopen Hq Hi) as [[raw|] Hraw]; [eauto|].
  destruct Hgl as (pend & resps & Hc & _). destruct (core_set _ _ _ _ _ _ Hc _ _ Hraw). congruence.
Qed.

(** Receiving never fails: any piece of the bytes in flight is accepted
    by the handler it is delivered to, which ends without an exception. *)
Theorem receive_total (n : net St) (k : nat) (l : link St) (chunk rest : list Z)
  (Hreach : rtc step (init funcs st0) n) (Hl : n_links n !! k = Some l) :
  (n_c2s l = chunk ++ rest -> exists sv, server_onReceive chunk (n_server l) = Ok sv) /\
  (n_s2c l = chunk ++ rest -> exists cl, client_onReceive chunk (n_client l) = Ok cl).
Proof using MsgpackLaws0.
  destruct (good_reach funcs st0 n Hreach) as [_ [log Hg]].
  destruct (good_links _ _ _ Hg k l Hl) as [(pend & resps & Hc & Hreq & Hsn & Hresp & Hcn) _].
  split; intros Hcut.
  - rewrite Hcut, app_assoc in Hreq. unfold server_onReceive. set (sv0 := with_buffer _ _ _).
    destruct (server_loop_spec pend (S (length (s_pac (n_server l) ++ chunk))) rest sv0
                (core_pend_u64 _ _ _ _ _ _ Hc) Hreq ltac:(simpl; lia)) as (? & ? & ? & _ & _ & _ & ->).
    eauto.
  - rewrite Hcut, app_assoc in Hresp. unfold client_onReceive.
    destruct (client_loop_spec resps (S (length (c_pac (n_client l) ++ chunk))) _ rest (n_client l)
                (core_resps_u64 _ _ _ _ _ _ Hc) Hresp ltac:(lia)) as (? & ? & ? & _ & _ & _ & ->).
    eauto.
Qed.

(** The server's receive handler on a sequence of pieces. *)
Fixpoint receive_all (chunks : list (list Z)) (sv : Server St) : outcome (Server St) :=
  match chunks with
  | [] => Ok sv
  | c :: chunks => sv ← server_onReceive c sv; receive_all chunks sv
  end.

Lemma receive_all_spec chunks : forall ms sv,
  Forall (fun m => is_u64 m.1.1) ms -> s_pac sv ++ concat chunks = concat (enc_request <$> ms) ->
  unpack_next (s_pac sv) = None ->
  receive_all chunks sv =
  Ok (with_tasks [] ((fun m => request_task (s_funcs sv) m.1.1 m.1.2 m.2) <$> ms) sv).
Proof using MsgpackLaws0.
  induction chunks as [|c chunks IH]; intros ms sv Hu Heq Hn; cbn [receive_all concat] in *.
  - rewrite app_nil_r in Heq. rewrite Heq in Hn. apply no_request_left in Hn as ->; [|done].
    simpl in *. unfold with_tasks, with_buffer. rewrite app_nil_r, <- Heq. by destruct sv.
  - rewrite app_assoc in Heq. unfold server_onReceive. set (sv0 := with_buffer _ _ _).
    destruct (server_loop_spec ms (S (length (s_pac sv ++ c))) (concat chunks) sv0 Hu Heq
                ltac:(simpl; lia)) as (ms1 & ms2 & p' & -> & Hp' & Hnone & ->).
    cbn [mbind outcome_bind]. apply Forall_app in Hu as [_ Hu2]. rewrite (IH ms2); [|done|done|done].
    unfold with_tasks, with_buffer. simpl. by rewrite fmap_app, app_assoc.
Qed.

(** Reassembly: however the bytes of a sequence of requests are cut into
    pieces, the server enqueues exactly these requests, in order, and keeps
    nothing back. *)
Theorem requests_reassembled (ms : list (Z * string * list Z)) (chunks : list (list Z))
  (Hids : Forall (fun m => is_u64 m.1.1) ms)
  (Hcut : concat chunks = concat (enc_request <$> ms)) :
  receive_all chunks (new_server funcs) =
  Ok (mkServer [] funcs ((fun m => request_task funcs m.1.1 m.1.2 m.2) <$> ms) [] true).
Proof using MsgpackLaws0. rewrite (receive_all_spec chunks ms); [done|done|done|apply unpack_nil]. Qed.

(** C13. Typed calls: the reply to [call<B>(name, a)] of a function registered
    under that name converts back to what the function returned for [a], in
    the state that the calls before it in the serial order led to. *)
Theorem typed_reply {A B} `{Packable A, Packable B, Inhabited B}
    (name : string) (f : A -> St -> outcome (B * St)) (a : A) (n : net St) (k : nat) (l : link St)
    (i : nat) (raw : list Z)
  (Hreach : rtc step (init (registerFunction name f funcs) st0) n) (Hl : n_links n !! k = Some l)
  (Hcall : n_calls l !! i = Some (name, pack a))
  (Hset : c_futures (n_client l) !! i = Some (Some raw)) :
  exists before after st st' b, linearised st0 n (before ++ (k, i, raw) :: after) /\
    serial (n_funcs n) (call_of n) before.*1 st0 = Ok (before, st) /\
    f a st = Ok (b, st') /\ deserializeFuture (Some raw) = Ok b.
Proof using MsgpackLaws0.
  destruct (good_reach _ st0 n Hreach) as [Hfs [log Hg]]. apply good_linearised in Hg as Hlin.
  pose proof (lin_answers _ _ _ Hlin k l i raw Hl Hset) as Hin.
  apply list_elem_of_split in Hin as (before & after & ->).
  destruct (linearised_at _ _ _ _ _ _ Hlin) as (name' & args & func & st & st' & Hc & Hf & Hs & Hr).
  unfold call_of in Hc. simpl in Hc. rewrite Hl in Hc. simpl in Hc. rewrite Hcall in Hc.
  injection Hc as <- <-. rewrite Hfs in Hf. unfold registerFunction in Hf.
  rewrite lookup_insert_eq in Hf. injection Hf as <-. unfold deserializeArgs in Hr.
  rewrite unpack_pack in Hr. destruct (f a st) as [[b s1]|] eqn:Efa; [|done]. simplify_eq/=.
  exists before, after, st, st', b. split_and!; try done.
  unfold serializeFuture. by rewrite unpack_pack.
Qed.

(** Disconnecting resolves every pending call with the empty value and
    leaves none pending; calls that were answered keep their answers. *)
Theorem disconnect_aborts (this : Client) :
  let this' := client_disconnect this in
  _respCallbacks this' = ∅ /\
  (forall id f, _respCallbacks this !! id = Some f -> c_futures this' !! f = Some None) /\
  (forall f, (forall id, _respCallbacks this !! id <> Some f) ->
     c_futures this' !! f = c_futures this !! f).
Proof.
  cbn zeta. split; [done|]. cbn [client_disconnect c_futures]. split.
  - intros id f Hf. rewrite abort_all_lookup, decide_True; [done|]. apply pending_iff. eauto.
  - intros f Hf. rewrite abort_all_lookup, decide_False; [done|]. intros [id Hid]%pending_iff.
    by apply (Hf id).
Qed.

End Props.

(** ** Witnesses *)

Import MiniPack.

(** A server that keeps a running total, and one client that makes two calls.
    The requests arrive in two pieces, the second call runs first, and the
    responses leave in the order of the calls. *)
Definition add_func (p : Z * Z) (total : Z) : outcome (Z * Z) :=
  let total := total + p.1 + p.2 in Ok (total, total).
Definition adder : gmap string (RPCFunc Z) := registerFunction "add" add_func ∅.
Definition two_calls : list (string * list Z) := [("add"%string, pack (2, 3)); ("add"%string, pack (1, 1))].
Definition add_requests : list Z := mini_request 0 "add" [2; 3] ++ mini_request 1 "add" [1; 1].

Definition client_at (cbs : gmap Z nat) (ts : list (nat * list Z))
    (fs : gmap nat (option (list Z))) : Client := mkClient 2 cbs [] ts fs 2 true.

Definition once_called : link Z :=
  mkLink (mkClient 1 {[0 := 0%nat]} [] [] ∅ 1 true) (new_server adder) (mini_request 0 "add" [2; 3]) []
         [("add"%string, pack (2, 3))].
Definition called : net Z :=
  mkNet adder 0 [mkLink (client_at {[0 := 0%nat; 1 := 1%nat]} [] ∅) (new_server adder) add_requests [] two_calls].
Definition received : net Z :=
  mkNet adder 7 [mkLink (client_at ∅ [(0%nat, [7]); (1%nat, [2])] ∅) (new_server adder) [] [] two_calls].
Definition finished_link : link Z :=
  mkLink (client_at ∅ [] {[0%nat := Some [7]; 1%nat := Some [2]]}) (new_server adder) [] [] two_calls.
Definition finished : net Z := mkNet adder 7 [finished_link].

(** The run, one state after the other. *)
Definition add_task (id x y : Z) : task Z := TCall id (deserializeArgs add_func) [x; y].
Definition at_server (pac : list Z) (ts : list (task Z)) (unset : list (Z * list Z)) (c2s s2c : list Z) : link Z :=
  mkLink (client_at {[0 := 0%nat; 1 := 1%nat]} [] ∅) (mkServer pac adder ts unset true) c2s s2c two_calls.
Definition replies : list Z := mini_response 0 [7] ++ mini_response 1 [2].

Lemma run_link (l : link Z) (st : Z) done (l' : link Z) (st' : Z) :
  link_step l st done l' st' -> rtc step (mkNet adder st [l]) (mkNet adder st' [l']).
Proof. intros Hs. apply rtc_once. by apply (step_link (mkNet adder st [l]) 0 l done l' st'). Qed.

Lemma run_called : rtc step (init adder 0) called.
Proof.
  eapply rtc_l; [exact (step_connects _)|].
  etransitivity; [exact (run_link _ 0 _ once_called 0 (step_call (new_link adder) 0 "add" [2; 3] eq_refl))|].
  exact (run_link _ 0 _ _ 0 (step_call once_called 0 "add" [1; 1] eq_refl)).
Qed.

Lemma run_received : rtc step called received.
Proof.
  pose (first := take 3 add_requests). pose (second := drop 3 add_requests).
  transitivity (mkNet adder 0 [at_server first [] [] second []]).
  { apply (run_link _ 0 None). exact (step_to_server (at_server [] [] [] add_requests []) 0 first second (mkServer first adder [] [] true)
      eq_refl eq_refl eq_refl). }
  transitivity (mkNet adder 0 [at_server [] [add_task 0 2 3; add_task 1 1 1] [] [] []]).
  { apply (run_link _ 0 None). exact (step_to_server (at_server first [] [] second []) 0 second []
      (mkServer [] adder [add_task 0 2 3; add_task 1 1 1] [] true) eq_refl eq_refl eq_refl). }
  transitivity (mkNet adder 2 [at_server [] [add_task 0 2 3] [(1, [2])] [] []]).
  { apply (run_link _ 0 (Some (1, [2]))). exact (step_server_runs (at_server [] [add_task 0 2 3; add_task 1 1 1] [] [] []) 0 1 _
      (mkServer [] adder [add_task 0 2 3] [(1, [2])] true) 2 eq_refl). }
  transitivity (mkNet adder 7 [at_server [] [] [(1, [2]); (0, [7])] [] []]).
  { apply (run_link _ 2 (Some (0, [7]))). exact (step_server_runs (at_server [] [add_task 0 2 3] [(1, [2])] [] []) 2 0 _
      (mkServer [] adder [] [(1, [2]); (0, [7])] true) 7 eq_refl). }
  transitivity (mkNet adder 7 [at_server [] [] [(1, [2])] [] (mini_response 0 [7])]).
  { apply (run_link _ 7 None). exact (step_server_responds (at_server [] [] [(1, [2]); (0, [7])] [] []) 7 1 (mini_response 0 [7])
      (mkServer [] adder [] [(1, [2])] true) eq_refl). }
  transitivity (mkNet adder 7 [at_server [] [] [] [] replies]).
  { apply (run_link _ 7 None). exact (step_server_responds (at_server [] [] [(1, [2])] [] (mini_response 0 [7])) 7 0 (mini_response 1 [2])
      (new_server adder) eq_refl). }
  apply (run_link _ 7 None). exact (step_to_client (at_server [] [] [] [] replies) 7 replies []
    (client_at ∅ [(0%nat, [7]); (1%nat, [2])] ∅) eq_refl eq_refl eq_refl).
Qed.

Lemma run_finished : rtc step called finished.
Proof.
  etransitivity; [exact run_received|].
  transitivity (mkNet adder 7
    [mkLink (client_at ∅ [(1%nat, [2])] {[0%nat := Some [7]]}) (new_server adder) [] [] two_calls]);
    apply (run_link _ 7 None); exact (step_client_runs _ 7 0).
Qed.

Lemma run_all : rtc step (init adder 0) finished.
Proof. etransitivity; [exact run_called|exact run_finished]. Qed.

(** The order the run above needs: the second call first. *)
Example finished_order : linearised 0 finished [(0%nat, 1%nat, [2]); (0%nat, 0%nat, [7])].
Proof.
  split; [by apply (bool_decide_unpack _)|reflexivity|].
  intros k l i raw Hl Hset. destruct k as [|k]; [|done]. injection Hl as <-. simpl in Hset.
  apply lookup_insert_Some in Hset as [[<- [= <-]]|[_ Hset]]; [set_solver|].
  apply lookup_singleton_Some in Hset as [<- [= <-]]. set_solver.
Qed.

Lemma rpc_linearizable_witness : exists log later,
  linearised 0 called log /\ linearised 0 finished (log ++ later).
Proof. exact (rpc_linearizable adder 0 called finished run_called run_finished). Defined.

Lemma replies_match_witness : exists name args func st st',
  n_calls finished_link !! 0%nat = Some (name, args) /\ adder !! name = Some func /\
  func args st = Ok ([7], st').
Proof.
  apply (replies_match adder 0 finished 0 finished_link 0 (Some [7])).
  - exact run_all.
  - reflexivity.
  - reflexivity.
Defined.

Lemma futures_stable_witness : exists l',
  n_links (mkNet adder 7 [finished_link; new_link adder]) !! 0%nat = Some l' /\
  c_futures (n_client l') !! 1%nat = Some (Some [2]).
Proof.
  apply (futures_stable adder 0 finished (mkNet adder 7 [finished_link; new_link adder]) 0 finished_link 1).
  - exact run_all.
  - reflexivity.
  - reflexivity.
  - exact (step_connects finished).
Defined.

Lemma quiescent_complete_witness : exists raw, c_futures (n_client finished_link) !! 1%nat = Some (Some raw).
Proof.
  apply (quiescent_complete adder 0 finished 0 finished_link).
  - exact run_all.
  - reflexivity.
  - intros name args Hin. apply elem_of_dom. exists (deserializeArgs add_func).
    apply elem_of_cons in Hin as [[= -> _]|[[= -> _]|Hin]%elem_of_cons]; [reflexivity..|set_solver].
  - reflexivity.
  - by split_and!.
  - simpl. lia.
Defined.

Lemma receive_total_witness : exists sv,
  server_onReceive (take 2 add_requests) (new_server adder) = Ok sv.
Proof.
  apply (receive_total adder 0 called 0
    (mkLink (client_at {[0 := 0%nat; 1 := 1%nat]} [] ∅) (new_server adder) add_requests [] two_calls)
    (take 2 add_requests) (drop 2 add_requests)).
  - exact run_called.
  - reflexivity.
  - reflexivity.
Defined.

Lemma requests_reassembled_witness :
  receive_all [take 2 add_requests; []; drop 2 add_requests] (new_server adder) =
  Ok (mkServer [] adder [TCall 0 (deserializeArgs add_func) [2; 3]; TCall 1 (deserializeArgs add_func) [1; 1]]
        [] true).
Proof.
  apply (requests_reassembled adder [(0, "add"%string, [2; 3]); (1, "add"%string, [1; 1])]
           [take 2 add_requests; []; drop 2 add_requests]).
  - repeat constructor; simpl; lia.
  - reflexivity.
Defined.

Lemma typed_reply_witness : exists before after st st' b,
  linearised 0 finished (before ++ (0%nat, 0%nat, [7]) :: after) /\
  serial adder (call_of finished) before.*1 0 = Ok (before, st) /\
  add_func (2, 3) st = Ok (b, st') /\ deserializeFuture (Some [7]) = Ok b.
Proof.
  apply (typed_reply ∅ 0 "add" add_func (2, 3) finished 0 finished_link 0 [7]).
  - exact run_all.
  - reflexivity.
  - reflexivity.
  - reflexivity.
Defined.

End RpcProps.

