(* ===== verification/RpcComplete.v ===== *)
(** * Calls that are answered (src/src/rpc/rpc.h, rpc.cc)

    [RpcNet] shows that a connection on which nothing is going on has answered
    all its calls.  Here: every connection can get there.  [DrainFacts] orders
    the work that is left on a connection, the request bytes before the
    enqueued calls before the unset futures before the response bytes before
    the callbacks of the client, and shows that some step always makes it
    less; [CompleteProps] that therefore, whatever has happened on the network
    so far, all calls of a client can still be answered. *)

From S2P Require Import Prelude CppString Rpc RpcNet.
From Stdlib Require Import ZArith Lia Ascii Relation_Operators Lexicographic_Product.
From stdpp Require Import base gmap strings fin_maps numbers relations list.

Local Open Scope Z_scope.

Module DrainFacts.
Import Rpc RpcFacts Net LinkFacts NetFacts.

Section Drain.
Context {Obj : Type} `{Msgpack Obj} `{!MsgpackLaws Obj} {St : Type}.

(** What is left to do on a connection. *)
Definition work_left (l : link St) : nat * (nat * (nat * (nat * nat))) :=
  (length (n_c2s l), (length (s_tasks (n_server l)), (length (s_unset (n_server l)),
   (length (n_s2c l), length (c_tasks (n_client l)))))).

Definition less_work : relation (nat * (nat * (nat * (nat * nat)))) :=
  slexprod _ _ lt (slexprod _ _ lt (slexprod _ _ lt (slexprod _ _ lt lt))).

Lemma less_work_wf : well_founded less_work.
Proof. repeat (apply wf_slexprod; [apply lt_wf|]). apply lt_wf. Qed.

(** The functions called on this connection return, in every state that can
    occur ([inv]). *)
Definition returns (funcs : gmap string (RPCFunc St)) (inv : St -> Prop) (calls : list (string * list Z)) : Prop :=
  forall name args func st, (name, args) ∈ calls -> funcs !! name = Some func -> inv st ->
    exists raw st', func args st = Ok (raw, st') /\ inv st'.

(** A connection that can be driven on. *)
Definition live (funcs : gmap string (RPCFunc St)) (l : link St) : Prop :=
  (exists ans, good_link l ans) /\ s_funcs (n_server l) = funcs /\ known (n_calls l) funcs /\
  c_connected (n_client l) = true.

(** A step of a worker: it makes no call and disconnects nobody. *)
Definition works (x y : link St * St) : Prop :=
  link_next x y /\ n_calls y.1 = n_calls x.1 /\ c_connected (n_client y.1) = c_connected (n_client x.1).

Lemma works_live funcs x y : works x y -> live funcs x.1 -> live funcs y.1.
Proof using MsgpackLaws0.
  intros ([done Hs] & Hc & Hcon) ([ans Hg] & Hf & Hk & Ho).
  destruct (link_step_good _ _ _ _ _ _ Hg Hs) as (Hg' & _ & Hf' & _).
  unfold live. rewrite Hc, Hcon. split; [eauto|]. split; [congruence|done].
Qed.

Lemma client_loop_connected fuel : forall cl cl',
  client_loop fuel cl = Ok cl' -> c_connected cl' = c_connected cl.
Proof.
  induction fuel as [|fuel IH]; intros cl cl'; cbn [client_loop]; [done|].
  destruct (unpack_next (c_pac cl)) as [[o rest]|]; [|intros ?; by inv_ok].
  destruct (as_response o) as [[id raw]|]; [|done]. intros Hrun. apply IH in Hrun. rewrite Hrun.
  unfold accept_response. by destruct (_respCallbacks _ !! id).
Qed.

(** Bytes that are in flight are accepted. *)
Lemma good_receives (l : link St) ans : good_link l ans ->
  (exists sv, server_onReceive (n_c2s l) (n_server l) = Ok sv) /\
  (exists cl, client_onReceive (n_s2c l) (n_client l) = Ok cl).
Proof using MsgpackLaws0.
  intros (pend & resps & Hc & Hreq & Hsn & Hresp & Hcn). split.
  - unfold server_onReceive. set (sv0 := with_buffer _ _ _).
    destruct (server_loop_spec pend (S (length (s_pac (n_server l) ++ n_c2s l))) [] sv0
                (core_pend_u64 _ _ _ _ _ _ Hc)) as (? & ? & ? & _ & _ & _ & ->);
      [by rewrite app_nil_r|simpl; lia|by eexists].
  - unfold client_onReceive.
    destruct (client_loop_spec resps (S (length (c_pac (n_client l) ++ n_s2c l))) (c_pac (n_client l) ++ n_s2c l) []
                (n_client l) (core_resps_u64 _ _ _ _ _ _ Hc)) as (? & ? & ? & _ & _ & _ & ->);
      [by rewrite app_nil_r|lia|by eexists].
Qed.

(** As long as there is work, a worker can make it less. *)
Lemma work_progress funcs inv l st :
  live funcs l -> returns funcs inv (n_calls l) -> inv st ->
  quiescent l \/ exists l' st', works (l, st) (l', st') /\ inv st' /\ less_work (work_left l') (work_left l).
Proof using MsgpackLaws0.
  intros ([ans Hg] & Hf & Hk & Ho) Hret Hst. pose proof Hg as (pend & resps & Hc & _).
  destruct (core_covered _ _ _ _ _ _ Hc) as (Hso & Hnd & _); [by rewrite Hf|done|].
  destruct (good_receives l ans Hg) as [[sv Hsv] [cl Hcl]].
  destruct (n_c2s l) as [|x xs] eqn:E1.
  2: { right. eexists (mkLink (n_client l) sv [] (n_s2c l) (n_calls l)), st. split_and!; [|done|].
       - split_and!; [|done|done]. exists None. apply (step_to_server _ _ (n_c2s l)); [by rewrite app_nil_r|done|].
         by rewrite E1.
       - left. rewrite E1. simpl. lia. }
  destruct (s_tasks (n_server l)) as [|t ts] eqn:E2.
  2: { right. destruct t as [id func args|]; [|exfalso; apply Hnd; left].
       destruct (core_tasks _ _ _ _ _ _ Hc id func args) as (i & name & -> & Hi & Hfn); [rewrite E2; left|].
       rewrite Hf in Hfn. apply list_elem_of_lookup_2 in Hi.
       destruct (Hret name args func st Hi Hfn Hst) as (raw & st' & Hrun & Hst').
       eexists (mkLink (n_client l) _ (n_c2s l) (n_s2c l) (n_calls l)), st'. split_and!; [|done|].
       - split_and!; [|done|done]. eexists. apply (step_server_runs _ _ 0).
         cbn [fst snd]. unfold server_run, deferredRPCCall. rewrite E2. simpl. rewrite Hrun. done.
       - unfold work_left. cbn [n_c2s n_server n_s2c n_client with_buffer s_tasks]. rewrite E1, E2.
         right. left. simpl. lia. }
  destruct (s_unset (n_server l)) as [|[id raw] us] eqn:E3.
  2: { right. destruct (server_respond 0 (n_server l)) as [bytes sv'] eqn:Er.
       exists (mkLink (n_client l) sv' (n_c2s l) (n_s2c l ++ bytes) (n_calls l)), st. split_and!; [|done|].
       - split_and!; [|done|done]. exists None. by eapply (step_server_responds _ _ 0).
       - unfold server_respond in Er. rewrite E3 in Er. simpl in Er. injection Er as _ <-.
         unfold work_left. cbn [n_c2s n_server n_s2c n_client s_tasks s_unset]. rewrite E1, E2, E3.
         right. right. left. simpl. lia. }
  destruct (n_s2c l) as [|y ys] eqn:E4.
  2: { right. exists (mkLink cl (n_server l) (n_c2s l) [] (n_calls l)), st. split_and!; [|done|].
       - split_and!; [|done|]. 2: { simpl. unfold client_onReceive in Hcl. by apply client_loop_connected in Hcl. }
         exists None. apply (step_to_client _ _ (n_s2c l)); [by rewrite app_nil_r|done|by rewrite E4].
       - unfold work_left. cbn [n_c2s n_server n_s2c n_client]. rewrite E1, E2, E3, E4.
         right. right. right. left. simpl. lia. }
  destruct (c_tasks (n_client l)) as [|[f raw] us] eqn:E5.
  2: { right. exists (mkLink (client_run 0 (n_client l)) (n_server l) (n_c2s l) (n_s2c l) (n_calls l)), st.
       split_and!; [|done|].
       - split_and!; [|done|]. { exists None. apply step_client_runs. } simpl. unfold client_run. by rewrite E5.
       - unfold work_left, client_run. cbn [n_c2s n_server n_s2c n_client]. rewrite E1, E2, E3, E4, E5.
         right. right. right. right. simpl. lia. }
  by left.
Qed.

(** So all of it can be done. *)
Lemma drains funcs inv l : forall st,
  live funcs l -> returns funcs inv (n_calls l) -> inv st ->
  exists l' st', rtc works (l, st) (l', st') /\ live funcs l' /\ inv st' /\ quiescent l' /\ n_calls l' = n_calls l.
Proof using MsgpackLaws0.
  remember (work_left l) as w eqn:Hw. revert l Hw.
  induction (less_work_wf w) as [w _ IH]. intros l -> st Hl Hret Hst.
  destruct (work_progress funcs inv l st Hl Hret Hst) as [Hq|(l1 & st1 & Hw & Hst1 & Hless)].
  { exists l, st. split_and!; done || apply rtc_refl. }
  assert (n_calls l1 = n_calls l) as Hc by apply Hw.
  destruct (IH _ Hless l1 eq_refl st1) as (l' & st' & Hr & Hl' & Hst' & Hq & Hc');
    [by apply (works_live funcs (l, st) (l1, st1))|by rewrite Hc|done|].
  exists l', st'. split_and!; try done; [by eapply rtc_l|congruence].
Qed.

(** The state a connection of a reachable network is in. *)
Lemma reach_live funcs (st0 : St) (n : net St) k l :
  rtc step (init funcs st0) n -> n_links n !! k = Some l -> known (n_calls l) funcs ->
  c_connected (n_client l) = true -> live funcs l.
Proof using MsgpackLaws0.
  intros Hreach Hl Hk Ho. destruct (good_reach funcs st0 n Hreach) as [<- [log Hg]].
  destruct (good_links _ _ _ Hg k l Hl) as [Hgl Hf]. split_and!; eauto.
Qed.

Lemma works_next x y : rtc works x y -> rtc link_next x y.
Proof. apply rtc_subrel. by intros ? ? [? _]. Qed.

(** A connection that has been driven on until nothing is left has answered
    its calls. *)
Lemma live_answers funcs (l : link St) i :
  live funcs l -> quiescent l -> (i < length (n_calls l))%nat ->
  exists raw, c_futures (n_client l) !! i = Some (Some raw).
Proof using MsgpackLaws0.
  intros ([ans Hg] & <- & Hk & Ho) Hq Hi. destruct (quiet_link l ans i Hg Hk Ho Hq Hi) as [[raw|] Hraw]; [eauto|].
  destruct Hg as (pend & resps & Hc & _). destruct (core_set _ _ _ _ _ _ Hc _ _ Hraw). congruence.
Qed.

End Drain.
End DrainFacts.

Module CompleteProps.
Import Rpc RpcFacts Net LinkFacts NetFacts DrainFacts.

Section Props.
Context {Obj : Type} `{Msgpack Obj} `{!MsgpackLaws Obj} {St : Type}.

(** C11. No call is ever stuck: whatever has happened on a network so far, on all
    its connections, if the functions a connected client has called are
    registered and return, then the workers of that connection can
    bring all its calls to an end without a new call by
    anybody, and then every future of the client holds an answer. *)
Theorem calls_complete (funcs : gmap string (RPCFunc St)) (st0 : St) (inv : St -> Prop) (n : net St) (k : nat) (l : link St)
  (Hreach : rtc step (init funcs st0) n) (Hl : n_links n !! k = Some l)
  (Hknown : known (n_calls l) funcs) (Hopen : c_connected (n_client l) = true)
  (Hreturns : returns funcs inv (n_calls l)) (Hinv : inv (n_state n)) :
  exists l' st', rtc step n (mkNet funcs st' (<[k := l']> (n_links n))) /\ inv st' /\
    n_calls l' = n_calls l /\ quiescent l' /\
    forall i, (i < length (n_calls l))%nat -> exists raw, c_futures (n_client l') !! i = Some (Some raw).
Proof using MsgpackLaws0.
  destruct (drains funcs inv l (n_state n)) as (l' & st' & Hr & Hl' & Hst' & Hq & Hc);
    [by eapply reach_live|done|done|].
  exists l', st'. split_and!; try done.
  - destruct (good_reach funcs st0 n Hreach) as [Hf _]. apply works_next in Hr.
    pose proof (link_run_net funcs k _ _ Hr (n_links n) Hl) as Hrun. rewrite <- Hf in Hrun at 1. by destruct n.
  - intros i Hi. rewrite <- Hc in Hi. by eapply live_answers.
Qed.

End Props.

(** ** Witness: a connection of [RpcProps] on which two calls have been made. *)

Import MiniPack RpcProps.

Definition called_link : link Z :=
  mkLink (client_at {[0 := 0%nat; 1 := 1%nat]} [] ∅) (new_server adder) add_requests [] two_calls.

Lemma calls_complete_witness : exists l' st',
  rtc step called (mkNet adder st' (<[0%nat := l']> (n_links called))) /\ True /\
  n_calls l' = two_calls /\ quiescent l' /\
  forall i, (i < 2)%nat -> exists raw, c_futures (n_client l') !! i = Some (Some raw).
Proof.
  apply (calls_complete adder 0 (fun _ => True) called 0 called_link).
  - exact run_called.
  - reflexivity.
  - intros name args Hin. apply elem_of_dom. exists (deserializeArgs add_func).
    apply elem_of_cons in Hin as [[= -> _]|[[= -> _]|Hin]%elem_of_cons]; [reflexivity..|set_solver].
  - reflexivity.
  - intros name args func st Hin Hf _.
    apply elem_of_cons in Hin as [[= -> ->]|[[= -> ->]|Hin]%elem_of_cons]; [..|set_solver];
      injection Hf as <-; eexists _, _; split; reflexivity || exact I.
  - exact I.
Defined.

End CompleteProps.
