(* ===== verification/RpcLife.v ===== *)
(** * The lifetime of servers, connections and clients (src/src/rpc/rpc.h, rpc.cc)

    [RpcNet] follows connections while they are up; this file follows the
    objects around them.  A [Socket] is a [TcpSocket]: whether the receive and
    disconnect callbacks are installed (each of them keeps the [Internal] it is
    bound to alive), whether it was started and whether it is open.
    [ServerLife] is [RPCServer] with all connections it ever accepted and the
    references user code keeps to them; a [Connection] whose last reference
    goes away is destroyed, which disconnects it.  [ClientLife] is [RPCClient]
    around the [Client] of [Rpc].  User code is free to call anything it has a
    reference to, in any order: runs are lists of [event]s. *)

From S2P Require Import Prelude CppString Rpc RpcNet.
From Stdlib Require Import ZArith Lia Ascii.
From stdpp Require Import base gmap strings fin_maps numbers list.

Local Open Scope Z_scope.

(** ** Sockets *)

Record Socket : Type := mkSocket {
  k_receive : bool;
  k_ondisconnect : bool;
  k_started : bool;
  k_open : bool
}.

(** A socket handed over by [accept] or [connect]. *)
Definition new_socket : Socket := mkSocket false false false true.

(** [setReceiveCallback(onReceive)], [setDisconnectCallback(onDisconnect)],
    [start()]: the common body of both [Internal::start]. *)
Definition socket_start (s : Socket) : Socket := mkSocket true true true (k_open s).

(** Both callbacks to [NULL], then [disconnect()]. *)
Definition socket_disconnect (s : Socket) : Socket := mkSocket false false (k_started s) false.

(** The other side closes the connection: the socket calls its disconnect
    callback, if it has one and was started. *)
Definition socket_closed (s : Socket) : Socket :=
  mkSocket (k_receive s) (k_ondisconnect s) (k_started s) false.

Definition notifies (s : Socket) : bool := k_open s && k_started s && k_ondisconnect s.

(** ** Servers *)

Module ServerLife.

(** [RPCServer::Connection::Internal]; user callbacks are numbers. *)
Record Connection : Type := mkConnection {
  _socket : Socket;
  _disconnectCallback : option nat
}.

Definition Connection_start (c : Connection) : Connection :=
  mkConnection (socket_start (_socket c)) (_disconnectCallback c).
Definition Connection_disconnect (c : Connection) : Connection :=
  mkConnection (socket_disconnect (_socket c)) (_disconnectCallback c).
Definition Connection_setDisconnectCallback (cb : option nat) (c : Connection) : Connection :=
  mkConnection (_socket c) cb.

(** What the accept callback of a user does with the connection it is given:
    attach a disconnect callback, start it, keep a reference to it. *)
Record accept_callback : Type := AcceptCallback {
  a_callback : option nat;
  a_start : bool;
  a_keep : bool
}.

Definition run_accept (cb : accept_callback) (c : Connection) : Connection :=
  let c := Connection_setDisconnectCallback (a_callback cb) c in
  if a_start cb then Connection_start c else c.

(** The server, every connection it accepted, by number, and the connections
    user code keeps a reference to.  [fired] are the disconnect callbacks
    that ran. *)
Record server : Type := mkServer {
  exists_ : bool;
  listening : bool;   (** the listening socket calls [RPCServer::onAccept] *)
  _acceptCallback : option accept_callback;
  _connections : gset nat;
  internals : gmap nat Connection;
  held : gset nat;
  next_id : nat;
  fired : list (nat * nat)
}.

Definition create : server := mkServer true false None ∅ ∅ ∅ 0 [].

(** A connection nobody refers to is destroyed: [~Connection] disconnects. *)
Definition settle (w : server) : server :=
  mkServer (exists_ w) (listening w) (_acceptCallback w) (_connections w)
    (map_imap (fun id c => Some (if decide (id ∈ _connections w ∪ held w) then c
                                 else Connection_disconnect c)) (internals w))
    (held w) (next_id w) (fired w).

Definition start (w : server) : server :=
  mkServer (exists_ w) true (_acceptCallback w) (_connections w) (internals w) (held w) (next_id w) (fired w).

(** [_connections.clear()] drops the connections accepted so far. *)
Definition setAcceptCallback (cb : option accept_callback) (w : server) : server :=
  settle (mkServer (exists_ w) (listening w) cb ∅ (internals w) (held w) (next_id w) (fired w)).

Definition onAccept (s : Socket) (w : server) : server :=
  let id := next_id w in
  let r := mkConnection s None in
  match _acceptCallback w with
  | Some cb =>
      settle (mkServer (exists_ w) (listening w) (_acceptCallback w) (_connections w)
                (<[id := run_accept cb r]> (internals w))
                (if a_keep cb then {[id]} ∪ held w else held w) (S id) (fired w))
  | None =>
      mkServer (exists_ w) (listening w) (_acceptCallback w) ({[id]} ∪ _connections w)
        (<[id := Connection_start r]> (internals w)) (held w) (S id) (fired w)
  end.

(** [~RPCServer], then the destructors of its members. *)
Definition dtor (w : server) : server :=
  settle (mkServer false false None ∅ (internals w) (held w) (next_id w) (fired w)).

Definition on_connection (id : nat) (f : Connection -> Connection) (w : server) : server :=
  mkServer (exists_ w) (listening w) (_acceptCallback w) (_connections w)
    (alter f id (internals w)) (held w) (next_id w) (fired w).

(** User code forgets a connection. *)
Definition forget (id : nat) (w : server) : server :=
  settle (mkServer (exists_ w) (listening w) (_acceptCallback w) (_connections w) (internals w)
            (held w ∖ {[id]}) (next_id w) (fired w)).

(** [Internal::onDisconnect], called by the socket of connection [id]. *)
Definition onDisconnect (id : nat) (c : Connection) (w : server) : server :=
  mkServer (exists_ w) (listening w) (_acceptCallback w) (_connections w) (internals w) (held w) (next_id w)
    (match _disconnectCallback c with Some cb => fired w ++ [(id, cb)] | None => fired w end).

Definition peer_closes (id : nat) (w : server) : server :=
  match internals w !! id with
  | None => w
  | Some c =>
      let w' := on_connection id (fun c => mkConnection (socket_closed (_socket c)) (_disconnectCallback c)) w in
      if notifies (_socket c) then onDisconnect id c w' else w'
  end.

Inductive event : Type :=
  | Start
  | SetAcceptCallback (cb : option accept_callback)
  | Accept
  | Destroy
  | ConnStart (id : nat)
  | ConnDisconnect (id : nat)
  | ConnSetCallback (id : nat) (cb : option nat)
  | Forget (id : nat)
  | PeerCloses (id : nat).

(** The server can be used while it exists, a connection while user code has a
    reference to it. *)
Definition step (w : server) (e : event) : server :=
  match e with
  | Start => if exists_ w then start w else w
  | SetAcceptCallback cb => if exists_ w then setAcceptCallback cb w else w
  | Accept => if listening w then onAccept new_socket w else w
  | Destroy => if exists_ w then dtor w else w
  | ConnStart id => if decide (id ∈ held w) then on_connection id Connection_start w else w
  | ConnDisconnect id => if decide (id ∈ held w) then on_connection id Connection_disconnect w else w
  | ConnSetCallback id cb =>
      if decide (id ∈ held w) then on_connection id (Connection_setDisconnectCallback cb) w else w
  | Forget id => forget id w
  | PeerCloses id => peer_closes id w
  end.

Definition run (es : list event) (w : server) : server := foldl step w es.

End ServerLife.

Module ServerLifeFacts.
Import ServerLife.

(** Closed, and no callback left that could be called or could keep the
    object alive. *)
Definition released (c : Connection) : Prop :=
  k_receive (_socket c) = false /\ k_ondisconnect (_socket c) = false /\ k_open (_socket c) = false.

Record life (w : server) : Prop := {
  life_dropped id c : internals w !! id = Some c -> id ∉ _connections w ∪ held w -> released c;
  life_gone : exists_ w = false -> listening w = false /\ _connections w = ∅;
  life_owned id : id ∈ _connections w ∪ held w -> is_Some (internals w !! id);
  life_ids id : is_Some (internals w !! id) -> (id < next_id w)%nat
}.

Lemma settle_lookup w id :
  internals (settle w) !! id =
  (fun c => if decide (id ∈ _connections w ∪ held w) then c else Connection_disconnect c) <$> (internals w !! id).
Proof. simpl. rewrite map_lookup_imap. by destruct (internals w !! id). Qed.

Lemma settle_life w :
  (exists_ w = false -> listening w = false /\ _connections w = ∅) ->
  (forall id, id ∈ _connections w ∪ held w -> is_Some (internals w !! id)) ->
  (forall id, is_Some (internals w !! id) -> (id < next_id w)%nat) -> life (settle w).
Proof.
  intros Hgone Hown Hids. split; try done.
  - intros id c. rewrite settle_lookup. intros (c0 & Hc & ->)%fmap_Some Hn.
    rewrite decide_False by done. done.
  - intros id Hin. rewrite settle_lookup. destruct (Hown id Hin) as [c ->]. by eexists.
  - intros id. rewrite settle_lookup. intros [c (c0 & Hc & _)%fmap_Some]. apply Hids. by eexists.
Qed.

Lemma alter_life w id f :
  (forall c, released c -> released (f c)) \/ id ∈ _connections w ∪ held w ->
  life w -> life (on_connection id f w).
Proof.
  intros Hf [Hd Hg Ho Hi]. split; simpl; try done.
  - intros j c [[-> (c0 & Hc & ->)]|[_ Hc]]%lookup_alter_Some Hn; [|by eapply Hd].
    destruct Hf as [Hf|?]; [|done]. apply Hf. by eapply Hd.
  - intros j Hj. rewrite lookup_alter_is_Some. by apply Ho.
  - intros j. rewrite lookup_alter_is_Some. apply Hi.
Qed.

Lemma create_life : life create.
Proof. split; simpl; [done|done|intros id Hin; set_solver|by intros id [c Hc]]. Qed.

Lemma accept_life w s : life w -> listening w = true -> life (onAccept s w).
Proof.
  intros [Hd Hg Ho Hi] Hl. unfold onAccept.
  assert (forall id c r, <[next_id w := r]> (internals w) !! id = Some c -> id <> next_id w ->
            internals w !! id = Some c) as Hold by (intros id c r; by intros ? ?; simplify_map_eq).
  assert (forall id r, is_Some (<[next_id w := r]> (internals w) !! id) -> (id < S (next_id w))%nat) as Hids.
  { intros id r [c Hc]. destruct (decide (id = next_id w)) as [->|Hne]; [lia|].
    apply Hold in Hc; [|done]. assert (id < next_id w)%nat by (apply Hi; eauto). lia. }
  assert (forall id r, id ∈ {[next_id w]} ∪ (_connections w ∪ held w) ->
            is_Some (<[next_id w := r]> (internals w) !! id)) as Hown.
  { intros id r Hin. destruct (decide (id = next_id w)) as [->|Hne]; [simplify_map_eq; eauto|].
    rewrite lookup_insert_ne by done. apply Ho. set_solver. }
  destruct (_acceptCallback w) as [cb|].
  - apply settle_life; simpl; [done| |by eauto].
    intros id Hin. apply Hown. destruct (a_keep cb); set_solver.
  - split; simpl; [|intros E; specialize (Hg E) as [? _]; congruence| |by eauto].
    + intros id c Hc Hn. apply (Hd id); [|set_solver]. eapply Hold; [done|set_solver].
    + intros id Hin. apply Hown. set_solver.
Qed.

Lemma onDisconnect_life id c w : life w -> life (onDisconnect id c w).
Proof. by intros []. Qed.

Lemma step_life w e : life w -> life (step w e).
Proof.
  intros Hw. pose proof Hw as [Hd Hg Ho Hi]. destruct e as [|cb| | |id|id|id cb|id|id]; simpl.
  - destruct (exists_ w) eqn:E; [|done]. split; simpl; try done. congruence.
  - destruct (exists_ w) eqn:E; [|done]. apply settle_life; simpl; try done.
    + intros ?. congruence.
    + intros id Hin. apply Ho. set_solver.
  - destruct (listening w) eqn:E; [|done]. by apply accept_life.
  - destruct (exists_ w); [|done]. apply settle_life; simpl; try done. intros id Hin. apply Ho. set_solver.
  - case_decide; [|done]. apply alter_life; [right; set_solver|done].
  - case_decide; [|done]. apply alter_life; [by left|done].
  - case_decide; [|done]. apply alter_life; [by left|done].
  - apply settle_life; simpl; try done. intros j Hin. apply Ho. set_solver.
  - unfold peer_closes. destruct (internals w !! id) as [c|]; [|done].
    assert (life (on_connection id (fun c => mkConnection (socket_closed (_socket c)) (_disconnectCallback c)) w)).
    { apply alter_life; [|done]. left. intros c' (? & ? & ?). done. }
    destruct (notifies _); [by apply onDisconnect_life|done].
Qed.

Lemma run_life es : forall w, life w -> life (run es w).
Proof. induction es as [|e es IH]; intros w Hw; [done|]. by apply IH, step_life. Qed.

End ServerLifeFacts.

(** ** Clients *)

Module ClientLife.
Import Rpc.

Section Client.
Context {Obj : Type} `{Msgpack Obj}.

(** [RPCClient] and its [Internal]: [handle] says whether the [RPCClient]
    object still exists, [fired] are the disconnect callbacks that ran. *)
Record client : Type := mkClientObj {
  internal : Client;
  socket : Socket;
  callback : option nat;
  handle : bool;
  fired : list nat
}.

Definition create : client := mkClientObj new_client new_socket None true [].

Definition start (c : client) : client :=
  mkClientObj (internal c) (socket_start (socket c)) (callback c) (handle c) (fired c).

Definition setDisconnectCallback (cb : option nat) (c : client) : client :=
  mkClientObj (internal c) (socket c) cb (handle c) (fired c).

(** [Internal::disconnect]: the socket first, then the pending callbacks. *)
Definition disconnect (c : client) : client :=
  mkClientObj (client_disconnect (internal c)) (socket_disconnect (socket c)) (callback c) (handle c) (fired c).

Definition dtor (c : client) : client :=
  let c := disconnect (setDisconnectCallback None c) in
  mkClientObj (internal c) (socket c) (callback c) false (fired c).

(** The socket is closed under the client: nothing it writes arrives any
    more, and [onDisconnect] runs. *)
Definition without_peer (cl : Client) : Client :=
  mkClient (_reqId cl) (_respCallbacks cl) (c_pac cl) (c_tasks cl) (c_futures cl) (c_next cl) false.

Definition onDisconnect (c : client) : client :=
  mkClientObj (internal c) (socket c) (callback c) (handle c)
    (match callback c with Some cb => fired c ++ [cb] | None => fired c end).

Definition peer_closes (c : client) : client :=
  let c' := mkClientObj (without_peer (internal c)) (socket_closed (socket c)) (callback c) (handle c) (fired c) in
  if notifies (socket c) then onDisconnect c' else c'.

Inductive event : Type :=
  | Start
  | SetCallback (cb : option nat)
  | Call (name : string) (args : list Z)
  | Receive (buf : list Z)
  | Work (i : nat)
  | PeerCloses
  | Disconnect
  | Destroy.

Definition with_internal (cl : Client) (c : client) : client :=
  mkClientObj cl (socket c) (callback c) (handle c) (fired c).

(** The object can be used while it exists; bytes arrive while the socket is
    open, started and has a receive callback. *)
Definition step (c : client) (e : event) : outcome client :=
  match e with
  | Start => Ok (if handle c then start c else c)
  | SetCallback cb => Ok (if handle c then setDisconnectCallback cb c else c)
  | Call name args => Ok (if handle c then with_internal (call name args (internal c)).2 c else c)
  | Receive buf =>
      if k_open (socket c) && k_started (socket c) && k_receive (socket c)
      then cl ← client_onReceive buf (internal c); Ok (with_internal cl c)
      else Ok c
  | Work i => Ok (with_internal (client_run i (internal c)) c)
  | PeerCloses => Ok (peer_closes c)
  | Disconnect => Ok (if handle c then disconnect c else c)
  | Destroy => Ok (if handle c then dtor c else c)
  end.

Fixpoint run (es : list event) (c : client) : outcome client :=
  match es with
  | [] => Ok c
  | e :: es => c ← step c e; run es c
  end.

(** Who keeps the [Internal] alive: the [RPCClient], or a callback of its own
    socket. *)
Definition internal_alive (c : client) : bool :=
  handle c || k_receive (socket c) || k_ondisconnect (socket c).

End Client.
End ClientLife.

Module ClientLifeFacts.
Import Rpc RpcFacts ClientLife.

Section Facts.
Context {Obj : Type} `{Msgpack Obj}.

(** What becomes of a call: answered, about to be answered, or waiting. *)
Definition tracked (cl : Client) : Prop :=
  forall i, (i < c_next cl)%nat ->
    is_Some (c_futures cl !! i) \/ i ∈ (c_tasks cl).*1 \/ exists id, _respCallbacks cl !! id = Some i.

(** A callback waits for one call, which is not answered otherwise. *)
Record booked (cl : Client) : Prop := {
  booked_tracked : tracked cl;
  booked_reqId : _reqId cl = Z.of_nat (c_next cl);
  booked_pending id f : _respCallbacks cl !! id = Some f ->
    id = Z.of_nat f /\ (f < c_next cl)%nat /\ (f ∉ (c_tasks cl).*1) /\ c_futures cl !! f = None;
  booked_tasks f : f ∈ (c_tasks cl).*1 -> (f < c_next cl)%nat;
  booked_futures f : is_Some (c_futures cl !! f) -> (f < c_next cl)%nat
}.

Lemma accept_booked id raw cl : booked cl -> booked (accept_response id raw cl).
Proof.
  intros Hcl. pose proof Hcl as [Ht Hr Hp Hta Hfu]. unfold accept_response.
  destruct (_respCallbacks cl !! id) as [f|] eqn:E; [|done].
  destruct (Hp _ _ E) as (Hid & Hlt & Hnt & Hnf). split; simpl; try done.
  - intros i Hi. simpl in *. rewrite fmap_app, elem_of_app. destruct (Ht i Hi) as [?|[?|[id' Hid']]]; [tauto..|].
    destruct (decide (id' = id)) as [->|Hne].
    + rewrite E in Hid'. injection Hid' as ->. right; left; right. left.
    + right; right. exists id'. by rewrite lookup_delete_ne.
  - intros id' f' [Hne Hf']%lookup_delete_Some. destruct (Hp _ _ Hf') as (-> & ? & ? & ?).
    split_and!; try done. rewrite fmap_app, elem_of_app. intros [?|?%list_elem_of_singleton]; [done|].
    simpl in *. congruence.
  - intros f'. rewrite fmap_app, elem_of_app. intros [?|Hs%list_elem_of_singleton]; [auto|by subst].
Qed.

(** Receiving makes no calls and registers no callbacks. *)
Definition same_calls (cl cl' : Client) : Prop :=
  c_next cl' = c_next cl /\ _respCallbacks cl' ⊆ _respCallbacks cl.

Lemma client_loop_booked fuel : forall cl cl',
  client_loop fuel cl = Ok cl' -> booked cl -> booked cl' /\ same_calls cl cl'.
Proof.
  induction fuel as [|fuel IH]; intros cl cl'; cbn [client_loop]; [done|].
  destruct (unpack_next (c_pac cl)) as [[o rest]|]; [|intros ? ?; by inv_ok].
  destruct (as_response o) as [[id raw]|]; [|done]. intros Hrun Ht.
  destruct (IH _ _ Hrun) as (? & ? & ?); [by apply accept_booked; destruct Ht; split|].
  split; [done|]. unfold same_calls, accept_response in *. simpl in *.
  destruct (_respCallbacks cl !! id); [|done]. simpl in *. split_and!; try done.
  etransitivity; [done|]. apply delete_subseteq.
Qed.

Lemma run_booked i cl : booked cl -> booked (client_run i cl) /\ same_calls cl (client_run i cl).
Proof.
  intros Hcl. pose proof Hcl as [Ht Hr Hp Hta Hfu]. unfold client_run.
  destruct (c_tasks cl !! i) as [[f raw]|] eqn:E; [|done]. split; [|done].
  assert (f ∈ (c_tasks cl).*1) as Hf.
  { apply list_elem_of_fmap. exists (f, raw). split; [done|]. by eapply list_elem_of_lookup_2. }
  assert (forall j, j ∈ (delete i (c_tasks cl)).*1 -> j ∈ (c_tasks cl).*1) as Hsub.
  { intros j Hj. rewrite (delete_Permutation _ _ _ E). by right. }
  split; simpl; try done.
  - intros j Hj. simpl in *. destruct (decide (j = f)) as [->|Hne]; [rewrite lookup_insert_eq; left; eauto|].
    rewrite lookup_insert_ne by done. destruct (Ht j Hj) as [?|[Hin|?]]; [tauto| |tauto].
    right; left. rewrite (delete_Permutation _ _ _ E) in Hin. by apply elem_of_cons in Hin as [?|?].
  - intros id g Hg. destruct (Hp _ _ Hg) as (? & ? & Hn & ?). split_and!; try done; [by intros ?%Hsub|].
    rewrite lookup_insert_ne; [done|]. intros ->. done.
  - intros g Hg. by apply Hta, Hsub.
  - intros g. destruct (decide (g = f)) as [->|Hne]; [intros _; by apply Hta|].
    rewrite lookup_insert_ne by done. apply Hfu.
Qed.

Lemma abort_booked cl : booked cl -> booked (client_disconnect cl).
Proof.
  intros [Ht Hr Hp Hta Hfu]. split; simpl; try done.
  - intros i Hi. simpl in *. rewrite LinkFacts.abort_all_lookup. case_decide as Hd; [left; eauto|].
    destruct (Ht i Hi) as [?|[?|[id Hid]]]; [tauto..|]. destruct Hd. apply LinkFacts.pending_iff. eauto.
  - intros f. rewrite LinkFacts.abort_all_lookup. case_decide as Hd; [|apply Hfu].
    apply LinkFacts.pending_iff in Hd as [id Hid]. intros _. by destruct (Hp _ _ Hid) as (_ & ? & _).
Qed.

Lemma call_booked name args cl :
  booked cl -> Z.of_nat (c_next cl) + 1 < 2 ^ 64 -> booked (call name args cl).2.
Proof.
  intros [Ht Hr Hp Hta Hfu] Hlt. split; simpl.
  - intros i Hi. simpl in *. destruct (decide (i = c_next cl)) as [->|Hne].
    + right; right. exists (_reqId cl). by rewrite lookup_insert_eq.
    + destruct (Ht i ltac:(lia)) as [?|[?|[id Hi']]]; [tauto..|]. right; right. exists id.
      destruct (Hp _ _ Hi') as (-> & Hlt' & _). rewrite lookup_insert_ne; [done|]. rewrite Hr. lia.
  - rewrite Hr, to_u64_id; [lia|]. unfold is_u64. lia.
  - intros id f [[<- <-]|[Hne Hf]]%lookup_insert_Some.
    + split_and!; [done|lia| |].
      * intros Hin%Hta. lia.
      * destruct (c_futures cl !! c_next cl) eqn:E; [|done].
        assert (c_next cl < c_next cl)%nat by (apply Hfu; eauto). lia.
    + destruct (Hp _ _ Hf) as (-> & ? & ? & ?). split_and!; try done. lia.
  - intros f Hf%Hta. lia.
  - intros f Hf%Hfu. lia.
Qed.

Record sound (c : client) : Prop := {
  sound_booked : booked (internal c);
  sound_gone : handle c = false ->
    callback c = None /\ socket c = mkSocket false false (k_started (socket c)) false /\
    _respCallbacks (internal c) = ∅
}.

Lemma create_sound : sound create.
Proof. split; simpl; [|done]. split; simpl; try done; [intros i Hi; simpl in Hi; lia|set_solver|by intros f []]. Qed.

Lemma receive_sound cl c : sound c -> booked cl -> same_calls (internal c) cl -> sound (with_internal cl c).
Proof.
  intros [_ Hg] Hb (Hn & Hsub). split; simpl; [done|].
  intros Hh. destruct (Hg Hh) as (? & ? & He). split_and!; try done. rewrite He in Hsub.
  apply (anti_symm (⊆)); [done|apply map_empty_subseteq].
Qed.

Lemma step_sound e c c' :
  sound c -> Z.of_nat (c_next (internal c)) + 1 < 2 ^ 64 -> step c e = Ok c' ->
  sound c' /\ (c_next (internal c') <= S (c_next (internal c)))%nat.
Proof.
  intros Hc Hlt. pose proof Hc as [Hb Hg].
  destruct e as [|cb|name args|buf|i| | |]; cbn [step];
    try (destruct (handle c) eqn:Hh; [|intros; inv_ok; split; [done|lia]]); intros Hstep; inv_ok.
  - split; [|simpl; lia]. split; simpl; [done|congruence].
  - split; [|simpl; lia]. split; simpl; [done|congruence].
  - split; [|done]. split; simpl; [exact (call_booked name args _ Hb Hlt)|congruence].
  - destruct (k_open _ && k_started _ && k_receive _); [|inv_ok; split; [done|lia]].
    destruct (client_onReceive buf (internal c)) as [cl|] eqn:E; [|done]. simpl in Hstep. inv_ok.
    unfold client_onReceive in E. apply client_loop_booked in E as [Hb' (Hn & Hrest)]; [|by destruct Hb; split].
    split; [by apply receive_sound|]. simpl in *. lia.
  - destruct (run_booked i _ Hb) as [Hb' Hs']. split; [by apply receive_sound|].
    simpl. destruct Hs' as [-> _]. lia.
  - unfold peer_closes. assert (sound (mkClientObj (without_peer (internal c)) (socket_closed (socket c))
        (callback c) (handle c) (fired c))) as Hc'.
    { split; simpl; [by destruct Hb; split|]. intros Hh. destruct (Hg Hh) as (? & Hs' & ?). split_and!; try done.
      unfold socket_closed. by rewrite Hs'. }
    destruct (notifies _); (split; [|simpl; lia]); [|done]. by destruct Hc'; split.
  - split; [|simpl; lia]. split; simpl; [by apply abort_booked|congruence].
  - split; [|simpl; lia]. split; simpl; [by apply abort_booked|done].
Qed.

Lemma run_sound es : forall c c', sound c -> Z.of_nat (c_next (internal c)) + Z.of_nat (length es) < 2 ^ 64 ->
  run es c = Ok c' ->
  sound c' /\ Z.of_nat (c_next (internal c')) <= Z.of_nat (c_next (internal c)) + Z.of_nat (length es).
Proof.
  induction es as [|e es IH]; intros c c' Hc Hlt; cbn [run length] in *; [intros; inv_ok; split; [done|lia]|].
  destruct (step c e) as [c1|] eqn:E; [|done]. destruct (step_sound e c c1 Hc ltac:(lia) E) as [Hc1 Hn].
  intros Hrun. destruct (IH c1 c' Hc1 ltac:(lia) Hrun). split; [done|lia].
Qed.

Lemma run_app es1 es2 : forall c,
  run (es1 ++ es2) c = (c ← run es1 c; run es2 c).
Proof. induction es1 as [|e es1 IH]; intros c; simpl; [done|]. destruct (step c e); simpl; [apply IH|done]. Qed.

(** A destroyed client stays as quiet as it is. *)
Lemma gone_step e c c' : sound c -> handle c = false -> step c e = Ok c' ->
  handle c' = false /\ fired c' = fired c /\ internal_alive c' = internal_alive c.
Proof.
  intros [_ Hg] Hh. destruct (Hg Hh) as (Hcb & Hsock & _). destruct e; cbn [step]; rewrite ?Hh.
  all: try (intros; by inv_ok).
  - rewrite Hsock. simpl. intros; by inv_ok.
  - unfold peer_closes. rewrite Hsock. simpl. intros; inv_ok. unfold internal_alive. simpl. by rewrite Hsock.
Qed.

(** Once its socket is closed, only [disconnect] resolves a pending call. *)
Lemma closed_step e c c' id f :
  sound c -> Z.of_nat (c_next (internal c)) + 1 < 2 ^ 64 ->
  k_open (socket c) = false -> _respCallbacks (internal c) !! id = Some f ->
  e <> Disconnect -> e <> Destroy -> step c e = Ok c' ->
  k_open (socket c') = false /\ _respCallbacks (internal c') !! id = Some f.
Proof.
  intros [Hb _] Hlt Ho Hf Hd Hk.
  destruct e as [|cb|name args|buf|i| | |]; cbn [step]; try done;
    try (destruct (handle c) eqn:Hh; [|intros; by inv_ok]); intros Hstep; inv_ok; simpl; try done.
  - split; [done|]. destruct (booked_pending _ Hb _ _ Hf) as (-> & Hlt' & _).
    rewrite lookup_insert_ne; [done|]. rewrite (booked_reqId _ Hb). lia.
  - rewrite Ho in Hstep. simpl in Hstep. by inv_ok.
  - split; [done|]. unfold client_run. by destruct (c_tasks (internal c) !! i) as [[]|].
  - unfold peer_closes. by destruct (notifies _).
Qed.

End Facts.
End ClientLifeFacts.

(** ** Properties *)

Module LifeProps.

Section ServerProps.
Import ServerLife ServerLifeFacts.

Definition fired_for (id : nat) (w : server) : list (nat * nat) := filter (fun e => e.1 = id) (fired w).

(** A connection without owner, that nobody can get hold of again. *)
Definition orphan (id : nat) (w : server) : Prop :=
  is_Some (internals w !! id) /\ (id ∉ _connections w ∪ held w).

Lemma orphan_settle id w : orphan id w -> orphan id (settle w).
Proof. intros [Hs Hn]. split; [|done]. rewrite settle_lookup. by apply fmap_is_Some. Qed.

Lemma orphan_step id w e : life w -> orphan id w ->
  orphan id (step w e) /\ fired_for id (step w e) = fired_for id w.
Proof.
  intros Hw Ho. pose proof Ho as [Hs Hn]. destruct e as [|cb| | |j|j|j cb|j|j]; simpl.
  - by destruct (exists_ w).
  - destruct (exists_ w); [|done]. split; [|done]. apply orphan_settle. split; [done|]. simpl. set_solver.
  - destruct (listening w); [|done]. unfold onAccept.
    assert (id <> next_id w) as Hne by (pose proof (life_ids _ Hw _ Hs); lia).
    destruct (_acceptCallback w) as [cb|]; (split; [|done]); [apply orphan_settle|];
      (split; simpl; [by rewrite lookup_insert_ne|]); [destruct (a_keep cb)|]; set_solver.
  - destruct (exists_ w); [|done]. split; [|done]. apply orphan_settle. split; [done|]. simpl. set_solver.
  - case_decide; [|done]. split; [|done]. split; [|done]. by apply lookup_alter_is_Some.
  - case_decide; [|done]. split; [|done]. split; [|done]. by apply lookup_alter_is_Some.
  - case_decide; [|done]. split; [|done]. split; [|done]. by apply lookup_alter_is_Some.
  - split; [|done]. apply orphan_settle. split; [done|]. simpl. set_solver.
  - unfold peer_closes. destruct (internals w !! j) as [c|] eqn:Ej; [|done].
    destruct (notifies (_socket c)) eqn:En; (split; [split; [by apply lookup_alter_is_Some|done]|]); [|done].
    unfold fired_for. simpl. destruct (_disconnectCallback c); [|done]. rewrite filter_app. simpl.
    rewrite filter_cons_False, app_nil_r; [done|]. simpl. intros ->.
    destruct (life_dropped _ Hw _ _ Ej Hn) as (_ & _ & Hopen). unfold notifies in En. by rewrite Hopen in En.
Qed.

(** C14. A dropped connection is disconnected and stays silent: as soon as neither
    the server nor user code refers to a connection, its socket is closed and
    holds no callback, and whatever happens afterwards that does not change
    and its disconnect callback does not run again. *)
Theorem dropped_connection_silent (es es' : list event) (id : nat) (c : Connection)
  (Hc : internals (run es create) !! id = Some c)
  (Hdrop : id ∉ _connections (run es create) ∪ held (run es create)) :
  released c /\
  fired_for id (run (es ++ es') create) = fired_for id (run es create) /\
  exists c', internals (run (es ++ es') create) !! id = Some c' /\ released c'.
Proof.
  pose proof (run_life es create create_life) as Hw. split; [by eapply life_dropped|].
  assert (orphan id (run es create)) as Ho by (split; [by eexists|done]). clear Hc Hdrop.
  unfold run. rewrite foldl_app. fold (run es create). revert Hw Ho. generalize (run es create).
  induction es' as [|e es' IH]; intros w Hw Ho; simpl.
  - split; [done|]. destruct Ho as [[c' Hc'] Hn]. exists c'. split; [done|]. by eapply life_dropped.
  - destruct (orphan_step id w e Hw Ho) as [Ho' Hf]. destruct (IH _ (step_life w e Hw) Ho') as [Hf' Hex].
    split; [congruence|done].
Qed.

Lemma gone_server_step w e : life w -> exists_ w = false ->
  next_id (step w e) = next_id w /\ exists_ (step w e) = false.
Proof.
  intros Hw He. destruct e as [|cb| | |j|j|j cb|j|j]; simpl; rewrite ?He; try done; try (by case_decide).
  - by rewrite (proj1 (life_gone _ Hw He)).
  - unfold peer_closes. destruct (internals w !! j); [|done]. by destruct (notifies _).
Qed.

(** A destroyed server accepts nothing any more, and of its connections only
    those user code keeps a reference to are still up. *)
Theorem destroyed_server_silent (es es' : list event) :
  let w := run (es ++ [Destroy]) create in
  let w' := run es' w in
  next_id w' = next_id w /\ _connections w' = ∅ /\
  forall id c, internals w' !! id = Some c -> id ∉ held w' -> released c.
Proof.
  intros w w'. assert (life w) as Hw by apply run_life, create_life.
  assert (exists_ w = false) as He.
  { unfold w, run. rewrite foldl_app. simpl. by destruct (exists_ (foldl step create es)) eqn:?. }
  clearbody w. assert (next_id w' = next_id w /\ exists_ w' = false) as [Hn He'].
  { unfold w'. clear w'. revert w Hw He. induction es' as [|e es'' IH]; intros w Hw He; [done|]. simpl.
    destruct (gone_server_step w e Hw He) as [<- He']. exact (IH _ (step_life w e Hw) He'). }
  assert (life w') as Hw' by (by apply run_life). destruct (life_gone _ Hw' He') as [_ Hc].
  split_and!; [done|done|]. intros id c Hid Hh. apply (life_dropped _ Hw' id c Hid). set_solver.
Qed.

(** [n] clients come and go. *)
Definition visits (n : nat) : list event := Start :: ((fun i => [Accept; PeerCloses i]) <$> seq 0 n) ≫= id.

Lemma visits_state n : let w := run (visits n) create in
  _connections w = set_seq 0 n /\ next_id w = n /\ listening w = true /\ _acceptCallback w = None /\
  forall id c, internals w !! id = Some c -> (id < n)%nat /\ k_open (_socket c) = false.
Proof.
  induction n as [|n IH]; [by split_and!|]. cbn zeta in *. unfold visits in *.
  rewrite seq_S, fmap_app, bind_app. cbn [plus]. unfold run in *. rewrite app_comm_cons, foldl_app.
  destruct IH as (Hc & Hn & Hl & Ha & Hi). set (w := foldl step create _) in *. clearbody w.
  cbn. rewrite Hl. unfold onAccept. rewrite Ha, Hn. unfold peer_closes. simpl. rewrite lookup_insert_eq. simpl.
  split_and!; [rewrite Hc; symmetry; exact (set_seq_S_end_union_L 0 n)|done|done|done|].
  intros j c [[-> (c0 & Hc0 & ->)]|[Hne Hc0]]%lookup_alter_Some; [split; [lia|done]|].
  rewrite lookup_insert_ne in Hc0 by done. destruct (Hi _ _ Hc0). split; [lia|done].
Qed.

(** Connections that were closed by their clients are never forgotten: without
    an accept callback, a server that has served [n] clients, all of them
    gone, still holds [n] connections. *)
Theorem closed_connections_kept (n : nat) :
  let w := run (visits n) create in
  size (_connections w) = n /\
  forall id c, internals w !! id = Some c -> k_open (_socket c) = false.
Proof.
  destruct (visits_state n) as (Hc & _ & _ & _ & Hi). cbn zeta. rewrite Hc, size_set_seq. split; [done|].
  intros id c Hid. by destruct (Hi id c Hid).
Qed.

End ServerProps.

Section ClientProps.
Import Rpc ClientLife ClientLifeFacts.
Context {Obj : Type} `{Msgpack Obj}.

(** C15. Destroying a client leaves nothing behind: whatever was done with it
    before, every call it made is answered or its answer is about to be
    delivered, its socket is closed and nothing refers to its internals any
    more; and whatever happens afterwards, that stays so and no disconnect
    callback runs. *)
Theorem destroyed_client_quiet (es es' : list event) (c c' c'' : client)
  (Hshort : Z.of_nat (length es) + Z.of_nat (length es') + 1 < 2 ^ 64)
  (Hrun : run es create = Ok c) (Hexists : handle c = true) (Hdestroy : step c Destroy = Ok c')
  (Hafter : run es' c' = Ok c'') :
  (forall i, (i < c_next (internal c'))%nat ->
     is_Some (c_futures (internal c') !! i) \/ i ∈ (c_tasks (internal c')).*1) /\
  internal_alive c'' = false /\ fired c'' = fired c.
Proof.
  destruct (run_sound es create c create_sound) as [Hs Hn]; [simpl; lia|done|]. simpl in Hn.
  destruct (step_sound Destroy c c' Hs ltac:(lia) Hdestroy) as [Hs' Hn'].
  cbn [step] in Hdestroy. rewrite Hexists in Hdestroy. injection Hdestroy as <-. split.
  - intros i Hi. destruct Hs' as [Hb _]. destruct (booked_tracked _ Hb i Hi) as [?|[?|[id Hid]]]; auto. done.
  - assert (forall d d', sound d -> handle d = false -> Z.of_nat (c_next (internal d)) + Z.of_nat (length es') < 2 ^ 64 ->
      run es' d = Ok d' -> internal_alive d' = internal_alive d /\ fired d' = fired d) as Hall.
    { clear. induction es' as [|e es' IH]; intros d d' Hd Hh Hlt Hrun; cbn [run length] in *; [by inv_ok|].
      destruct (step d e) as [d1|] eqn:E; [|done]. destruct (step_sound e d d1 Hd ltac:(lia) E) as [Hd1 Hle].
      destruct (gone_step e d d1 Hd Hh E) as (Hh1 & Hf1 & Ha1).
      destruct (IH d1 d' Hd1 Hh1 ltac:(lia) Hrun) as [-> ->]. done. }
    by destruct (Hall _ _ Hs' eq_refl ltac:(lia) Hafter) as [-> ->].
Qed.

(** C16. A client whose server is gone does not find out: when the other side
    closes the connection, a call that is waiting for its answer, or that is
    made afterwards, stays unresolved through all that follows, until the
    client itself is disconnected or destroyed. *)
Theorem peer_close_hangs (es es' : list event) (c c'' : client) (id : Z) (f : nat)
  (Hshort : Z.of_nat (length es) + Z.of_nat (length es') + 1 < 2 ^ 64)
  (Hrun : run es create = Ok c) (Hclose : k_open (socket c) = false)
  (Hpending : _respCallbacks (internal c) !! id = Some f)
  (Hno : Forall (fun e => e <> Disconnect /\ e <> Destroy) es') (Hafter : run es' c = Ok c'') :
  c_futures (internal c'') !! f = None /\ _respCallbacks (internal c'') !! id = Some f.
Proof.
  destruct (run_sound es create c create_sound) as [Hs Hn]; [simpl; lia|done|]. simpl in Hn.
  assert (Z.of_nat (c_next (internal c)) + Z.of_nat (length es') < 2 ^ 64) as Hlt by lia. clear Hrun Hshort Hn.
  revert c Hs Hclose Hpending Hlt Hafter. induction es' as [|e es' IH]; intros d Hd Ho Hp Hlt Hrun; cbn [run length] in *.
  - inv_ok. split; [|done]. by destruct (booked_pending _ (sound_booked _ Hd) _ _ Hp) as (_ & _ & _ & ?).
  - apply Forall_cons in Hno as [[Hd1 Hd2] Hno]. destruct (step d e) as [d1|] eqn:E; [|done].
    destruct (step_sound e d d1 Hd ltac:(lia) E) as [Hsd Hle].
    destruct (closed_step e d d1 id f Hd ltac:(lia) Ho Hp Hd1 Hd2 E) as [Ho1 Hp1].
    by apply (IH Hno d1); [| | |lia|].
Qed.

End ClientProps.

(** ** Witnesses *)

Definition keeper : ServerLife.accept_callback := ServerLife.AcceptCallback (Some 5%nat) true true.

Lemma dropped_connection_silent_witness :
  let es := [ServerLife.Start; ServerLife.SetAcceptCallback (Some keeper); ServerLife.Accept; ServerLife.Forget 0] in
  exists c, ServerLife.internals (ServerLife.run es ServerLife.create) !! 0%nat = Some c /\
    ServerLifeFacts.released c.
Proof.
  intros es.
  exists (ServerLife.mkConnection (mkSocket false false true false) (Some 5%nat)). split; [reflexivity|].
  apply (dropped_connection_silent es [ServerLife.PeerCloses 0] 0).
  - reflexivity.
  - by apply (bool_decide_unpack _).
Defined.

Import Rpc MiniPack ClientLife.

Definition called : list event := [Start; Call "put" [1]; Receive (mini_response 7 [0]); PeerCloses; Call "get" [2]].

Definition client_of (es : list event) : client :=
  match run es create with Ok c => c | Fault _ => create end.

Lemma destroyed_client_quiet_witness :
  internal_alive (client_of (called ++ [Destroy; PeerCloses; Call "late" []])) = false.
Proof.
  apply (destroyed_client_quiet called [PeerCloses; Call "late" []] (client_of called)
           (client_of (called ++ [Destroy])) (client_of (called ++ [Destroy; PeerCloses; Call "late" []]))).
  - vm_compute. reflexivity.
  - vm_compute. reflexivity.
  - vm_compute. reflexivity.
  - vm_compute. reflexivity.
  - vm_compute. reflexivity.
Defined.

Lemma peer_close_hangs_witness :
  c_futures (internal (client_of (called ++ [Start; Work 0]))) !! 1%nat = None.
Proof.
  apply (peer_close_hangs called [Start; Work 0] (client_of called)
           (client_of (called ++ [Start; Work 0])) 1 1).
  - vm_compute. reflexivity.
  - vm_compute. reflexivity.
  - vm_compute. reflexivity.
  - vm_compute. reflexivity.
  - repeat constructor; discriminate.
  - vm_compute. reflexivity.
Defined.

End LifeProps.
