(* ===== verification/RpcBenchmark.v ===== *)
(** * The RPC benchmark (src/src/rpc/rpc_benchmark.cc)

    Sixteen clients call one function of one server 62500 times each and check
    every answer.  The whole test runs on the network of [RpcNet]: the main
    thread that launches the clients and waits for them, the loops of
    [StartRPCs] that workers execute while others already deliver answers, and
    the callbacks [checkValue], whose [CHECK_EQ] aborts the process.  A
    [CountingNotification] is the number of signals it still waits for, until
    it is deleted.  The numbers of clients and calls are parameters. *)

From S2P Require Import Prelude CppString Rpc RpcNet RpcComplete.
From Stdlib Require Import ZArith Lia Ascii.
From stdpp Require Import base gmap strings fin_maps numbers relations list.

Local Open Scope Z_scope.

Module Benchmark.
Import Rpc Net DrainFacts.

Definition kNumThreads : nat := 16.
Definition kNumCalls : Z := 1000000.
Definition calls_per_client : nat := Z.to_nat (kNumCalls / Z.of_nat kNumThreads).

Section Program.
Context {Obj : Type} `{Msgpack Obj} `{Packable Z, Packable (Z * Z)}.

(** [a + b] on [int]s. *)
Definition add_int (a b : Z) : outcome Z :=
  if (INT_MIN <=? a + b) && (a + b <=? INT_MAX) then Ok (a + b) else Fault SignedOverflow.

Definition addArgs2 (p : Z * Z) (st : unit) : outcome (Z * unit) := r ← add_int p.1 p.2; Ok (r, st).

Definition funcs : gmap string (RPCFunc unit) := registerFunction "addArgs2" addArgs2 ∅.

(** What the callbacks share: the signals each notification still waits for,
    and [global_cnt]. *)
Record counters : Type := Counters { waiting : gmap nat Z; global_cnt : Z }.

(** [n->signal()]. *)
Definition signal (n : nat) (c : counters) : outcome counters :=
  match waiting c !! n with
  | Some k => Ok (Counters (<[n := k - 1]> (waiting c)) (global_cnt c))
  | None => Fault UseAfterFree
  end.

(** The callback of one call up to the point where it takes the mutex:
    [CHECK_EQ] throws when the values differ. *)
Definition checkValue (expected : Z) (n : nat) (actual : Z) (c : counters) : outcome counters :=
  if expected =? actual then signal n c else Fault Throws.

(** And the rest of it, [global_cnt++] under the mutex. *)
Definition count_answer (c : counters) : outcome counters :=
  g ← add_int (global_cnt c) 1; Ok (Counters (waiting c) g).

(** Iteration [i] of the loop of [StartRPCs], if there is one: the future with
    the value its callback expects, the bytes written, and the client. *)
Definition StartRPCs (numCalls i : nat) (cl : Client) : option (nat * Z * list Z * Client) :=
  if (i <? numCalls)%nat
  then let '(f, bytes, cl) := call "addArgs2" (pack (Z.of_nat i, Z.of_nat i + 1)) cl in
       Some (f, 2 * Z.of_nat i + 1, bytes, cl)
  else None.

(** The request of that iteration, and all those before it. *)
Definition request_at (i : nat) : string * list Z := ("addArgs2"%string, pack (Z.of_nat i, Z.of_nat i + 1)).
Definition requests (numCalls : nat) : list (string * list Z) := request_at <$> seq 0 numCalls.

(** Where the main thread is: launching client [i], waiting for client [i], or
    at the end, where the mutex has been destroyed. *)
Inductive stage : Type := Launching (i : nat) | Waiting (i : nat) | Finished.

(** The network, the loops of [StartRPCs] that are not at their end with their
    next iteration, the callbacks that have not run, with their client, their
    future and the value they expect, the number of callbacks that have
    signalled and not counted, the counters, and the main thread. *)
Record test : Type := mkTest {
  t_net : net unit;
  t_todo : gmap nat nat;
  t_attached : list (nat * (nat * Z));
  t_counting : Z;
  t_counters : counters;
  t_main : stage
}.

Definition TEST : test := mkTest (init funcs tt) ∅ [] 0 (Counters ∅ 0) (Launching 0).

Definition set_link (k : nat) (l : link unit) (n : net unit) : net unit :=
  mkNet (n_funcs n) (n_state n) (<[k := l]> (n_links n)).

Section Threads.
Context (threads numCalls : nat).

(** One step of the program, by the main thread or a worker.  [run_server]
    stands for a function of the server that faults; the other steps of the
    workers are those of [RpcNet] ([works]). *)
Inductive test_step (t : test) : outcome test -> Prop :=
  | main_launches i : t_main t = Launching i -> (i < threads)%nat ->
      test_step t (Ok (mkTest
        (mkNet (n_funcs (t_net t)) (n_state (t_net t)) (n_links (t_net t) ++ [new_link (n_funcs (t_net t))]))
        (<[i := O]> (t_todo t)) (t_attached t) (t_counting t)
        (Counters (<[i := Z.of_nat numCalls]> (waiting (t_counters t))) (global_cnt (t_counters t)))
        (Launching (S i))))
  | main_launched i : t_main t = Launching i -> ~ (i < threads)%nat ->
      test_step t (Ok (mkTest (t_net t) (t_todo t) (t_attached t) (t_counting t) (t_counters t) (Waiting 0)))
  | main_waited i l : t_main t = Waiting i -> (i < threads)%nat ->
      waiting (t_counters t) !! i = Some 0 -> n_links (t_net t) !! i = Some l ->
      test_step t (Ok (mkTest
        (set_link i (mkLink (client_disconnect (n_client l)) (n_server l) (n_c2s l) (n_s2c l) (n_calls l)) (t_net t))
        (t_todo t) (t_attached t) (t_counting t)
        (Counters (delete i (waiting (t_counters t))) (global_cnt (t_counters t))) (Waiting (S i))))
  | main_finished i : t_main t = Waiting i -> ~ (i < threads)%nat ->
      test_step t (Ok (mkTest (t_net t) (t_todo t) (t_attached t) (t_counting t) (t_counters t) Finished))
  | start_calls k i l f e bytes cl : t_todo t !! k = Some i -> n_links (t_net t) !! k = Some l ->
      StartRPCs numCalls i (n_client l) = Some (f, e, bytes, cl) ->
      test_step t (Ok (mkTest
        (set_link k (mkLink cl (n_server l) (n_c2s l ++ bytes) (n_s2c l) (n_calls l ++ [request_at i])) (t_net t))
        (<[k := S i]> (t_todo t)) (t_attached t ++ [(k, (f, e))]) (t_counting t) (t_counters t) (t_main t)))
  | start_ends k i l : t_todo t !! k = Some i -> n_links (t_net t) !! k = Some l ->
      StartRPCs numCalls i (n_client l) = None ->
      test_step t (Ok (mkTest (t_net t) (delete k (t_todo t)) (t_attached t) (t_counting t) (t_counters t) (t_main t)))
  | run_worker k l l' st' : n_links (t_net t) !! k = Some l -> works (l, n_state (t_net t)) (l', st') ->
      test_step t (Ok (mkTest (mkNet (n_funcs (t_net t)) st' (<[k := l']> (n_links (t_net t))))
        (t_todo t) (t_attached t) (t_counting t) (t_counters t) (t_main t)))
  | run_server k l i f : n_links (t_net t) !! k = Some l ->
      server_run i (n_server l) (n_state (t_net t)) = Fault f -> test_step t (Fault f)
  | run_callback p k f e l v : t_attached t !! p = Some (k, (f, e)) -> n_links (t_net t) !! k = Some l ->
      c_futures (n_client l) !! f = Some v ->
      test_step t (actual ← deserializeFuture v;
                   c ← checkValue e k actual (t_counters t);
                   Ok (mkTest (t_net t) (t_todo t) (delete p (t_attached t)) (t_counting t + 1) c (t_main t)))
  | run_count : 0 < t_counting t ->
      test_step t (match t_main t with
                   | Finished => Fault UseAfterFree
                   | _ => c ← count_answer (t_counters t);
                          Ok (mkTest (t_net t) (t_todo t) (t_attached t) (t_counting t - 1) c (t_main t))
                   end).

Definition goes (t t' : test) : Prop := test_step t (Ok t').

End Threads.
End Program.
End Benchmark.

Module BenchmarkFacts.
Import Rpc Net LinkFacts NetFacts DrainFacts Benchmark.

Lemma sum_list_insert (l : list nat) k x y :
  l !! k = Some x -> (sum_list (<[k := y]> l) + x = sum_list l + y)%nat.
Proof.
  revert k. induction l as [|z l IH]; intros [|k]; simpl; [done..|intros [= ->]; lia|].
  intros Hk. specialize (IH k Hk). lia.
Qed.

Lemma filter_delete {A} (P : A -> Prop) `{!forall x, Decision (P x)} (l : list A) p x : l !! p = Some x ->
  (length (filter P (delete p l)) + (if decide (P x) then 1 else 0) = length (filter P l))%nat.
Proof.
  intros Hp. assert (length (filter P l) = length (filter P (x :: delete p l))) as ->
    by (by rewrite <- (delete_Permutation l p x Hp)).
  rewrite filter_cons. case_decide; simpl; lia.
Qed.

Section Facts.
Context {Obj : Type} `{Msgpack Obj} `{!MsgpackLaws Obj} `{Packable Z, Packable (Z * Z)}.

Lemma funcs_add : funcs !! "addArgs2"%string = Some (deserializeArgs addArgs2).
Proof. apply lookup_insert_eq. Qed.

Lemma add_int_ok a b : INT_MIN <= a + b <= INT_MAX -> add_int a b = Ok (a + b).
Proof. intros Hi. unfold add_int. by rewrite (proj2 (Z.leb_le _ _)), (proj2 (Z.leb_le _ _)) by lia. Qed.

(** What a call of the benchmark returns. *)
Lemma add_runs (i : nat) st : Z.of_nat i < 2 ^ 30 - 1 ->
  deserializeArgs addArgs2 (request_at i).2 st = Ok (pack (2 * Z.of_nat i + 1), st).
Proof.
  intros Hi. unfold deserializeArgs, request_at. cbn [snd]. rewrite unpack_pack. unfold addArgs2. cbn [fst snd].
  rewrite add_int_ok by (unfold INT_MIN, INT_MAX; lia). simpl. do 3 f_equal. lia.
Qed.

Lemma elem_of_requests c m : c ∈ requests m <-> exists i, (i < m)%nat /\ c = request_at i.
Proof.
  unfold requests. rewrite list_elem_of_fmap. split.
  - intros (i & -> & Hi%elem_of_seq). exists i. split; [lia|done].
  - intros (i & Hi & ->). exists i. split; [done|]. apply elem_of_seq. lia.
Qed.

Lemma requests_S m : requests (S m) = requests m ++ [request_at m].
Proof. unfold requests. by rewrite seq_S, fmap_app. Qed.

Lemma requests_lookup m i : (i < m)%nat -> requests m !! i = Some (request_at i).
Proof. intros Hi. unfold requests. by rewrite list_lookup_fmap, lookup_seq_lt. Qed.

Lemma requests_length m : length (requests m) = m.
Proof. unfold requests. by rewrite length_fmap, length_seq. Qed.

Lemma requests_known m : known (requests m) funcs.
Proof.
  intros name args (i & _ & [= -> _])%elem_of_requests. apply elem_of_dom. eexists. apply funcs_add.
Qed.

Lemma requests_return m : Z.of_nat m < 2 ^ 30 -> returns funcs (fun _ => True) (requests m).
Proof.
  intros Hm name args func st (i & Hi & Heq)%elem_of_requests Hf _.
  assert (args = (request_at i).2) as -> by (by rewrite <- Heq).
  assert (name = "addArgs2"%string) as -> by (by injection Heq).
  pose proof (eq_trans (eq_sym Hf) funcs_add) as [= ->]. rewrite add_runs by lia. eauto.
Qed.

(** *** The invariant of the test *)

Section Invariant.
Context (threads numCalls : nat) (Hsize : Z.of_nat threads * Z.of_nat numCalls < 2 ^ 30).

Definition launched (t : test) : nat := match t_main t with Launching i => i | _ => threads end.
Definition waited (t : test) : nat :=
  match t_main t with Launching _ => 0 | Waiting i => i | Finished => threads end.

(** The callbacks of client [k] that have not run. *)
Definition open_callbacks (t : test) (k : nat) : nat := length (filter (fun x => x.1 = k) (t_attached t)).

Definition total_calls (n : net unit) : nat := sum_list ((fun l => length (n_calls l)) <$> n_links n).

(** A client that has made [length (n_calls l)] calls: one the main thread has
    let go of has made all of them, and their callbacks have run; for
    the others the notification waits for the callbacks that are left. *)
Definition client_ok (t : test) (k : nat) (l : link unit) : Prop :=
  n_calls l = requests (length (n_calls l)) /\ default numCalls (t_todo t !! k) = length (n_calls l) /\
  (length (n_calls l) <= numCalls)%nat /\
  if decide (k < waited t)%nat
  then waiting (t_counters t) !! k = None /\ length (n_calls l) = numCalls /\ open_callbacks t k = 0%nat
  else waiting (t_counters t) !! k =
         Some (Z.of_nat numCalls - Z.of_nat (length (n_calls l)) + Z.of_nat (open_callbacks t k)) /\
       c_connected (n_client l) = true.

Record ok_test (t : test) : Prop := {
  ot_net : rtc step (init funcs tt) (t_net t);
  ot_main : (launched t <= threads)%nat /\ (waited t <= launched t)%nat;
  ot_links : length (n_links (t_net t)) = launched t;
  ot_client k l : n_links (t_net t) !! k = Some l -> client_ok t k l;
  ot_attached k f e : (k, (f, e)) ∈ t_attached t ->
    e = 2 * Z.of_nat f + 1 /\ exists l, n_links (t_net t) !! k = Some l /\ (f < length (n_calls l))%nat;
  ot_count : 0 <= t_counting t /\ 0 <= global_cnt (t_counters t) /\
    global_cnt (t_counters t) + t_counting t + Z.of_nat (length (t_attached t)) = Z.of_nat (total_calls (t_net t))
}.

Lemma ok_TEST : ok_test TEST.
Proof.
  split; [apply rtc_refl|cbn; lia|done|done| |done]. intros k f e Hin. by apply elem_of_nil in Hin.
Qed.

Lemma clients_small t k l : ok_test t -> n_links (t_net t) !! k = Some l -> Z.of_nat numCalls < 2 ^ 30.
Proof using Hsize.
  intros Ht Hl. apply lookup_lt_Some in Hl. destruct Ht as [_ [Hle _] Hlen _ _ _]. rewrite Hlen in Hl. nia.
Qed.

(** The main thread still waits for a client with callbacks that have not run. *)
Lemma attached_waiting t k f e l : ok_test t -> (k, (f, e)) ∈ t_attached t -> n_links (t_net t) !! k = Some l ->
  ~ (k < waited t)%nat.
Proof.
  intros Ht Hin Hl Hk. destruct (ot_client t Ht k l Hl) as (_ & _ & _ & Hw). rewrite decide_True in Hw by done.
  destruct Hw as (_ & _ & Ho). unfold open_callbacks in Ho. apply nil_length_inv in Ho.
  assert ((k, (f, e)) ∈ filter (fun x => x.1 = k) (t_attached t)) as Hbad by (by apply list_elem_of_filter).
  rewrite Ho in Hbad. by apply elem_of_nil in Hbad.
Qed.

(** *** Nothing goes wrong *)

(** A callback that runs gets the value it expects. *)
Lemma callback_value t k f e l v : ok_test t -> (k, (f, e)) ∈ t_attached t ->
  n_links (t_net t) !! k = Some l -> c_futures (n_client l) !! f = Some v -> v = Some (pack e).
Proof using MsgpackLaws0 Hsize.
  intros Ht Hin Hl Hv. destruct (ot_attached t Ht k f e Hin) as (-> & l' & Hl' & Hf). simplify_eq.
  destruct (ot_client t Ht k l Hl) as (Hc & _ & Hle & Hw). 
  rewrite decide_False in Hw by (by eapply attached_waiting).
  destruct (good_reach funcs tt _ (ot_net t Ht)) as [Hfn [log Hg]].
  destruct (good_links _ _ _ Hg k l Hl) as [(pend & resps & Hcore & _) _].
  destruct v as [raw|]; [|destruct (core_set _ _ _ _ _ _ Hcore _ _ Hv); destruct Hw; congruence].
  pose proof (good_linearised _ _ _ Hg) as Hlin. pose proof (lin_answers _ _ _ Hlin k l f raw Hl Hv) as Hlog.
  apply list_elem_of_split in Hlog as (before & after & ->).
  destruct (linearised_at _ _ _ _ _ _ Hlin) as (name & args & func & st & st' & Hcall & Hfunc & _ & Hr).
  unfold call_of in Hcall. simpl in Hcall. rewrite Hl in Hcall. simpl in Hcall.
  rewrite Hc, requests_lookup in Hcall by done. injection Hcall as <- <-.
  rewrite Hfn in Hfunc. pose proof (eq_trans (eq_sym Hfunc) funcs_add) as [= ->]. pose proof (clients_small t k l Ht Hl).
  change (pack (Z.of_nat f, Z.of_nat f + 1)) with (request_at f).2 in Hr.
  rewrite add_runs in Hr by lia. by injection Hr as <- _.
Qed.


(** The signal of a callback that runs. *)
Lemma callback_signals t k f e l v : ok_test t -> (k, (f, e)) ∈ t_attached t ->
  n_links (t_net t) !! k = Some l -> c_futures (n_client l) !! f = Some v ->
  exists w, waiting (t_counters t) !! k = Some w /\ deserializeFuture v = Ok e /\
    checkValue e k e (t_counters t) =
      Ok (Counters (<[k := w - 1]> (waiting (t_counters t))) (global_cnt (t_counters t))).
Proof using MsgpackLaws0 Hsize.
  intros Ht Hin Hl Hv. rewrite (callback_value t k f e l v Ht Hin Hl Hv).
  destruct (ot_client t Ht k l Hl) as (_ & _ & _ & Hw). 
  rewrite decide_False in Hw by (by eapply attached_waiting).
  destruct Hw as [Hw _]. eexists. split; [exact Hw|]. split; [simpl; by rewrite unpack_pack|].
  unfold checkValue, signal. by rewrite Z.eqb_refl, Hw.
Qed.

(** *** Every step keeps the invariant *)

Lemma client_ok_ext t t' k l l' : client_ok t k l ->
  t_todo t' !! k = t_todo t !! k -> waited t' = waited t -> waiting (t_counters t') !! k = waiting (t_counters t) !! k ->
  open_callbacks t' k = open_callbacks t k -> n_calls l' = n_calls l ->
  c_connected (n_client l') = c_connected (n_client l) -> client_ok t' k l'.
Proof. unfold client_ok. by intros Hc -> -> -> -> -> ->. Qed.

(** A step that changes one client, and perhaps the counters. *)
Lemma one_client t t' k l l' st' :
  ok_test t -> n_links (t_net t) !! k = Some l ->
  t_net t' = mkNet (n_funcs (t_net t)) st' (<[k := l']> (n_links (t_net t))) ->
  step (t_net t) (t_net t') -> launched t' = launched t -> (waited t' <= launched t')%nat ->
  client_ok t' k l' -> (length (n_calls l) <= length (n_calls l'))%nat ->
  (forall j, j <> k -> t_todo t' !! j = t_todo t !! j /\ ((j < waited t')%nat <-> (j < waited t)%nat) /\
     waiting (t_counters t') !! j = waiting (t_counters t) !! j /\ open_callbacks t' j = open_callbacks t j) ->
  (forall j f e, (j, (f, e)) ∈ t_attached t' -> (j, (f, e)) ∈ t_attached t \/
     j = k /\ e = 2 * Z.of_nat f + 1 /\ (f < length (n_calls l'))%nat) ->
  0 <= t_counting t' -> 0 <= global_cnt (t_counters t') ->
  global_cnt (t_counters t') + t_counting t' + Z.of_nat (length (t_attached t')) + Z.of_nat (length (n_calls l)) =
  global_cnt (t_counters t) + t_counting t + Z.of_nat (length (t_attached t)) + Z.of_nat (length (n_calls l')) ->
  ok_test t'.
Proof.
  intros Ht Hl Hnet Hstep Hla Hwa Hck Hgrow Hother Hatt Hc0 Hg0 Hsum.
  assert (k < length (n_links (t_net t)))%nat as Hlt by (by eapply lookup_lt_Some).
  split; rewrite ?Hnet in *.
  - eapply rtc_r; [apply (ot_net t Ht)|done].
  - rewrite Hla. split; [apply (ot_main t Ht)|]. by rewrite Hla in Hwa.
  - cbn [n_links]. rewrite length_insert, Hla. apply (ot_links t Ht).
  - cbn [n_links]. intros j lj. destruct (decide (j = k)) as [->|Hne].
    + rewrite list_lookup_insert_eq by done. by intros [= <-].
    + rewrite list_lookup_insert_ne by done. intros Hj. destruct (Hother j Hne) as (E1 & E2 & E3 & E4).
      pose proof (ot_client t Ht j lj Hj) as Hok. unfold client_ok in *. rewrite E1, E3, E4.
      destruct Hok as (? & ? & ? & Hw). split_and!; [done..|]. by rewrite (decide_ext _ (j < waited t)%nat) by done.
  - cbn [n_links]. intros j f e [Hin|(-> & -> & Hf)]%Hatt.
    + destruct (ot_attached t Ht j f e Hin) as (-> & lj & Hj & Hf). split; [done|].
      destruct (decide (j = k)) as [->|Hne].
      * exists l'. rewrite list_lookup_insert_eq by done. simplify_eq. split; [done|lia].
      * exists lj. by rewrite list_lookup_insert_ne.
    + split; [done|]. exists l'. by rewrite list_lookup_insert_eq.
  - split_and!; [done..|]. destruct (ot_count t Ht) as (_ & _ & Hcount). unfold total_calls in *. cbn [n_links].
    rewrite list_fmap_insert.
    pose proof (sum_list_insert ((fun l => length (n_calls l)) <$> n_links (t_net t)) k (length (n_calls l))
                  (length (n_calls l'))) as Hs. rewrite list_lookup_fmap, Hl in Hs. specialize (Hs eq_refl). lia.
Qed.

(** The main thread launches a client. *)
Lemma launches_ok t i : ok_test t -> t_main t = Launching i -> (i < threads)%nat ->
  ok_test (mkTest
    (mkNet (n_funcs (t_net t)) (n_state (t_net t)) (n_links (t_net t) ++ [new_link (n_funcs (t_net t))]))
    (<[i := O]> (t_todo t)) (t_attached t) (t_counting t)
    (Counters (<[i := Z.of_nat numCalls]> (waiting (t_counters t))) (global_cnt (t_counters t))) (Launching (S i))).
Proof.
  intros Ht Hm Hi. set (t' := mkTest _ _ _ _ _ _).
  assert (length (n_links (t_net t)) = i) as Hlen.
  { rewrite (ot_links t Ht). unfold launched. by rewrite Hm. }
  assert (open_callbacks t i = 0%nat) as Hnone.
  { unfold open_callbacks. destruct (filter _ _) as [|[k [f e]] l] eqn:E; [done|].
    assert ((k, (f, e)) ∈ filter (fun x => x.1 = i) (t_attached t)) as [Hk Hin]%list_elem_of_filter
      by (rewrite E; left). simpl in Hk. subst k.
    destruct (ot_attached t Ht i f e Hin) as (_ & l' & Hl' & _). apply lookup_lt_Some in Hl'. lia. }
  split; cbn [t' t_net n_links t_attached t_counting t_counters global_cnt].
  - eapply rtc_r; [apply (ot_net t Ht)|]. apply step_connects.
  - unfold launched, waited. simpl. lia.
  - rewrite length_app, Hlen. unfold launched. simpl. lia.
  - intros k l [Hk|[Hge [Hk0 <-]%list_lookup_singleton_Some]]%lookup_app_Some.
    + apply lookup_lt_Some in Hk as Hlt. apply (client_ok_ext t _ k l); [by apply (ot_client t Ht)|..]; try done; simpl.
      * by rewrite lookup_insert_ne by lia.
      * unfold waited. by rewrite Hm.
      * by rewrite lookup_insert_ne by lia.
    + assert (k = i) as -> by lia. unfold client_ok. simpl. rewrite !lookup_insert_eq.
      change (open_callbacks _ i) with (open_callbacks t i). rewrite Hnone.
      split_and!; [done|done|lia|f_equal; lia|done].
  - intros k f e Hin. destruct (ot_attached t Ht k f e Hin) as (? & l & Hl & Hf). split; [done|].
    exists l. split; [by apply lookup_app_l_Some|done].
  - destruct (ot_count t Ht) as (? & ? & Hc). split_and!; [done..|]. rewrite Hc. f_equal.
    unfold total_calls. simpl. rewrite fmap_app, sum_list_with_app. simpl. lia.
Qed.

(** It goes on to wait, or to the end, without touching anything. *)
Lemma main_moves_ok t st : ok_test t ->
  (forall t', t' = mkTest (t_net t) (t_todo t) (t_attached t) (t_counting t) (t_counters t) st ->
     launched t' = launched t /\ waited t' = waited t) ->
  ok_test (mkTest (t_net t) (t_todo t) (t_attached t) (t_counting t) (t_counters t) st).
Proof.
  intros Ht Hst. destruct (Hst _ eq_refl) as [Hla Hwa]. set (t' := mkTest _ _ _ _ _ _) in *. destruct Ht.
  split; rewrite ?Hla, ?Hwa; try done. intros k l Hl. by apply (client_ok_ext t t' k l l); [auto|..].
Qed.

Lemma waited_ok t i l : ok_test t -> t_main t = Waiting i -> (i < threads)%nat ->
  waiting (t_counters t) !! i = Some 0 -> n_links (t_net t) !! i = Some l ->
  ok_test (mkTest
    (set_link i (mkLink (client_disconnect (n_client l)) (n_server l) (n_c2s l) (n_s2c l) (n_calls l)) (t_net t))
    (t_todo t) (t_attached t) (t_counting t)
    (Counters (delete i (waiting (t_counters t))) (global_cnt (t_counters t))) (Waiting (S i))).
Proof.
  intros Ht Hm Hi Hw Hl. set (l' := mkLink _ _ _ _ _). destruct (ot_client t Ht i l Hl) as (Hc & Htodo & Hle & Hwait).
  assert (waited t = i) as Hwt by (unfold waited; by rewrite Hm). rewrite decide_False in Hwait by lia.
  destruct Hwait as [Hwait _]. rewrite Hw in Hwait. injection Hwait as Hzero.
  apply (one_client t _ i l l' (n_state (t_net t)) Ht Hl).
  - done.
  - by apply (step_link (t_net t) i l None), step_client_disconnects.
  - unfold launched. by rewrite Hm.
  - unfold launched, waited. simpl. lia.
  - split_and!; [done|done|done|]. rewrite decide_True by (unfold waited; simpl; lia).
    split_and!; [apply lookup_delete_eq|simpl; lia|]. change (open_callbacks _ i) with (open_callbacks t i). lia.
  - done.
  - intros j Hj. split_and!; [done| |by apply lookup_delete_ne|done]. unfold waited in *. rewrite Hm. simpl. lia.
  - intros j f e Hin. by left.
  - apply (ot_count t Ht).
  - apply (ot_count t Ht).
  - done.
Qed.

Lemma calls_ok t k i l f e bytes cl : ok_test t -> t_todo t !! k = Some i -> n_links (t_net t) !! k = Some l ->
  StartRPCs numCalls i (n_client l) = Some (f, e, bytes, cl) ->
  ok_test (mkTest
    (set_link k (mkLink cl (n_server l) (n_c2s l ++ bytes) (n_s2c l) (n_calls l ++ [request_at i])) (t_net t))
    (<[k := S i]> (t_todo t)) (t_attached t ++ [(k, (f, e))]) (t_counting t) (t_counters t) (t_main t)).
Proof using MsgpackLaws0 Hsize.
  intros Ht Hi Hl Hrun. unfold StartRPCs in Hrun. destruct (i <? numCalls)%nat eqn:Hlt; [|done].
  apply Nat.ltb_lt in Hlt. destruct (ot_client t Ht k l Hl) as (Hc & Htodo & Hle & Hw).
  rewrite Hi in Htodo. simpl in Htodo. pose proof (clients_small t k l Ht Hl) as Hsmall.
  destruct (good_reach funcs tt _ (ot_net t Ht)) as [Hfn [log Hg]].
  destruct (good_links _ _ _ Hg k l Hl) as [(pend & resps & Hcore & _) _].
  pose proof (core_next _ _ _ _ _ _ Hcore) as Hnext.
  destruct (call "addArgs2" (pack (Z.of_nat i, Z.of_nat i + 1)) (n_client l)) as [[f' b'] cl'] eqn:Ecall.
  injection Hrun as <- <- <- <-.
  assert (f' = i) as -> by (unfold call in Ecall; injection Ecall as <- _ _; lia).
  assert (c_connected cl' = c_connected (n_client l)) as Hcon by (unfold call in Ecall; by injection Ecall as _ _ <-).
  assert (~ (k < waited t)%nat) as Hk by (intros Hk; rewrite decide_True in Hw by done; lia).
  rewrite decide_False in Hw by done. destruct Hw as [Hw Hopen].
  set (l' := mkLink _ _ _ _ _).
  apply (one_client t _ k l l' (n_state (t_net t)) Ht Hl).
  - done.
  - apply (step_link (t_net t) k l None); [done|].
    pose proof (step_call l (n_state (t_net t)) "addArgs2" (pack (Z.of_nat i, Z.of_nat i + 1)) ltac:(lia)) as Hs.
    by rewrite Ecall in Hs.
  - done.
  - apply (ot_main t Ht).
  - unfold client_ok. cbn [l' n_calls n_client t_todo t_counters]. rewrite length_app, lookup_insert_eq.
    cbn [length default]. rewrite Nat.add_1_r, requests_S, <- Hc, Htodo. split_and!; [done|done|lia|].
    change (waited _) with (waited t). rewrite decide_False by done. split; [|congruence].
    rewrite Hw. f_equal. unfold open_callbacks. cbn [t_attached]. rewrite filter_app, length_app, filter_cons, decide_True by done.
    simpl. lia.
  - cbn [l' n_calls]. rewrite length_app. lia.
  - intros j Hj. cbn [t_todo]. split_and!; [by apply lookup_insert_ne|done|done|]. unfold open_callbacks. cbn [t_attached].
    rewrite filter_app, filter_cons, decide_False, filter_nil, app_nil_r by (simpl; congruence). done.
  - intros j f e [Hin|[= -> -> ->]%list_elem_of_singleton]%elem_of_app; [by left|right].
    split_and!; [done|done|]. cbn [l' n_calls]. rewrite length_app. simpl. lia.
  - apply (ot_count t Ht).
  - apply (ot_count t Ht).
  - cbn [t_counters t_counting t_attached l' n_calls]. rewrite !length_app. simpl. lia.
Qed.

(** A step that leaves the network and the main thread alone. *)
Lemma same_net t t' :
  ok_test t -> t_net t' = t_net t -> t_main t' = t_main t ->
  (forall k l, n_links (t_net t) !! k = Some l -> client_ok t' k l) ->
  (forall x, x ∈ t_attached t' -> x ∈ t_attached t) ->
  0 <= t_counting t' -> 0 <= global_cnt (t_counters t') ->
  global_cnt (t_counters t') + t_counting t' + Z.of_nat (length (t_attached t')) =
  global_cnt (t_counters t) + t_counting t + Z.of_nat (length (t_attached t)) -> ok_test t'.
Proof.
  intros [Hn Hm Hl Hc Ha (Hc0 & Hg0 & Hs)] En Em Hc' Hsub H0' H1' Hs'.
  assert (launched t' = launched t /\ waited t' = waited t) as [Ela Ewa] by (unfold launched, waited; by rewrite Em).
  split; rewrite ?En, ?Ela, ?Ewa; try done; [intros k f e Hin; by apply Ha, Hsub|split_and!; [done..|lia]].
Qed.

Lemma start_ends_ok t k i l : ok_test t -> t_todo t !! k = Some i -> n_links (t_net t) !! k = Some l ->
  StartRPCs numCalls i (n_client l) = None ->
  ok_test (mkTest (t_net t) (delete k (t_todo t)) (t_attached t) (t_counting t) (t_counters t) (t_main t)).
Proof.
  intros Ht Hi Hl Hrun. unfold StartRPCs in Hrun. destruct (i <? numCalls)%nat eqn:Hlt; [done|].
  apply Nat.ltb_ge in Hlt. destruct (ot_count t Ht) as (? & ? & _).
  apply (same_net t); try done. intros j lj Hj. pose proof (ot_client t Ht j lj Hj) as Hok.
  destruct (decide (j = k)) as [->|Hne].
  - simplify_eq. destruct Hok as (Hc & Htodo & Hle & Hw). rewrite Hi in Htodo. simpl in Htodo.
    split_and!; [done| |done|done]. cbn [t_todo]. rewrite lookup_delete_eq. simpl. lia.
  - apply (client_ok_ext t _ j lj lj Hok); try done. cbn [t_todo]. by apply lookup_delete_ne.
Qed.

Lemma worker_ok t k l l' st' : ok_test t -> n_links (t_net t) !! k = Some l -> works (l, n_state (t_net t)) (l', st') ->
  ok_test (mkTest (mkNet (n_funcs (t_net t)) st' (<[k := l']> (n_links (t_net t))))
    (t_todo t) (t_attached t) (t_counting t) (t_counters t) (t_main t)).
Proof.
  intros Ht Hl ([done Hs] & Hc & Hcon). cbn [fst snd] in *. destruct (ot_count t Ht) as (Hc0 & Hg0 & _).
  apply (one_client t _ k l l' st' Ht Hl); try done; cbn [t_net t_todo t_attached t_counting t_counters t_main].
  - by eapply step_link.
  - apply (ot_main t Ht).
  - apply (client_ok_ext t _ k l l'); try done. by apply (ot_client t Ht).
  - by rewrite Hc.
  - intros j f e Hin. by left.
  - rewrite Hc. lia.
Qed.

Lemma callback_ok t t' p k f e l v : ok_test t -> t_attached t !! p = Some (k, (f, e)) ->
  n_links (t_net t) !! k = Some l -> c_futures (n_client l) !! f = Some v ->
  (actual ← deserializeFuture v;
   c ← checkValue e k actual (t_counters t);
   Ok (mkTest (t_net t) (t_todo t) (delete p (t_attached t)) (t_counting t + 1) c (t_main t))) = Ok t' ->
  ok_test t' /\ global_cnt (t_counters t') = global_cnt (t_counters t) /\ t_net t' = t_net t /\
  t_main t' = t_main t /\ t_todo t' = t_todo t /\ forall j, open_callbacks t' j = (open_callbacks t j - if decide (k = j) then 1 else 0)%nat.
Proof using MsgpackLaws0 Hsize.
  intros Ht Hp Hl Hv Hrun. apply list_elem_of_lookup_2 in Hp as Hin. destruct (ot_count t Ht) as (Hc0 & Hg0 & _).
  pose proof (attached_waiting t k f e l Ht Hin Hl) as Hk.
  destruct (callback_signals t k f e l v Ht Hin Hl Hv) as (w & Hw & Hd & Hcheck). rewrite Hd in Hrun. simpl in Hrun.
  rewrite Hcheck in Hrun. simpl in Hrun. injection Hrun as <-.
  assert (forall j, (length (filter (fun x => x.1 = j) (delete p (t_attached t))) +
    (if decide (k = j) then 1 else 0) = length (filter (fun x => x.1 = j) (t_attached t)))%nat) as Hcount
    by (intros j; rewrite <- (filter_delete (fun x => x.1 = j) _ _ _ Hp); f_equal; by apply decide_ext).
  split_and!; [|done..|].
  - apply (same_net t); try done; cbn [t_attached t_counting t_counters global_cnt]; try lia.
    + intros j lj Hj. pose proof (ot_client t Ht j lj Hj) as Hok. specialize (Hcount j). case_decide as Hjk.
      * subst j. simplify_eq. destruct Hok as (? & ? & ? & Hok). split_and!; [done..|].
        change (waited (mkTest _ _ _ _ _ _)) with (waited t). rewrite decide_False in Hok |- * by done.
        destruct Hok as [Hwt Hopen]. split; [|done]. cbn [t_counters waiting]. rewrite lookup_insert_eq.
        rewrite Hw in Hwt. injection Hwt as ->. f_equal. unfold open_callbacks. cbn [t_attached]. lia.
      * apply (client_ok_ext t _ j lj lj Hok); try done; cbn [t_counters waiting]; [by apply lookup_insert_ne|].
        unfold open_callbacks. cbn [t_attached]. lia.
    + intros x Hx. by apply delete_incl in Hx.
    + rewrite length_delete by eauto. apply lookup_lt_Some in Hp. lia.
  - intros j. specialize (Hcount j). unfold open_callbacks. cbn [t_attached]. lia.
Qed.

Lemma count_ok t c : ok_test t -> 0 < t_counting t -> count_answer (t_counters t) = Ok c ->
  ok_test (mkTest (t_net t) (t_todo t) (t_attached t) (t_counting t - 1) c (t_main t)).
Proof.
  intros Ht Hpos Hrun. destruct (ot_count t Ht) as (Hc0 & Hg0 & _). unfold count_answer, add_int in Hrun.
  destruct (_ && _); [|done]. simpl in Hrun. injection Hrun as <-.
  apply (same_net t); try done; cbn [t_attached t_counting t_counters global_cnt]; try lia.
  intros k l Hl. by apply (client_ok_ext t _ k l l); [apply (ot_client t Ht)|..].
Qed.

Lemma goes_ok t t' : ok_test t -> goes threads numCalls t t' -> ok_test t'.
Proof using MsgpackLaws0 Hsize.
  intros Ht Hgo. unfold goes in Hgo. remember (Ok t') as o eqn:Ho. destruct Hgo as
    [i Hm Hi|i Hm Hi|i l Hm Hi Hw Hl|i Hm Hi|k i l f e bytes cl Hi Hl Hr|k i l Hi Hl Hr|k l l' st' Hl Hw|
     k l i f Hl Hr|p k f e l v Hp Hl Hv|Hpos]; try (injection Ho as <-).
  - by apply launches_ok.
  - apply main_moves_ok; [done|]. intros t0 ->. destruct (ot_main t Ht) as [Hla _].
    unfold launched, waited in *. rewrite Hm in *. simpl. lia.
  - by apply waited_ok.
  - apply main_moves_ok; [done|]. intros t0 ->. destruct (ot_main t Ht) as [_ Hwa].
    unfold launched, waited in *. rewrite Hm in *. simpl. lia.
  - by apply calls_ok.
  - by eapply start_ends_ok.
  - by eapply worker_ok.
  - done.
  - by destruct (callback_ok t t' p k f e l v Ht Hp Hl Hv Ho).
  - destruct (t_main t) eqn:Em; [..|done]; destruct (count_answer (t_counters t)) as [c|] eqn:Ec; try done;
      injection Ho as <-; rewrite <- Em; by apply count_ok.
Qed.


(** *** The test can always be brought to its end

    The strategy: launch the remaining clients; for one client after the other
    make its calls, drain its connection and run its callbacks; then let the
    main thread wait.  None of these steps touches [global_cnt]. *)

Definition quick (t t' : test) : Prop :=
  goes threads numCalls t t' /\ global_cnt (t_counters t') = global_cnt (t_counters t).

Lemma quick_ok t t' : rtc quick t t' -> ok_test t -> ok_test t'.
Proof using MsgpackLaws0 Hsize. induction 1 as [|x y z [Hxy _] _ IH]; [done|]. intros Hx. by eapply IH, goes_ok. Qed.

(** Only client [k] has done something. *)
Definition only (k : nat) (t t' : test) : Prop :=
  t_main t' = t_main t /\ forall j, j <> k ->
    n_links (t_net t') !! j = n_links (t_net t) !! j /\ open_callbacks t' j = open_callbacks t j.

Lemma only_trans k t1 t2 t3 : only k t1 t2 -> only k t2 t3 -> only k t1 t3.
Proof.
  intros [Hm1 H1'] [Hm2 H2']. split; [congruence|]. intros j Hj. destruct (H1' j Hj), (H2' j Hj). split; congruence.
Qed.

Lemma set_link_eq k l l0 n : n_links n !! k = Some l0 -> n_links (set_link k l n) !! k = Some l.
Proof. intros Hk. simpl. apply list_lookup_insert_eq. by eapply lookup_lt_Some. Qed.

Lemma make_calls k m : forall t l, ok_test t -> n_links (t_net t) !! k = Some l ->
  (numCalls - length (n_calls l) = m)%nat ->
  exists t' l', rtc quick t t' /\ only k t t' /\ n_links (t_net t') !! k = Some l' /\ length (n_calls l') = numCalls.
Proof using MsgpackLaws0 Hsize.
  induction m as [|m IH]; intros t l Ht Hl Hm; destruct (ot_client t Ht k l Hl) as (Hc & Htodo & Hle & _).
  - exists t, l. split_and!; [apply rtc_refl|by split|done|lia].
  - destruct (t_todo t !! k) as [i|] eqn:Hi; simpl in Htodo; [|lia].
    destruct (StartRPCs numCalls i (n_client l)) as [[[[f e] bytes] cl]|] eqn:Hr.
    2: { unfold StartRPCs in Hr. destruct (i <? numCalls)%nat eqn:Hlt; [done|]. apply Nat.ltb_ge in Hlt. lia. }
    pose proof (start_calls threads numCalls t k i l f e bytes cl Hi Hl Hr) as Hstep.
    set (t1 := mkTest _ _ _ _ _ _) in Hstep. set (l1 := mkLink cl _ _ _ _) in t1.
    assert (n_links (t_net t1) !! k = Some l1) as Hl1 by (by apply (set_link_eq k l1 l)).
    destruct (IH t1 l1) as (t' & l' & Hrun & Honly & Hl' & Hlen).
    + by eapply goes_ok.
    + done.
    + cbn [l1 n_calls]. rewrite length_app. simpl. lia.
    + exists t', l'. split_and!; [eapply rtc_l; [by split|done]| |done|done].
      apply (only_trans k t t1 t'); [|done]. split; [done|]. intros j Hj. split.
      * simpl. by rewrite list_lookup_insert_ne.
      * unfold open_callbacks. cbn [t1 t_attached].
        by rewrite filter_app, filter_cons, decide_False, filter_nil, app_nil_r by (simpl; congruence).
Qed.

(** The steps of the workers of one connection are steps of the test. *)
Lemma workers_go k (x y : link unit * unit) : rtc works x y -> forall t,
  n_links (t_net t) !! k = Some x.1 -> n_state (t_net t) = x.2 ->
  rtc quick t (mkTest (mkNet (n_funcs (t_net t)) y.2 (<[k := y.1]> (n_links (t_net t))))
                 (t_todo t) (t_attached t) (t_counting t) (t_counters t) (t_main t)).
Proof.
  induction 1 as [x|x z y Hw _ IH]; intros t Hk Hs.
  - rewrite list_insert_id, <- Hs by done. destruct t as [[? ? ?] ? ? ? ? ?]. apply rtc_refl.
  - eapply rtc_l.
    + split; [apply (run_worker threads numCalls t k x.1 z.1 z.2); [done|]|done].
      rewrite Hs, <- !surjective_pairing. done.
    + set (t1 := mkTest _ _ _ _ _ _). pose proof (IH t1) as Hr. cbn [t1 t_net n_links n_state n_funcs] in Hr.
      rewrite list_insert_insert_eq in Hr. apply Hr; [|done].
      apply list_lookup_insert_eq. by eapply lookup_lt_Some.
Qed.

Lemma drain_client t k l : ok_test t -> n_links (t_net t) !! k = Some l -> c_connected (n_client l) = true ->
  exists t' l', rtc quick t t' /\ only k t t' /\ n_links (t_net t') !! k = Some l' /\ n_calls l' = n_calls l /\
    open_callbacks t' k = open_callbacks t k /\
    forall f, (f < length (n_calls l))%nat -> exists raw, c_futures (n_client l') !! f = Some (Some raw).
Proof using MsgpackLaws0 Hsize.
  intros Ht Hl Ho. destruct (ot_client t Ht k l Hl) as (Hc & _ & Hle & _). pose proof (clients_small t k l Ht Hl).
  destruct (drains funcs (fun _ => True) l (n_state (t_net t))) as (l' & st' & Hr & Hlive & _ & Hq & Hcalls).
  - apply (reach_live funcs tt (t_net t) k); [apply (ot_net t Ht)|done| |done]. rewrite Hc. apply requests_known.
  - rewrite Hc. apply requests_return. lia.
  - done.
  - eexists _, l'. split_and!; [by apply (workers_go k _ _ Hr t)| |cbn; eapply list_lookup_insert_eq, lookup_lt_Some, Hl|done|done|].
    + split; [done|]. intros j Hj. split; [|done]. cbn. by rewrite list_lookup_insert_ne.
    + intros f Hf. eapply live_answers; [exact Hlive|done|by rewrite Hcalls].
Qed.

Lemma run_callbacks k m : forall t l, ok_test t -> n_links (t_net t) !! k = Some l -> open_callbacks t k = m ->
  (forall f, (f < length (n_calls l))%nat -> exists raw, c_futures (n_client l) !! f = Some (Some raw)) ->
  exists t', rtc quick t t' /\ only k t t' /\ n_links (t_net t') !! k = Some l /\ open_callbacks t' k = 0%nat.
Proof using MsgpackLaws0 Hsize.
  induction m as [|m IH]; intros t l Ht Hl Hm Hset; [exists t; split_and!; by try apply rtc_refl|].
  assert (exists f e, (k, (f, e)) ∈ t_attached t) as (f & e & Hin).
  { unfold open_callbacks in Hm. destruct (filter _ _) as [|[k' [f e]] r] eqn:E; [done|]. exists f, e.
    assert ((k', (f, e)) ∈ filter (fun x => x.1 = k) (t_attached t)) as [Hk Hin]%list_elem_of_filter
      by (rewrite E; left). simpl in Hk. by subst k'. }
  apply list_elem_of_lookup in Hin as Hp. destruct Hp as [p Hp].
  destruct (ot_attached t Ht k f e Hin) as (_ & lx & Hlx & Hf). rewrite Hl in Hlx. injection Hlx as <-. destruct (Hset f Hf) as [raw Hraw].
  destruct (callback_signals t k f e l _ Ht Hin Hl Hraw) as (w & _ & Hd & Hcheck).
  pose proof (run_callback threads numCalls t p k f e l _ Hp Hl Hraw) as Hstep.
  destruct (callback_ok t (mkTest (t_net t) (t_todo t) (delete p (t_attached t)) (t_counting t + 1)
     (Counters (<[k := w - 1]> (waiting (t_counters t))) (global_cnt (t_counters t))) (t_main t))
     p k f e l _ Ht Hp Hl Hraw) as (Hok & Hg & Hnet & Hmain & _ & Hopen).
  { rewrite Hd. simpl. by rewrite Hcheck. }
  set (t1 := mkTest _ _ _ _ _ _) in *. rewrite Hd in Hstep. simpl in Hstep. rewrite Hcheck in Hstep. simpl in Hstep.
  destruct (IH t1 l Hok Hl) as (t' & Hrun & Honly & Hl' & Hzero); [by rewrite Hopen, decide_True, Hm by done; lia|done|].
  exists t'. split_and!; [eapply rtc_l; [by split|done]| |done|done].
  apply (only_trans k t t1 t'); [|done]. split; [done|]. intros j Hj. split; [done|].
  rewrite Hopen, decide_False by done. lia.
Qed.

(** A client that has made its calls, and whose callbacks have run. *)
Definition settled (t : test) (k : nat) : Prop :=
  exists l, n_links (t_net t) !! k = Some l /\ length (n_calls l) = numCalls /\ open_callbacks t k = 0%nat.

Lemma only_settled k t t' j : only k t t' -> j <> k -> settled t j -> settled t' j.
Proof. intros [_ Hsame] Hj (l & Hl & ? & ?). destruct (Hsame j Hj) as [El Eo]. exists l. by rewrite El, Eo. Qed.

Lemma settle_client t k : ok_test t -> (k < launched t)%nat ->
  exists t', rtc quick t t' /\ only k t t' /\ settled t' k.
Proof using MsgpackLaws0 Hsize.
  intros Ht Hk. rewrite <- (ot_links t Ht) in Hk. apply lookup_lt_is_Some in Hk as [l Hl].
  destruct (decide (k < waited t)%nat) as [Hkw|Hkw].
  { exists t. split_and!; [apply rtc_refl|by split|]. exists l. split; [done|].
    destruct (ot_client t Ht k l Hl) as (_ & _ & _ & Hw). rewrite decide_True in Hw by done. tauto. }
  destruct (make_calls k _ t l Ht Hl eq_refl) as (t1 & l1 & Hr1 & Ho1 & Hl1 & Hn1).
  pose proof (quick_ok _ _ Hr1 Ht) as Ht1.
  assert (waited t1 = waited t) as Hw1 by (unfold waited; by rewrite (proj1 Ho1)).
  destruct (drain_client t1 k l1 Ht1 Hl1) as (t2 & l2 & Hr2 & Ho2 & Hl2 & Hn2 & _ & Hset).
  { destruct (ot_client t1 Ht1 k l1 Hl1) as (_ & _ & _ & Hw). rewrite Hw1, decide_False in Hw by done. tauto. }
  pose proof (quick_ok _ _ Hr2 Ht1) as Ht2.
  destruct (run_callbacks k _ t2 l2 Ht2 Hl2 eq_refl) as (t3 & Hr3 & Ho3 & Hl3 & Hz); [by rewrite Hn2|].
  exists t3. split_and!; [by do 2 (etransitivity; [done|])|by do 2 (eapply only_trans; [done|])|].
  exists l2. split_and!; [done|congruence|done].
Qed.

Lemma settle_all m : forall t, ok_test t -> (m <= launched t)%nat ->
  exists t', rtc quick t t' /\ t_main t' = t_main t /\ forall k, (k < m)%nat -> settled t' k.
Proof using MsgpackLaws0 Hsize.
  induction m as [|m IH]; intros t Ht Hm; [exists t; split_and!; [apply rtc_refl|done|lia]|].
  destruct (IH t Ht) as (t1 & Hr1 & Hm1 & Hs1); [lia|]. pose proof (quick_ok _ _ Hr1 Ht) as Ht1.
  destruct (settle_client t1 m Ht1) as (t2 & Hr2 & Ho & Hs2); [unfold launched in *; rewrite Hm1; lia|].
  exists t2. split_and!; [by etransitivity|rewrite (proj1 Ho); done|]. intros k Hk.
  destruct (decide (k = m)) as [->|Hne]; [done|]. eapply only_settled; [done|done|]. apply Hs1. lia.
Qed.

Lemma wait_all m : forall t i, ok_test t -> t_main t = Waiting i -> (threads - i = m)%nat ->
  (forall k, (k < threads)%nat -> settled t k) ->
  exists t', rtc quick t t' /\ t_main t' = Waiting threads.
Proof using MsgpackLaws0 Hsize.
  induction m as [|m IH]; intros t i Ht Hm Hi Hall; destruct (ot_main t Ht) as [_ Hle];
    unfold launched, waited in Hle; rewrite Hm in Hle.
  - exists t. split; [apply rtc_refl|]. rewrite Hm. f_equal. lia.
  - destruct (Hall i ltac:(lia)) as (l & Hl & Hn & Ho). destruct (ot_client t Ht i l Hl) as (_ & _ & _ & Hw).
    rewrite decide_False in Hw by (unfold waited; rewrite Hm; lia). destruct Hw as [Hw _].
    rewrite Hn, Ho, Z.sub_diag in Hw.
    pose proof (main_waited threads numCalls t i l Hm ltac:(lia) Hw Hl) as Hstep. set (t1 := mkTest _ _ _ _ _ _) in Hstep.
    destruct (IH t1 (S i)) as (t' & Hr & Hend); [by eapply goes_ok|done|lia| |].
    + intros k Hk. destruct (Hall k Hk) as (lk & Hlk & Hnk & Hok). destruct (decide (k = i)) as [->|Hne].
      * eexists. split_and!; [by apply (set_link_eq i _ l)|simpl; congruence|done].
      * exists lk. split_and!; [simpl; by rewrite list_lookup_insert_ne|done|done].
    + exists t'. split; [eapply rtc_l; [by split|done]|done].
Qed.

Lemma launch_all m : forall t i, ok_test t -> t_main t = Launching i -> (threads - i = m)%nat ->
  exists t', rtc quick t t' /\ t_main t' = Waiting 0.
Proof using MsgpackLaws0 Hsize.
  induction m as [|m IH]; intros t i Ht Hm Hi.
  - pose proof (main_launched threads numCalls t i Hm ltac:(lia)) as Hstep.
    eexists. split; [eapply rtc_l; [by split|apply rtc_refl]|done].
  - pose proof (main_launches threads numCalls t i Hm ltac:(lia)) as Hstep. set (t1 := mkTest _ _ _ _ _ _) in Hstep.
    destruct (IH t1 (S i)) as (t' & Hr & Hend); [by eapply goes_ok|done|lia|].
    exists t'. split; [eapply rtc_l; [by split|done]|done].
Qed.

Lemma reach_end t : ok_test t -> t_main t <> Finished ->
  exists t', rtc quick t t' /\ ok_test t' /\ t_main t' = Waiting threads.
Proof using MsgpackLaws0 Hsize.
  intros Ht Hne.
  assert (exists t1 i, rtc quick t t1 /\ t_main t1 = Waiting i) as (t1 & i & Hr1 & Hm1).
  { destruct (t_main t) as [i|i|] eqn:Hm; [|exists t, i; split; [apply rtc_refl|done]|done].
    destruct (launch_all _ t i Ht Hm eq_refl) as (t1 & ? & ?). by exists t1, 0%nat. }
  pose proof (quick_ok _ _ Hr1 Ht) as Ht1.
  destruct (settle_all threads t1 Ht1) as (t2 & Hr2 & Hm2 & Hall); [unfold launched; by rewrite Hm1|].
  pose proof (quick_ok _ _ Hr2 Ht1) as Ht2.
  destruct (wait_all (threads - i) t2 i Ht2) as (t3 & Hr3 & Hm3); [congruence|done|done|].
  exists t3. split_and!; [by do 2 (etransitivity; [done|])|by eapply quick_ok|done].
Qed.

(** When the main thread has waited for all clients, all calls have been made
    and all callbacks have signalled. *)
Lemma sum_list_const (l : list (link unit)) m :
  (forall k x, l !! k = Some x -> length (n_calls x) = m) ->
  sum_list ((fun x => length (n_calls x)) <$> l) = (length l * m)%nat.
Proof.
  induction l as [|x l IH]; intros Hall; [done|]. rewrite fmap_cons. cbn [sum_list_with length Nat.mul].
  rewrite (Hall 0%nat x), IH; [done| |done]. intros k y Hk. by apply (Hall (S k)).
Qed.

Lemma end_counts t : ok_test t -> waited t = threads ->
  t_attached t = [] /\ global_cnt (t_counters t) + t_counting t = Z.of_nat threads * Z.of_nat numCalls.
Proof.
  intros Ht Hw. destruct (ot_main t Ht) as [Hla Hwl]. destruct (ot_count t Ht) as (_ & _ & Hc).
  assert (t_attached t = []) as Hnil.
  { destruct (t_attached t) as [|[k [f e]] r] eqn:E; [done|]. exfalso.
    assert ((k, (f, e)) ∈ t_attached t) as Hin by (rewrite E; left).
    destruct (ot_attached t Ht k f e Hin) as (_ & l & Hl & _). apply (attached_waiting t k f e l Ht Hin Hl).
    apply lookup_lt_Some in Hl. rewrite (ot_links t Ht) in Hl. lia. }
  split; [done|]. rewrite Hnil in Hc. unfold total_calls in Hc. rewrite (sum_list_const _ numCalls) in Hc.
  - rewrite (ot_links t Ht) in Hc. replace (launched t) with threads in Hc by lia. simpl in Hc. lia.
  - intros k l Hl. destruct (ot_client t Ht k l Hl) as (_ & _ & _ & Hok). rewrite decide_True in Hok; [tauto|].
    apply lookup_lt_Some in Hl. rewrite (ot_links t Ht) in Hl. lia.
Qed.





End Invariant.

End Facts.
End BenchmarkFacts.

(** ** Properties *)

Module BenchmarkProps.
Import Rpc Net NetFacts DrainFacts Benchmark BenchmarkFacts.

Section Props.
Context {Obj : Type} `{Msgpack Obj} `{!MsgpackLaws Obj} `{Packable Z, Packable (Z * Z)}.


(** But the mutex is destroyed too early: a callback signals before it takes
    the mutex, and the last signals let the main thread go on and destroy it.
    Whatever the number of clients and calls, there is a run in which a
    callback locks the destroyed mutex. *)
Theorem mutex_destroyed_early (threads numCalls : nat)
  (Hsize : Z.of_nat threads * Z.of_nat numCalls < 2 ^ 30) (Hsome : (0 < threads * numCalls)%nat) :
  exists t, rtc (goes threads numCalls) TEST t /\ test_step threads numCalls t (Fault UseAfterFree).
Proof using MsgpackLaws0.
  destruct (reach_end threads numCalls Hsize TEST (ok_TEST _ _) ltac:(done)) as (t1 & Hr1 & Ht1 & Hm1).
  assert (global_cnt (t_counters t1) = 0) as Hg.
  { assert (forall a b, rtc (quick threads numCalls) a b -> global_cnt (t_counters b) = global_cnt (t_counters a)) as Hk.
    { induction 1 as [|x y z [_ Hxy] _ IH]; [done|congruence]. }
    by rewrite (Hk _ _ Hr1). }
  destruct (end_counts threads numCalls t1 Ht1) as [_ Hsum]; [unfold waited; by rewrite Hm1|].
  pose proof (main_finished threads numCalls t1 threads Hm1 ltac:(lia)) as Hstep. set (t2 := mkTest _ _ _ _ _ _) in Hstep.
  exists t2. split.
  - eapply rtc_r; [eapply rtc_subrel, Hr1; by intros ? ? [? _]|exact Hstep].
  - apply (run_count threads numCalls t2). simpl. nia.
Qed.

End Props.

(** ** Witnesses *)

Import MiniPack.

(** The sizes of the benchmark are within the bounds of the theorems. *)
Example benchmark_size :
  Z.of_nat calls_per_client = 62500 /\ Z.of_nat kNumThreads * Z.of_nat calls_per_client = kNumCalls.
Proof. split; vm_compute; reflexivity. Qed.



Lemma mutex_destroyed_early_witness :
  exists t, rtc (goes 2 3) TEST t /\ test_step 2 3 t (Fault UseAfterFree).
Proof. apply (mutex_destroyed_early 2 3); [vm_compute; reflexivity|lia]. Defined.

End BenchmarkProps.
