(* ===== verification/RemoteBlockStore.v ===== *)
(** * The block store interface and its RPC proxy
      (src/src/blockstore/blockstore.h, remoteblockstore.h)

    [BlockStore] is the abstract class; [FileBlockStore] is an instance of it.
    [RegisterRemoteBlockStore] publishes a store under names that carry its
    identifier, and [RemoteBlockStore] is the proxy that calls these names.
    The server's stores live together with the operating system's state in
    [host].  A call on a live connection is answered by the registered
    function; when the client is disconnected while it is pending it gets the
    empty value of the result type, and when the server is gone nothing at all
    (see [RpcNet] and [RpcLife] for the connection itself). *)

From S2P Require Import Prelude BloomFilter CppString Posix FileBlockStore.
From Stdlib Require Import ZArith Lia Ascii.
From stdpp Require Import base gmap strings fin_maps numbers list.

Local Open Scope Z_scope.

#[local] Arguments String.append : simpl nomatch.

(** ** The interface *)

Class BlockStore (S : Type) : Type := {
  putBlock : string -> list Z -> S -> outcome (bool * S);
  getBlock : string -> S -> outcome (option (list Z) * S);
  removeBlock : string -> S -> outcome (bool * S);
  blockSize : S -> outcome (Z * S);
  numFreeBlocks : S -> outcome (Z * S);
  numTotalBlocks : S -> outcome (Z * S);
  bloomfilter : S -> outcome (BloomFilter.t * S)
}.

(** A local store and the system it lives on. *)
Definition file_store {W} `{Posix W} (fuel : nat) : BlockStore (FileBlockStore.t * W) := {|
  putBlock key data s :=
    '(b, this, w) ← FileBlockStore.putBlock key data s.1 s.2; Ok (b, (this, w));
  getBlock key s := '(r, w) ← FileBlockStore.getBlock key s.1 s.2; Ok (r, (s.1, w));
  removeBlock key s :=
    '(b, this, w) ← FileBlockStore.removeBlock fuel key s.1 s.2; Ok (b, (this, w));
  blockSize s := Ok (FileBlockStore.blockSize s.1, s);
  numFreeBlocks s := Ok (FileBlockStore.numFreeBlocks s.1, s);
  numTotalBlocks s := Ok (FileBlockStore.numTotalBlocks s.1, s);
  bloomfilter s := bf ← FileBlockStore.bloomfilter s.1; Ok (bf, s)
|}.

Module RemoteBlockStore.

(** [snprintf(buf, 127, "%s%lu", str, bsid)] keeps at most 126 characters. *)
Definition MakeString (str : string) (bsid : Z) : string :=
  str_take 126 (str +:+ print_lu bsid).

Inductive arg : Type := AStr (s : string) | ABytes (l : list Z).
Inductive reply : Type := RBool (b : bool) | RBytes (l : list Z) | RU64 (n : Z).

Section Server.
Context {W : Type} `{Posix W}.

(** The stores of a server by identifier, and the system. *)
Definition host : Type := gmap Z FileBlockStore.t * W.

Definition handler : Type := list arg -> host -> outcome (reply * host).

(** Run an operation of the store [bsid]. *)
Definition on_store {A} (bsid : Z) (f : FileBlockStore.t * W -> outcome (A * (FileBlockStore.t * W)))
    (h : host) : outcome (A * host) :=
  this ← deref (h.1 !! bsid);
  '(a, (this, w)) ← f (this, h.2);
  Ok (a, (<[bsid := this]> h.1, w)).

Definition FileBlockStorePutBlockHelper (bsid : Z) (name : string) (data : list Z) (h : host) :
    outcome (bool * host) :=
  _ ← first_element data;
  on_store bsid (putBlock (BlockStore := file_store 0) name data) h.

(** The null buffer becomes the empty vector; the bytes of another one are
    copied to [&ret[0]]. *)
Definition FileBlockStoreGetBlockHelperCallback (src : option (list Z)) : outcome (list Z) :=
  match src with None => Ok [] | Some buf => _ ← first_element buf; Ok buf end.

Definition FileBlockStoreGetBlockHelper (bsid : Z) (name : string) (h : host) :
    outcome (list Z * host) :=
  '(src, h) ← on_store bsid (getBlock (BlockStore := file_store 0) name) h;
  dst ← FileBlockStoreGetBlockHelperCallback src;
  Ok (dst, h).

Definition FileBlockStoreBloomFilterHelper (bsid : Z) (h : host) : outcome (list Z * host) :=
  '(bf, h) ← on_store bsid (bloomfilter (BlockStore := file_store 0)) h;
  bytes ← BloomFilter.serialize bf;
  Ok (bytes, h).

(** The adapters of [registerFunction]; arguments of the wrong shape throw. *)
Definition with_key {A} (f : string -> host -> outcome (A * host)) (wrap : A -> reply) : handler :=
  fun args h => match args with
                | [AStr key] => '(a, h) ← f key h; Ok (wrap a, h)
                | _ => Fault Throws
                end.

Definition with_key_data {A} (f : string -> list Z -> host -> outcome (A * host))
    (wrap : A -> reply) : handler :=
  fun args h => match args with
                | [AStr key; ABytes data] => '(a, h) ← f key data h; Ok (wrap a, h)
                | _ => Fault Throws
                end.

Definition without_args {A} (f : host -> outcome (A * host)) (wrap : A -> reply) : handler :=
  fun _ h => '(a, h) ← f h; Ok (wrap a, h).

(** The operations a store is published with. *)
Inductive method : Type :=
  | PutBlock | GetBlock | RemoveBlock | BlockSize | NumFreeBlocks | NumTotalBlocks | BloomFilter_.

Definition method_name (m : method) : string :=
  match m with
  | PutBlock => "putBlock"
  | GetBlock => "getBlock"
  | RemoveBlock => "removeBlock"
  | BlockSize => "blockSize"
  | NumFreeBlocks => "numFreeBlocks"
  | NumTotalBlocks => "numTotalBlocks"
  | BloomFilter_ => "bloomfilter"
  end.

Definition method_handler (fuel : nat) (m : method) (bsid : Z) : handler :=
  match m with
  | PutBlock => with_key_data (FileBlockStorePutBlockHelper bsid) RBool
  | GetBlock => with_key (FileBlockStoreGetBlockHelper bsid) RBytes
  | RemoveBlock => with_key (fun key => on_store bsid (removeBlock (BlockStore := file_store fuel) key)) RBool
  | BlockSize => without_args (on_store bsid (blockSize (BlockStore := file_store 0))) RU64
  | NumFreeBlocks => without_args (on_store bsid (numFreeBlocks (BlockStore := file_store 0))) RU64
  | NumTotalBlocks => without_args (on_store bsid (numTotalBlocks (BlockStore := file_store 0))) RU64
  | BloomFilter_ => without_args (FileBlockStoreBloomFilterHelper bsid) RBytes
  end.

(** In the order in which the source registers them. *)
Definition methods : list method :=
  [PutBlock; GetBlock; RemoveBlock; BlockSize; NumFreeBlocks; NumTotalBlocks; BloomFilter_].

Definition RegisterRemoteBlockStore (fuel : nat) (bsid : Z) (funcs : gmap string handler) :
    gmap string handler :=
  foldl (fun funcs m => <[MakeString (method_name m) bsid := method_handler fuel m bsid]> funcs)
        funcs methods.

(** Publishing several stores, one after the other. *)
Definition register_all (fuel : nat) (bsids : list Z) (funcs : gmap string handler) :
    gmap string handler :=
  foldl (fun funcs bsid => RegisterRemoteBlockStore fuel bsid funcs) funcs bsids.

(** ** The proxy *)

(** A connection: working; broken, which the client's calls do not notice; or
    working until the client is disconnected or destroyed, which answers the
    pending calls. *)
Inductive conn_state : Type := Live | Broken | Aborted.

(** The client's end of a connection to a server with these functions. *)
Record conn : Type := Conn { c_funcs : gmap string handler; c_state : conn_state }.

(** [_client->call<...>(name, args)], up to the answer: [None] is the empty
    value of a call that is aborted.  A name the server does not know makes it
    drop the connection, and the call is never answered. *)
Definition call (c : conn) (name : string) (args : list arg) (h : host) :
    outcome (option reply * host) :=
  match c_state c with
  | Live =>
      match c_funcs c !! name with
      | Some f => '(r, h) ← f args h; Ok (Some r, h)
      | None => Fault Hangs
      end
  | Broken => Fault Hangs
  | Aborted => Ok (None, h)
  end.

(** The conversions of [deserializeFuture], with [A()] for no answer. *)
Definition as_bool (r : option reply) : outcome bool :=
  match r with Some (RBool b) => Ok b | None => Ok false | _ => Fault Throws end.
Definition as_bytes (r : option reply) : outcome (list Z) :=
  match r with Some (RBytes l) => Ok l | None => Ok [] | _ => Fault Throws end.
Definition as_u64 (r : option reply) : outcome Z :=
  match r with Some (RU64 n) => Ok n | None => Ok 0 | _ => Fault Throws end.

Definition getBlockHelper (proxy_ret : list Z) : option (list Z) :=
  match proxy_ret with [] => None | buf => Some buf end.

(** Everything after the first [return] of the helper is dead code. *)
Definition bloomfilterHelper (proxy_ret : list Z) : outcome BloomFilter.t := BloomFilter.ctor.

Definition remote_call {A} (c : conn) (bsid : Z) (m : method) (args : list arg)
    (conv : option reply -> outcome A) (h : host) : outcome (A * host) :=
  '(r, h) ← call c (MakeString (method_name m) bsid) args h;
  a ← conv r;
  Ok (a, h).

(** [class RemoteBlockStore], on the connection [c], for the store [bsid]. *)
Definition remote_store (c : conn) (bsid : Z) : BlockStore host := {|
  putBlock key data h :=
    _ ← first_element data; remote_call c bsid PutBlock [AStr key; ABytes data] as_bool h;
  getBlock key h :=
    '(v, h) ← remote_call c bsid GetBlock [AStr key] as_bytes h; Ok (getBlockHelper v, h);
  removeBlock key h := remote_call c bsid RemoveBlock [AStr key] as_bool h;
  blockSize h := remote_call c bsid BlockSize [] as_u64 h;
  numFreeBlocks h := remote_call c bsid NumFreeBlocks [] as_u64 h;
  numTotalBlocks h := remote_call c bsid NumTotalBlocks [] as_u64 h;
  bloomfilter h :=
    '(v, h) ← remote_call c bsid BloomFilter_ [] as_bytes h;
    bf ← bloomfilterHelper v;
    Ok (bf, h)
|}.

End Server.
End RemoteBlockStore.

(** ** Names *)

Module RemoteFacts.
Import RemoteBlockStore.

#[global] Instance method_eq_dec : EqDecision method.
Proof. solve_decision. Defined.

Lemma MakeString_whole m bsid : MakeString (method_name m) bsid = method_name m +:+ print_lu bsid.
Proof.
  apply str_take_ge. rewrite str_length_app.
  pose proof (digits_length 20 bsid EmptyString) as Hd. fold (print_lu bsid) in Hd.
  change (String.length EmptyString) with O in Hd.
  assert (String.length (method_name m) <= 14)%nat by (destruct m; simpl; lia). lia.
Qed.

Lemma MakeString_inj m m' b b' :
  is_u64 b -> is_u64 b' -> MakeString (method_name m) b = MakeString (method_name m') b' ->
  m = m' /\ b = b'.
Proof.
  intros Hb Hb'. rewrite !MakeString_whole. intros Heq.
  destruct m, m'; try (simpl in Heq; discriminate Heq);
    apply app_inj_str in Heq; split; [done|by apply print_lu_inj|done|by apply print_lu_inj|done|
    by apply print_lu_inj|done|by apply print_lu_inj|done|by apply print_lu_inj|done|
    by apply print_lu_inj|done|by apply print_lu_inj].
Qed.

Section Registration.
Context {W : Type} `{Posix W}.

Lemma register_methods_lookup (h : method -> Z -> @handler W) ms bsid :
  forall (funcs : gmap string handler) m b,
  is_u64 bsid -> is_u64 b ->
  foldl (fun funcs m => <[MakeString (method_name m) bsid := h m bsid]> funcs) funcs ms
    !! MakeString (method_name m) b =
  if decide (b = bsid /\ m ∈ ms) then Some (h m b) else funcs !! MakeString (method_name m) b.
Proof.
  induction ms as [|x ms IH]; intros funcs m b Hbs Hb; simpl.
  { rewrite decide_False; [done|]. by intros [_ ?%elem_of_nil]. }
  rewrite IH by done. destruct (decide (b = bsid /\ m ∈ ms)) as [[-> Hm]|Hno].
  { rewrite decide_True; [done|]. split; [done|by right]. }
  destruct (decide (b = bsid /\ m = x)) as [[-> ->]|Hx].
  - rewrite lookup_insert_eq, decide_True; [done|]. split; [done|left].
  - rewrite lookup_insert_ne, decide_False; [done| |].
    + intros [-> [?|?]%elem_of_cons]; tauto.
    + intros Heq. apply MakeString_inj in Heq as [-> ->]; tauto.
Qed.

Lemma methods_all m : m ∈ methods.
Proof. apply (bool_decide_unpack _). by destruct m. Qed.

Lemma register_lookup fuel bsid (funcs : gmap string (@handler W)) m b :
  is_u64 bsid -> is_u64 b ->
  RegisterRemoteBlockStore fuel bsid funcs !! MakeString (method_name m) b =
  if decide (b = bsid) then Some (method_handler fuel m b) else funcs !! MakeString (method_name m) b.
Proof.
  intros Hbs Hb. unfold RegisterRemoteBlockStore.
  rewrite (register_methods_lookup (method_handler fuel)) by done.
  pose proof (methods_all m). repeat case_decide; tauto.
Qed.

Lemma register_all_lookup fuel bsids : forall (funcs : gmap string (@handler W)) m b,
  Forall is_u64 bsids -> is_u64 b ->
  register_all fuel bsids funcs !! MakeString (method_name m) b =
  if decide (b ∈ bsids) then Some (method_handler fuel m b) else funcs !! MakeString (method_name m) b.
Proof.
  induction bsids as [|x bsids IH]; intros funcs m b Hu Hb; simpl.
  { done. }
  apply Forall_cons in Hu as [Hx Hu]. rewrite IH, register_lookup by done.
  repeat case_decide; subst; try done; exfalso; set_solver.
Qed.

(** A call on a live connection runs the handler of the store. *)
Lemma remote_call_live {A} fuel bsids bsid m args (conv : option reply -> outcome A) (h : @host W) :
  Forall is_u64 bsids -> bsid ∈ bsids ->
  remote_call (Conn (register_all fuel bsids ∅) Live) bsid m args conv h =
  ('(r, h) ← method_handler fuel m bsid args h; a ← conv (Some r); Ok (a, h)).
Proof.
  intros Hu Hin. unfold remote_call, call. simpl.
  rewrite register_all_lookup, decide_True; [|done|done|by eapply Forall_forall in Hin].
  destruct (method_handler fuel m bsid args h) as [[r h']|]; done.
Qed.

(** Wrapping a result and unwrapping it again. *)
Lemma wrap_bool (o : outcome (bool * @host W)) :
  ('(r, h) ← ('(a, h) ← o; Ok (RBool a, h)); a ← as_bool (Some r); Ok (a, h)) = o.
Proof. by destruct o as [[a h]|]. Qed.

Lemma wrap_u64 (o : outcome (Z * @host W)) :
  ('(r, h) ← ('(a, h) ← o; Ok (RU64 a, h)); a ← as_u64 (Some r); Ok (a, h)) = o.
Proof. by destruct o as [[a h]|]. Qed.

Lemma wrap_bytes (o : outcome (list Z * @host W)) :
  ('(r, h) ← ('(a, h) ← o; Ok (RBytes a, h)); a ← as_bytes (Some r); Ok (a, h)) = o.
Proof. by destruct o as [[a h]|]. Qed.

End Registration.
End RemoteFacts.

(** ** Properties *)

Module RemoteProps.
Import RemoteBlockStore RemoteFacts FbsFacts.

(** Stores do not get into each other's way: after publishing any list of
    stores on one server, in any order and with repetitions, every method
    name of every published store leads to that method of that store. *)
Theorem stores_published {W : Type} `{Posix W} (fuel : nat) (bsids : list Z) (m : method) (bsid : Z)
  (Hids : Forall is_u64 bsids) (Hin : bsid ∈ bsids) :
  register_all (W := W) fuel bsids ∅ !! MakeString (method_name m) bsid =
  Some (method_handler fuel m bsid).
Proof.
  rewrite register_all_lookup, decide_True; [done|done|done|]. by eapply Forall_forall in Hin.
Qed.

Section Props.
Context {W : Type} `{Posix W} (dir : string) `{!PosixLaws W dir} (Hdir : dir_ok dir).
Context (fuel : nat) (bsids : list Z) (bsid : Z).
Context (Hids : Forall is_u64 bsids) (Hin : bsid ∈ bsids).

Definition live : conn (W := W) := Conn (register_all fuel bsids ∅) Live.

(** C19. The proxy is transparent: over a live connection [putBlock] of a block
    that is not empty, [getBlock], [removeBlock] and the size queries of
    [RemoteBlockStore] return what the published store returns and leave the
    server in the same state; in particular the empty vector that stands for a
    missing block on the wire is never mistaken for a block.  For an empty
    block, which the store itself refuses or fails to write, the proxy takes
    the address of the first element of an empty vector. *)
Theorem proxy_transparent (key : string) (data : list Z) (h : host) (this : FileBlockStore.t)
  (Hstore : h.1 !! bsid = Some this) (Hwf : store_wf dir this h.2) (Hk : simple key) :
  putBlock (BlockStore := remote_store live bsid) key data h =
    (if decide (data = []) then Fault OutOfBounds
     else on_store bsid (putBlock (BlockStore := file_store fuel) key data) h) /\
  getBlock (BlockStore := remote_store live bsid) key h =
    on_store bsid (getBlock (BlockStore := file_store fuel) key) h /\
  removeBlock (BlockStore := remote_store live bsid) key h =
    on_store bsid (removeBlock (BlockStore := file_store fuel) key) h /\
  blockSize (BlockStore := remote_store live bsid) h =
    on_store bsid (blockSize (BlockStore := file_store fuel)) h /\
  numFreeBlocks (BlockStore := remote_store live bsid) h =
    on_store bsid (numFreeBlocks (BlockStore := file_store fuel)) h /\
  numTotalBlocks (BlockStore := remote_store live bsid) h =
    on_store bsid (numTotalBlocks (BlockStore := file_store fuel)) h.
Proof using Hdir Hids Hin.
  split_and!; cbn [putBlock getBlock removeBlock blockSize numFreeBlocks numTotalBlocks remote_store];
    [destruct data; [done|rewrite decide_False by done; cbn [first_element mbind outcome_bind]]|..];
    unfold live; rewrite remote_call_live by done; cbn [method_handler];
    unfold with_key_data, with_key, without_args; rewrite ?wrap_bool, ?wrap_u64, ?wrap_bytes; try done.
  unfold FileBlockStoreGetBlockHelper, on_store. rewrite Hstore. cbn [deref mbind outcome_bind].
  cbn [getBlock file_store fst snd].
  destruct (get_cases dir Hdir key this h.2 Hwf Hk) as (r & w' & Hget & _ & Hr). rewrite Hget.
  cbn [mbind outcome_bind]. pose proof (wf_blocksize _ _ _ Hwf) as Hbs. rewrite Hr.
  destruct (readable dir key this h.2); [|done].
  destruct (files (view h.2) !! key) as [[|x c]|]; [done| |done]. cbn [block_of].
  destruct (Z.to_nat (FileBlockStore._blocksize this)) eqn:E; [lia|]. done.
Qed.

(** The proxy's bloom filter is always the empty one: whatever the remote
    store holds and reports, a client that consults the filter before asking
    is told that no block is there. *)
Theorem proxy_filter_empty (h h' : host) (bf : BloomFilter.t) (key : string)
  (Hbf : bloomfilter (BlockStore := remote_store live bsid) h = Ok (bf, h')) :
  BloomFilter.mayContain bf key = Ok false.
Proof using Type.
  assert (BloomFilter.ctor = Ok bf) as Hc.
  { cbn [bloomfilter remote_store] in Hbf. inv_ok. destruct a as [v h1]. by inv_ok. }
  unfold BloomFilter.ctor in Hc.
  destruct (BloomFacts.reset_represents (BloomFilter.BloomFilter 0 0 None) BloomFilter.default_size 0)
    as (bf' & Hr & _ & _ & HR); [done|unfold is_u32; lia|].
  assert (bf = bf') as -> by congruence.
  by rewrite (BloomFacts.mayContain_represents bf' key ∅ HR).
Qed.

End Props.

(** A client that is disconnected while its call is pending is told that the
    operation failed; the size queries answer 0, which the interface reserves
    for a store without blocks (it documents -1 for errors). *)
Theorem proxy_aborted {W : Type} `{Posix W} (funcs : gmap string handler) (bsid : Z) (key : string)
    (x : Z) (data : list Z) (h : host (W := W)) :
  let s := remote_store (Conn funcs Aborted) bsid in
  putBlock (BlockStore := s) key (x :: data) h = Ok (false, h) /\
  getBlock (BlockStore := s) key h = Ok (None, h) /\
  removeBlock (BlockStore := s) key h = Ok (false, h) /\
  blockSize (BlockStore := s) h = Ok (0, h) /\
  numFreeBlocks (BlockStore := s) h = Ok (0, h) /\
  numTotalBlocks (BlockStore := s) h = Ok (0, h).
Proof. by split_and!. Qed.

(** A client whose server is gone waits forever, and so does one that asks for
    a store the server does not publish. *)
Theorem proxy_hangs {W : Type} `{Posix W} (c : conn (W := W)) (bsid : Z) (key : string) (h : host (W := W))
  (Hc : c_state c = Broken \/ c_state c = Live /\ c_funcs c !! MakeString (method_name GetBlock) bsid = None) :
  getBlock (BlockStore := remote_store c bsid) key h = Fault Hangs.
Proof.
  cbn [getBlock remote_store]. unfold remote_call, call.
  destruct Hc as [->|[-> E]]; [done|]. by destruct (_ !! _).
Qed.

(** ** Witnesses *)

Definition store1 : FileBlockStore.t :=
  FileBlockStore.Store None 4 MemFs.dir BloomProps.sample ∅ 9 0.
Definition host1 : host :=
  ({[7 := store1]}, MemFs.disk {["a" := [1; 2; 3; 4]]} 4 40000).

Lemma store1_wf : store_wf MemFs.dir store1 host1.2.
Proof.
  split; simpl; try done. exists []. split; [done|]. apply BloomProps.sample_empty.
Qed.

Lemma stores_published_witness :
  register_all (W := MemFs.mem) 3 [7; 12; 7] ∅ !! "getBlock12"%string =
  Some (method_handler 3 GetBlock 12).
Proof.
  apply (stores_published 3 [7; 12; 7] GetBlock 12).
  - repeat constructor; unfold is_u64; lia.
  - right. left.
Defined.

Lemma proxy_transparent_witness :
  getBlock (BlockStore := remote_store (live 3 [7]) 7) "a" host1 =
  on_store 7 (getBlock (BlockStore := file_store 3) "a") host1.
Proof.
  apply (proxy_transparent MemFs.dir mem_dir_ok 3 [7] 7 ltac:(repeat constructor; unfold is_u64; lia)
           ltac:(left) "a" [] host1 store1).
  - reflexivity.
  - exact store1_wf.
  - apply (bool_decide_unpack _). exact I.
Defined.

Lemma proxy_filter_empty_witness : exists bf h',
  bloomfilter (BlockStore := remote_store (live 3 [7]) 7) host1 = Ok (bf, h') /\
  BloomFilter.mayContain bf "a" = Ok false.
Proof.
  destruct (BloomFacts.filter_of_reset (BloomFilter.BloomFilter 0 0 None)) as (bf0 & Hr & _).
  assert (exists h', bloomfilter (BlockStore := remote_store (live 3 [7]) 7) host1 = Ok (bf0, h'))
    as [h' Hbf].
  { cbn [bloomfilter remote_store]. unfold live. rewrite remote_call_live;
      [|repeat constructor; unfold is_u64; lia|left].
    unfold bloomfilterHelper, BloomFilter.ctor. rewrite Hr. eexists. reflexivity. }
  exists bf0, h'. split; [exact Hbf|].
  exact (proxy_filter_empty 3 [7] 7 host1 h' bf0 "a" Hbf).
Defined.

End RemoteProps.
