(* ===== verification/RemoteNet.v ===== *)
(** * Remote block stores on the network

    The composition of [RemoteBlockStore] with [RpcNet]: the functions a
    server publishes for its stores, with the adapters [registerFunction] puts
    around them, as functions of an [RpcNet] server whose state is the stores
    and their file system.  [RemoteRun] says what the calls of the proxies are
    and what their answers have to be; [RemoteNetProps] shows that any number
    of clients, however their calls interleave, see stores each of which
    behaves like [FbsSpec] and none of which disturbs another.  All of this is
    about servers that run one handler at a time, those whose event manager
    has one worker: a [FileBlockStore] has no lock ([FbsRace]). *)

From S2P Require Import Prelude BloomFilter CppString Posix PosixDirs FileBlockStore FbsFrame.
From S2P Require Import Rpc RpcNet RemoteBlockStore.
From Stdlib Require Import ZArith Lia Ascii.
From stdpp Require Import base gmap strings fin_maps numbers relations list.

Local Open Scope Z_scope.

#[local] Arguments String.append : simpl nomatch.

Module RemoteRun.
Import RemoteBlockStore FbsSpec.

(** What the stores of a server hold. *)
Abbreviation stock := (gmap Z (gmap string (list Z))).

Section Run.
Context {W : Type} `{Posix W} `{Packable (list arg), Packable reply}.

(** The functions of a server that publishes the stores [bsids]. *)
Definition published (fuel : nat) (bsids : list Z) : gmap string (Rpc.RPCFunc host) :=
  Rpc.deserializeArgs <$> register_all (W := W) fuel bsids ∅.

(** What a proxy writes for a call of its store: the name and the packed
    arguments.  [putBlock] of an empty block is undefined before it writes
    anything, and [next] is not part of the interface. *)
Definition request (bsid : Z) (m : method) (args : list arg) : string * list Z :=
  (MakeString (method_name m) bsid, pack args).

Definition op_request (bsid : Z) (o : op) : option (string * list Z) :=
  match o with
  | Put key data =>
      if decide (data = []) then None else Some (request bsid PutBlock [AStr key; ABytes data])
  | Get key => Some (request bsid GetBlock [AStr key])
  | Remove key => Some (request bsid RemoveBlock [AStr key])
  | Next => None
  end.

Definition is_query (m : method) : bool :=
  match m with PutBlock | GetBlock | RemoveBlock => false | _ => true end.

(** A call of a proxy of one of the stores: an operation with a simple key,
    or a query. *)
Inductive proxy_call (bsids : list Z) (c : string * list Z) : Prop :=
  | proxy_op b o : b ∈ bsids -> op_simple o -> op_request b o = Some c -> proxy_call bsids c
  | proxy_query b m : b ∈ bsids -> is_query m = true -> c = request b m [] -> proxy_call bsids c.

(** What the client makes of an answer to the operation [o]. *)
#[global] Instance reply_inhabited : Inhabited reply := populate (RemoteBlockStore.RBool false).

Definition client_result (o : op) (raw : list Z) : outcome res :=
  r ← Rpc.deserializeFuture (Some raw);
  match o with
  | Put _ _ | Remove _ => b ← as_bool (Some r); Ok (RBool b)
  | Get _ => v ← as_bytes (Some r); Ok (RBlock (getBlockHelper v))
  | Next => Fault Throws
  end.

(** A log of executed calls is a run of the specification, from the contents
    [M] of the stores to those at its end: an operation is a step of
    [FbsSpec] on its own store, with the block size of this store, and leaves
    the others alone; a query changes nothing. *)
Inductive explained (bsids : list Z) (bs : Z -> Z) (calls : nat * nat -> option (string * list Z))
    (M : stock) : list (nat * nat * list Z) -> stock -> Prop :=
  | explained_nil : explained bsids bs calls M [] M
  | explained_op c x raw b o r m m' log M' :
      calls c = Some x -> b ∈ bsids -> op_request b o = Some x ->
      M !! b = Some m -> spec_step (bs b) m o r m' -> client_result o raw = Ok r ->
      explained bsids bs calls (<[b := m']> M) log M' -> explained bsids bs calls M ((c, raw) :: log) M'
  | explained_query c raw b q log M' :
      b ∈ bsids -> is_query q = true -> calls c = Some (request b q []) ->
      explained bsids bs calls M log M' -> explained bsids bs calls M ((c, raw) :: log) M'.

End Run.
End RemoteRun.

Module RemoteNetFacts.
Import RemoteBlockStore RemoteFacts FbsFacts FbsSpec FbsRun RemoteRun Net.

Section Ends.
Context {W : Type} `{Posix W} (fuel : nat).

(** More fuel does not change a scan that has ended. *)
Lemma regenerate_loop_more f : forall f' d this (w : W) r, (f <= f')%nat ->
  FileBlockStore.regenerate_loop f d this w = Ok r -> FileBlockStore.regenerate_loop f' d this w = Ok r.
Proof.
  induction f as [|f IH]; intros [|f'] d this w r Hle; simpl; try done; [lia|].
  destruct (os_readdir d w) as [[e|] w1]; [|done]. destruct (FileBlockStore.skipped e); [apply IH; lia|].
  destruct (BloomFilter.set _ _); simpl; [|done]. apply IH. lia.
Qed.

Lemma remove_ends key this (w : W) r :
  FileBlockStore.removeBlock fuel key this w = Ok r ->
  ends (fun f => FileBlockStore.removeBlock f key this w) r.
Proof.
  intros Hr. exists fuel. intros f Hf. revert Hr. unfold FileBlockStore.removeBlock.
  destruct (FileBlockStore.get_fullpath _ key); simpl; [|done]. destruct (os_unlink _ w) as [[|z|z] w1]; try done.
  unfold FileBlockStore.regenerateBloomFilterAndBlockSet.
  destruct (BloomFilter.reset _ _ _); simpl; [|done]. destruct (FileBlockStore.free_blocks _ _); simpl; [|done].
  destruct (os_opendir _ w1) as [[d|] w2]; [|done]. destruct (FileBlockStore.regenerate_loop fuel _ _ _) eqn:E; [|done].
  by rewrite (regenerate_loop_more _ _ _ _ _ _ Hf E).
Qed.

End Ends.

Section Facts.
Context {W : Type} `{Posix W} `{Packable (list arg), Packable reply}.
Context (fuel : nat) (bsids : list Z) (Hids : Forall is_u64 bsids).

Lemma published_method m b : b ∈ bsids ->
  published (W := W) fuel bsids !! MakeString (method_name m) b =
  Some (Rpc.deserializeArgs (method_handler fuel m b)).
Proof using Hids.
  intros Hb. unfold published. rewrite lookup_fmap.
  assert (register_all (W := W) fuel bsids ∅ !! MakeString (method_name m) b =
          Some (method_handler fuel m b)) as Hm.
  { rewrite register_all_lookup, decide_True; [done|done|done|]. by eapply Forall_forall in Hb. }
  exact (f_equal (fmap Rpc.deserializeArgs) Hm).
Qed.

(** One call of a published function. *)
Definition run (name : string) (args : list Z) (h : host (W := W)) : outcome (list Z * host) :=
  func ← deref (published fuel bsids !! name); func args h.

(** The reply that carries a result; names are not sent. *)
Definition answer_of (r : res) : reply :=
  match r with
  | RBool v => RemoteBlockStore.RBool v
  | RBlock v => RBytes (default [] v)
  | RName _ => RBytes []
  end.

(** Running the request of an operation runs it on its store. *)
Lemma op_run b h o name args raw h' this :
  b ∈ bsids -> h.1 !! b = Some this -> op_request b o = Some (name, args) -> run name args h = Ok (raw, h') ->
  exists r this', exec this h.2 o r this' h'.2 /\ h'.1 = <[b := this']> h.1 /\
    raw = pack (answer_of r).
Proof using Hids.
  intros Hb Hst Hreq.
  destruct o as [k [|x data]|k|k|]; try done; simplify_eq/=; unfold request in Hreq; simplify_eq; unfold run;
    rewrite published_method by done; cbn [deref mbind outcome_bind]; unfold Rpc.deserializeArgs;
    rewrite unpack_pack; cbn [method_handler with_key_data with_key];
    unfold FileBlockStorePutBlockHelper, FileBlockStoreGetBlockHelper, on_store; cbn [first_element]; rewrite Hst;
    cbn [deref mbind outcome_bind putBlock getBlock removeBlock file_store fst snd].
  - destruct (FileBlockStore.putBlock k (x :: data) this h.2) as [[[v t1] w1]|] eqn:E; [|done].
    intros Heq; simplify_eq/=. exists (RBool v), t1. split; [by apply exec_put|done].
  - destruct (FileBlockStore.getBlock k this h.2) as [[v w1]|] eqn:E; [|done].
    cbn [mbind outcome_bind]. destruct v as [[|y v]|]; cbn; intros Heq; simplify_eq/=;
      (eexists (RBlock _), this; split; [by apply exec_get|done]).
  - destruct (FileBlockStore.removeBlock fuel k this h.2) as [[[v t1] w1]|] eqn:E; [|done].
    intros Heq; simplify_eq/=. apply remove_ends in E. exists (RBool v), t1. split; [by apply exec_remove|done].
Qed.

(** A query leaves the system and the other stores as they are, and its own
    store too. *)
Lemma query_run b h q raw h' this :
  b ∈ bsids -> h.1 !! b = Some this -> is_query q = true ->
  run (request b q []).1 (request b q []).2 h = Ok (raw, h') -> h' = h.
Proof using Hids.
  intros Hb Hst Hq. unfold run. cbn [request fst snd]. rewrite published_method by done.
  cbn [deref mbind outcome_bind]. unfold Rpc.deserializeArgs. rewrite unpack_pack.
  destruct h as [stores w]. simpl in Hst.
  destruct q; try done; cbn [method_handler]; unfold without_args, FileBlockStoreBloomFilterHelper, on_store;
    cbn [fst snd]; rewrite Hst;
    cbn [deref mbind outcome_bind blockSize numFreeBlocks numTotalBlocks bloomfilter file_store fst snd];
    intros Heq; inv_ok; by rewrite insert_id.
Qed.

(** What the client makes of the answer, when the answer is one the
    specification allows. *)
Lemma client_result_of bs m o r m' :
  0 < bs -> spec_step bs m o r m' -> (forall s, r <> RName s) ->
  client_result o (pack (answer_of r)) = Ok r.
Proof.
  intros Hbs Hs Hn. unfold client_result.
  destruct Hs as [| | |k c Hc Hne| | | |]; try (simpl; by rewrite unpack_pack); [|by destruct (Hn s)].
  simpl. rewrite unpack_pack. simpl. do 2 f_equal. destruct c as [|x c]; [done|].
  by destruct (Z.to_nat bs) eqn:?; [lia|].
Qed.

End Facts.

Section Several.
Context {W : Type} `{Posix W} `{Packable (list arg), Packable reply}.
Context (fuel : nat) (bsids : list Z) (Hids : Forall is_u64 bsids).
Context (dirs : Z -> string) `{L : !forall b, PosixLaws W (dirs b)} (bs : Z -> Z).
Context (Hdirs : forall b, b ∈ bsids -> dir_ok (dirs b)).
Context (Hapart : forall b b', b ∈ bsids -> b' ∈ bsids -> b <> b' -> PosixApart W (dirs b) (dirs b')).

(** The state of the server during a run: each store is there, with its
    block size and its index in accord with its directory. *)
Definition stores_at (h : host (W := W)) : Prop :=
  forall b, b ∈ bsids ->
  exists this, h.1 !! b = Some this /\ FileBlockStore._blocksize this = bs b /\ store_wf (dirs b) this h.2.

(** What is in the directories of the stores. *)
Definition contents (w : W) : stock :=
  list_to_map ((fun b => (b, files (view_of (dirs b) w))) <$> bsids).

Lemma contents_lookup w b :
  contents w !! b = if decide (b ∈ bsids) then Some (files (view_of (dirs b) w)) else None.
Proof.
  unfold contents. clear. induction bsids as [|x l IH]; [done|]. cbn [fmap list_fmap list_to_map foldr].
  destruct (decide (b = x)) as [->|Hne].
  - rewrite decide_True by left. apply lookup_insert_eq.
  - etransitivity; [by apply lookup_insert_ne|]. etransitivity; [exact IH|]. apply decide_ext.
    rewrite elem_of_cons. tauto.
Qed.

(** A system that differs from another in one directory only. *)
Lemma contents_insert w w' b : b ∈ bsids ->
  (forall b', b' ∈ bsids -> b <> b' -> view_of (dirs b') w' = view_of (dirs b') w) ->
  contents w' = <[b := files (view_of (dirs b) w')]> (contents w).
Proof.
  intros Hb Hfar. apply map_eq. intros b'. destruct (decide (b = b')) as [<-|Hne].
  - by rewrite lookup_insert_eq, contents_lookup, decide_True.
  - rewrite lookup_insert_ne, !contents_lookup by done. case_decide; [|done]. by rewrite Hfar.
Qed.

(** An executed operation is a step of the specification of its store, and
    the other stores are as they were. *)
Lemma op_executed h b o name args raw h' :
  stores_at h -> b ∈ bsids -> op_simple o -> op_request b o = Some (name, args) ->
  run fuel bsids name args h = Ok (raw, h') ->
  stores_at h' /\ exists m r m', contents h.2 !! b = Some m /\ spec_step (bs b) m o r m' /\
    contents h'.2 = <[b := m']> (contents h.2) /\ client_result o raw = Ok r.
Proof using Hids Hdirs Hapart.
  intros Hst Hb Ho Hreq Hrun. destruct (Hst b Hb) as (this & Hthis & Hbs & Hwf).
  destruct (op_run fuel bsids Hids b h o name args raw h' this Hb Hthis Hreq Hrun) as (r & this' & Hex & Hh' & ->).
  pose proof (exec_sound (dirs b) (Hdirs b Hb) _ _ _ _ _ _ Hwf Ho Hex) as (Hwf' & Hbs' & Hs).
  assert (forall b', b' ∈ bsids -> b <> b' -> view_of (dirs b') h'.2 = view_of (dirs b') h.2) as Hfar.
  { intros b' Hb' Hne. pose proof (Hapart b b' Hb Hb' Hne) as Ha.
    exact (FbsFrame.exec_frame (dirs b) (dirs b') (Hdirs b Hb) _ _ _ _ _ _ Hwf Ho Hex). }
  split.
  - intros b' Hb'. destruct (decide (b = b')) as [<-|Hne].
    + exists this'. rewrite Hh', lookup_insert_eq. split_and!; [done|congruence|done].
    + destruct (Hst b' Hb') as (t & Ht & Htb & Htw). exists t. rewrite Hh', lookup_insert_ne by done.
      split_and!; [done|done|]. by apply (FbsFrame.store_wf_view (dirs b') t h.2), Htw; apply Hfar.
  - exists (files (view_of (dirs b) h.2)), r, (files (view_of (dirs b) h'.2)).
    rewrite contents_lookup, decide_True by done. rewrite Hbs in Hs. split_and!; [done|done| |].
    + by apply contents_insert.
    + eapply client_result_of; [|exact Hs|].
      * rewrite <- Hbs. by apply (wf_blocksize (dirs b) this h.2).
      * intros s ->. by inversion Hex; subst.
Qed.

(** A serial run of proxy calls is a run of the specification. *)
Lemma serial_explained calls order : forall h log h',
  stores_at h -> (forall c x, calls c = Some x -> proxy_call bsids x) ->
  serial (published fuel bsids) calls order h = Ok (log, h') ->
  stores_at h' /\ explained bsids bs calls (contents h.2) log (contents h'.2).
Proof using Hids Hdirs Hapart.
  induction order as [|c order IH]; intros h log h' Hst Hcalls; cbn [serial].
  { intros [= <- <-]. split; [done|constructor]. }
  destruct (calls c) as [[name args]|] eqn:Ec; [|done]. cbn [deref mbind outcome_bind]. intros Hrun.
  destruct (published fuel bsids !! name) as [func|] eqn:Ef; [|done]. cbn [deref mbind outcome_bind] in Hrun.
  destruct (func args h) as [[raw h1]|] eqn:E; [|done]. cbn [mbind outcome_bind] in Hrun.
  assert (run fuel bsids name args h = Ok (raw, h1)) as Hr by (unfold run; by rewrite Ef).
  destruct (serial (published fuel bsids) calls order h1) as [[log1 h2]|] eqn:Es; [|done].
  cbn [mbind outcome_bind] in Hrun. injection Hrun as <- <-.
  destruct (Hcalls _ _ Ec) as [b o Hb Ho Hreq|b q Hb Hq Hreq].
  - destruct (op_executed h b o name args raw h1) as (Hst1 & m & r & m' & Hm & Hs & Hc & Hres); try done.
    destruct (IH _ _ _ Hst1 Hcalls Es) as [? Hex]. split; [done|]. rewrite Hc in Hex. by eapply explained_op.
  - destruct (Hst b Hb) as (this & Hthis & _). injection Hreq as -> ->.
    apply (query_run fuel bsids Hids b h q raw h1 this Hb Hthis Hq) in Hr as ->.
    destruct (IH _ _ _ Hst Hcalls Es) as [? Hex]. split; [done|]. by eapply explained_query.
Qed.

End Several.

Section Requests.
Context `{Packable (list arg), Packable reply}.

(** *** Which operation a request stands for *)

Lemma pack_inj (a b : list arg) : pack a = pack b -> a = b.
Proof. intros Heq. apply (f_equal (unpack (A := list arg))) in Heq. rewrite !unpack_pack in Heq. by injection Heq. Qed.

Lemma request_inj b m args b' m' args' : is_u64 b -> is_u64 b' ->
  request b m args = request b' m' args' -> b = b' /\ m = m' /\ args = args'.
Proof.
  intros Hb Hb' [= Hm Ha]. apply MakeString_inj in Hm as [-> ->]; [|done..]. by apply pack_inj in Ha.
Qed.

Lemma op_request_inj b o b' o' c : is_u64 b -> is_u64 b' ->
  op_request b o = Some c -> op_request b' o' = Some c -> b = b' /\ o = o'.
Proof.
  intros Hb Hb' Ho Ho'. rewrite <- Ho in Ho'. revert Ho Ho'.
  destruct o, o'; cbn [op_request]; try done; repeat case_decide; try done; intros _ Ho';
    apply (inj Some), request_inj in Ho' as (? & ? & ?); by simplify_eq.
Qed.

Lemma op_not_query b o b' q c : is_u64 b -> is_u64 b' ->
  op_request b o = Some c -> is_query q = true -> c <> request b' q [].
Proof.
  intros Hb Hb' Ho Hq ->. revert Ho. destruct o; cbn [op_request]; try done; repeat case_decide; try done;
    intros Ho; apply (inj Some), request_inj in Ho as (_ & <- & ?); done.
Qed.

(** Requests that change what the store [b] holds under [key]. *)
Inductive writes (b : Z) (key : string) (c : string * list Z) : Prop :=
  | writes_put data : op_request b (Put key data) = Some c -> writes b key c
  | writes_remove : op_request b (Remove key) = Some c -> writes b key c.

Lemma spec_step_keeps b bs m o r m' key c :
  op_request b o = Some c -> ~ writes b key c -> spec_step bs m o r m' -> m' !! key = m !! key.
Proof.
  intros Ho Hw Hs. revert Ho.
  destruct Hs as [k data ?|k data|k data n ? ? ?|k x ? ?|k|k ?|k|s]; intros Ho; try done.
  - rewrite lookup_insert_ne; [done|]. intros ->. apply Hw. by eapply writes_put.
  - rewrite lookup_insert_ne; [done|]. intros ->. apply Hw. by eapply writes_put.
  - rewrite lookup_delete_ne; [done|]. intros ->. apply Hw. by eapply writes_remove.
Qed.

(** A block that was put and is still what the store holds. *)
Lemma spec_put_get bs m m1 m3 m4 key data block :
  spec_step bs m (Put key data) (RBool true) m1 -> spec_step bs m3 (Get key) (RBlock (Some block)) m4 ->
  m3 !! key = m1 !! key -> block = data.
Proof.
  intros Hs1 Hs2 Heq. inversion Hs1 as [? ? Hlen| | | | | | |]; subst.
  inversion Hs2 as [| | |? c Hc Hne| | | |]; subst.
  rewrite Heq, lookup_insert_eq in Hc. injection Hc as <-. rewrite Nat2Z.id. by rewrite take_ge.
Qed.

(** What the stores hold for a block. *)
Definition holding (M : stock) (b : Z) (key : string) : option (list Z) := M !! b ≫= lookup key.

Context (bsids : list Z) (Hids : Forall is_u64 bsids) (bs : Z -> Z).
Context (calls : nat * nat -> option (string * list Z)).

Lemma explained_keeps b key M log M' :
  explained bsids bs calls M log M' ->
  (forall c x, c ∈ log.*1 -> calls c = Some x -> ~ writes b key x) -> holding M' b key = holding M b key.
Proof.
  induction 1 as [M|M c x raw b' o r m m1 log M' Hc Hb Ho Hm Hs Hr _ IH|M c raw b' q log M' Hb Hq Hc _ IH];
    intros Hn; [done| |].
  - rewrite IH by (intros c' x' Hin; apply Hn; by right). unfold holding.
    destruct (decide (b = b')) as [->|Hne]; [|by rewrite lookup_insert_ne].
    rewrite lookup_insert_eq, Hm. simpl. eapply spec_step_keeps; [done| |done]. apply (Hn c); [left|done].
  - apply IH. intros c' x' Hin. apply Hn. by right.
Qed.

Lemma explained_app log1 : forall M log2 M'',
  explained bsids bs calls M (log1 ++ log2) M'' ->
  exists M', explained bsids bs calls M log1 M' /\ explained bsids bs calls M' log2 M''.
Proof.
  induction log1 as [|e log1 IH]; intros M log2 M'' Hex; [exists M; split; [constructor|done]|].
  inversion Hex as [|c x raw b o r m m1 log ? Hc Hb Ho Hm Hs Hr Hrest|c raw b q log ? Hb Hq Hc Hrest]; subst;
    destruct (IH _ _ _ Hrest) as (M' & H1' & H2'); exists M'; (split; [|done]);
    [by eapply explained_op|by eapply explained_query].
Qed.

(** The entry of an operation in an explained log. *)
Lemma explained_at b M c raw log M'' o :
  is_u64 b -> explained bsids bs calls M ((c, raw) :: log) M'' -> calls c = op_request b o ->
  exists m r m', M !! b = Some m /\ spec_step (bs b) m o r m' /\ client_result o raw = Ok r /\
    explained bsids bs calls (<[b := m']> M) log M''.
Proof using Hids.
  intros Hu Hex Hc. rewrite Forall_forall in Hids.
  inversion Hex as [|? x' ? b' o' r m m' ? ? Hc' Hb Ho' Hm Hs Hr Hrest|? ? b' q ? ? Hb Hq Hc' Hrest]; subst;
    rewrite Hc' in Hc; symmetry in Hc.
  - destruct (op_request_inj b o b' o' x') as [<- <-]; auto. by exists m, r, m'.
  - by destruct (op_not_query b o b' q (request b' q [])); auto.
Qed.

End Requests.
End RemoteNetFacts.

(** ** Properties *)

Module RemoteNetProps.
Import RemoteBlockStore FbsFacts FbsSpec RemoteRun RemoteNetFacts Net.

Section Props.
Context {Obj : Type} `{Msgpack Obj} `{!MsgpackLaws Obj}.
Context {W : Type} `{Posix W} `{Packable (list arg), Packable reply}.
Context (fuel : nat) (bsids : list Z) (Hids : Forall is_u64 bsids).
Context (dirs : Z -> string) `{L : !forall b, PosixLaws W (dirs b)} (bs : Z -> Z).
Context (Hdirs : forall b, b ∈ bsids -> dir_ok (dirs b)).
Context (Hapart : forall b b', b ∈ bsids -> b' ∈ bsids -> b <> b' -> PosixApart W (dirs b) (dirs b')).
Context (h0 : host (W := W)) (Hstores : stores_at bsids dirs bs h0).

Definition only_proxies (n : net (host (W := W))) : Prop :=
  forall c x, call_of n c = Some x -> proxy_call bsids x.

(** C20. Published stores of a server that runs one handler at a time (its event
    manager has one worker) are linearizable over the network: whatever any
    number of proxies call on any of the stores of the server, however their
    requests and responses are cut, delayed and interleaved, the executed calls
    have a serial order in which they are a run of the map specifications of
    the stores, each in a directory of its own, from the initial contents of
    the directories to the present ones; each call changes its own store only,
    and every answer a client has received is the answer of its own call in
    this run. *)
Theorem remote_store_linearizable (n : net host)
  (Hreach : rtc step (init (published fuel bsids) h0) n) (Hcalls : only_proxies n) :
  exists log, linearised h0 n log /\
    explained bsids bs (call_of n) (contents bsids dirs h0.2) log (contents bsids dirs (n_state n).2).
Proof using Hids Hdirs Hapart Hstores MsgpackLaws0.
  destruct (NetFacts.good_reach _ _ _ Hreach) as [Hf [log Hg]]. apply NetFacts.good_linearised in Hg.
  exists log. split; [done|]. destruct Hg as [_ Hs _]. rewrite Hf in Hs.
  by destruct (serial_explained fuel bsids Hids dirs bs Hdirs Hapart _ _ _ _ _ Hstores Hcalls Hs).
Qed.

(** C21. Read your writes, end to end: when a client was told that its
    [putBlock] on one of the stores succeeded, any client that asks this store
    for the block afterwards and gets an answer other than a failure gets
    exactly the bytes that were put, as long as no other call of the run puts
    or removes this block in this store, whatever is done to the others. *)
Theorem remote_read_your_write (n n' : net host) (b : Z) (key : string) (data block raw_put raw_get : list Z)
    (k1 i1 k2 i2 : nat) (l1 l2 : link host)
  (Hb : b ∈ bsids)
  (Hreach : rtc step (init (published fuel bsids) h0) n) (Hlater : rtc step n n')
  (Hcalls : only_proxies n')
  (Hl1 : n_links n !! k1 = Some l1) (Hset1 : Rpc.c_futures (n_client l1) !! i1 = Some (Some raw_put))
  (Hput : call_of n' (k1, i1) = op_request b (Put key data))
  (Htrue : client_result (Put key data) raw_put = Ok (RBool true))
  (Hnew : call_of n (k2, i2) = None) (Hl2 : n_links n' !! k2 = Some l2)
  (Hget : call_of n' (k2, i2) = op_request b (Get key))
  (Hset2 : Rpc.c_futures (n_client l2) !! i2 = Some (Some raw_get))
  (Hblock : client_result (Get key) raw_get = Ok (RBlock (Some block)))
  (Honly : forall c x, call_of n' c = Some x -> writes b key x -> c = (k1, i1)) :
  block = data.
Proof using Hids Hdirs Hapart Hstores MsgpackLaws0.
  destruct (NetFacts.good_reach _ _ _ Hreach) as [Hf [log Hg]].
  destruct (NetFacts.good_run _ _ _ Hlater _ Hg) as (Hf' & later & Hg').
  apply NetFacts.good_linearised in Hg as [_ Hs0 Hans0].
  apply NetFacts.good_linearised in Hg' as [Hnd Hs Hans]. rewrite Hf', Hf in Hs.
  assert ((k1, i1, raw_put) ∈ log) as Hin1 by (by eapply Hans0).
  assert ((k2, i2, raw_get) ∈ later) as Hin2.
  { pose proof (Hans _ _ _ _ Hl2 Hset2) as [Hin|?]%elem_of_app; [|done]. exfalso.
    apply list_elem_of_split in Hin as (l & a & ->).
    assert (linearised h0 n (l ++ (k2, i2, raw_get) :: a)) as Hlin.
    { split; [|done|done]. rewrite fmap_app in Hnd. by apply NoDup_app in Hnd as [? _]. }
    destruct (NetFacts.linearised_at _ _ _ _ _ _ Hlin) as (? & ? & ? & ? & ? & Hc & _). congruence. }
  assert (is_u64 b) as Hu by (by eapply Forall_forall in Hb).
  destruct (serial_explained fuel bsids Hids dirs bs Hdirs Hapart _ _ _ _ _ Hstores Hcalls Hs) as [_ Hex].
  apply list_elem_of_split in Hin1 as (b1 & a1 & ->). apply list_elem_of_split in Hin2 as (b2 & a2 & ->).
  rewrite <- app_assoc in Hex, Hnd. cbn [app] in Hex, Hnd. apply explained_app in Hex as (M1 & _ & Hex).
  destruct (explained_at bsids Hids bs _ b _ _ _ _ _ (Put key data) Hu Hex Hput)
    as (m1 & r1 & m1' & _ & Hs1 & Hr1 & Hex1). rewrite Htrue in Hr1. injection Hr1 as <-.
  rewrite app_assoc in Hex1. apply explained_app in Hex1 as (M3 & Hmid & Hex2).
  destruct (explained_at bsids Hids bs _ b _ _ _ _ _ (Get key) Hu Hex2 Hget)
    as (m3 & r2 & m4 & Hm3 & Hs2 & Hr2 & _). rewrite Hblock in Hr2. injection Hr2 as <-.
  apply (explained_keeps bsids bs _ b key) in Hmid.
  - unfold holding in Hmid. rewrite Hm3, lookup_insert_eq in Hmid. cbn [mbind option_bind] in Hmid.
    by rewrite (spec_put_get _ _ _ _ _ _ _ _ Hs1 Hs2 Hmid).
  - intros c' x Hin Hx Hw. specialize (Honly _ _ Hx Hw) as ->. rewrite fmap_app in Hnd.
    apply NoDup_app in Hnd as (_ & _ & Hnd). cbn in Hnd. apply NoDup_cons in Hnd as [Hnd _].
    apply Hnd. rewrite fmap_app in Hin |- *. clear -Hin. set_solver.
Qed.

End Props.

(** ** Witnesses *)

Import MiniPack.

(** A packed form of argument lists and replies. *)
Definition enc_arg (a : arg) : list Z :=
  match a with
  | AStr s => 0 :: Z.of_nat (length (octets s)) :: octets s
  | ABytes l => 1 :: Z.of_nat (length l) :: l
  end.

Fixpoint dec_args (fuel : nat) (l : list Z) : option (list arg) :=
  match fuel, l with
  | _, [] => Some []
  | S fuel, tag :: len :: rest =>
      let n := Z.to_nat len in
      args ← dec_args fuel (drop n rest);
      Some ((if tag =? 0 then AStr (of_octets (take n rest)) else ABytes (take n rest)) :: args)
  | _, _ => None
  end.

Lemma dec_enc_args args : forall fuel, (length args <= fuel)%nat ->
  dec_args fuel (concat (enc_arg <$> args)) = Some args.
Proof.
  induction args as [|a args IH]; intros [|fuel] Hf; simpl in *; try done; [lia|].
  destruct a; simpl; rewrite Nat2Z.id, drop_app_length, take_app_length, IH, ?of_octets_octets by lia; done.
Qed.

#[global] Instance mini_args : Packable (list arg).
Proof.
  refine {| pack args := Z.of_nat (length args) :: concat (enc_arg <$> args);
            unpack l := match l with n :: l => dec_args (Z.to_nat n) l | [] => None end |}.
  intros args. simpl. apply dec_enc_args. lia.
Defined.

#[global] Instance mini_reply : Packable reply.
Proof.
  refine {| pack r := match r with
                      | RemoteBlockStore.RBool b => [0; bool_to_Z b]
                      | RBytes l => 1 :: l
                      | RU64 n => [2; n]
                      end;
            unpack l := match l with
                        | [0; b] => Some (RemoteBlockStore.RBool (negb (b =? 0)))
                        | 1 :: l => Some (RBytes l)
                        | [2; n] => Some (RU64 n)
                        | _ => None
                        end |}.
  by intros [[]|l|n].
Defined.

(** A server with two stores in directories of their own. *)
Definition ids : list Z := [7; 12].
Definition dirs2 (b : Z) : string := if b =? 7 then "/a" else "/b".

Lemma dirs2_plain b : MultiFs.plain (dirs2 b).
Proof. unfold dirs2. by destruct (b =? 7). Qed.

#[local] Instance dirs2_laws b : PosixLaws MultiFs.mfs (dirs2 b) := MultiFs.mfs_laws (dirs2 b) (dirs2_plain b).

Lemma dirs2_apart b b' : b ∈ ids -> b' ∈ ids -> b <> b' -> PosixApart MultiFs.mfs (dirs2 b) (dirs2 b').
Proof.
  intros Hb Hb' Hne. apply MultiFs.mfs_apart. revert Hne.
  by repeat (apply elem_of_cons in Hb as [->|Hb] || apply elem_of_nil in Hb as [] ||
             apply elem_of_cons in Hb' as [->|Hb'] || apply elem_of_nil in Hb' as []).
Qed.

Lemma dirs2_ok b : dir_ok (dirs2 b).
Proof. unfold dirs2, dir_ok. destruct (b =? 7); (split; [by apply (bool_decide_unpack _)|by eexists]). Qed.

Lemma ids_u64 : Forall is_u64 ids.
Proof. repeat constructor; unfold is_u64; lia. Qed.

Definition sizes (b : Z) : Z := if b =? 7 then 4 else 2.
Definition empty_store (b : Z) : FileBlockStore.t :=
  FileBlockStore.Store None (sizes b) (dirs2 b) BloomProps.sample ∅ 9 0.
Definition server0 : host (W := MultiFs.mfs) :=
  ({[7 := empty_store 7; 12 := empty_store 12]}, MultiFs.disk {["/a" := ∅; "/b" := ∅]}).

Lemma server0_stores : stores_at ids dirs2 sizes server0.
Proof.
  intros b [->|[->|[]%elem_of_nil]%elem_of_cons]%elem_of_cons;
    (eexists; split_and!; [reflexivity|done|]; split; simpl; try done; exists []; split; [done|]; apply BloomProps.sample_empty).
Qed.

(** One client puts a block into store 7, another one a block of the same name
    into store 12, then a third one gets the block of store 7. *)
Definition funcs2 : gmap string (Rpc.RPCFunc (host (W := MultiFs.mfs))) := published 3 ids.
Definition put_7 : string * list Z := request 7 PutBlock [AStr "b"; ABytes [5; 6; 7; 8]].
Definition put_12 : string * list Z := request 12 PutBlock [AStr "b"; ABytes [1; 2]].
Definition get_7 : string * list Z := request 7 GetBlock [AStr "b"].
Definition after (c : string * list Z) (h : host (W := MultiFs.mfs)) : host :=
  match run 3 ids c.1 c.2 h with Ok (_, h) => h | Fault _ => h end.
Definition server1 : host := after put_7 server0.
Definition server2 : host := after put_12 server1.
Definition server3 : host := after get_7 server2.

Definition answered (r : reply) (c : string * list Z) : link host :=
  NetFacts.idle_link funcs2 {[0%nat := Some (pack r)]} [c].
Definition writer : link host := answered (RemoteBlockStore.RBool true) put_7.
Definition other : link host := answered (RemoteBlockStore.RBool true) put_12.
Definition reader : link host := answered (RBytes [5; 6; 7; 8]) get_7.
Definition after_puts : net host := mkNet funcs2 server2 [writer; other; new_link funcs2].
Definition after_get : net host := mkNet funcs2 server3 [writer; other; reader].

Lemma funcs2_method m b : b ∈ ids ->
  funcs2 !! MakeString (method_name m) b = Some (Rpc.deserializeArgs (method_handler 3 m b)).
Proof. apply published_method, ids_u64. Qed.

Lemma run_func m b args (h : host) r : b ∈ ids ->
  run 3 ids (MakeString (method_name m) b) args h = r -> Rpc.deserializeArgs (method_handler 3 m b) args h = r.
Proof. intros Hb. unfold run. fold funcs2. by rewrite funcs2_method. Qed.

Lemma in_7 : 7 ∈ ids.
Proof. left. Qed.

Lemma in_12 : 12 ∈ ids.
Proof. right. left. Qed.

Lemma run_put_7 : run 3 ids put_7.1 put_7.2 server0 = Ok (pack (RemoteBlockStore.RBool true), server1).
Proof. vm_compute. reflexivity. Qed.

Lemma run_put_12 : run 3 ids put_12.1 put_12.2 server1 = Ok (pack (RemoteBlockStore.RBool true), server2).
Proof. vm_compute. reflexivity. Qed.

Lemma run_get_7 : run 3 ids get_7.1 get_7.2 server2 = Ok (pack (RBytes [5; 6; 7; 8]), server3).
Proof. vm_compute. reflexivity. Qed.

Lemma reach_puts : rtc step (init funcs2 server0) after_puts.
Proof.
  do 3 (eapply rtc_l; [exact (step_connects _)|]).
  etransitivity.
  - exact (NetFacts.call_completes funcs2 server0 server1 [new_link funcs2; new_link funcs2; new_link funcs2] 0 ∅ []
             _ _ _ _ eq_refl eq_refl (funcs2_method PutBlock 7 in_7) (run_func PutBlock 7 _ _ _ in_7 run_put_7)).
  - exact (NetFacts.call_completes funcs2 server1 server2 [writer; new_link funcs2; new_link funcs2] 1 ∅ []
             _ _ _ _ eq_refl eq_refl (funcs2_method PutBlock 12 in_12) (run_func PutBlock 12 _ _ _ in_12 run_put_12)).
Qed.

Lemma reach_get : rtc step after_puts after_get.
Proof.
  exact (NetFacts.call_completes funcs2 server2 server3 [writer; other; new_link funcs2] 2 ∅ [] _ _ _ _
           eq_refl eq_refl (funcs2_method GetBlock 7 in_7) (run_func GetBlock 7 _ _ _ in_7 run_get_7)).
Qed.

Lemma after_get_calls c x : call_of after_get c = Some x ->
  c = (0%nat, 0%nat) /\ x = put_7 \/ c = (1%nat, 0%nat) /\ x = put_12 \/ c = (2%nat, 0%nat) /\ x = get_7.
Proof. destruct c as [[|[|[|k]]] [|i]]; cbn; intros [= <-]; auto. Qed.

Lemma simple_b : simple "b".
Proof. by apply (bool_decide_unpack _). Qed.

Lemma after_get_proxies : only_proxies ids after_get.
Proof.
  intros c x [[_ ->]|[[_ ->]|[_ ->]]]%after_get_calls.
  - exact (proxy_op ids _ 7 (Put "b" [5; 6; 7; 8]) in_7 simple_b eq_refl).
  - exact (proxy_op ids _ 12 (Put "b" [1; 2]) in_12 simple_b eq_refl).
  - exact (proxy_op ids _ 7 (Get "b") in_7 simple_b eq_refl).
Qed.

Lemma put_12_elsewhere key : ~ writes 7 key put_12.
Proof.
  intros [data Hw|Hw]; by destruct (op_request_inj 7 _ 12 (Put "b" [1; 2]) put_12
    (proj1 (Forall_forall _ _) ids_u64 _ in_7) (proj1 (Forall_forall _ _) ids_u64 _ in_12) Hw eq_refl).
Qed.

Lemma get_7_reads key : ~ writes 7 key get_7.
Proof.
  intros [data Hw|Hw]; by destruct (op_request_inj 7 _ 7 (Get "b") get_7
    (proj1 (Forall_forall _ _) ids_u64 _ in_7) (proj1 (Forall_forall _ _) ids_u64 _ in_7) Hw eq_refl).
Qed.

Lemma remote_store_linearizable_witness : exists log,
  linearised server0 after_get log /\
  explained ids sizes (call_of after_get) {[7 := ∅; 12 := ∅]} log
    {[7 := {["b"%string := [5; 6; 7; 8]]}; 12 := {["b"%string := [1; 2]]}]}.
Proof.
  apply (remote_store_linearizable 3 ids ids_u64 dirs2 sizes (fun b _ => dirs2_ok b) dirs2_apart
           server0 server0_stores after_get).
  - etransitivity; [exact reach_puts|exact reach_get].
  - exact after_get_proxies.
Defined.

Lemma remote_read_your_write_witness :
  client_result (Get "b") [1; 5; 6; 7; 8] = Ok (RBlock (Some [5; 6; 7; 8])) /\ [5; 6; 7; 8] = [5; 6; 7; 8].
Proof.
  split; [reflexivity|].
  apply (remote_read_your_write 3 ids ids_u64 dirs2 sizes (fun b _ => dirs2_ok b) dirs2_apart
           server0 server0_stores after_puts after_get 7
           "b" [5; 6; 7; 8] [5; 6; 7; 8] (pack (RemoteBlockStore.RBool true)) (pack (RBytes [5; 6; 7; 8]))
           0 0 2 0 writer reader).
  - exact in_7.
  - exact reach_puts.
  - exact reach_get.
  - exact after_get_proxies.
  - reflexivity.
  - reflexivity.
  - reflexivity.
  - reflexivity.
  - reflexivity.
  - reflexivity.
  - reflexivity.
  - reflexivity.
  - reflexivity.
  - intros c x [[-> _]|[[_ ->]|[_ ->]]]%after_get_calls; [done|by intros ?%put_12_elsewhere|by intros ?%get_7_reads].
Defined.

End RemoteNetProps.
