(* ===== verification/Fileutil.v ===== *)
(** * The command line tool (src/src/rpc/fileutil.cc)

    [main] as a function of the command line and of what is around it: the
    files it can read and write, and the answers of the server it connects
    to.  It returns the exit status and what it did, in order.  [stdio]
    functions on a stream that could not be opened, and the address of the
    first element of an empty vector, are undefined. *)

From S2P Require Import Prelude CppString Posix FileBlockStore Rpc RemoteBlockStore.
From Stdlib Require Import ZArith Lia Ascii.
From stdpp Require Import base gmap strings fin_maps numbers list.

Local Open Scope Z_scope.

Module Fileutil.

Inductive arg : Type := AStr (s : string) | ARaw (l : list Z) | AU16 (n : Z).

Inductive usage : Type := UsageMain | UsageGet | UsagePut | UsageRemove | UsageAddpeer.

Inductive action : Type :=
  | Usage (u : usage)
  | Connect (host : string) (port : Z)
  | Call (name : string) (args : list arg)
  | WriteFile (path : string) (contents : list Z)
  | Uploading (size : Z)
  | Returned (b : bool)
  | Unknown (cmd : string).

(** The surroundings: [fopen(path, "rb")] with the contents, whether
    [fopen(path, "wb")] succeeds, and what the calls return. *)
Record world : Type := World {
  readable : string -> option (list Z);
  writable : string -> bool;
  get_answer : string -> list Z;
  bool_answer : string -> list arg -> bool
}.

Definition fopen_rb (w : world) (path : string) : outcome (list Z) := deref (readable w (c_str path)).

Definition fopen_wb (w : world) (path : string) : outcome unit :=
  if writable w (c_str path) then Ok tt else Fault NullDeref.

Definition do_get (w : world) (key dest : string) : outcome (Z * list action) :=
  let ref := get_answer w key in
  _ ← fopen_wb w dest;
  Ok (0, [Call "get" [AStr key]; WriteFile dest ref]).

Definition do_put (w : world) (src key : string) : outcome (Z * list action) :=
  data ← fopen_rb w src;
  _ ← first_element data;
  let args := [AStr key; ARaw data] in
  Ok (0, [Uploading (Z.of_nat (length data)); Call "put" args; Returned (bool_answer w "put" args)]).

Definition do_call (w : world) (name : string) (args : list arg) : outcome (Z * list action) :=
  Ok (0, [Call name args; Returned (bool_answer w name args)]).

(** The commands, given the arguments that follow the command's name. *)
Definition command (w : world) (cmd : string) (rest : list string) : outcome (Z * list action) :=
  if bool_decide (cmd = "get"%string) then
    match rest with
    | key :: dest :: _ => do_get w key dest
    | _ => Ok (1, [Usage UsageGet])
    end
  else if bool_decide (cmd = "put"%string) then
    match rest with
    | src :: key :: _ => do_put w src key
    | _ => Ok (1, [Usage UsagePut])
    end
  else if bool_decide (cmd = "remove"%string) then
    match rest with
    | key :: _ => do_call w "remove" [AStr key]
    | _ => Ok (1, [Usage UsageRemove])
    end
  else if bool_decide (cmd = "addpeer"%string) then
    match rest with
    | hostb :: portb :: _ => do_call w "addpeer" [AStr hostb; AU16 (to_u16 (atoi portb))]
    | _ => Ok (1, [Usage UsageAddpeer])
    end
  else Ok (1, [Unknown cmd]).

(** [argv] includes the name of the program. *)
Definition main (w : world) (argv : list string) : outcome (Z * list action) :=
  match argv with
  | _ :: host :: port :: cmd :: rest =>
      '(status, acts) ← command w cmd rest;
      Ok (status, Connect host (to_u16 (atoi port)) :: acts)
  | _ => Ok (1, [Usage UsageMain])
  end.

Definition is_call (a : action) : bool := match a with Call _ _ => true | _ => false end.

Definition called (acts : list action) : list string :=
  omap (fun a => match a with Call name _ => Some name | _ => None end) acts.

End Fileutil.

Module FileutilProps.
Import Fileutil.

Definition names : list string := ["get"; "put"; "remove"; "addpeer"]%string.

Lemma command_cases w cmd rest st acts :
  command w cmd rest = Ok (st, acts) ->
  (st = 0 /\ called acts = [cmd] /\ cmd ∈ names) \/ (st = 1 /\ called acts = [] /\ length acts = 1%nat).
Proof.
  unfold command, do_get, do_put, do_call, fopen_wb, fopen_rb, first_element.
  intros H. repeat case_bool_decide; subst; destruct rest as [|x [|y rest]]; inv_ok; simpl;
    try (right; by split_and!); try (left; split_and!; [done|done|set_solver]).
Qed.

(** The arguments the command line stands for: the key, the key and the contents
    of the source file, or the address of the peer, whose port is 16 bits. *)
Definition arguments (w : world) (argv : list string) (name : string) : option (list arg) :=
  x ← argv !! 4%nat;
  if bool_decide (name = "put"%string) then
    key ← argv !! 5%nat; data ← readable w (c_str x); Some [AStr key; ARaw data]
  else if bool_decide (name = "addpeer"%string) then
    port ← argv !! 5%nat; Some [AStr x; AU16 (to_u16 (atoi port))]
  else Some [AStr x].

Lemma command_arguments w prog host port cmd rest st acts name args :
  command w cmd rest = Ok (st, acts) -> Call name args ∈ acts ->
  arguments w (prog :: host :: port :: cmd :: rest) name = Some args.
Proof.
  unfold command, do_get, do_put, do_call, fopen_rb, deref, arguments. intros Hrun Hin.
  repeat case_bool_decide; destruct rest as [|x [|y rest]]; inv_ok;
    repeat (apply elem_of_cons in Hin as [Hin|Hin]; simplify_eq/=); try (by apply elem_of_nil in Hin); try done.
  destruct (readable w (c_str x)); [|done]. by simplify_eq/=.
Qed.

Lemma command_no_connect w cmd rest st acts host port :
  command w cmd rest = Ok (st, acts) -> Connect host port ∉ acts.
Proof.
  unfold command, do_get, do_put, do_call. intros Hrun Hin.
  repeat case_bool_decide; destruct rest as [|x [|y rest]]; inv_ok; set_solver.
Qed.

(** C18. The exit status tells what happened: it is 0 exactly when the tool made
    one call, under the name of the command it was given and with the arguments
    that follow it, and 1 when it only printed a message; without at least
    three arguments it does not even connect; it connects to the host given
    first, at the number given second, truncated to 16 bits, and the port of
    [addpeer] is the last argument, truncated to 16 bits. *)
Theorem exit_status (w : world) (argv : list string) (st : Z) (acts : list action)
  (Hrun : main w argv = Ok (st, acts)) :
  (st = 0 /\ (exists cmd, argv !! 3%nat = Some cmd /\ called acts = [cmd] /\ cmd ∈ names) \/
   st = 1 /\ called acts = []) /\
  ((length argv < 4)%nat -> st = 1 /\ acts = [Usage UsageMain]) /\
  (forall host port, Connect host port ∈ acts ->
     argv !! 1%nat = Some host /\ exists s, argv !! 2%nat = Some s /\ port = to_u16 (atoi s)) /\
  (forall name args, Call name args ∈ acts -> arguments w argv name = Some args).
Proof.
  unfold main in Hrun. destruct argv as [|prog [|host [|port [|cmd rest]]]]; inv_ok;
    try (split_and!; [right; done|done| |]; intros h p Hin; set_solver).
  destruct a as [st' acts']. inv_ok. pose proof (command_cases _ _ _ _ _ Ha) as Hc. split_and!.
  - destruct Hc as [(-> & Hn & Hin)|(-> & Hn & _)]; [left|right]; simpl; rewrite Hn; [|done].
    split; [done|]. by exists cmd.
  - simpl. lia.
  - intros h p [Heq|Hin]%elem_of_cons; [injection Heq as -> ->; eauto|].
    by destruct (command_no_connect _ _ _ _ _ h p Ha).
  - intros name args [?|Hin]%elem_of_cons; [done|]. by eapply command_arguments.
Qed.

Lemma register_other {W} `{Posix W} fuel bsid (funcs : gmap string (RemoteBlockStore.handler (W := W))) name :
  name ∈ names -> RemoteBlockStore.RegisterRemoteBlockStore fuel bsid funcs !! name = funcs !! name.
Proof.
  intros Hname.
  assert (forall m, RemoteBlockStore.MakeString (RemoteBlockStore.method_name m) bsid <> name) as Hne.
  { intros m. rewrite RemoteFacts.MakeString_whole. intros <-. destruct m; simpl in Hname; set_solver. }
  unfold RemoteBlockStore.RegisterRemoteBlockStore, RemoteBlockStore.methods. cbn [foldl].
  by rewrite !lookup_insert_ne by apply Hne.
Qed.

Lemma register_all_other {W} `{Posix W} fuel bsids name : forall (funcs : gmap string (RemoteBlockStore.handler (W := W))),
  name ∈ names -> RemoteBlockStore.register_all fuel bsids funcs !! name = funcs !! name.
Proof.
  induction bsids as [|b bsids IH]; intros funcs Hname; [done|].
  unfold RemoteBlockStore.register_all in *. cbn [foldl]. rewrite IH by done. by apply register_other.
Qed.

(** Nobody serves these names: a server that publishes block stores, however
    many, answers every call of the tool by dropping the connection. *)
Theorem names_not_served {W St : Type} `{Posix W} (fuel : nat) (bsids : list Z)
    (adapt : RemoteBlockStore.handler (W := W) -> Rpc.RPCFunc St) (id : Z) (name : string) (args : list Z)
  (Hname : name ∈ names) :
  Rpc.request_task (adapt <$> RemoteBlockStore.register_all fuel bsids ∅) id name args = Rpc.TDisconnect.
Proof.
  unfold Rpc.request_task. rewrite lookup_fmap.
  enough (RemoteBlockStore.register_all (W := W) fuel bsids ∅ !! name = None) as -> by done.
  by rewrite register_all_other.
Qed.

(** Storing an empty file is not possible: the tool takes the address of the
    first element of an empty vector. *)
Theorem empty_upload_faults (w : world) (prog host port src key : string) (rest : list string)
  (Hempty : readable w (c_str src) = Some []) :
  main w (prog :: host :: port :: "put"%string :: src :: key :: rest) = Fault OutOfBounds.
Proof. unfold main, command. simpl. unfold do_put, fopen_rb. by rewrite Hempty. Qed.

(** ** Witnesses *)

Definition world0 : world :=
  World (fun p => if bool_decide (p = "f"%string) then Some [1; 2] else Some []) (fun _ => true)
        (fun _ => [7]) (fun _ _ => true).

Definition argv_addpeer : list string := ["fileutil"; "localhost"; "70000"; "addpeer"; "b"; "65537"]%string.

Lemma exit_status_witness :
  (exists s, argv_addpeer !! 2%nat = Some s /\ 4464 = to_u16 (atoi s)) /\
  arguments world0 argv_addpeer "addpeer" = Some [AStr "b"; AU16 1].
Proof.
  destruct (exit_status world0 argv_addpeer 0
    [Connect "localhost" 4464; Call "addpeer" [AStr "b"; AU16 1]; Returned true])
    as (_ & _ & Hconn & Hcall).
  - vm_compute. reflexivity.
  - split; [|apply Hcall; right; left]. apply (Hconn "localhost"%string). left.
Defined.

Lemma names_not_served_witness :
  Rpc.request_task (St := unit) ((fun _ _ st => Ok ([], st)) <$> RemoteBlockStore.register_all (W := MemFs.mem) 3 [7; 9] ∅)
    0 "get" [] = Rpc.TDisconnect.
Proof.
  apply (names_not_served 3 [7; 9] (fun _ _ st => Ok ([], st)) 0 "get" []).
  left.
Defined.

Lemma empty_upload_faults_witness :
  main world0 ["fileutil"; "localhost"; "80"; "put"; "empty"; "k"]%string = Fault OutOfBounds.
Proof. apply (empty_upload_faults world0). reflexivity. Defined.

End FileutilProps.
