(* ===== verification/BlockStoreDaemon.v ===== *)
(** * The block store daemon (src/src/blockstore/blockstore_daemon.h, .cc)

    [BlockStoreNode] keeps its peers by address and the block stores it knows
    by identifier: its own and those of its peers.  A peer is the state of its
    RPC client (null until connected) with the calls made on it, and the
    identifiers announced through it.  A registered store is the local
    directory or the peer it is reached through.  The timer chain of
    [start], [stop] and [onTimer] is a state machine of its own. *)

From S2P Require Import Prelude BloomFilter CppString RemoteBlockStore.
From Stdlib Require Import ZArith Lia Ascii.
From stdpp Require Import base gmap strings fin_maps numbers relations list.

Local Open Scope Z_scope.

Module BlockStoreNode.

(** ** Addresses *)

Record PeerAddr : Type := mkAddr { host : string; port : Z }.

#[global] Instance PeerAddr_eq_dec : EqDecision PeerAddr.
Proof. solve_decision. Defined.

#[global] Instance PeerAddr_countable : Countable PeerAddr.
Proof.
  refine (inj_countable' (fun a => (host a, port a)) (fun p => mkAddr p.1 p.2) _). by intros [].
Defined.

Definition addr_eq (a b : PeerAddr) : bool :=
  bool_decide (host a = host b) && (port a =? port b).

Definition addr_ne (a b : PeerAddr) : bool := negb (addr_eq a b).

(** [host < other.host || (host == other.host && port < other.port)]. *)
Definition addr_lt (a b : PeerAddr) : bool :=
  match String.compare (host a) (host b) with Lt => true | _ => false end ||
  (bool_decide (host a = host b) && (port a <? port b)).

(** ** Data *)

Inductive rpc_call : Type := CallAddPeer (h : string) (p : Z).

Record Peer : Type := mkPeer {
  _client : option (list rpc_call);
  _bsids : list Z
}.

(** How a block store is reached. *)
Inductive store_ref : Type :=
  | Local (path : string)
  | Remote (addr : PeerAddr) (bsid : Z).

Record t : Type := mkNode {
  _host : string;
  _port : Z;
  _peers : gmap PeerAddr Peer;
  _blockstores : gmap Z store_ref
}.

Definition with_peers (ps : gmap PeerAddr Peer) (this : t) : t :=
  mkNode (_host this) (_port this) ps (_blockstores this).

Definition with_stores (bs : gmap Z store_ref) (this : t) : t :=
  mkNode (_host this) (_port this) (_peers this) bs.

(** ** Peers *)

(** [Peer::connect]; [connected] is the answer of [TcpSocket::connect].  The
    future is already false, or the peer's answer to [addPeer]. *)
Definition connect (connected : bool) (myhost : string) (myport : Z) (p : Peer) : option bool * Peer :=
  if connected then (None, mkPeer (Some [CallAddPeer myhost myport]) (_bsids p))
  else (Some false, p).

(** A member call through the client's shared pointer. *)
Definition client_call (c : rpc_call) (p : Peer) : outcome Peer :=
  cs ← deref (_client p);
  Ok (mkPeer (Some (cs ++ [c])) (_bsids p)).

Definition setDisconnectCallback (p : Peer) : outcome Peer :=
  _ ← deref (_client p); Ok p.

Definition registerBlockStore (addr : PeerAddr) (bsid : Z) (p : Peer) : store_ref * Peer :=
  (Remote addr bsid, mkPeer (_client p) (_bsids p ++ [bsid])).

(** [_peers[addr]] is a null pointer for an unknown address. *)
Definition RemovePeer (addr : PeerAddr) (this : t) : outcome t :=
  peer ← deref (_peers this !! addr);
  let bs := foldl (fun bs bsid => delete bsid bs) (_blockstores this) (_bsids peer) in
  Ok (with_peers (delete addr (_peers this)) (with_stores bs this)).

(** The loop that introduces the new peer to the others. *)
Fixpoint introduce (addr : PeerAddr) (others : list PeerAddr) (p : Peer) : outcome Peer :=
  match others with
  | [] => Ok p
  | a :: others =>
      if addr_ne addr a then
        p ← client_call (CallAddPeer (host a) (port a)) p; introduce addr others p
      else introduce addr others p
  end.

Definition addr_le (a b : PeerAddr) : bool := addr_eq a b || addr_lt a b.

Definition RPCAddPeer (connected : bool) (h : string) (p : Z) (this : t) :
    outcome (option bool * t) :=
  let addr := mkAddr h p in
  match _peers this !! addr with
  | Some _ => Ok (Some true, this)
  | None =>
      let peer := mkPeer None [] in
      let this := with_peers (<[addr := peer]> (_peers this)) this in
      let '(ret, peer) := connect connected (_host this) (_port this) peer in
      let this := with_peers (<[addr := peer]> (_peers this)) this in
      peer ← setDisconnectCallback peer;
      peer ← introduce addr (map_in_order addr_le (_peers this)).*1 peer;
      Ok (ret, with_peers (<[addr := peer]> (_peers this)) this)
  end.

(** [RPCAddPeer] is not protected by a lock.  This is what a thread does after it
    has not found the address, whatever other threads do in between. *)
Definition RPCAddPeer_unknown (connected : bool) (addr : PeerAddr) (this : t) : outcome (option bool * t) :=
  let peer := mkPeer None [] in
  let this := with_peers (<[addr := peer]> (_peers this)) this in
  let '(ret, peer) := connect connected (_host this) (_port this) peer in
  let this := with_peers (<[addr := peer]> (_peers this)) this in
  peer ← setDisconnectCallback peer;
  peer ← introduce addr (map_in_order addr_le (_peers this)).*1 peer;
  Ok (ret, with_peers (<[addr := peer]> (_peers this)) this).

Definition RPCAddBlockStore (h : string) (p : Z) (bsid : Z) (this : t) : bool * t :=
  let addr := mkAddr h p in
  match _peers this !! addr with
  | Some peer =>
      match _blockstores this !! bsid with
      | Some _ => (false, this)
      | None =>
          let '(ref, peer) := registerBlockStore addr bsid peer in
          (true, with_peers (<[addr := peer]> (_peers this))
                   (with_stores (<[bsid := ref]> (_blockstores this)) this))
      end
  | None => (false, this)
  end.

(** The function registered as [addBlockStore]: the constructor binds the
    node's own host and port. *)
Definition rpc_addBlockStore (bsid : Z) (this : t) : bool * t :=
  RPCAddBlockStore (_host this) (_port this) bsid this.

Definition addPeer (connected : bool) (h : string) (p : Z) (this : t) : outcome (option bool * t) :=
  RPCAddPeer connected h p this.

Definition addBlockStore (bsid : Z) (pathname : string) (this : t) : t :=
  with_stores (<[bsid := Local pathname]> (_blockstores this)) this.

(** ** Blocks *)

Definition _findBestLocation {S} (hash : Z) : option (BlockStore S) := None.
Definition _findNextBestLocation {S} (hash : Z) : option (BlockStore S) := None.

(** Both stores have been asked for their free space. *)
Definition putBlockHelper {S} (name : string) (data : list Z) (bsA bsB : BlockStore S)
    (fA fB : Z) (s : S) : outcome (bool * S) :=
  if fA <? fB then putBlock (BlockStore := bsA) name data s
  else putBlock (BlockStore := bsB) name data s.

(** Asking two stores and storing in the one the helper chooses. *)
Definition place {S} (name : string) (data : list Z) (bsA bsB : BlockStore S) (s : S) :
    outcome (bool * S) :=
  '(fA, s) ← numFreeBlocks (BlockStore := bsA) s;
  '(fB, s) ← numFreeBlocks (BlockStore := bsB) s;
  putBlockHelper name data bsA bsB fA fB s.

Definition putBlock_ {S} (hash : string -> Z) (name : string) (data : list Z) (s : S) :
    outcome (bool * S) :=
  bsA ← deref (@_findBestLocation S (hash name));
  bsB ← deref (@_findNextBestLocation S (hash name));
  place name data bsA bsB s.

Definition getBlock_ (name : string) : option (list Z) := None.

(** ** The timer *)

Record timer : Type := Timer {
  server_up : bool;        (** [_rpc_server] is not null *)
  pending : nat;           (** enqueued calls of [onTimer] *)
  stopped : bool           (** [_stopped] was signalled *)
}.

Definition timer_init : timer := Timer true 0 false.

Definition start (s : timer) : timer := Timer (server_up s) (S (pending s)) (stopped s).

(** [stop] up to its wait. *)
Definition stop_request (s : timer) : timer := Timer false (pending s) (stopped s).

(** One pending call of [onTimer] runs. *)
Definition onTimer (s : timer) : timer :=
  if server_up s then Timer true (S (pending s)) (stopped s)
  else Timer false (pending s) true.

Definition tick (s : timer) : option timer :=
  match pending s with
  | O => None
  | S n => Some (onTimer (Timer (server_up s) n (stopped s)))
  end.

End BlockStoreNode.

Module DaemonFacts.
Import BlockStoreNode.

(** *** Addresses are ordered *)

Lemma ascii_compare_trans a b c :
  Ascii.compare a b = Lt -> Ascii.compare b c = Lt -> Ascii.compare a c = Lt.
Proof. unfold Ascii.compare. rewrite !N.compare_lt_iff. lia. Qed.

Lemma ascii_compare_refl a : Ascii.compare a a = Eq.
Proof. apply N.compare_refl. Qed.

Lemma string_compare_trans : forall a b c,
  String.compare a b = Lt -> String.compare b c = Lt -> String.compare a c = Lt.
Proof.
  induction a as [|x a IH]; intros [|y b] [|z c]; simpl; try done.
  destruct (Ascii.compare x y) eqn:Exy; try done; destruct (Ascii.compare y z) eqn:Eyz; try done.
  - apply Ascii.compare_eq_iff in Exy as ->. apply Ascii.compare_eq_iff in Eyz as ->. rewrite ascii_compare_refl. apply IH.
  - apply Ascii.compare_eq_iff in Exy as ->. by rewrite Eyz.
  - apply Ascii.compare_eq_iff in Eyz as <-. by rewrite Exy.
  - by rewrite (ascii_compare_trans _ _ _ Exy Eyz).
Qed.

Lemma string_compare_refl s : String.compare s s = Eq.
Proof. induction s as [|c s IH]; [done|]. simpl. by rewrite ascii_compare_refl. Qed.

Lemma addr_lt_spec a b :
  addr_lt a b = true <->
  String.compare (host a) (host b) = Lt \/ host a = host b /\ port a < port b.
Proof.
  unfold addr_lt. rewrite orb_true_iff, andb_true_iff, bool_decide_eq_true, Z.ltb_lt.
  destruct (String.compare (host a) (host b)); naive_solver.
Qed.

(** *** Who owns which store *)

(** Every store that is reached through a peer belongs to a connected peer
    that announced it, and no two peers announced the same one. *)
Record owns (this : t) : Prop := {
  own_remote k a b : _blockstores this !! k = Some (Remote a b) ->
    k = b /\ exists p, _peers this !! a = Some p /\ b ∈ _bsids p;
  own_bsid a p k : _peers this !! a = Some p -> k ∈ _bsids p ->
    _blockstores this !! k = Some (Remote a k) \/
    exists path, _blockstores this !! k = Some (Local path);
  own_disjoint a a' p p' k : _peers this !! a = Some p -> _peers this !! a' = Some p' ->
    k ∈ _bsids p -> k ∈ _bsids p' -> a = a';
  own_connected a p : _peers this !! a = Some p -> is_Some (_client p)
}.

Lemma lookup_delete_all {A} (ks : list Z) : forall (m : gmap Z A) k,
  foldl (fun m k => delete k m) m ks !! k = if decide (k ∈ ks) then None else m !! k.
Proof.
  induction ks as [|x ks IH]; intros m k; [done|]. simpl. rewrite IH, lookup_delete.
  repeat case_decide; subst; try done; exfalso; set_solver.
Qed.

Lemma introduce_spec addr others : forall p cs,
  _client p = Some cs ->
  introduce addr others p =
  Ok (mkPeer (Some (cs ++ ((fun a => CallAddPeer (host a) (port a)) <$>
                             filter (fun a => addr_ne addr a = true) others))) (_bsids p)).
Proof.
  induction others as [|a others IH]; intros p cs Hc; simpl.
  - rewrite app_nil_r, <- Hc. by destruct p.
  - rewrite filter_cons. destruct (addr_ne addr a).
    + rewrite decide_True by done. unfold client_call. rewrite Hc. simpl.
      rewrite (IH _ (cs ++ [CallAddPeer (host a) (port a)])) by done. simpl. by rewrite <- app_assoc.
    + rewrite decide_False by done. by apply IH.
Qed.

(** What [RPCAddPeer] does to a node that does not know the address yet. *)
Lemma RPCAddPeer_new h p this :
  _peers this !! mkAddr h p = None ->
  exists cs, RPCAddPeer true h p this =
    Ok (None, with_peers (<[mkAddr h p := mkPeer (Some (CallAddPeer (_host this) (_port this) :: cs)) []]>
                            (_peers this)) this).
Proof.
  intros Hn. unfold RPCAddPeer. rewrite Hn. cbn [connect setDisconnectCallback deref mbind outcome_bind _client].
  rewrite (introduce_spec _ _ _ [CallAddPeer (_host this) (_port this)]) by done.
  cbn [mbind outcome_bind app]. unfold with_peers. cbn [_host _port _peers _blockstores _bsids].
  rewrite !insert_insert_eq. by eexists.
Qed.

Lemma RPCAddPeer_ok connected h p this r this' :
  RPCAddPeer connected h p this = Ok (r, this') ->
  this' = this \/
  exists cs, this' = with_peers (<[mkAddr h p := mkPeer (Some cs) []]> (_peers this)) this /\
    _peers this !! mkAddr h p = None.
Proof.
  destruct (_peers this !! mkAddr h p) as [q|] eqn:E.
  - unfold RPCAddPeer. rewrite E. intros [= <- <-]. by left.
  - destruct connected.
    + destruct (RPCAddPeer_new h p this E) as [cs ->]. intros [= <- <-]. right. by eexists.
    + unfold RPCAddPeer. rewrite E. simpl. done.
Qed.

Lemma owns_add_peer connected h p this r this' :
  owns this -> RPCAddPeer connected h p this = Ok (r, this') -> owns this'.
Proof.
  intros Ho [->|(cs & -> & Hnew)]%RPCAddPeer_ok; [done|]. destruct Ho as [Hr Hb Hd Hc].
  set (addr := mkAddr h p) in *. split; simpl.
  - intros k a b Hk. destruct (Hr k a b Hk) as (-> & q & Hq & Hin). split; [done|].
    exists q. rewrite lookup_insert_ne by congruence. done.
  - intros a q k. rewrite lookup_insert. case_decide; [intros [= <-] Hin; simpl in Hin; set_solver|].
    apply Hb.
  - intros a a' q q' k. rewrite !lookup_insert. repeat case_decide; subst;
      intros; simplify_eq; simpl in *; try done; try set_solver; by eapply Hd.
  - intros a q. rewrite lookup_insert. case_decide; [intros [= <-]; by eexists|]. apply Hc.
Qed.

Lemma owns_add_store h p k this : owns this -> owns (RPCAddBlockStore h p k this).2.
Proof.
  intros Ho. unfold RPCAddBlockStore. set (addr := mkAddr h p).
  destruct (_peers this !! addr) as [q|] eqn:Eq; [|done].
  destruct (_blockstores this !! k) as [ref|] eqn:Ek; [done|]. destruct Ho as [Hr Hb Hd Hc].
  assert (forall a p', _peers this !! a = Some p' -> k ∉ _bsids p') as Hfree.
  { intros a p' Ha Hin. destruct (Hb a p' k Ha Hin) as [?|[path ?]]; congruence. }
  split; simpl.
  - intros k' a b. rewrite lookup_insert. case_decide.
    + intros [= <- <-]. split; [done|]. subst. eexists. rewrite lookup_insert_eq. split; [done|].
      simpl. set_solver.
    + intros Hk'. destruct (Hr k' a b Hk') as (-> & q' & Hq' & Hin). split; [done|].
      destruct (decide (a = addr)) as [->|Hne].
      * eexists. rewrite lookup_insert_eq. split; [done|]. simplify_eq. simpl. set_solver.
      * exists q'. by rewrite lookup_insert_ne.
  - intros a q' k'. rewrite !lookup_insert. case_decide; subst.
    + intros [= <-]. simpl. intros [Hin|Heq%list_elem_of_singleton]%elem_of_app.
      * rewrite decide_False by (intros ->; by eapply Hfree). by eapply Hb.
      * subst k'. rewrite decide_True by done. by left.
    + intros Ha Hin. rewrite decide_False by (intros ->; by eapply Hfree). by eapply Hb.
  - intros a a' q1 q2 k'. rewrite !lookup_insert. repeat case_decide; subst; intros; simplify_eq; simpl in *;
      try done; try (by eapply Hd).
    + destruct (decide (k' = k)) as [->|]; [exfalso; by eapply Hfree|].
      eapply (Hd _ _ q q2 k'); (done || set_solver).
    + destruct (decide (k' = k)) as [->|]; [exfalso; by eapply Hfree|].
      eapply (Hd _ _ q1 q k'); (done || set_solver).
  - intros a q'. rewrite lookup_insert. case_decide; [intros [= <-]; exact (Hc _ _ Eq)|]. apply Hc.
Qed.

Lemma owns_add_local k path this : owns this -> owns (addBlockStore k path this).
Proof.
  intros [Hr Hb Hd Hc]. split; simpl; try done.
  - intros k' a b. rewrite lookup_insert. case_decide; [done|]. apply Hr.
  - intros a p k' Ha Hin. rewrite lookup_insert. case_decide; [eauto|]. by eapply Hb.
Qed.

(** Removing a peer takes its stores along. *)
Lemma RemovePeer_spec addr p this :
  owns this -> _peers this !! addr = Some p ->
  exists this', RemovePeer addr this = Ok this' /\ owns this' /\
    _peers this' = delete addr (_peers this) /\
    forall k, _blockstores this' !! k = if decide (k ∈ _bsids p) then None else _blockstores this !! k.
Proof.
  intros [Hr Hb Hd Hc] Hp. unfold RemovePeer. rewrite Hp. simpl.
  eexists. split; [done|]. split; [|split; [done|intros k; apply lookup_delete_all]].
  split; simpl.
  - intros k a b. rewrite lookup_delete_all. case_decide as Hk; [done|]. intros Hka.
    destruct (Hr k a b Hka) as (-> & q & Hq & Hin). split; [done|]. exists q. split; [|done].
    rewrite lookup_delete_ne; [done|]. intros ->. congruence.
  - intros a q k. rewrite lookup_delete. case_decide; [done|]. intros Hq Hin. rewrite lookup_delete_all.
    rewrite decide_False; [by eapply Hb|]. intros Hk. by pose proof (Hd _ _ _ _ _ Hp Hq Hk Hin).
  - intros a a' q q' k. rewrite !lookup_delete. repeat case_decide; try done. by eapply Hd.
  - intros a q. rewrite lookup_delete. case_decide; [done|]. apply Hc.
Qed.

End DaemonFacts.

(** ** Properties *)

Module DaemonProps.
Import BlockStoreNode DaemonFacts.

(** What can happen to a node: the functions it registers, the disconnect
    callbacks and the calls of its user.  A call that faults ends the process
    and is not a step. *)
Inductive step (this : t) : t -> Prop :=
  | step_add_peer connected h p r this' :
      RPCAddPeer connected h p this = Ok (r, this') -> step this this'
  | step_remove_peer addr this' : RemovePeer addr this = Ok this' -> step this this'
  | step_add_store bsid : step this (rpc_addBlockStore bsid this).2
  | step_add_local bsid path : step this (addBlockStore bsid path this).

Definition fresh_node (h : string) (p : Z) : t := mkNode h p ∅ ∅.

Lemma step_owns this this' : owns this -> step this this' -> owns this'.
Proof.
  intros Ho [connected h p r st E|addr st E|k|k path].
  - by eapply owns_add_peer.
  - unfold RemovePeer in E. destruct (_peers this !! addr) as [q|] eqn:Eq; [|done].
    destruct (RemovePeer_spec addr q this Ho Eq) as (st' & E' & Ho' & _).
    unfold RemovePeer in E'. rewrite Eq in E'. rewrite E in E'. by injection E' as <-.
  - by apply owns_add_store.
  - by apply owns_add_local.
Qed.

(** The address a node announces stores under: its own. *)
Definition self (this : t) : PeerAddr := mkAddr (_host this) (_port this).

Definition self_announced (this : t) : Prop :=
  forall k a b, _blockstores this !! k = Some (Remote a b) -> a = self this.

Lemma step_self this this' : self_announced this -> step this this' -> self_announced this'.
Proof.
  intros Hs [connected h p r st E|addr st E|k|k path] k' a b.
  - destruct (RPCAddPeer_ok _ _ _ _ _ _ E) as [->|(cs & -> & _)]; apply Hs.
  - unfold RemovePeer in E. destruct (_peers this !! addr) as [q|]; [|done]. injection E as <-. simpl.
    rewrite lookup_delete_all. case_decide; [done|]. apply Hs.
  - unfold rpc_addBlockStore, RPCAddBlockStore. destruct (_peers this !! _) as [q|]; [|apply Hs].
    destruct (_blockstores this !! k); [apply Hs|]. simpl. rewrite lookup_insert.
    case_decide; [by intros [= <- _]|apply Hs].
  - simpl. rewrite lookup_insert. case_decide; [done|]. apply Hs.
Qed.

(** C34. Which stores a node can reach: in every state it gets into, a store
    that is reached through a peer was announced, under the node's own address,
    by the peer of that address, which is connected; and when a peer is removed,
    exactly the identifiers it has announced are erased from the table of
    stores, also when a local store was added under one of them in the
    meantime, so that no store that is reached through it is left. *)
Theorem peers_own_stores (h : string) (p : Z) (this : t)
  (Hreach : rtc step (fresh_node h p) this) :
  (forall k a b, _blockstores this !! k = Some (Remote a b) ->
     k = b /\ a = self this /\ exists q, _peers this !! a = Some q /\ b ∈ _bsids q /\ is_Some (_client q)) /\
  (forall addr q, _peers this !! addr = Some q ->
     exists this', RemovePeer addr this = Ok this' /\ _peers this' = delete addr (_peers this) /\
       (forall k, _blockstores this' !! k = if decide (k ∈ _bsids q) then None else _blockstores this !! k) /\
       (forall k b, _blockstores this' !! k <> Some (Remote addr b))).
Proof.
  assert (owns this /\ self_announced this) as [Ho Hself].
  { assert (owns (fresh_node h p) /\ self_announced (fresh_node h p)) as Hinit
      by (split; [split|]; simpl; repeat intro; simplify_map_eq).
    revert Hinit. induction Hreach as [|a b c Hab _ IH]; [done|]. intros [Ho Hs].
    apply IH. split; [by eapply step_owns|by eapply step_self]. }
  split.
  - intros k a b Hk. destruct (own_remote _ Ho k a b Hk) as (-> & q & Hq & Hin).
    pose proof (own_connected _ Ho a q Hq). eauto 10.
  - intros addr q Hq. destruct (RemovePeer_spec addr q this Ho Hq) as (this' & Hrm & Ho' & Hp & Hst).
    exists this'. split_and!; [done..|]. intros k b Hk.
    destruct (own_remote _ Ho' _ _ _ Hk) as (_ & q' & Hq' & _). rewrite Hp, lookup_delete_eq in Hq'. done.
Qed.

(** Two threads that are told about the same unknown node both insert a peer;
    the second replaces the first, whose connection breaks as well when the
    node goes down.  The callback that runs last finds no peer. *)
Theorem racing_threads_crash (x : PeerAddr) (this : t)
  (Hnew : _peers this !! x = None) :
  RPCAddPeer true (host x) (port x) this = RPCAddPeer_unknown true x this /\
  exists ret this1 this2 this3,
    RPCAddPeer_unknown true x this = Ok (ret, this1) /\ RPCAddPeer_unknown true x this1 = Ok (ret, this2) /\
    RemovePeer x this2 = Ok this3 /\ RemovePeer x this3 = Fault NullDeref.
Proof.
  assert (forall st, exists st', RPCAddPeer_unknown true x st = Ok (None, st') /\ is_Some (_peers st' !! x)) as Hstep.
  { intros st. unfold RPCAddPeer_unknown. cbn [connect setDisconnectCallback deref mbind outcome_bind _client].
    rewrite (introduce_spec _ _ _ [CallAddPeer (_host st) (_port st)]) by done.
    cbn [mbind outcome_bind]. eexists. split; [done|]. simpl. rewrite lookup_insert_eq. by eexists. }
  split; [destruct x as [h p]; unfold RPCAddPeer; cbn [host port]; by rewrite Hnew|].
  destruct (Hstep this) as (this1 & E1 & _), (Hstep this1) as (this2 & E2 & [q Hq]).
  exists None, this1, this2. unfold RemovePeer at 1. rewrite Hq. cbn [deref mbind outcome_bind].
  eexists. split_and!; [done|done|done|]. unfold RemovePeer. simpl. by rewrite lookup_delete_eq.
Qed.

(** The placement of a block is the opposite of the documented one: of
    two stores with different amounts of free space, the helper stores the
    block in the one that has less. *)
Theorem places_in_fuller_store {S : Type} (name : string) (data : list Z) (bsA bsB : BlockStore S)
    (s s1 s2 : S) (fA fB : Z)
  (HA : numFreeBlocks (BlockStore := bsA) s = Ok (fA, s1))
  (HB : numFreeBlocks (BlockStore := bsB) s1 = Ok (fB, s2)) :
  (fA < fB -> place name data bsA bsB s = putBlock (BlockStore := bsA) name data s2) /\
  (fB < fA -> place name data bsA bsB s = putBlock (BlockStore := bsB) name data s2).
Proof.
  unfold place. rewrite HA. cbn [mbind outcome_bind]. rewrite HB. cbn [mbind outcome_bind].
  unfold putBlockHelper. destruct (Z.ltb_spec fA fB); split; intros; (done || lia).
Qed.

(** A peer that cannot be reached brings the node down: [RPCAddPeer] for
    an unknown address whose connection fails uses the null client. *)
Theorem failed_connect_faults (h : string) (p : Z) (this : t)
  (Hnew : _peers this !! mkAddr h p = None) :
  RPCAddPeer false h p this = Fault NullDeref.
Proof. unfold RPCAddPeer. by rewrite Hnew. Qed.

(** Storing through the node always faults: no location is ever found. *)
Theorem node_put_faults {S : Type} (hash : string -> Z) (name : string) (data : list Z) (s : S) :
  putBlock_ hash name data s = Fault NullDeref.
Proof. done. Qed.

(** The announcement RPC checks the node's own address instead of the
    caller's: unless the node is its own peer, no store is ever accepted. *)
Theorem announcement_refused (this : t) (bsid : Z)
  (Hself : _peers this !! mkAddr (_host this) (_port this) = None) :
  rpc_addBlockStore bsid this = (false, this).
Proof. unfold rpc_addBlockStore, RPCAddBlockStore. by rewrite Hself. Qed.

(** [operator<] of the addresses is a strict total order, as [std::map]
    requires. *)
Theorem addr_order :
  (forall a, addr_lt a a = false) /\
  (forall a b c, addr_lt a b = true -> addr_lt b c = true -> addr_lt a c = true) /\
  (forall a b, addr_eq a b = true \/ addr_lt a b = true \/ addr_lt b a = true).
Proof.
  split_and!.
  - intros a. apply not_true_is_false. rewrite addr_lt_spec, string_compare_refl. intros [?|[_ ?]]; [done|lia].
  - intros a b c. rewrite !addr_lt_spec. intros [H1|[H1 H2]] [H3|[H3 H4]].
    + left. by eapply string_compare_trans.
    + left. by rewrite <- H3.
    + left. by rewrite H1.
    + right. split; [congruence|lia].
  - intros a b. rewrite !addr_lt_spec. unfold addr_eq. rewrite andb_true_iff, bool_decide_eq_true, Z.eqb_eq.
    destruct (String.compare (host a) (host b)) eqn:E; [|tauto|].
    + apply String.compare_eq_iff in E. rewrite E.
      destruct (Z.lt_trichotomy (port a) (port b)) as [?|[?|?]]; auto 6.
    + right; right; left. by rewrite String.compare_antisym, E.
Qed.

(** *** The timer chain *)

(** A started node keeps exactly one call pending however often it fires. *)
Lemma running_tick s : server_up s = true -> pending s = 1%nat -> tick s = Some s.
Proof. destruct s as [up n st]. simpl. intros -> ->. done. Qed.

(** After [start] and any number of ticks, [stop] is released by the next
    tick and nothing stays enqueued. *)
Theorem stop_released (n : nat) :
  let s := Nat.iter n (fun s => default s (tick s)) (start timer_init) in
  tick (stop_request s) = Some (Timer false 0 true).
Proof.
  cbn zeta. assert (Nat.iter n (fun s => default s (tick s)) (start timer_init) = start timer_init) as ->.
  { induction n as [|n IH]; [done|]. simpl. by rewrite IH. }
  done.
Qed.

(** Without [start] nothing can release [stop], nor the destructor. *)
Theorem stop_without_start_hangs : tick (stop_request timer_init) = None.
Proof. done. Qed.

(** ** Witnesses *)

(** A node that was told to connect to itself, announced a store, and then got
    a local store under the same identifier. *)
Definition node_a : t :=
  mkNode "a" 1 {[mkAddr "a" 1 := mkPeer (Some [CallAddPeer "a" 1]) [8; 9]]}
    {[8 := Remote (mkAddr "a" 1) 8; 9 := Local "./9/"]}.

Lemma node_a_reached : rtc step (fresh_node "a" 1) node_a.
Proof.
  eapply rtc_l; [eapply (step_add_peer _ true "a" 1); reflexivity|].
  eapply rtc_l; [apply (step_add_store _ 8)|]. eapply rtc_l; [apply (step_add_store _ 9)|].
  eapply rtc_l; [apply (step_add_local _ 9 "./9/")|]. apply rtc_refl.
Qed.

(** Both are gone when the connection is. *)
Lemma peers_own_stores_witness : exists this',
  RemovePeer (mkAddr "a" 1) node_a = Ok this' /\ _blockstores this' !! 8 = None /\ _blockstores this' !! 9 = None.
Proof.
  destruct (peers_own_stores "a" 1 node_a node_a_reached) as [_ Hrm].
  destruct (Hrm (mkAddr "a" 1) (mkPeer (Some [CallAddPeer "a" 1]) [8; 9]) eq_refl) as (this' & E & _ & Hst & _).
  exists this'. split; [exact E|]. rewrite !Hst. split; reflexivity.
Defined.

Lemma racing_threads_crash_witness : exists ret this1 this2 this3,
  RPCAddPeer_unknown true (mkAddr "b" 2) node_a = Ok (ret, this1) /\
  RPCAddPeer_unknown true (mkAddr "b" 2) this1 = Ok (ret, this2) /\
  RemovePeer (mkAddr "b" 2) this2 = Ok this3 /\ RemovePeer (mkAddr "b" 2) this3 = Fault NullDeref.
Proof. apply (racing_threads_crash (mkAddr "b" 2) node_a). reflexivity. Defined.

(** Two stores that report fixed amounts of free space and record their own
    number. *)
Definition toy_store (id free : Z) : BlockStore (list Z) := {|
  putBlock _ _ s := Ok (true, s ++ [id]);
  getBlock _ s := Ok (None, s);
  removeBlock _ s := Ok (false, s);
  blockSize s := Ok (1, s);
  numFreeBlocks s := Ok (free, s);
  numTotalBlocks s := Ok (free, s);
  bloomfilter s := Fault NullDeref
|}.

Lemma places_in_fuller_store_witness :
  place "k" [1] (toy_store 1 10) (toy_store 2 999) [] = Ok (true, [1]).
Proof.
  apply (places_in_fuller_store "k" [1] (toy_store 1 10) (toy_store 2 999) [] [] [] 10 999).
  - reflexivity.
  - reflexivity.
  - lia.
Defined.

Lemma failed_connect_faults_witness : RPCAddPeer false "c" 3 node_a = Fault NullDeref.
Proof.
  apply (failed_connect_faults "c" 3 node_a). reflexivity.
Defined.

End DaemonProps.
