(* ===== verification/NodeStart.v ===== *)
(** * Starting and ending nodes
      (src/src/rpc/service_node.cc, src/src/blockstore/blockstore_daemon.cc)

    How a [ServiceNode] and a [BlockStoreNode] choose the port they listen on,
    what a new node looks like, and what the destructor of a [ServiceNode]
    does to its connections.  [rand k] is the [k]-th number drawn from
    [rand()], and [listen port] tells whether [TcpListenSocket::create]
    succeeds; both belong to the system. *)

From S2P Require Import Prelude CppString Rpc RpcNet RpcLife ServiceNode RemoteBlockStore BlockStoreDaemon.
From Stdlib Require Import ZArith Lia Ascii.
From stdpp Require Import base gmap strings fin_maps numbers relations list.

Local Open Scope Z_scope.

Module NodeStart.

Section Start.
Context (rand : nat -> Z) (listen : Z -> bool).

(** The loop of [ServiceNode::create(em, host)], from the [k]-th draw on. *)
Fixpoint choose_port (fuel k : nat) : outcome Z :=
  match fuel with
  | O => Fault OutOfFuel
  | S fuel =>
      let port := to_u16 (rand k mod 40000 + 1024) in
      if listen port then Ok port else choose_port fuel (S k)
  end.

Definition create_anywhere (fuel : nat) (host : string) : outcome ServiceNode.Internal :=
  port ← choose_port fuel 0; Ok (ServiceNode.create host (to_u16 port)).

(** [ServiceNode::create(em, host, port)]: the port is an [int] here and
    truncated by the constructor of [Internal]. *)
Definition create_at (host : string) (port : Z) : option ServiceNode.Internal :=
  if listen port then Some (ServiceNode.create host (to_u16 port)) else None.

(** The constructor of [BlockStoreNode]. *)
Fixpoint choose_any_port (fuel k : nat) : outcome Z :=
  match fuel with
  | O => Fault OutOfFuel
  | S fuel => let port := to_u16 (rand k) in if listen port then Ok port else choose_any_port fuel (S k)
  end.

Definition new_daemon (fuel : nat) (host : string) : outcome BlockStoreNode.t :=
  port ← choose_any_port fuel 0; Ok (BlockStoreNode.mkNode host port ∅ ∅).

End Start.

(** ** The end of a node *)

Import ClientLife.

(** The connections of a node, each an [RPCClient].  [~ServiceNode] first
    drops them all ([shutdown]); a client that only the node referred to is
    destroyed with its entry. *)
Definition shutdown_clients (ps : gmap (string * Z) client) : gmap (string * Z) client := dtor <$> ps.

(** [~Internal] for the connections that are left: no callback, then
    disconnect. *)
Definition Internal_dtor (ps : gmap (string * Z) client) : gmap (string * Z) client :=
  (fun c => disconnect (setDisconnectCallback None c)) <$> ps.

(** [~ServiceNode]: the connections to the peers go first, then the server
    with the connections it accepted; [~Internal] then has no peers left.  The
    callbacks and the registered functions hold references to [Internal]; with
    the clients and the server they are gone. *)
Definition ServiceNode_dtor (ps : gmap (string * Z) client) (sv : ServerLife.server) :
    gmap (string * Z) client * ServerLife.server :=
  let ps := shutdown_clients ps in
  let sv := ServerLife.dtor sv in
  (ps, sv).

End NodeStart.

Module NodeStartFacts.
Import NodeStart.

Section Facts.
Context (rand : nat -> Z) (listen : Z -> bool).

Lemma port_range k : 1024 <= to_u16 (rand k mod 40000 + 1024) < 41024.
Proof.
  pose proof (Z.mod_pos_bound (rand k) 40000 ltac:(lia)). unfold to_u16. rewrite Z.mod_small; lia.
Qed.

Lemma choose_port_ok fuel : forall k port, choose_port rand listen fuel k = Ok port ->
  1024 <= port < 41024 /\ listen port = true.
Proof.
  induction fuel as [|fuel IH]; intros k port; [done|]. simpl.
  destruct (listen (to_u16 _)) eqn:E; [|apply IH]. intros [= <-]. split; [apply port_range|done].
Qed.

(** The loop ends at the first draw that can be listened on. *)
Lemma choose_port_ends j : forall k fuel,
  (forall i, (i < j)%nat -> listen (to_u16 (rand (k + i)%nat mod 40000 + 1024)) = false) ->
  listen (to_u16 (rand (k + j)%nat mod 40000 + 1024)) = true -> (j < fuel)%nat ->
  choose_port rand listen fuel k = Ok (to_u16 (rand (k + j)%nat mod 40000 + 1024)).
Proof.
  induction j as [|j IH]; intros k [|fuel] Hno Hyes Hf; try lia; cbn [choose_port].
  - rewrite Nat.add_0_r in *. by rewrite Hyes.
  - pose proof (Hno 0%nat ltac:(lia)) as H0. rewrite Nat.add_0_r in H0. rewrite H0, (IH (S k)).
    + do 5 f_equal. lia.
    + intros i Hi. rewrite <- (Hno (S i)) by lia. do 5 f_equal. lia.
    + rewrite <- Hyes. do 5 f_equal. lia.
    + lia.
Qed.

Lemma choose_any_port_ok fuel : forall k port, choose_any_port rand listen fuel k = Ok port ->
  0 <= port < 2 ^ 16 /\ listen port = true.
Proof.
  induction fuel as [|fuel IH]; intros k port; [done|]. simpl.
  destruct (listen (to_u16 _)) eqn:E; [|apply IH]. intros [= <-]. split; [|done].
  unfold to_u16. apply Z.mod_pos_bound. lia.
Qed.

End Facts.

(** Every reference count of the node is a positive [int]. *)
Definition counted (this : ServiceNode.Internal) : Prop :=
  forall g v n, ServiceNode.group_of this g !! v = Some n -> 1 <= n <= INT_MAX.

Import ServiceNode NodeFacts NodeProps.

Lemma counted_set g ms this :
  counted this -> (forall v n, ms !! v = Some n -> 1 <= n <= INT_MAX) -> counted (set_group g ms this).
Proof. intros Hc Hms g' v n. rewrite group_of_set. case_decide; [apply Hms|apply Hc]. Qed.

Lemma counted_ext this this' :
  counted this -> (forall g, group_of this' g = group_of this g) -> counted this'.
Proof. intros Hc He g v n. rewrite He. apply Hc. Qed.

Lemma increment_range n m : 1 <= n <= INT_MAX -> increment n = Ok m -> 1 <= m <= INT_MAX.
Proof. unfold increment. intros Hn. destruct (Z.eqb_spec n INT_MAX); [done|]. intros [= <-]. lia. Qed.

Lemma counted_RPCAdd g v this this' : counted this -> RPCAddToGroup g v this = Ok this' -> counted this'.
Proof.
  intros Hc. unfold RPCAddToGroup. destruct (group_of this g !! v) as [n|] eqn:E; intros Hrun.
  - inv_ok. apply counted_set; [done|]. intros v' n' [[-> <-]|[_ Hv]]%lookup_insert_Some; [|by eapply Hc].
    eapply increment_range; [by eapply Hc|done].
  - assert (counted (set_group g (<[v := 1]> (group_of this g)) this)) as Hs.
    { apply counted_set; [done|]. intros v' n' [[-> <-]|[_ Hv]]%lookup_insert_Some; [unfold INT_MAX; lia|by eapply Hc]. }
    destruct (_group_callbacks _ !! g); inv_ok; [|done]. by eapply counted_ext.
Qed.

Lemma counted_RPCRemove g v this :
  counted this -> v ∈ dom (group_of this g) -> counted (RPCRemoveFromGroup g v this).
Proof.
  intros Hc [n Hn]%elem_of_dom. unfold RPCRemoveFromGroup. rewrite Hn.
  assert (counted (set_group g (delete v (group_of this g)) this)) as Hs.
  { apply counted_set; [done|]. intros v' n' [_ Hv]%lookup_delete_Some. by eapply Hc. }
  destruct (n =? 1); [destruct (_group_callbacks _ !! g); [by eapply counted_ext|done]|].
  apply counted_set; [done|]. intros v' n'. apply Hc.
Qed.

Lemma counted_step this this' : counted this -> NodeProps.step this this' -> counted this'.
Proof.
  intros Hc Hs.
  destruct Hs as [g v this' E|g v Hv|g v this' E|g v Hv|g cb Hcb|g|addr|addr|].
  - destruct (addToGroup_remote g v this) as (cs & _ & Heq). rewrite Heq in E.
    destruct (RPCAddToGroup _ _ _) as [this1|] eqn:E1; [|done]. simpl in E. injection E as <-.
    apply (counted_ext this1); [|done]. by eapply counted_RPCAdd in E1.
  - rewrite removeFromGroup_present by done. by apply counted_RPCRemove.
  - by eapply counted_RPCAdd.
  - by apply counted_RPCRemove.
  - eapply counted_ext; [exact Hc|]. intros g'. unfold group_of at 1. simpl.
    destruct (decide (g = g')) as [->|Hne]; [by rewrite lookup_insert_eq|by rewrite lookup_insert_ne].
  - by eapply counted_ext.
  - by eapply counted_ext.
  - by eapply counted_ext.
  - by eapply counted_ext.
Qed.

End NodeStartFacts.

(** ** Properties *)

Module NodeStartProps.
Import NodeStart NodeStartFacts.

(** C30. A new node is well formed: [ServiceNode::create] without a port ends at
    the first random number it can listen on, and returns a node on that
    port, between 1024 and 41023, without peers or members. *)
Theorem create_ends (rand : nat -> Z) (listen : Z -> bool) (host : string) (j : nat)
  (Hfails : forall i, (i < j)%nat -> listen (to_u16 (rand i mod 40000 + 1024)) = false)
  (Hworks : listen (to_u16 (rand j mod 40000 + 1024)) = true) :
  exists port, ends (fun fuel => create_anywhere rand listen fuel host) (ServiceNode.create host port) /\
    1024 <= port < 41024 /\ listen port = true.
Proof.
  pose proof (port_range rand j) as Hp. set (port := to_u16 (rand j mod 40000 + 1024)) in *.
  exists port. split; [|by split]. exists (S j). intros fuel Hf. unfold create_anywhere.
  rewrite (choose_port_ends rand listen j 0 fuel) by (done || lia). cbn [plus mbind outcome_bind].
  fold port. clearbody port. unfold to_u16. rewrite Z.mod_small by lia. done.
Qed.

(** C29. Types: in every state a node reaches by local and remote operations, the
    reference count of every member of every group is a positive [int]: the
    entries that [removeFromGroup] would create by mistake, with a count of 0
    or -1, never appear as long as only members are removed. *)
Theorem counts_typed (host : string) (port : Z) (this : ServiceNode.Internal)
  (Hreach : rtc NodeProps.step (ServiceNode.create host port) this) :
  forall g v n, ServiceNode.group_of this g !! v = Some n -> 1 <= n <= INT_MAX.
Proof.
  enough (counted this) as Hc by exact Hc.
  assert (counted (ServiceNode.create host port)) as Hinit by (by intros g v n).
  clear -Hreach Hinit. induction Hreach as [|a b c Hab _ IH]; [done|]. apply IH. by eapply counted_step.
Qed.

(** The end of a node reaches its connections: whatever state a connection is
    in, after [~Internal] it is closed, no call on it is waiting, and the
    callback into the node that is going away can not run any more. *)
Theorem node_end_disconnects (ps : gmap (string * Z) ClientLife.client) (a : string * Z) (c : ClientLife.client)
  (Hc : Internal_dtor ps !! a = Some c) :
  ClientLife.callback c = None /\ notifies (ClientLife.socket c) = false /\
  k_receive (ClientLife.socket c) = false /\ Rpc._respCallbacks (ClientLife.internal c) = ∅ /\
  ClientLife.fired (ClientLife.peer_closes c) = ClientLife.fired c.
Proof.
  unfold Internal_dtor in Hc. rewrite lookup_fmap in Hc. apply fmap_Some in Hc as (c0 & _ & ->). done.
Qed.

(** A node goes down completely: whatever its server and its clients have
    been through, after [~ServiceNode] every connection, made or accepted, is
    closed, none of them can call back into the node, and the server does not
    listen any more. *)
Theorem node_goes_down (ps : gmap (string * Z) ClientLife.client) (sv : ServerLife.server)
  (Hheld : ServerLife.held sv = ∅) :
  let '(ps', sv') := ServiceNode_dtor ps sv in
  ServerLife.listening sv' = false /\
  (forall id c, ServerLife.internals sv' !! id = Some c -> ServerLifeFacts.released c) /\
  (forall a c, ps' !! a = Some c -> ClientLife.callback c = None /\ notifies (ClientLife.socket c) = false /\
     ClientLife.fired (ClientLife.peer_closes c) = ClientLife.fired c).
Proof.
  cbn. split_and!; [done| |].
  - intros id c. rewrite map_lookup_imap. destruct (ServerLife.internals sv !! id) as [c0|]; [|done].
    simpl. rewrite Hheld, decide_False by set_solver. intros [= <-]. done.
  - intros a c. unfold shutdown_clients. rewrite lookup_fmap. by intros (c0 & _ & ->)%fmap_Some.
Qed.

(** A daemon may listen on any of the 65536 ports: nothing keeps it from
    drawing a privileged one, or port 0, which stands for any free port, so
    that the address it tells its peers is not the one it listens on. *)
Theorem daemon_port_zero (rand : nat -> Z) (listen : Z -> bool) (host : string) (k : Z)
  (Hrand : rand 0%nat = k * 2 ^ 16) (Hlisten : listen 0 = true) :
  ends (fun fuel => new_daemon rand listen fuel host) (BlockStoreNode.mkNode host 0 ∅ ∅).
Proof.
  exists 1%nat. intros [|fuel] Hf; [lia|]. unfold new_daemon. simpl. rewrite Hrand. unfold to_u16.
  rewrite Z_mod_mult. by rewrite Hlisten.
Qed.

(** ** Witnesses *)

Lemma create_ends_witness : exists port,
  ends (fun fuel => create_anywhere (fun k => 39999 + Z.of_nat k) (fun p => p =? 1025) fuel "h") (ServiceNode.create "h" port) /\
  1024 <= port < 41024 /\ (port =? 1025) = true.
Proof.
  apply (create_ends (fun k => 39999 + Z.of_nat k) (fun p => p =? 1025) "h" 2).
  - intros i Hi. assert (i = 0%nat \/ i = 1%nat) as [-> | ->] by lia; vm_compute; reflexivity.
  - vm_compute. reflexivity.
Defined.

Lemma counts_typed_witness : 1 <= 2 <= INT_MAX.
Proof.
  apply (counts_typed "a" 1 (NodeProps.node_a 2)) with (g := "g"%string) (v := "m"%string).
  - eapply rtc_l; [apply (NodeProps.step_add _ "g" "m" (NodeProps.node_a 1)); vm_compute; reflexivity|].
    eapply rtc_l; [apply (NodeProps.step_add _ "g" "m" (NodeProps.node_a 2)); vm_compute; reflexivity|]. apply rtc_refl.
  - vm_compute. reflexivity.
Defined.

Definition open_client : ClientLife.client :=
  ClientLife.setDisconnectCallback (Some 3%nat) (ClientLife.start ClientLife.create).

Lemma node_end_disconnects_witness :
  ClientLife.fired (ClientLife.peer_closes (ClientLife.disconnect (ClientLife.setDisconnectCallback None open_client))) = [].
Proof.
  apply (node_end_disconnects {[("a"%string, 1) := open_client]} ("a"%string, 1)
           (ClientLife.disconnect (ClientLife.setDisconnectCallback None open_client))).
  vm_compute. reflexivity.
Defined.

Lemma node_goes_down_witness :
  ServerLife.listening (ServiceNode_dtor {[("a"%string, 1) := open_client]}
    (foldl ServerLife.step ServerLife.create [ServerLife.Start; ServerLife.Accept])).2 = false.
Proof.
  apply (node_goes_down {[("a"%string, 1) := open_client]}
           (foldl ServerLife.step ServerLife.create [ServerLife.Start; ServerLife.Accept])).
  reflexivity.
Defined.

Lemma daemon_port_zero_witness :
  ends (fun fuel => new_daemon (fun _ => 131072) (fun _ => true) fuel "h") (BlockStoreNode.mkNode "h" 0 ∅ ∅).
Proof.
  apply (daemon_port_zero (fun _ => 131072) (fun _ => true) "h" 2).
  - reflexivity.
  - reflexivity.
Defined.

End NodeStartProps.
