(* ===== verification/DaemonMesh.v ===== *)
(** * A network of block store nodes (src/src/blockstore/blockstore_daemon.h, .cc)

    [BlockStoreNode] and [ServiceNode] introduce their peers to each other in
    the same way, in code that was written twice.  [dmesh] is a network of
    [BlockStoreNode]s like the one of [Mesh], whose nodes may leave, or crash
    when a call faults ([d_crashes]).  Calls, callbacks and the operations of
    users are steps of their own, which do not overlap at a node: with several
    threads at one node [DaemonProps.racing_threads_crash] can happen.
    [DaemonMeshFacts] shows that a step of it is a step of a network of service
    nodes, up to the order of the calls on their way, so that what is proved
    there holds here; [main] is the demonstration in [blockstore_daemon.cc]:
    five nodes in a ring. *)

From S2P Require Import Prelude ServiceNode Mesh RemoteBlockStore BlockStoreDaemon.
From Stdlib Require Import ZArith Lia Ascii.
From stdpp Require Import base gmap strings fin_maps numbers relations list.

Local Open Scope Z_scope.

Module DaemonMesh.
Import BlockStoreNode.

Record dmesh : Type := mkDMesh {
  d_nodes : gmap PeerAddr t;
  d_soup : list (PeerAddr * PeerAddr * rpc_call);  (** who wrote it, to whom *)
  d_lost : list (PeerAddr * PeerAddr);             (** disconnect callbacks that have not run yet *)
  d_gone : gset PeerAddr
}.

Definition d_empty : dmesh := mkDMesh ∅ [] [] ∅.

(** The calls written to the clients since they were last taken. *)
Definition d_outbox (this : t) : list (PeerAddr * rpc_call) :=
  '(b, p) ← map_in_order addr_le (_peers this); (fun c => (b, c)) <$> default [] (_client p).

Definition d_flush_peer (p : Peer) : Peer := mkPeer ((fun _ => []) <$> _client p) (_bsids p).

Definition d_flushed (this : t) : t := with_peers (d_flush_peer <$> _peers this) this.

Definition d_update (a : PeerAddr) (this : t) (rest : list (PeerAddr * PeerAddr * rpc_call)) (d : dmesh) : dmesh :=
  mkDMesh (<[a := d_flushed this]> (d_nodes d)) (rest ++ ((fun '(b, c) => (a, b, c)) <$> d_outbox this))
    (d_lost d) (d_gone d).

Definition d_lose (lst : list (PeerAddr * PeerAddr)) (d : dmesh) : dmesh :=
  mkDMesh (d_nodes d) (d_soup d) lst (d_gone d).

Definition d_reachable (d : dmesh) (a : PeerAddr) : bool := bool_decide (a ∈ dom (d_nodes d)).

Definition d_peers (d : dmesh) (a : PeerAddr) : gset PeerAddr :=
  match d_nodes d !! a with Some this => dom (_peers this) | None => ∅ end.

(** A worker executes one of the calls on their way, or the disconnect
    callback of a client whose peer is gone. *)
Inductive d_delivers (d : dmesh) : dmesh -> Prop :=
  | d_deliver i s a h p this ret this' :
      d_soup d !! i = Some (s, a, CallAddPeer h p) -> d_nodes d !! a = Some this ->
      RPCAddPeer (d_reachable d (mkAddr h p)) h p this = Ok (ret, this') ->
      d_delivers d (d_update a this' (delete i (d_soup d)) d)
  | d_disconnect j a x this this' :
      d_lost d !! j = Some (a, x) -> d_nodes d !! a = Some this -> RemovePeer x this = Ok this' ->
      d_delivers d (d_lose (delete j (d_lost d)) (d_update a this' (d_soup d) d)).

(** The nodes with a client that is connected to [a]; each has one. *)
Definition d_notices (d : dmesh) (a : PeerAddr) : list (PeerAddr * PeerAddr) :=
  (fun b => (b, a)) <$> elements (filter (fun b => b <> a /\ a ∈ d_peers d b) (dom (d_nodes d))).

(** The node [a] goes down: calls to it are lost, those it has written may be,
    and its peers will be told. *)
Inductive d_leaves (a : PeerAddr) (d : dmesh) : dmesh -> Prop :=
  | d_left rest : a ∈ dom (d_nodes d) ->
      rest ⊆+ filter (fun c => c.1.2 <> a) (d_soup d) ->
      filter (fun c => c.1.1 <> a /\ c.1.2 <> a) (d_soup d) ⊆+ rest ->
      d_leaves a d (mkDMesh (delete a (d_nodes d)) rest
                      (filter (fun c => c.1 <> a) (d_lost d) ++ d_notices d a) ({[a]} ∪ d_gone d)).

(** A call that faults takes the process of its node with it.  A connection to a
    node that is up can fail, too. *)
Inductive d_crashes (d : dmesh) : dmesh -> Prop :=
  | d_crash s a h p this connected f d' :
      (s, a, CallAddPeer h p) ∈ d_soup d -> d_nodes d !! a = Some this ->
      (connected = true -> d_reachable d (mkAddr h p) = true) ->
      RPCAddPeer connected h p this = Fault f -> d_leaves a d d' -> d_crashes d d'.

(** What goes on without the users. *)
Definition d_works (d d' : dmesh) : Prop := d_delivers d d' \/ d_crashes d d'.

Definition d_quiet (d : dmesh) : Prop := d_soup d = [] /\ d_lost d = [].

(** Workers and users; a node can leave at any time, also because it crashed. *)
Inductive dstep (d : dmesh) : dmesh -> Prop :=
  | d_worker d' : d_delivers d d' -> dstep d d'
  | d_create a : a ∉ dom (d_nodes d) -> a ∉ d_gone d ->
      dstep d (mkDMesh (<[a := mkNode (host a) (port a) ∅ ∅]> (d_nodes d)) (d_soup d) (d_lost d) (d_gone d))
  | d_addPeer a b this ret this' : d_nodes d !! a = Some this -> a <> b ->
      addPeer (d_reachable d b) (host b) (port b) this = Ok (ret, this') ->
      dstep d (d_update a this' (d_soup d) d)
  | d_addBlockStore a bsid path this : d_nodes d !! a = Some this ->
      dstep d (d_update a (addBlockStore bsid path this) (d_soup d) d)
  | d_leave a d' : d_leaves a d d' -> dstep d d'.

(** ** The demonstration

    [main] with the ports the five nodes chose.  The constructors and
    [addBlockStore]s run before anything else is connected; then the main
    thread makes its [addPeer] calls one after the other, while the workers
    execute the calls the nodes make.  [start], which all nodes have been
    through by then, concerns the timer ([BlockStoreNode.start]) and lets the
    server accept what is connected to it.  The main thread waits for the
    answer of each of its calls: [main_step] does not make it wait, which only
    adds interleavings, and [patient_step] makes it wait until no call at all
    is on its way. *)
Definition create_node (p : Z) (d : dmesh) : dmesh :=
  let a := mkAddr "127.0.0.1" p in
  mkDMesh (<[a := mkNode (host a) (port a) ∅ ∅]> (d_nodes d)) (d_soup d) (d_lost d) (d_gone d).

Definition node_addBlockStore (p bsid : Z) (pathname : string) (d : dmesh) : dmesh :=
  let a := mkAddr "127.0.0.1" p in
  match d_nodes d !! a with
  | Some this => d_update a (addBlockStore bsid pathname this) (d_soup d) d
  | None => d
  end.

Definition main_setup (p1 p2 p3 p4 p5 : Z) : dmesh :=
  let d := create_node p1 d_empty in
  let d := create_node p2 d in
  let d := create_node p3 d in
  let d := create_node p4 d in
  let d := create_node p5 d in
  let d := node_addBlockStore p1 0x01234567 "./01234567/" d in
  let d := node_addBlockStore p1 0x89abcdef "./89abcdef/" d in
  let d := node_addBlockStore p2 0x00112233 "./00112233/" d in
  let d := node_addBlockStore p2 0x44556677 "./44556677/" d in
  let d := node_addBlockStore p3 0x8899aabb "./8899aabb/" d in
  node_addBlockStore p3 0xccddeeff "./ccddeeff/" d.

(** The calls [bsn<i>.addPeer("127.0.0.1", bsn<j>.port())]. *)
Definition main_peers (p1 p2 p3 p4 p5 : Z) : list (Z * Z) :=
  [(p1, p2); (p2, p3); (p3, p4); (p4, p5); (p5, p1)].

(** The calls [main] still has to make, and the network. *)
Inductive main_step : list (Z * Z) * dmesh -> list (Z * Z) * dmesh -> Prop :=
  | main_addPeer p q todo d this ret this' :
      let a := mkAddr "127.0.0.1" p in
      let b := mkAddr "127.0.0.1" q in
      d_nodes d !! a = Some this ->
      addPeer (d_reachable d b) (host b) (port b) this = Ok (ret, this') ->
      main_step ((p, q) :: todo, d) (todo, d_update a this' (d_soup d) d)
  | main_worker todo d d' : d_delivers d d' -> main_step (todo, d) (todo, d').

Definition patient_step (s s' : list (Z * Z) * dmesh) : Prop :=
  main_step s s' /\ (s'.1 = s.1 \/ d_quiet s.2).

End DaemonMesh.

Module DaemonMeshFacts.
Import BlockStoreNode DaemonFacts DaemonMesh.

(** ** The corresponding network of service nodes *)

Definition abs_addr (a : PeerAddr) : string * Z := (host a, port a).

#[global] Instance abs_addr_inj : Inj (=) (=) abs_addr.
Proof. intros [h p] [h' p']. by intros [= -> ->]. Qed.

Definition abs_req (c : rpc_call) : ServiceNode.request :=
  match c with CallAddPeer h p => Mesh.add_peer (h, p) end.

Definition abs_call (c : PeerAddr * PeerAddr * rpc_call) : (string * Z) * (string * Z) * ServiceNode.request :=
  (abs_addr c.1.1, abs_addr c.1.2, abs_req c.2).

Definition abs_peers (ps : gmap PeerAddr Peer) : gmap (string * Z) ServiceNode.peer :=
  kmap abs_addr ((fun _ => ServiceNode.Peer []) <$> ps).

Definition abs_node (this : t) : ServiceNode.Internal :=
  ServiceNode.Node (_host this) (_port this) (abs_peers (_peers this)) ∅ ∅ [].

Definition abs_nodes (ns : gmap PeerAddr t) : gmap (string * Z) ServiceNode.Internal :=
  kmap abs_addr (abs_node <$> ns).

Definition abs_pair (c : PeerAddr * PeerAddr) : (string * Z) * (string * Z) := (abs_addr c.1, abs_addr c.2).

#[global] Instance abs_pair_inj : Inj (=) (=) abs_pair.
Proof. intros [[h p] [h' p']] [[i q] [i' q']]. by intros [= -> -> -> ->]. Qed.

(** Same nodes, same calls on their way, same broken connections; clients that were written to have
    been emptied. *)
Record corresponds (d : dmesh) (m : Mesh.mesh) : Prop := {
  cor_nodes : Mesh.nodes m = abs_nodes (d_nodes d);
  cor_soup : Mesh.soup m ≡ₚ abs_call <$> d_soup d;
  cor_idle : Mesh.connecting m = [] /\ Mesh.lost m = abs_pair <$> d_lost d /\ Mesh.gone m = set_map abs_addr (d_gone d);
  cor_clean a this b p : d_nodes d !! a = Some this -> _peers this !! b = Some p -> _client p = Some []
}.

Lemma abs_nodes_lookup ns a : abs_nodes ns !! abs_addr a = abs_node <$> ns !! a.
Proof. unfold abs_nodes. by rewrite (lookup_kmap abs_addr), lookup_fmap. Qed.

Lemma abs_nodes_insert ns a this : abs_nodes (<[a := this]> ns) = <[abs_addr a := abs_node this]> (abs_nodes ns).
Proof. unfold abs_nodes. by rewrite fmap_insert, (kmap_insert abs_addr). Qed.

Lemma abs_peers_lookup ps a : abs_peers ps !! abs_addr a = (fun _ => ServiceNode.Peer []) <$> ps !! a.
Proof. unfold abs_peers. by rewrite (lookup_kmap abs_addr), lookup_fmap. Qed.

Lemma abs_dom ns a : abs_addr a ∈ dom (abs_nodes ns) <-> a ∈ dom ns.
Proof. rewrite !elem_of_dom, abs_nodes_lookup. apply fmap_is_Some. Qed.

Lemma abs_peers_dom ps a : abs_addr a ∈ dom (abs_peers ps) <-> a ∈ dom ps.
Proof. rewrite !elem_of_dom, abs_peers_lookup. apply fmap_is_Some. Qed.

Lemma abs_reachable d m a : corresponds d m -> Mesh.reachable m (abs_addr a) = d_reachable d a.
Proof.
  intros [Hn _ _ _]. unfold Mesh.reachable, d_reachable. apply bool_decide_ext. rewrite Hn. apply abs_dom.
Qed.

(** ** The same calls are written *)

(** The addresses other than [x], in the order of the map. *)
Definition others (x : PeerAddr) (ps : gmap PeerAddr Peer) : list PeerAddr :=
  filter (fun a => addr_ne x a = true) (map_in_order addr_le ps).*1.

Lemma addr_ne_spec a b : addr_ne a b = true <-> a <> b.
Proof.
  unfold addr_ne, addr_eq. rewrite negb_true_iff, andb_false_iff, bool_decide_eq_false, Z.eqb_neq.
  destruct a as [h p], b as [h' p']. simpl. split; [naive_solver|]. intros Hne.
  destruct (decide (h = h')) as [->|]; [right; congruence|by left].
Qed.

Lemma elem_of_others x ps a : a ∈ others x ps <-> x <> a /\ a ∈ dom ps.
Proof. unfold others. by rewrite list_elem_of_filter, addr_ne_spec, map_in_order_keys. Qed.

Lemma NoDup_keys {K A} `{Countable K} (le : K -> K -> bool) (m : gmap K A) : NoDup (map_in_order le m).*1.
Proof. rewrite map_in_order_Permutation. apply NoDup_fst_map_to_list. Qed.

Lemma add_peer_addr_inj : Inj (=) (=) (fun a => Mesh.add_peer (abs_addr a)).
Proof. intros a b Hab. by apply MeshFacts.add_peer_inj in Hab as ->%(inj abs_addr). Qed.

(** What a node with one new peer writes. *)
Lemma d_outbox_clean ps : (forall b p, ps !! b = Some p -> _client p = Some []) ->
  (map_to_list ps ≫= fun '(b, p) => (fun c => (b, c)) <$> default [] (_client p)) = @nil (PeerAddr * rpc_call).
Proof.
  intros Hc. apply elem_of_nil_inv. intros [b c]. rewrite list_elem_of_bind. intros ([b' p] & Hin & Hp).
  apply elem_of_map_to_list in Hp. rewrite (Hc _ _ Hp) in Hin. by apply elem_of_nil in Hin.
Qed.

Lemma d_outbox_new this x cs bs :
  (forall b p, _peers this !! b = Some p -> _client p = Some []) -> _peers this !! x = None ->
  d_outbox (with_peers (<[x := mkPeer (Some cs) bs]> (_peers this)) this) ≡ₚ (fun c => (x, c)) <$> cs.
Proof.
  intros Hc Hx. unfold d_outbox. cbn [_peers with_peers].
  rewrite map_in_order_Permutation, map_to_list_insert, bind_cons by done. cbn [_client default from_option].
  rewrite d_outbox_clean by done. by rewrite app_nil_r.
Qed.

Lemma outbox_new (this : ServiceNode.Internal) x rs :
  MeshFacts.clean this -> ServiceNode._peers this !! x = None ->
  Mesh.outbox (ServiceNode.set_peers (<[x := ServiceNode.Peer rs]> (ServiceNode._peers this)) this)
  ≡ₚ (fun r => (x, r)) <$> rs.
Proof.
  intros Hc Hx. unfold Mesh.outbox. cbn [ServiceNode._peers ServiceNode.set_peers].
  rewrite map_in_order_Permutation, map_to_list_insert, bind_cons by done. cbn [ServiceNode.calls].
  assert ((map_to_list (ServiceNode._peers this) ≫= fun '(b, p) => (fun r => (b, r)) <$> ServiceNode.calls p) = [])
    as ->; [|by rewrite app_nil_r].
  apply elem_of_nil_inv. intros c. rewrite list_elem_of_bind. intros ([b p] & Hin & Hp%elem_of_map_to_list).
  rewrite (Hc _ _ Hp) in Hin. by apply elem_of_nil in Hin.
Qed.

(** [RPCAddPeer] for an address the daemon does not know. *)
Lemma RPCAddPeer_calls x this :
  _peers this !! x = None ->
  RPCAddPeer true (host x) (port x) this =
    Ok (None, with_peers (<[x := mkPeer (Some (CallAddPeer (_host this) (_port this) ::
      ((fun a => CallAddPeer (host a) (port a)) <$> others x (<[x := mkPeer (Some [CallAddPeer (_host this) (_port this)]) []]> (_peers this))))) []]>
      (_peers this)) this).
Proof.
  intros Hn. destruct x as [h p]. unfold RPCAddPeer. cbn [host port]. rewrite Hn.
  cbn [connect setDisconnectCallback deref mbind outcome_bind _client].
  rewrite (introduce_spec _ _ _ [CallAddPeer (_host this) (_port this)]) by done.
  cbn [mbind outcome_bind app]. unfold with_peers. cbn [_host _port _peers _blockstores _bsids].
  by rewrite !insert_insert_eq.
Qed.

Lemma abs_peers_insert ps x p : abs_peers (<[x := p]> ps) = <[abs_addr x := ServiceNode.Peer []]> (abs_peers ps).
Proof. unfold abs_peers. by rewrite fmap_insert, (kmap_insert abs_addr). Qed.

Lemma abs_clean this : MeshFacts.clean (abs_node this).
Proof.
  intros b p. cbn [abs_node ServiceNode._peers]. unfold abs_peers.
  intros (a & -> & Ha)%(lookup_kmap_Some abs_addr). rewrite lookup_fmap in Ha.
  by apply fmap_Some in Ha as (? & _ & ->).
Qed.

Lemma abs_introductions x p this : 
  ServiceNode.introductions (abs_addr x) (abs_node (with_peers (<[x := p]> (_peers this)) this))
  ≡ₚ (fun a => Mesh.add_peer (abs_addr a)) <$> others x (<[x := p]> (_peers this)).
Proof.
  pose proof add_peer_addr_inj. pose proof (MeshFacts.add_peer_inj : Inj (=) (=) Mesh.add_peer).
  unfold ServiceNode.introductions. cbn [abs_node ServiceNode._peers with_peers _peers].
  set (ps := <[x := p]> (_peers this)).
  apply NoDup_Permutation.
  - apply NoDup_fmap_2_strong.
    + intros [a q] [b q'] Ha Hb Hab. apply (MeshFacts.add_peer_inj a b) in Hab. subst b.
      apply list_elem_of_filter in Ha as [_ Ha%elem_of_map_in_order], Hb as [_ Hb%elem_of_map_in_order].
      congruence.
    + apply NoDup_filter. rewrite map_in_order_Permutation. apply NoDup_map_to_list.
  - apply (NoDup_fmap_2 _), NoDup_filter, NoDup_keys.
  - intros r. rewrite !list_elem_of_fmap. split.
    + intros ([a q] & -> & [Hne Ha%elem_of_map_in_order]%list_elem_of_filter).
      unfold abs_peers in Ha. apply (lookup_kmap_Some abs_addr) in Ha as (b & -> & Hb).
      exists b. split; [done|]. apply elem_of_others. split; [congruence|].
      rewrite lookup_fmap in Hb. apply fmap_Some in Hb as (? & ? & _). by eapply elem_of_dom_2.
    + intros (b & -> & [Hne [q Hb]%elem_of_dom]%elem_of_others). exists (abs_addr b, ServiceNode.Peer []).
      split; [done|]. apply list_elem_of_filter. split; [intros Heq; by apply Hne, (inj abs_addr)|].
      apply elem_of_map_in_order. by rewrite abs_peers_lookup, Hb.
Qed.

Lemma flushed_abs this : Mesh.flushed (abs_node this) = abs_node (d_flushed this).
Proof.
  unfold Mesh.flushed, abs_node, ServiceNode.set_peers. simpl. f_equal.
  unfold abs_peers. by rewrite <- (kmap_fmap abs_addr), <- !map_fmap_compose.
Qed.

Lemma d_flushed_clean this :
  (forall b p, _peers this !! b = Some p -> is_Some (_client p)) ->
  forall b p, _peers (d_flushed this) !! b = Some p -> _client p = Some [].
Proof.
  intros Hc b p. simpl. rewrite lookup_fmap. intros (q & Hq & ->)%fmap_Some. simpl.
  by destruct (Hc b q Hq) as [cs ->].
Qed.

(** One operation of the daemon, next to the one of the service node. *)
Definition matches (this' : t) (ab : ServiceNode.Internal) : Prop :=
  Mesh.flushed ab = abs_node (d_flushed this') /\
  Mesh.outbox ab ≡ₚ (fun '(b, c) => (abs_addr b, abs_req c)) <$> d_outbox this' /\
  (forall b p, _peers (d_flushed this') !! b = Some p -> _client p = Some []).

Lemma matches_idle this :
  (forall b p, _peers this !! b = Some p -> _client p = Some []) -> matches this (abs_node this).
Proof.
  intros Hc. split_and!; [apply flushed_abs| |apply d_flushed_clean; intros b p Hb; rewrite (Hc _ _ Hb); by eexists].
  rewrite MeshFacts.clean_outbox by apply abs_clean.
  unfold d_outbox. by rewrite map_in_order_Permutation, d_outbox_clean.
Qed.

Lemma RPCAddPeer_sim x up this ret this' :
  (forall b p, _peers this !! b = Some p -> _client p = Some []) ->
  RPCAddPeer up (host x) (port x) this = Ok (ret, this') ->
  matches this' (ServiceNode.RPCAddPeer up (host x) (port x) (abs_node this)).2.
Proof.
  intros Hc Hrun. unfold ServiceNode.RPCAddPeer, ServiceNode.addPeer_lookup.
  change (host x, port x) with (abs_addr x). cbn [abs_node ServiceNode._peers]. rewrite abs_peers_lookup.
  destruct (_peers this !! x) as [q|] eqn:Ex; cbn [fmap option_fmap option_map snd].
  - unfold RPCAddPeer in Hrun. destruct x as [h p]. cbn [host port] in Hrun. rewrite Ex in Hrun.
    injection Hrun as <- <-. by apply matches_idle.
  - assert (up = true) as -> by
      (destruct up, x; [done|]; unfold RPCAddPeer in Hrun; cbn [host port] in Hrun; by rewrite Ex in Hrun).
    rewrite (RPCAddPeer_calls x this Ex) in Hrun. injection Hrun as <- <-.
    set (p0 := mkPeer (Some [CallAddPeer (_host this) (_port this)]) []). cbn [snd].
    unfold ServiceNode.addPeer_locked, ServiceNode.set_peers. cbn [ServiceNode._peers ServiceNode._host ServiceNode._port ServiceNode._groups
      ServiceNode._group_callbacks]. rewrite insert_insert_eq.
    match goal with |- matches _ (ServiceNode.Node _ _ (<[_ := ServiceNode.Peer ?rs]> _) _ _ _) =>
      change (matches (with_peers (<[x := mkPeer (Some (CallAddPeer (_host this) (_port this) ::
        ((fun a => CallAddPeer (host a) (port a)) <$> others x (<[x := p0]> (_peers this))))) []]> (_peers this)) this)
        (ServiceNode.set_peers (<[abs_addr x := ServiceNode.Peer rs]> (ServiceNode._peers (abs_node this))) (abs_node this)))
    end.
    split_and!.
    + rewrite <- flushed_abs. unfold Mesh.flushed, abs_node, ServiceNode.set_peers. simpl. f_equal.
      by rewrite abs_peers_insert, !fmap_insert.
    + rewrite outbox_new, d_outbox_new by (done || apply abs_clean || (cbn; by rewrite abs_peers_lookup, Ex)).
      rewrite !fmap_cons. apply Permutation_cons; [done|].
      change (ServiceNode.memberships _) with (@nil ServiceNode.request). rewrite app_nil_r.
      match goal with |- context [ServiceNode.introductions _ ?n] =>
        assert (n = abs_node (with_peers (<[x := p0]> (_peers this)) this)) as ->
          by (unfold abs_node; cbn [_peers with_peers]; by rewrite abs_peers_insert) end.
      by rewrite abs_introductions, <- !list_fmap_compose.
    + apply d_flushed_clean. intros b p. simpl.
      intros [[<- <-]|[_ Hb]]%lookup_insert_Some; [by eexists|rewrite (Hc _ _ Hb); by eexists].
Qed.

(** ** Simulation *)

(** What [RPCAddPeer] writes goes to a new peer that is up. *)
Lemma RPCAddPeer_outbox x up this ret this' b c :
  (forall b p, _peers this !! b = Some p -> _client p = Some []) ->
  RPCAddPeer up (host x) (port x) this = Ok (ret, this') -> (b, c) ∈ d_outbox this' -> b = x /\ up = true.
Proof.
  intros Hc Hrun. destruct (_peers this !! x) as [q|] eqn:Ex.
  - unfold RPCAddPeer in Hrun. destruct x as [h p]. cbn [host port] in Hrun. rewrite Ex in Hrun.
    injection Hrun as <- <-. unfold d_outbox. rewrite map_in_order_Permutation, d_outbox_clean by done.
    by intros ?%elem_of_nil.
  - destruct up.
    + rewrite (RPCAddPeer_calls x this Ex) in Hrun. injection Hrun as <- <-. rewrite d_outbox_new by done.
      by intros (? & [= -> ->] & _)%list_elem_of_fmap.
    + unfold RPCAddPeer in Hrun. destruct x. cbn [host port] in Hrun. by rewrite Ex in Hrun.
Qed.

Lemma filter_everything {A} (P : A -> Prop) `{forall x, Decision (P x)} (l : list A) :
  (forall x, x ∈ l -> P x) -> filter P l = l.
Proof.
  induction l as [|x l IH]; intros Hl; [done|]. rewrite filter_cons, decide_True by (apply Hl; left).
  f_equal. apply IH. intros y Hy. apply Hl. by right.
Qed.

Lemma corresponds_update d m a this this' ab rest drest dlst :
  corresponds d m -> d_nodes d !! a = Some this -> matches this' ab -> rest ≡ₚ abs_call <$> drest ->
  (forall b c, (b, c) ∈ d_outbox this' -> b ∈ dom (d_nodes d)) ->
  corresponds (d_lose dlst (d_update a this' drest d)) (Mesh.update (abs_addr a) ab rest [] (abs_pair <$> dlst) m).
Proof.
  intros [Hn Hs Hi Hc] Ha (Hf & Ho & Hcl) Hr Hout.
  split; cbn [d_lose d_update d_nodes d_soup d_lost d_gone Mesh.update Mesh.nodes Mesh.soup Mesh.connecting Mesh.lost Mesh.gone].
  - by rewrite abs_nodes_insert, Hn, Hf.
  - unfold Mesh.sent. rewrite Ho, filter_everything, fmap_app, Hr, <- !list_fmap_compose.
    + apply Permutation_app_head. apply Permutation_refl'. apply list_fmap_ext. by intros _ [b c] _.
    + intros [b r] ([b' c] & [= -> ->] & Hin)%list_elem_of_fmap. simpl. rewrite Hn. apply abs_dom. by eapply Hout.
  - split_and!; [done..|]. apply Hi.
  - intros x t b p [[<- <-]|[_ Hx]]%lookup_insert_Some; [apply Hcl|by apply (Hc x)].
Qed.

(** A call on its way to [a] is on its way in the other network, too. *)
Lemma corresponds_delete d m i c :
  corresponds d m -> d_soup d !! i = Some c ->
  exists j, Mesh.soup m !! j = Some (abs_call c) /\ delete j (Mesh.soup m) ≡ₚ abs_call <$> delete i (d_soup d).
Proof.
  intros [_ Hs _ _] Hi. pose proof (delete_Permutation _ _ _ Hi) as Hp.
  rewrite Hp, fmap_cons in Hs.
  assert (abs_call c ∈ Mesh.soup m) as [j Hj]%list_elem_of_lookup by (rewrite Hs; left).
  exists j. split; [done|]. rewrite (delete_Permutation _ _ _ Hj) in Hs. by apply Permutation_cons_inv in Hs.
Qed.

(** [RPCAddPeer] of a daemon at [a], for a call that is missing from [rest],
    is both parts of the [RPCAddPeer] of a service node. *)
Lemma addPeer_sim d m a x this ret this' rest drest :
  corresponds d m -> d_nodes d !! a = Some this ->
  RPCAddPeer (d_reachable d x) (host x) (port x) this = Ok (ret, this') -> rest ≡ₚ abs_call <$> drest ->
  exists m', corresponds (d_update a this' drest d) m' /\
    rtc Mesh.delivers (Mesh.update (abs_addr a) (abs_node this) rest
      (Mesh.looked_up m (abs_addr a) (abs_addr x) (abs_node this)) (Mesh.lost m) m) m'.
Proof.
  intros Hcor Ha Hrun Hr. pose proof Hcor as [Hn Hs Hi Hc].
  eexists. split; [|apply MeshFacts.atomic_addPeer; [apply abs_clean|by rewrite Hn, abs_nodes_lookup, Ha|apply Hi]].
  rewrite (proj1 (proj2 Hi)).
  apply (corresponds_update _ _ _ this _ _ _ _ (d_lost d)); [done..| |exact Hr|].
  - rewrite (abs_reachable _ _ _ Hcor). apply (RPCAddPeer_sim x _ this ret); eauto.
  - intros b c Hin. destruct (RPCAddPeer_outbox _ _ _ _ _ _ _ (fun b p => Hc a this b p Ha) Hrun Hin) as [-> Hx].
    by apply bool_decide_eq_true in Hx.
Qed.

(** [RemovePeer] does to the peers what that of a service node does. *)
Lemma RemovePeer_sim x this this' :
  (forall b p, _peers this !! b = Some p -> _client p = Some []) -> RemovePeer x this = Ok this' ->
  matches this' (ServiceNode.RemovePeer (abs_addr x) (abs_node this)) /\ d_outbox this' = [].
Proof.
  intros Hc Hrun. unfold RemovePeer in Hrun. destruct (_peers this !! x) as [q|] eqn:Ex; [|done].
  injection Hrun as <-. set (this' := with_peers _ _).
  assert (forall b p, _peers this' !! b = Some p -> _client p = Some []) as Hc'.
  { intros b p Hb. cbn in Hb. apply lookup_delete_Some in Hb as [_ Hb]. by eapply Hc. }
  replace (ServiceNode.RemovePeer (abs_addr x) (abs_node this)) with (abs_node this').
  - split; [by apply matches_idle|]. unfold d_outbox. apply Permutation_nil_r.
    by rewrite map_in_order_Permutation, d_outbox_clean.
  - unfold ServiceNode.RemovePeer, ServiceNode.set_peers, abs_node. simpl. f_equal.
    unfold abs_peers. by rewrite fmap_delete, (kmap_delete abs_addr).
Qed.

Lemma d_delivers_sim d d' m :
  corresponds d m -> d_delivers d d' -> exists m1 m', Mesh.delivers m m1 /\ rtc Mesh.delivers m1 m' /\ corresponds d' m'.
Proof.
  intros Hcor Hd. pose proof Hcor as [Hn Hs (Hi1 & Hi2 & Hi3) Hc].
  destruct Hd as [i s a h p this ret this' Hi Ha Hrun|j a x this this' Hj Ha Hrun].
  - destruct (corresponds_delete _ _ _ _ Hcor Hi) as (j & Hj & Hdel).
    destruct (addPeer_sim d m a (mkAddr h p) this ret this' _ _ Hcor Ha Hrun Hdel) as (m' & Hm' & Hd).
    do 2 eexists. split; [|split; [exact Hd|exact Hm']].
    eapply Mesh.deliver_addPeer; [exact Hj|]. by rewrite Hn, abs_nodes_lookup, Ha.
  - destruct (RemovePeer_sim x this this' (fun b p => Hc a this b p Ha) Hrun) as [Hmat Hout].
    do 2 eexists. split; [|split; [apply rtc_refl|]].
    + eapply (Mesh.deliver_disconnect m j (abs_addr a) (abs_addr x)).
      * rewrite Hi2, list_lookup_fmap, Hj. done.
      * by rewrite Hn, abs_nodes_lookup, Ha.
    + rewrite Hi1, Hi2, <- list_fmap_delete.
      apply (corresponds_update d m a this); [done..|]. rewrite Hout. by intros b c ?%elem_of_nil.
Qed.

Lemma delivers_steps m m' : rtc Mesh.delivers m m' -> rtc Mesh.step m m'.
Proof. apply rtc_subrel. by left. Qed.

Lemma abs_gone (X : gset PeerAddr) a : abs_addr a ∈ (set_map abs_addr X : gset (string * Z)) <-> a ∈ X.
Proof.
  rewrite elem_of_map. split; [|intros Ha; by exists a]. by intros (b & ->%(inj abs_addr) & Hb).
Qed.

Lemma elem_of_notices d a b x :
  (b, x) ∈ d_notices d a <-> x = a /\ b <> a /\ a ∈ d_peers d b.
Proof.
  unfold d_notices. rewrite list_elem_of_fmap. setoid_rewrite elem_of_elements. setoid_rewrite elem_of_filter. split.
  - intros (b' & [= -> ->] & [? ?] & _). done.
  - intros (-> & Hne & Ha). exists b. split_and!; [done..|]. unfold d_peers in Ha. apply elem_of_dom.
    destruct (d_nodes d !! b); [by eexists|set_solver].
Qed.

Lemma filter_fmap_iff {A B} (f : A -> B) (P : B -> Prop) (Q : A -> Prop) `{forall x, Decision (P x), forall x, Decision (Q x)} (l : list A) :
  (forall x, P (f x) <-> Q x) -> filter P (f <$> l) = f <$> filter Q l.
Proof.
  intros HPQ. induction l as [|x l IH]; [done|]. rewrite fmap_cons, !filter_cons, IH.
  destruct (decide (Q x)) as [Hx|Hx]; rewrite <- HPQ in Hx; by case_decide.
Qed.

(** A node that leaves. *)
Lemma leave_sim d d' m a :
  corresponds d m -> d_leaves a d d' -> exists m', corresponds d' m' /\ rtc Mesh.step m m'.
Proof.
  intros [Hn Hs (Hi1 & Hi2 & Hi3) Hc] [rest Ha Hsub Hall]. eexists. split; [|apply rtc_once; right;
    apply (Mesh.act_leave m (abs_addr a) (abs_call <$> rest) (abs_pair <$> d_notices d a))].
  - split; cbn [Mesh.nodes Mesh.soup Mesh.connecting Mesh.lost Mesh.gone d_nodes d_soup d_lost d_gone].
    + rewrite Hn. unfold abs_nodes. by rewrite fmap_delete, (kmap_delete abs_addr).
    + done.
    + rewrite Hi1, Hi2, Hi3. split_and!; [done| |].
      * rewrite fmap_app. f_equal. apply filter_fmap_iff. intros [b x]. simpl.
        split; [congruence|]. intros Hne Heq. by apply Hne, (inj abs_addr).
      * by rewrite set_map_union_L, set_map_singleton_L.
    + intros b this b' p [_ Hb]%lookup_delete_Some. by eapply Hc.
  - rewrite Hn. by apply abs_dom.
  - intros c ([[s b] r] & -> & Hin)%list_elem_of_fmap. eapply elem_of_submseteq in Hin; [|exact Hsub].
    apply list_elem_of_filter in Hin as [Hne Hin]. split; [rewrite Hs; by apply list_elem_of_fmap_2|].
    intros Heq. by apply Hne, (inj abs_addr).
  - intros c. rewrite Hs. intros ([[s b] r] & -> & Hin)%list_elem_of_fmap Hf Ht. apply list_elem_of_fmap_2.
    eapply elem_of_submseteq; [|exact Hall]. apply list_elem_of_filter. split; [|done].
    split; simpl; intros ->; [by apply Hf|by apply Ht].
  - intros b ab. rewrite Hn. unfold abs_nodes. intros (b' & -> & Hb)%(lookup_kmap_Some abs_addr) Hne Hpeer.
    rewrite lookup_fmap in Hb. apply fmap_Some in Hb as (this & Hb & ->). apply abs_peers_dom in Hpeer.
    apply (list_elem_of_fmap_2 abs_pair _ (b', a)). apply elem_of_notices. split_and!; [done|congruence|].
    unfold d_peers. by rewrite Hb.
  - intros b x ([b' x'] & [= -> ->] & Hin)%list_elem_of_fmap. apply elem_of_notices in Hin as (-> & Hne & Hp).
    split_and!; [done|intros Heq; by apply Hne, (inj abs_addr)|]. rewrite Hn. apply abs_dom, elem_of_dom.
    unfold d_peers in Hp. destruct (d_nodes d !! b'); [by eexists|]. clear -Hp. set_solver.
Qed.

Lemma dstep_sim d d' m :
  corresponds d m -> dstep d d' -> exists m', corresponds d' m' /\ rtc Mesh.step m m'.
Proof.
  intros Hcor Hstep. pose proof Hcor as [Hn Hs (Hi1 & Hi2 & Hi3) Hc].
  destruct Hstep as [d' Hdel|a Ha Hg|a b this ret this' Ha Hab Hrun|a bsid path this Ha|a d' Hl]; [..|by eapply leave_sim].
  - destruct (d_delivers_sim d d' m Hcor Hdel) as (m1 & m' & ? & ? & ?). exists m'. split; [done|].
    eapply rtc_l; [by left|by apply delivers_steps].
  - eexists. split; [|apply rtc_once; right; apply (Mesh.act_create _ (abs_addr a)); [rewrite Hn; by rewrite abs_dom|rewrite Hi3; by rewrite abs_gone]].
    split; cbn [Mesh.nodes Mesh.soup Mesh.connecting Mesh.lost Mesh.gone d_nodes d_soup d_lost d_gone]; [|done|done|].
    + rewrite abs_nodes_insert, Hn. done.
    + intros x t b p [[<- <-]|[_ Hx]]%lookup_insert_Some; [simpl; by rewrite lookup_empty|by apply (Hc x)].
  - destruct (addPeer_sim d m a b this ret this' _ _ Hcor Ha Hrun Hs) as (m' & Hm' & Hd). exists m'. split; [done|].
    eapply rtc_l; [|by apply delivers_steps]. right. apply Mesh.act_addPeer.
    + by rewrite Hn, abs_nodes_lookup, Ha.
    + intros Heq. by apply Hab, (inj abs_addr).
  - exists m. split; [|apply rtc_refl]. destruct (matches_idle this) as (Hf & Ho & Hcl); [eauto|].
    split; cbn [d_update d_nodes d_soup d_lost d_gone]; [| |done|].
    + rewrite abs_nodes_insert, insert_id; [done|]. rewrite abs_nodes_lookup, Ha. simpl. f_equal.
      change (abs_node this = abs_node (d_flushed this)). rewrite <- flushed_abs. symmetry. apply MeshFacts.flushed_idle, abs_clean.
    + rewrite fmap_app, Hs. change (d_outbox (addBlockStore bsid path this)) with (d_outbox this).
      assert (d_outbox this = []) as ->; [|by rewrite app_nil_r].
      unfold d_outbox. apply Permutation_nil_r. by rewrite map_in_order_Permutation, d_outbox_clean by eauto.
    + intros x t b p [[<- <-]|[_ Hx]]%lookup_insert_Some; [apply Hcl|by apply (Hc x)].
Qed.

(** Every network of daemons stands for a network of service nodes. *)
Definition stands_for (d : dmesh) (m : Mesh.mesh) : Prop := corresponds d m /\ rtc Mesh.step Mesh.empty_mesh m.

Lemma run_sim d d' m : rtc dstep d d' -> stands_for d m -> exists m', stands_for d' m' /\ rtc Mesh.step m m'.
Proof.
  intros Hrun. revert m. induction Hrun as [d|d d1 d' Hstep _ IH]; intros m [Hcor Hm]; [exists m; split; [by split|done]|].
  destruct (dstep_sim _ _ _ Hcor Hstep) as (m1 & Hcor1 & Hm1).
  destruct (IH m1) as (m' & Hs & Hm'); [split; [done|by etrans]|]. exists m'. split; [done|by etrans].
Qed.

Lemma empty_stands : stands_for d_empty Mesh.empty_mesh.
Proof. split; [|done]. split; cbn; [done..|by rewrite set_map_empty|]. intros a this b p Ha. by rewrite lookup_empty in Ha. Qed.

Lemma reach_stands d : rtc dstep d_empty d -> exists m, stands_for d m.
Proof. intros Hd. destruct (run_sim _ _ _ Hd empty_stands) as (m & ? & _). by exists m. Qed.

Lemma abs_peers_of d m a b : corresponds d m -> abs_addr b ∈ Mesh.peers_of m (abs_addr a) <-> b ∈ d_peers d a.
Proof.
  intros [Hn _ _ _]. unfold Mesh.peers_of, d_peers. rewrite Hn, abs_nodes_lookup.
  destruct (d_nodes d !! a) as [this|]; simpl; [apply abs_peers_dom|set_solver].
Qed.

Lemma abs_quiet d m : corresponds d m -> d_quiet d -> Mesh.quiet m.
Proof.
  intros [_ Hs (Hi1 & Hi2 & _) _] [Hq Hl]. rewrite Hq in Hs. apply Permutation_nil_r in Hs. rewrite Hl in Hi2. by split_and!.
Qed.

(** ** No call is refused *)

(** [RPCAddPeer] succeeds for a peer that is up. *)
Lemma RPCAddPeer_succeeds x this : exists ret this', RPCAddPeer true (host x) (port x) this = Ok (ret, this').
Proof.
  destruct (_peers this !! x) as [q|] eqn:E; [|by rewrite (RPCAddPeer_calls _ _ E); eauto].
  unfold RPCAddPeer. destruct x as [h p]. cbn [host port]. rewrite E. eauto.
Qed.

Lemma RPCAddPeer_dom up x this ret this' :
  RPCAddPeer up (host x) (port x) this = Ok (ret, this') -> dom (_peers this') = {[x]} ∪ dom (_peers this).
Proof.
  destruct x as [h p]. cbn [host port]. intros Hrun. destruct (RPCAddPeer_ok _ _ _ _ _ _ Hrun) as [->|(cs & -> & _)].
  - destruct (_peers this !! mkAddr h p) as [q|] eqn:E; [apply elem_of_dom_2 in E; set_solver|].
    destruct up; [rewrite (RPCAddPeer_calls (mkAddr h p) this E : RPCAddPeer true h p this = _) in Hrun|].
    + injection Hrun as _ Heq. rewrite <- Heq in E. cbn in E. by rewrite lookup_insert_eq in E.
    + unfold RPCAddPeer in Hrun. by rewrite E in Hrun.
  - simpl. by rewrite dom_insert_L.
Qed.

(** What is known of a call on its way. *)
Lemma call_known d m s a h p :
  stands_for d m -> (s, a, CallAddPeer h p) ∈ d_soup d ->
  a ∈ dom (d_nodes d) /\ mkAddr h p <> a /\ (mkAddr h p ∈ dom (d_nodes d) \/ mkAddr h p ∈ d_gone d).
Proof.
  intros [Hcor Hm] Hin. destruct (MeshFacts.reach_meshed m Hm) as [orig Hmesh]. pose proof Hcor as [Hn Hs (_ & _ & Hg) _].
  assert (abs_call (s, a, CallAddPeer h p) ∈ Mesh.soup m) as Hin' by (rewrite Hs; by apply list_elem_of_fmap_2).
  destruct (MeshFacts.mesh_call _ _ Hmesh _ _ _ Hin') as [Ha [(x & Hx & Hxa & Hup)|(g & v & ?)]]; [|done].
  apply (MeshFacts.add_peer_inj (h, p) x) in Hx as <-. unfold MeshFacts.seen, MeshFacts.up in *.
  rewrite Hn in Ha, Hup. rewrite Hg in Hup. apply abs_dom in Ha. split_and!; [done|intros <-; by apply Hxa|].
  destruct Hup as [Hup|Hup]; [left; by apply (abs_dom _ (mkAddr h p))|right; by apply (abs_gone _ (mkAddr h p))].
Qed.

(** A call is executed unless it names a node that cannot be reached and is
    not a peer. *)
Lemma RPCAddPeer_faults up x this f : RPCAddPeer up (host x) (port x) this = Fault f ->
  up = false /\ x ∉ dom (_peers this).
Proof.
  intros Hrun. destruct up; [by destruct (RPCAddPeer_succeeds x this) as (? & ? & E); rewrite E in Hrun|].
  split; [done|]. intros [q E]%elem_of_dom. unfold RPCAddPeer in Hrun. destruct x as [h p]. cbn [host port] in Hrun.
  by rewrite E in Hrun.
Qed.

Lemma RPCAddPeer_refuses x this : x ∉ dom (_peers this) -> RPCAddPeer false (host x) (port x) this = Fault NullDeref.
Proof.
  intros E%not_elem_of_dom. unfold RPCAddPeer. destruct x as [h p]. cbn [host port]. by rewrite E.
Qed.

(** *** Broken connections *)

(** Each callback that is still to run is that of a peer that has gone. *)
Record lost_ok (d : dmesh) : Prop := {
  lost_once : NoDup (d_lost d);
  lost_peer a x : (a, x) ∈ d_lost d -> x ∈ d_peers d a /\ x ∈ d_gone d;
  gone_down x : x ∈ d_gone d -> x ∉ dom (d_nodes d)
}.

Lemma d_update_peers d a this' rest x :
  d_peers (d_update a this' rest d) x = if decide (x = a) then dom (_peers this') else d_peers d x.
Proof.
  unfold d_peers. cbn [d_update d_nodes]. case_decide; subst.
  - rewrite lookup_insert_eq. simpl. apply dom_fmap_L.
  - by rewrite lookup_insert_ne.
Qed.

Lemma d_update_dom d a this this' rest : d_nodes d !! a = Some this -> dom (d_nodes (d_update a this' rest d)) = dom (d_nodes d).
Proof. intros Ha%elem_of_dom_2. cbn. rewrite dom_insert_L. set_solver. Qed.

Lemma d_update_grows d a this this' new rest x :
  d_nodes d !! a = Some this -> dom (_peers this') = new ∪ dom (_peers this) ->
  d_peers d x ⊆ d_peers (d_update a this' rest d) x.
Proof.
  intros Ha Hp. rewrite d_update_peers. case_decide; [subst|done]. unfold d_peers. rewrite Ha, Hp. set_solver.
Qed.

Lemma lost_ok_update d a this this' new rest :
  lost_ok d -> d_nodes d !! a = Some this -> dom (_peers this') = new ∪ dom (_peers this) -> lost_ok (d_update a this' rest d).
Proof.
  intros [Ho Hp Hg] Ha Hnew. split; [done| |].
  - intros b x Hin. destruct (Hp b x Hin) as [Hx ?]. split; [|done]. by eapply d_update_grows.
  - intros x Hx. rewrite (d_update_dom _ _ _ _ _ Ha). by apply Hg.
Qed.

Lemma RemovePeer_dom x this this' : RemovePeer x this = Ok this' -> dom (_peers this') = dom (_peers this) ∖ {[x]}.
Proof.
  unfold RemovePeer. destruct (_peers this !! x); [|done]. intros [= <-]. apply dom_delete_L.
Qed.

Lemma lost_ok_disconnect d j a x this this' :
  lost_ok d -> d_lost d !! j = Some (a, x) -> d_nodes d !! a = Some this -> RemovePeer x this = Ok this' ->
  lost_ok (d_lose (delete j (d_lost d)) (d_update a this' (d_soup d) d)).
Proof.
  intros [Ho Hp Hg] Hj Ha Hrun. apply RemovePeer_dom in Hrun. pose proof (delete_Permutation _ _ _ Hj) as Hperm.
  pose proof Ho as Ho'. rewrite Hperm in Ho'. apply NoDup_cons in Ho' as [Hnot Ho'].
  split; cbn [d_lose d_lost d_gone d_nodes d_update]; [done| |].
  - intros b y Hin. destruct (Hp b y) as [Hy ?]; [rewrite Hperm; by right|]. split; [|done].
    change (y ∈ d_peers (d_update a this' (d_soup d) d) b). rewrite d_update_peers. case_decide; [subst b|done].
    rewrite Hrun. unfold d_peers in Hy. rewrite Ha in Hy. apply elem_of_difference. split; [done|].
    intros ->%elem_of_singleton. by apply Hnot.
  - intros y Hy. apply Hg in Hy. rewrite dom_insert_L. apply elem_of_dom_2 in Ha. clear -Hy Ha. set_solver.
Qed.

Lemma lost_ok_leave d a d' : lost_ok d -> d_leaves a d d' -> lost_ok d'.
Proof.
  intros [Ho Hp Hg] [rest Ha _ _]. split; cbn [d_lost d_gone d_nodes].
  - apply NoDup_app. split_and!; [by apply NoDup_filter| |].
    + intros [b x] [_ Hin]%list_elem_of_filter (-> & _)%elem_of_notices. destruct (Hp _ _ Hin) as [_ Hx]. by apply Hg in Hx.
    + unfold d_notices. apply (NoDup_fmap_2 _), NoDup_elements.
  - intros b x [[Hne Hin]%list_elem_of_filter|(-> & Hne & Hx)%elem_of_notices]%elem_of_app; simpl in Hne.
    + destruct (Hp _ _ Hin). unfold d_peers. cbn [d_nodes]. rewrite lookup_delete_ne by done.
      split; [done|]. by apply elem_of_union_r.
    + unfold d_peers. cbn [d_nodes]. rewrite lookup_delete_ne by done. split; [done|].
      apply elem_of_union_l. by apply elem_of_singleton.
  - intros x Hx. rewrite dom_delete_L. apply elem_of_union in Hx as [->%elem_of_singleton|Hx%Hg]; clear -Hx || clear; set_solver.
Qed.

Lemma dstep_lost_ok d d' : lost_ok d -> dstep d d' -> lost_ok d'.
Proof.
  intros Hok Hstep. destruct Hstep as [d' [i s a h p this ret this' _ Ha Hrun|j a x this this' Hj Ha Hrun]|a Ha Hg|
    a b this ret this' Ha _ Hrun|a bsid path this Ha|a d' Hl].
  - eapply lost_ok_update; [done..|]. by apply (RPCAddPeer_dom _ (mkAddr h p) _ _ _ Hrun).
  - by eapply lost_ok_disconnect.
  - destruct Hok as [Ho Hp Hgd]. split; cbn [d_lost d_gone d_nodes]; [done| |].
    + intros b x Hin. destruct (Hp b x Hin) as [Hx ?]. split; [|done]. unfold d_peers in *. cbn [d_nodes].
      rewrite lookup_insert_ne; [done|]. intros <-. apply not_elem_of_dom in Ha. rewrite Ha in Hx. by apply not_elem_of_empty in Hx.
    + intros x Hx. rewrite dom_insert_L. intros [->%elem_of_singleton|Hd]%elem_of_union; [done|by apply (Hgd x)].
  - eapply lost_ok_update; [done..|]. by eapply RPCAddPeer_dom.
  - eapply (lost_ok_update _ _ _ _ ∅); [done..|]. simpl. by rewrite (left_id_L ∅ _).
  - by eapply lost_ok_leave.
Qed.

Lemma reach_lost_ok d : rtc dstep d_empty d -> lost_ok d.
Proof.
  assert (lost_ok d_empty) as H0.
  { split; [constructor|by intros a x ?%elem_of_nil|by intros x ?%not_elem_of_empty]. }
  intros Hrun. revert H0. induction Hrun; eauto using dstep_lost_ok.
Qed.

(** A disconnect callback finds its peer. *)
Lemma notice_served d a x : lost_ok d -> (a, x) ∈ d_lost d ->
  exists this this', d_nodes d !! a = Some this /\ RemovePeer x this = Ok this'.
Proof.
  intros Hok Hin. destruct (lost_peer _ Hok _ _ Hin) as [Hx _]. unfold d_peers in Hx.
  destruct (d_nodes d !! a) as [this|]; [|by apply not_elem_of_empty in Hx]. exists this.
  apply elem_of_dom in Hx as [q Hq]. unfold RemovePeer. rewrite Hq. by eexists.
Qed.

(** The calls run out. *)
Lemma d_acc d m : corresponds d m -> Acc (fun m1 m0 => Mesh.delivers m0 m1) m -> Acc (fun d1 d0 => d_delivers d0 d1) d.
Proof.
  intros Hcor Hacc. revert d Hcor.
  enough (forall m', rtc Mesh.delivers m m' -> forall d, corresponds d m' -> Acc (fun d1 d0 => d_delivers d0 d1) d)
    as H by (intros d; by apply H).
  induction Hacc as [m _ IH]. intros m' Hm' d Hcor. constructor. intros d1 Hd.
  destruct (d_delivers_sim _ _ _ Hcor Hd) as (m1 & m2 & Hm1 & Hm2 & Hcor2).
  destruct (rtc_inv _ _ Hm') as [->|(m0 & H1 & H2)].
  - by apply (IH m1 Hm1 m2).
  - apply (IH m0 H1 m2); [|done]. etrans; [exact H2|]. by eapply rtc_l.
Qed.

Lemma reach_acc d : rtc dstep d_empty d -> Acc (fun d1 d0 => d_delivers d0 d1) d.
Proof.
  intros (m & Hcor & Hm)%reach_stands. destruct (MeshFacts.reach_meshed m Hm) as [orig Hmesh].
  eapply d_acc; [done|]. by eapply MeshFacts.delivers_acc.
Qed.

Lemma d_delivers_dom d d' : d_delivers d d' -> dom (d_nodes d') = dom (d_nodes d) /\ d_gone d' = d_gone d.
Proof. intros [i s a h p this ret this' _ Ha _|j a x this this' _ Ha _]; (split; [|done]); by apply (d_update_dom d a this). Qed.

Lemma d_works_step d d' : d_works d d' -> dstep d d'.
Proof. intros [Hd|[s a h p this up f d'' _ _ _ _ Hl]]; [by apply d_worker|by eapply d_leave]. Qed.

(** A crash leaves one node less; between crashes the calls run out. *)
Lemma works_acc n : forall d, (size (dom (d_nodes d)) < n)%nat -> rtc dstep d_empty d -> Acc (fun d1 d0 => d_works d0 d1) d.
Proof.
  induction n as [|n IHn]; intros d Hn Hd; [lia|]. pose proof (reach_acc d Hd) as Hacc.
  induction Hacc as [d _ IH]. constructor. intros d1 Hw.
  pose proof (rtc_r _ _ _ Hd (d_works_step _ _ Hw)) as Hd1. destruct Hw as [Hdel|Hcr].
  - apply IH; [done| |done]. by rewrite (proj1 (d_delivers_dom _ _ Hdel)).
  - apply IHn; [|done]. destruct Hcr as [s a h p this up f d1 _ _ _ _ [rest Ha _ _]]. cbn [d_nodes].
    rewrite dom_delete_L, size_difference by (clear -Ha; set_solver). rewrite size_singleton.
    assert (size (dom (d_nodes d)) <> 0%nat) by (rewrite size_non_empty_iff; clear -Ha; set_solver). lia.
Qed.

(** Something can be done until nothing is left. *)
Lemma works_progress d : rtc dstep d_empty d -> d_quiet d \/ exists d', d_works d d' /\ (d_gone d = ∅ -> d_delivers d d').
Proof.
  intros Hd. pose proof (reach_lost_ok d Hd) as Hok. destruct (reach_stands d Hd) as [m Hm].
  destruct (d_lost d) as [|[a x] l] eqn:El.
  2:{ right. destruct (notice_served d a x Hok) as (this & this' & Ha & E); [rewrite El; left|].
      assert (d_delivers d (d_lose (delete 0%nat (d_lost d)) (d_update a this' (d_soup d) d))) as Hs
        by (eapply d_disconnect; [by rewrite El|done|done]). eexists. split; [by left|done]. }
  destruct (d_soup d) as [|[[s a] [h p]] l] eqn:Es; [by left|right].
  assert ((s, a, CallAddPeer h p) ∈ d_soup d) as Hin by (rewrite Es; left).
  destruct (call_known d m s a h p Hm Hin) as (Ha & Hne & Hseen). apply elem_of_dom in Ha as Ha'. destruct Ha' as [this Hthis].
  destruct (RPCAddPeer (d_reachable d (mkAddr h p)) h p this) as [[ret this']|f] eqn:E.
  - assert (d_delivers d (d_update a this' (delete 0%nat (d_soup d)) d)) as Hs by (eapply d_deliver; [by rewrite Es|done|done]).
    eexists. split; [by left|done].
  - eexists. split; [right; eapply d_crash; [exact Hin|exact Hthis| |exact E|]; [done|]|].
    + apply (d_left a d (filter (fun c => c.1.1 <> a /\ c.1.2 <> a) (d_soup d))); [done| |done].
      rewrite <- list_filter_filter. apply sublist_submseteq, sublist_filter.
    + intros Hg. apply (RPCAddPeer_faults _ (mkAddr h p)) in E as [E _]. apply bool_decide_eq_false in E.
      rewrite Hg in Hseen. exfalso. clear -Hseen E. set_solver.
Qed.

Lemma reach_settles d : rtc dstep d_empty d ->
  exists d', rtc d_works d d' /\ d_quiet d' /\ (d_gone d = ∅ -> rtc d_delivers d d').
Proof.
  intros Hd. pose proof (works_acc _ d (Nat.lt_succ_diag_r _) Hd) as Hacc. induction Hacc as [d _ IH].
  destruct (works_progress d Hd) as [Hq|(d1 & Hw & Hdel)]; [exists d; split_and!; [apply rtc_refl|done|intros; apply rtc_refl]|].
  destruct (IH d1 Hw) as (d' & Hrun & Hq & Hd'); [eapply rtc_r; [exact Hd|by apply d_works_step]|].
  exists d'. split_and!; [by eapply rtc_l|done|]. intros Hg. specialize (Hdel Hg).
  eapply rtc_l; [exact Hdel|]. apply Hd'. by rewrite (proj2 (d_delivers_dom _ _ Hdel)).
Qed.

(** Linked daemons end up connected. *)
Lemma quiet_full d (link : relation PeerAddr) a b :
  rtc dstep d_empty d -> d_quiet d -> (forall x y, link x y -> y ∈ d_peers d x) -> rtc link a b -> a <> b ->
  b ∈ d_peers d a /\ a ∈ d_peers d b.
Proof.
  intros (m & Hcor & Hm)%reach_stands Hq Hlink Hab Hne.
  destruct (MeshFacts.reach_meshed m Hm) as [orig Hmesh]. pose proof (abs_quiet _ _ Hcor Hq) as Hmq.
  assert (rtc (fun x y => y ∈ Mesh.peers_of m x) (abs_addr a) (abs_addr b)) as Hl.
  { clear Hne. induction Hab as [x|x y z Hxy _ IH]; [apply rtc_refl|]. eapply rtc_l; [|exact IH].
    apply (abs_peers_of _ _ _ _ Hcor). by apply Hlink. }
  destruct (MeshFacts.quiet_clique m orig _ _ Hmesh Hmq Hl) as [Heq|Hb]; [by apply (inj abs_addr) in Heq|].
  split; apply (abs_peers_of _ _ _ _ Hcor); [done|]. by eapply MeshFacts.quiet_symmetric.
Qed.

(** ** The demonstration *)

Definition local (p : Z) : PeerAddr := mkAddr "127.0.0.1" p.

(** As long as all nodes are up no connection breaks. *)
Lemma stay_lost d : rtc dstep d_empty d -> d_gone d = ∅ -> d_lost d = [].
Proof.
  intros Hd Hg. apply elem_of_nil_inv. intros [a x] Hin.
  destruct (lost_peer _ (reach_lost_ok d Hd) _ _ Hin) as [_ Hx]. rewrite Hg in Hx. by apply not_elem_of_empty in Hx.
Qed.

(** The state of [main]: which of its calls have been made. *)
Record main_inv (ports : list Z) (calls : list (Z * Z)) (s : list (Z * Z) * dmesh) : Prop := {
  inv_reach : rtc dstep d_empty s.2;
  inv_stay : d_gone s.2 = ∅;
  inv_up p : p ∈ ports -> local p ∈ dom (d_nodes s.2);
  inv_calls : exists made, calls = made ++ s.1 /\ forall p q, (p, q) ∈ made -> local q ∈ d_peers s.2 (local p)
}.

Section Main.
Context (ports : list Z) (calls : list (Z * Z)).
Context (Hcalls : forall p q, (p, q) ∈ calls -> p ∈ ports /\ q ∈ ports /\ p <> q).

Lemma todo_call p q todo d : main_inv ports calls ((p, q) :: todo, d) -> p ∈ ports /\ q ∈ ports /\ p <> q.
Proof using Hcalls.
  intros [_ _ _ (made & E & _)]. simpl in E. apply Hcalls. rewrite E. apply elem_of_app. right. left.
Qed.

Lemma main_preserved s s' : main_inv ports calls s -> main_step s s' -> main_inv ports calls s'.
Proof using Hcalls.
  intros Hinv Hstep. destruct Hstep as [p q todo d this ret this' a b Ha Hrun|todo d d' Hd].
  - destruct (todo_call _ _ _ _ Hinv) as (_ & Hq & Hpq). destruct Hinv as [Hr Hg Hup (made & E & Hmade)]. simpl in *.
    unfold addPeer in Hrun. pose proof (RPCAddPeer_dom _ b _ _ _ Hrun) as Hdom. split; cbn [fst snd].
    + eapply rtc_r; [exact Hr|]. eapply d_addPeer; [exact Ha| |exact Hrun].
      intros Heq. apply Hpq. by injection Heq.
    + done.
    + intros x Hx. rewrite (d_update_dom _ _ _ _ _ Ha). by apply Hup.
    + exists (made ++ [(p, q)]). split; [by rewrite <- app_assoc|]. intros x y [Hxy|[= -> ->]%list_elem_of_singleton]%elem_of_app.
      * eapply d_update_grows; [exact Ha|exact Hdom|by apply Hmade].
      * rewrite d_update_peers, decide_True by done. rewrite Hdom. apply elem_of_union_l. by apply elem_of_singleton.
  - destruct Hinv as [Hr Hg Hup (made & E & Hmade)]. simpl in *. split; cbn [fst snd].
    + eapply rtc_r; [exact Hr|]. by apply d_worker.
    + by rewrite (proj2 (d_delivers_dom _ _ Hd)).
    + intros x Hx. rewrite (proj1 (d_delivers_dom _ _ Hd)). by apply Hup.
    + exists made. split; [done|]. intros x y Hxy.
      destruct Hd as [i s a h p this ret this' _ Ha Hrun|j a z this this' Hj _ _]; [|by rewrite (stay_lost d Hr Hg) in Hj].
      eapply d_update_grows; [exact Ha| |by apply Hmade]. by apply (RPCAddPeer_dom _ (mkAddr h p) _ _ _ Hrun).
Qed.

Lemma main_run s s' : main_inv ports calls s -> rtc main_step s s' -> main_inv ports calls s'.
Proof using Hcalls. intros Hinv Hrun. revert Hinv. induction Hrun; eauto using main_preserved. Qed.

Lemma main_waits s : main_inv ports calls s -> exists d, rtc patient_step s (s.1, d) /\ d_quiet d.
Proof.
  intros [Hr Hg _ _]. destruct s as [todo d]. simpl in *. destruct (reach_settles d Hr) as (d2 & _ & Hq & Hdel).
  exists d2. split; [|done]. specialize (Hdel Hg). clear -Hdel.
  induction Hdel as [|x y z Hxy _ IH]; [apply rtc_refl|]. eapply rtc_l; [|exact IH].
  split; [by apply main_worker|by left].
Qed.

Lemma patient_run s s' : rtc patient_step s s' -> rtc main_step s s'.
Proof. intros Hrun. eapply rtc_subrel; [|exact Hrun]. by intros ? ? [? _]. Qed.

(** [main] gets through its calls, and then the network comes to rest. *)
Lemma main_comes_to_rest s : main_inv ports calls s -> exists d, rtc patient_step s ([], d) /\ d_quiet d.
Proof using Hcalls.
  destruct s as [todo d]. revert d. induction todo as [|[p q] todo IH]; intros d0 Hinv0; [by apply (main_waits ([], d0))|].
  destruct (main_waits _ Hinv0) as (d & Hwait & Hquiet). simpl in Hwait.
  pose proof (main_run _ _ Hinv0 (patient_run _ _ Hwait)) as Hinv.
  destruct (todo_call _ _ _ _ Hinv) as (Hp & Hq & _). pose proof (inv_up _ _ _ Hinv) as Hup. simpl in Hup.
  destruct (proj1 (elem_of_dom _ _) (Hup p Hp)) as [this Ha].
  destruct (RPCAddPeer_succeeds (local q) this) as (ret & this' & E).
  assert (main_step ((p, q) :: todo, d) (todo, d_update (local p) this' (d_soup d) d)) as Hstep.
  { eapply main_addPeer; [exact Ha|]. unfold addPeer, d_reachable. rewrite bool_decide_eq_true_2 by (by apply Hup). exact E. }
  destruct (IH _ (main_preserved _ _ Hinv Hstep)) as (d' & Hrun & Hq'). exists d'. split; [|done].
  etrans; [exact Hwait|]. eapply rtc_l; [|exact Hrun]. split; [done|by right].
Qed.

End Main.

Lemma create_nodes ports : forall d,
  NoDup ports -> d_gone d = ∅ -> (forall p, p ∈ ports -> local p ∉ dom (d_nodes d)) ->
  let d' := foldl (fun d p => create_node p d) d ports in
  rtc dstep d d' /\ d_gone d' = ∅ /\ forall a, a ∈ dom (d_nodes d') <-> a ∈ dom (d_nodes d) \/ exists p, p ∈ ports /\ a = local p.
Proof.
  induction ports as [|p ports IH]; intros d Hnd Hg Hnew; cbn zeta; cbn [foldl].
  - split_and!; [apply rtc_refl|done|]. intros a. split; [by left|]. intros [?|(p & Hp & _)]; [done|by apply elem_of_nil in Hp].
  - apply NoDup_cons in Hnd as [Hp Hnd].
    assert (forall a, a ∈ dom (d_nodes (create_node p d)) <-> a = local p \/ a ∈ dom (d_nodes d)) as Hdom.
    { intros a. cbn. by rewrite dom_insert_L, elem_of_union, elem_of_singleton. }
    destruct (IH (create_node p d) Hnd Hg) as (Hrun & Hg' & Hdom').
    { intros q Hq. rewrite Hdom. intros [[= ->]|Hin]; [done|]. by apply (Hnew q); [right|]. }
    split_and!; [eapply rtc_l; [|exact Hrun]; apply d_create; [apply Hnew; left|by rewrite Hg; apply not_elem_of_empty]|done|].
    intros a. rewrite Hdom', Hdom. setoid_rewrite elem_of_cons. naive_solver.
Qed.

Lemma node_addBlockStore_run p bsid path d :
  rtc dstep d (node_addBlockStore p bsid path d) /\ d_gone (node_addBlockStore p bsid path d) = d_gone d /\
  dom (d_nodes (node_addBlockStore p bsid path d)) = dom (d_nodes d).
Proof.
  unfold node_addBlockStore. destruct (d_nodes d !! _) as [this|] eqn:E; [|split; [apply rtc_refl|done]].
  split_and!; [apply rtc_once; by eapply d_addBlockStore|done|]. by eapply d_update_dom.
Qed.

Lemma add_stores (l : list (Z * Z * string)) : forall d,
  let d' := foldl (fun d '(p, bsid, path) => node_addBlockStore p bsid path d) d l in
  rtc dstep d d' /\ d_gone d' = d_gone d /\ dom (d_nodes d') = dom (d_nodes d).
Proof.
  induction l as [|[[p bsid] path] l IH]; intros d; cbn zeta; cbn [foldl]; [split; [apply rtc_refl|done]|].
  destruct (node_addBlockStore_run p bsid path d) as (Hrun & Hg & Hdom), (IH (node_addBlockStore p bsid path d)) as (Hrun' & Hg' & Hdom').
  split_and!; [by etrans|by rewrite Hg'|by rewrite Hdom'].
Qed.

(** The nodes and the stores of [main], in order. *)
Definition main_stores (p1 p2 p3 : Z) : list (Z * Z * string) :=
  [(p1, 0x01234567, "./01234567/"); (p1, 0x89abcdef, "./89abcdef/"); (p2, 0x00112233, "./00112233/");
   (p2, 0x44556677, "./44556677/"); (p3, 0x8899aabb, "./8899aabb/"); (p3, 0xccddeeff, "./ccddeeff/")]%string.

#[local] Opaque create_node node_addBlockStore.
Lemma main_setup_folds p1 p2 p3 p4 p5 : main_setup p1 p2 p3 p4 p5 =
  foldl (fun d '(p, bsid, path) => node_addBlockStore p bsid path d)
    (foldl (fun d p => create_node p d) d_empty [p1; p2; p3; p4; p5]) (main_stores p1 p2 p3).
Proof. reflexivity. Qed.
#[local] Transparent create_node node_addBlockStore.

Lemma setup_inv p1 p2 p3 p4 p5 : NoDup [p1; p2; p3; p4; p5] ->
  main_inv [p1; p2; p3; p4; p5] (main_peers p1 p2 p3 p4 p5) (main_peers p1 p2 p3 p4 p5, main_setup p1 p2 p3 p4 p5).
Proof.
  intros Hnd. destruct (create_nodes [p1; p2; p3; p4; p5] d_empty Hnd eq_refl) as (Hrun & Hg & Hdom).
  { intros p _. cbn. set_solver. }
  destruct (add_stores (main_stores p1 p2 p3) (foldl (fun d p => create_node p d) d_empty [p1; p2; p3; p4; p5]))
    as (Hrun' & Hg' & Hdom').
  rewrite <- main_setup_folds in Hrun', Hg', Hdom'. split; cbn [fst snd].
  - by etrans.
  - by rewrite Hg'.
  - intros p Hp. rewrite Hdom'. apply Hdom. right. eauto.
  - exists []. split; [done|]. intros p q Hin. by apply elem_of_nil in Hin.
Qed.

Lemma ring_calls p1 p2 p3 p4 p5 : NoDup [p1; p2; p3; p4; p5] -> forall p q,
  (p, q) ∈ main_peers p1 p2 p3 p4 p5 -> p ∈ [p1; p2; p3; p4; p5] /\ q ∈ [p1; p2; p3; p4; p5] /\ p <> q.
Proof.
  rewrite !NoDup_cons. intros Hnd p q. unfold main_peers. rewrite !elem_of_cons in *. intros Hin.
  rewrite !elem_of_nil in *. naive_solver.
Qed.

(** From each node of the ring to each other one. *)
Definition main_link (p1 p2 p3 p4 p5 : Z) (x y : PeerAddr) : Prop :=
  exists p q, (p, q) ∈ main_peers p1 p2 p3 p4 p5 /\ x = local p /\ y = local q.

Lemma ring_linked p1 p2 p3 p4 p5 p q :
  p ∈ [p1; p2; p3; p4; p5] -> q ∈ [p1; p2; p3; p4; p5] -> rtc (main_link p1 p2 p3 p4 p5) (local p) (local q).
Proof.
  set (R := main_link p1 p2 p3 p4 p5).
  assert (forall p q, (p, q) ∈ main_peers p1 p2 p3 p4 p5 -> R (local p) (local q)) as Hl by (intros ? ? ?; do 2 eexists; eauto).
  unfold main_peers in Hl.
  assert (R (local p1) (local p2) /\ R (local p2) (local p3) /\ R (local p3) (local p4) /\ R (local p4) (local p5) /\
    R (local p5) (local p1)) as (H1 & H2 & H3 & H4 & H5) by (split_and!; apply Hl; rewrite !elem_of_cons; auto 8).
  assert (forall p, p ∈ [p1; p2; p3; p4; p5] -> rtc R (local p1) (local p) /\ rtc R (local p) (local p1)) as Hall.
  { intros x. rewrite !elem_of_cons, elem_of_nil. intros [->|[->|[->|[->|[->|[]]]]]]; split; eauto 8 using rtc_l, rtc_refl. }
  intros Hp Hq. etrans; [by apply Hall|by apply Hall].
Qed.

End DaemonMeshFacts.

(** ** Properties *)

Module DaemonMeshProps.
Import BlockStoreNode DaemonMesh DaemonMeshFacts.


(** C36. What a departure does to the others, where each node executes one call
    at a time: a call on its way faults exactly if no connection to the node
    it names is made and this node is not a peer already, which happens to
    nodes that have gone or do not accept the connection; a disconnect
    callback finds its peer.  Calls, callbacks and crashes come to an end, and
    lead to a network where nothing is going on; as long as no node has left,
    it can be reached without a crash. *)
Theorem daemon_calls_served (d : dmesh) (Hreach : rtc dstep d_empty d) :
  (forall s a h p, (s, a, CallAddPeer h p) ∈ d_soup d -> exists this, d_nodes d !! a = Some this /\ mkAddr h p <> a /\
     (d_reachable d (mkAddr h p) = true <-> mkAddr h p ∉ d_gone d) /\
     forall connected, if decide (connected = false /\ mkAddr h p ∉ dom (_peers this))
       then RPCAddPeer connected h p this = Fault NullDeref
       else exists ret this', RPCAddPeer connected h p this = Ok (ret, this')) /\
  (forall a x, (a, x) ∈ d_lost d -> exists this this', d_nodes d !! a = Some this /\ RemovePeer x this = Ok this') /\
  Acc (fun d1 d0 => d_works d0 d1) d /\
  exists d', rtc d_works d d' /\ d_quiet d' /\ (d_gone d = ∅ -> rtc d_delivers d d').
Proof.
  pose proof (reach_lost_ok d Hreach) as Hok.
  split_and!; [|by intros a x; apply notice_served|eapply works_acc; [apply Nat.lt_succ_diag_r|done]|by apply reach_settles].
  intros s a h p Hin. destruct (reach_stands d Hreach) as [m Hm].
  destruct (call_known d m s a h p Hm Hin) as ([this Ha]%elem_of_dom & Hne & Hseen). exists this. split_and!; [done..| |].
  - unfold d_reachable. rewrite bool_decide_eq_true. pose proof (gone_down _ Hok (mkAddr h p)). tauto.
  - intros connected. case_decide as Hx; [destruct Hx as [-> Hx]; by apply (RPCAddPeer_refuses (mkAddr h p))|].
    destruct (RPCAddPeer connected h p this) as [[ret this']|f] eqn:E; [by eauto|]. exfalso. apply Hx.
    by apply (RPCAddPeer_faults _ (mkAddr h p)) in E.
Qed.


(** C38. The demonstration succeeds, where connections to nodes that are up are
    made and a node executes one call at a time: with five different ports,
    [main] gets through its calls and the network comes to rest, whatever has
    happened so far and even if it waits before each of its calls until
    nothing is going on; and whenever [main] has made its calls and no call is
    on its way, each of the five nodes is connected to all the others. *)
Theorem main_full_mesh (p1 p2 p3 p4 p5 : Z) (s : list (Z * Z) * dmesh)
  (Hports : NoDup [p1; p2; p3; p4; p5])
  (Hrun : rtc main_step (main_peers p1 p2 p3 p4 p5, main_setup p1 p2 p3 p4 p5) s) :
  (exists d, rtc patient_step s ([], d) /\ d_quiet d) /\
  (s.1 = [] -> d_soup s.2 = [] -> forall p q, p ∈ [p1; p2; p3; p4; p5] -> q ∈ [p1; p2; p3; p4; p5] -> p <> q ->
     local q ∈ d_peers s.2 (local p)).
Proof.
  pose proof (ring_calls _ _ _ _ _ Hports) as Hcalls.
  pose proof (main_run _ _ Hcalls _ _ (setup_inv _ _ _ _ _ Hports) Hrun) as Hinv.
  split; [by eapply main_comes_to_rest|]. intros Htodo Hq p q Hp Hq' Hne.
  destruct Hinv as [Hr Hg _ (made & E & Hmade)]. rewrite Htodo, app_nil_r in E. subst made.
  eapply (quiet_full s.2 (main_link p1 p2 p3 p4 p5)); [done|by split; [|apply stay_lost]| |by apply ring_linked|by intros [= ->]].
  intros ? ? (? & ? & Hin & -> & ->). by apply Hmade.
Qed.

(** ** Witnesses *)

Definition peer_up (a b : PeerAddr) (d : dmesh) : dmesh :=
  match d_nodes d !! a with
  | Some this => match addPeer (d_reachable d b) (host b) (port b) this with
                 | Ok (_, this') => d_update a this' (d_soup d) d
                 | Fault _ => d
                 end
  | None => d
  end.

(** The node [a] goes down and takes what it wrote with it. *)
Definition left_by (a : PeerAddr) (d : dmesh) : dmesh :=
  mkDMesh (delete a (d_nodes d)) (filter (fun c => c.1.1 <> a /\ c.1.2 <> a) (d_soup d))
    (filter (fun c => c.1 <> a) (d_lost d) ++ d_notices d a) ({[a]} ∪ d_gone d).

Lemma left_by_leaves a d : a ∈ dom (d_nodes d) -> d_leaves a d (left_by a d).
Proof.
  intros Ha. apply d_left; [done| |done]. rewrite <- list_filter_filter. apply sublist_submseteq, sublist_filter.
Qed.

(** Node 1 is connected to node 3 and then to node 2, so that it tells node 2
    about node 3; then node 3 goes down. *)
Definition three : dmesh := create_node 3 (create_node 2 (create_node 1 d_empty)).
Definition introduced : dmesh := peer_up (local 1) (local 2) (peer_up (local 1) (local 3) three).
Definition departed : dmesh := left_by (local 3) introduced.

Lemma create_step p d : d_nodes d !! local p = None -> d_gone d = ∅ -> dstep d (create_node p d).
Proof. intros Hp Hg. apply (d_create d (local p)); [by apply not_elem_of_dom|rewrite Hg; apply not_elem_of_empty]. Qed.

Lemma peer_up_step a b d : is_Some (d_nodes d !! a) -> a <> b -> is_Some (d_nodes d !! b) -> dstep d (peer_up a b d).
Proof.
  intros [this Ha] Hab Hb%elem_of_dom. unfold peer_up. rewrite Ha.
  destruct (RPCAddPeer_succeeds b this) as (ret & this' & E).
  assert (addPeer (d_reachable d b) (host b) (port b) this = Ok (ret, this')) as E'
    by (unfold addPeer, d_reachable; by rewrite bool_decide_eq_true_2).
  rewrite E'. by eapply d_addPeer.
Qed.

Lemma reach_departed : rtc dstep d_empty departed.
Proof.
  unfold departed, introduced, three.
  eapply rtc_r; [|apply (d_leave _ (local 3)), left_by_leaves, elem_of_dom; vm_compute; eauto].
  do 2 (eapply rtc_r; [|apply peer_up_step; [vm_compute; eauto|done|vm_compute; eauto]]).
  do 3 (eapply rtc_r; [|apply create_step; reflexivity]). apply rtc_refl.
Qed.


(** Node 2 crashes when it hears of node 3. *)
Lemma daemon_calls_served_witness : exists this, d_nodes departed !! local 2 = Some this /\ local 3 <> local 2 /\
  (d_reachable departed (local 3) = true <-> local 3 ∉ d_gone departed) /\
  forall connected, if decide (connected = false /\ local 3 ∉ dom (_peers this))
    then RPCAddPeer connected "127.0.0.1" 3 this = Fault NullDeref
    else exists ret this', RPCAddPeer connected "127.0.0.1" 3 this = Ok (ret, this').
Proof.
  apply (proj1 (daemon_calls_served departed reach_departed) (local 1)). vm_compute. right. left.
Defined.

Lemma node_2_crashes : exists this, d_nodes departed !! local 2 = Some this /\
  RPCAddPeer (d_reachable departed (local 3)) "127.0.0.1" 3 this = Fault NullDeref.
Proof. eexists. split; vm_compute; reflexivity. Qed.

(** The whole demonstration, with the callbacks and then the calls executed in
    the order in which they are made. *)
Definition d_next (d : dmesh) : option dmesh :=
  match d_lost d, d_soup d with
  | (a, x) :: rest, _ =>
      this ← d_nodes d !! a;
      match RemovePeer x this with
      | Ok this' => Some (d_lose rest (d_update a this' (d_soup d) d))
      | Fault _ => None
      end
  | [], (_, a, CallAddPeer h p) :: rest =>
      this ← d_nodes d !! a;
      match RPCAddPeer (d_reachable d (mkAddr h p)) h p this with
      | Ok (_, this') => Some (d_update a this' rest d)
      | Fault _ => None
      end
  | [], [] => None
  end.

Lemma d_next_delivers d d' : d_next d = Some d' -> d_delivers d d'.
Proof.
  unfold d_next. destruct (d_lost d) as [|[a x] rest] eqn:El.
  - destruct (d_soup d) as [|[[s a] [h p]] rest] eqn:Es; [done|].
    destruct (d_nodes d !! a) as [this|] eqn:Ea; [|done]. simpl.
    destruct (RPCAddPeer _ h p this) as [[ret this']|] eqn:Er; [|done]. intros [= <-].
    pose proof (d_deliver d 0 s a h p this ret this') as Hd. rewrite Es in Hd. by apply Hd.
  - destruct (d_nodes d !! a) as [this|] eqn:Ea; [|done]. simpl.
    destruct (RemovePeer x this) as [this'|] eqn:Er; [|done]. intros [= <-].
    pose proof (d_disconnect d 0 a x this this') as Hd. rewrite El in Hd. by apply Hd.
Qed.

Fixpoint d_all (fuel : nat) (d : dmesh) : dmesh :=
  match fuel with
  | O => d
  | S fuel => match d_next d with Some d' => d_all fuel d' | None => d end
  end.

Definition ring_up : dmesh :=
  peer_up (local 5) (local 1) (peer_up (local 4) (local 5) (peer_up (local 3) (local 4)
    (peer_up (local 2) (local 3) (peer_up (local 1) (local 2) (main_setup 1 2 3 4 5))))).

Definition at_rest : dmesh := d_all 100 ring_up.

Lemma d_all_run fuel : forall d, rtc d_delivers d (d_all fuel d).
Proof.
  induction fuel as [|fuel IH]; intros d; [apply rtc_refl|]. simpl.
  destruct (d_next d) as [d'|] eqn:E; [|apply rtc_refl]. eapply rtc_l; [by apply d_next_delivers|apply IH].
Qed.

Lemma peer_up_run p q todo d :
  is_Some (d_nodes d !! local p) -> local q ∈ dom (d_nodes d) ->
  main_step ((p, q) :: todo, d) (todo, peer_up (local p) (local q) d).
Proof.
  intros [this Ha] Hq. unfold peer_up. rewrite Ha.
  destruct (RPCAddPeer_succeeds (local q) this) as (ret & this' & E).
  assert (addPeer (d_reachable d (local q)) (host (local q)) (port (local q)) this = Ok (ret, this')) as E'
    by (unfold addPeer, d_reachable; by rewrite bool_decide_eq_true_2).
  rewrite E'. by eapply main_addPeer.
Qed.

Lemma reach_rest : rtc main_step (main_peers 1 2 3 4 5, main_setup 1 2 3 4 5) ([], at_rest).
Proof.
  unfold main_peers, at_rest, ring_up.
  do 5 (eapply rtc_l; [apply peer_up_run; [vm_compute; eauto|apply elem_of_dom; vm_compute; eauto]|]).
  eapply (rtc_congruence (fun d => ([], d))); [|apply d_all_run]. intros d d'. apply main_worker.
Qed.





Lemma main_full_mesh_witness : local 3 ∈ d_peers at_rest (local 5).
Proof.
  pose proof (main_full_mesh 1 2 3 4 5 ([], at_rest)) as Hmain. cbn [fst snd] in Hmain.
  apply Hmain.
  - apply (bool_decide_unpack _). vm_compute. exact I.
  - exact reach_rest.
  - reflexivity.
  - vm_compute. reflexivity.
  - apply (bool_decide_unpack _). vm_compute. exact I.
  - apply (bool_decide_unpack _). vm_compute. exact I.
  - discriminate.
Defined.

End DaemonMeshProps.
